(* ===== verification/_CoqProject ===== *)
-Q . S2P
Prelude.v
IndexSets.v
Graph.v
GraphInv.v
GraphMark.v
GraphLinks.v
GraphRead.v
GraphUpdate.v
GraphRun.v
GraphEffect.v
GraphSystem.v
GraphProps.v
SlotMaps.v
Owner.v
OwnerTree.v
OwnerOps.v
OwnerProps.v
RustStr.v
RouteMatch.v
RouteFacts.v
Routes.v
RoutesFacts.v
Paths.v
PathFacts.v
RouterProps.v
Params.v
UrlProps.v
ServerFnError.v
KeyedDiff.v
KeyedApply.v
KeyedProps.v
ConstConcat.v
Dom.v
Views.v
ViewSpec.v
ViewInst.v
ViewVec.v
ViewProps.v
Html.v
HtmlProps.v
HtmlReader.v
Stream.v
StreamViews.v
StreamProps.v
FieldKeys.v
Stores.v
Patch.v
StoreAccess.v
StoreProps.v
PatchProps.v
PatchKeyedProps.v
StoreCases.v
HotReload.v
HotEdits.v
HotFacts.v
HotCases.v
AsyncDerived.v
AsyncFacts.v
AsyncProps.v
Actions.v
JsScript.v
Attributes.v
AttrFacts.v
AttrProps.v
AttrHtml.v
AttrCases.v
HydrationContext.v
HydrationFacts.v
HydrationProps.v
SharedData.v
SharedDataProps.v
Outlets.v
OutletFacts.v
OutletSteps.v
OutletProps.v
ErrorBoundary.v
ErrorFacts.v
ErrorProps.v
