(* ===== verification/Prelude.v ===== *)
(** * Leptos: a verification development

    Leptos is a web framework in Rust: a reactive graph decides what has to be
    computed again, owners decide what has to be cleaned up, a router decides
    which views a URL stands for, views are rendered into a DOM, and server
    functions connect a client to its server, which renders the views to HTML
    and sends its data along.  This library is a shallow
    embedding of the parts with logic of their own: every operation is a
    function on explicit states, written after the source and executable.

    ** Conventions

    - Rust's panics are values: a computation is in [outcome] ([Ok], [Panic],
      or [NoFuel] when a recursion that is not structural runs out of fuel), and
      code that changes shared state is in [stateM].  That an operation does not
      panic or run out of fuel is a theorem with the conditions it needs, never
      an assumption, and where it panics in spite of them there is an example.
    - [Arc], [Rc] and arena references are addresses ([nat]) in a finite map;
      [Weak::upgrade] is a lookup.
    - Strings are lists of bytes ([RustStr]); slicing checks its boundaries.
    - Third-party crates and the browser are parameters: [IndexSet], [SlotMap],
      [Dom] and [Element] are classes with laws and a concrete instance, the
      [url], [base64] and [html_escape] crates are section variables with their
      documented behaviour as hypotheses.
    - A future is what polls make of it: a number of pending polls and a result,
      a list of the polls at which something happens, or a tree of reads.  Tasks
      are steps that interleave in any order.

    ** The reactive graph ([reactive_graph/src/graph], [computed], [signal], [effect])

    [Graph] has the nodes (signals, memos, effects), the observer, the push half
    ([mark_dirty], [mark_check] of [computed/inner.rs] and [effect/inner.rs]) and
    the pull half ([update_if_necessary]), tracking and untracking
    ([graph/subscriber.rs], [subscriber_traits.rs]), the two write handles (one
    keeps the subscribers, one takes them) and the tasks of effects.  User
    closures are interaction trees of reads and writes ([comp]).  [GraphInv]
    states the invariant and the specification [spec_value], a recomputation
    without caches; [GraphMark], [GraphLinks], [GraphRead], [GraphUpdate],
    [GraphRun], [GraphEffect] prove each operation against them;
    [GraphSystem] has the step relation of whole programs.  [GraphProps]: reads
    are never stale, every operation terminates, writes wake effects, polls run
    on fresh values; and programs on which an update does not arrive.
    Fuel is the number of allocated nodes: closures only read older nodes, so
    every path in the graph is shorter.

    ** Asynchronous derived values ([computed/async_derived], [suspense_component.rs])

    [AsyncDerived] has one [ArcAsyncDerived] with its state, versions, wakers and
    task, the two handles for writing, reads and awaits, and the task handles of
    a [SuspenseContext].  Its function gives a future as a tree of reads of
    sources and pending polls; the sources are an environment.  A poll of the
    task takes at most four turns of its loop, which is the fuel.  [AsyncFacts]
    has the invariant, [AsyncProps]: left alone, a value settles, holds what its
    function gives on the current sources, and has woken everyone who waits; a
    written value stays until the next run; and changes that are lost.

    ** Actions ([reactive_graph/src/actions])

    [Actions] has [ArcAction] and [ArcMultiAction] with their tasks: the last
    dispatch decides on the value of an action, and every submission of a
    multi-action gets its own result.

    ** Owners ([reactive_graph/src/owner.rs], [owner/])

    [SlotMaps] has vectors with capacities and the slot map of the arena,
    [Owner] the tree, cleanup, pausing, contexts, arena items and the two
    storages; [OwnerTree] shows that owners form a forest and what a walk of it
    does, [OwnerOps] the single operations, [OwnerProps] the theorems: cleanup
    runs everything below once, contexts come from the nearest provider, pausing
    reaches the whole subtree.  Fuel is the number of owners, which are younger
    than their parents.

    ** The router ([router/src/matching], [static_routes.rs], [params.rs], [location/])

    [RouteMatch] has segments and tuples of segments, [Routes] nested routes,
    their matching and the list [generate_routes] makes of them, [Paths] the
    expansion of optional segments, the paths of static routes and the
    resolution of links.  [RouteFacts], [RoutesFacts] and
    [PathFacts] give specifications by concatenation of segments, [RouterProps]
    the theorems: no test panics (but for a lone slash in a tuple), a tuple
    tries the longest route first, the router agrees with the flat route list,
    static paths lead back to their routes, links stay on the site.  The fuel of
    a tuple is its number of optional segments, that of the expansion twice the
    number of its results.  [Params] models the parameters and the requests of
    the server, [UrlProps] shows that [ParamsMap] implements a map and that query
    strings are read back.

    ** Nested routes on the page ([router/src/nested_router.rs])

    [Outlets] has one outlet for each level of a match, their signals, cells and
    view functions in a heap, building, hydrating and rebuilding them, and the
    tasks that a navigation spawns: preloads finish one by one, in any order, and
    can be aborted.  [OutletFacts] says what building and rebuilding do with the
    heap, by a frame of the addresses that are written, and that the ids of a
    match determine which levels have children; [OutletSteps] has the steps
    between navigations and the invariants.  [OutletProps]: the page shows the
    match of the current URL once everything is loaded, views of common routes
    stay, a route that was left is left alone; and four ways in which loads that
    are under way go wrong.  The fuel of rendering is the number of addresses,
    which is more than that of outlets.

    ** Server functions ([server_fn/src/error.rs])

    [ServerFnError] models how errors travel in bodies, strings and URLs, and
    shows that they arrive; the URL is read by the model of the router's [Url].

    ** Keyed lists and constant strings ([tachys/src/view/keyed.rs], [const_str_slice_concat])

    [KeyedDiff] models keyed lists: the difference of two key sets and its
    application to rows and DOM nodes; [KeyedApply] follows its loops,
    [KeyedProps] shows that the rows follow the keys, that the document holds
    the nodes of these rows and no others, and that their order there may be
    another one.  [ConstConcat] has the template buffers of the compile-time
    concatenation and shows that they hold what was meant.

    ** Views ([tachys/src/view], [html/element], [renderer/dom.rs])

    [Dom] is the interface to the browser's document, with its laws as a class
    and one concrete document.  [Views] has building, rebuilding, mounting and
    unmounting of strings, tuples, alternatives, options, vectors and elements;
    the types of views are codes ([view_type]), since in Rust the type of a view
    decides the type of its state.  [ViewSpec] says what a view promises in
    terms of the children of its parent, [ViewInst] and [ViewVec] show that every view keeps the promise, one instance for each kind of view.
    [ViewProps]: after any rebuilds a view shows what a fresh one would show,
    and unmounting gives the parent back.

    ** Attributes ([tachys/src/html])

    [Attributes] has attributes with a key, classes, styles, inner HTML, their
    tuples and erased attributes, with printing, building, rebuilding and
    hydrating; the methods of an element are the class [Element].  [AttrFacts]
    says what is written to the cells of an element; [AttrProps]: after any
    rebuilds the element is what a build of the last values makes of it, and no
    downcast of a state fails; [AttrHtml]: a reader of HTML tags, after the
    standard's tokenizer, finds in the printed attributes what a build makes, so
    hydration can take over.  [AttrCases]: a concrete browser, and values whose
    rebuild leaves something behind.

    ** Error boundaries ([any_error], [view/error_boundary.rs], [leptos/src/error_boundary.rs])

    [ErrorBoundary] has the hook of the thread, the closures and tasks that put
    their hook in its place while they run, [Result] as a view with the ids of
    its errors, and boundaries with the map of the errors below them and the
    effect that shows or hides the children.  [ErrorFacts] says what building,
    dropping and rebuilding a view do with the maps; [ErrorProps]: after any
    updates a boundary shows its fallback exactly when a result below it is an
    error, and so does its printing; and two ways in which errors go wrong.

    ** Server rendering ([tachys/src/hydration.rs], [ssr/mod.rs])

    [Html] prints views and hydrates them from a document, [HtmlProps] says which
    nodes the text stands for and that hydration takes over exactly these nodes.
    [HtmlReader] specifies how a browser reads the text, without attributes and
    without the rules about implied or misplaced tags, and shows that it reads
    these nodes; its fuel is the length of the text.  [Stream] has the stream builder, where a future is the
    number of polls that find it pending, [StreamViews] the views that are
    printed to a stream, [StreamProps] the measures (what a poll leaves to be
    sent, and the pending polls, which bound the fuel), and that a stream in
    order sends the same text as the synchronous printer, but for
    suspended views that end in a text.

    ** The data of a response ([hydration_context], [leptos_server])

    [HydrationContext] has the shared context of the server (ids, buffers, and
    the stream of scripts, whose text is a list of code points) and those of the
    browser.  [JsScript] is the specification: a lexer, parser and interpreter of
    the part of JavaScript in which the scripts are written.  [HydrationFacts]
    and [HydrationProps]: resources and errors arrive as they were registered,
    whenever their futures are resolved, and no text can end its script.
    [SharedData] has the ids within scopes, [SharedValue] and the data of
    resources, [SharedDataProps]: ids are distinct, and a value that the server
    had is the one that the browser starts with.  Two texts do
    not arrive as they were.  Which characters [{:?}] prints as they are
    is a parameter.

    ** Stores ([reactive_stores], [reactive_stores_macro])

    [FieldKeys] has the keys of collections, with the order in which a [HashMap]
    is visited as a parameter.  [Stores] has stores and all accessors; a value
    of a user type is a tree, all keyed collections have keys of one type, and
    the write lock is a flag, since guards only try it.  [Patch] has the patches.
    [StoreAccess] shows what the operations of an
    accessor do at a part that is there, and which triggers they track and
    notify; [StoreProps]: a write reaches every reader it concerns, a key finds
    its item.  [PatchProps] and [PatchKeyedProps]: a patch
    installs the new value and notifies what differs.  [StoreCases]: keyed
    collections that go wrong.

    ** Hot reloading ([leptos_hot_reload])

    [HotReload] has the templates, their differences as patches, by the edit
    distance of the children, and the templates of a file.  [HotEdits] shows
    that the matrix holds the least numbers of edits and that the walk back
    always goes on, [HotFacts] specifies patches as edits of a tree, each in what
    the earlier ones have left (the reader of HTML is a parameter, the script
    that carries patches out in the browser is not modelled), and says what the
    patches of attributes and children do.  [HotCases]: for templates without
    components and blocks, what shows the old template shows the new one after
    the patches; and a block that is overwritten before it is moved.  The walk
    has as much fuel as there are children.

    ** What is left out

    Immediate effects, transitions and the Suspense component, the fetching of
    resources (of which the data and the derived value are modelled), custom
    elements, DOM properties, events and reactive views,
    hydration with marked branches, the browser's history and the router without
    nesting, the macros, the transport of server functions and the integrations
    with servers: these are calls of the browser, of third-party crates or of
    syntax trees around the parts above.  Of stores, enums, maps, floats, custom
    closures of patches and erased fields; of nested routes, owners, the base and
    the printing to HTML.
    Locks are not modelled beyond their owner: operations run to completion one
    after the other, as they do on the single thread of a browser. *)

From stdpp Require Import base gmap list strings.

(** ** Outcomes of Rust code *)

(** A Rust computation that may panic and that the model evaluates with fuel. *)
Inductive outcome (A : Type) : Type :=
| Ok (a : A)
| Panic
| NoFuel.
Arguments Ok {_} _.
Arguments Panic {_}.
Arguments NoFuel {_}.

#[global] Instance outcome_ret : MRet outcome := λ A a, Ok a.
#[global] Instance outcome_bind : MBind outcome := λ A B f x,
  match x with Ok a => f a | Panic => Panic | NoFuel => NoFuel end.

(** [Option::unwrap] and [Option::expect]. *)
Definition unwrap {A} (x : option A) : outcome A :=
  match x with Some a => Ok a | None => Panic end.

(** A state-passing computation over a state type [S]. *)
Definition stateM (S A : Type) : Type := S → outcome (A * S).

#[global] Instance stateM_ret S : MRet (stateM S) := λ A a s, Ok (a, s).
#[global] Instance stateM_bind S : MBind (stateM S) := λ A B f c s,
  match c s with
  | Ok (a, s') => f a s'
  | Panic => Panic
  | NoFuel => NoFuel
  end.

Definition gets {S A} (f : S → A) : stateM S A := λ s, Ok (f s, s).
Definition modify {S} (f : S → S) : stateM S unit := λ s, Ok (tt, f s).
Definition panics {S A} : stateM S A := λ _, Panic.
Definition no_fuel {S A} : stateM S A := λ _, NoFuel.
Definition unwrapM {S A} (x : option A) : stateM S A := λ s,
  match x with Some a => Ok (a, s) | None => Panic end.

(** [for x in l { f(x) }] *)
Fixpoint for_each {S A} (f : A → stateM S unit) (l : list A) : stateM S unit :=
  match l with
  | [] => mret tt
  | x :: l' => _ ← f x; for_each f l'
  end.

(** [l.into_iter().any(f)], which stops at the first success. *)
Fixpoint any_of {S A} (f : A → stateM S bool) (l : list A) : stateM S bool :=
  match l with
  | [] => mret false
  | x :: l' => b ← f x; if (b : bool) then mret true else any_of f l'
  end.

Lemma bind_Ok {S A B} (c : stateM S A) (f : A → stateM S B) s a s' :
  c s = Ok (a, s') → (x ← c; f x) s = f a s'.
Proof. intros H. unfold mbind, stateM_bind. by rewrite H. Qed.

(** Evaluation of a bind whose first part is already known. *)
Ltac step_with H := rewrite (bind_Ok _ _ _ _ _ H).

(** [outcome] is a monad. *)
Lemma outcome_bind_assoc {A B C} (x : outcome A) (f : A → outcome B) (g : B → outcome C) :
  (x ≫= f) ≫= g = x ≫= (λ a, f a ≫= g).
Proof. by destruct x. Qed.

