(* ===== verification/IndexSets.v ===== *)
(** * Insertion-ordered sets

    The reactive graph and the keyed list diff store their sets in
    [indexmap::IndexSet], a crate that is not part of this repository.  It is a
    parameter of the model: [IndexSet] names the operations the repository
    calls, and [IndexSetLaws] states the documented behaviour that the proofs
    rely on (iteration order is insertion order, an element occurs once,
    [shift_remove] and [retain] keep the order of the others).  [list_IndexSet]
    is one concrete implementation; it makes every definition executable and
    discharges the laws in the witnesses. *)

From stdpp Require Import base list.
From S2P Require Import Prelude.

Class IndexSet (A S : Type) := {
  (** the elements in iteration order *)
  iset_elems : S → list A;
  (** [IndexSet::with_capacity_and_hasher], [Default::default], [mem::take] *)
  iset_with_capacity : nat → S;
  iset_capacity : S → nat;
  iset_insert : A → S → S;
  iset_shift_remove : A → S → S;
  iset_retain : (A → bool) → S → S;
  iset_reserve : nat → S → S;
}.

Class IndexSetLaws (A S : Type) `{EqDecision A, IndexSet A S} := {
  iset_nodup (s : S) : NoDup (iset_elems s);
  elems_with_capacity n : iset_elems (iset_with_capacity n) = [];
  elems_insert x (s : S) :
    iset_elems (iset_insert x s) =
    if decide (x ∈ iset_elems s) then iset_elems s else iset_elems s ++ [x];
  elems_shift_remove x (s : S) :
    iset_elems (iset_shift_remove x s) = filter (λ y, y ≠ x) (iset_elems s);
  elems_retain p (s : S) :
    iset_elems (iset_retain p s) = filter (λ y, p y = true) (iset_elems s);
  elems_reserve n (s : S) : iset_elems (iset_reserve n s) = iset_elems s;
}.

Section derived.
Context {A S : Type} `{EqDecision A, IndexSet A S}.

(** [mem::take] leaves the default set behind. *)
Definition iset_empty : S := iset_with_capacity 0.
Definition iset_len (s : S) : nat := length (iset_elems s).
Definition iset_get_index (s : S) (i : nat) : option A := iset_elems s !! i.
Definition iset_contains (s : S) (x : A) : bool :=
  bool_decide (x ∈ iset_elems s).
(** [get_full(x)], restricted to the index it returns *)
Definition iset_get_full (s : S) (x : A) : option nat :=
  fst <$> list_find (eq x) (iset_elems s).

Context `{!IndexSetLaws A S}.

Lemma elem_of_iset_empty x : x ∉ iset_elems iset_empty.
Proof. unfold iset_empty. rewrite elems_with_capacity. apply not_elem_of_nil. Qed.

Lemma elem_of_iset_insert x y (s : S) :
  x ∈ iset_elems (iset_insert y s) ↔ x = y ∨ x ∈ iset_elems s.
Proof.
  rewrite elems_insert. case_decide as Hy; [naive_solver|].
  rewrite elem_of_app, list_elem_of_singleton. naive_solver.
Qed.

Lemma elem_of_iset_shift_remove x y (s : S) :
  x ∈ iset_elems (iset_shift_remove y s) ↔ x ≠ y ∧ x ∈ iset_elems s.
Proof. rewrite elems_shift_remove, list_elem_of_filter. done. Qed.

Lemma elem_of_iset_retain x p (s : S) :
  x ∈ iset_elems (iset_retain p s) ↔ p x = true ∧ x ∈ iset_elems s.
Proof. rewrite elems_retain, list_elem_of_filter. done. Qed.
End derived.

(** ** A list-backed implementation *)

Record list_iset (A : Type) := LISet {
  lis_cap : nat;
  lis_list : list A;
}.
Arguments LISet {_} _ _.
Arguments lis_cap {_} _.
Arguments lis_list {_} _.

(** [lis_list] may hold duplicates that [remove_dups] hides; the operations
    below never create them. *)
#[export] Instance list_IndexSet A `{EqDecision A} : IndexSet A (list_iset A) := {|
  iset_elems s := remove_dups (lis_list s);
  iset_with_capacity n := LISet n [];
  iset_capacity s := Nat.max (lis_cap s) (length (remove_dups (lis_list s)));
  iset_insert x s :=
    LISet (lis_cap s)
      (let l := remove_dups (lis_list s) in
       if decide (x ∈ l) then l else l ++ [x]);
  iset_shift_remove x s :=
    LISet (lis_cap s) (filter (λ y, y ≠ x) (remove_dups (lis_list s)));
  iset_retain p s :=
    LISet (lis_cap s) (filter (λ y, p y = true) (remove_dups (lis_list s)));
  iset_reserve n s :=
    LISet (Nat.max (lis_cap s) (length (remove_dups (lis_list s)) + n)) (lis_list s);
|}.

Lemma remove_dups_id {A} `{EqDecision A} (l : list A) :
  NoDup l → remove_dups l = l.
Proof.
  induction 1 as [|x l Hx Hl IH]; [done|]. simpl.
  case_decide as Hin; [|by rewrite IH].
  exfalso. apply Hx, Hin.
Qed.

#[export] Instance list_IndexSetLaws A `{EqDecision A} : IndexSetLaws A (list_iset A).
Proof.
  pose proof (@NoDup_remove_dups A _) as Hnd.
  split; simpl; intros.
  - apply Hnd.
  - done.
  - apply remove_dups_id. case_decide as Hx; [apply Hnd|].
    apply NoDup_app. split_and!; [apply Hnd| |apply NoDup_singleton].
    intros y Hy ->%list_elem_of_singleton. done.
  - apply remove_dups_id, NoDup_filter, Hnd.
  - apply remove_dups_id, NoDup_filter, Hnd.
  - done.
Qed.
