(* ===== verification/Graph.v ===== *)
(** * The reactive graph: signals, memos and effects

    Models [reactive_graph/src/graph/*.rs], [computed/inner.rs],
    [computed/arc_memo.rs], [signal/subscriber_traits.rs], the read and write
    traits of [traits.rs] that signals and memos go through, [channel.rs] and
    the effect tasks of [effect/effect.rs] and [effect/render_effect.rs].

    A node is identified by the address of its allocation, a [nat] here.  Every
    edge of the graph is a [Weak] reference: upgrading it is a lookup in
    [nodes], and a node that has been dropped is absent from the map.  The
    values of all nodes share one type [V].  User closures are values of
    [comp], trees of the reads and writes they perform. *)

From stdpp Require Import base gmap list.
From S2P Require Import Prelude IndexSets.

Inductive ReactiveNodeState := Clean | Check | Dirty.

#[global] Instance ReactiveNodeState_eq_dec : EqDecision ReactiveNodeState.
Proof. solve_decision. Defined.

Section graph.
(** the value type of the nodes, and the set type of [SourceSet] and
    [SubscriberSet] *)
Context {V : Type} {iset : Type} `{IndexSet nat iset}.

(** ** User closures *)

(** The body of a memo or an effect: which nodes it reads and writes, where
    each step may depend on the values read so far. *)
Inductive comp (R : Type) : Type :=
| Return (r : R)
(** [n.get()] *)
| Get (n : nat) (k : V → comp R)
(** [n.get_untracked()] *)
| GetUntracked (n : nat) (k : V → comp R)
(** [n.set(v)] through an [ArcRwSignal] or an [ArcWriteSignal] handle *)
| SetRw (n : nat) (v : V) (k : comp R)
| SetWrite (n : nat) (v : V) (k : comp R).
Arguments Return {_} _.
Arguments Get {_} _ _.
Arguments GetUntracked {_} _ _.
Arguments SetRw {_} _ _ _.
Arguments SetWrite {_} _ _ _.

Fixpoint comp_bind {A B} (c : comp A) (f : A → comp B) : comp B :=
  match c with
  | Return r => f r
  | Get n k => Get n (λ v, comp_bind (k v) f)
  | GetUntracked n k => GetUntracked n (λ v, comp_bind (k v) f)
  | SetRw n v k => SetRw n v (comp_bind k f)
  | SetWrite n v k => SetWrite n v (comp_bind k f)
  end.

(** ** Nodes *)

(** [ArcRwSignal], [ArcReadSignal] and [ArcWriteSignal] share the value and
    the subscriber set. *)
Record Signal := mkSignal {
  sig_value : V;
  sig_subscribers : iset;
}.

(** [MemoInner] and [MemoInnerReactivity] *)
Record Memo := mkMemo {
  memo_value : option V;
  memo_fun : option V → comp (V * bool);
  memo_state : ReactiveNodeState;
  memo_sources : iset;
  memo_subscribers : iset;
}.

(** [EffectInner] with the state its task keeps: [eff_set] is the flag of
    the channel between them, [eff_first_run], [eff_value] and [eff_fun] are
    captured by the task, and [eff_paused] is the flag of the effect's owner. *)
Record Effect := mkEffect {
  eff_dirty : bool;
  eff_set : bool;
  eff_sources : iset;
  eff_first_run : bool;
  eff_value : option V;
  eff_fun : option V → comp V;
  eff_paused : bool;
}.

Inductive node :=
| NSignal (x : Signal)
| NMemo (m : Memo)
| NEffect (e : Effect).

Record ObserverState := mkObserver {
  obs_subscriber : nat;
  obs_untracked : bool;
}.

(** All live nodes, the thread-local [OBSERVER], and the next fresh address. *)
Record graph := mkGraph {
  nodes : gmap nat node;
  observer : option ObserverState;
  next : nat;
}.

(** ** Field updates *)

Definition set_nodes (f : gmap nat node → gmap nat node) (s : graph) : graph :=
  mkGraph (f (nodes s)) (observer s) (next s).
Definition set_observer (o : option ObserverState) (s : graph) : graph :=
  mkGraph (nodes s) o (next s).
Definition put_node (n : nat) (nd : node) (s : graph) : graph :=
  set_nodes (<[n := nd]>) s.

Definition sig_with_value (v : V) (x : Signal) : Signal :=
  mkSignal v (sig_subscribers x).
Definition sig_with_subscribers (b : iset) (x : Signal) : Signal :=
  mkSignal (sig_value x) b.
Definition memo_with_value (v : option V) (m : Memo) : Memo :=
  mkMemo v (memo_fun m) (memo_state m) (memo_sources m) (memo_subscribers m).
Definition memo_with_state (t : ReactiveNodeState) (m : Memo) : Memo :=
  mkMemo (memo_value m) (memo_fun m) t (memo_sources m) (memo_subscribers m).
Definition memo_with_sources (b : iset) (m : Memo) : Memo :=
  mkMemo (memo_value m) (memo_fun m) (memo_state m) b (memo_subscribers m).
Definition memo_with_subscribers (b : iset) (m : Memo) : Memo :=
  mkMemo (memo_value m) (memo_fun m) (memo_state m) (memo_sources m) b.
Definition eff_with_dirty (b : bool) (e : Effect) : Effect :=
  mkEffect b (eff_set e) (eff_sources e) (eff_first_run e) (eff_value e)
    (eff_fun e) (eff_paused e).
Definition eff_with_set (b : bool) (e : Effect) : Effect :=
  mkEffect (eff_dirty e) b (eff_sources e) (eff_first_run e) (eff_value e)
    (eff_fun e) (eff_paused e).
Definition eff_with_sources (b : iset) (e : Effect) : Effect :=
  mkEffect (eff_dirty e) (eff_set e) b (eff_first_run e) (eff_value e)
    (eff_fun e) (eff_paused e).
Definition eff_with_first_run (b : bool) (e : Effect) : Effect :=
  mkEffect (eff_dirty e) (eff_set e) (eff_sources e) b (eff_value e)
    (eff_fun e) (eff_paused e).
Definition eff_with_value (v : option V) (e : Effect) : Effect :=
  mkEffect (eff_dirty e) (eff_set e) (eff_sources e) (eff_first_run e) v
    (eff_fun e) (eff_paused e).
Definition eff_with_paused (b : bool) (e : Effect) : Effect :=
  mkEffect (eff_dirty e) (eff_set e) (eff_sources e) (eff_first_run e)
    (eff_value e) (eff_fun e) b.

Local Abbreviation M := (stateM graph).

Definition lookup_node (n : nat) : M (option node) := gets (λ s, nodes s !! n).
Definition put (n : nat) (nd : node) : M unit := modify (put_node n nd).

(** The update of a node in place, through a reference that may be dead. *)
Definition update_node (f : node → node) (n : nat) : M unit :=
  modify (set_nodes (alter f n)).
Definition on_memo (f : Memo → Memo) (nd : node) : node :=
  match nd with NMemo m => NMemo (f m) | _ => nd end.
Definition on_effect (f : Effect → Effect) (nd : node) : node :=
  match nd with NEffect e => NEffect (f e) | _ => nd end.
Definition on_signal (f : Signal → Signal) (nd : node) : node :=
  match nd with NSignal x => NSignal (f x) | _ => nd end.

(** ** SourceSet and SubscriberSet *)

(** [SubscriberSet::subscribe]: entries whose subscriber has been dropped are
    pruned when the set would reallocate. *)
Definition subscribe (live : nat → bool) (subscriber : nat) (b : iset) : iset :=
  let b' :=
    if iset_len b =? iset_capacity b then
      let kept := iset_retain live b in iset_reserve (iset_len kept) kept
    else b in
  iset_insert subscriber b'.

Definition unsubscribe (subscriber : nat) (b : iset) : iset :=
  iset_shift_remove subscriber b.

(** ** Source and Subscriber *)

(** [strong_count() > 0] *)
Definition is_live (s : graph) (n : nat) : bool := bool_decide (is_Some (nodes s !! n)).

Definition subs_of (nd : node) : iset :=
  match nd with
  | NSignal x => sig_subscribers x
  | NMemo m => memo_subscribers m
  | NEffect _ => iset_empty
  end.
Definition with_subs (b : iset) (nd : node) : node :=
  match nd with
  | NSignal x => NSignal (sig_with_subscribers b x)
  | NMemo m => NMemo (memo_with_subscribers b m)
  | NEffect e => NEffect e
  end.
Definition sources_of (nd : node) : iset :=
  match nd with
  | NSignal _ => iset_empty
  | NMemo m => memo_sources m
  | NEffect e => eff_sources e
  end.
Definition with_sources (b : iset) (nd : node) : node :=
  match nd with
  | NSignal x => NSignal x
  | NMemo m => NMemo (memo_with_sources b m)
  | NEffect e => NEffect (eff_with_sources b e)
  end.

Definition add_subscriber (n subscriber : nat) : M unit :=
  live ← gets is_live;
  update_node (λ nd, with_subs (subscribe live subscriber (subs_of nd)) nd) n.

Definition remove_subscriber (n subscriber : nat) : M unit :=
  update_node (λ nd, with_subs (unsubscribe subscriber (subs_of nd)) nd) n.

Definition clear_subscribers (n : nat) : M unit :=
  update_node (with_subs iset_empty) n.

Definition add_source (subscriber n : nat) : M unit :=
  update_node (λ nd, with_sources (iset_insert n (sources_of nd)) nd) subscriber.

(** [SourceSet::clear_sources]: takes the set, then unsubscribes from each. *)
Definition clear_sources (n subscriber : nat) : M unit :=
  nd ← lookup_node n;
  match nd with
  | None => mret tt
  | Some nd =>
      _ ← update_node (with_sources iset_empty) n;
      for_each (λ source, remove_subscriber source subscriber)
        (iset_elems (sources_of nd))
  end.

(** ** Observer *)

Definition Observer_get : M (option nat) :=
  gets (λ s, match observer s with
             | Some o => if obs_untracked o then None else Some (obs_subscriber o)
             | None => None
             end).

Definition Observer_is (n : nat) : M bool :=
  gets (λ s, bool_decide (obs_subscriber <$> observer s = Some n)).

(** The value that [SetObserverOnDrop] keeps is the subscriber alone. *)
Definition Observer_set (o : option nat) : M unit :=
  modify (set_observer ((λ n, mkObserver n false) <$> o)).
Definition Observer_take : M (option nat) :=
  prev ← gets (λ s, obs_subscriber <$> observer s);
  _ ← modify (set_observer None);
  mret prev.
Definition Observer_replace (o : option nat) : M (option nat) :=
  prev ← gets (λ s, obs_subscriber <$> observer s);
  _ ← modify (set_observer ((λ n, mkObserver n false) <$> o));
  mret prev.
Definition Observer_replace_untracked (o : option nat) : M (option nat) :=
  prev ← gets (λ s, obs_subscriber <$> observer s);
  _ ← modify (set_observer ((λ n, mkObserver n true) <$> o));
  mret prev.

Definition with_observer {A} (o : option nat) (fun_ : M A) : M A :=
  prev ← Observer_replace o;
  r ← fun_;
  _ ← Observer_set prev;
  mret r.
Definition with_observer_untracked {A} (o : option nat) (fun_ : M A) : M A :=
  prev ← Observer_replace_untracked o;
  r ← fun_;
  _ ← Observer_set prev;
  mret r.
Definition untrack {A} (fun_ : M A) : M A :=
  prev ← Observer_take;
  r ← fun_;
  _ ← Observer_set prev;
  mret r.

(** [Track::track] *)
Definition track (n : nat) : M unit :=
  o ← Observer_get;
  match o with
  | Some subscriber =>
      _ ← add_source subscriber n;
      add_subscriber n subscriber
  | None => mret tt
  end.

(** ** Marking *)

(** [ReactiveNode::mark_check], through the weak reference of a subscriber.
    Memos propagate to their subscribers, effects wake their task. *)
Fixpoint mark_check (fuel : nat) (n : nat) : M unit :=
  match fuel with
  | 0 => no_fuel
  | S fuel =>
      nd ← lookup_node n;
      match nd with
      | None => mret tt
      | Some (NSignal _) => mret tt
      | Some (NMemo m) =>
          let t := if decide (memo_state m = Dirty) then Dirty else Check in
          _ ← put n (NMemo (memo_with_state t m));
          for_each (mark_check fuel) (iset_elems (memo_subscribers m))
      | Some (NEffect e) => put n (NEffect (eff_with_set true e))
      end
  end.

(** [ReactiveNode::mark_dirty] of a subscriber, a memo or an effect. *)
Definition mark_dirty (fuel : nat) (n : nat) : M unit :=
  nd ← lookup_node n;
  match nd with
  | None => mret tt
  | Some (NSignal _) => mret tt
  | Some (NMemo m) =>
      _ ← put n (NMemo (memo_with_state Dirty m));
      for_each (mark_check fuel) (iset_elems (memo_subscribers m))
  | Some (NEffect e) => put n (NEffect (eff_with_set true (eff_with_dirty true e)))
  end.

(** The subscribers of a node have greater addresses, see [wf_graph]: a chain
    of marks is never longer than the number of addresses in use. *)
Definition mark_fuel (s : graph) : nat := S (next s).

Definition mark_dirty_now (n : nat) : M unit :=
  fuel ← gets mark_fuel; mark_dirty fuel n.

(** [mark_subscribers_check] of [ArcRwSignal] and the other types with a
    blanket implementation, which keeps the subscribers ... *)
Definition rw_notify (n : nat) : M unit :=
  nd ← lookup_node n;
  match nd with
  | Some nd => for_each mark_dirty_now (iset_elems (subs_of nd))
  | None => mret tt
  end.

(** ... and of [RwLock<SubscriberSet>], which [ArcWriteSignal] and
    [ArcTrigger] notify through and which takes them. *)
Definition write_notify (n : nat) : M unit :=
  nd ← lookup_node n;
  match nd with
  | Some nd =>
      _ ← clear_subscribers n;
      for_each mark_dirty_now (iset_elems (subs_of nd))
  | None => mret tt
  end.

(** [Set::set]: [try_update] assigns under the write guard, whose drop
    notifies. *)
Definition set_rw (n : nat) (v : V) : M unit :=
  _ ← update_node (on_signal (sig_with_value v)) n; rw_notify n.
Definition set_write (n : nat) (v : V) : M unit :=
  _ ← update_node (on_signal (sig_with_value v)) n; write_notify n.

(** ** Reading and updating *)

Section run.
(** [update_if_necessary] on the sources *)
Context (update : nat → M bool).

(** [try_read_untracked().unwrap()]: a memo is brought up to date first. *)
Definition read_untracked (n : nat) : M V :=
  nd ← lookup_node n;
  match nd with
  | Some (NSignal x) => mret (sig_value x)
  | Some (NMemo _) =>
      _ ← update n;
      nd ← lookup_node n;
      match nd with
      | Some (NMemo m) => unwrapM (memo_value m)
      | _ => panics
      end
  | _ => panics
  end.

(** [Read::try_read]: track, then read. *)
Definition read (n : nat) : M V := _ ← track n; read_untracked n.

Fixpoint run {R} (c : comp R) : M R :=
  match c with
  | Return r => mret r
  | Get n k => v ← read n; run (k v)
  | GetUntracked n k => v ← read_untracked n; run (k v)
  | SetRw n v k => _ ← set_rw n v; run k
  | SetWrite n v k => _ ← set_write n v; run k
  end.

(** [needs_update] of a memo, after its state and sources are read. *)
Definition memo_needs_update (n : nat) (m : Memo) : M bool :=
  match memo_state m with
  | Clean => mret false
  | Dirty => mret true
  | Check =>
      any_of (λ source,
          b ← update source;
          if (b : bool) then mret true
          else
            nd ← lookup_node n;
            mret match nd with
                 | Some (NMemo m) => bool_decide (memo_state m = Dirty)
                 | _ => false
                 end)
        (iset_elems (memo_sources m))
  end.

(** The subscribers of a memo that changed, except the current observer. *)
Definition mark_subscribers_dirty (n : nat) : M unit :=
  nd ← lookup_node n;
  match nd with
  | Some nd =>
      for_each (λ subscriber,
          is_observer ← Observer_is subscriber;
          if (is_observer : bool) then mret tt else mark_dirty_now subscriber)
        (iset_elems (subs_of nd))
  | None => mret tt
  end.

(** The branch of [MemoInner::update_if_necessary] that runs the closure. *)
Definition memo_recompute (n : nat) (m : Memo) : M bool :=
  value ← (nd ← lookup_node n;
           _ ← update_node (on_memo (memo_with_value None)) n;
           mret match nd with Some (NMemo m) => memo_value m | _ => None end);
  _ ← clear_sources n n;
  r ← with_observer (Some n) (run (memo_fun m value));
  _ ← update_node (on_memo (λ m, memo_with_state Clean (memo_with_value (Some r.1) m))) n;
  _ ← (if (r.2 : bool) then mark_subscribers_dirty n else mret tt);
  mret r.2.

Definition memo_update (n : nat) (m : Memo) : M bool :=
  needs_update ← memo_needs_update n m;
  if (needs_update : bool) then memo_recompute n m
  else
    _ ← update_node (on_memo (memo_with_state Clean)) n;
    mret false.

(** [EffectInner::update_if_necessary] *)
Definition effect_update (n : nat) (e : Effect) : M bool :=
  if eff_dirty e then
    _ ← update_node (on_effect (eff_with_dirty false)) n;
    mret true
  else any_of update (iset_elems (eff_sources e)).
End run.

(** [ReactiveNode::update_if_necessary] through a weak reference.  The depth
    of the recursion is bounded by the address of the node: see [wf_graph]. *)
Fixpoint update_if_necessary (fuel : nat) (n : nat) : M bool :=
  match fuel with
  | 0 => no_fuel
  | S fuel =>
      nd ← lookup_node n;
      match nd with
      | None => mret false
      | Some (NSignal _) => mret false
      | Some (NMemo m) => memo_update (update_if_necessary fuel) n m
      | Some (NEffect e) => effect_update (update_if_necessary fuel) n e
      end
  end.

Definition update_node_if_necessary (n : nat) : M bool :=
  fuel ← gets mark_fuel; update_if_necessary fuel n.

(** [get] and [get_untracked] from outside of the graph *)
Definition get (n : nat) : M V := read update_node_if_necessary n.
Definition get_untracked (n : nat) : M V := read_untracked update_node_if_necessary n.
Definition run_closure {R} (c : comp R) : M R := run update_node_if_necessary c.

(** ** Constructors *)

Definition alloc (nd : node) : M nat :=
  n ← gets next;
  _ ← modify (λ s, mkGraph (<[n := nd]> (nodes s)) (observer s) (S n));
  mret n.

Definition SubscriberSet_new : iset := iset_with_capacity 2.
Definition SourceSet_new : iset := iset_empty.

(** [ArcRwSignal::new] *)
Definition signal_new (v : V) : M nat := alloc (NSignal (mkSignal v SubscriberSet_new)).

(** [ArcMemo::new_owning] *)
Definition memo_new_owning (f : option V → comp (V * bool)) : M nat :=
  alloc (NMemo (mkMemo None f Dirty SourceSet_new SubscriberSet_new)).

(** [ArcMemo::new_with_compare] *)
Definition memo_new_with_compare (f : option V → comp V)
    (changed : option V → option V → bool) : M nat :=
  memo_new_owning (λ prev,
    comp_bind (f prev) (λ v, Return (v, changed prev (Some v)))).

(** [ArcMemo::new]: changed means [!=]. *)
Definition memo_new `{EqDecision V} (f : option V → comp V) : M nat :=
  memo_new_with_compare f (λ lhs rhs, bool_decide (lhs ≠ rhs)).

(** ** Effects *)

(** [effect_base] and [Effect::new]: notified once, so that the task runs on
    the next tick. *)
Definition effect_new (f : option V → comp V) : M nat :=
  alloc (NEffect (mkEffect true true SourceSet_new true None f false)).

(** [RenderEffect::new_with_value]: runs at once, inside of its observer. *)
Definition render_effect_new (f : option V → comp V) (initial : option V) : M nat :=
  n ← alloc (NEffect (mkEffect false false SourceSet_new false None f false));
  v ← with_observer (Some n) (run_closure (f initial));
  _ ← update_node (on_effect (eff_with_value (Some v))) n;
  mret n.

(** [Owner::pause] and [Owner::resume] on the owner of one effect *)
Definition effect_set_paused (b : bool) (n : nat) : M unit :=
  update_node (on_effect (eff_with_paused b)) n.

(** The part of the task's body that runs the closure. *)
Definition effect_run (n : nat) : M unit :=
  nd ← lookup_node n;
  match nd with
  | Some (NEffect e) =>
      _ ← update_node (on_effect (eff_with_first_run false)) n;
      _ ← clear_sources n n;
      nd ← lookup_node n;
      _ ← update_node (on_effect (eff_with_value None)) n;
      let old_value := match nd with Some (NEffect e) => eff_value e | _ => None end in
      v ← with_observer (Some n) (run_closure (eff_fun e old_value));
      update_node (on_effect (eff_with_value (Some v))) n
  | _ => mret tt
  end.

(** One poll of the effect's task: [Receiver::poll_next] swaps the flag, and
    the body of the [while] loop runs when it was set.  Returns whether the
    closure ran. *)
Definition effect_poll (n : nat) : M bool :=
  nd ← lookup_node n;
  match nd with
  | Some (NEffect e) =>
      if eff_set e then
        _ ← update_node (on_effect (eff_with_set false)) n;
        if eff_paused e then mret false
        else
          b ← with_observer (Some n) (update_node_if_necessary n);
          if b || eff_first_run e then _ ← effect_run n; mret true
          else mret false
      else mret false
  | _ => mret false
  end.

(** Dropping the last strong reference. *)
Definition drop_node (n : nat) : M unit := modify (set_nodes (delete n)).
End graph.

Arguments comp : clear implicits.
Arguments Return {_ _} _.
Arguments Get {_ _} _ _.
Arguments GetUntracked {_ _} _ _.
Arguments SetRw {_ _} _ _ _.
Arguments SetWrite {_ _} _ _ _.
Arguments node : clear implicits.
Arguments graph : clear implicits.
Arguments Signal : clear implicits.
Arguments Memo : clear implicits.
Arguments Effect : clear implicits.
