(* ===== verification/GraphMark.v ===== *)
(** * Marking the graph

    What [mark_check] and [mark_dirty] do: they only raise the states of memos
    and wake effects ([marks]), they reach every transitive subscriber
    ([closed_except]), and they leave every memo alone that is clean when the
    marked node was not. *)

From stdpp Require Import base gmap list.
From S2P Require Import Prelude IndexSets Graph GraphInv.

Definition state_le (a b : ReactiveNodeState) : Prop :=
  match a, b with
  | Clean, _ | Check, Check | Check, Dirty | Dirty, Dirty => True
  | _, _ => False
  end.

Lemma state_le_refl a : state_le a a.
Proof. by destruct a. Qed.
Lemma state_le_trans a b c : state_le a b → state_le b c → state_le a c.
Proof. by destruct a, b, c. Qed.

Section mark.
Context {V : Type} {iset : Type} `{IndexSet nat iset, !IndexSetLaws nat iset}.
Local Abbreviation graph := (graph V iset).
Local Abbreviation Memo := (Memo V iset).
Implicit Types (s : graph) (m : Memo) (n x y : nat).

Definition marks_node (a b : node V iset) : Prop :=
  match a, b with
  | NSignal x, NSignal y => x = y
  | NMemo m, NMemo m' =>
      ∃ t, m' = memo_with_state t m ∧ state_le (memo_state m) t
  | NEffect e, NEffect e' =>
      ∃ w d, e' = eff_with_set w (eff_with_dirty d e) ∧
        (eff_set e = true → w = true) ∧ (eff_dirty e = true → d = true) ∧
        (d = true → eff_dirty e = true ∨ w = true)
  | _, _ => False
  end.

Definition marks s s' : Prop :=
  observer s' = observer s ∧ next s' = next s ∧
  ∀ x, option_Forall2 marks_node (nodes s !! x) (nodes s' !! x).

Lemma marks_node_refl nd : marks_node nd nd.
Proof.
  destruct nd as [x|m|e]; simpl; [done| |].
  - exists (memo_state m). split; [by destruct m|apply state_le_refl].
  - exists (eff_set e), (eff_dirty e). split_and!; [by destruct e|auto..].
Qed.

Lemma marks_node_trans a b c : marks_node a b → marks_node b c → marks_node a c.
Proof.
  destruct a as [x|m|e], b as [x'|m'|e'], c as [x''|m''|e'']; simpl; try done.
  - congruence.
  - intros (t & -> & Ht) (t' & -> & Ht'). exists t'. split; [done|].
    eapply state_le_trans; eauto.
  - intros (w & d & -> & Hw & Hd & Hor) (w' & d' & -> & Hw' & Hd' & Hor'). exists w', d'.
    simpl in *. naive_solver.
Qed.

#[global] Instance marks_refl : Reflexive marks.
Proof.
  intros s. split_and!; [done..|]. intros x. destruct (nodes s !! x); constructor.
  apply marks_node_refl.
Qed.

#[global] Instance marks_trans : Transitive marks.
Proof.
  intros s1 s2 s3 (Ho1 & Hn1 & H1) (Ho2 & Hn2 & H2). split_and!; [congruence..|].
  intros x. specialize (H1 x). specialize (H2 x).
  destruct H1; inversion H2; subst; constructor. eapply marks_node_trans; eauto.
Qed.

Lemma marks_put s n nd nd' :
  nodes s !! n = Some nd → marks_node nd nd' → marks s (put_node n nd' s).
Proof.
  intros Hn Hm. split_and!; [done..|]. intros x. simpl.
  destruct (decide (x = n)) as [->|Hne].
  - rewrite lookup_insert_eq, Hn. by constructor.
  - rewrite lookup_insert_ne by done. destruct (nodes s !! x); constructor.
    apply marks_node_refl.
Qed.

(** *** What marking preserves *)

Lemma marks_memo s s' n m :
  marks s s' → memo_at s n m →
  ∃ t, memo_at s' n (memo_with_state t m) ∧ state_le (memo_state m) t.
Proof.
  intros (_ & _ & Hm) Hn. specialize (Hm n). unfold memo_at in *. rewrite Hn in Hm.
  inversion Hm as [? [x|m'|e] Hmn Heq|]; subst; simpl in Hmn; try done.
  destruct Hmn as (t & -> & Ht). eauto.
Qed.

Lemma marks_memo_inv s s' n m' :
  marks s s' → memo_at s' n m' →
  ∃ m t, memo_at s n m ∧ m' = memo_with_state t m ∧ state_le (memo_state m) t.
Proof.
  intros (_ & _ & Hm) Hn. specialize (Hm n). unfold memo_at in *. rewrite Hn in Hm.
  inversion Hm as [[x|m|e] ? Hmn Heq|]; subst; simpl in Hmn; try done.
  destruct Hmn as (t & -> & Ht). eauto.
Qed.

Lemma marks_subscribed s s' x y : marks s s' → subscribed s x y ↔ subscribed s' x y.
Proof.
  intros (_ & _ & Hm). specialize (Hm x). unfold subscribed.
  inversion Hm as [a b Hab Ha Hb|Ha Hb]; subst; [|naive_solver].
  assert (subs_of a = subs_of b) as Heq.
  { destruct a, b; simpl in *; naive_solver. }
  split; intros (nd & [= <-] & Hy); eexists; (split; [done|]); congruence.
Qed.

Lemma marks_stored s s' x : marks s s' → stored s' x = stored s x.
Proof.
  intros (_ & _ & Hm). specialize (Hm x). unfold stored.
  inversion Hm as [[]  [] Hab Ha Hb|Ha Hb]; simpl in *; try done; naive_solver.
Qed.

Lemma marks_is_source s s' x : marks s s' → is_source s' x ↔ is_source s x.
Proof.
  intros (_ & _ & Hm). specialize (Hm x). unfold is_source.
  by inversion Hm as [[] [] Hab Ha Hb|Ha Hb].
Qed.

Lemma marks_nonclean s s' x : marks s s' → nonclean s x → nonclean s' x.
Proof.
  intros Hm (m & Hx & Hc). destruct (marks_memo _ _ _ _ Hm Hx) as (t & Ht & Hle).
  eexists. split; [done|]. simpl. by destruct (memo_state m), t.
Qed.

Lemma marks_wf s s' : marks s s' → wf_graph s → wf_graph s'.
Proof.
  intros Hm Hwf. pose proof Hm as (Ho & Hn & Hnodes). split.
  - intros n nd Hnd. rewrite Hn. specialize (Hnodes n). rewrite Hnd in Hnodes.
    inversion Hnodes as [? ? ? Heq|]; subst. eapply wf_next; [done|by symmetry].
  - intros n m' Hm'. destruct (marks_memo_inv _ _ _ _ Hm Hm') as (m & t & Hmm & -> & _).
    eapply pure_memo_mono; [|exact (wf_fun _ Hwf n m Hmm)].
    intros x [? ?]. split; [done|]. by rewrite marks_is_source.
  - intros n m' x Hm' Hx. rewrite marks_is_source by done.
    destruct (marks_memo_inv _ _ _ _ Hm Hm') as (m & t & Hmm & -> & _).
    exact (wf_srcs _ Hwf n m x Hmm Hx).
  - intros x y Hxy. rewrite <- (marks_subscribed s s') in Hxy by done. rewrite Hn. by eapply wf_subs.
Qed.

(** Marking preserves the invariant, up to the closure property. *)
Lemma marks_Links R s s' :
  marks s s' → Links R s → closed_except (λ _, False) s' → Links R s'.
Proof.
  intros Hm HL Hcl. split; [by eapply marks_wf, lk_wf| | |done|].
  - intros n m' x Hm' HRd Hx.
    destruct (marks_memo_inv _ _ _ _ Hm Hm') as (m & t & Hmm & -> & Hle).
    rewrite <- (marks_subscribed s s') by done. eapply (lk_link _ _ HL); [done| |done].
    destruct HRd as [|Hd]; [by left|]. right. simpl in Hd. by destruct (memo_state m), t.
  - intros x y m' Hxy Hm'. rewrite <- (marks_subscribed s s') in Hxy by done.
    destruct (marks_memo_inv _ _ _ _ Hm Hm') as (m & t & Hmm & -> & Hle).
    simpl. by eapply lk_back.
  - intros r Hr. eapply marks_nonclean; [done|]. by eapply lk_running.
Qed.

Lemma consistent_ext σ1 σ2 m :
  (∀ x, x ∈ reads σ1 (memo_fun m None) → σ1 x = σ2 x) →
  consistent σ1 m → consistent σ2 m.
Proof.
  intros Hσ (v & Hv & He & Hr). exists v.
  destruct (eval_comp_ext σ1 σ2 (memo_fun m None) Hσ) as [<- <-]. done.
Qed.

Lemma marks_Cons R ov s s' : marks s s' → Cons R ov s → Cons R ov s'.
Proof.
  intros Hm HC n m' Hm' HR Hd.
  destruct (marks_memo_inv _ _ _ _ Hm Hm') as (m & t & Hmm & -> & Hle).
  assert (consistent (vstore ov s) m) as Hcs.
  { apply (HC n m Hmm HR). simpl in Hd. by destruct (memo_state m), t. }
  apply (consistent_ext (vstore ov s)); [|done].
  intros x _. unfold vstore. by rewrite (marks_stored s s').
Qed.

Lemma marks_eff_links s s' : marks s s' → eff_links s → eff_links s'.
Proof.
  intros Hm HE y e' x Hy Hx. pose proof Hm as (_ & _ & Hn). specialize (Hn y).
  unfold effect_at in Hy. rewrite Hy in Hn.
  inversion Hn as [[u|m|e] ? Hmn Heq|]; subst; simpl in Hmn; try done.
  destruct Hmn as (w & d & -> & _ & Hd & _).
  destruct (HE y e x) as [[Hlt Hs] Hdirty]; [done|done|].
  rewrite marks_is_source by done. split; [done|].
  rewrite <- (marks_subscribed s s') by done. simpl. naive_solver.
Qed.

Lemma marks_Inv R ov s s' :
  marks s s' → Inv R ov s → closed_except (λ _, False) s' → Inv R ov s'.
Proof.
  intros Hm HI Hcl. destruct HI as [HL HC Hov HE].
  split; [by eapply marks_Links|by eapply marks_Cons|done|by eapply marks_eff_links].
Qed.

(** ** Marking reaches all subscribers *)

(** Clean memos of [s] are untouched in [s']. *)
Definition clean_kept s s' : Prop :=
  ∀ x m, memo_at s x m → memo_state m = Clean → memo_at s' x m.

Lemma clean_kept_trans s1 s2 s3 : clean_kept s1 s2 → clean_kept s2 s3 → clean_kept s1 s3.
Proof. intros H1 H2 x m Hx Hc. eauto. Qed.

Lemma closed_except_put E s n m t :
  memo_at s n m → t ≠ Clean → closed_except E s →
  closed_except (λ x, E x ∨ x = n) (put_node n (NMemo (memo_with_state t m)) s).
Proof.
  intros Hn Ht Hcl x y my Hx (mx & Hmx & Hxc) (nd & Hnd & Hy) Hmy.
  assert (x ≠ n) as Hxn by naive_solver.
  unfold memo_at in *. simpl in *. rewrite lookup_insert_ne in Hmx, Hnd by done.
  destruct (decide (y = n)) as [->|Hyn].
  - rewrite lookup_insert_eq in Hmy. by simplify_eq/=.
  - rewrite lookup_insert_ne in Hmy by done. eapply (Hcl x y my); try done.
    + naive_solver.
    + by exists mx.
    + by exists nd.
Qed.

Lemma clean_kept_put s n m t :
  memo_at s n m → memo_state m ≠ Clean →
  clean_kept s (put_node n (NMemo (memo_with_state t m)) s).
Proof.
  intros Hn Hc x mx Hx Hxc. unfold memo_at in *. simpl.
  destruct (decide (x = n)) as [->|]; [|by rewrite lookup_insert_ne].
  by simplify_eq.
Qed.

Definition closed s : Prop := closed_except (λ _, False) s.

Lemma closed_put s n m t :
  memo_at s n m → memo_state m ≠ Clean → t ≠ Clean → closed s →
  closed (put_node n (NMemo (memo_with_state t m)) s).
Proof.
  intros Hn Hc Ht Hcl x y my Hx Hxc Hxy Hmy.
  assert (marks s (put_node n (NMemo (memo_with_state Dirty m)) s)) as Hmk.
  { eapply marks_put; [done|]. exists Dirty. split; [done|]. by destruct (memo_state m). }
  unfold memo_at in *. simpl in *.
  destruct (decide (y = n)) as [->|Hyn].
  { rewrite lookup_insert_eq in Hmy. by simplify_eq/=. }
  rewrite lookup_insert_ne in Hmy by done.
  destruct (decide (x = n)) as [->|Hxn].
  - eapply (Hcl n y my); try done.
    + by exists m.
    + destruct Hxy as (nd & Hnd & Hy). simpl in Hnd. rewrite lookup_insert_eq in Hnd.
      simplify_eq/=. by exists (NMemo m).
  - destruct Hxc as (mx & Hmx & Hxc), Hxy as (nd & Hnd & Hy). unfold memo_at in *.
    simpl in *. rewrite lookup_insert_ne in Hmx, Hnd by done.
    eapply (Hcl x y my); try done; [by exists mx|by exists nd].
Qed.

Lemma nonclean_memo s n m : memo_at s n m → nonclean s n ↔ memo_state m ≠ Clean.
Proof.
  intros Hn. split; [|by exists m]. intros (m' & Hm' & Hc). unfold memo_at in *.
  by simplify_eq.
Qed.

Lemma closed_of_kept s s' : marks s s' → clean_kept s s' → closed s → closed s'.
Proof.
  intros Hmk Hk Hc x z mz Hx (mx & Hmx & Hxc) Hxz Hmz.
  destruct (marks_memo_inv s s' z mz) as (mz0 & t & Hmz0 & -> & Hle); [done..|].
  destruct (decide (memo_state mz0 = Clean)) as [Hzc|Hzc];
    [|simpl; by destruct (memo_state mz0), t].
  exfalso. destruct (marks_memo_inv s s' x mx) as (mx0 & tx & Hmx0 & -> & _); [done..|].
  eapply (Hc x z mz0); [done| |by rewrite (marks_subscribed s s')|done|done].
  exists mx0. split; [done|]. intros Hx0. specialize (Hk x mx0 Hmx0 Hx0).
  unfold memo_at in *. rewrite Hk in Hmx. simplify_eq. congruence.
Qed.

(** The effect of marking one node. *)
Record mark_ok (E : nat → Prop) n s s' : Prop := {
  mok_marks : marks s s';
  mok_closed : closed_except E s → closed_except E s';
  mok_nonclean : ∀ m, memo_at s n m → nonclean s' n;
  mok_kept : closed s → (∀ m, memo_at s n m → memo_state m ≠ Clean) → clean_kept s s';
}.

(** [for sub in subs { f(sub) }] where [f] marks. *)
Lemma for_each_mark E (f : nat → stateM graph unit) :
  ∀ l s,
  (∀ y s1, marks s s1 → y ∈ l → ∃ s2, f y s1 = Ok (tt, s2) ∧ mark_ok E y s1 s2) →
  ∃ s', for_each f l s = Ok (tt, s') ∧ marks s s' ∧
    (closed_except E s → closed_except E s') ∧
    (∀ y m, y ∈ l → memo_at s y m → nonclean s' y) ∧
    (closed s → (∀ y m, y ∈ l → memo_at s y m → memo_state m ≠ Clean) →
      closed s' ∧ clean_kept s s').
Proof.
  induction l as [|y l IH]; intros s Hf.
  { exists s. split_and!; [done|reflexivity|done| |].
    - intros y m []%not_elem_of_nil.
    - intros Hc _. split; [done|]. by intros x m. }
  destruct (Hf y s) as (s1 & Hy & Hok); [reflexivity|left|].
  destruct Hok as [Hmk Hcl Hnc Hkp].
  destruct (IH s1) as (s' & Hl & Hmk' & Hcl' & Hnc' & Hkp').
  { intros z s2 Hs2 Hz. apply Hf; [|by right]. etrans; eauto. }
  exists s'. split_and!.
  - simpl. unfold mbind, stateM_bind. by rewrite Hy.
  - etrans; eauto.
  - auto.
  - intros z m [->|Hz]%elem_of_cons Hm.
    + eapply marks_nonclean; eauto.
    + destruct (marks_memo s s1 z m) as (t & Ht & _); eauto.
  - intros Hc Hall.
    assert (clean_kept s s1) as Hk1.
    { apply Hkp; [done|]. intros m Hm. eapply Hall; [by left|done]. }
    destruct Hkp' as [Hc' Hk']; [by eapply closed_of_kept| |split; [done|by eapply clean_kept_trans]].
    intros z m Hz Hm.
    destruct (marks_memo_inv s s1 z m) as (m0 & t & Hm0 & -> & Hle); [done..|].
    assert (memo_state m0 ≠ Clean) by (eapply Hall; [by right|done]).
    simpl. by destruct (memo_state m0), t.
Qed.

(** Marking a memo: its own state, then its subscribers. *)
Lemma mark_memo_ok E n m t (f : nat → stateM graph unit) s :
  memo_at s n m → t ≠ Clean → state_le (memo_state m) t →
  (∀ E' y s1, marks s s1 → y ∈ iset_elems (memo_subscribers m) →
    ∃ s2, f y s1 = Ok (tt, s2) ∧ mark_ok E' y s1 s2) →
  ∃ s', for_each f (iset_elems (memo_subscribers m))
          (put_node n (NMemo (memo_with_state t m)) s) = Ok (tt, s') ∧
        mark_ok E n s s'.
Proof.
  intros Hn Ht Hle Hf. set (s0 := put_node n (NMemo (memo_with_state t m)) s).
  assert (marks s s0) as Hs0 by (eapply marks_put; [done|by exists t]).
  destruct (for_each_mark (λ x, E x ∨ x = n) f (iset_elems (memo_subscribers m)) s0)
    as (s' & Hl & Hmk & Hcl & Hnc & Hkp).
  { intros y s1 Hs1 Hy. apply Hf; [|done]. etrans; eauto. }
  assert (memo_at s0 n (memo_with_state t m)) as Hn0.
  { unfold memo_at, s0. simpl. apply lookup_insert_eq. }
  exists s'. split; [done|]. split.
  - etrans; eauto.
  - intros HE x y my Hx Hxc Hxy Hmy.
    destruct (decide (x = n)) as [->|Hxn].
    + destruct (marks_memo_inv s0 s' y my) as (my0 & ty & Hmy0 & -> & _); [done..|].
      assert (y ∈ iset_elems (memo_subscribers m)) as Hin.
      { rewrite <- (marks_subscribed s0 s') in Hxy by done.
        destruct Hxy as (nd & Hnd & Hy). unfold memo_at in Hn0. by simplify_eq/=. }
      apply (nonclean_memo s' y); eauto.
    + eapply (Hcl (closed_except_put E s n m t Hn Ht HE) x y my); naive_solver.
  - intros m' _. eapply marks_nonclean; [done|]. by exists (memo_with_state t m).
  - intros Hc Hm. specialize (Hm m Hn).
    destruct Hkp as [_ Hk].
    + by apply closed_put.
    + intros y my Hy Hmy. eapply (closed_put s n m t Hn Hm Ht Hc n y my); [by intros []| | |exact Hmy].
      * exists (memo_with_state t m). split; [exact Hn0|done].
      * exists (NMemo (memo_with_state t m)). split; [exact Hn0|done].
    + eapply clean_kept_trans; [|done]. by apply clean_kept_put.
Qed.

Lemma mark_effect_ok E n e w d s :
  nodes s !! n = Some (NEffect e) →
  (eff_set e = true → w = true) → (eff_dirty e = true → d = true) →
  (d = true → eff_dirty e = true ∨ w = true) →
  mark_ok E n s (put_node n (NEffect (eff_with_set w (eff_with_dirty d e))) s).
Proof.
  intros Hn Hw Hd Hor.
  assert (marks s (put_node n (NEffect (eff_with_set w (eff_with_dirty d e))) s)) as Hmk.
  { eapply marks_put; [done|]. by exists w, d. }
  split; [done| | |].
  - intros HE x y my Hx (mx & Hmx & Hxc) Hxy Hmy.
    rewrite <- (marks_subscribed s) in Hxy by done. unfold memo_at in *. simpl in *.
    destruct (decide (x = n)) as [->|]; [by rewrite lookup_insert_eq in Hmx|].
    destruct (decide (y = n)) as [->|]; [by rewrite lookup_insert_eq in Hmy|].
    rewrite lookup_insert_ne in Hmx, Hmy by done.
    eapply (HE x y my); try done. by exists mx.
  - intros m Hm. unfold memo_at in Hm. by simplify_eq.
  - intros _ _ x m Hx _. unfold memo_at in *. simpl.
    destruct (decide (x = n)) as [->|]; [by simplify_eq|by rewrite lookup_insert_ne].
Qed.

Lemma mark_none_ok E n s : (∀ m, ¬ memo_at s n m) → mark_ok E n s s.
Proof.
  intros Hn. split; [reflexivity|done| |].
  - intros m Hm. by destruct (Hn m).
  - by intros _ _ x m.
Qed.

(** ** Termination and effect of the two marking functions *)

Lemma mark_check_ok fuel : ∀ E n s,
  wf_graph s → next s - n < fuel →
  ∃ s', mark_check fuel n s = Ok (tt, s') ∧ mark_ok E n s s'.
Proof.
  induction fuel as [|fuel IH]; intros E n s Hwf Hfuel; [lia|]. simpl.
  unfold mbind, stateM_bind, lookup_node, gets at 1, put, modify. simpl.
  destruct (nodes s !! n) as [[x|m|e]|] eqn:Hn.
  - exists s. split; [done|]. apply mark_none_ok. intros m Hm. unfold memo_at in Hm.
    by simplify_eq.
  - apply mark_memo_ok; [done|by case_decide|by destruct (memo_state m)|].
    intros E' y s1 Hs1 Hy.
    assert (n < y) as Hlt by (apply (wf_subs s); [done|by exists (NMemo m)]).
    assert (n < next s) by (by eapply wf_next).
    apply IH; [by eapply marks_wf|]. destruct Hs1 as (_ & -> & _). lia.
  - eexists. split; [done|].
    replace (eff_with_set true e) with (eff_with_set true (eff_with_dirty (eff_dirty e) e))
      by (by destruct e).
    apply mark_effect_ok; auto.
  - exists s. split; [done|]. apply mark_none_ok. intros m Hm. unfold memo_at in Hm.
    by simplify_eq.
Qed.

Lemma mark_dirty_ok fuel E n s :
  wf_graph s → next s - n < fuel →
  ∃ s', mark_dirty fuel n s = Ok (tt, s') ∧ mark_ok E n s s' ∧
    (∀ m, memo_at s' n m → memo_state m = Dirty).
Proof.
  intros Hwf Hfuel.
  unfold mark_dirty, mbind, stateM_bind, lookup_node, gets at 1, put, modify. simpl.
  destruct (nodes s !! n) as [[x|m|e]|] eqn:Hn.
  - exists s. split_and!; [done| |].
    + apply mark_none_ok. intros m Hm. unfold memo_at in Hm. by simplify_eq.
    + intros m Hm. unfold memo_at in Hm. by simplify_eq.
  - destruct (mark_memo_ok E n m Dirty (mark_check fuel) s) as (s' & Hs' & Hok);
      [done|done|by destruct (memo_state m)| |].
    { intros E' y s1 Hs1 Hy.
      assert (n < y) as Hlt by (apply (wf_subs s); [done|by exists (NMemo m)]).
      apply mark_check_ok; [by eapply marks_wf|]. destruct Hs1 as (_ & -> & _). lia. }
    exists s'. split_and!; [done..|].
    intros m' Hm'.
    destruct (for_each_mark (λ _, False) (mark_check fuel)
      (iset_elems (memo_subscribers m)) (put_node n (NMemo (memo_with_state Dirty m)) s))
      as (s'' & Hs'' & Hmk & _).
    { intros y s1 Hs1 Hy. apply mark_check_ok; [eapply marks_wf; [done|]|].
      - eapply marks_wf; [|done]. eapply marks_put; [done|].
        exists Dirty. split; [done|]. by destruct (memo_state m).
      - destruct Hs1 as (_ & -> & _). simpl.
        assert (n < y) by (apply (wf_subs s); [done|by exists (NMemo m)]). lia. }
    assert (s'' = s') as -> by congruence.
    destruct (marks_memo_inv _ _ _ _ Hmk Hm') as (m0 & t & Hm0 & -> & Hle).
    unfold memo_at in Hm0. simpl in Hm0. rewrite lookup_insert_eq in Hm0.
    simplify_eq/=. by destruct t.
  - eexists. split_and!; [done|apply mark_effect_ok; auto|].
    intros m Hm. unfold memo_at in Hm. simpl in Hm. by rewrite lookup_insert_eq in Hm.
  - exists s. split_and!; [done| |].
    + apply mark_none_ok. intros m Hm. unfold memo_at in Hm. by simplify_eq.
    + intros m Hm. unfold memo_at in Hm. by simplify_eq.
Qed.

Lemma mark_dirty_now_ok E n s :
  wf_graph s →
  ∃ s', mark_dirty_now n s = Ok (tt, s') ∧ mark_ok E n s s' ∧
    (∀ m, memo_at s' n m → memo_state m = Dirty).
Proof. intros Hwf. apply mark_dirty_ok; [done|]. unfold mark_fuel. lia. Qed.
End mark.
