(* ===== verification/GraphLinks.v ===== *)
(** * Edges of the graph

    [track] and [clear_sources] change only the edges: [same_core] says that
    the rest of every node is untouched, and the lemmas below give the edges
    before and after in terms of [has_source] and [subscribed]. *)

From stdpp Require Import base gmap list.
From S2P Require Import Prelude IndexSets Graph GraphInv GraphMark.

Section links.
Context {V : Type} {iset : Type} `{IndexSet nat iset, !IndexSetLaws nat iset}.
Local Abbreviation graph := (graph V iset).
Local Abbreviation Memo := (Memo V iset).
Implicit Types (s : graph) (m : Memo) (n x y o : nat) (nd : node V iset).

(** A node without its edges. *)
Definition core nd : node V iset := with_subs iset_empty (with_sources iset_empty nd).

Definition same_core s s' : Prop :=
  observer s' = observer s ∧ next s' = next s ∧
  ∀ x, core <$> nodes s' !! x = core <$> nodes s !! x.

Definition has_source s y x : Prop :=
  ∃ nd, nodes s !! y = Some nd ∧ x ∈ iset_elems (sources_of nd).

#[global] Instance same_core_refl : Reflexive same_core.
Proof. by intros s. Qed.
#[global] Instance same_core_trans : Transitive same_core.
Proof.
  intros s1 s2 s3 (Ho1 & Hn1 & H1) (Ho2 & Hn2 & H2). split_and!; [congruence..|].
  intros x. by rewrite H2, H1.
Qed.

Lemma core_with_subs b nd : core (with_subs b nd) = core nd.
Proof. by destruct nd. Qed.
Lemma core_with_sources b nd : core (with_sources b nd) = core nd.
Proof. by destruct nd. Qed.

(** An edge update through [update_node]. *)
Lemma update_links f n s :
  (∀ nd, core (f nd) = core nd) →
  update_node f n s = Ok (tt, set_nodes (alter f n) s) ∧
  same_core s (set_nodes (alter f n) s).
Proof.
  intros Hf. split; [done|]. split_and!; [done..|]. intros x. simpl.
  destruct (decide (x = n)) as [->|].
  - rewrite lookup_alter_eq. destruct (nodes s !! n) as [nd|]; simpl; [|done].
    by rewrite Hf.
  - by rewrite lookup_alter_ne.
Qed.

Lemma same_core_sym s s' : same_core s s' → same_core s' s.
Proof. intros (Ho & Hn & Hx). split_and!; [done..|]. intros x. by rewrite Hx. Qed.

Lemma same_core_memo s s' n m :
  same_core s s' → memo_at s n m →
  ∃ m', memo_at s' n m' ∧ memo_value m' = memo_value m ∧
    memo_fun m' = memo_fun m ∧ memo_state m' = memo_state m.
Proof.
  intros (_ & _ & Hx) Hn. specialize (Hx n). unfold memo_at in *. rewrite Hn in Hx.
  destruct (nodes s' !! n) as [[x|m'|e]|]; try done.
  simpl in Hx. unfold core in Hx. simpl in Hx. inversion Hx. eauto.
Qed.

Lemma same_core_memo_inv s s' n m' :
  same_core s s' → memo_at s' n m' →
  ∃ m, memo_at s n m ∧ memo_value m' = memo_value m ∧
    memo_fun m' = memo_fun m ∧ memo_state m' = memo_state m.
Proof.
  intros Hs Hn. destruct (same_core_memo s' s n m') as (m & ? & ? & ? & ?);
    [by apply same_core_sym|done|]. by exists m.
Qed.

Local Ltac core_cases Hx :=
  unfold core in Hx; simpl in Hx; try discriminate Hx; try done;
  inversion Hx; try done; simpl; by split; congruence.

Lemma same_core_stored s s' x : same_core s s' → stored s' x = stored s x.
Proof.
  intros (_ & _ & Hx). specialize (Hx x). unfold stored.
  destruct (nodes s !! x) as [[]|], (nodes s' !! x) as [[]|]; core_cases Hx.
Qed.

Lemma same_core_is_source s s' x : same_core s s' → is_source s' x ↔ is_source s x.
Proof.
  intros (_ & _ & Hx). specialize (Hx x). unfold is_source.
  destruct (nodes s !! x) as [[]|], (nodes s' !! x) as [[]|]; core_cases Hx.
Qed.

Lemma same_core_src_clean s s' x : same_core s s' → src_clean s' x ↔ src_clean s x.
Proof.
  intros (_ & _ & Hx). specialize (Hx x). unfold src_clean.
  destruct (nodes s !! x) as [[]|], (nodes s' !! x) as [[]|]; core_cases Hx.
Qed.

Lemma same_core_nonclean s s' x : same_core s s' → nonclean s' x → nonclean s x.
Proof.
  intros Hs (m' & Hm' & Hc).
  destruct (same_core_memo_inv s s' x m') as (m & Hm & _ & _ & Hst); [done..|].
  exists m. split; [done|]. congruence.
Qed.

Lemma same_core_None s s' x : same_core s s' → nodes s' !! x = None ↔ nodes s !! x = None.
Proof.
  intros (_ & _ & Hx). specialize (Hx x).
  destruct (nodes s !! x), (nodes s' !! x); core_cases Hx.
Qed.

Lemma has_source_memo s y m x :
  memo_at s y m → has_source s y x ↔ x ∈ iset_elems (memo_sources m).
Proof.
  intros Hy. unfold has_source, memo_at in *. split.
  - intros (nd & Hnd & Hx). by simplify_eq/=.
  - intros Hx. by exists (NMemo m).
Qed.

(** ** Transfer of the invariant along a change of edges *)

Lemma links_wf s s' :
  same_core s s' → wf_graph s →
  (∀ y x, has_source s' y x → has_source s y x ∨ (x < y ∧ is_source s x)) →
  (∀ x y, subscribed s' x y → subscribed s x y ∨ (x < y ∧ y < next s)) →
  wf_graph s'.
Proof.
  intros Hs Hwf Hsrc Hsub. pose proof Hs as (_ & Hn & _). split.
  - intros n nd Hnd. rewrite Hn.
    destruct (nodes s !! n) as [nd0|] eqn:E; [by eapply wf_next|].
    apply (same_core_None s s') in E; [|done]. by simplify_eq.
  - intros n m' Hm'. destruct (same_core_memo_inv s s' n m') as (m & Hm & _ & -> & _);
      [done..|]. eapply pure_memo_mono; [|exact (wf_fun _ Hwf n m Hm)].
    intros x [? ?]. by rewrite same_core_is_source.
  - intros n m' x Hm' Hx. rewrite same_core_is_source by done.
    destruct (same_core_memo_inv s s' n m') as (m & Hm & _); [done..|].
    destruct (Hsrc n x) as [Hx'|?]; [by apply (has_source_memo s' n m')| |done].
    apply (has_source_memo s n m) in Hx'; [|done]. by apply (wf_srcs _ Hwf n m x).
  - intros x y Hxy. rewrite Hn. destruct (Hsub x y Hxy); [by eapply wf_subs|done].
Qed.

Lemma links_Cons R ov s s' :
  same_core s s' → Cons R ov s →
  (∀ y x, ¬ R y → has_source s y x → has_source s' y x) →
  Cons R ov s'.
Proof.
  intros Hs HC Hsrc n m' Hm' HR Hd.
  destruct (same_core_memo_inv s s' n m') as (m & Hm & Hv & Hf & Hst); [done..|].
  destruct (HC n m Hm HR) as (v & Hv' & He & Hr); [congruence|].
  assert (∀ x, vstore ov s x = vstore ov s' x) as Hvs.
  { intros x. unfold vstore. by rewrite (same_core_stored s s'). }
  destruct (eval_comp_ext (vstore ov s) (vstore ov s') (memo_fun m None)) as [He' Hr'];
    [auto|].
  exists v. rewrite Hv, Hf, <- He', <- Hr'. split_and!; [done..|].
  intros x Hx. apply (has_source_memo s' n m'); [done|]. apply Hsrc; [done|].
  apply (has_source_memo s n m); auto.
Qed.

Lemma same_core_effect_inv s s' y e' :
  same_core s s' → effect_at s' y e' →
  ∃ e, effect_at s y e ∧ eff_dirty e' = eff_dirty e ∧ eff_set e' = eff_set e.
Proof.
  intros (_ & _ & Hx) Hy. specialize (Hx y). unfold effect_at in *. rewrite Hy in Hx.
  destruct (nodes s !! y) as [[u|m|e]|]; unfold core in Hx; simpl in Hx; try done.
  inversion Hx. eauto.
Qed.

Lemma has_source_effect s y e x :
  effect_at s y e → has_source s y x ↔ x ∈ iset_elems (eff_sources e).
Proof. intros Hy. unfold has_source, effect_at in *. rewrite Hy. naive_solver. Qed.

Lemma links_eff_links s s' :
  same_core s s' → eff_links s →
  (∀ y e x, effect_at s y e → has_source s' y x →
    has_source s y x ∨ (x < y ∧ is_source s x ∧ subscribed s' x y)) →
  (∀ y e x, effect_at s y e → subscribed s x y → subscribed s' x y) →
  eff_links s'.
Proof.
  intros Hc HE Hsrc Hsub y e' x Hy Hx.
  destruct (same_core_effect_inv s s' y e') as (e & He & -> & _); [done..|].
  rewrite (same_core_is_source s s') by done.
  apply (has_source_effect s' y e') in Hx; [|done].
  destruct (Hsrc y e x He Hx) as [Hx'|(? & ? & ?)]; [|auto].
  apply (has_source_effect s y e) in Hx'; [|done].
  destruct (HE y e x He Hx') as [? [?|?]]; eauto.
Qed.

(** ** [track] *)

Lemma elem_of_subscribe (live : nat → bool) o b x :
  x ∈ iset_elems (subscribe live o b) →
  x = o ∨ x ∈ iset_elems b.
Proof.
  unfold subscribe. rewrite elem_of_iset_insert. intros [->|Hx]; [by left|]. right.
  destruct (_ =? _); [|done]. rewrite elems_reserve in Hx.
  by apply elem_of_iset_retain in Hx as [_ ?].
Qed.

Lemma elem_of_subscribe_live (live : nat → bool) o b x :
  live x = true → x ∈ iset_elems b → x ∈ iset_elems (subscribe live o b).
Proof.
  intros Hl Hx. unfold subscribe. rewrite elem_of_iset_insert. right.
  destruct (_ =? _); [|done]. rewrite elems_reserve.
  by apply elem_of_iset_retain.
Qed.

Lemma elem_of_subscribe_new (live : nat → bool) o b : o ∈ iset_elems (subscribe live o b).
Proof. unfold subscribe. rewrite elem_of_iset_insert. by left. Qed.

Definition is_subscriber s o : Prop :=
  match nodes s !! o with Some (NMemo _) | Some (NEffect _) => True | _ => False end.

(** The state after [track n] with the observer [o]. *)
Record tracked n o s s' : Prop := {
  tr_core : same_core s s';
  tr_src y x : has_source s' y x ↔ has_source s y x ∨ (y = o ∧ x = n);
  tr_sub x y : subscribed s' x y → subscribed s x y ∨ (x = n ∧ y = o);
  tr_new : subscribed s' n o;
  tr_old x y : subscribed s x y → is_Some (nodes s !! y) → subscribed s' x y;
}.

Lemma sources_of_with_sources b nd :
  (match nd with NSignal _ => False | _ => True end) → sources_of (with_sources b nd) = b.
Proof. by destruct nd. Qed.
Lemma sources_of_with_subs b nd : sources_of (with_subs b nd) = sources_of nd.
Proof. by destruct nd. Qed.
Lemma subs_of_with_sources b nd : subs_of (with_sources b nd) = subs_of nd.
Proof. by destruct nd. Qed.
Lemma subs_of_with_subs b nd :
  (match nd with NEffect _ => False | _ => True end) → subs_of (with_subs b nd) = b.
Proof. by destruct nd. Qed.

Lemma add_source_links o n s :
  is_subscriber s o →
  ∃ s', add_source o n s = Ok (tt, s') ∧ same_core s s' ∧
    (∀ y x, has_source s' y x ↔ has_source s y x ∨ (y = o ∧ x = n)) ∧
    (∀ x y, subscribed s' x y ↔ subscribed s x y).
Proof.
  intros Ho. eexists. split; [done|].
  destruct (update_links (λ nd, with_sources (iset_insert n (sources_of nd)) nd) o s) as [_ Hc].
  { intros nd. apply core_with_sources. }
  split; [done|]. unfold is_subscriber in Ho.
  destruct (nodes s !! o) as [nd|] eqn:E; [|done].
  split; intros z w; unfold has_source, subscribed; simpl.
  - destruct (decide (z = o)) as [->|Hz].
    + rewrite lookup_alter_eq, E. simpl. split.
      * intros (nd' & [= <-] & Hw). rewrite sources_of_with_sources in Hw by by destruct nd.
        apply elem_of_iset_insert in Hw as [->|Hw]; [by right|]. left. by exists nd.
      * intros Hw. eexists. split; [done|]. rewrite sources_of_with_sources by by destruct nd.
        apply elem_of_iset_insert. destruct Hw as [(nd' & [= <-] & Hw)|[_ ->]]; auto.
    + rewrite lookup_alter_ne by done. naive_solver.
  - destruct (decide (z = o)) as [->|Hz].
    + rewrite lookup_alter_eq, E. simpl. split; intros (nd' & [= <-] & Hw); eexists;
        (split; [done|]); by rewrite ?subs_of_with_sources in *.
    + by rewrite lookup_alter_ne.
Qed.

Lemma add_subscriber_links n o s :
  is_source s n →
  ∃ s', add_subscriber n o s = Ok (tt, s') ∧ same_core s s' ∧
    (∀ y x, has_source s' y x ↔ has_source s y x) ∧
    (∀ x y, subscribed s' x y → subscribed s x y ∨ (x = n ∧ y = o)) ∧
    subscribed s' n o ∧
    (∀ x y, subscribed s x y → is_Some (nodes s !! y) → subscribed s' x y).
Proof.
  intros Hn. eexists. split; [done|].
  set (f nd := with_subs (subscribe (is_live s) o (subs_of nd)) nd).
  destruct (update_links f n s) as [_ Hc]; [intros nd; apply core_with_subs|].
  split; [done|]. unfold is_source in Hn. destruct (nodes s !! n) as [nd|] eqn:E; [|done].
  assert (subs_of (f nd) = subscribe (is_live s) o (subs_of nd)) as Hf.
  { apply subs_of_with_subs. by destruct nd. }
  assert (∀ x y, subscribed (set_nodes (alter f n) s) x y ↔
    if decide (x = n) then y ∈ iset_elems (subscribe (is_live s) o (subs_of nd))
    else subscribed s x y) as Hsub.
  { intros x y. unfold subscribed. simpl. case_decide as Hx; [subst x|].
    - rewrite lookup_alter_eq, E, <- Hf. naive_solver.
    - by rewrite lookup_alter_ne. }
  split_and!.
  - intros y x. unfold has_source. simpl. destruct (decide (y = n)) as [->|].
    + rewrite lookup_alter_eq, E. simpl.
      split; intros (nd' & [= <-] & Hx); eexists; (split; [done|]); unfold f in *;
        by rewrite sources_of_with_subs in *.
    + by rewrite lookup_alter_ne.
  - intros x y Hxy. apply Hsub in Hxy. case_decide as Hx; [subst x|by left].
    apply elem_of_subscribe in Hxy as [->|Hy]; [by right|]. left. by exists nd.
  - apply Hsub. rewrite decide_True by done. apply elem_of_subscribe_new.
  - intros x y (nd' & Hnd' & Hy) Hlive. apply Hsub. case_decide as Hx; [|by exists nd'].
    subst x. simplify_eq. apply elem_of_subscribe_live; [|done].
    unfold is_live. by apply bool_decide_eq_true.
Qed.

Lemma track_links n o s :
  observer s = Some (mkObserver o false) → is_subscriber s o → is_source s n →
  ∃ s', track n s = Ok (tt, s') ∧ tracked n o s s'.
Proof.
  intros Hobs Ho Hn.
  destruct (add_source_links o n s Ho) as (s1 & H1 & Hc1 & Hsrc1 & Hsub1).
  destruct (add_subscriber_links n o s1) as (s2 & H2 & Hc2 & Hsrc2 & Hsub2 & Hnew & Hold).
  { by rewrite same_core_is_source. }
  exists s2. split.
  { unfold track. rewrite (bind_Ok _ _ s (Some o) s); [by step_with H1|].
    unfold Observer_get, gets. by rewrite Hobs. }
  split; [by etrans| | |done|].
  - intros y x. by rewrite Hsrc2, Hsrc1.
  - intros x y Hxy. by rewrite <- Hsub1; apply Hsub2.
  - intros x y Hxy Hy. apply Hold; [by apply Hsub1|].
    rewrite <- not_eq_None_Some in *. by rewrite (same_core_None s s1).
Qed.

Lemma track_none n s : observer s = None → track n s = Ok (tt, s).
Proof.
  intros Hobs. unfold track. rewrite (bind_Ok _ _ s None s); [done|].
  unfold Observer_get, gets. by rewrite Hobs.
Qed.

(** ** [clear_sources] *)

Lemma remove_subscriber_links x o s :
  ∃ s', remove_subscriber x o s = Ok (tt, s') ∧ same_core s s' ∧
    (∀ y z, has_source s' y z ↔ has_source s y z) ∧
    (∀ z y, subscribed s' z y ↔ subscribed s z y ∧ ¬ (z = x ∧ y = o)).
Proof.
  eexists. split; [done|].
  set (f nd := with_subs (unsubscribe o (subs_of nd)) nd).
  destruct (update_links f x s) as [_ Hc]; [intros nd; apply core_with_subs|].
  split; [done|]. split; intros z w; unfold has_source, subscribed; simpl.
  - destruct (decide (z = x)) as [->|]; [|by rewrite lookup_alter_ne].
    rewrite lookup_alter_eq. destruct (nodes s !! x) as [nd|]; simpl; [|naive_solver].
    split; intros (nd' & [= <-] & Hw); eexists; (split; [done|]);
      unfold f in *; by rewrite ?sources_of_with_subs in *.
  - destruct (decide (z = x)) as [->|]; [|rewrite lookup_alter_ne by done; naive_solver].
    rewrite lookup_alter_eq. destruct (nodes s !! x) as [nd|]; simpl; [|naive_solver].
    assert (w ∈ iset_elems (subs_of (f nd)) ↔ w ≠ o ∧ w ∈ iset_elems (subs_of nd)) as Hw.
    { unfold f. destruct nd as [u|m|e]; simpl; try apply elem_of_iset_shift_remove.
      split; [|naive_solver]. intros []%elem_of_iset_empty. }
    split.
    + intros (nd' & [= <-] & Hin). apply Hw in Hin as [Hwo Hin]. split; [by exists nd|naive_solver].
    + intros [(nd' & [= <-] & Hin) Hne]. eexists. split; [done|]. apply Hw. naive_solver.
Qed.

Lemma for_each_unsubscribe o l : ∀ s,
  ∃ s', for_each (λ source, remove_subscriber source o) l s = Ok (tt, s') ∧
    same_core s s' ∧
    (∀ y z, has_source s' y z ↔ has_source s y z) ∧
    (∀ z y, subscribed s' z y ↔ subscribed s z y ∧ ¬ (z ∈ l ∧ y = o)).
Proof.
  induction l as [|x l IH]; intros s.
  { exists s. split_and!; [done|reflexivity|done|].
    intros z y. split; [|naive_solver]. intros Hz. split; [done|].
    by intros [[]%not_elem_of_nil _]. }
  destruct (remove_subscriber_links x o s) as (s1 & H1 & Hc1 & Hsrc1 & Hsub1).
  destruct (IH s1) as (s2 & H2 & Hc2 & Hsrc2 & Hsub2).
  exists s2. split_and!.
  - simpl. unfold mbind, stateM_bind. by rewrite H1.
  - by etrans.
  - intros y z. by rewrite Hsrc2.
  - intros z y. rewrite Hsub2, Hsub1, elem_of_cons. naive_solver.
Qed.

Record cleared n s s' : Prop := {
  cl_core : same_core s s';
  cl_src y x : has_source s' y x ↔ has_source s y x ∧ y ≠ n;
  cl_sub x y : subscribed s' x y ↔ subscribed s x y ∧ ¬ (y = n ∧ has_source s n x);
}.

Lemma clear_sources_links n s :
  is_subscriber s n →
  ∃ s', clear_sources n n s = Ok (tt, s') ∧ cleared n s s'.
Proof.
  intros Hn. unfold is_subscriber in Hn.
  destruct (nodes s !! n) as [nd|] eqn:E; [|done].
  set (s1 := set_nodes (alter (with_sources iset_empty) n) s).
  destruct (update_links (with_sources iset_empty) n s) as [_ Hc1];
    [intros nd'; apply core_with_sources|]. fold s1 in Hc1.
  destruct (for_each_unsubscribe n (iset_elems (sources_of nd)) s1)
    as (s2 & H2 & Hc2 & Hsrc2 & Hsub2).
  assert (∀ y x, has_source s1 y x ↔ has_source s y x ∧ y ≠ n) as Hsrc1.
  { intros y x. unfold has_source, s1. simpl. destruct (decide (y = n)) as [->|].
    - rewrite lookup_alter_eq, E. simpl. split; [|naive_solver].
      intros (nd' & [= <-] & Hx). exfalso.
      rewrite sources_of_with_sources in Hx by by destruct nd.
      by apply elem_of_iset_empty in Hx.
    - rewrite lookup_alter_ne by done. naive_solver. }
  assert (∀ x y, subscribed s1 x y ↔ subscribed s x y) as Hsub1.
  { intros x y. unfold subscribed, s1. simpl. destruct (decide (x = n)) as [->|].
    - rewrite lookup_alter_eq, E. simpl. split; intros (nd' & [= <-] & Hx); eexists;
        (split; [done|]); by rewrite ?subs_of_with_sources in *.
    - by rewrite lookup_alter_ne. }
  exists s2. split.
  { unfold clear_sources. rewrite (bind_Ok _ _ s (Some nd) s); [done|].
    unfold lookup_node, gets. by rewrite E. }
  split; [by etrans| |].
  - intros y x. by rewrite Hsrc2.
  - intros x y. rewrite Hsub2, Hsub1. unfold has_source. rewrite E. naive_solver.
Qed.
End links.
