(* ===== verification/GraphRead.v ===== *)
(** * Reading the graph

    [update_if_necessary] brings a memo up to date: it terminates with the fuel
    that [update_node_if_necessary] gives it, it preserves the invariant, and
    it leaves the memo clean.  The lemmas follow the code: one tracked read, one
    run of a closure, the two ways a memo is found clean, and the recomputation
    of a memo with its notification of the subscribers. *)

From stdpp Require Import base gmap list.
From S2P Require Import Prelude IndexSets Graph GraphInv GraphMark GraphLinks.

Section read.
Context {V : Type} {iset : Type} `{IndexSet nat iset, !IndexSetLaws nat iset}.
Local Abbreviation graph := (graph V iset).
Local Abbreviation Memo := (Memo V iset).
Implicit Types (s : graph) (m : Memo) (n x y o : nat) (nd : node V iset).

(** ** How reading changes the graph *)

Definition same_set (a b : iset) : Prop := ∀ x, x ∈ iset_elems a ↔ x ∈ iset_elems b.

(** [P]: the value of the node may not change; [Q]: nor may its sources. *)
Definition ext_node (P Q : Prop) (a b : node V iset) : Prop :=
  match a, b with
  | NSignal x, NSignal y => sig_value y = sig_value x
  | NMemo m, NMemo m' =>
      memo_fun m' = memo_fun m ∧
      (memo_state m = Clean → memo_state m' = Clean ∧ memo_value m' = memo_value m) ∧
      (P → memo_value m' = memo_value m ∧ (memo_state m ≠ Clean → memo_state m' ≠ Clean)) ∧
      (Q → same_set (memo_sources m') (memo_sources m))
  | NEffect e, NEffect e' =>
      eff_fun e' = eff_fun e ∧ eff_value e' = eff_value e ∧
      eff_paused e' = eff_paused e ∧ eff_first_run e' = eff_first_run e ∧
      (eff_set e = true → eff_set e' = true) ∧
      (eff_dirty e = true → eff_dirty e' = true) ∧
      (eff_dirty e' = true → eff_dirty e = true ∨ eff_set e' = true) ∧
      (Q → same_set (eff_sources e') (eff_sources e))
  | _, _ => False
  end.

Record ext (k j : nat) s s' : Prop := {
  ext_observer : observer s' = observer s;
  ext_next : next s' = next s;
  ext_nodes x : option_Forall2 (ext_node (k ≤ x) (j ≤ x)) (nodes s !! x) (nodes s' !! x);
}.

Lemma ext_node_refl P Q nd : ext_node P Q nd nd.
Proof. destruct nd as [x|m|e]; simpl; split_and?; try done. by left. Qed.

Lemma ext_node_trans P Q a b c : ext_node P Q a b → ext_node P Q b c → ext_node P Q a c.
Proof.
  destruct a as [x|m|e], b as [x'|m'|e'], c as [x''|m''|e'']; simpl; try done.
  - congruence.
  - intros (Hf & Hc & HP & HQ) (Hf' & Hc' & HP' & HQ'). split_and!.
    + congruence.
    + intros Hm. destruct (Hc Hm) as [Hm' Hv]. destruct (Hc' Hm'). split; congruence.
    + intros p. destruct (HP p), (HP' p). split; [congruence|auto].
    + intros q x. by rewrite (HQ' q x), (HQ q x).
  - intros (? & ? & ? & ? & Hs & ? & Hor & HQ) (? & ? & ? & ? & Hs' & ? & Hor' & HQ').
    split_and!; try congruence; auto; [naive_solver|]. intros q x. by rewrite (HQ' q x), (HQ q x).
Qed.

Lemma ext_node_mono (P Q P' Q' : Prop) a b :
  (P' → P) → (Q' → Q) → ext_node P Q a b → ext_node P' Q' a b.
Proof. intros HP HQ. destruct a, b; simpl; naive_solver. Qed.

Lemma ext_refl k j s : ext k j s s.
Proof.
  split; [done..|]. intros x. destruct (nodes s !! x); constructor. apply ext_node_refl.
Qed.

Lemma ext_trans k j s1 s2 s3 : ext k j s1 s2 → ext k j s2 s3 → ext k j s1 s3.
Proof.
  intros [Ho Hn H1] [Ho' Hn' H2]. split; [congruence..|]. intros x.
  specialize (H1 x). specialize (H2 x).
  destruct H1; inversion H2; subst; constructor. eapply ext_node_trans; eauto.
Qed.

Lemma ext_mono k j k' j' s s' : k ≤ k' → j ≤ j' → ext k j s s' → ext k' j' s s'.
Proof.
  intros Hk Hj [Ho Hn Hx]. split; [done..|]. intros x.
  destruct (Hx x) as [a b Hab|]; constructor.
  eapply ext_node_mono; [| |done]; lia.
Qed.

Lemma ext_memo k j s s' n m :
  ext k j s s' → memo_at s n m →
  ∃ m', memo_at s' n m' ∧ ext_node (k ≤ n) (j ≤ n) (NMemo m) (NMemo m').
Proof.
  intros [_ _ Hx] Hn. specialize (Hx n). unfold memo_at in *. rewrite Hn in Hx.
  inversion Hx as [? [x|m'|e] Hm|]; subst; try done. eauto.
Qed.

Lemma ext_is_source k j s s' x : ext k j s s' → is_source s' x ↔ is_source s x.
Proof.
  intros [_ _ Hx]. specialize (Hx x). unfold is_source.
  by inversion Hx as [[] [] Hab Ha Hb|Ha Hb].
Qed.

Lemma ext_is_subscriber k j s s' x : ext k j s s' → is_subscriber s' x ↔ is_subscriber s x.
Proof.
  intros [_ _ Hx]. specialize (Hx x). unfold is_subscriber.
  by inversion Hx as [[] [] Hab Ha Hb|Ha Hb].
Qed.

Lemma ext_src_clean k j s s' x :
  ext k j s s' → src_clean s x → src_clean s' x ∧ stored s' x = stored s x.
Proof.
  intros [_ _ Hx]. specialize (Hx x). unfold src_clean, stored.
  inversion Hx as [[] [] Hab Ha Hb|Ha Hb]; simpl in *; try done; [by rewrite Hab|].
  intros Hc. by apply Hab.
Qed.

Lemma ext_stored k j s s' x : ext k j s s' → k ≤ x → stored s' x = stored s x.
Proof.
  intros [_ _ Hx]. specialize (Hx x). unfold stored.
  inversion Hx as [[] [] Hab Ha Hb|Ha Hb]; simpl in *; try done; intros Hk;
    [by rewrite Hab|by apply Hab].
Qed.

Lemma ext_has_source k j s s' y x :
  ext k j s s' → j ≤ y → has_source s' y x ↔ has_source s y x.
Proof.
  intros [_ _ Hx] Hy. specialize (Hx y). unfold has_source.
  inversion Hx as [a b Hab Ha Hb|Ha Hb]; [|naive_solver].
  assert (same_set (sources_of b) (sources_of a)) as Hs.
  { destruct a, b; simpl in Hab; try done; by apply Hab. }
  split; intros (nd & [= <-] & Hin); eexists; (split; [done|]); by apply Hs.
Qed.

(** Marking a graph that is closed, from a node that is not clean. *)
Lemma marks_ext k j s s' : marks s s' → clean_kept s s' → ext k j s s'.
Proof.
  intros (Ho & Hn & Hm) Hk. split; [done..|]. intros x. specialize (Hm x).
  pose proof (Hk x) as Hkx. unfold memo_at in Hkx.
  destruct Hm as [a b Hab|]; constructor.
  destruct a as [u|m|e], b as [u'|m'|e']; simpl in *; try done.
  - by subst.
  - destruct Hab as (t & -> & Hle). simpl. split_and!; [done| | |done].
    + intros Hc. specialize (Hkx m eq_refl Hc).
      assert (memo_with_state t m = m) as Heq by congruence.
      split; [|done]. apply (f_equal memo_state) in Heq. simpl in Heq. congruence.
    + intros _. split; [done|]. intros Hc. by destruct (memo_state m), t.
  - destruct Hab as (w & d & -> & Hw & Hd & Hor). by destruct e.
Qed.

(** Adding the edge from [n] to the observer [o]. *)
Lemma tracked_ext n o s s' : tracked n o s s' → ext o (S o) s s'.
Proof.
  intros [Hc Hsrc _ _ _]. pose proof Hc as (Ho & Hn & Hx). split; [done..|]. intros x.
  specialize (Hx x). specialize (Hsrc x). unfold has_source in Hsrc.
  destruct (nodes s !! x) as [a|] eqn:Ea, (nodes s' !! x) as [b|] eqn:Eb; try done;
    constructor.
  assert (S o ≤ x → same_set (sources_of b) (sources_of a)) as Hs.
  { intros Hlt z. specialize (Hsrc z).
    assert (z ∈ iset_elems (sources_of b) ↔
      ∃ nd, Some b = Some nd ∧ z ∈ iset_elems (sources_of nd)) as -> by naive_solver.
    rewrite Hsrc. split; [|naive_solver]. intros [?|[-> _]]; [naive_solver|lia]. }
  destruct a as [u|m|e], b as [u'|m'|e']; try done; unfold core in Hx; simpl in *;
    inversion Hx; [done|..]; split_and!; try done; try congruence.
  intros ?. left. congruence.
Qed.

(** ** Writing one memo in place *)

Lemma update_memo s n m f :
  memo_at s n m → update_node (on_memo f) n s = Ok (tt, put_node n (NMemo (f m)) s).
Proof.
  intros Hn. unfold update_node, modify, put_node, set_nodes. repeat f_equal.
  apply map_eq. intros x. unfold memo_at in Hn. destruct (decide (x = n)) as [->|].
  - by rewrite lookup_alter_eq, lookup_insert_eq, Hn.
  - by rewrite lookup_alter_ne, lookup_insert_ne.
Qed.

Lemma lookup_node_eq n s : lookup_node n s = Ok (nodes s !! n, s).
Proof. done. Qed.

(** [m'] differs from [m] in its value and state only. *)
Definition same_edges m m' : Prop :=
  memo_fun m' = memo_fun m ∧ memo_sources m' = memo_sources m ∧
  memo_subscribers m' = memo_subscribers m.

Section put_memo.
Context (s : graph) (n : nat) (m m' : Memo).
Local Abbreviation s' := (put_node n (NMemo m') s).

Lemma memo_at_put y my :
  memo_at s' y my ↔ (y = n ∧ my = m') ∨ (y ≠ n ∧ memo_at s y my).
Proof.
  unfold memo_at. simpl. destruct (decide (y = n)) as [->|].
  - rewrite lookup_insert_eq. naive_solver.
  - rewrite lookup_insert_ne by done. naive_solver.
Qed.

Lemma put_stored x : x ≠ n → stored s' x = stored s x.
Proof. intros Hx. unfold stored. simpl. by rewrite lookup_insert_ne. Qed.

Lemma put_stored_eq : stored s' n = memo_value m'.
Proof. unfold stored. simpl. by rewrite lookup_insert_eq. Qed.

Context (Hn : memo_at s n m) (Hm : same_edges m m').

Lemma put_subscribed x y : subscribed s' x y ↔ subscribed s x y.
Proof.
  unfold subscribed. simpl. destruct (decide (x = n)) as [->|].
  - unfold memo_at in Hn. rewrite lookup_insert_eq, Hn. destruct Hm as (_ & _ & Hs).
    split; intros (nd & [= <-] & Hy); eexists; (split; [done|]); simpl in *; congruence.
  - by rewrite lookup_insert_ne.
Qed.

Lemma put_has_source y x : has_source s' y x ↔ has_source s y x.
Proof.
  unfold has_source. simpl. destruct (decide (y = n)) as [->|].
  - unfold memo_at in Hn. rewrite lookup_insert_eq, Hn. destruct Hm as (_ & Hs & _).
    split; intros (nd & [= <-] & Hy); eexists; (split; [done|]); simpl in *; congruence.
  - by rewrite lookup_insert_ne.
Qed.

Lemma put_is_source x : is_source s' x ↔ is_source s x.
Proof.
  unfold is_source. simpl. destruct (decide (x = n)) as [->|].
  - unfold memo_at in Hn. by rewrite lookup_insert_eq, Hn.
  - by rewrite lookup_insert_ne.
Qed.

Lemma put_wf : wf_graph s → wf_graph s'.
Proof.
  intros Hwf. split.
  - intros x nd. simpl. destruct (decide (x = n)) as [->|].
    + intros _. by eapply wf_next.
    + rewrite lookup_insert_ne by done. by apply wf_next.
  - intros x mx Hx. eapply (pure_memo_mono (λ z, z < x ∧ is_source s z)).
    { intros z [? ?]. by rewrite put_is_source. }
    apply memo_at_put in Hx as [[-> ->]|[_ Hx]]; [|by eapply wf_fun].
    destruct Hm as (-> & _). by eapply wf_fun.
  - intros x mx z Hx Hz. rewrite put_is_source.
    apply memo_at_put in Hx as [[-> ->]|[_ Hx]]; [|by eapply wf_srcs].
    destruct Hm as (_ & Hs & _). rewrite Hs in Hz. by eapply wf_srcs.
  - intros x y Hxy. apply put_subscribed in Hxy. by apply (wf_subs s).
Qed.
Lemma put_eff_links : eff_links s → eff_links s'.
Proof.
  intros HE y e x Hy Hx. rewrite put_is_source, put_subscribed. unfold effect_at in *.
  simpl in Hy. destruct (decide (y = n)) as [->|].
  - by rewrite lookup_insert_eq in Hy.
  - rewrite lookup_insert_ne in Hy by done. by apply HE.
Qed.
End put_memo.

Lemma memo_at_unique s n m1 m2 : memo_at s n m1 → memo_at s n m2 → m1 = m2.
Proof. unfold memo_at. congruence. Qed.

(** ** The invariant along the steps of a read *)

Lemma Inv_set_observer R ov ob s : Inv R ov s → Inv R ov (set_observer ob s).
Proof.
  intros [[[] ? ? ? ?] ? ? ?]. split; [|done..]. split; [|done..]. by split.
Qed.

(** Whoever observes is a running memo, or not a memo. *)
Definition obs_ok (R : nat → Prop) s : Prop :=
  ∀ ob, observer s = Some ob → obs_untracked ob = false ∧
    (R (obs_subscriber ob) ∨ ∀ m, ¬ memo_at s (obs_subscriber ob) m).

Lemma ext_obs_ok k j R s s' : ext k j s s' → obs_ok R s → obs_ok R s'.
Proof.
  intros [Ho Hn Hx] Hobs ob Hs'. rewrite Ho in Hs'. destruct (Hobs ob Hs') as [? Hm].
  split; [done|]. destruct Hm as [|Hm]; [by left|right]. intros m' Hm'.
  specialize (Hx (obs_subscriber ob)). unfold memo_at in *. rewrite Hm' in Hx.
  inversion Hx as [[u|m|e] ? Hab Ha Hb|]; subst; try done. by eapply (Hm m).
Qed.

Lemma tracked_Inv R ov n o s s' :
  tracked n o s s' → Inv R ov s → n < o → is_source s n → is_subscriber s o →
  R o ∨ (∀ m, ¬ memo_at s o m) → Inv R ov s'.
Proof.
  intros [Hc Hsrc Hsub Hnew Hold] [HL HC Hov HE] Hlt Hn Hos Ho.
  assert (o < next s) as Hon.
  { unfold is_subscriber in Hos. destruct (nodes s !! o) as [nd|] eqn:E; [|done].
    eapply wf_next; [|done]. by eapply lk_wf. }
  split; [|by eapply links_Cons; eauto; naive_solver|done|].
  2:{ eapply links_eff_links; [done..| |].
      - intros y e x He Hx. apply Hsrc in Hx as [?|[-> ->]]; auto.
      - intros y e x He Hx. apply Hold; [done|by eexists]. }
  pose proof (lk_wf _ _ HL) as Hwf.
  assert (∀ y m', memo_at s' y m' → ∃ m, memo_at s y m ∧ memo_state m' = memo_state m) as Hmemo.
  { intros y m' Hm'. destruct (same_core_memo_inv s s' y m') as (m & ? & ? & ? & ?); eauto. }
  split.
  - eapply links_wf; [done|done| |].
    + intros y x Hyx. apply Hsrc in Hyx as [|[-> ->]]; auto.
    + intros x y Hxy. apply Hsub in Hxy as [|[-> ->]]; auto.
  - intros y m' x Hm' HRd Hx. destruct (Hmemo y m' Hm') as (m & Hm & Hst).
    apply (has_source_memo s' y m') in Hx; [|done].
    apply Hsrc in Hx as [Hx|[-> ->]]; [|done].
    apply Hold; [|by eexists]. apply (has_source_memo s y m) in Hx; [|done].
    eapply (lk_link _ _ HL); [done|by rewrite Hst in HRd|done].
  - intros x y m' Hxy Hm'. destruct (Hmemo y m' Hm') as (m & Hm & Hst).
    apply (has_source_memo s' y m'); [done|]. apply Hsrc.
    apply Hsub in Hxy as [Hxy|[-> ->]]; [left|by right].
    apply (has_source_memo s y m); [done|]. by eapply lk_back.
  - intros x y m' Hx Hxc Hxy Hm'. destruct (Hmemo y m' Hm') as (m & Hm & Hst).
    rewrite Hst. apply (same_core_nonclean s s') in Hxc; [|done].
    apply Hsub in Hxy as [Hxy|[-> ->]]; [by eapply (lk_closed _ _ HL)|].
    destruct Ho as [Ho|Ho]; [|by destruct (Ho m)].
    apply (nonclean_memo s o); [done|]. by eapply lk_running.
  - intros r Hr. apply (same_core_nonclean s' s); [by apply same_core_sym|].
    by eapply lk_running.
Qed.

(** A memo becomes clean when its sources are. *)
Lemma Links_set_clean (R R' : nat → Prop) s n m m' :
  Links R' s → memo_at s n m → same_edges m m' → memo_state m' = Clean →
  R' n ∨ memo_state m ≠ Dirty →
  (∀ x, x ∈ iset_elems (memo_sources m) → src_clean s x) →
  (∀ r, R r → r ≠ n ∧ R' r) →
  Links R (put_node n (NMemo m') s).
Proof.
  intros HL Hn Hm Hcl HRn Hsrc HR.
  pose proof Hm as (_ & Hms & _). split.
  - eapply put_wf; eauto. by eapply lk_wf.
  - intros y my x Hy HRd Hx. rewrite put_subscribed by eauto.
    apply memo_at_put in Hy as [[-> ->]|[Hyn Hy]].
    + rewrite Hms in Hx. by eapply lk_link.
    + eapply (lk_link _ _ HL); [done| |done]. destruct HRd as [Hr|]; [left; by apply HR|by right].
  - intros x y my Hxy Hy. rewrite put_subscribed in Hxy by eauto.
    apply memo_at_put in Hy as [[-> ->]|[Hyn Hy]].
    + rewrite Hms. by eapply lk_back.
    + by eapply lk_back.
  - intros x y my Hx (mx & Hmx & Hxc) Hxy Hy. rewrite put_subscribed in Hxy by eauto.
    apply memo_at_put in Hmx as [[-> ->]|[Hxn Hmx]]; [done|].
    apply memo_at_put in Hy as [[-> ->]|[Hyn Hy]].
    + exfalso. assert (x ∈ iset_elems (memo_sources m)) as Hin by (by eapply lk_back).
      specialize (Hsrc x Hin). unfold src_clean in Hsrc. unfold memo_at in Hmx.
      by rewrite Hmx in Hsrc.
    + eapply (lk_closed _ _ HL); [done| |done|done]. by exists mx.
  - intros r Hr. destruct (HR r Hr) as [Hrn Hr'].
    destruct (lk_running _ _ HL r Hr') as (mr & Hmr & Hrc).
    exists mr. split; [|done]. apply memo_at_put. by right.
Qed.

(** ** One read *)

Section with_update.
(** [update_if_necessary] of the nodes below [k] *)
Context (upd : nat → stateM graph bool) (k : nat).

Definition update_ok (R : nat → Prop) ov n s : Prop :=
  ∃ b s', upd n s = Ok (b, s') ∧ Inv R ov s' ∧ ext (S n) (S n) s s' ∧
    src_clean s' n ∧ (b = false → stored s' n = stored s n).

Context (Hupd : ∀ (R : nat → Prop) ov x s,
  x < k → Inv R ov s → obs_ok R s → (∀ r, R r → x < r) → is_source s x →
  update_ok R ov x s).

Lemma clean_stored R ov s n : Inv R ov s → src_clean s n → ∃ v, stored s n = Some v.
Proof.
  intros HI Hc. pose proof (src_clean_not_running _ _ _ _ HI Hc) as HR.
  unfold src_clean, stored in *. destruct (nodes s !! n) as [[x|m|e]|] eqn:E; try done.
  - by eexists.
  - destruct (inv_cons _ _ _ HI n m) as (v & Hv & _); [done|done|by rewrite Hc|]. eauto.
Qed.

Lemma read_untracked_ok R ov x s :
  x < k → Inv R ov s → obs_ok R s → (∀ r, R r → x < r) → is_source s x →
  ∃ v s', read_untracked upd x s = Ok (v, s') ∧ Inv R ov s' ∧
    ext (S x) (S x) s s' ∧ stored s' x = Some v ∧ src_clean s' x.
Proof.
  intros Hk HI Hobs HR Hx. pose proof Hx as Hx'. unfold is_source in Hx'.
  unfold read_untracked. rewrite (bind_Ok _ _ s _ s (lookup_node_eq x s)).
  destruct (nodes s !! x) as [[u|m|e]|] eqn:E; try done.
  - exists (sig_value u), s. split_and!; [done|done|apply ext_refl| |].
    + unfold stored. by rewrite E.
    + unfold src_clean. by rewrite E.
  - destruct (Hupd R ov x s) as (b & s' & Hu & HI' & Hext & Hc & _); [done..|].
    step_with Hu. rewrite (bind_Ok _ _ s' _ s' (lookup_node_eq x s')).
    destruct (clean_stored R ov s' x HI' Hc) as (v & Hv).
    exists v, s'. split_and!; [|done..].
    destruct (ext_memo _ _ _ _ _ _ Hext E) as (m' & Hm' & _). unfold memo_at in Hm'.
    unfold stored in Hv. rewrite Hm' in *. unfold unwrapM. by rewrite Hv.
Qed.

Lemma read_ok R ov o x s :
  Inv R ov s → observer s = Some (mkObserver o false) →
  R o ∨ (∀ m, ¬ memo_at s o m) → is_subscriber s o → (∀ r, R r → o ≤ r) →
  x < o → x < k → is_source s x →
  ∃ v s', read upd x s = Ok (v, s') ∧ Inv R ov s' ∧ ext o (S o) s s' ∧
    stored s' x = Some v ∧ src_clean s' x ∧
    (∀ z, has_source s' o z ↔ has_source s o z ∨ z = x).
Proof.
  intros HI Hobs Ho Hsub HR Hxo Hxk Hx.
  destruct (track_links x o s) as (s1 & Ht & Htr); [done..|].
  pose proof (tracked_ext _ _ _ _ Htr) as Hext1.
  assert (obs_ok R s) as Hook by (intros o' Ho'; by simplify_eq).
  destruct (read_untracked_ok R ov x s1) as (v & s2 & Hr & HI2 & Hext2 & Hv & Hc).
  - done.
  - by eapply tracked_Inv.
  - by eapply ext_obs_ok.
  - intros r Hr. specialize (HR r Hr). lia.
  - by rewrite (ext_is_source o (S o) s).
  - exists v, s2. split_and!; [|done| |done|done|].
    + unfold read. by step_with Ht.
    + eapply ext_trans; [done|]. eapply ext_mono; [| |done]; lia.
    + intros z. rewrite (ext_has_source _ _ s1 s2 o z) by (done || lia).
      rewrite (tr_src _ _ _ _ Htr). naive_solver.
Qed.

(** ** One run of a closure *)

Lemma run_ok R ov o {A} (c : comp V A) P :
  (∀ x, P x → x < o ∧ x < k) → (∀ r, R r → o ≤ r) → pure_in P c → ∀ s,
  (∀ x, P x → is_source s x) →
  Inv R ov s → observer s = Some (mkObserver o false) →
  R o ∨ (∀ m, ¬ memo_at s o m) → is_subscriber s o →
  ∃ a s', run upd c s = Ok (a, s') ∧ Inv R ov s' ∧ ext o (S o) s s' ∧
    eval_comp (stored s') c = Some a ∧
    (∀ x, x ∈ reads (stored s') c → has_source s' o x) ∧
    (∀ x, has_source s o x → has_source s' o x) ∧
    (∀ x, has_source s' o x → has_source s o x ∨ src_clean s' x).
Proof.
  intros HP HR. induction 1 as [a|n c Hn Hc IH]; intros s Hsrc HI Hobs Ho Hsub.
  { exists a, s. split_and!; [done|done|apply ext_refl|done| |done|by left].
    intros x Hx. by apply not_elem_of_nil in Hx. }
  destruct (HP n Hn) as [Hno Hnk].
  destruct (read_ok R ov o n s) as (v & s1 & Hr & HI1 & Hext1 & Hv & Hcl & Hs1); auto.
  assert (observer s1 = Some (mkObserver o false)) as Hobs1
    by (by rewrite (ext_observer _ _ _ _ Hext1)).
  destruct (IH v s1) as (a & s' & Hrun & HI' & Hext' & He & Hreads & Hold & Hnew); auto.
  - intros x Hx. rewrite (ext_is_source _ _ _ _ x Hext1). auto.
  - assert (obs_ok R s) as Hook by (intros o' Ho'; by simplify_eq).
    destruct (ext_obs_ok _ _ R _ _ Hext1 Hook _ Hobs1). done.
  - by apply (ext_is_subscriber _ _ _ _ o Hext1).
  - destruct (ext_src_clean _ _ _ _ n Hext' Hcl) as [Hcl' Hv'].
    exists a, s'. split_and!.
    + simpl. by step_with Hr.
    + done.
    + by eapply ext_trans.
    + simpl. rewrite Hv', Hv. done.
    + simpl. rewrite Hv', Hv. intros x [->|Hx]%elem_of_cons; [|auto].
      apply Hold, Hs1. by right.
    + intros x Hx. apply Hold, Hs1. by left.
    + intros x Hx. destruct (Hnew x Hx) as [Hx1|]; [|by right].
      apply Hs1 in Hx1 as [Hx1|Hx1]; [by left|subst x; by right].
Qed.
End with_update.
End read.
