(* ===== verification/GraphUpdate.v ===== *)
(** * Bringing a memo up to date

    The branches of [MemoInner::update_if_necessary] and their composition:
    [update_if_necessary_ok] is total correctness of the pull half of the
    algorithm, for every node and with the fuel the code needs. *)

From stdpp Require Import base gmap list.
From S2P Require Import Prelude IndexSets Graph GraphInv GraphMark GraphLinks GraphRead.

Section update.
Context {V : Type} {iset : Type} `{IndexSet nat iset, !IndexSetLaws nat iset}.
Local Abbreviation graph := (graph V iset).
Local Abbreviation Memo := (Memo V iset).
Implicit Types (s : graph) (m : Memo) (n x y o : nat) (nd : node V iset).

(** ** Notifying the subscribers *)

(** What the marks in a loop over subscribers add up to. *)
Lemma for_each_dirty (f : nat → stateM graph unit) (P : nat → Prop) l : ∀ s s',
  for_each f l s = Ok (tt, s') →
  (∀ y s1, marks s s1 → y ∈ l → ∃ s2, f y s1 = Ok (tt, s2) ∧ marks s1 s2 ∧
    (P y → ∀ m, memo_at s2 y m → memo_state m = Dirty)) →
  ∀ y m, y ∈ l → P y → memo_at s' y m → memo_state m = Dirty.
Proof.
  induction l as [|z l IH]; intros s s' Hl Hf y m Hy HP Hm.
  { by apply not_elem_of_nil in Hy. }
  destruct (Hf z s) as (s1 & Hz & Hmk & Hd); [reflexivity|by left|].
  simpl in Hl. rewrite (bind_Ok _ _ _ _ _ Hz) in Hl.
  assert (∀ y s2, marks s1 s2 → y ∈ l → ∃ s3, f y s2 = Ok (tt, s3) ∧ marks s2 s3 ∧
    (P y → ∀ m, memo_at s3 y m → memo_state m = Dirty)) as Hf'.
  { intros y' s2 Hs2 Hy'. apply Hf; [by etrans|by right]. }
  assert (marks s1 s') as Hmk'.
  { clear -Hl Hf'. revert s1 Hl Hf'. induction l as [|w l IHl]; intros s1 Hl Hf'.
    - by injection Hl as ->.
    - destruct (Hf' w s1) as (s2 & Hw & Hmk & _); [reflexivity|by left|].
      simpl in Hl. rewrite (bind_Ok _ _ _ _ _ Hw) in Hl. etrans; [exact Hmk|].
      apply IHl; [done|]. intros y s3 Hs3 Hy. apply Hf'; [by etrans|by right]. }
  apply elem_of_cons in Hy as [->|Hy]; [|by eapply IH].
  destruct (marks_memo_inv _ _ _ _ Hmk' Hm) as (m0 & t & Hm0 & -> & Hle).
  specialize (Hd HP m0 Hm0). simpl. rewrite Hd in Hle. by destruct t.
Qed.

Lemma mark_skip E y s : (∀ m, memo_at s y m → nonclean s y) → mark_ok E y s s.
Proof.
  intros Hn. split; [reflexivity|done|done|]. by intros _ _ x m.
Qed.

(** A memo whose subscribers are not clean marks them. *)
Lemma mark_subscribers_dirty_ok n s :
  wf_graph s → closed s →
  (∀ y m, subscribed s n y → memo_at s y m → memo_state m ≠ Clean) →
  ∃ s', mark_subscribers_dirty n s = Ok (tt, s') ∧ marks s s' ∧ clean_kept s s' ∧
    closed s' ∧
    (∀ y m, subscribed s n y → obs_subscriber <$> observer s ≠ Some y →
      memo_at s' y m → memo_state m = Dirty).
Proof.
  intros Hwf Hcl Hsubs. unfold mark_subscribers_dirty.
  rewrite (bind_Ok _ _ s _ s (lookup_node_eq n s)).
  destruct (nodes s !! n) as [nd|] eqn:E.
  2:{ exists s. split_and!; [done|reflexivity|by intros x m|done|].
      intros y m (nd & Hnd & _). by rewrite E in Hnd. }
  set (f subscriber := (is_observer ← Observer_is subscriber;
    if (is_observer : bool) then mret tt else mark_dirty_now subscriber) : stateM graph unit).
  assert (∀ E y s1, marks s s1 → y ∈ iset_elems (subs_of nd) → ∃ s2,
    f y s1 = Ok (tt, s2) ∧ mark_ok E y s1 s2 ∧
    (obs_subscriber <$> observer s ≠ Some y → ∀ m, memo_at s2 y m → memo_state m = Dirty))
    as Hf.
  { intros E' y s1 Hs1 Hy. pose proof Hs1 as (Hob & _ & _).
    unfold f. rewrite (bind_Ok _ _ s1 _ s1 eq_refl). rewrite Hob. case_bool_decide as Ho.
    - exists s1. split_and!; [done| |done]. apply mark_skip. intros m Hm.
      exists m. split; [done|].
      destruct (marks_memo_inv s s1 y m) as (m0 & t & Hm0 & -> & Hle); [done..|].
      assert (memo_state m0 ≠ Clean) by (eapply Hsubs; [by exists nd|done]).
      simpl. by destruct (memo_state m0), t.
    - destruct (mark_dirty_now_ok E' y s1) as (s2 & ? & ? & ?); [by eapply marks_wf|].
      exists s2. auto. }
  destruct (for_each_mark (λ _, False) f (iset_elems (subs_of nd)) s)
    as (s' & Hl & Hmk & _ & _ & Hk).
  { intros y s1 Hs1 Hy. destruct (Hf (λ _, False) y s1 Hs1 Hy) as (s2 & ? & ? & _); eauto. }
  destruct Hk as [Hcl' Hk]; [done| |].
  { intros y m Hy Hm. eapply Hsubs; [by exists nd|done]. }
  exists s'. split_and!; [done..|]. intros y m (nd' & Hnd' & Hy) Ho Hm.
  rewrite E in Hnd'. simplify_eq.
  eapply (for_each_dirty f (λ y, obs_subscriber <$> observer s ≠ Some y)
    (iset_elems (subs_of nd'))); eauto.
  intros z s1 Hs1 Hz. destruct (Hf (λ _, False) z s1 Hs1 Hz) as (s2 & ? & Hok & ?).
  exists s2. split_and!; [done|by destruct Hok|done].
Qed.

(** ** Recomputing a memo *)

Definition running (R : nat → Prop) n : nat → Prop := λ x, R x ∨ x = n.
Definition override (ov : nat → option V) n (v : option V) : nat → option V :=
  λ x, if decide (x = n) then v else ov x.

(** The memo gives its value to the closure and drops its sources. *)
Lemma start_run R ov n m s :
  Inv R ov s → memo_at s n m → memo_state m ≠ Clean → ¬ R n →
  ∃ s', clear_sources n n (put_node n (NMemo (memo_with_value None m)) s) = Ok (tt, s') ∧
    Inv (running R n) (override ov n (memo_value m)) s' ∧
    observer s' = observer s ∧
    ext (S n) (S n) s s' ∧ (∀ x, ¬ has_source s' n x) ∧ stored s' n = None.
Proof.
  intros HI Hn Hc HR. set (s1 := put_node n _ s).
  pose proof HI as [HL HC Hov HE]. pose proof (lk_wf _ _ HL) as Hwf.
  assert (same_edges m (memo_with_value None m)) as Hse by done.
  assert (memo_at s1 n (memo_with_value None m)) as Hn1.
  { apply memo_at_put. by left. }
  destruct (clear_sources_links n s1) as (s' & Hcs & [Hcore Hsrc Hsub]).
  { unfold is_subscriber. unfold memo_at in Hn1. by rewrite Hn1. }
  assert (∀ y m', memo_at s' y m' → ∃ m0, memo_at s y m0 ∧ memo_state m' = memo_state m0 ∧
    memo_fun m' = memo_fun m0 ∧ (y ≠ n → memo_value m' = memo_value m0)) as Hmemo.
  { intros y m' Hm'. destruct (same_core_memo_inv s1 s' y m') as (m1 & Hm1 & Hv & Hf & Hst);
      [done..|].
    apply memo_at_put in Hm1 as [[-> ->]|[? Hm1]]; [by exists m|]. exists m1. auto. }
  pose proof (put_subscribed s n m _ Hn Hse : ∀ x y, subscribed s1 x y ↔ _) as Hps.
  pose proof (put_has_source s n m _ Hn Hse : ∀ y x, has_source s1 y x ↔ _) as Hph.
  assert (∀ x y, subscribed s' x y ↔ subscribed s x y ∧ ¬ (y = n ∧ has_source s n x)) as Hsub'.
  { intros x y. by rewrite Hsub, Hps, Hph. }
  assert (∀ y x, has_source s' y x ↔ has_source s y x ∧ y ≠ n) as Hsrc'.
  { intros y x. by rewrite Hsrc, Hph. }
  assert (stored s' n = None) as Hsn.
  { rewrite (same_core_stored s1 s') by done. apply put_stored_eq. }
  assert (∀ x, x ≠ n → stored s' x = stored s x) as Hst.
  { intros x Hx. rewrite (same_core_stored s1 s') by done. by apply put_stored. }
  assert (∀ x, vstore (override ov n (memo_value m)) s' x = vstore ov s x) as Hvs.
  { intros x. unfold vstore, override. case_decide as Hx.
    - subst x. rewrite Hsn. destruct (ov n) eqn:Eo; [by destruct HR; eapply Hov|].
      unfold stored. unfold memo_at in Hn. rewrite Hn. by destruct (memo_value m).
    - destruct (ov x); [done|auto]. }
  assert (∀ y e, effect_at s1 y e → y ≠ n) as Hen.
  { intros y e He ->. unfold effect_at, memo_at in *. by rewrite Hn1 in He. }
  exists s'. split; [done|]. split_and!; [split; [split| | |]|..].
  - eapply (links_wf s1 s'); [done|by eapply put_wf| |].
    + intros y x [? _]%Hsrc'. left. by rewrite Hph.
    + intros x y [? _]%Hsub'. left. by rewrite Hps.
  - intros y my x Hy HRd Hx. apply (has_source_memo s' y my) in Hx; [|done].
    apply Hsrc' in Hx as [Hx Hyn]. apply Hsub'. split; [|naive_solver].
    destruct (Hmemo y my Hy) as (m0 & Hm0 & Hs0 & _).
    apply (has_source_memo s y m0) in Hx; [|done].
    eapply (lk_link _ _ HL); [done| |done]. rewrite <- Hs0. destruct HRd as [[|]|]; auto; done.
  - intros x y my Hxy Hy. apply Hsub' in Hxy as [Hxy Hne].
    destruct (Hmemo y my Hy) as (m0 & Hm0 & _).
    assert (has_source s y x) as Hyx.
    { apply (has_source_memo s y m0); [done|]. by eapply lk_back. }
    apply (has_source_memo s' y my); [done|]. apply Hsrc'. split; [done|]. naive_solver.
  - intros x y my Hx (mx & Hmx & Hxc) Hxy Hy. apply Hsub' in Hxy as [Hxy _].
    destruct (Hmemo y my Hy) as (m0 & Hm0 & -> & _).
    destruct (Hmemo x mx Hmx) as (mx0 & Hmx0 & Hs0 & _).
    eapply (lk_closed _ _ HL); [done| |done|done]. exists mx0. by rewrite <- Hs0.
  - assert (∀ y m0, memo_at s y m0 → memo_state m0 ≠ Clean → nonclean s' y) as Hnc.
    { intros y m0 Hy Hyc. apply (same_core_nonclean s' s1); [by apply same_core_sym|].
      destruct (decide (y = n)) as [->|Hyn].
      - exists (memo_with_value None m). split; [done|]. done.
      - exists m0. split; [|done]. apply memo_at_put. by right. }
    intros r [Hr| ->]; [|by eapply Hnc].
    destruct (lk_running _ _ HL r Hr) as (mr & Hmr & Hrc). by eapply Hnc.
  - intros y my Hy HRy Hd. destruct (Hmemo y my Hy) as (m0 & Hm0 & Hs0 & Hf0 & Hv0).
    assert (y ≠ n) as Hyn by (intros ->; apply HRy; by right).
    destruct (HC y m0 Hm0) as (v & Hv & He & Hr); [|congruence|].
    { intros ?. apply HRy. by left. }
    destruct (eval_comp_ext (vstore ov s) (vstore (override ov n (memo_value m)) s')
      (memo_fun m0 None)) as [He' Hr']; [by intros; rewrite Hvs|].
    exists v. rewrite Hf0, Hv0, <- He', <- Hr' by done. split_and!; [done..|].
    intros x Hx. apply (has_source_memo s' y my); [done|]. apply Hsrc'. split; [|done].
    apply (has_source_memo s y m0); auto.
  - intros x v. unfold override. case_decide as Hx; [by right|]. intros Hv. left. eauto.
  - apply (links_eff_links s1); [done|by eapply put_eff_links| |].
    + intros y e x _ Hx. left. by apply Hsrc.
    + intros y e x He Hx. apply Hsub. split; [done|]. intros [-> _]. by eapply Hen.
  - by destruct Hcore as (-> & _).
  - destruct Hcore as (Ho1 & Hn1' & Hcx). split; [by rewrite Ho1|by rewrite Hn1'|].
    intros x. specialize (Hcx x). specialize (Hsrc' x).
    unfold has_source in Hsrc'.
    destruct (decide (x = n)) as [->|Hx].
    + unfold s1 in Hcx. simpl in Hcx. rewrite lookup_insert_eq in Hcx.
      unfold memo_at in Hn. rewrite Hn. destruct (nodes s' !! n) as [[u|m'|e]|] eqn:En';
        try done. constructor. unfold core in Hcx. simpl in *. inversion Hcx.
      split_and!; [done|intros ?; congruence|lia|lia].
    + unfold s1 in Hcx. simpl in Hcx. rewrite lookup_insert_ne in Hcx by done.
      destruct (nodes s !! x) as [a|] eqn:Ea, (nodes s' !! x) as [b|] eqn:Eb; try done;
        constructor.
      assert (same_set (sources_of b) (sources_of a)) as Hs.
      { intros z. specialize (Hsrc' z). naive_solver. }
      destruct a, b; try done; unfold core in Hcx; simpl in *; inversion Hcx; [done|..];
        split_and!; try done; try congruence. intros ?. left. congruence.
  - intros x [_ ?]%Hsrc'. done.
  - done.
Qed.

(** The memo after its closure returned [v]. *)
Definition with_result (v : V) m : Memo := memo_with_state Clean (memo_with_value (Some v) m).

Section finish.
Context (R : nat → Prop) (ov : nat → option V) (n : nat) (m : Memo) (s : graph).
Context (prev : option V) (v : V) (ch : bool).
Context (HI : Inv (running R n) (override ov n prev) s).
Context (Hn : memo_at s n m) (HRn : ¬ R n) (Hov : ov n = None).
Context (HovR : ∀ x v, ov x = Some v → R x).
Context (Hsrc : ∀ x, has_source s n x → src_clean s x).
Context (Heval : eval_comp (stored s) (memo_fun m prev) = Some (v, ch)).
Context (Hreads : ∀ x, x ∈ reads (stored s) (memo_fun m prev) → has_source s n x).
Local Abbreviation s1 := (put_node n (NMemo (with_result v m)) s).

Lemma finish_nonclean : memo_state m ≠ Clean.
Proof.
  apply (nonclean_memo s n m Hn). eapply lk_running; [by eapply inv_links|by right].
Qed.

Lemma finish_Links : Links R s1.
Proof.
  eapply (Links_set_clean R (running R n)); [by eapply inv_links|done|done|done|by left; right|..].
  - intros x Hx. apply Hsrc. by apply (has_source_memo s n m).
  - intros r Hr. split; [by intros ->|by left].
Qed.

(** The memo itself agrees with its sources. *)
Lemma finish_consistent s' : marks s1 s' → consistent (vstore ov s') (with_result v m).
Proof.
  intros Hmk.
  pose proof (wf_fun _ (lk_wf _ _ (inv_links _ _ _ HI)) n m Hn) as Hpure.
  destruct (pure_memo_eval _ _ prev (stored s) Hpure) as [He Hr].
  rewrite Heval in He. simpl in He.
  destruct (eval_comp_ext (stored s) (vstore ov s') (memo_fun m None)) as [He' Hr'].
  { intros x Hx. rewrite <- Hr in Hx. pose proof (Hreads x Hx) as Hsx.
    pose proof (reads_in_pure _ _ _ _ (pure_memo_pure _ _ prev Hpure) Hx) as [Hlt _].
    unfold vstore. rewrite (marks_stored s1 s'), put_stored by (done || lia).
    destruct (ov x) as [w|] eqn:Ex; [|done]. exfalso.
    eapply (src_clean_not_running _ _ s x HI); [by apply Hsrc|]. left. by eapply HovR. }
  exists v. simpl. rewrite <- He', <- Hr'. split_and!; [done|by rewrite <- He|].
  intros x Hx. apply (has_source_memo s n m _ Hn), Hreads. by rewrite Hr.
Qed.

Lemma finish_Inv s' :
  marks s1 s' → closed s' → clean_kept s1 s' →
  (ch = true → ∀ y my, memo_at s' y my → ¬ R y → y ≠ n → memo_state my ≠ Dirty →
    n ∉ iset_elems (memo_sources my)) →
  Inv R ov s'.
Proof.
  intros Hmk Hcl Hkept Hunread. split; [by eapply marks_Links; [|apply finish_Links|]| |done|].
  2:{ eapply marks_eff_links; [done|]. eapply put_eff_links; [done|done|]. by eapply inv_eff. }
  intros y my Hy HRy Hd. destruct (decide (y = n)) as [->|Hyn].
  { assert (my = with_result v m) as ->; [|by apply finish_consistent].
    eapply memo_at_unique; [done|]. apply Hkept; [|done]. apply memo_at_put. by left. }
  destruct (marks_memo_inv _ _ _ _ Hmk Hy) as (m0 & t & Hm0 & -> & Hle).
  apply memo_at_put in Hm0 as [[? _]|[_ Hm0]]; [done|].
  assert (consistent (vstore (override ov n prev) s) m0) as Hc.
  { eapply (inv_cons _ _ _ HI y m0 Hm0); [|by destruct (memo_state m0), t].
    intros [?| ->]; done. }
  assert (consistent (vstore ov s') m0) as (w & Hw); [|by exists w].
  destruct Hc as (w & Hw & He & Hr).
  apply (consistent_ext (vstore (override ov n prev) s)); [|by exists w].
  intros x Hx. unfold vstore, override. case_decide as Hxn.
  - subst x. rewrite Hov, (marks_stored s1 s'), put_stored_eq by done. simpl.
    destruct ch eqn:Ech.
    + destruct (Hunread eq_refl y _ Hy HRy Hyn Hd). by apply Hr.
    + rewrite (pure_memo_changed _ _ prev (stored s) v
        (wf_fun _ (lk_wf _ _ (inv_links _ _ _ HI)) n m Hn)); done.
  - by rewrite (marks_stored s1 s'), put_stored.
Qed.

Lemma finish_ext s' : marks s1 s' → clean_kept s1 s' → ext (S n) (S n) s s'.
Proof.
  intros Hmk Hk. eapply ext_trans; [|by apply marks_ext].
  split; [done..|]. intros x. simpl. destruct (decide (x = n)) as [->|Hx].
  - unfold memo_at in Hn. rewrite Hn, lookup_insert_eq. constructor. simpl.
    pose proof finish_nonclean. split_and!; [done|intros; congruence|lia|lia].
  - rewrite lookup_insert_ne by done. destruct (nodes s !! x); constructor.
    apply ext_node_refl.
Qed.

Lemma finish_run :
  obs_ok R s →
  ∃ s', (_ ← update_node (on_memo (with_result v)) n;
         _ ← (if ch then mark_subscribers_dirty n else mret tt);
         mret ch) s = Ok (ch, s') ∧
    Inv R ov s' ∧ ext (S n) (S n) s s' ∧ src_clean s' n ∧ stored s' n = Some v.
Proof.
  intros Hobs. rewrite (bind_Ok _ _ s _ _ (update_memo s n m _ Hn)).
  pose proof finish_Links as HL1.
  assert (∀ s', marks s1 s' → clean_kept s1 s' → src_clean s' n ∧ stored s' n = Some v) as Hend.
  { intros s' Hmk Hk. assert (memo_at s' n (with_result v m)) as Hm'.
    { apply Hk; [|done]. apply memo_at_put. by left. }
    unfold memo_at in Hm'. unfold src_clean, stored. by rewrite Hm'. }
  assert (ch = true ∨ ch = false) as [Ech|Ech] by (case ch; auto); rewrite Ech.
  - destruct (mark_subscribers_dirty_ok n s1) as (s' & Hs' & Hmk & Hk & Hcl & Hdirty).
    { by eapply lk_wf. } { by eapply lk_closed. }
    { intros y my Hy Hmy. rewrite (put_subscribed s n m) in Hy by done.
      apply memo_at_put in Hmy as [[-> ->]|[Hyn Hmy]].
      - pose proof (wf_subs _ (lk_wf _ _ (inv_links _ _ _ HI)) _ _ Hy). lia.
      - eapply (lk_closed _ _ (inv_links _ _ _ HI) n y my); [by intros []| |done|done].
        exists m. split; [done|]. apply finish_nonclean. }
    exists s'. step_with Hs'. split_and!; [done| |by apply finish_ext|by apply Hend..].
    apply finish_Inv; [done..|]. intros _ y my Hy HRy Hyn Hd Hin.
    destruct (marks_memo_inv _ _ _ _ Hmk Hy) as (m0 & t & Hm0 & -> & Hle).
    assert (subscribed s1 n y) as Hsub.
    { eapply (lk_link _ _ HL1); [done| |done]. right. simpl in Hd.
      by destruct (memo_state m0), t. }
    apply Hd. eapply Hdirty; [done| |done]. simpl. intros Ho.
    destruct (observer s) as [ob|] eqn:Eob; [|done]. simplify_eq/=.
    destruct (Hobs ob Eob) as [_ [?|Hnm]]; [done|].
    apply memo_at_put in Hm0 as [[]|[_ Hm0]]; [done|]. by eapply Hnm.
  - exists s1. rewrite (bind_Ok _ _ s1 tt s1) by done.
    split_and!; [done| |apply finish_ext; [reflexivity|by intros x mx]|apply Hend; [reflexivity|by intros x mx]..].
    apply finish_Inv; [reflexivity|by eapply lk_closed|by intros x mx|].
    intros Ht. congruence.
Qed.
End finish.

Lemma ext_with_observer k j ob s s' :
  ext k j (set_observer ob s) s' → ext k j s (set_observer (observer s) s').
Proof. intros [_ Hn Hx]. by split. Qed.

Lemma with_observer_eq {A} n (c : stateM graph A) s a s' :
  c (set_observer (Some (mkObserver n false)) s) = Ok (a, s') →
  with_observer (Some n) c s =
  Ok (a, set_observer ((λ n, mkObserver n false) <$> (obs_subscriber <$> observer s)) s').
Proof. intros Hc. unfold with_observer. by rewrite (bind_Ok _ _ s _ _ eq_refl), (bind_Ok _ _ _ _ _ Hc). Qed.

(** Restoring the observer gives it back, when its reads were tracked. *)
Lemma restore_observer R s :
  obs_ok R s → (λ n, mkObserver n false) <$> (obs_subscriber <$> observer s) = observer s.
Proof.
  intros Ho. destruct (observer s) as [ob|] eqn:E; [|done].
  destruct (Ho ob E) as [Hu _]. destruct ob. simpl in *. by subst.
Qed.

Section with_update.
Context (upd : nat → stateM graph bool) (n : nat) (R : nat → Prop) (ov : nat → option V).
Context (Hupd : ∀ (R : nat → Prop) ov x s,
  x < n → Inv R ov s → obs_ok R s → (∀ r, R r → x < r) → is_source s x →
  update_ok upd R ov x s).
Context (HR : ∀ r, R r → n < r).

Lemma not_running : ¬ R n.
Proof. intros Hr. specialize (HR n Hr). lia. Qed.

Lemma memo_recompute_ok m0 m s :
  Inv R ov s → obs_ok R s → memo_at s n m → memo_state m ≠ Clean →
  memo_fun m0 = memo_fun m →
  ∃ b s', memo_recompute upd n m0 s = Ok (b, s') ∧ Inv R ov s' ∧
    ext (S n) (S n) s s' ∧ src_clean s' n ∧ (b = false → stored s' n = stored s n).
Proof.
  intros HI Hobs Hn Hc Hf. pose proof not_running as HRn.
  pose proof (wf_fun _ (lk_wf _ _ (inv_links _ _ _ HI)) n m Hn) as Hpure.
  assert (ov n = None) as Hovn.
  { destruct (ov n) eqn:E; [|done]. by destruct HRn; eapply (inv_ov _ _ _ HI). }
  destruct (start_run R ov n m s) as (s2 & Hcs & HI2 & Hob2 & Hext2 & Hns & Hst); [done..|].
  destruct (ext_memo _ _ _ _ _ _ Hext2 Hn) as (m2 & Hm2 & Hf2 & _).
  set (s3 := set_observer (Some (mkObserver n false)) s2).
  destruct (run_ok upd n Hupd (running R n) (override ov n (memo_value m)) n
    (memo_fun m (memo_value m)) (λ x, x < n ∧ is_source s x))
    with (s := s3) as ([v ch] & s4 & Hrun & HI4 & Hext4 & Heval & Hreads & _ & Hclean).
  { by intros x [? _]. } { intros r [Hr|Hr]; [specialize (HR r Hr)|]; lia. }
  { by apply pure_memo_pure. } { intros x [_ Hx]. by apply (ext_is_source _ _ _ _ x Hext2). }
  { by apply Inv_set_observer. } { done. } { by left; right. }
  { unfold is_subscriber, s3. unfold memo_at in Hm2. simpl. by rewrite Hm2. }
  set (s5 := set_observer (observer s2) s4).
  assert (ext n (S n) s2 s5) as Hext5 by by apply ext_with_observer in Hext4.
  destruct (ext_memo _ _ _ _ _ _ Hext5 Hm2) as (m5 & Hm5 & Hf5 & _).
  assert (ext (S n) (S n) s s5) as Hext05.
  { eapply ext_trans; [done|]. eapply ext_mono; [| |done]; lia. }
  destruct (finish_run R ov n m5 s5 (memo_value m) v ch) as (s' & Hfin & HI' & Hext' & Hcl & Hv).
  { by apply Inv_set_observer. } { done. } { done. } { done. }
  { apply (inv_ov _ _ _ HI). }
  { intros x Hx. destruct (Hclean x Hx) as [Hx3|]; [by destruct (Hns x)|done]. }
  { by rewrite Hf5, Hf2. } { by rewrite Hf5, Hf2. } { by eapply ext_obs_ok. }
  exists ch, s'. split_and!; [|done|by eapply ext_trans|done|].
  - unfold memo_recompute.
    rewrite (bind_Ok _ _ s (memo_value m) (put_node n (NMemo (memo_with_value None m)) s)).
    2:{ rewrite (bind_Ok _ _ s _ s (lookup_node_eq n s)).
        rewrite (bind_Ok _ _ s _ _ (update_memo s n m _ Hn)).
        unfold memo_at in Hn. by rewrite Hn. }
    step_with Hcs. rewrite Hf.
    rewrite (bind_Ok _ _ s2 _ _ (with_observer_eq n _ s2 _ s4 Hrun)).
    rewrite (restore_observer R s2) by by eapply ext_obs_ok.
    exact Hfin.
  - intros ->. rewrite Hv. unfold stored. unfold memo_at in Hn. rewrite Hn.
    symmetry. by eapply pure_memo_changed.
Qed.

(** A memo that is not dirty and whose sources are clean is up to date. *)
Lemma clean_found m s :
  Inv R ov s → memo_at s n m → memo_state m ≠ Dirty →
  (∀ x, x ∈ iset_elems (memo_sources m) → src_clean s x) →
  ∃ s', update_node (on_memo (memo_with_state Clean)) n s = Ok (tt, s') ∧
    Inv R ov s' ∧ ext (S n) (S n) s s' ∧ src_clean s' n ∧ stored s' n = stored s n.
Proof.
  intros HI Hn Hd Hsrc. exists (put_node n (NMemo (memo_with_state Clean m)) s).
  assert (∀ x, stored (put_node n (NMemo (memo_with_state Clean m)) s) x = stored s x) as Hst.
  { intros x. destruct (decide (x = n)) as [->|]; [|by apply put_stored].
    rewrite put_stored_eq. unfold stored. unfold memo_at in Hn. by rewrite Hn. }
  split_and!; [by apply update_memo| | | |done].
  - destruct HI as [HL HC Hov HE]. split; [|intros y my Hy HRy Hdy|done|by eapply put_eff_links].
    + eapply (Links_set_clean R R); [done|done|done|done|by right|done|].
      intros r Hr. split; [|done]. intros ->. by apply not_running.
    + assert (∃ m0, memo_at s y m0 ∧ memo_state m0 ≠ Dirty ∧ memo_value my = memo_value m0 ∧
        memo_fun my = memo_fun m0 ∧ memo_sources my = memo_sources m0)
        as (m0 & Hm0 & Hd0 & Hv & Hf & Hs).
      { apply memo_at_put in Hy as [[-> ->]|[_ Hy]]; eauto 10. }
      destruct (HC y m0 Hm0 HRy Hd0) as (v & Hv' & He & Hr).
      assert (consistent (vstore ov s) my) as Hcs.
      { exists v. by rewrite Hv, Hf, Hs. }
      eapply consistent_ext; [|done]. intros x _. unfold vstore. by rewrite Hst.
  - split; [done..|]. intros x. simpl. destruct (decide (x = n)) as [->|].
    + unfold memo_at in Hn. rewrite Hn, lookup_insert_eq. constructor. simpl.
      split_and!; [done|done|lia|lia].
    + rewrite lookup_insert_ne by done. destruct (nodes s !! x); constructor.
      apply ext_node_refl.
  - unfold src_clean. simpl. by rewrite lookup_insert_eq.
Qed.

(** The loop over the sources of a memo in the state [Check]. *)
Lemma check_sources_ok l : ∀ m s,
  Inv R ov s → obs_ok R s → memo_at s n m → memo_state m ≠ Clean →
  memo_state m ≠ Dirty →
  (∀ x, x ∈ l → x < n ∧ is_source s x) →
  ∃ b s', any_of (λ source,
          b ← upd source;
          if (b : bool) then mret true
          else
            nd ← lookup_node n;
            mret match nd with
                 | Some (NMemo m) => bool_decide (memo_state m = Dirty)
                 | _ => false
                 end) l s = Ok (b, s') ∧
    Inv R ov s' ∧ ext n n s s' ∧
    (b = false → (∀ x, x ∈ l → src_clean s' x) ∧
      (∀ m', memo_at s' n m' → memo_state m' ≠ Dirty)).
Proof.
  induction l as [|x l IH]; intros m s HI Hobs Hn Hc Hd Hl.
  { exists false, s. split_and!; [done|done|apply ext_refl|]. intros _. split.
    - intros x Hx. by apply not_elem_of_nil in Hx.
    - intros m' Hm'. by rewrite (memo_at_unique _ _ _ _ Hm' Hn). }
  destruct (Hl x) as [Hxn Hxs]; [by left|].
  destruct (Hupd R ov x s) as (b1 & s1 & Hu & HI1 & Hext1 & Hc1 & _); [done..| |done|].
  { intros r Hr. specialize (HR r Hr). lia. }
  assert (ext n n s s1) as Hext by (eapply ext_mono; [| |done]; lia).
  simpl. destruct b1.
  { exists true, s1. split_and!; [|done|done|done].
    by rewrite (bind_Ok _ _ s true s1) by by rewrite (bind_Ok _ _ _ _ _ Hu). }
  destruct (ext_memo _ _ _ _ _ _ Hext Hn) as (m1 & Hm1 & _ & _ & Hk & _).
  destruct Hk as [_ Hnc]; [lia|].
  rewrite (bind_Ok _ _ s (bool_decide (memo_state m1 = Dirty)) s1).
  2:{ rewrite (bind_Ok _ _ _ _ _ Hu). rewrite (bind_Ok _ _ s1 _ s1 (lookup_node_eq n s1)).
      unfold memo_at in Hm1. by rewrite Hm1. }
  case_bool_decide as Hd1; [by exists true, s1|].
  destruct (IH m1 s1) as (b & s' & Hrec & HI' & Hext' & Hb); [done|by eapply ext_obs_ok|done|auto|done| |].
  { intros y Hy. rewrite (ext_is_source _ _ _ _ y Hext). apply Hl. by right. }
  exists b, s'. split_and!; [done|done|by eapply ext_trans|].
  intros Hb'. destruct (Hb Hb') as [Hcl Hnd]. split; [|done].
  intros y [->|Hy]%elem_of_cons; [|auto]. by eapply ext_src_clean.
Qed.

Lemma memo_update_ok m s :
  Inv R ov s → obs_ok R s → memo_at s n m → 
  ∃ b s', memo_update upd n m s = Ok (b, s') ∧ Inv R ov s' ∧
    ext (S n) (S n) s s' ∧ src_clean s' n ∧ (b = false → stored s' n = stored s n).
Proof.
  intros HI Hobs Hn. unfold memo_update, memo_needs_update.
  destruct (memo_state m) eqn:Est.
  - destruct (clean_found m s) as (s' & Hs' & ? & ? & ? & ?); [done|done|by rewrite Est| |].
    { intros x Hx. by eapply clean_sources. }
    exists false, s'. rewrite (bind_Ok _ _ s false s) by done. step_with Hs'. auto.
  - destruct (check_sources_ok (iset_elems (memo_sources m)) m s)
      as (b & s1 & Hany & HI1 & Hext1 & Hb); [done|done|done|by rewrite Est|by rewrite Est| |].
    { intros x Hx. by eapply (wf_srcs _ (lk_wf _ _ (inv_links _ _ _ HI))). }
    step_with Hany.
    destruct (ext_memo _ _ _ _ _ _ Hext1 Hn) as (m1 & Hm1 & Hf1 & _ & Hk & Hsrc).
    destruct Hk as [Hv1 Hnc]; [lia|]. specialize (Hsrc ltac:(lia)).
    assert (ext (S n) (S n) s s1) as Hext by (eapply ext_mono; [| |done]; lia).
    assert (stored s1 n = stored s n) as Hst by (by apply (ext_stored n n)).
    destruct b.
    + destruct (memo_recompute_ok m m1 s1) as (b & s' & Hr & HI' & Hext' & Hc & Hb'); auto.
      { by eapply ext_obs_ok. } { apply Hnc. by rewrite Est. }
      exists b, s'. split_and!; [done|done|by eapply ext_trans|done|].
      intros Hbf. by rewrite <- Hst, Hb'.
    + destruct (Hb eq_refl) as [Hcl Hnd].
      destruct (clean_found m1 s1) as (s' & Hs' & ? & ? & ? & Hst'); [done|done|auto| |].
      { intros x Hx. by apply Hcl, Hsrc. }
      exists false, s'. step_with Hs'. split_and!; [done|done|by eapply ext_trans|done|].
      by rewrite Hst', Hst.
  - destruct (memo_recompute_ok m m s) as (b & s' & Hr & ?); auto; [by rewrite Est|].
    exists b, s'. by rewrite (bind_Ok _ _ s true s) by done.
Qed.
End with_update.

(** ** The pull half of the algorithm *)

Lemma update_if_necessary_ok fuel : ∀ (R : nat → Prop) ov n s,
  n < fuel → Inv R ov s → obs_ok R s → (∀ r, R r → n < r) → is_source s n →
  update_ok (update_if_necessary fuel) R ov n s.
Proof.
  induction fuel as [|fuel IH]; intros R ov n s Hn HI Hobs HR Hs; [lia|].
  unfold update_ok. simpl.
  unfold is_source in Hs. destruct (nodes s !! n) as [nd|] eqn:E; [|done].
  rewrite (bind_Ok _ _ s (Some nd) s) by by rewrite <- E.
  destruct nd as [x|m|e]; [|apply memo_update_ok; auto|done].
  - exists false, s. split_and!; [done|done|apply ext_refl| |done].
    unfold src_clean. by rewrite E.
  - intros R' ov' x s' Hx. apply IH. lia.
Qed.

Lemma update_node_if_necessary_ok R ov n s :
  Inv R ov s → obs_ok R s → (∀ r, R r → n < r) → is_source s n →
  update_ok update_node_if_necessary R ov n s.
Proof.
  intros HI Hobs HR Hs. unfold update_ok, update_node_if_necessary.
  rewrite (bind_Ok _ _ s (mark_fuel s) s) by done.
  apply update_if_necessary_ok; try done. unfold mark_fuel.
  unfold is_source in Hs. destruct (nodes s !! n) as [nd|] eqn:E; [|done].
  pose proof (wf_next _ (lk_wf _ _ (inv_links _ _ _ HI)) n nd E). lia.
Qed.
End update.
