(* ===== verification/GraphRun.v ===== *)
(** * Writing to the graph

    The push half of the algorithm: a write stores the value and marks the
    subscribers.  [notify_ok] covers both ways a signal notifies, the one that
    keeps the subscribers and the one that takes them. *)

From stdpp Require Import base gmap list.
From S2P Require Import Prelude IndexSets Graph GraphInv GraphMark GraphLinks GraphRead GraphUpdate.

Section write.
Context {V : Type} {iset : Type} `{IndexSet nat iset, !IndexSetLaws nat iset}.
Local Abbreviation graph := (graph V iset).
Local Abbreviation Memo := (Memo V iset).
Implicit Types (s : graph) (m : Memo) (n x y o : nat) (nd : node V iset).

(** No memo is running. *)
Definition no_memo : nat → Prop := λ _, False.
Definition no_override : nat → option V := λ _, None.
Definition Inv0 s : Prop := Inv no_memo no_override s.

Definition is_signal s n : Prop := ∃ u, nodes s !! n = Some (NSignal u).

(** A subscriber that knows that one of its sources changed. *)
Definition notified nd : Prop :=
  match nd with
  | NSignal _ => True
  | NMemo m => memo_state m = Dirty
  | NEffect e => eff_set e = true ∧ eff_dirty e = true
  end.

Lemma marks_notified s s' y nd' :
  marks s s' → (∀ nd, nodes s !! y = Some nd → notified nd) →
  nodes s' !! y = Some nd' → notified nd'.
Proof.
  intros (_ & _ & Hm) Hn Hy. specialize (Hm y). rewrite Hy in Hm.
  inversion Hm as [nd ? Hmn Heq|]; subst. specialize (Hn nd (eq_sym Heq)).
  destruct nd as [u|m|e], nd' as [u'|m'|e']; simpl in *; try done.
  - destruct Hmn as (t & -> & Hle). simpl. rewrite Hn in Hle. by destruct t.
  - destruct Hmn as (w & d & -> & Hw & Hd & _). simpl. naive_solver.
Qed.

Lemma mark_dirty_now_notified E n s :
  wf_graph s →
  ∃ s', mark_dirty_now n s = Ok (tt, s') ∧ mark_ok E n s s' ∧
    (∀ nd, nodes s' !! n = Some nd → notified nd).
Proof.
  intros Hwf. destruct (mark_dirty_now_ok E n s Hwf) as (s' & Hs' & Hok & Hd).
  exists s'. split_and!; [done..|]. intros nd Hnd. destruct nd as [u|m|e]; [done|by apply Hd|].
  destruct Hok as [(_ & _ & Hm) _ _ _]. specialize (Hm n). rewrite Hnd in Hm.
  inversion Hm as [[u|m|e0] ? Hmn Heq|]; subst; try done.
  unfold mark_dirty_now, mark_dirty in Hs'.
  rewrite (bind_Ok _ _ s _ s eq_refl), (bind_Ok _ _ s _ s (lookup_node_eq n s)) in Hs'.
  rewrite <- Heq in Hs'. unfold put, modify in Hs'. injection Hs' as <-.
  simpl in Hnd. rewrite lookup_insert_eq in Hnd. by injection Hnd as <-.
Qed.

Lemma for_each_notified l : ∀ s,
  wf_graph s → closed s →
  ∃ s', for_each mark_dirty_now l s = Ok (tt, s') ∧ marks s s' ∧ closed s' ∧
    ∀ y nd, y ∈ l → nodes s' !! y = Some nd → notified nd.
Proof.
  induction l as [|y l IH]; intros s Hwf Hcl.
  { exists s. split_and!; [done|reflexivity|done|]. intros y nd Hy.
    by apply not_elem_of_nil in Hy. }
  destruct (mark_dirty_now_notified (λ _, False) y s Hwf) as (s1 & H1 & Hok & Hn1).
  destruct Hok as [Hmk Hcl1 _ _].
  destruct (IH s1) as (s' & H2 & Hmk' & Hcl' & Hn'); [by eapply marks_wf|by apply Hcl1|].
  exists s'. simpl. step_with H1. split_and!; [done|by etrans|done|].
  intros z nd [->|Hz]%elem_of_cons Hnd; [|by eapply Hn'].
  by eapply marks_notified.
Qed.

(** The graph in which signal [n] has the value [v] and subscribers [b]. *)
Section set_signal.
Context (s : graph) (n : nat) (u : Signal V iset) (v : V) (b : iset).
Context (Hn : nodes s !! n = Some (NSignal u)).
Context (Hb : b = sig_subscribers u ∨ iset_elems b = []).
Local Abbreviation s1 := (put_node n (NSignal (mkSignal v b)) s).

Lemma set_memo_at y m : memo_at s1 y m ↔ memo_at s y m.
Proof.
  unfold memo_at. simpl. destruct (decide (y = n)) as [->|].
  - rewrite lookup_insert_eq, Hn. naive_solver.
  - by rewrite lookup_insert_ne.
Qed.

Lemma set_effect_at y e : effect_at s1 y e ↔ effect_at s y e.
Proof.
  unfold effect_at. simpl. destruct (decide (y = n)) as [->|].
  - rewrite lookup_insert_eq, Hn. naive_solver.
  - by rewrite lookup_insert_ne.
Qed.

Lemma set_is_source x : is_source s1 x ↔ is_source s x.
Proof.
  unfold is_source. simpl. destruct (decide (x = n)) as [->|].
  - by rewrite lookup_insert_eq, Hn.
  - by rewrite lookup_insert_ne.
Qed.

Lemma set_subscribed x y : subscribed s1 x y → subscribed s x y.
Proof.
  unfold subscribed. simpl. destruct (decide (x = n)) as [->|].
  - rewrite lookup_insert_eq, Hn. intros (nd & [= <-] & Hy). eexists. split; [done|].
    simpl in *. destruct Hb as [->|Hb']; [done|]. rewrite Hb' in Hy.
    by apply not_elem_of_nil in Hy.
  - by rewrite lookup_insert_ne.
Qed.

Lemma set_subscribed_ne x y : x ≠ n → subscribed s x y → subscribed s1 x y.
Proof. intros Hx. unfold subscribed. simpl. by rewrite lookup_insert_ne. Qed.

Lemma set_wf : wf_graph s → wf_graph s1.
Proof.
  intros Hwf. split.
  - intros x nd. simpl. destruct (decide (x = n)) as [->|].
    + intros _. by eapply wf_next.
    + rewrite lookup_insert_ne by done. by apply wf_next.
  - intros y m Hm. apply set_memo_at in Hm.
    eapply pure_memo_mono; [|by eapply wf_fun]. intros x [? ?]. by rewrite set_is_source.
  - intros y m x Hm Hx. apply set_memo_at in Hm. rewrite set_is_source. by eapply wf_srcs.
  - intros x y Hxy%set_subscribed. by apply (wf_subs s).
Qed.

Lemma set_closed : closed s → closed s1.
Proof.
  intros Hcl x y m Hx (mx & Hmx & Hxc) Hxy%set_subscribed Hm.
  apply set_memo_at in Hm, Hmx. eapply (Hcl x y m); try done. by exists mx.
Qed.

(** Once the former subscribers of [n] know, the invariant holds again. *)
Lemma notify_Inv s' :
  Inv0 s → marks s1 s' → closed s' →
  (∀ y nd, y ∈ iset_elems (sig_subscribers u) → nodes s' !! y = Some nd → notified nd) →
  Inv0 s'.
Proof.
  intros [HL HC Hov HE] Hmk Hcl Hnot.
  assert (∀ y m', memo_at s' y m' → ∃ m t, memo_at s y m ∧ m' = memo_with_state t m ∧
    state_le (memo_state m) t) as Hmemo.
  { intros y m' Hm'. destruct (marks_memo_inv _ _ _ _ Hmk Hm') as (m & t & Hm & ? & ?).
    apply set_memo_at in Hm. eauto. }
  assert (∀ y, subscribed s n y → y ∈ iset_elems (sig_subscribers u)) as Hsubs.
  { intros y (nd & Hnd & Hy). rewrite Hn in Hnd. by simplify_eq. }
  assert (∀ y m', memo_at s' y m' → memo_state m' ≠ Dirty → n ∉ iset_elems (memo_sources m'))
    as Hfresh.
  { intros y m' Hm' Hd Hin. destruct (Hmemo y m' Hm') as (m & t & Hm & -> & Hle).
    apply Hd, (Hnot y (NMemo (memo_with_state t m))); [|done]. apply Hsubs.
    eapply (lk_link _ _ HL); [done| |done]. right. simpl in Hd. by destruct (memo_state m), t. }
  split; [split| |done|].
  - by eapply marks_wf, set_wf, lk_wf.
  - intros y m' x Hm' HRd Hx. destruct HRd as [[]|Hd].
    rewrite <- (marks_subscribed s1 s') by done.
    assert (x ≠ n) as Hxn by (intros ->; by eapply Hfresh).
    apply set_subscribed_ne; [done|].
    destruct (Hmemo y m' Hm') as (m & t & Hm & -> & Hle).
    eapply (lk_link _ _ HL); [done| |done]. right. simpl in Hd. by destruct (memo_state m), t.
  - intros x y m' Hxy Hm'. rewrite <- (marks_subscribed s1 s') in Hxy by done.
    apply set_subscribed in Hxy. destruct (Hmemo y m' Hm') as (m & t & Hm & -> & Hle).
    simpl. by eapply lk_back.
  - done.
  - intros r [].
  - intros y m' Hm' _ Hd. pose proof (Hfresh y m' Hm' Hd) as Hy.
    destruct (Hmemo y m' Hm') as (m & t & Hm & -> & Hle).
    destruct (HC y m Hm) as (w & Hw & He & Hr);
      [by intros []|simpl in Hd; by destruct (memo_state m), t|].
    assert (consistent (vstore no_override s') m) as (w' & Hw'); [|by exists w'].
    apply (consistent_ext (vstore no_override s)); [|by exists w].
    intros x Hx. unfold vstore, no_override. rewrite (marks_stored s1 s') by done.
    unfold stored. simpl. rewrite lookup_insert_ne; [done|]. intros <-. by apply Hy, Hr.
  - intros y e' x Hy Hx. pose proof Hmk as (_ & _ & Hm). specialize (Hm y).
    unfold effect_at in Hy. rewrite Hy in Hm.
    inversion Hm as [[?|?|e] ? Hmn Heq|]; subst; simpl in Hmn; try done.
    destruct Hmn as (w & d & -> & Hw & Hd & _).
    assert (effect_at s y e) as He by (by apply set_effect_at).
    destruct (HE y e x He Hx) as [[Hlt Hs] Hsub].
    rewrite (marks_is_source s1 s'), set_is_source by done. split; [done|].
    destruct Hsub as [Hsub|Hsub]; [left; simpl; auto|].
    destruct (decide (x = n)) as [->|Hxn].
    + left. by destruct (Hnot y (NEffect (eff_with_set w (eff_with_dirty d e)))); [auto|..].
    + right. rewrite <- (marks_subscribed s1 s') by done. by apply set_subscribed_ne.
Qed.

Lemma notify_ok :
  Inv0 s →
  ∃ s', for_each mark_dirty_now (iset_elems (sig_subscribers u)) s1 = Ok (tt, s') ∧
    Inv0 s' ∧ marks s1 s' ∧
    (∀ y nd, subscribed s n y → nodes s' !! y = Some nd → notified nd).
Proof.
  intros HI. pose proof (inv_links _ _ _ HI) as HL.
  destruct (for_each_notified (iset_elems (sig_subscribers u)) s1)
    as (s' & Hl & Hmk & Hcl & Hnot).
  { by apply set_wf, (lk_wf no_memo). } { by apply set_closed, (lk_closed no_memo). }
  exists s'. split_and!; [done|by eapply notify_Inv|done|].
  intros y nd (nd' & Hnd' & Hy) Hnd. rewrite Hn in Hnd'. simplify_eq. by eapply Hnot.
Qed.
End set_signal.

Lemma update_signal s n u f :
  nodes s !! n = Some (NSignal u) →
  update_node (on_signal f) n s = Ok (tt, put_node n (NSignal (f u)) s).
Proof.
  intros Hn. unfold update_node, modify, put_node, set_nodes. repeat f_equal.
  apply map_eq. intros x. destruct (decide (x = n)) as [->|].
  - by rewrite lookup_alter_eq, lookup_insert_eq, Hn.
  - by rewrite lookup_alter_ne, lookup_insert_ne.
Qed.

(** The result of [set], whichever the handle. *)
Record was_set n v s s' : Prop := {
  set_inv : Inv0 s';
  set_marks : ∃ u b, nodes s !! n = Some (NSignal u) ∧
    marks (put_node n (NSignal (mkSignal v b)) s) s';
  set_notified y nd : subscribed s n y → nodes s' !! y = Some nd → notified nd;
}.

Lemma set_rw_ok n v s :
  Inv0 s → is_signal s n → ∃ s', set_rw n v s = Ok (tt, s') ∧ was_set n v s s'.
Proof.
  intros HI (u & Hn).
  destruct (notify_ok s n u v (sig_subscribers u)) as (s' & Hl & HI' & Hmk & Hnot);
    [done|by left|done|].
  exists s'. split.
  - unfold set_rw. rewrite (bind_Ok _ _ s _ _ (update_signal s n u _ Hn)).
    unfold rw_notify. set (s1 := put_node _ _ _).
    rewrite (bind_Ok _ _ s1 _ s1 (lookup_node_eq n s1)). unfold s1 at 1. simpl.
    by rewrite lookup_insert_eq.
  - split; [done|by exists u, (sig_subscribers u)|done].
Qed.

Lemma set_write_ok n v s :
  Inv0 s → is_signal s n → ∃ s', set_write n v s = Ok (tt, s') ∧ was_set n v s s'.
Proof.
  intros HI (u & Hn).
  destruct (notify_ok s n u v iset_empty) as (s' & Hl & HI' & Hmk & Hnot);
    [done|right; apply elems_with_capacity|done|].
  exists s'. split.
  - unfold set_write. rewrite (bind_Ok _ _ s _ _ (update_signal s n u _ Hn)).
    unfold write_notify. set (s1 := put_node n (NSignal (sig_with_value v u)) s).
    rewrite (bind_Ok _ _ s1 _ s1 (lookup_node_eq n s1)). unfold s1 at 1. simpl.
    rewrite lookup_insert_eq. unfold clear_subscribers.
    rewrite (bind_Ok _ _ s1 tt (put_node n (NSignal (mkSignal v iset_empty)) s)); [done|].
    unfold update_node, modify, s1, put_node, set_nodes. simpl. repeat f_equal.
    apply map_eq. intros x. destruct (decide (x = n)) as [->|].
    + by rewrite lookup_alter_eq, !lookup_insert_eq.
    + by rewrite lookup_alter_ne, !lookup_insert_ne.
  - split; [done|by exists u, iset_empty|done].
Qed.
End write.

(** * Running effects

    Closures of effects may read any source and write any signal.  [run_safe]
    shows that such a run terminates without a panic and preserves the
    invariant; [poll_ok] lifts it to one poll of an effect's task. *)

Section run.
Context {V : Type} {iset : Type} `{IndexSet nat iset, !IndexSetLaws nat iset}.
Local Abbreviation graph := (graph V iset).
Local Abbreviation Memo := (Memo V iset).
Implicit Types (s : graph) (m : Memo) (n x y o : nat) (nd : node V iset).

(** A closure that reads nodes in [P] and writes signals in [Q]. *)
Inductive safe_in (P Q : nat → Prop) {A} : comp V A → Prop :=
| safe_Return a : safe_in P Q (Return a)
| safe_Get n k : P n → (∀ v, safe_in P Q (k v)) → safe_in P Q (Get n k)
| safe_GetUntracked n k :
    P n → (∀ v, safe_in P Q (k v)) → safe_in P Q (GetUntracked n k)
| safe_SetRw n v k : Q n → safe_in P Q k → safe_in P Q (SetRw n v k)
| safe_SetWrite n v k : Q n → safe_in P Q k → safe_in P Q (SetWrite n v k).

Lemma safe_in_mono {A} (P Q P' Q' : nat → Prop) (c : comp V A) :
  (∀ x, P x → P' x) → (∀ x, Q x → Q' x) → safe_in P Q c → safe_in P' Q' c.
Proof. intros HP HQ. induction 1; constructor; auto. Qed.

(** ** What no operation changes *)

Definition keeps_node (a b : node V iset) : Prop :=
  match a, b with
  | NSignal _, NSignal _ => True
  | NMemo m, NMemo m' => memo_fun m' = memo_fun m
  | NEffect e, NEffect e' =>
      eff_fun e' = eff_fun e ∧ eff_value e' = eff_value e ∧
      eff_paused e' = eff_paused e ∧ eff_first_run e' = eff_first_run e ∧
      (eff_set e = true → eff_set e' = true) ∧
      (eff_dirty e' = true → eff_dirty e = true ∨ eff_set e' = true)
  | _, _ => False
  end.

Record keeps s s' : Prop := {
  keeps_observer : observer s' = observer s;
  keeps_next : next s' = next s;
  keeps_nodes x : option_Forall2 keeps_node (nodes s !! x) (nodes s' !! x);
}.

#[global] Instance keeps_refl : Reflexive keeps.
Proof.
  intros s. split; [done..|]. intros x. destruct (nodes s !! x) as [[]|]; constructor; simpl; auto 10.
Qed.

#[global] Instance keeps_trans : Transitive keeps.
Proof.
  intros s1 s2 s3 [Ho Hn H1] [Ho' Hn' H2]. split; [congruence..|]. intros x.
  specialize (H1 x). specialize (H2 x). destruct H1 as [a b Hab|]; inversion H2 as [? c Hbc|];
    subst; constructor. destruct a, b, c; simpl in *; try done; [congruence|].
  destruct Hab as (? & ? & ? & ? & ? & ?), Hbc as (? & ? & ? & ? & ? & ?).
  split_and!; try congruence; [auto|naive_solver].
Qed.

Lemma keeps_ext k j s s' : ext k j s s' → keeps s s'.
Proof.
  intros [Ho Hn Hx]. split; [done..|]. intros x.
  destruct (Hx x) as [a b Hab|]; constructor.
  destruct a, b; simpl in *; try done; naive_solver.
Qed.

Lemma keeps_set n v s s' : was_set n v s s' → keeps s s'.
Proof.
  intros [_ (u & b & Hn & Ho & Hx & Hm) _]. split; [done..|]. intros x. specialize (Hm x).
  simpl in Hm. destruct (decide (x = n)) as [->|Hxn].
  - rewrite lookup_insert_eq in Hm. rewrite Hn.
    inversion Hm as [? c Hc|]; subst. constructor. by destruct c.
  - rewrite lookup_insert_ne in Hm by done. destruct Hm as [a c Hac|]; constructor.
    destruct a, c; simpl in *; naive_solver.
Qed.

Lemma keeps_is_source s s' x : keeps s s' → is_source s' x ↔ is_source s x.
Proof.
  intros [_ _ Hx]. specialize (Hx x). unfold is_source.
  by inversion Hx as [[] [] Hab Ha Hb|Ha Hb].
Qed.

Lemma keeps_is_signal s s' x : keeps s s' → is_signal s' x ↔ is_signal s x.
Proof.
  intros [_ _ Hx]. specialize (Hx x). unfold is_signal.
  inversion Hx as [[] [] Hab Ha Hb|Ha Hb]; simpl in *; naive_solver.
Qed.

Lemma keeps_memo s s' n m :
  keeps s s' → memo_at s' n m → ∃ m0, memo_at s n m0 ∧ memo_fun m = memo_fun m0.
Proof.
  intros [_ _ Hx] Hn. specialize (Hx n). unfold memo_at in *. rewrite Hn in Hx.
  inversion Hx as [[] ? Hab Ha|]; subst; simpl in *; try done. eauto.
Qed.

Lemma keeps_effect s s' n e :
  keeps s s' → effect_at s n e →
  ∃ e', effect_at s' n e' ∧ keeps_node (NEffect e) (NEffect e').
Proof.
  intros [_ _ Hx] Hn. specialize (Hx n). unfold effect_at in *. rewrite Hn in Hx.
  inversion Hx as [? [] Hab|]; subst; simpl in *; try done. eauto.
Qed.

Lemma keeps_effect_inv s s' n e' :
  keeps s s' → effect_at s' n e' →
  ∃ e, effect_at s n e ∧ keeps_node (NEffect e) (NEffect e').
Proof.
  intros [_ _ Hx] Hn. specialize (Hx n). unfold effect_at in *. rewrite Hn in Hx.
  inversion Hx as [[] ? Hab Ha|]; subst; simpl in *; try done. eauto.
Qed.

(** ** The observer of a run *)

(** Nobody observes, or an effect does, whose address is above [P]. *)
Definition eff_observer (P : nat → Prop) s : Prop :=
  observer s = None ∨
  ∃ o e, observer s = Some (mkObserver o false) ∧ effect_at s o e ∧ ∀ x, P x → x < o.

Lemma keeps_eff_observer P s s' : keeps s s' → eff_observer P s → eff_observer P s'.
Proof.
  intros Hk [Ho|(o & e & Ho & He & HP)].
  - left. by rewrite (keeps_observer _ _ Hk).
  - right. destruct (keeps_effect _ _ _ _ Hk He) as (e' & He' & _). exists o, e'.
    by rewrite (keeps_observer _ _ Hk).
Qed.

Lemma effect_not_memo s o e m : effect_at s o e → ¬ memo_at s o m.
Proof. unfold effect_at, memo_at. congruence. Qed.

Lemma eff_observer_ok P s : eff_observer P s → obs_ok no_memo s.
Proof.
  intros [Ho|(o & e & Ho & He & _)] ob Hob; [congruence|].
  rewrite Ho in Hob. simplify_eq/=. split; [done|]. right. intros m. by eapply effect_not_memo.
Qed.

Lemma update_now_ok R ov x s :
  Inv R ov s → obs_ok R s → (∀ r, R r → x < r) → is_source s x →
  update_ok update_node_if_necessary R ov x s.
Proof. apply update_node_if_necessary_ok. Qed.

Lemma get_untracked_ok P x s :
  Inv0 s → eff_observer P s → is_source s x →
  ∃ v s', get_untracked x s = Ok (v, s') ∧ Inv0 s' ∧ ext (S x) (S x) s s' ∧
    stored s' x = Some v ∧ src_clean s' x.
Proof.
  intros HI Ho Hx. apply (read_untracked_ok update_node_if_necessary (S x)) with (R := no_memo);
    [|lia|done|by eapply eff_observer_ok|by intros ? []|done].
  intros R ov y s' _. apply update_now_ok.
Qed.

Lemma get_ok P x s :
  Inv0 s → eff_observer P s → is_source s x → P x →
  ∃ v s', get x s = Ok (v, s') ∧ Inv0 s' ∧ (∃ k, ext k k s s') ∧
    stored s' x = Some v ∧ src_clean s' x ∧
    (∀ o, obs_subscriber <$> observer s = Some o →
      ∀ z, has_source s' o z ↔ has_source s o z ∨ z = x).
Proof.
  intros HI Hobs Hx HP. pose proof Hobs as [Ho|(o & e & Ho & He & Hlt)].
  - destruct (get_untracked_ok P x s) as (v & s' & Hg & HI' & Hext & Hv & Hc); [done..|].
    exists v, s'. split_and!; [|done|by exists (S x)|done|done|].
    + unfold get, read. by rewrite (bind_Ok _ _ s _ _ (track_none x s Ho)).
    + by rewrite Ho.
  - destruct (read_ok update_node_if_necessary (S x) (λ R ov y s' _, update_now_ok R ov y s')
      no_memo no_override o x s) as (v & s' & Hg & HI' & Hext & Hv & Hc & Hsrc); try done.
    + right. intros m. by eapply effect_not_memo.
    + unfold is_subscriber. unfold effect_at in He. by rewrite He.
    + by apply Hlt.
    + lia.
    + exists v, s'. split_and!; [done|done| |done|done|].
      * exists (S o). eapply ext_mono; [| |done]; lia.
      * intros o' Ho'. rewrite Ho in Ho'. simplify_eq/=. done.
Qed.

(** ** Running a closure that reads and writes *)

Record ready (P Q : nat → Prop) s : Prop := {
  ready_reads x : P x → is_source s x;
  ready_writes x : Q x → is_signal s x;
  ready_inv : Inv0 s;
  ready_observer : eff_observer P s;
}.

Lemma ready_keeps P Q s s' : ready P Q s → keeps s s' → Inv0 s' → ready P Q s'.
Proof.
  intros [HP HQ HI Ho] Hk HI'. split; [..|done|by eapply keeps_eff_observer].
  - intros x Hx. apply (keeps_is_source s s'); auto.
  - intros x Hx. apply (keeps_is_signal s s'); auto.
Qed.

Lemma run_safe {A} P Q (c : comp V A) : safe_in P Q c → ∀ s,
  ready P Q s → ∃ a s', run_closure c s = Ok (a, s') ∧ ready P Q s' ∧ keeps s s'.
Proof.
  assert (∀ (B : Type) (op : stateM graph B) (b : B) (f : B → comp V A) s s1,
    op s = Ok (b, s1) → keeps s s1 → Inv0 s1 → ready P Q s →
    (∀ s, ready P Q s → ∃ a s', run_closure (f b) s = Ok (a, s') ∧ ready P Q s' ∧ keeps s s') →
    ∃ a s', (x ← op; run_closure (f x)) s = Ok (a, s') ∧ ready P Q s' ∧ keeps s s') as Hthen.
  { intros B op b f s s1 Hop Hk HI Hr Hf. step_with Hop.
    destruct (Hf s1) as (a & s' & ? & ? & ?); [by eapply ready_keeps|].
    exists a, s'. split_and!; [done|done|by etrans]. }
  unfold run_closure in *. induction 1 as [a|n k Hn Hk IH|n k Hn Hk IH|n v k Hn Hk IH|n v k Hn Hk IH];
    intros s Hr; pose proof Hr as [HP HQ HI Hobs]; simpl.
  - exists a, s. by split_and!.
  - destruct (get_ok P n s) as (v & s1 & Hg & HI1 & (j & Hext) & _); auto.
    eapply (Hthen _ _ v k); eauto. by eapply keeps_ext.
  - destruct (get_untracked_ok P n s) as (v & s1 & Hg & HI1 & Hext & _); auto.
    eapply (Hthen _ _ v k); eauto. by eapply keeps_ext.
  - destruct (set_rw_ok n v s) as (s1 & Hs & Hset); auto.
    eapply (Hthen _ _ tt (λ _, k)); eauto; [by eapply keeps_set|by eapply set_inv].
  - destruct (set_write_ok n v s) as (s1 & Hs & Hset); auto.
    eapply (Hthen _ _ tt (λ _, k)); eauto; [by eapply keeps_set|by eapply set_inv].
Qed.
End run.
