(* ===== verification/GraphEffect.v ===== *)
(** * Polling an effect

    One poll of the task of an effect: [effect_poll] terminates without a panic
    and preserves the invariant whatever the effect writes, and an effect that
    only reads stores what its closure computes from the specified values. *)

From stdpp Require Import base gmap list.
From S2P Require Import Prelude IndexSets Graph GraphInv GraphMark GraphLinks GraphRead GraphUpdate GraphRun.

Section effect.
Context {V : Type} {iset : Type} `{IndexSet nat iset, !IndexSetLaws nat iset}.
Local Abbreviation graph := (graph V iset).
Local Abbreviation Memo := (Memo V iset).
Local Abbreviation Effect := (Effect V iset).
Implicit Types (s : graph) (m : Memo) (n x y o : nat) (nd : node V iset) (e : Effect).

(** ** The specification only depends on signals and closures *)

Definition same_inputs_node (a b : node V iset) : Prop :=
  match a, b with
  | NSignal x, NSignal y => sig_value y = sig_value x
  | NMemo m, NMemo m' => memo_fun m' = memo_fun m
  | NEffect e, NEffect e' => eff_fun e' = eff_fun e
  | _, _ => False
  end.

(** Nothing but caches, edges and the state of effects differs. *)
Record same_inputs s s' : Prop := {
  si_observer : observer s' = observer s;
  si_next : next s' = next s;
  si_nodes x : option_Forall2 same_inputs_node (nodes s !! x) (nodes s' !! x);
}.

#[global] Instance same_inputs_refl : Reflexive same_inputs.
Proof.
  intros s. split; [done..|]. intros x. destruct (nodes s !! x) as [[]|]; by constructor.
Qed.
#[global] Instance same_inputs_trans : Transitive same_inputs.
Proof.
  intros s1 s2 s3 [Ho Hn H1] [Ho' Hn' H2]. split; [congruence..|]. intros x.
  specialize (H1 x). specialize (H2 x). destruct H1 as [a b Hab|]; inversion H2 as [? c Hbc|];
    subst; constructor. destruct a, b, c; simpl in *; try done; congruence.
Qed.

Lemma ext_same_inputs k j s s' : ext k j s s' → same_inputs s s'.
Proof.
  intros [Ho Hn Hx]. split; [done..|]. intros x. destruct (Hx x) as [a b Hab|]; constructor.
  destruct a, b; simpl in *; try done; by apply Hab.
Qed.

Lemma spec_value_inputs s s' fuel : ∀ x,
  same_inputs s s' → spec_value fuel s' x = spec_value fuel s x.
Proof.
  induction fuel as [|fuel IH]; intros x Hs; [done|]. simpl.
  pose proof (si_nodes _ _ Hs x) as Hx. destruct Hx as [a b Hab|]; [|done].
  destruct a as [u|m|e], b as [u'|m'|e']; simpl in Hab; try done; [by rewrite Hab|].
  rewrite Hab. f_equal.
  apply (eval_comp_ext (spec_value fuel s') (spec_value fuel s)). intros y _. by apply IH.
Qed.

Lemma spec_value_observer ob s fuel : ∀ x,
  spec_value fuel (set_observer ob s) x = spec_value fuel s x.
Proof.
  induction fuel as [|fuel IH]; intros x; [done|]. simpl.
  destruct (nodes s !! x) as [[]|]; try done. f_equal.
  apply eval_comp_ext. intros y _. apply IH.
Qed.

Lemma same_inputs_is_source s s' x : same_inputs s s' → is_source s' x ↔ is_source s x.
Proof.
  intros Hs. pose proof (si_nodes _ _ Hs x) as Hx. unfold is_source.
  by inversion Hx as [[] [] Hab Ha Hb|Ha Hb].
Qed.

Lemma same_inputs_effect_inv s s' n e' :
  same_inputs s s' → effect_at s' n e' → ∃ e, effect_at s n e ∧ eff_fun e' = eff_fun e.
Proof.
  intros Hs Hn. pose proof (si_nodes _ _ Hs n) as Hx. unfold effect_at in *. rewrite Hn in Hx.
  inversion Hx as [[] ? Hab Ha|]; subst; simpl in *; try done. eauto.
Qed.

(** ** The state of an effect *)

Lemma update_effect s n e f :
  effect_at s n e → update_node (on_effect f) n s = Ok (tt, put_node n (NEffect (f e)) s).
Proof.
  intros Hn. unfold update_node, modify, put_node, set_nodes. repeat f_equal.
  apply map_eq. intros x. unfold effect_at in Hn. destruct (decide (x = n)) as [->|].
  - by rewrite lookup_alter_eq, lookup_insert_eq, Hn.
  - by rewrite lookup_alter_ne, lookup_insert_ne.
Qed.

(** The invariant without the edges of one effect. *)
Record Inv_but n s : Prop := {
  ib_links : Links no_memo s;
  ib_cons : Cons no_memo no_override s;
  ib_eff y e x : y ≠ n → effect_at s y e → x ∈ iset_elems (eff_sources e) →
    (x < y ∧ is_source s x) ∧ (eff_dirty e = true ∨ subscribed s x y);
}.

Lemma Inv_but_of n s : Inv0 s → Inv_but n s.
Proof. intros [HL HC _ HE]. split; [done|done|]. intros y e x _. apply HE. Qed.

Lemma Inv_but_Inv n s :
  Inv_but n s →
  (∀ e x, effect_at s n e → x ∈ iset_elems (eff_sources e) →
    (x < n ∧ is_source s x) ∧ (eff_dirty e = true ∨ subscribed s x n)) →
  Inv0 s.
Proof.
  intros [HL HC HE] Hn. split; [done|done|done|]. intros y e x Hy Hx.
  destruct (decide (y = n)) as [->|Hyn]; [by apply Hn|by apply HE].
Qed.

Section put_effect.
Context (s : graph) (n : nat) (e e' : Effect) (Hn : effect_at s n e).
Local Abbreviation s' := (put_node n (NEffect e') s).

Lemma put_effect_memo_at y m : memo_at s' y m ↔ memo_at s y m.
Proof.
  unfold memo_at. simpl. unfold effect_at in Hn. destruct (decide (y = n)) as [->|].
  - rewrite lookup_insert_eq, Hn. naive_solver.
  - by rewrite lookup_insert_ne.
Qed.

Lemma put_effect_at y ey : effect_at s' y ey ↔ (y = n ∧ ey = e') ∨ (y ≠ n ∧ effect_at s y ey).
Proof.
  unfold effect_at. simpl. destruct (decide (y = n)) as [->|].
  - rewrite lookup_insert_eq. naive_solver.
  - rewrite lookup_insert_ne by done. naive_solver.
Qed.

Lemma put_effect_subscribed x y : subscribed s' x y ↔ subscribed s x y.
Proof.
  unfold subscribed. simpl. unfold effect_at in Hn. destruct (decide (x = n)) as [->|].
  - rewrite lookup_insert_eq, Hn. simpl.
    split; intros (nd & [= <-] & Hy); by eexists.
  - by rewrite lookup_insert_ne.
Qed.

Lemma put_effect_stored x : stored s' x = stored s x.
Proof.
  unfold stored. simpl. unfold effect_at in Hn. destruct (decide (x = n)) as [->|].
  - by rewrite lookup_insert_eq, Hn.
  - by rewrite lookup_insert_ne.
Qed.

Lemma put_effect_is_source x : is_source s' x ↔ is_source s x.
Proof.
  unfold is_source. simpl. unfold effect_at in Hn. destruct (decide (x = n)) as [->|].
  - by rewrite lookup_insert_eq, Hn.
  - by rewrite lookup_insert_ne.
Qed.

Lemma put_effect_nonclean x : nonclean s' x → nonclean s x.
Proof. intros (m & Hm%put_effect_memo_at & Hc). by exists m. Qed.

Lemma put_effect_Inv_but : Inv_but n s → Inv_but n s'.
Proof.
  intros [HL HC HE]. pose proof (lk_wf _ _ HL) as Hwf. split; [split; [split|..]|..].
  - intros x nd. simpl. destruct (decide (x = n)) as [->|].
    + intros _. by eapply wf_next.
    + rewrite lookup_insert_ne by done. by apply wf_next.
  - intros y m Hm%put_effect_memo_at. eapply pure_memo_mono; [|by eapply wf_fun].
    intros x [? ?]. by rewrite put_effect_is_source.
  - intros y m x Hm%put_effect_memo_at Hx. rewrite put_effect_is_source. by eapply wf_srcs.
  - intros x y Hxy%put_effect_subscribed. by apply (wf_subs s).
  - intros y m x Hm%put_effect_memo_at HRd Hx. rewrite put_effect_subscribed.
    by eapply lk_link.
  - intros x y m Hxy%put_effect_subscribed Hm%put_effect_memo_at. by eapply lk_back.
  - intros x y m Hx Hxc%put_effect_nonclean Hxy%put_effect_subscribed Hm%put_effect_memo_at.
    by eapply (lk_closed _ _ HL).
  - intros r [].
  - intros y m Hm%put_effect_memo_at HR Hd. eapply consistent_ext; [|by eapply HC].
    intros x _. unfold vstore. by rewrite put_effect_stored.
  - intros y ey x Hyn Hy Hx. apply put_effect_at in Hy as [[? _]|[_ Hy]]; [done|].
    rewrite put_effect_is_source, put_effect_subscribed. by apply HE.
Qed.

(** Fields other than the sources and the dirty flag. *)
Lemma put_effect_Inv :
  eff_sources e' = eff_sources e → eff_dirty e' = eff_dirty e → Inv0 s → Inv0 s'.
Proof.
  intros Hs Hd HI. apply (Inv_but_Inv n); [by apply put_effect_Inv_but, Inv_but_of|].
  intros ey x Hy Hx. apply put_effect_at in Hy as [[_ ->]|[? _]]; [|done].
  rewrite put_effect_is_source, put_effect_subscribed, Hd. rewrite Hs in Hx.
  by apply (inv_eff _ _ _ HI).
Qed.

Lemma put_effect_same_inputs : eff_fun e' = eff_fun e → same_inputs s s'.
Proof.
  intros Hf. split; [done..|]. intros x. simpl. unfold effect_at in Hn.
  destruct (decide (x = n)) as [->|].
  - rewrite lookup_insert_eq, Hn. by constructor.
  - rewrite lookup_insert_ne by done. destruct (nodes s !! x) as [[]|]; by constructor.
Qed.
End put_effect.

(** ** Dropping the sources before a run *)

Lemma cleared_effect_Inv n e s s' :
  effect_at s n e → cleared n s s' → Inv_but n s → Inv0 s'.
Proof.
  intros Hn [Hc Hsrc Hsub] [HL HC HE].
  assert (∀ y m', memo_at s' y m' → ∃ m, memo_at s y m ∧ memo_state m' = memo_state m ∧ y ≠ n)
    as Hmemo.
  { intros y m' Hm'. destruct (same_core_memo_inv s s' y m') as (m & Hm & _ & _ & Hst);
      [done..|]. exists m. split_and!; [done|done|]. intros ->. by eapply effect_not_memo. }
  split; [split| |done|].
  - eapply links_wf; [done|by eapply lk_wf| |].
    + intros y x [? _]%Hsrc. by left.
    + intros x y [? _]%Hsub. by left.
  - intros y m' x Hm' HRd Hx. destruct (Hmemo y m' Hm') as (m & Hm & Hst & Hyn).
    apply Hsub. split; [|naive_solver].
    apply (has_source_memo s' y m') in Hx; [|done]. apply Hsrc in Hx as [Hx _].
    apply (has_source_memo s y m) in Hx; [|done].
    eapply (lk_link _ _ HL); [done| |done]. by rewrite <- Hst.
  - intros x y m' [Hxy _]%Hsub Hm'. destruct (Hmemo y m' Hm') as (m & Hm & Hst & Hyn).
    apply (has_source_memo s' y m'); [done|]. apply Hsrc. split; [|done].
    apply (has_source_memo s y m); [done|]. by eapply lk_back.
  - intros x y m' Hx Hxc [Hxy _]%Hsub Hm'. destruct (Hmemo y m' Hm') as (m & Hm & -> & Hyn).
    eapply (lk_closed _ _ HL); [done| |done|done]. by eapply same_core_nonclean.
  - intros r [].
  - intros y m' Hm' HR Hd.
    destruct (same_core_memo_inv s s' y m') as (m & Hm & Hv & Hf & Hst); [done..|].
    destruct (Hmemo y m' Hm') as (_ & _ & _ & Hyn).
    destruct (HC y m Hm HR) as (v & Hv' & He & Hr); [congruence|].
    destruct (eval_comp_ext (vstore no_override s) (vstore no_override s') (memo_fun m None))
      as [He' Hr'].
    { intros x _. unfold vstore. by rewrite (same_core_stored s s'). }
    exists v. rewrite Hv, Hf, <- He', <- Hr'. split_and!; [done..|].
    intros x Hx. apply (has_source_memo s' y m'); [done|]. apply Hsrc. split; [|done].
    apply (has_source_memo s y m); auto.
  - intros y e' x Hy Hx. destruct (same_core_effect_inv s s' y e') as (ey & Hey & Hd & _); [done..|].
    apply (has_source_effect s' y e') in Hx; [|done]. apply Hsrc in Hx as [Hx Hyn].
    apply (has_source_effect s y ey) in Hx; [|done].
    rewrite (same_core_is_source s s') by done.
    destruct (HE y ey x Hyn Hey Hx) as [? Hor]. split; [done|]. rewrite Hd.
    destruct Hor as [|Hor]; [by left|right]. apply Hsub. split; [done|]. naive_solver.
Qed.

Lemma core_same_inputs s s' : same_core s s' → same_inputs s s'.
Proof.
  intros (Ho & Hn & Hx). split; [done..|]. intros x. specialize (Hx x).
  destruct (nodes s !! x) as [a|], (nodes s' !! x) as [b|]; try done; constructor.
  destruct a, b; unfold core in Hx; simpl in Hx; try done; by inversion Hx.
Qed.

Lemma same_core_effect s s' n e :
  same_core s s' → effect_at s n e →
  ∃ b, effect_at s' n (eff_with_sources b e).
Proof.
  intros (_ & _ & Hx) Hn. specialize (Hx n). unfold effect_at in *. rewrite Hn in Hx.
  destruct (nodes s' !! n) as [[u|m|e']|]; unfold core in Hx; simpl in Hx; try done.
  exists (eff_sources e'). f_equal. f_equal. destruct e, e'. unfold eff_with_sources in *.
  simpl in *. by simplify_eq.
Qed.

(** ** Closures of effects *)

Definition wf_effects s : Prop :=
  ∀ n e prev, effect_at s n e →
    safe_in (λ x, x < n ∧ is_source s x) (is_signal s) (eff_fun e prev).

Definition same_kinds_node (a b : node V iset) : Prop :=
  match a, b with
  | NSignal _, NSignal _ | NMemo _, NMemo _ => True
  | NEffect e, NEffect e' => eff_fun e' = eff_fun e
  | _, _ => False
  end.

Definition same_kinds s s' : Prop :=
  ∀ x, option_Forall2 same_kinds_node (nodes s !! x) (nodes s' !! x).

Lemma same_inputs_kinds s s' : same_inputs s s' → same_kinds s s'.
Proof.
  intros Hs x. destruct (si_nodes _ _ Hs x) as [a b Hab|]; constructor. by destruct a, b.
Qed.
Lemma keeps_kinds s s' : keeps s s' → same_kinds s s'.
Proof.
  intros Hs x. destruct (keeps_nodes _ _ Hs x) as [a b Hab|]; constructor.
  destruct a, b; simpl in *; naive_solver.
Qed.

Lemma wf_effects_kinds s s' : same_kinds s s' → wf_effects s → wf_effects s'.
Proof.
  intros Hs Hwf n e' prev Hn. pose proof (Hs n) as Hx. unfold effect_at in *. rewrite Hn in Hx.
  inversion Hx as [[u|m|e] ? Hab Ha|]; subst; simpl in *; try done. rewrite Hab.
  eapply safe_in_mono; [| |by apply (Hwf n e prev)].
  - intros x [Hlt Hsrc]. split; [done|]. specialize (Hs x). unfold is_source in *.
    by destruct Hs as [[] [] ?|].
  - intros x [u Hu]. specialize (Hs x). rewrite Hu in Hs. unfold is_signal.
    inversion Hs as [? [] ?|]; subst; try done. by eexists.
Qed.

(** The invariant of the whole graph between two operations. *)
Record SysInv s : Prop := {
  sys_inv : Inv0 s;
  sys_observer : observer s = None;
  sys_effects : wf_effects s;
}.

(** A dirty effect is scheduled. *)
Definition sched s : Prop :=
  ∀ n e, effect_at s n e → eff_dirty e = true → eff_set e = true.

Lemma sched_put s n e e' :
  effect_at s n e → (eff_dirty e' = true → eff_set e' = true) → sched s →
  sched (put_node n (NEffect e') s).
Proof. intros Hn He Hs y ey [[_ ->]|[_ Hy]]%put_effect_at; [done|by eapply Hs]. Qed.

Lemma sched_core s s' : same_core s s' → sched s → sched s'.
Proof.
  intros Hc Hs y e' Hy. destruct (same_core_effect_inv s s' y e') as (e & He & -> & ->);
    [done..|]. by eapply Hs.
Qed.

Lemma sched_keeps s s' : keeps s s' → sched s → sched s'.
Proof.
  intros Hk Hs y e' Hy Hd. destruct (keeps_effect_inv _ _ _ _ Hk Hy)
    as (e & He & _ & _ & _ & _ & Hset & Hor).
  destruct (Hor Hd) as [Hd'|]; [|done]. by apply Hset, (Hs y e).
Qed.

(** ** One run of an effect *)

Lemma effect_prepare n e s :
  effect_at s n e → Inv_but n s →
  ∃ s3 e3, effect_run n s =
      (v ← with_observer (Some n) (run_closure (eff_fun e (eff_value e)));
       update_node (on_effect (eff_with_value (Some v))) n) s3 ∧
    Inv0 s3 ∧ same_inputs s s3 ∧ effect_at s3 n e3 ∧ (∀ x, ¬ has_source s3 n x) ∧
    (sched s → sched s3).
Proof.
  intros Hn HI. set (e1 := eff_with_first_run false e). set (s1 := put_node n (NEffect e1) s).
  assert (effect_at s1 n e1) as Hn1 by (apply put_effect_at; by left).
  destruct (clear_sources_links n s1) as (s2 & Hcs & Hcl).
  { unfold is_subscriber. unfold effect_at in Hn1. by rewrite Hn1. }
  pose proof (cl_core _ _ _ Hcl) as Hcore.
  destruct (same_core_effect s1 s2 n e1) as (b & Hn2); [done..|].
  set (e2 := eff_with_sources b e1). fold e2 in Hn2.
  set (e3 := eff_with_value None e2). set (s3 := put_node n (NEffect e3) s2).
  assert (effect_at s3 n e3) as Hn3 by (apply put_effect_at; by left).
  exists s3, e3. split_and!; [| | |done|..].
  - unfold effect_run. rewrite (bind_Ok _ _ s _ s (lookup_node_eq n s)).
    pose proof Hn as Hn'. unfold effect_at in Hn'. rewrite Hn'.
    rewrite (bind_Ok _ _ s _ _ (update_effect s n e _ Hn)). fold e1 s1.
    step_with Hcs. rewrite (bind_Ok _ _ s2 _ s2 (lookup_node_eq n s2)).
    rewrite (bind_Ok _ _ s2 _ _ (update_effect s2 n e2 _ Hn2)). fold e3 s3.
    unfold effect_at in Hn2. by rewrite Hn2.
  - apply (put_effect_Inv s2 n e2 e3); [done..|].
    eapply (cleared_effect_Inv n e1 s1); [done..|]. by eapply put_effect_Inv_but.
  - etrans; [by eapply (put_effect_same_inputs s n e e1)|].
    etrans; [by apply core_same_inputs|]. by eapply (put_effect_same_inputs s2 n e2 e3).
  - intros x Hx. apply (has_source_effect s3 n e3) in Hx; [|done].
    apply (has_source_effect s2 n e2) in Hx; [|done].
    apply (cl_src _ _ _ Hcl) in Hx. naive_solver.
  - intros Hs. assert (sched s1) as Hs1.
    { eapply (sched_put s n e); [done| |done]. by apply (Hs n e). }
    assert (sched s2) as Hs2 by by eapply sched_core.
    eapply (sched_put s2 n e2); [done| |done]. by apply (Hs2 n e2).
Qed.

Lemma Inv0_set_observer ob s : Inv0 s → Inv0 (set_observer ob s).
Proof. apply Inv_set_observer. Qed.

Lemma effect_run_ok n e s :
  effect_at s n e → Inv_but n s → observer s = None → wf_effects s →
  ∃ s', effect_run n s = Ok (tt, s') ∧ SysInv s' ∧ (sched s → sched s').
Proof.
  intros Hn HI Ho Hwf.
  destruct (effect_prepare n e s) as (s3 & e3 & Heq & HI3 & Hsi & Hn3 & Hns & Hsch); [done..|].
  assert (observer s3 = None) as Ho3 by (by rewrite (si_observer _ _ Hsi)).
  pose proof (wf_effects_kinds _ _ (same_inputs_kinds _ _ Hsi) Hwf) as Hwf3.
  destruct (same_inputs_effect_inv _ _ _ _ Hsi Hn3) as (e' & He' & Hf3).
  assert (e' = e) as -> by (unfold effect_at in *; congruence).
  destruct (run_safe _ _ _ (Hwf3 n e3 (eff_value e) Hn3)
    (set_observer (Some (mkObserver n false)) s3)) as (v & s4 & Hrun & Hr4 & Hk).
  { split; [by intros x [_ Hx]|done|by apply Inv0_set_observer|].
    right. exists n, e3. split_and!; [done|done|]. by intros x [? _]. }
  destruct (keeps_effect _ _ _ _ Hk Hn3) as (e4 & Hn4 & Hf4 & _).
  set (s5 := set_observer None s4).
  assert (effect_at s5 n e4) as Hn5 by done.
  exists (put_node n (NEffect (eff_with_value (Some v) e4)) s5). split.
  - rewrite Heq. rewrite Hf3 in Hrun.
    rewrite (bind_Ok _ _ s3 _ _ (with_observer_eq n _ s3 _ _ Hrun)). rewrite Ho3.
    by apply update_effect.
  - split; [split; [|done|]|].
    + apply (put_effect_Inv s5 n e4); [done..|].
      apply Inv0_set_observer. by eapply ready_inv.
    + eapply (wf_effects_kinds s5); [by eapply same_inputs_kinds, put_effect_same_inputs|].
      eapply (wf_effects_kinds s3); [|done]. intros x.
      by apply (keeps_kinds _ _ Hk x).
    + intros Hs. assert (sched s5) as Hs5.
      { exact (sched_keeps _ _ Hk (Hsch Hs)). }
      eapply (sched_put s5 n e4); [done| |done]. by apply (Hs5 n e4).
Qed.

(** The closure of an effect that only reads: its value is what it computes
    from the specified values, and it is subscribed to all it read. *)
Lemma effect_run_pure n e s :
  effect_at s n e → Inv_but n s → observer s = None →
  pure_in (λ x, x < n ∧ is_source s x) (eff_fun e (eff_value e)) →
  ∃ v s' e', effect_run n s = Ok (tt, s') ∧ same_inputs s s' ∧ effect_at s' n e' ∧
    eff_value e' = Some v ∧
    eval_comp (spec_value (next s) s) (eff_fun e (eff_value e)) = Some v ∧
    (∀ x, x ∈ reads (spec_value (next s) s) (eff_fun e (eff_value e)) →
      has_source s' n x).
Proof.
  intros Hn HI Ho Hp.
  destruct (effect_prepare n e s) as (s3 & e3 & Heq & HI3 & Hsi & Hn3 & Hns & _); [done..|].
  assert (observer s3 = None) as Ho3 by (by rewrite (si_observer _ _ Hsi)).
  set (s3' := set_observer (Some (mkObserver n false)) s3).
  destruct (run_ok update_node_if_necessary n (λ R ov y s' _, update_now_ok R ov y s')
    no_memo no_override n (eff_fun e (eff_value e)) (λ x, x < n ∧ is_source s x) ltac:(by intros x [? _])
    ltac:(done) Hp s3') as (v & s4 & Hrun & HI4 & Hext & Heval & Hreads & _ & Hclean).
  { intros x [_ Hx]. by apply (same_inputs_is_source s s3). }
  { by apply Inv_set_observer. } { done. }
  { right. intros m. by apply (effect_not_memo s3 n e3). }
  { unfold is_subscriber. unfold effect_at in Hn3. simpl. by rewrite Hn3. }
  destruct (keeps_effect _ _ _ _ (keeps_ext _ _ _ _ Hext) Hn3) as (e4 & Hn4 & _).
  set (s5 := set_observer None s4). assert (effect_at s5 n e4) as Hn5 by done.
  set (e5 := eff_with_value (Some v) e4).
  assert (same_inputs s s5) as Hsi5.
  { etrans; [done|]. apply ext_with_observer in Hext. rewrite Ho3 in Hext.
    by eapply ext_same_inputs. }
  assert (∀ x, x ∈ reads (stored s4) (eff_fun e (eff_value e)) →
    stored s4 x = spec_value (next s) s x) as Hspec.
  { intros x Hx.
    assert (src_clean s4 x) as Hxc.
    { destruct (Hclean x (Hreads x Hx)) as [Hx3|]; [by destruct (Hns x)|done]. }
    rewrite (stored_spec no_memo no_override s4 HI4 (next s)); [|..|done].
    - by rewrite <- (spec_value_inputs s s5), <- (spec_value_observer None s4).
    - destruct (reads_in_pure _ _ _ _ Hp Hx) as [_ Hsrc]. unfold is_source in Hsrc.
      destruct (nodes s !! x) eqn:E; [|done]. eapply wf_next; [|done].
      eapply lk_wf, ib_links, HI. }
  destruct (eval_comp_ext _ _ _ Hspec) as [He Hr].
  exists v, (put_node n (NEffect e5) s5), e5. split_and!.
  - rewrite Heq. rewrite (bind_Ok _ _ s3 _ _ (with_observer_eq n _ s3 _ _ Hrun)). rewrite Ho3.
    by apply update_effect.
  - etrans; [done|]. by eapply put_effect_same_inputs.
  - apply put_effect_at. by left.
  - done.
  - by rewrite <- He.
  - intros x Hx. rewrite <- Hr in Hx. apply (has_source_effect _ n e5); [apply put_effect_at; by left|].
    apply (has_source_effect s4 n e4); [done|]. by apply Hreads.
Qed.
End effect.
