(* ===== verification/GraphSystem.v ===== *)
(** * The reactive system

    Programs drive the graph through [step]: they create signals, memos and
    effects, read and write them, and let the executor poll effects.  Every
    reachable graph satisfies the invariant, so in any reachable graph a read
    returns what a recomputation from the signals would. *)

From stdpp Require Import base gmap list relations.
From S2P Require Import Prelude IndexSets Graph GraphInv GraphMark GraphLinks GraphRead GraphUpdate GraphRun GraphEffect.

Section system.
Context {V : Type} {iset : Type} `{IndexSet nat iset, !IndexSetLaws nat iset}.
Local Abbreviation graph := (graph V iset).
Local Abbreviation Memo := (Memo V iset).
Local Abbreviation Effect := (Effect V iset).
Implicit Types (s : graph) (m : Memo) (n x y o : nat) (nd : node V iset) (e : Effect).

(** ** Polling *)

Lemma update_sources_ok fuel n l : ∀ s,
  Inv0 s → obs_ok no_memo s → n ≤ fuel →
  (∀ x, x ∈ l → x < n ∧ is_source s x) →
  ∃ b s', any_of (update_if_necessary fuel) l s = Ok (b, s') ∧ Inv0 s' ∧ ext n n s s'.
Proof.
  induction l as [|x l IH]; intros s HI Ho Hf Hl.
  { exists false, s. split_and!; [done|done|apply ext_refl]. }
  destruct (Hl x) as [Hxn Hxs]; [by left|].
  destruct (update_if_necessary_ok fuel no_memo no_override x s)
    as (b & s1 & Hu & HI1 & Hext1 & _); [lia|done|done|done|done|].
  assert (ext n n s s1) as Hext by (eapply ext_mono; [| |done]; lia).
  simpl. step_with Hu. destruct b; [by exists true, s1|].
  destruct (IH s1) as (b & s' & Hr & HI' & Hext'); [done|by eapply ext_obs_ok|done| |].
  { intros y Hy. rewrite (ext_is_source _ _ _ _ y Hext). apply Hl. by right. }
  exists b, s'. split_and!; [done|done|by eapply ext_trans].
Qed.

Lemma poll_set n e s : effect_at s n e → eff_set e = true →
  effect_poll n s =
  (if eff_paused e then mret false
   else
     b ← with_observer (Some n) (update_node_if_necessary n);
     if b || eff_first_run e then _ ← effect_run n; mret true else mret false)
    (put_node n (NEffect (eff_with_set false e)) s).
Proof.
  intros Hn Hs. unfold effect_poll. rewrite (bind_Ok _ _ s _ s (lookup_node_eq n s)).
  pose proof Hn as Hn'. unfold effect_at in Hn'. rewrite Hn', Hs.
  by rewrite (bind_Ok _ _ s _ _ (update_effect s n e _ Hn)).
Qed.

(** A dirty effect learns that it must run, and is dirty no more. *)
Lemma update_dirty_effect n e s :
  effect_at s n e → eff_dirty e = true → observer s = None →
  with_observer (Some n) (update_node_if_necessary n) s =
  Ok (true, put_node n (NEffect (eff_with_dirty false e)) s).
Proof.
  intros Hn Hd Ho.
  assert (effect_at (set_observer (Some (mkObserver n false)) s) n e) as Hn2 by done.
  rewrite (with_observer_eq n _ s true (put_node n (NEffect (eff_with_dirty false e))
    (set_observer (Some (mkObserver n false)) s))).
  - by destruct s; simpl in *; subst.
  - unfold update_node_if_necessary. set (s2 := set_observer _ s).
    rewrite (bind_Ok _ _ s2 (mark_fuel s2) s2) by done. unfold mark_fuel. simpl.
    rewrite (bind_Ok _ _ s2 _ s2 (lookup_node_eq n s2)).
    pose proof Hn2 as Hn2'. fold s2 in Hn2'. unfold effect_at in Hn2'. rewrite Hn2'.
    unfold effect_update. rewrite Hd. by rewrite (bind_Ok _ _ s2 _ _ (update_effect s2 n e _ Hn2)).
Qed.

Lemma effect_run_then n e s :
  effect_at s n e → Inv_but n s → observer s = None → wf_effects s →
  ∃ s', (_ ← effect_run n; mret true) s = Ok (true, s') ∧ SysInv s' ∧ (sched s → sched s').
Proof.
  intros Hn HI Ho Hwf. destruct (effect_run_ok n e s) as (s' & Hr & HS & Hs); [done..|].
  exists s'. split; [|done]. by step_with Hr.
Qed.

Lemma put_effect_SysInv n e e' s :
  effect_at s n e → eff_sources e' = eff_sources e → eff_dirty e' = eff_dirty e →
  eff_fun e' = eff_fun e → SysInv s → SysInv (put_node n (NEffect e') s).
Proof.
  intros Hn Hs Hd Hf [HI Ho Hwf]. split; [by eapply put_effect_Inv|done|].
  eapply wf_effects_kinds; [|done]. by eapply same_inputs_kinds, put_effect_same_inputs.
Qed.

(** A poll terminates, panics never, and preserves the invariant. *)
Lemma poll_ok n s :
  SysInv s → ∃ b s', effect_poll n s = Ok (b, s') ∧ SysInv s' ∧
    ((∀ e, effect_at s n e → eff_paused e = false) → sched s → sched s').
Proof.
  intros HS. destruct (nodes s !! n) as [nd|] eqn:E.
  2:{ exists false, s. split; [|done]. unfold effect_poll.
      rewrite (bind_Ok _ _ s _ s (lookup_node_eq n s)). by rewrite E. }
  destruct nd as [u|m|e].
  1, 2: exists false, s; split; [|done]; unfold effect_poll;
    rewrite (bind_Ok _ _ s _ s (lookup_node_eq n s)); by rewrite E.
  assert (effect_at s n e) as Hn by done. destruct (eff_set e) eqn:Hset.
  2:{ exists false, s. split; [|done]. unfold effect_poll.
      rewrite (bind_Ok _ _ s _ s (lookup_node_eq n s)). by rewrite E, Hset. }
  rewrite (poll_set n e s Hn Hset). set (e1 := eff_with_set false e).
  set (s1 := put_node n (NEffect e1) s).
  assert (SysInv s1) as HS1 by (by apply (put_effect_SysInv n e)).
  assert (effect_at s1 n e1) as Hn1 by (apply put_effect_at; by left).
  destruct (eff_paused e) eqn:Hp.
  { exists false, s1. split_and!; [done|done|]. intros Hnp. specialize (Hnp e Hn). congruence. }
  pose proof HS1 as [HI1 Ho1 Hwf1].
  destruct (eff_dirty e) eqn:Hd.
  - rewrite (bind_Ok _ _ _ _ _ (update_dirty_effect n e1 s1 Hn1 Hd Ho1)). rewrite orb_true_l. exists true.
    set (e2 := eff_with_dirty false e1).
    assert (effect_at (put_node n (NEffect e2) s1) n e2) as Hn2 by (apply put_effect_at; by left).
    destruct (effect_run_then n e2 (put_node n (NEffect e2) s1)) as (s' & Hr & HS' & Hs');
      [done| |done| |].
    + eapply put_effect_Inv_but; [done|]. by apply Inv_but_of.
    + eapply wf_effects_kinds; [|done]. by eapply same_inputs_kinds, put_effect_same_inputs.
    + exists s'. split_and!; [done|done|]. intros _ Hs. apply Hs'.
      intros y ey [[_ ->]|[Hyn Hy]]%put_effect_at; [done|].
      apply put_effect_at in Hy as [[? _]|[_ Hy]]; [done|]. by eapply Hs.
  - set (s2 := set_observer (Some (mkObserver n false)) s1).
    destruct (update_sources_ok (next s2) n (iset_elems (eff_sources e1)) s2)
      as (b & s3 & Hany & HI3 & Hext).
    { by apply Inv0_set_observer. }
    { intros ob [= <-]. split; [done|]. right. intros m. by apply (effect_not_memo s1 n e1). }
    { apply Nat.lt_le_incl. eapply (wf_next s1); [|done]. by eapply lk_wf, inv_links. }
    { intros x Hx. by apply (inv_eff _ _ _ HI1 n e1 x). }
    assert (with_observer (Some n) (update_node_if_necessary n) s1 =
      Ok (b, set_observer None s3)) as Hw.
    { rewrite (with_observer_eq n _ s1 b s3); [by rewrite Ho1|]. fold s2.
      unfold update_node_if_necessary. rewrite (bind_Ok _ _ s2 (mark_fuel s2) s2) by done.
      unfold mark_fuel. simpl. rewrite (bind_Ok _ _ s2 _ s2 (lookup_node_eq n s2)).
      change (nodes s2 !! n) with (nodes s1 !! n). unfold effect_at in Hn1. rewrite Hn1.
      unfold effect_update. simpl. by rewrite Hd. }
    rewrite (bind_Ok _ _ _ _ _ Hw).
    pose proof (keeps_ext _ _ _ _ Hext) as Hk.
    destruct (keeps_effect s2 s3 n e1 Hk Hn1) as (e3 & Hn3 & _).
    assert (SysInv (set_observer None s3)) as HS3.
    { split; [by apply Inv0_set_observer|done|].
      eapply (wf_effects_kinds s1); [|done]. intros x. by apply (keeps_kinds _ _ Hk x). }
    assert (sched s → sched (set_observer None s3)) as Hs3.
    { intros Hs. apply (sched_keeps s2 s3); [done|]. apply (sched_put s n e); [done| |done].
      simpl. congruence. }
    destruct (b || eff_first_run e).
    2:{ exists false, (set_observer None s3). split_and!; [done|done|]. auto. }
    exists true. destruct HS3.
    destruct (effect_run_then n e3 (set_observer None s3)) as (s' & Hr & HS' & Hs');
      [done|by apply Inv_but_of|done|done|].
    exists s'. split_and!; [done|done|]. auto.
Qed.

(** ** Programs *)

Definition init : graph := mkGraph ∅ None 0.

Inductive step : graph → graph → Prop :=
| step_signal v n s s' : signal_new v s = Ok (n, s') → step s s'
| step_memo f n s s' :
    pure_memo (is_source s) f → memo_new_owning f s = Ok (n, s') → step s s'
| step_effect f n s s' :
    (∀ prev, safe_in (is_source s) (is_signal s) (f prev)) →
    effect_new f s = Ok (n, s') → step s s'
| step_set_rw n v s s' : is_signal s n → set_rw n v s = Ok (tt, s') → step s s'
| step_set_write n v s s' : is_signal s n → set_write n v s = Ok (tt, s') → step s s'
| step_get n v s s' : is_source s n → get n s = Ok (v, s') → step s s'
| step_get_untracked n v s s' :
    is_source s n → get_untracked n s = Ok (v, s') → step s s'
| step_poll n b s s' : effect_poll n s = Ok (b, s') → step s s'
| step_set_paused b n s s' : effect_set_paused b n s = Ok (tt, s') → step s s'
| step_drop_effect n e s s' :
    effect_at s n e → drop_node n s = Ok (tt, s') → step s s'.

Definition reachable s : Prop := rtc step init s.

(** ** A new node *)

Definition extended nd s : graph := mkGraph (<[next s := nd]> (nodes s)) (observer s) (S (next s)).

Section alloc.
Context (s : graph) (nd : node V iset).
Context (Hsrc : sources_of nd = iset_empty) (Hsub : iset_elems (subs_of nd) = []).
Context (Hmemo : ∀ m, nd = NMemo m → memo_state m = Dirty).
Context (HS : SysInv s).
Local Abbreviation s' := (extended nd s).

Lemma alloc_fresh : nodes s !! next s = None.
Proof.
  destruct (nodes s !! next s) as [nd'|] eqn:E; [|done].
  pose proof (wf_next _ (lk_wf _ _ (inv_links _ _ _ (sys_inv _ HS))) _ _ E). lia.
Qed.

Lemma alloc_lookup x nd' :
  nodes s' !! x = Some nd' ↔ (x = next s ∧ nd' = nd) ∨ (x < next s ∧ nodes s !! x = Some nd').
Proof.
  simpl. destruct (decide (x = next s)) as [->|Hx].
  - rewrite lookup_insert_eq. naive_solver lia.
  - rewrite lookup_insert_ne by done. split; [|naive_solver].
    intros Hn. right. split; [|done].
    by apply (wf_next _ (lk_wf _ _ (inv_links _ _ _ (sys_inv _ HS))) _ _ Hn).
Qed.

Lemma alloc_is_source x : is_source s x → is_source s' x.
Proof.
  unfold is_source. destruct (nodes s !! x) as [nd'|] eqn:E; [|done]. intros Hx.
  assert (nodes s' !! x = Some nd') as ->; [|done]. apply alloc_lookup. right.
  split; [|done]. by apply (wf_next _ (lk_wf _ _ (inv_links _ _ _ (sys_inv _ HS))) _ _ E).
Qed.

Lemma alloc_is_signal x : is_signal s x → is_signal s' x.
Proof.
  intros [u Hu]. exists u. apply alloc_lookup. right. split; [|done].
  by apply (wf_next _ (lk_wf _ _ (inv_links _ _ _ (sys_inv _ HS))) _ _ Hu).
Qed.

Lemma alloc_subscribed x y : subscribed s' x y ↔ subscribed s x y.
Proof.
  split.
  - intros (nd' & [[-> ->]|[_ Hx]]%alloc_lookup & Hy); [|by exists nd'].
    rewrite Hsub in Hy. by apply not_elem_of_nil in Hy.
  - intros (nd' & Hx & Hy). exists nd'. split; [|done]. apply alloc_lookup. right.
    split; [|done]. by apply (wf_next _ (lk_wf _ _ (inv_links _ _ _ (sys_inv _ HS))) _ _ Hx).
Qed.

Lemma alloc_stored x : x ≠ next s → stored s' x = stored s x.
Proof. intros Hx. unfold stored. simpl. by rewrite lookup_insert_ne. Qed.

Lemma alloc_old_memo y m :
  memo_at s' y m → memo_state m ≠ Dirty → memo_at s y m ∧ y < next s.
Proof.
  intros [[-> Heq]|[? Hy]]%alloc_lookup Hd; [|done]. by destruct Hd; apply Hmemo.
Qed.

Lemma alloc_SysInv :
  (∀ m, nd = NMemo m → pure_memo (is_source s) (memo_fun m)) →
  (∀ e prev, nd = NEffect e → safe_in (is_source s) (is_signal s) (eff_fun e prev)) →
  SysInv s'.
Proof.
  intros Hmf Hef. destruct HS as [HI Ho Hwe]. pose proof HI as [HL HC _ HE].
  pose proof (lk_wf _ _ HL) as Hwf.
  assert (∀ x, is_source s x → x < next s) as Hlt.
  { intros x Hx. unfold is_source in Hx. destruct (nodes s !! x) eqn:E; [|done].
    by eapply wf_next. }
  assert (∀ m x, nd = NMemo m → x ∈ iset_elems (memo_sources m) → False) as Hnew.
  { intros m x -> Hx. simpl in Hsrc. rewrite Hsrc in Hx. by apply elem_of_iset_empty in Hx. }
  split; [split; [split; [split|..]|..]|done|].
  - intros x nd' [[-> _]|[? _]]%alloc_lookup; simpl; lia.
  - intros y m [[-> Heq]|[? Hy]]%alloc_lookup.
    + eapply pure_memo_mono; [|by apply Hmf]. intros x Hx. simpl.
      split; [by apply Hlt|by apply alloc_is_source].
    + eapply pure_memo_mono; [|by eapply wf_fun]. intros x [? ?].
      split; [done|by apply alloc_is_source].
  - intros y m x [[-> Heq]|[? Hy]]%alloc_lookup Hx; [by destruct (Hnew m x)|].
    destruct (wf_srcs _ Hwf y m x Hy Hx). split; [done|by apply alloc_is_source].
  - intros x y Hxy%alloc_subscribed. pose proof (wf_subs _ Hwf x y Hxy). simpl. lia.
  - intros y m x Hy HRd Hx. apply alloc_subscribed.
    apply alloc_lookup in Hy as [[-> Heq]|[? Hy]]; [by destruct (Hnew m x)|].
    by eapply (lk_link _ _ HL).
  - intros x y m Hxy%alloc_subscribed Hy. pose proof (wf_subs _ Hwf x y Hxy).
    apply alloc_lookup in Hy as [[-> Heq]|[? Hy]]; [lia|by eapply lk_back].
  - intros x y m Hx (mx & Hmx & Hxc) Hxy%alloc_subscribed Hy.
    pose proof (wf_subs _ Hwf x y Hxy).
    apply alloc_lookup in Hy as [[-> Heq]|[? Hy]]; [lia|].
    apply alloc_lookup in Hmx as [[-> Heq]|[? Hmx]]; [lia|].
    eapply (lk_closed _ _ HL); [done| |done|done]. by exists mx.
  - intros r [].
  - intros y m Hy HR Hd. destruct (alloc_old_memo y m Hy Hd) as [Hy0 Hlt'].
    eapply consistent_ext; [|by eapply HC]. intros x Hx. unfold vstore, no_override.
    symmetry. apply alloc_stored.
    destruct (reads_in_pure _ _ _ _ (pure_memo_pure _ _ None (wf_fun _ Hwf y m Hy0)) Hx).
    lia.
  - done.
  - intros y e x [[-> Heq]|[? Hy]]%alloc_lookup Hx.
    + rewrite <- Heq in Hsrc. simpl in Hsrc. rewrite Hsrc in Hx.
      by apply elem_of_iset_empty in Hx.
    + destruct (HE y e x Hy Hx) as [[? ?] Hor]. rewrite alloc_subscribed.
      split; [|done]. split; [done|by apply alloc_is_source].
  - intros y e prev [[-> Heq]|[? Hy]]%alloc_lookup.
    + eapply safe_in_mono; [| |by apply Hef].
      * intros x Hx. split; [by apply Hlt|by apply alloc_is_source].
      * apply alloc_is_signal.
    + eapply safe_in_mono; [| |by apply (Hwe y e prev Hy)].
      * intros x [? ?]. split; [done|by apply alloc_is_source].
      * apply alloc_is_signal.
Qed.
End alloc.

(** ** Dropping an effect *)

Section drop_effect.
Context (s : graph) (n : nat) (e : Effect) (Hn : effect_at s n e).
Local Abbreviation s' := (set_nodes (delete n) s).

Lemma drop_lookup x nd : nodes s' !! x = Some nd ↔ x ≠ n ∧ nodes s !! x = Some nd.
Proof. simpl. rewrite lookup_delete_Some. naive_solver. Qed.

Lemma drop_memo_at y m : memo_at s' y m ↔ memo_at s y m.
Proof.
  unfold memo_at. rewrite drop_lookup. split; [by intros [_ ?]|]. intros Hy. split; [|done].
  intros ->. by eapply effect_not_memo.
Qed.

Lemma drop_is_source x : is_source s x → is_source s' x.
Proof.
  intros Hx. unfold is_source in *. destruct (nodes s !! x) as [nd|] eqn:E; [|done].
  assert (nodes s' !! x = Some nd) as ->; [|done]. apply drop_lookup. split; [|done].
  intros ->. unfold effect_at in Hn. rewrite Hn in E. by simplify_eq.
Qed.

Lemma drop_subscribed x y : subscribed s' x y ↔ subscribed s x y.
Proof.
  unfold subscribed. setoid_rewrite drop_lookup. split; [naive_solver|].
  intros (nd & Hx & Hy). exists nd. split_and!; [|done..]. intros ->.
  unfold effect_at in Hn. rewrite Hn in Hx. injection Hx as <-. simpl in Hy.
  by apply elem_of_iset_empty in Hy.
Qed.

Lemma drop_stored x : stored s' x = stored s x.
Proof.
  unfold stored. simpl. destruct (decide (x = n)) as [->|].
  - unfold effect_at in Hn. by rewrite lookup_delete_eq, Hn.
  - by rewrite lookup_delete_ne.
Qed.

Lemma drop_effect_SysInv : SysInv s → SysInv s'.
Proof.
  intros [[HL HC _ HE] Ho Hwe]. pose proof (lk_wf _ _ HL) as Hwf.
  split; [split; [split; [split|..]|..]|done|].
  - intros x nd [_ Hx]%drop_lookup. by apply (wf_next s Hwf x nd).
  - intros y m Hy%drop_memo_at. eapply pure_memo_mono; [|by eapply wf_fun].
    intros x [? ?]. split; [done|by apply drop_is_source].
  - intros y m x Hy%drop_memo_at Hx. destruct (wf_srcs _ Hwf y m x Hy Hx).
    split; [done|by apply drop_is_source].
  - intros x y Hxy%drop_subscribed. by apply (wf_subs s).
  - intros y m x Hy%drop_memo_at HRd Hx. apply drop_subscribed. by eapply lk_link.
  - intros x y m Hxy%drop_subscribed Hy%drop_memo_at. by eapply lk_back.
  - intros x y m Hx (mx & Hmx%drop_memo_at & Hxc) Hxy%drop_subscribed Hy%drop_memo_at.
    eapply (lk_closed _ _ HL); [done| |done|done]. by exists mx.
  - intros r [].
  - intros y m Hy%drop_memo_at HR Hd. eapply consistent_ext; [|by eapply HC].
    intros x _. unfold vstore. by rewrite drop_stored.
  - done.
  - intros y ey x [_ Hy]%drop_lookup Hx. rewrite drop_subscribed.
    destruct (HE y ey x Hy Hx) as [[? ?] ?].
    split; [split; [done|by apply drop_is_source]|done].
  - intros y ey prev [_ Hy]%drop_lookup. eapply safe_in_mono; [| |by apply (Hwe y ey prev Hy)].
    + intros x [? ?]. split; [done|by apply drop_is_source].
    + intros x [u Hu]. exists u. apply drop_lookup. split; [|done]. intros ->.
      unfold effect_at in Hn. by simplify_eq.
Qed.
End drop_effect.

(** ** Every step preserves the invariant *)

Lemma keeps_SysInv s s' : SysInv s → Inv0 s' → keeps s s' → SysInv s'.
Proof.
  intros [HI Ho Hwe] HI' Hk. split; [done|by rewrite (keeps_observer _ _ Hk)|].
  eapply wf_effects_kinds; [by apply keeps_kinds|done].
Qed.

Lemma read_SysInv n s :
  SysInv s → is_source s n →
  ∃ v s', get_untracked n s = Ok (v, s') ∧ get n s = Ok (v, s') ∧ SysInv s' ∧
    same_inputs s s' ∧ stored s' n = Some v ∧ src_clean s' n.
Proof.
  intros HS Hn. pose proof HS as [HI Ho Hwe].
  destruct (get_untracked_ok (λ _, True) n s) as (v & s' & Hg & HI' & Hext & Hv & Hc);
    [done|by left|done|].
  exists v, s'. split_and!; [done| |by eapply keeps_SysInv, keeps_ext|by eapply ext_same_inputs|done|done].
  unfold get, read. by rewrite (bind_Ok _ _ s _ _ (track_none n s Ho)).
Qed.

Lemma write_SysInv n v s s' : SysInv s → was_set n v s s' → SysInv s'.
Proof. intros HS Hset. eapply keeps_SysInv; [done|by eapply set_inv|by eapply keeps_set]. Qed.

Lemma init_SysInv : SysInv init.
Proof.
  assert (∀ x nd, nodes init !! x = Some nd → False) as Hno.
  { intros x nd Hx. unfold init in Hx. simpl in Hx. by rewrite lookup_empty in Hx. }
  split; [split; [split; [split|..]|..]|done|]; try done;
    try (intros ?; intros; exfalso; unfold memo_at, effect_at in *; by eauto).
  - intros x y (nd & Hx & _). by destruct (Hno x nd).
Qed.

Lemma step_SysInv s s' : SysInv s → step s s' → SysInv s'.
Proof.
  intros HS Hstep. destruct Hstep as [v n s s' Hop|f n s s' Hf Hop|f n s s' Hf Hop|n v s s' Hn Hop
    |n v s s' Hn Hop|n v s s' Hn Hop|n v s s' Hn Hop|n b s s' Hop|b n s s' Hop|n e s s' Hn Hop].
  - injection Hop as <- <-. apply alloc_SysInv; try done. apply elems_with_capacity.
  - injection Hop as <- <-. apply alloc_SysInv; try done; [apply elems_with_capacity|..];
      by intros m [= <-].
  - injection Hop as <- <-. apply alloc_SysInv; try done; [apply elems_with_capacity|].
    intros e prev [= <-]. apply Hf.
  - destruct (set_rw_ok n v s) as (s1 & Heq & Hset); [by apply sys_inv|done|].
    rewrite Heq in Hop. simplify_eq. by eapply write_SysInv.
  - destruct (set_write_ok n v s) as (s1 & Heq & Hset); [by apply sys_inv|done|].
    rewrite Heq in Hop. simplify_eq. by eapply write_SysInv.
  - destruct (read_SysInv n s HS Hn) as (w & s1 & _ & Heq & HS1 & _).
    rewrite Heq in Hop. by simplify_eq.
  - destruct (read_SysInv n s HS Hn) as (w & s1 & Heq & _ & HS1 & _).
    rewrite Heq in Hop. by simplify_eq.
  - destruct (poll_ok n s HS) as (b' & s1 & Heq & HS1 & _). rewrite Heq in Hop. by simplify_eq.
  - unfold effect_set_paused in Hop.
    destruct (nodes s !! n) as [[u|m|e]|] eqn:E.
    3:{ rewrite (update_effect s n e) in Hop by done. simplify_eq.
        by apply (put_effect_SysInv n e). }
    all: assert (s' = s) as ->; [|done]; unfold update_node, modify, set_nodes in Hop;
      injection Hop as <-; destruct s as [g ob nx]; f_equal; simpl in *;
      apply map_eq; intros x; destruct (decide (x = n)) as [->|];
      [by rewrite lookup_alter_eq, E|by rewrite lookup_alter_ne].
  - injection Hop as <-. by eapply drop_effect_SysInv.
Qed.

Lemma reachable_SysInv s : reachable s → SysInv s.
Proof.
  intros Hr. unfold reachable in Hr. pose proof init_SysInv as H0. revert H0.
  induction Hr as [s|s1 s2 s3 Hst _ IH]; [done|]. intros HS. by apply IH, (step_SysInv s1).
Qed.
End system.
