(* ===== verification/GraphProps.v ===== *)
(** * What the reactive graph promises

    The theorems about programs that use the graph, each with a witness on a
    small program, and the cases in which an update does not reach an effect. *)

From stdpp Require Import base gmap list relations.
From S2P Require Import Prelude IndexSets Graph GraphInv GraphMark GraphLinks GraphRead GraphUpdate GraphRun GraphEffect GraphSystem.

(** ** Helpers *)

Section helpers.
Context {V : Type} {iset : Type} `{IndexSet nat iset, !IndexSetLaws nat iset}.
Local Abbreviation graph := (graph V iset).
Implicit Types (s : graph) (n x y : nat).

(** [ArcMemo::new] of a function of its tracked reads is a pure memo. *)
Lemma memo_new_pure `{EqDecision V} (P : nat → Prop) (c : comp V V) :
  pure_in P c →
  pure_memo P (λ prev, comp_bind c (λ v, Return (v, bool_decide (prev ≠ Some v)))).
Proof.
  intros Hc. exists c. split; [done|]. intros prev.
  exists (λ v, bool_decide (prev ≠ Some v)). split; [done|].
  intros v Hv. apply bool_decide_eq_false in Hv. by apply dec_stable.
Qed.

Lemma is_source_next s n : SysInv s → is_source s n → n < next s.
Proof.
  intros HS Hn. unfold is_source in Hn. destruct (nodes s !! n) eqn:E; [|done].
  eapply wf_next; [|done]. by eapply lk_wf, inv_links, sys_inv.
Qed.

(** A clean node is read without any change to the graph. *)
Lemma read_clean s n :
  SysInv s → src_clean s n →
  ∃ v, stored s n = Some v ∧ get_untracked n s = Ok (v, s).
Proof.
  intros HS Hc. destruct (clean_stored no_memo no_override s n (sys_inv _ HS) Hc) as (v & Hv).
  exists v. split; [done|]. unfold get_untracked, read_untracked.
  rewrite (bind_Ok _ _ s _ s (lookup_node_eq n s)).
  unfold src_clean, stored in Hc, Hv.
  destruct (nodes s !! n) as [[u|m|e]|] eqn:E; try done; [by simplify_eq|].
  rewrite (bind_Ok _ _ s false s).
  - rewrite (bind_Ok _ _ s _ s (lookup_node_eq n s)), E, Hv. done.
  - unfold update_node_if_necessary. rewrite (bind_Ok _ _ s (mark_fuel s) s) by done.
    unfold mark_fuel. simpl. rewrite (bind_Ok _ _ s _ s (lookup_node_eq n s)), E.
    unfold memo_update. rewrite (bind_Ok _ _ s false s).
    + rewrite (bind_Ok _ _ s tt s); [done|]. rewrite (update_memo s n m) by done.
      do 2 f_equal. destruct s as [g ob nx]. unfold put_node, set_nodes. f_equal. simpl in *.
      apply insert_id. rewrite E. do 2 f_equal. destruct m. unfold memo_with_state.
      simpl in *. by subst.
    + unfold memo_needs_update. by rewrite Hc.
Qed.

Lemma get_untracked_get n s : SysInv s → get n s = get_untracked n s.
Proof.
  intros HS. unfold get, read. by rewrite (bind_Ok _ _ s _ _ (track_none n s (sys_observer _ HS))).
Qed.

(** A step of a program in which no effect is paused. *)
Definition active s : Prop := ∀ n e, effect_at s n e → eff_paused e = false.
Definition active_step s s' : Prop := step s s' ∧ active s'.
Definition reachable_active s : Prop := rtc active_step init s.

Lemma step_sched s s' : SysInv s → active s → sched s → step s s' → sched s'.
Proof.
  intros HS Ha Hs Hstep. pose proof (step_SysInv s s' HS Hstep) as HS'.
  destruct Hstep as [v n s s' Hop|f n s s' Hf Hop|f n s s' Hf Hop|n v s s' Hn Hop
    |n v s s' Hn Hop|n v s s' Hn Hop|n v s s' Hn Hop|n b s s' Hop|b n s s' Hop|n e s s' Hn Hop].
  1,2,3: injection Hop as <- <-; intros y ey Hy; unfold effect_at in Hy; simpl in Hy;
    destruct (decide (y = next s)) as [->|];
    [rewrite lookup_insert_eq in Hy; by simplify_eq/=
    |rewrite lookup_insert_ne in Hy by done; by apply (Hs y)].
  - destruct (set_rw_ok n v s) as (s1 & Heq & Hset); [by apply sys_inv|done|].
    rewrite Heq in Hop. simplify_eq. by eapply sched_keeps; [eapply keeps_set|].
  - destruct (set_write_ok n v s) as (s1 & Heq & Hset); [by apply sys_inv|done|].
    rewrite Heq in Hop. simplify_eq. by eapply sched_keeps; [eapply keeps_set|].
  - destruct (get_ok (λ _, True) n s) as (w & s1 & Heq & _ & (k & Hext) & _);
      [by apply sys_inv|left; by apply sys_observer|done|done|].
    rewrite Heq in Hop. simplify_eq. by eapply sched_keeps; [eapply keeps_ext|].
  - destruct (get_untracked_ok (λ _, True) n s) as (w & s1 & Heq & _ & Hext & _);
      [by apply sys_inv|left; by apply sys_observer|done|].
    rewrite Heq in Hop. simplify_eq. by eapply sched_keeps; [eapply keeps_ext|].
  - destruct (poll_ok n s HS) as (b' & s1 & Heq & _ & Hsch). rewrite Heq in Hop.
    simplify_eq. apply Hsch; [|done]. apply Ha.
  - unfold effect_set_paused, update_node, modify in Hop. injection Hop as <-.
    intros y ey Hy. unfold effect_at in Hy. simpl in Hy.
    destruct (decide (y = n)) as [->|Hyn].
    + rewrite lookup_alter_eq in Hy. destruct (nodes s !! n) as [[u|m|e]|] eqn:E; try done.
      simplify_eq/=. by apply (Hs n e).
    + rewrite lookup_alter_ne in Hy by done. by apply (Hs y).
  - injection Hop as <-. intros y ey Hy%drop_lookup. by apply (Hs y), Hy.
Qed.

Lemma reachable_active_ok s :
  reachable_active s → SysInv s ∧ active s ∧ sched s.
Proof.
  intros Hr. unfold reachable_active in Hr.
  assert (SysInv (@init V iset) ∧ active (@init V iset) ∧ sched (@init V iset)) as H0.
  { split_and!; [apply init_SysInv|intros n e Hn|intros n e Hn];
      unfold effect_at, init in Hn; simpl in Hn; by rewrite lookup_empty in Hn. }
  revert H0. induction Hr as [s|s1 s2 s3 [Hst Ha] _ IH]; [done|].
  intros (HS & Ha1 & Hs1). apply IH. split_and!; [by eapply step_SysInv|done|].
  by eapply (step_sched s1).
Qed.
End helpers.

(** ** A program to run the theorems on *)

Module Demo.
Abbreviation G := (graph nat (list_iset nat)).

(** A signal, two memos of it, a memo of both and an effect on that memo. *)
Definition left_fun : comp nat nat := Get 0 (λ v, Return (v `mod` 2)).
Definition right_fun : comp nat nat := Get 0 (λ v, Return (v * 10)).
Definition sum_fun : comp nat nat := Get 1 (λ a, Get 2 (λ b, Return (a + b))).
Definition show_fun : comp nat nat := Get 3 (λ v, Return v).

Definition state_of {A} (c : stateM G A) (s : G) : G :=
  match c s with Ok (_, s') => s' | _ => s end.

Definition g1 : G := state_of (signal_new 4) init.
Definition g2 : G := state_of (memo_new (λ _, left_fun)) g1.
Definition g3 : G := state_of (memo_new (λ _, right_fun)) g2.
Definition g4 : G := state_of (memo_new (λ _, sum_fun)) g3.
Definition built : G := state_of (effect_new (λ _, show_fun)) g4.
(** after the effect ran once *)
Definition shown : G := state_of (effect_poll 4) built.
(** after the signal was set, before anything is read again *)
Definition stale : G := state_of (set_rw 0 7) shown.

Definition active_b (s : G) : bool :=
  forallb (λ p, match p.2 with NEffect e => negb (eff_paused e) | _ => true end)
    (map_to_list (nodes s)).

Lemma active_b_ok s : active_b s = true → active s.
Proof.
  intros Hb n e Hn. unfold active_b in Hb. rewrite forallb_forall in Hb.
  specialize (Hb (n, NEffect e)). simpl in Hb. apply negb_true_iff, Hb.
  apply list_elem_of_In, elem_of_map_to_list, Hn.
Qed.

Lemma active_then s s' :
  reachable_active s → step s s' → active_b s' = true → reachable_active s'.
Proof.
  intros Hr Hst Ha. eapply rtc_r; [exact Hr|]. split; [done|]. by apply active_b_ok.
Qed.

Ltac pure_closure :=
  repeat first [apply pure_Return | apply pure_Get; [vm_compute; exact I|intros ?]].

Lemma built_active : reachable_active built.
Proof.
  assert (reachable_active g1) as H1.
  { eapply active_then; [apply rtc_refl|eapply (step_signal 4); vm_compute; reflexivity|done]. }
  assert (reachable_active g2) as H2.
  { eapply active_then; [exact H1| |vm_compute; reflexivity].
    eapply (step_memo _ 1); [|unfold g2, state_of; reflexivity].
    apply memo_new_pure. pure_closure. }
  assert (reachable_active g3) as H3.
  { eapply active_then; [exact H2| |vm_compute; reflexivity].
    eapply (step_memo _ 2); [|unfold g3, state_of; reflexivity].
    apply memo_new_pure. pure_closure. }
  assert (reachable_active g4) as H4.
  { eapply active_then; [exact H3| |vm_compute; reflexivity].
    eapply (step_memo _ 3); [|unfold g4, state_of; reflexivity].
    apply memo_new_pure. pure_closure. }
  eapply active_then; [exact H4| |vm_compute; reflexivity].
  eapply (step_effect _ 4); [|unfold built, state_of; reflexivity].
  intros prev. apply safe_Get; [vm_compute; exact I|intros v; apply safe_Return].
Qed.

Lemma shown_active : reachable_active shown.
Proof.
  eapply active_then; [exact built_active| |vm_compute; reflexivity].
  eapply (step_poll 4 true). vm_compute. reflexivity.
Qed.

Lemma stale_active : reachable_active stale.
Proof.
  eapply active_then; [exact shown_active| |vm_compute; reflexivity].
  eapply (step_set_rw 0 7); [eexists; vm_compute; reflexivity|]. vm_compute. reflexivity.
Qed.

Lemma reachable_of_active s : reachable_active (V := nat) (iset := list_iset nat) s → reachable s.
Proof. intros Hr. eapply rtc_subrel; [|exact Hr]. by intros x y [? _]. Qed.
End Demo.

(** ** Reads *)

Section reads.
Context {V : Type} {iset : Type} `{IndexSet nat iset, !IndexSetLaws nat iset}.
Local Abbreviation graph := (graph V iset).
Implicit Types (s : graph) (n x y : nat).

(** C1: whatever a program did before, [get] on a signal or memo terminates without a panic and returns the value that recomputing the node from the current signals, without any cache, would give; it changes no signal and no closure. *)
Theorem get_fresh s n :
reachable s → is_source s n →
∃ v s', get n s = Ok (v, s') ∧ spec_value (next s) s n = Some v ∧ same_inputs s s'.
Proof.
intros Hr%reachable_SysInv Hn.
destruct (read_SysInv n s Hr Hn) as (v & s' & _ & Hg & HS' & Hsi & Hv & Hc).
exists v, s'. split_and!; [done| |done].
rewrite <- (spec_value_inputs s s'), <- (stored_spec no_memo no_override s'); try done.
- apply HS'.
- by apply is_source_next.
Qed.

(** after a [get], the node is cached: a second read returns the same value and leaves the whole graph as it is, so no closure runs again. *)
Theorem get_cached s n v s' :
reachable s → is_source s n → get n s = Ok (v, s') → get_untracked n s' = Ok (v, s').
Proof.
intros Hr%reachable_SysInv Hn Hg.
destruct (read_SysInv n s Hr Hn) as (w & s1 & _ & Hg' & HS' & _ & Hv & Hc).
rewrite Hg in Hg'. simplify_eq.
destruct (read_clean s1 n HS' Hc) as (w' & Hw & Hr'). congruence.
Qed.

(** A write through either handle terminates and is visible at once: a read that follows it returns the value written. *)
Theorem set_then_get s n v :
reachable s → is_signal s n →
(∃ s1 s2, set_rw n v s = Ok (tt, s1) ∧ get n s1 = Ok (v, s2)) ∧
(∃ s1 s2, set_write n v s = Ok (tt, s1) ∧ get n s1 = Ok (v, s2)).
Proof.
intros HS%reachable_SysInv Hn.
assert (∀ s1, was_set n v s s1 → ∃ s2, get n s1 = Ok (v, s2)) as Hget.
{ intros s1 Hset. pose proof (write_SysInv _ _ _ _ HS Hset) as HS1.
  pose proof (set_marks _ _ _ _ Hset) as (u & b & Hu & Hm).
  destruct (read_clean s1 n) as (w & Hw & Hg); [done| |].
  { destruct (proj2 (keeps_is_signal _ _ n (keeps_set _ _ _ _ Hset)) Hn) as [u1 Hu1].
    unfold src_clean. by rewrite Hu1. }
  exists s1. rewrite (get_untracked_get n s1 HS1), Hg. do 2 f_equal.
  rewrite (marks_stored _ _ n Hm) in Hw. unfold stored in Hw. simpl in Hw.
  rewrite lookup_insert_eq in Hw. by simplify_eq. }
destruct (set_rw_ok n v s (sys_inv _ HS) Hn) as (s1 & H1 & Hset1).
destruct (set_write_ok n v s (sys_inv _ HS) Hn) as (s2 & H2 & Hset2).
destruct (Hget _ Hset1), (Hget _ Hset2). eauto 10.
Qed.

(** C23: an effect that is not dirty is subscribed to every source it has read, so that a write to any of them through either handle wakes it: its task is scheduled and it will run. *)
Theorem set_wakes_effects s n v y e :
reachable s → is_signal s n → effect_at s y e → n ∈ iset_elems (eff_sources e) →
eff_dirty e = false →
∀ set, set = set_rw (iset := iset) ∨ set = set_write →
∃ s' e', set n v s = Ok (tt, s') ∧ effect_at s' y e' ∧
  eff_set e' = true ∧ eff_dirty e' = true.
Proof.
intros HS%reachable_SysInv Hn He Hsrc Hd.
destruct (inv_eff _ _ _ (sys_inv _ HS) y e n He Hsrc) as [_ [?|Hsub]]; [congruence|].
assert (∀ s', was_set n v s s' → ∃ e', effect_at s' y e' ∧ eff_set e' = true ∧
  eff_dirty e' = true) as Hwake.
{ intros s' Hset. destruct (keeps_effect _ _ _ _ (keeps_set _ _ _ _ Hset) He)
    as (e' & He' & _). exists e'. split; [done|].
  by apply (set_notified _ _ _ _ Hset y (NEffect e')). }
intros set [-> | ->].
- destruct (set_rw_ok n v s (sys_inv _ HS) Hn) as (s' & ? & Hset).
  destruct (Hwake s' Hset) as (e' & ? & ?). eauto.
- destruct (set_write_ok n v s (sys_inv _ HS) Hn) as (s' & ? & Hset).
  destruct (Hwake s' Hset) as (e' & ? & ?). eauto.
Qed.

(** As long as no effect is ever paused, an effect whose task is idle is not dirty and is subscribed to all its sources: no change of theirs can be lost. *)
Theorem idle_effect_subscribed s y e :
reachable_active s → effect_at s y e → eff_set e = false →
eff_dirty e = false ∧ ∀ x, x ∈ iset_elems (eff_sources e) → subscribed s x y.
Proof.
intros (HS & _ & Hsch)%reachable_active_ok He Hset.
assert (eff_dirty e = false) as Hd.
{ destruct (eff_dirty e) eqn:E; [|done]. specialize (Hsch y e He E). congruence. }
split; [done|]. intros x Hx.
destruct (inv_eff _ _ _ (sys_inv _ HS) y e x He Hx) as [_ [?|?]]; [congruence|done].
Qed.

(** C22: one poll of a dirty effect that only reads runs its closure on fresh values: it stores what the closure computes from the recomputed values of its sources, with none of them stale, and it is then recorded as a reader of every node it read. *)
Theorem poll_runs_fresh s n e :
reachable s → effect_at s n e → eff_set e = true → eff_dirty e = true →
eff_paused e = false →
pure_in (λ x, x < n ∧ is_source s x) (eff_fun e (eff_value e)) →
∃ v s' e', effect_poll n s = Ok (true, s') ∧ effect_at s' n e' ∧ eff_value e' = Some v ∧
  eval_comp (spec_value (next s) s) (eff_fun e (eff_value e)) = Some v ∧
  ∀ x, x ∈ reads (spec_value (next s) s) (eff_fun e (eff_value e)) → has_source s' n x.
Proof.
intros HS%reachable_SysInv Hn Hset Hd Hp Hpure.
rewrite (poll_set n e s Hn Hset), Hp. set (e1 := eff_with_set false e).
set (s1 := put_node n (NEffect e1) s).
assert (effect_at s1 n e1) as Hn1 by (apply put_effect_at; by left).
pose proof (put_effect_SysInv n e e1 s Hn eq_refl eq_refl eq_refl HS) as [HI1 Ho1 Hwe1].
fold s1 in HI1, Ho1, Hwe1.
rewrite (bind_Ok _ _ _ _ _ (update_dirty_effect n e1 s1 Hn1 Hd Ho1)). rewrite orb_true_l.
set (e2 := eff_with_dirty false e1). set (s2 := put_node n (NEffect e2) s1).
assert (effect_at s2 n e2) as Hn2 by (apply put_effect_at; by left).
assert (same_inputs s s2) as Hsi.
{ etrans; eapply put_effect_same_inputs; done. }
destruct (effect_run_pure n e2 s2 Hn2) as (v & s' & e' & Hr & _ & He' & Hv & Hev & Hreads).
- eapply put_effect_Inv_but; [done|]. by apply Inv_but_of.
- done.
- eapply pure_in_mono; [|exact Hpure]. intros x [? ?]. split; [done|].
  by apply (same_inputs_is_source s s2).
- assert (∀ x, spec_value (next s2) s2 x = spec_value (next s) s x) as Hspec.
  { intros x. by apply spec_value_inputs. }
  destruct (eval_comp_ext (spec_value (next s2) s2) (spec_value (next s) s)
    (eff_fun e2 (eff_value e2))) as [He2 Hr2]; [auto|].
  exists v, s', e'. split_and!; [by step_with Hr|done|done| |].
  + by rewrite <- Hev, He2.
  + intros x Hx. apply Hreads. by rewrite Hr2.
Qed.

(** C21: no operation of a program gets stuck: from every reachable graph, writes through both handles, reads and polls of effects terminate within the fuel given by the number of nodes and never panic. *)
Theorem operations_total s :
reachable s →
(∀ n v, is_signal s n → ∃ s', set_rw n v s = Ok (tt, s')) ∧
(∀ n v, is_signal s n → ∃ s', set_write n v s = Ok (tt, s')) ∧
(∀ n, is_source s n → ∃ v s', get n s = Ok (v, s') ∧ get_untracked n s = Ok (v, s')) ∧
(∀ n, ∃ b s', effect_poll n s = Ok (b, s')).
Proof.
intros HS%reachable_SysInv. split_and!.
- intros n v Hn. destruct (set_rw_ok n v s (sys_inv _ HS) Hn) as (s' & ? & _). eauto.
- intros n v Hn. destruct (set_write_ok n v s (sys_inv _ HS) Hn) as (s' & ? & _). eauto.
- intros n Hn. destruct (read_SysInv n s HS Hn) as (v & s' & ? & ? & _). eauto.
- intros n. destruct (poll_ok n s HS) as (b & s' & ? & _). eauto.
Qed.

(** C14: in every reachable graph a memo that is clean holds the recomputed value, all its sources are clean and subscribed to by it, and the subscribers of a memo that is not clean are not clean. *)
Theorem graph_invariant s n m :
reachable s → memo_at s n m →
(memo_state m = Clean → memo_value m = spec_value (next s) s n ∧
  ∀ x, x ∈ iset_elems (memo_sources m) → src_clean s x ∧ subscribed s x n) ∧
(memo_state m ≠ Clean → ∀ y my, subscribed s n y → memo_at s y my → memo_state my ≠ Clean).
Proof.
intros HS%reachable_SysInv Hn. pose proof (sys_inv _ HS) as HI. split.
- intros Hc. split.
  + rewrite <- (stored_spec no_memo no_override s HI (next s) n).
    * unfold stored. unfold memo_at in Hn. by rewrite Hn.
    * eapply wf_next; [|done]. by eapply lk_wf, inv_links.
    * unfold src_clean. unfold memo_at in Hn. by rewrite Hn.
  + intros x Hx. split; [by eapply clean_sources|].
    eapply (lk_link _ _ (inv_links _ _ _ HI)); [done| |done]. right. by rewrite Hc.
- intros Hc y my Hsub Hy.
  eapply (lk_closed _ _ (inv_links _ _ _ HI) n y my); [by intros []|by exists m|done|done].
Qed.
End reads.

(** ** The theorems on the demo program *)

Section witnesses.
Import Demo.

Lemma stale_reachable : reachable stale.
Proof. apply reachable_of_active, stale_active. Qed.
Lemma shown_reachable : reachable shown.
Proof. apply reachable_of_active, shown_active. Qed.

Lemma get_fresh_witness :
is_source stale 3 ∧
∃ v s', get 3 stale = Ok (v, s') ∧ spec_value (next stale) stale 3 = Some v ∧
  same_inputs stale s'.
Proof.
split; [vm_compute; exact I|].
apply (get_fresh stale 3 stale_reachable). vm_compute. exact I.
Defined.

Lemma get_cached_witness :
∃ s', get 3 stale = Ok (71, s') ∧ get_untracked 3 s' = Ok (71, s').
Proof.
exists (state_of (get 3) stale).
assert (get 3 stale = Ok (71, state_of (get 3) stale)) as Hg by (vm_compute; reflexivity).
split; [exact Hg|].
apply (get_cached stale 3 71); [exact stale_reachable|vm_compute; exact I|exact Hg].
Defined.

Lemma set_then_get_witness :
(∃ s1 s2, set_rw 0 9 stale = Ok (tt, s1) ∧ get 0 s1 = Ok (9, s2)) ∧
(∃ s1 s2, set_write 0 9 stale = Ok (tt, s1) ∧ get 0 s1 = Ok (9, s2)).
Proof.
apply (set_then_get stale 0 9 stale_reachable). eexists. vm_compute. reflexivity.
Defined.

(** An effect that reads the signal directly. *)
Definition watch_fun : comp nat nat := Get 0 (λ v, Return v).
Definition watching : G := state_of (effect_poll 1) (state_of (effect_new (λ _, watch_fun)) g1).

Lemma watching_active : reachable_active watching.
Proof.
assert (reachable_active g1) as H1.
{ eapply active_then; [apply rtc_refl|eapply (step_signal 4); vm_compute; reflexivity|done]. }
assert (reachable_active (state_of (effect_new (λ _, watch_fun)) g1)) as H2.
{ eapply active_then; [exact H1| |vm_compute; reflexivity].
  eapply (step_effect _ 1); [|unfold state_of; reflexivity].
  intros prev. apply safe_Get; [vm_compute; exact I|intros v; apply safe_Return]. }
eapply active_then; [exact H2| |vm_compute; reflexivity].
eapply (step_poll 1 true). vm_compute. reflexivity.
Qed.

Lemma watching_reachable : reachable watching.
Proof. apply reachable_of_active, watching_active. Qed.

Lemma set_wakes_effects_witness :
∃ s' e', set_write 0 9 watching = Ok (tt, s') ∧ effect_at s' 1 e' ∧
  eff_set e' = true ∧ eff_dirty e' = true.
Proof.
eapply (set_wakes_effects watching 0 9 1 _ watching_reachable).
- eexists. vm_compute. reflexivity.
- vm_compute. reflexivity.
- apply list_elem_of_here.
- reflexivity.
- by right.
Defined.

Lemma idle_effect_subscribed_witness : subscribed watching 0 1.
Proof.
eapply (idle_effect_subscribed watching 1 _ watching_active).
- vm_compute. reflexivity.
- reflexivity.
- apply list_elem_of_here.
Defined.

Definition woken : G := state_of (set_rw 0 9) watching.
Definition woken_effect : Effect nat (list_iset nat) :=
match nodes woken !! 1 with
| Some (NEffect e) => e
| _ => mkEffect false false iset_empty false None (λ _, watch_fun) false
end.

Lemma poll_runs_fresh_witness :
∃ v s' e', effect_poll 1 woken = Ok (true, s') ∧ effect_at s' 1 e' ∧ eff_value e' = Some v ∧
  eval_comp (spec_value (next woken) woken) (eff_fun woken_effect (eff_value woken_effect))
  = Some v ∧
  ∀ x, x ∈ reads (spec_value (next woken) woken)
    (eff_fun woken_effect (eff_value woken_effect)) → has_source s' 1 x.
Proof.
apply (poll_runs_fresh woken 1 woken_effect).
- eapply rtc_r; [exact watching_reachable|].
  eapply (step_set_rw 0 9); [eexists; vm_compute; reflexivity|vm_compute; reflexivity].
- vm_compute. reflexivity.
- reflexivity.
- reflexivity.
- reflexivity.
- apply pure_Get; [split; [lia|vm_compute; exact I]|intros v; apply pure_Return].
Defined.

Lemma operations_total_witness :
∃ b s', effect_poll 4 stale = Ok (b, s').
Proof. apply (operations_total stale stale_reachable). Defined.

Lemma graph_invariant_witness :
∃ m, memo_at shown 3 m ∧ memo_value m = spec_value (next shown) shown 3.
Proof.
eexists. split; [vm_compute; reflexivity|].
eapply (graph_invariant shown 3 _ shown_reachable); vm_compute; reflexivity.
Defined.
End witnesses.

(** * Updates that do not arrive

    Three cases in which the graph, working exactly as its invariant says,
    does not deliver what its documentation promises.  Each is a program that
    the model runs. *)

Import Demo.

Definition effect_of (n : nat) (s : G) : option (Effect nat (list_iset nat)) :=
  match nodes s !! n with Some (NEffect e) => Some e | _ => None end.

(** ** An effect that reads a derived memo before its base *)

Module BaseAndDerived.
Definition base_fun : comp nat nat := Get 0 (λ v, Return v).
Definition derived_fun : comp nat nat := Get 1 (λ v, Return (if 100 <? v then 1 else 0)).
(** reads the derived memo, then the base memo *)
Definition both_fun : comp nat nat := Get 2 (λ _, Get 1 (λ v, Return v)).

Definition p1 : G := state_of (signal_new 1) init.
Definition p2 : G := state_of (memo_new (λ _, base_fun)) p1.
Definition p3 : G := state_of (memo_new (λ _, derived_fun)) p2.
Definition p4 : G := state_of (effect_new (λ _, both_fun)) p3.
Definition p5 : G := state_of (effect_poll 3) p4.
Definition p6 : G := state_of (set_rw 0 2) p5.
(** the first poll updates the base memo, which wakes the effect once more *)
Definition p7 : G := state_of (effect_poll 3) p6.
Definition p8 : G := state_of (effect_poll 3) p7.

Lemma p8_active : reachable_active p8.
Proof.
  assert (reachable_active p1) as H1.
  { eapply active_then; [apply rtc_refl|eapply (step_signal 1); vm_compute; reflexivity|done]. }
  assert (reachable_active p2) as H2.
  { eapply active_then; [exact H1| |vm_compute; reflexivity].
    eapply (step_memo _ 1); [|unfold p2, state_of; reflexivity].
    apply memo_new_pure. pure_closure. }
  assert (reachable_active p3) as H3.
  { eapply active_then; [exact H2| |vm_compute; reflexivity].
    eapply (step_memo _ 2); [|unfold p3, state_of; reflexivity].
    apply memo_new_pure. pure_closure. }
  assert (reachable_active p4) as H4.
  { eapply active_then; [exact H3| |vm_compute; reflexivity].
    eapply (step_effect _ 3); [|unfold p4, state_of; reflexivity].
    intros prev. repeat first [apply safe_Return | apply safe_Get; [vm_compute; exact I|intros ?]]. }
  assert (reachable_active p5) as H5.
  { eapply active_then; [exact H4|eapply (step_poll 3 true); vm_compute; reflexivity|done]. }
  assert (reachable_active p6) as H6.
  { eapply active_then; [exact H5| |vm_compute; reflexivity].
    eapply (step_set_rw 0 2); [eexists; vm_compute; reflexivity|vm_compute; reflexivity]. }
  assert (reachable_active p7) as H7.
  { eapply active_then; [exact H6|eapply (step_poll 3 false); vm_compute; reflexivity|done]. }
  eapply active_then; [exact H7|eapply (step_poll 3 false); vm_compute; reflexivity|done].
Qed.
End BaseAndDerived.

(** An update of a memo can be missed by an effect that reads it: some program without pauses reaches a graph in which an effect is idle and not dirty although the value it computed differs from what its closure computes from the current values, because the poll updated the memo as the observer of the poll and then found the derived memo unchanged. *)
Theorem effect_misses_base_memo :
  ∃ (s : G) n e, reachable_active s ∧ effect_at s n e ∧
    eff_set e = false ∧ eff_dirty e = false ∧
    eff_value e = Some 1 ∧
    eval_comp (spec_value (next s) s) (eff_fun e None) = Some 2.
Proof.
  exists BaseAndDerived.p8, 3. destruct (effect_of 3 BaseAndDerived.p8) as [e|] eqn:E;
    [|by vm_compute in E].
  exists e. split; [exact BaseAndDerived.p8_active|].
  vm_compute in E. injection E as <-. split_and!; vm_compute; reflexivity.
Qed.

(** ** A nested [untrack] *)

Module NestedUntrack.
Definition q1 : G := state_of (signal_new 4) init.
Definition q2 : G := state_of (effect_new (λ _, watch_fun)) q1.

(** [with_observer_untracked(|| { signal.track() })] *)
Definition plain : stateM G unit := with_observer_untracked (Some 1) (track 0).
(** the same after an [untrack] inside of it *)
Definition nested : stateM G unit :=
  with_observer_untracked (Some 1) (_ ← untrack (mret tt); track 0).
End NestedUntrack.

(** Reads under [with_observer_untracked] are not tracked, but once an [untrack] has ended inside of it they are: the guard restores the observer without its untracked flag. *)
Theorem nested_untrack_tracks :
  has_source (state_of NestedUntrack.nested NestedUntrack.q2) 1 0 ∧
  ¬ has_source (state_of NestedUntrack.plain NestedUntrack.q2) 1 0.
Proof.
  split.
  - eexists. split; [vm_compute; reflexivity|]. vm_compute. apply list_elem_of_here.
  - intros (nd & Hnd & Hx). vm_compute in Hnd. injection Hnd as <-.
    vm_compute in Hx. by apply not_elem_of_nil in Hx.
Qed.

(** ** An effect that is notified while it is paused *)

Module PausedEffect.
Definition r1 : G := state_of (effect_set_paused true 1) watching.
Definition r2 : G := state_of (set_write 0 5) r1.
Definition r3 : G := state_of (effect_poll 1) r2.
(** after the effect is resumed *)
Definition r4 : G := state_of (effect_set_paused false 1) r3.
(** after it would be notified again *)
Definition r5 : G := state_of (set_write 0 6) r4.

Lemma then_step (s s' : G) : reachable s → step s s' → reachable s'.
Proof. intros Hr Hst. by eapply rtc_r. Qed.

Lemma r5_reachable : reachable r5.
Proof.
  assert (reachable r1) as H1.
  { eapply then_step; [exact watching_reachable|]. eapply (step_set_paused true 1).
    vm_compute. reflexivity. }
  assert (reachable r2) as H2.
  { eapply then_step; [exact H1|]. eapply (step_set_write 0 5);
      [eexists; vm_compute; reflexivity|vm_compute; reflexivity]. }
  assert (reachable r3) as H3.
  { eapply then_step; [exact H2|]. eapply (step_poll 1 false). vm_compute. reflexivity. }
  assert (reachable r4) as H4.
  { eapply then_step; [exact H3|]. eapply (step_set_paused false 1). vm_compute. reflexivity. }
  eapply then_step; [exact H4|]. eapply (step_set_write 0 6);
    [eexists; vm_compute; reflexivity|vm_compute; reflexivity].
Qed.
End PausedEffect.

(** An effect that a write through an [ArcWriteSignal] notifies while it is paused is lost: after it is resumed, a further write to the signal it read neither schedules it nor reaches it, and it keeps its stale value. *)
Theorem paused_effect_is_lost :
  ∃ (s : G) e, reachable s ∧ effect_at s 1 e ∧ 0 ∈ iset_elems (eff_sources e) ∧
    eff_paused e = false ∧ eff_set e = false ∧ ¬ subscribed s 0 1 ∧
    eff_value e = Some 4 ∧ stored s 0 = Some 6.
Proof.
  exists PausedEffect.r5. destruct (effect_of 1 PausedEffect.r5) as [e|] eqn:E;
    [|by vm_compute in E].
  exists e. split; [exact PausedEffect.r5_reachable|].
  vm_compute in E. injection E as <-. split_and!; try (vm_compute; reflexivity).
  - vm_compute. apply list_elem_of_here.
  - intros (nd & Hnd & Hx). vm_compute in Hnd. injection Hnd as <-.
    vm_compute in Hx. by apply not_elem_of_nil in Hx.
Qed.
