(* ===== verification/SlotMaps.v ===== *)
(** * Growable vectors and slot maps

    Two data structures that the owner tree is built on.  [vec] is the
    standard library's [Vec] with its capacity, which decides when an owner
    prunes its lists.  [SlotMap] is the interface of the [slotmap] crate, which
    is not part of this repository: a map whose keys are chosen by [insert] and
    never chosen twice. *)

From stdpp Require Import base list gmap.
From S2P Require Import Prelude.

(** ** [Vec] *)

Record vec (A : Type) := mkVec {
  vec_list : list A;
  vec_cap : nat;
}.
Arguments mkVec {_} _ _.
Arguments vec_list {_} _.
Arguments vec_cap {_} _.

Section vec.
Context {A : Type}.

(** [Vec::default], [mem::take] *)
Definition vec_empty : vec A := mkVec [] 0.

(** [RawVec::grow_amortized], for elements of at most 1024 bytes *)
Definition vec_grow (cap required : nat) : nat := Nat.max (Nat.max (2 * cap) required) 4.

Definition vec_reserve (n : nat) (v : vec A) : vec A :=
  let len := length (vec_list v) in
  if vec_cap v - len <? n then mkVec (vec_list v) (vec_grow (vec_cap v) (len + n)) else v.

Definition vec_push (x : A) (v : vec A) : vec A :=
  let v := vec_reserve 1 v in @mkVec A (vec_list v ++ [x]) (vec_cap v).

Definition vec_retain (p : A → bool) (v : vec A) : vec A :=
  mkVec (filter (λ x, p x = true) (vec_list v)) (vec_cap v).

Lemma vec_reserve_list n v : vec_list (vec_reserve n v) = vec_list v.
Proof. unfold vec_reserve. by case_match. Qed.

Lemma vec_push_list x v : vec_list (vec_push x v) = vec_list v ++ [x].
Proof. unfold vec_push. simpl. by rewrite vec_reserve_list. Qed.

(** The length never exceeds the capacity. *)
Definition vec_wf (v : vec A) : Prop := length (vec_list v) ≤ vec_cap v.

Lemma vec_reserve_wf n v :
  vec_wf v → vec_wf (vec_reserve n v) ∧
    length (vec_list v) + n ≤ vec_cap (vec_reserve n v).
Proof.
  unfold vec_wf, vec_reserve, vec_grow. intros Hv.
  destruct (Nat.ltb_spec (vec_cap v - length (vec_list v)) n); simpl; lia.
Qed.

Lemma vec_push_wf x v : vec_wf v → vec_wf (vec_push x v).
Proof.
  intros Hv. destruct (vec_reserve_wf 1 v Hv) as [_ Hc]. unfold vec_wf, vec_push. simpl.
  rewrite length_app, vec_reserve_list. simpl. lia.
Qed.

Lemma vec_retain_wf p v : vec_wf v → vec_wf (vec_retain p v).
Proof.
  unfold vec_wf, vec_retain. simpl. intros Hv.
  etrans; [apply length_filter|done].
Qed.
End vec.

(** ** [slotmap::SlotMap] *)

Class SlotMap (A M : Type) := {
  sm_default : M;
  (** the occupied slots *)
  sm_elems : M → gmap nat A;
  (** the keys handed out so far *)
  sm_issued : M → gset nat;
  sm_insert : A → M → (nat * M)%type;
  sm_remove : nat → M → (option A * M)%type;
  (** [get_mut] followed by an assignment *)
  sm_set : nat → A → M → M;
}.

Class SlotMapLaws (A M : Type) `{SlotMap A M} := {
  sm_default_elems : sm_elems sm_default = ∅;
  sm_elems_issued (m : M) n a : sm_elems m !! n = Some a → n ∈ sm_issued m;
  sm_insert_spec a (m : M) n m' :
    sm_insert a m = (n, m') →
    n ∉ sm_issued m ∧ sm_issued m' = {[n]} ∪ sm_issued m ∧
      sm_elems m' = <[n := a]> (sm_elems m);
  sm_remove_spec n (m : M) :
    (sm_remove n m).1 = sm_elems m !! n ∧
    sm_elems (sm_remove n m).2 = delete n (sm_elems m) ∧
    sm_issued (sm_remove n m).2 = sm_issued m;
  sm_set_spec n a (m : M) :
    is_Some (sm_elems m !! n) →
    sm_elems (sm_set n a m) = <[n := a]> (sm_elems m) ∧
    sm_issued (sm_set n a m) = sm_issued m;
}.

Definition sm_contains {A M} `{SlotMap A M} (n : nat) (m : M) : bool :=
  bool_decide (is_Some (sm_elems m !! n)).

(** An implementation that remembers the keys it has handed out. *)
Record used_map (A : Type) := mkUsed {
  um_map : gmap nat A;
  um_used : gset nat;
}.
Arguments mkUsed {_} _ _.
Arguments um_map {_} _.
Arguments um_used {_} _.

Definition um_issued {A} (m : used_map A) : gset nat := dom (um_map m) ∪ um_used m.

#[export] Instance used_map_SlotMap A : SlotMap A (used_map A) := {|
  sm_default := mkUsed ∅ ∅;
  sm_elems := um_map;
  sm_issued := um_issued;
  sm_insert a m :=
    let n := S (set_fold Nat.max 0 (um_issued m)) in
    (n, mkUsed (<[n := a]> (um_map m)) (um_used m));
  sm_remove n m := (um_map m !! n, mkUsed (delete n (um_map m)) (um_issued m));
  sm_set n a m := mkUsed (<[n := a]> (um_map m)) (um_used m);
|}.

Lemma set_fold_max_bound (X : gset nat) x : x ∈ X → x ≤ set_fold Nat.max 0 X.
Proof.
  apply (set_fold_ind_L (λ b X, x ∈ X → x ≤ b)); [set_solver|].
  intros y Y b Hy IH. rewrite elem_of_union, elem_of_singleton. intros [->|Hx]; [lia|].
  specialize (IH Hx). lia.
Qed.

#[export] Instance used_map_SlotMapLaws A : SlotMapLaws A (used_map A).
Proof.
  split; simpl.
  - done.
  - intros m n a Hn. unfold um_issued. apply elem_of_union_l, elem_of_dom. by eexists.
  - intros a m n m' [= <- <-]. split_and!; [|unfold um_issued; simpl; set_solver|done].
    intros Hn%set_fold_max_bound. lia.
  - intros n m. split_and!; [done..|]. unfold um_issued. simpl. set_solver.
  - intros n a m Hn. split; [done|]. unfold um_issued. simpl.
    rewrite dom_insert_L. apply elem_of_dom in Hn. set_solver.
Qed.
