(* ===== verification/Owner.v ===== *)
(** * The ownership tree

    Models [reactive_graph/src/owner.rs], [owner/context.rs], [owner/arena.rs],
    [owner/arena_item.rs] and [owner/storage.rs].  An owner is identified by
    the address of its [OwnerInner]; an [Arc] or [Weak] to it is that address,
    and an owner whose last [Arc] is gone is absent from [owners].  A cleanup
    function is a label: running it appends the label to [trace]. *)

From stdpp Require Import base gmap list strings.
From S2P Require Import Prelude SlotMaps.

(** [std::any::TypeId], of a named type or of an [Option]. *)
Inductive TypeId :=
| TNamed (name : string)
| TOption (t : TypeId).

#[global] Instance TypeId_eq_dec : EqDecision TypeId.
Proof. solve_decision. Defined.

Fixpoint TypeId_code (t : TypeId) : nat * string :=
  match t with TNamed name => (0, name) | TOption t => let c := TypeId_code t in (S c.1, c.2) end.
Fixpoint TypeId_decode (n : nat) (name : string) : TypeId :=
  match n with 0 => TNamed name | S n => TOption (TypeId_decode n name) end.

#[global] Program Instance TypeId_countable : Countable TypeId :=
  inj_countable' TypeId_code (λ c, TypeId_decode c.1 c.2) _.
Next Obligation. induction x as [|t IH]; simpl; [done|]. by rewrite IH. Qed.

(** A value of any type: [Box<dyn Any>] without its type. *)
Inductive value :=
| VBase (n : nat)
| VNone
| VSome (v : value).

(** An entry of the arena: [Box<dyn Any>] of a [T], or of a [SendWrapper<T>]
    made by some thread. *)
Record Boxed := mkBoxed {
  bx_type : TypeId;
  bx_wrapper : option nat;
  bx_value : value;
}.

Section owner.
Context {C M : Type} `{SlotMap Boxed M}.

Record OwnerInner := mkOwner {
  parent : option nat;
  onodes : vec nat;
  contexts : gmap TypeId value;
  cleanups : list C;
  children : vec nat;
  paused : bool;
}.

(** [OWNER] is the thread-local current owner, a weak reference. *)
Record runtime := mkRuntime {
  owners : gmap nat OwnerInner;
  OWNER : option nat;
  arena : M;
  trace : list C;
  next_owner : nat;
}.

Definition set_owners (f : gmap nat OwnerInner → gmap nat OwnerInner) (s : runtime) :=
  mkRuntime (f (owners s)) (OWNER s) (arena s) (trace s) (next_owner s).
Definition set_current (o : option nat) (s : runtime) :=
  mkRuntime (owners s) o (arena s) (trace s) (next_owner s).
Definition set_arena (m : M) (s : runtime) :=
  mkRuntime (owners s) (OWNER s) m (trace s) (next_owner s).
Definition set_trace (t : list C) (s : runtime) :=
  mkRuntime (owners s) (OWNER s) (arena s) t (next_owner s).

Definition with_children (v : vec nat) (i : OwnerInner) :=
  mkOwner (parent i) (onodes i) (contexts i) (cleanups i) v (paused i).
Definition with_nodes (v : vec nat) (i : OwnerInner) :=
  mkOwner (parent i) v (contexts i) (cleanups i) (children i) (paused i).
Definition with_contexts (g : gmap TypeId value) (i : OwnerInner) :=
  mkOwner (parent i) (onodes i) g (cleanups i) (children i) (paused i).
Definition with_cleanups (l : list C) (i : OwnerInner) :=
  mkOwner (parent i) (onodes i) (contexts i) l (children i) (paused i).
Definition with_paused (b : bool) (i : OwnerInner) :=
  mkOwner (parent i) (onodes i) (contexts i) (cleanups i) (children i) b.

Local Abbreviation M_ := (stateM runtime).

(** [Weak::upgrade] followed by a lock *)
Definition upgrade (o : nat) : M_ (option OwnerInner) := gets (λ s, owners s !! o).
Definition is_alive (s : runtime) (o : nat) : bool := bool_decide (is_Some (owners s !! o)).
Definition update_owner (f : OwnerInner → OwnerInner) (o : nat) : M_ unit :=
  modify (set_owners (alter f o)).

(** [Owner::current] *)
Definition current : M_ (option nat) :=
  gets (λ s, match OWNER s with
             | Some o => if is_alive s o then Some o else None
             | None => None
             end).

(** [OwnerInner::push_child] *)
Definition push_child (alive : nat → bool) (child : nat) (i : OwnerInner) : OwnerInner :=
  let v := children i in
  let v :=
    if negb (length (vec_list v) =? 0) && (length (vec_list v) =? vec_cap v) then
      let v := vec_retain alive v in vec_reserve (length (vec_list v)) v
    else v in
  with_children (vec_push child v) i.

Definition alloc_owner (i : OwnerInner) : M_ nat :=
  o ← gets next_owner;
  _ ← modify (λ s, mkRuntime (<[o := i]> (owners s)) (OWNER s) (arena s) (trace s) (S o));
  mret o.

(** [Owner::new] *)
Definition Owner_new : M_ nat :=
  parent ← current;
  this ← alloc_owner (mkOwner parent vec_empty ∅ [] vec_empty false);
  alive ← gets is_alive;
  _ ← match parent with
      | Some p => update_owner (push_child alive this) p
      | None => mret tt
      end;
  mret this.

(** [Owner::new_root] *)
Definition Owner_set (o : nat) : M_ unit := modify (set_current (Some o)).
Definition Owner_new_root : M_ nat :=
  this ← alloc_owner (mkOwner None vec_empty ∅ [] vec_empty false);
  _ ← Owner_set this;
  mret this.

(** [Owner::child]; the receiver holds a strong reference *)
Definition Owner_child (o : nat) : M_ nat :=
  i ← upgrade o;
  match i with
  | None => panics
  | Some i =>
      this ← alloc_owner (mkOwner (Some o) vec_empty ∅ [] vec_empty (paused i));
      alive ← gets is_alive;
      _ ← update_owner (push_child alive this) o;
      mret this
  end.

(** [Owner::parent] *)
Definition Owner_parent (o : nat) : M_ (option nat) :=
  gets (λ s, match owners s !! o with
             | Some i => match parent i with
                         | Some p => if is_alive s p then Some p else None
                         | None => None
                         end
             | None => None
             end).

(** [Owner::ancestry]: the loop over the parents *)
Fixpoint ancestry_loop (fuel : nat) (o : nat) : M_ (list nat) :=
  match fuel with
  | 0 => no_fuel
  | S fuel =>
      p ← Owner_parent o;
      match p with
      | None => mret []
      | Some p => l ← ancestry_loop fuel p; mret (p :: l)
      end
  end.
Definition ancestry (o : nat) : M_ (list nat) := ancestry_loop (S o) o.

(** [Owner::with] *)
Definition with_owner {A} (o : nat) (fun_ : M_ A) : M_ A :=
  prev ← gets OWNER;
  _ ← Owner_set o;
  val ← fun_;
  _ ← modify (set_current prev);
  mret val.

(** ** Cleanup *)

Definition run_cleanup (c : C) : M_ unit := modify (λ s, set_trace (trace s ++ [c]) s).
Definition arena_remove (n : nat) : M_ unit :=
  modify (λ s, set_arena (sm_remove n (arena s)).2 s).

(** [Cleanup::cleanup]: takes the three lists, then walks them. *)
Fixpoint cleanup (fuel : nat) (o : nat) : M_ unit :=
  match fuel with
  | 0 => no_fuel
  | S fuel =>
      i ← upgrade o;
      match i with
      | None => mret tt
      | Some i =>
          _ ← update_owner (λ i, with_cleanups [] (with_nodes vec_empty (with_children vec_empty i))) o;
          _ ← for_each (cleanup fuel) (vec_list (children i));
          _ ← for_each run_cleanup (cleanups i);
          for_each arena_remove (vec_list (onodes i))
      end
  end.

(** Children are allocated after their parents: see [wf_owners]. *)
Definition cleanup_fuel (s : runtime) : nat := S (next_owner s).
Definition Owner_cleanup (o : nat) : M_ unit := fuel ← gets cleanup_fuel; cleanup fuel o.

Definition with_cleanup {A} (o : nat) (fun_ : M_ A) : M_ A :=
  _ ← Owner_cleanup o; with_owner o fun_.

(** [OwnerInner::drop], when the last strong reference goes away: weak
    references to the owner itself can no longer be upgraded. *)
Definition drop_owner (o : nat) : M_ unit :=
  i ← upgrade o;
  match i with
  | None => mret tt
  | Some i =>
      _ ← modify (set_owners (delete o));
      _ ← for_each Owner_cleanup (vec_list (children i));
      _ ← for_each run_cleanup (cleanups i);
      for_each arena_remove (vec_list (onodes i))
  end.

(** [Owner::on_cleanup] *)
Definition on_cleanup (c : C) : M_ unit :=
  o ← current;
  match o with
  | Some o => update_owner (λ i, with_cleanups (cleanups i ++ [c]) i) o
  | None => mret tt
  end.

(** [Owner::unset]; the receiver is dropped by the caller *)
Definition unset (this : nat) : M_ unit :=
  o ← current;
  if decide (o = Some this) then modify (set_current None) else mret tt.
Definition unset_with_forced_cleanup (this : nat) : M_ unit :=
  _ ← unset this; Owner_cleanup this.

(** ** Pausing *)

(** The stack has its top at the head: [extend] pushes the last child last. *)
Fixpoint set_paused_loop (fuel : nat) (b : bool) (stack : list nat) : M_ unit :=
  match stack with
  | [] => mret tt
  | curr :: stack =>
      match fuel with
      | 0 => no_fuel
      | S fuel =>
          i ← upgrade curr;
          match i with
          | None => set_paused_loop fuel b stack
          | Some i =>
              _ ← update_owner (with_paused b) curr;
              set_paused_loop fuel b (rev (vec_list (children i)) ++ stack)
          end
      end
  end.

(** The number of references that a walk of the tree below [o] pops. *)
Fixpoint tree_size (fuel : nat) (g : gmap nat OwnerInner) (o : nat) : nat :=
  match fuel with
  | 0 => 1
  | S fuel =>
      match g !! o with
      | None => 1
      | Some i => S (sum_list_with (tree_size fuel g) (vec_list (children i)))
      end
  end.

Definition pause (o : nat) : M_ unit :=
  fuel ← gets (λ s, tree_size (S (next_owner s)) (owners s) o);
  set_paused_loop fuel true [o].
Definition resume (o : nat) : M_ unit :=
  fuel ← gets (λ s, tree_size (S (next_owner s)) (owners s) o);
  set_paused_loop fuel false [o].
Definition Owner_paused (o : nat) : M_ bool :=
  i ← upgrade o; match i with Some i => mret (paused i) | None => panics end.

(** ** Arena items *)

(** [Owner::register] *)
Definition register_node (live : nat → bool) (n : nat) (i : OwnerInner) : OwnerInner :=
  let v := onodes i in
  let v :=
    if negb (length (vec_list v) =? 0) && (length (vec_list v) =? vec_cap v)
    then vec_retain live v else v in
  with_nodes (vec_push n v) i.
Definition register (o n : nat) : M_ unit :=
  live ← gets (λ s n, sm_contains n (arena s));
  update_owner (register_node live n) o.

(** [ArenaItem::new_with_storage], with the wrapping of either storage *)
Definition ArenaItem_new (b : Boxed) : M_ nat :=
  n ← (λ s, let r := sm_insert b (arena s) in Ok (r.1, set_arena r.2 s));
  o ← current;
  _ ← match o with Some o => register o n | None => mret tt end;
  mret n.

Definition ArenaItem_dispose (n : nat) : M_ unit := arena_remove n.
Definition is_disposed (n : nat) : M_ bool := gets (λ s, negb (sm_contains n (arena s))).

(** [SyncStorage]: the value itself is in the arena. *)
Definition sync_wrap (t : TypeId) (v : value) : Boxed := mkBoxed t None v.
Definition sync_downcast (t : TypeId) (b : Boxed) : option value :=
  match bx_wrapper b with
  | None => if decide (bx_type b = t) then Some (bx_value b) else None
  | Some _ => None
  end.
Definition sync_try_with {U} (t : TypeId) (n : nat) (f : value → U) : M_ (option U) :=
  gets (λ s, f <$> (sm_elems (arena s) !! n ≫= sync_downcast t)).
Definition sync_try_set (t : TypeId) (n : nat) (v : value) : M_ (option value) :=
  m ← gets (λ s, sm_elems (arena s) !! n ≫= sync_downcast t);
  match m with
  | Some _ => _ ← modify (λ s, set_arena (sm_set n (sync_wrap t v) (arena s)) s); mret None
  | None => mret (Some v)
  end.
Definition sync_take (t : TypeId) (n : nat) : M_ (option value) :=
  m ← gets (λ s, sm_elems (arena s) !! n);
  match m with
  | None => mret None
  | Some b => _ ← arena_remove n; mret (sync_downcast t b)
  end.

(** [LocalStorage]: a [SendWrapper], which only its own thread may open.  The
    first component is false where opening it would panic. *)
Definition local_wrap (thread : nat) (t : TypeId) (v : value) : Boxed :=
  mkBoxed t (Some thread) v.
Definition local_downcast (t : TypeId) (b : Boxed) : option (nat * value) :=
  match bx_wrapper b with
  | Some owner => if decide (bx_type b = t) then Some (owner, bx_value b) else None
  | None => None
  end.
(** [SendWrapper::deref] and [SendWrapper::take] *)
Definition send_deref (thread : nat) (w : nat * value) : M_ value :=
  if decide (w.1 = thread) then mret w.2 else panics.
Definition local_try_with {U} (thread : nat) (t : TypeId) (n : nat) (f : value → U) :
    M_ (option U) :=
  m ← gets (λ s, sm_elems (arena s) !! n ≫= local_downcast t);
  match m with
  | None => mret None
  | Some w =>
      if decide (w.1 = thread) then v ← send_deref thread w; mret (Some (f v)) else mret None
  end.
Definition local_try_set (thread : nat) (t : TypeId) (n : nat) (v : value) : M_ (option value) :=
  m ← gets (λ s, sm_elems (arena s) !! n ≫= local_downcast t);
  match m with
  | Some w =>
      if decide (w.1 = thread) then
        _ ← modify (λ s, set_arena (sm_set n (local_wrap thread t v) (arena s)) s); mret None
      else mret (Some v)
  | None => mret (Some v)
  end.
Definition local_take (thread : nat) (t : TypeId) (n : nat) : M_ (option value) :=
  m ← gets (λ s, sm_elems (arena s) !! n);
  let valid := match m ≫= local_downcast t with
               | Some w => bool_decide (w.1 = thread) | None => false end in
  if negb valid then mret None
  else
    match m with
    | None => mret None
    | Some b =>
        _ ← arena_remove n;
        match local_downcast t b with
        | Some w => v ← send_deref thread w; mret (Some v)
        | None => mret None
        end
    end.

(** ** Contexts *)

Definition provide_context (o : nat) (t : TypeId) (v : value) : M_ unit :=
  update_owner (λ i, with_contexts (<[t := v]> (contexts i)) i) o.

(** The loop of [with_context]: the owner itself, then its parents. *)
Fixpoint with_context_loop {R} (fuel : nat) (o : nat) (t : TypeId) (cb : value → R) :
    M_ (option R) :=
  match fuel with
  | 0 => no_fuel
  | S fuel =>
      i ← upgrade o;
      match i with
      | None => mret None
      | Some i =>
          match contexts i !! t with
          | Some v => mret (Some (cb v))
          | None =>
              match parent i with
              | Some p => with_context_loop fuel p t cb
              | None => mret None
              end
          end
      end
  end.
Definition with_context {R} (o : nat) (t : TypeId) (cb : value → R) : M_ (option R) :=
  with_context_loop (S o) o t cb.
Definition use_context (o : nat) (t : TypeId) : M_ (option value) := with_context o t id.

Fixpoint take_context_loop (fuel : nat) (o : nat) (t : TypeId) : M_ (option value) :=
  match fuel with
  | 0 => no_fuel
  | S fuel =>
      i ← upgrade o;
      match i with
      | None => mret None
      | Some i =>
          match contexts i !! t with
          | Some v =>
              _ ← update_owner (λ i, with_contexts (delete t (contexts i)) i) o;
              mret (Some v)
          | None =>
              match parent i with
              | Some p => take_context_loop fuel p t
              | None => mret None
              end
          end
      end
  end.
Definition take_context (o : nat) (t : TypeId) : M_ (option value) := take_context_loop (S o) o t.

(** [cb] replaces the value and returns a result. *)
Fixpoint update_context_loop {R} (fuel : nat) (o : nat) (t : TypeId) (cb : value → value * R) :
    M_ (option R) :=
  match fuel with
  | 0 => no_fuel
  | S fuel =>
      i ← upgrade o;
      match i with
      | None => mret None
      | Some i =>
          match contexts i !! t with
          | Some v =>
              _ ← update_owner (λ i, with_contexts (<[t := (cb v).1]> (contexts i)) i) o;
              mret (Some (cb v).2)
          | None =>
              match parent i with
              | Some p => update_context_loop fuel p t cb
              | None => mret None
              end
          end
      end
  end.
Definition update_context {R} (o : nat) (t : TypeId) (cb : value → value * R) : M_ (option R) :=
  update_context_loop (S o) o t cb.

(** The queue of [find_context_in_children]. *)
Fixpoint find_context_loop (fuel : nat) (t : TypeId) (to_search : list nat) :
    M_ (option value) :=
  match to_search with
  | [] => mret None
  | next :: to_search =>
      match fuel with
      | 0 => no_fuel
      | S fuel =>
          child ← upgrade next;
          match child with
          | None => find_context_loop fuel t to_search
          | Some child =>
              match contexts child !! t with
              | Some v => mret (Some v)
              | None => find_context_loop fuel t (to_search ++ vec_list (children child))
              end
          end
      end
  end.
Definition find_context_in_children (o : nat) (t : TypeId) : M_ (option value) :=
  i ← upgrade o;
  match i with
  | None => panics
  | Some i =>
      fuel ← gets (λ s, tree_size (S (next_owner s)) (owners s) o);
      find_context_loop fuel t (vec_list (children i))
  end.

(** [use_context().unwrap_or_else(...)] is an [Option<T>] here, so that the
    type it looks up is [Option<T>]. *)
Definition use_context_bidirectional (o : nat) (t : TypeId) : M_ (option value) :=
  r ← use_context o (TOption t);
  match r with
  | Some (VSome v) => mret (Some v)
  | Some _ => mret None
  | None => find_context_in_children o t
  end.

(** The free functions go through the current owner. *)
Definition provide_context_current (t : TypeId) (v : value) : M_ unit :=
  o ← current; match o with Some o => provide_context o t v | None => mret tt end.
Definition use_context_current (t : TypeId) : M_ (option value) :=
  o ← current; match o with Some o => use_context o t | None => mret None end.
Definition take_context_current (t : TypeId) : M_ (option value) :=
  o ← current; match o with Some o => take_context o t | None => mret None end.
Definition update_context_current {R} (t : TypeId) (cb : value → value * R) : M_ (option R) :=
  o ← current; match o with Some o => update_context o t cb | None => mret None end.
End owner.

Arguments OwnerInner : clear implicits.
Arguments runtime : clear implicits.
