(* ===== verification/OwnerTree.v ===== *)
(** * The shape of the ownership tree

    Owners form a forest: children are younger than their parents and have one
    parent.  [cleanup] and [pause] act on exactly the descendants of an owner;
    the lemmas here give their effect on the whole runtime. *)

From stdpp Require Import base gmap list.
From S2P Require Import Prelude SlotMaps Owner.

Section tree.
Context {C M : Type} `{SlotMap Boxed M, !SlotMapLaws Boxed M}.
Local Abbreviation runtime := (runtime C M).
Local Abbreviation OwnerInner := (OwnerInner C).
Implicit Types (s : runtime) (g : gmap nat OwnerInner) (i : OwnerInner) (o c x : nat).

Definition kids i : list nat := vec_list (children i).

(** [x] is [o] or is below it, through owners that are alive. *)
Inductive desc g : nat → nat → Prop :=
| desc_here o : desc g o o
| desc_child o i c x : g !! o = Some i → c ∈ kids i → desc g c x → desc g o x.

Record wf_owners s : Prop := {
  wo_next o i : owners s !! o = Some i → o < next_owner s;
  wo_child o i c : owners s !! o = Some i → c ∈ kids i → o < c ∧ c < next_owner s;
  wo_nodup o i : owners s !! o = Some i → NoDup (kids i);
  wo_unique o1 i1 o2 i2 c : owners s !! o1 = Some i1 → owners s !! o2 = Some i2 →
    c ∈ kids i1 → c ∈ kids i2 → o1 = o2;
  wo_parent o i p : owners s !! o = Some i → parent i = Some p → p < o;
}.

Lemma desc_trans g a b c : desc g a b → desc g b c → desc g a c.
Proof. induction 1; [done|]. intros. econstructor; eauto. Qed.

Lemma desc_snoc g a x : desc g a x → x = a ∨ ∃ p i, desc g a p ∧ g !! p = Some i ∧ x ∈ kids i.
Proof.
  induction 1 as [|o i c x Ho Hc Hx IH]; [by left|]. right. destruct IH as [->|(p & j & Hp & Hj & Hx')].
  - exists o, i. split; [constructor|done].
  - exists p, j. split; [by econstructor|done].
Qed.

Lemma desc_le s a x : wf_owners s → desc (owners s) a x → a ≤ x.
Proof.
  intros Hwf. induction 1 as [|o i c x Ho Hc Hx IH]; [done|].
  destruct (wo_child _ Hwf o i c Ho Hc). lia.
Qed.

Lemma desc_comparable s a b x :
  wf_owners s → desc (owners s) a x → desc (owners s) b x →
  desc (owners s) a b ∨ desc (owners s) b a.
Proof.
  intros Hwf. revert a b. induction (lt_wf x) as [x _ IH]. intros a b Ha Hb.
  destruct (desc_snoc _ _ _ Ha) as [->|(p & i & Hp & Hi & Hx)]; [by right|].
  destruct (desc_snoc _ _ _ Hb) as [->|(q & j & Hq & Hj & Hx')]; [by left|].
  assert (p = q) as -> by by eapply (wo_unique _ Hwf).
  apply (IH q); [|done..]. by apply (wo_child _ Hwf q j x).
Qed.

(** The subtrees of two siblings are disjoint. *)
Lemma siblings_disjoint s o i c1 c2 x :
  wf_owners s → owners s !! o = Some i → c1 ∈ kids i → c2 ∈ kids i → c1 ≠ c2 →
  desc (owners s) c1 x → ¬ desc (owners s) c2 x.
Proof.
  intros Hwf Ho H1 H2 Hne Hx1 Hx2.
  assert (∀ c1 c2, c1 ∈ kids i → c2 ∈ kids i → c1 ≠ c2 → ¬ desc (owners s) c1 c2) as Hno.
  { clear -Hwf Ho. intros c1 c2 H1 H2 Hne Hd.
    destruct (desc_snoc _ _ _ Hd) as [->|(p & j & Hp & Hj & Hx)]; [done|].
    assert (p = o) as -> by by eapply (wo_unique _ Hwf).
    apply (desc_le s) in Hp; [|done]. destruct (wo_child _ Hwf o i c1 Ho H1). lia. }
  destruct (desc_comparable s c1 c2 x Hwf Hx1 Hx2) as [Hd|Hd]; by eapply Hno in Hd.
Qed.

(** The part of the forest below an owner determines its descendants. *)
Lemma desc_frame g g' o :
  (∀ x, desc g o x → g' !! x = g !! x) → ∀ x, desc g' o x ↔ desc g o x.
Proof.
  intros Hg x. split.
  - intros Hx. induction Hx as [|o i c x Ho Hc Hx IH]; [constructor|].
    rewrite Hg in Ho by constructor. econstructor; [done..|]. apply IH.
    intros y Hy. apply Hg. by econstructor.
  - intros Hx. induction Hx as [|o i c x Ho Hc Hx IH]; [constructor|].
    econstructor; [|done|].
    + rewrite Hg; [done|constructor].
    + apply IH. intros y Hy. apply Hg. by econstructor.
Qed.

(** ** What a cleanup runs *)

(** The cleanup functions below [o], those of the children first. *)
Fixpoint cleanup_log (fuel : nat) g o : list C :=
  match fuel with
  | 0 => []
  | S fuel =>
      match g !! o with
      | None => []
      | Some i => flat_map (cleanup_log fuel g) (kids i) ++ cleanups i
      end
  end.

Fixpoint cleanup_nodes (fuel : nat) g o : list nat :=
  match fuel with
  | 0 => []
  | S fuel =>
      match g !! o with
      | None => []
      | Some i => flat_map (cleanup_nodes fuel g) (kids i) ++ vec_list (onodes i)
      end
  end.

Lemma flat_map_ext_in {A B} (f f' : A → list B) (l : list A) :
  (∀ a, a ∈ l → f a = f' a) → flat_map f l = flat_map f' l.
Proof.
  induction l as [|a l IH]; intros Hf; [done|]. simpl. f_equal; [apply Hf; by left|].
  apply IH. intros b Hb. apply Hf. by right.
Qed.

Lemma cleanup_log_frame fuel g g' : ∀ o,
  (∀ x, desc g o x → g' !! x = g !! x) →
  cleanup_log fuel g' o = cleanup_log fuel g o ∧ cleanup_nodes fuel g' o = cleanup_nodes fuel g o.
Proof.
  induction fuel as [|fuel IH]; intros o Hg; [done|]. simpl.
  rewrite Hg by constructor. destruct (g !! o) as [i|] eqn:Ho; [|done].
  split; f_equal; apply flat_map_ext_in; intros c Hc; apply IH; intros x Hx; apply Hg;
    by econstructor.
Qed.

(** An owner after its cleanup: contexts, parent and pause flag stay. *)
Definition emptied i : OwnerInner :=
  with_cleanups [] (with_nodes vec_empty (with_children vec_empty i)).

(** Owners may go away and lose all their children. *)
Lemma wf_shrinks s s' :
  wf_owners s → next_owner s' = next_owner s →
  (∀ o i', owners s' !! o = Some i' → ∃ i, owners s !! o = Some i ∧
    parent i' = parent i ∧ (kids i' = kids i ∨ kids i' = [])) →
  wf_owners s'.
Proof.
  intros Hwf Hn Hback. split.
  - intros o i' Ho. destruct (Hback o i' Ho) as (i & Hi & _). rewrite Hn.
    by eapply (wo_next _ Hwf).
  - intros o i' c Ho Hc. destruct (Hback o i' Ho) as (i & Hi & _ & [Hk|Hk]); rewrite Hk in Hc.
    + rewrite Hn. by eapply (wo_child _ Hwf).
    + by apply not_elem_of_nil in Hc.
  - intros o i' Ho. destruct (Hback o i' Ho) as (i & Hi & _ & [->| ->]); [|constructor].
    by eapply (wo_nodup _ Hwf).
  - intros o1 i1' o2 i2' c H1 H2 Hc1 Hc2.
    destruct (Hback o1 i1' H1) as (i1 & Hi1 & _ & [Hk1|Hk1]); rewrite Hk1 in Hc1;
      [|by apply not_elem_of_nil in Hc1].
    destruct (Hback o2 i2' H2) as (i2 & Hi2 & _ & [Hk2|Hk2]); rewrite Hk2 in Hc2;
      [|by apply not_elem_of_nil in Hc2].
    by eapply (wo_unique _ Hwf).
  - intros o i' p Ho Hpar. destruct (Hback o i' Ho) as (i & Hi & He & _).
    eapply (wo_parent _ Hwf); [done|congruence].
Qed.

Lemma wf_pruned s s' :
  wf_owners s → next_owner s' = next_owner s →
  (∀ x, owners s' !! x = owners s !! x ∨ owners s' !! x = emptied <$> owners s !! x) →
  wf_owners s'.
Proof.
  intros Hwf Hn Hp. apply (wf_shrinks s); [done..|]. intros o i' Ho.
  destruct (Hp o) as [Hx|Hx]; rewrite Ho in Hx; [by eauto|].
  destruct (owners s !! o) as [i|]; [|done]. simplify_eq/=. eauto.
Qed.

(** The runtime after the subtrees of [l] in the forest [g] are cleaned. *)
Record cleaned (fuel : nat) g (l : list nat) s s' : Prop := {
  cln_trace : trace s' = trace s ++ flat_map (cleanup_log fuel g) l;
  cln_in x c : c ∈ l → desc g c x → owners s' !! x = emptied <$> owners s !! x;
  cln_out x : (∀ c, c ∈ l → ¬ desc g c x) → owners s' !! x = owners s !! x;
  cln_pruned x : owners s' !! x = owners s !! x ∨ owners s' !! x = emptied <$> owners s !! x;
  cln_arena n : sm_elems (arena s') !! n =
    if decide (n ∈ flat_map (cleanup_nodes fuel g) l) then None else sm_elems (arena s) !! n;
  cln_issued : sm_issued (arena s') = sm_issued (arena s);
  cln_current : OWNER s' = OWNER s;
  cln_next : next_owner s' = next_owner s;
}.

Lemma run_cleanups l : ∀ s,
  for_each run_cleanup l s = Ok (tt, set_trace (trace s ++ l) s).
Proof.
  induction l as [|c l IH]; intros s; simpl.
  - rewrite app_nil_r. by destruct s.
  - rewrite (bind_Ok _ _ s tt (set_trace (trace s ++ [c]) s)) by done.
    rewrite IH. simpl. by rewrite <- app_assoc.
Qed.

Lemma remove_nodes l : ∀ s, ∃ m,
  for_each arena_remove l s = Ok (tt, set_arena m s) ∧ sm_issued m = sm_issued (arena s) ∧
  ∀ n, sm_elems m !! n = if decide (n ∈ l) then None else sm_elems (arena s) !! n.
Proof.
  induction l as [|x l IH]; intros s.
  { exists (arena s). split_and!; [by destruct s|done|done]. }
  set (s1 := set_arena (sm_remove x (arena s)).2 s).
  destruct (IH s1) as (m & Hm & Hi & He). destruct (sm_remove_spec x (arena s)) as (_ & Hd & Hi').
  exists m. simpl. split_and!.
  - rewrite (bind_Ok _ _ s tt s1) by done. rewrite Hm. by destruct s.
  - by rewrite Hi.
  - intros n. rewrite He. unfold s1. simpl. rewrite Hd.
    destruct (decide (n = x)) as [->|Hne].
    + rewrite lookup_delete_eq. rewrite (decide_True (P := x ∈ x :: l)) by (by left).
      by case_decide.
    + rewrite lookup_delete_ne by done.
      destruct (decide (n ∈ l)) as [Hl|Hl].
      * by rewrite decide_True by (by right).
      * rewrite decide_False; [done|]. intros [?|?]%elem_of_cons; done.
Qed.

Lemma cleaned_nil fuel g s : cleaned fuel g [] s s.
Proof.
  split; simpl; try done.
  - by rewrite app_nil_r.
  - intros x c Hc. by apply not_elem_of_nil in Hc.
  - by left.
Qed.

(** One subtree, then the others, which are disjoint from it. *)
Lemma cleaned_cons fuel g c l s s1 s' :
  (∀ x, desc g c x → owners s !! x = g !! x) →
  (∀ x c', c' ∈ l → desc g c x → ¬ desc g c' x) →
  cleaned fuel (owners s) [c] s s1 → cleaned fuel g l s1 s' → cleaned fuel g (c :: l) s s'.
Proof.
  intros Hg Hdis [Ht1 Hin1 Hout1 Hp1 Ha1 Hi1 Hc1 Hn1] [Ht2 Hin2 Hout2 Hp2 Ha2 Hi2 Hc2 Hn2].
  destruct (cleanup_log_frame fuel g (owners s) c Hg) as [Hlog Hnodes].
  pose proof (desc_frame g (owners s) c Hg) as Hdesc.
  assert (∀ x, desc g c x → owners s' !! x = emptied <$> owners s !! x) as Hin.
  { intros x Hx. rewrite Hout2; [|by intros c' Hc' Hx'; eapply Hdis].
    apply (Hin1 x c); [by left|]. by apply Hdesc. }
  split.
  - rewrite Ht2, Ht1. simpl. by rewrite app_nil_r, Hlog, <- app_assoc.
  - intros x c' [->|Hc']%elem_of_cons Hx; [by apply Hin|].
    rewrite (Hin2 x c') by done. f_equal. apply Hout1.
    intros c0 ->%list_elem_of_singleton Hx0%Hdesc. by eapply Hdis.
  - intros x Hx. rewrite Hout2; [|intros c' Hc'; apply Hx; by right].
    apply Hout1. intros c0 ->%list_elem_of_singleton Hx0%Hdesc. eapply Hx; [by left|done].
  - intros x. destruct (Hp2 x) as [->| ->]; [apply Hp1|].
    destruct (Hp1 x) as [->| ->]; [by right|]. right. by destruct (owners s !! x).
  - intros n. rewrite Ha2, Ha1. simpl. rewrite app_nil_r, Hnodes.
    destruct (decide (n ∈ flat_map _ l)) as [Hl|Hl].
    + rewrite decide_True; [done|]. apply elem_of_app. by right.
    + destruct (decide (n ∈ cleanup_nodes fuel g c)) as [Hn|Hn].
      * rewrite decide_True; [done|]. apply elem_of_app. by left.
      * rewrite decide_False; [done|]. intros [?|?]%elem_of_app; done.
  - congruence.
  - congruence.
  - congruence.
Qed.

Lemma cleanup_ok fuel : ∀ o s,
  wf_owners s → next_owner s - o < fuel →
  ∃ s', cleanup fuel o s = Ok (tt, s') ∧ cleaned fuel (owners s) [o] s s'.
Proof.
  induction fuel as [|fuel IH]; intros o s Hwf Hf; [lia|]. simpl.
  rewrite (bind_Ok _ _ s (owners s !! o) s) by done.
  destruct (owners s !! o) as [i|] eqn:Ho.
  2:{ exists s. split; [done|]. split; simpl; rewrite ?Ho; try done.
      - by rewrite app_nil_r.
      - intros x c ->%list_elem_of_singleton Hx. inversion Hx; subst; [by rewrite Ho|congruence].
      - by left. }
  set (s1 := set_owners (alter emptied o) s).
  rewrite (bind_Ok _ _ s tt s1) by done.
  assert (∀ x, owners s1 !! x = if decide (x = o) then Some (emptied i) else owners s !! x) as Hs1.
  { intros x. unfold s1. simpl. case_decide as Hx; [subst; by rewrite lookup_alter_eq, Ho|].
    by rewrite lookup_alter_ne. }
  assert (∀ si, wf_owners s → next_owner si = next_owner s →
    (∀ x, owners si !! x = owners s !! x ∨ owners si !! x = emptied <$> owners s !! x) →
    wf_owners si) as Hwfi by (intros; by eapply wf_pruned).
  assert (∀ l si, (∀ c, c ∈ l → c ∈ kids i) → NoDup l → wf_owners si →
    next_owner si = next_owner s →
    (∀ c x, c ∈ l → desc (owners s) c x → owners si !! x = owners s !! x) →
    ∃ s', for_each (cleanup fuel) l si = Ok (tt, s') ∧ cleaned fuel (owners s) l si s') as Hloop.
  { induction l as [|c l IHl]; intros si Hl Hnd Hwsi Hnext Hsame.
    { exists si. split; [done|apply cleaned_nil]. }
    apply NoDup_cons in Hnd as [Hcl Hnd].
    destruct (wo_child _ Hwf o i c Ho) as [Hoc Hcn]; [apply Hl; by left|].
    destruct (IH c si) as (s2 & H2 & Hcln); [done|lia|].
    assert (∀ x c', c' ∈ l → desc (owners s) c x → ¬ desc (owners s) c' x) as Hdis.
    { intros x c' Hc' Hx. eapply (siblings_disjoint s o i c c'); [done|done|apply Hl; by left
        |apply Hl; by right|by intros ->|done]. }
    assert (∀ x, desc (owners s) c x → owners si !! x = owners s !! x) as Hsame_c.
    { intros x. apply Hsame. by left. }
    destruct (IHl s2) as (s' & H' & Hcln').
    - intros c' Hc'. apply Hl. by right.
    - done.
    - eapply wf_pruned; [exact Hwsi|by eapply cln_next|by eapply cln_pruned].
    - by rewrite (cln_next _ _ _ _ _ Hcln).
    - intros c' x Hc' Hx. rewrite (cln_out _ _ _ _ _ Hcln); [apply (Hsame c'); [by right|done]|].
      intros c0 ->%list_elem_of_singleton Hx0.
      apply (desc_frame (owners s) (owners si) c Hsame_c) in Hx0. by eapply Hdis.
    - exists s'. simpl. step_with H2. split; [done|]. by eapply cleaned_cons. }
  destruct (Hloop (kids i) s1) as (s2 & H2 & [Ht Hin Hout Hp Ha Hi Hcur Hn]).
  { done. } { by eapply (wo_nodup _ Hwf). }
  { apply Hwfi; [done|done|]. intros x. rewrite Hs1. case_decide as Hx; [subst; right; by rewrite Ho|by left]. }
  { done. }
  { intros c x Hc Hx. rewrite Hs1, decide_False; [done|]. intros ->.
    apply (desc_le s) in Hx; [|done]. destruct (wo_child _ Hwf o i c Ho Hc). lia. }
  step_with H2. rewrite (bind_Ok _ _ s2 _ _ (run_cleanups _ s2)).
  destruct (remove_nodes (vec_list (onodes i)) (set_trace (trace s2 ++ cleanups i) s2))
    as (m & Hm & Hmi & Hme).
  exists (set_arena m (set_trace (trace s2 ++ cleanups i) s2)). split; [done|].
  assert (∀ c, c ∈ kids i → ¬ desc (owners s) c o) as Hno.
  { intros c Hc Hx. apply (desc_le s) in Hx; [|done].
    destruct (wo_child _ Hwf o i c Ho Hc). lia. }
  split; simpl; rewrite ?Ho, ?app_nil_r.
  - rewrite Ht. simpl. by rewrite <- app_assoc.
  - intros x c ->%list_elem_of_singleton Hx. inversion Hx as [|o' i' c' x' Ho' Hc' Hx']; subst.
    + rewrite Hout, Hs1, decide_True by done. by rewrite Ho.
    + rewrite Ho in Ho'. simplify_eq. rewrite (Hin x c') by done. f_equal.
      rewrite Hs1, decide_False; [done|]. intros ->. by eapply Hno.
  - intros x Hx. specialize (Hx o ltac:(by left)).
    rewrite Hout.
    + rewrite Hs1, decide_False; [done|]. intros ->. apply Hx. constructor.
    + intros c Hc Hd. apply Hx. by econstructor.
  - intros x. assert (owners s1 !! x = owners s !! x ∨ owners s1 !! x = emptied <$> owners s !! x)
      as Hor.
    { rewrite Hs1. case_decide as Hx; [subst; right; by rewrite Ho|by left]. }
    destruct (Hp x) as [->| ->]; [done|]. right.
    destruct Hor as [->| ->]; [done|]. by destruct (owners s !! x).
  - intros n. rewrite Hme. simpl. rewrite Ha. simpl.
    destruct (decide (n ∈ vec_list (onodes i))) as [Hn1|Hn1].
    + rewrite decide_True; [done|]. apply elem_of_app. by right.
    + destruct (decide (n ∈ flat_map _ (kids i))) as [Hn2|Hn2].
      * rewrite decide_True; [done|]. apply elem_of_app. by left.
      * rewrite decide_False; [done|]. intros [?|?]%elem_of_app; done.
  - by rewrite Hmi.
  - done.
  - done.
Qed.
End tree.
