(* ===== verification/OwnerOps.v ===== *)
(** * Operations on the ownership tree

    The walks of the tree (pausing, searching contexts upwards and downwards)
    and the steps of a program that works with owners, all of which keep the
    tree well formed. *)

From stdpp Require Import base gmap list relations.
From S2P Require Import Prelude SlotMaps Owner OwnerTree.

Section ops.
Context {C M : Type} `{SlotMap Boxed M, !SlotMapLaws Boxed M}.
Local Abbreviation runtime := (runtime C M).
Local Abbreviation OwnerInner := (OwnerInner C).
Implicit Types (s : runtime) (g : gmap nat OwnerInner) (i : OwnerInner) (o c x p q : nat).

(** ** The number of references below an owner *)

Lemma sum_list_with_ext {A} (f f' : A → nat) (l : list A) :
  (∀ a, a ∈ l → f a = f' a) → sum_list_with f l = sum_list_with f' l.
Proof.
  induction l as [|a l IH]; intros Hf; [done|]. simpl. f_equal; [apply Hf; by left|].
  apply IH. intros b Hb. apply Hf. by right.
Qed.

Lemma tree_size_stable s o : wf_owners s → ∀ f f',
  next_owner s - o < f → next_owner s - o < f' →
  tree_size f (owners s) o = tree_size f' (owners s) o.
Proof.
  intros Hwf f. revert o. induction f as [|f IH]; intros o f' Hf Hf'; [lia|].
  destruct f' as [|f']; [lia|]. simpl. destruct (owners s !! o) as [i|] eqn:Ho; [|done].
  f_equal. apply sum_list_with_ext. intros c Hc.
  destruct (wo_child _ Hwf o i c Ho Hc). apply IH; lia.
Qed.

Lemma tree_size_unfold s o i :
  wf_owners s → owners s !! o = Some i →
  tree_size (S (next_owner s)) (owners s) o =
  S (sum_list_with (tree_size (S (next_owner s)) (owners s)) (kids i)).
Proof.
  intros Hwf Ho. simpl. rewrite Ho. f_equal. apply sum_list_with_ext. intros c Hc.
  destruct (wo_child _ Hwf o i c Ho Hc).
  pose proof (tree_size_stable s c Hwf (next_owner s) (S (next_owner s))) as Hst.
  simpl in Hst. apply Hst; lia.
Qed.

Lemma tree_size_pos f g o : 1 ≤ tree_size f g o.
Proof. destruct f; simpl; [done|]. case_match; lia. Qed.

Lemma sum_list_with_rev {A} (f : A → nat) (l : list A) :
  sum_list_with f (rev l) = sum_list_with f l.
Proof.
  induction l as [|a l IH]; [done|]. simpl. rewrite sum_list_with_app, IH. simpl. lia.
Qed.

Lemma desc_inv g o x :
  desc g o x → x = o ∨ ∃ i c, g !! o = Some i ∧ c ∈ kids i ∧ desc g c x.
Proof. intros Hx. inversion Hx; subst; [by left|]. right. eauto. Qed.

(** ** Pausing *)

(** The owners below [l] have their flag set, nothing else changes. *)
Record paused_below (b : bool) g (l : list nat) s s' : Prop := {
  pb_in o x : o ∈ l → desc g o x → owners s' !! x = with_paused b <$> owners s !! x;
  pb_out x : (∀ o, o ∈ l → ¬ desc g o x) → owners s' !! x = owners s !! x;
  pb_or x : owners s' !! x = owners s !! x ∨ owners s' !! x = with_paused b <$> owners s !! x;
  pb_current : OWNER s' = OWNER s;
  pb_arena : arena s' = arena s;
  pb_trace : trace s' = trace s;
  pb_next : next_owner s' = next_owner s;
}.

Lemma set_paused_loop_ok b s0 : wf_owners s0 → ∀ fuel stack s,
  sum_list_with (tree_size (S (next_owner s0)) (owners s0)) stack ≤ fuel →
  (∀ x, kids <$> owners s !! x = kids <$> owners s0 !! x) →
  ∃ s', set_paused_loop fuel b stack s = Ok (tt, s') ∧
    paused_below b (owners s0) stack s s'.
Proof.
  intros Hwf fuel. induction fuel as [|fuel IH]; intros stack s Hf Hk.
  { destruct stack as [|o stack].
    - exists s. split; [done|]. split; try done; [|by left].
      intros o x Ho. by apply not_elem_of_nil in Ho.
    - simpl in Hf. case_match; lia. }
  destruct stack as [|o stack].
  { exists s. split; [done|]. split; try done; [|by left].
    intros o x Ho. by apply not_elem_of_nil in Ho. }
  simpl set_paused_loop. rewrite (bind_Ok _ _ s (owners s !! o) s) by done.
  cbn [sum_list_with] in Hf. pose proof (Hk o) as Hko.
  destruct (owners s !! o) as [i|] eqn:Ho.
  - destruct (owners s0 !! o) as [i0|] eqn:Ho0; [|done]. simpl in Hko. injection Hko as Hki.
    rewrite (tree_size_unfold s0 o i0) in Hf by done.
    set (s1 := set_owners (alter (with_paused b) o) s).
    rewrite (bind_Ok _ _ s tt s1) by done.
    assert (∀ x, owners s1 !! x = if decide (x = o) then with_paused b <$> owners s !! x
      else owners s !! x) as Hs1.
    { intros x. unfold s1. simpl. case_decide as Hx; [subst; by rewrite lookup_alter_eq|].
      by rewrite lookup_alter_ne. }
    destruct (IH (rev (vec_list (children i)) ++ stack) s1) as (s' & Hs' & [Hin Hout Hor Hc Ha Ht Hn]).
    { rewrite sum_list_with_app, sum_list_with_rev. change (vec_list (children i)) with (kids i).
      rewrite Hki. lia. }
    { intros x. rewrite Hs1. case_decide; [subst|apply Hk].
      rewrite <- Hk. by destruct (owners s !! o). }
    assert (∀ x, owners s1 !! x = owners s !! x ∨
      owners s1 !! x = with_paused b <$> owners s !! x) as Hor1.
    { intros x. rewrite Hs1. case_decide; auto. }
    assert (∀ x, with_paused b <$> owners s1 !! x = with_paused b <$> owners s !! x) as Hidem.
    { intros x. destruct (Hor1 x) as [->| ->]; [done|]. by destruct (owners s !! x). }
    exists s'. split; [done|]. split; try done.
    + intros o' x Ho' Hx. apply elem_of_cons in Ho' as [->|Ho'].
      * apply desc_inv in Hx as [->|(i1 & c & Ho1 & Hc1 & Hx1)].
        -- destruct (Hor o) as [->| ->]; [by rewrite Hs1, decide_True|apply Hidem].
        -- rewrite Ho0 in Ho1. simplify_eq. rewrite (Hin c x); [apply Hidem| |done].
           apply elem_of_app. left. change (vec_list (children i)) with (kids i). rewrite Hki.
           by apply list_elem_of_In, in_rev; rewrite rev_involutive; apply list_elem_of_In.
      * rewrite (Hin o' x); [apply Hidem| |done]. apply elem_of_app. by right.
    + intros x Hx. rewrite Hout.
      * rewrite Hs1, decide_False; [done|]. intros ->. eapply Hx; [by left|constructor].
      * intros c Hc' Hd. apply elem_of_app in Hc' as [Hc'|Hc'].
        -- eapply Hx; [by left|]. econstructor; [done| |done].
           apply list_elem_of_In, in_rev, list_elem_of_In in Hc'.
           change (vec_list (children i)) with (kids i) in Hc'. by rewrite Hki in Hc'.
        -- eapply Hx; [by right|done].
    + intros x. destruct (Hor x) as [->| ->]; [apply Hor1|right; apply Hidem].
  - destruct (owners s0 !! o) as [i0|] eqn:Ho0; [done|].
    pose proof (tree_size_pos (S (next_owner s0)) (owners s0) o).
    destruct (IH stack s) as (s' & Hs' & [Hin Hout Hor Hc Ha Ht Hn]); [lia|done|].
    exists s'. split; [done|]. split; try done.
    + intros o' x [->|Ho']%elem_of_cons Hx; [|by eapply Hin].
      apply desc_inv in Hx as [->|(i1 & c & Ho1 & _)]; [|congruence].
      destruct (Hor o) as [->| ->]; by rewrite Ho.
    + intros x Hx. apply Hout. intros o' Ho'. apply Hx. by right.
Qed.

Lemma set_paused_ok b o s :
  wf_owners s →
  ∃ s', set_paused_loop (tree_size (S (next_owner s)) (owners s) o) b [o] s = Ok (tt, s') ∧
    paused_below b (owners s) [o] s s'.
Proof.
  intros Hwf. apply set_paused_loop_ok; [done| |done]. simpl. case_match; lia.
Qed.

(** ** Searching contexts *)

(** The nearest provider of [t] at or above [o]. *)
Inductive resolves g (t : TypeId) : nat → nat → value → Prop :=
| res_here o i v : g !! o = Some i → contexts i !! t = Some v → resolves g t o o v
| res_up o i p q v : g !! o = Some i → contexts i !! t = None → parent i = Some p →
    resolves g t p q v → resolves g t o q v.

Lemma resolves_fun g t o q v q' v' : resolves g t o q v → resolves g t o q' v' → q = q' ∧ v = v'.
Proof.
  intros Hr. revert q' v'. induction Hr as [o i v Ho Hv|o i p q v Ho Hv Hp Hr IH];
    intros q' v' Hr'; inversion Hr'; simplify_eq; auto.
Qed.

Lemma with_context_ok {R} t (cb : value → R) s : wf_owners s → ∀ fuel o, o < fuel →
  ∃ r, with_context_loop fuel o t cb s = Ok (r, s) ∧
    match r with
    | Some a => ∃ q v, resolves (owners s) t o q v ∧ a = cb v
    | None => ∀ q v, ¬ resolves (owners s) t o q v
    end.
Proof.
  intros Hwf fuel. induction fuel as [|fuel IH]; intros o Hf; [lia|]. simpl.
  rewrite (bind_Ok _ _ s (owners s !! o) s) by done.
  destruct (owners s !! o) as [i|] eqn:Ho.
  2:{ exists None. split; [done|]. intros q v Hr. inversion Hr; simplify_eq. }
  destruct (contexts i !! t) as [v|] eqn:Hv.
  { exists (Some (cb v)). split; [done|]. exists o, v. split; [by econstructor|done]. }
  destruct (parent i) as [p|] eqn:Hp.
  2:{ exists None. split; [done|]. intros q v Hr. inversion Hr; simplify_eq. }
  pose proof (wo_parent _ Hwf o i p Ho Hp). destruct (IH p) as (r & Hr & Hspec); [lia|].
  exists r. split; [done|]. destruct r as [a|].
  - destruct Hspec as (q & v & Hres & ->). exists q, v. split; [by econstructor|done].
  - intros q v Hres. inversion Hres; simplify_eq. by eapply Hspec.
Qed.

Lemma use_context_ok o t s : wf_owners s →
  ∃ r, use_context o t s = Ok (r, s) ∧
    match r with
    | Some v => ∃ q, resolves (owners s) t o q v
    | None => ∀ q v, ¬ resolves (owners s) t o q v
    end.
Proof.
  intros Hwf. destruct (with_context_ok t id s Hwf (S o) o) as (r & Hr & Hspec); [lia|].
  exists r. split; [done|]. destruct r as [v|]; [|done].
  destruct Hspec as (q & w & Hq & ->). by exists q.
Qed.

Lemma use_context_resolves o t q v s :
  wf_owners s → resolves (owners s) t o q v → use_context o t s = Ok (Some v, s).
Proof.
  intros Hwf Hr. destruct (use_context_ok o t s Hwf) as (r & Hu & Hspec). rewrite Hu.
  destruct r as [w|]; [|by destruct (Hspec q v)].
  destruct Hspec as (q' & Hq'). by destruct (resolves_fun _ _ _ _ _ _ _ Hr Hq') as [_ ->].
Qed.

Lemma use_context_none o t s :
  wf_owners s → (∀ q v, ¬ resolves (owners s) t o q v) → use_context o t s = Ok (None, s).
Proof.
  intros Hwf Hr. destruct (use_context_ok o t s Hwf) as (r & Hu & Hspec). rewrite Hu.
  destruct r as [w|]; [|done]. destruct Hspec as (q' & Hq'). by destruct (Hr q' w).
Qed.

Lemma take_context_ok t s : wf_owners s → ∀ fuel o, o < fuel →
  (∀ q v, resolves (owners s) t o q v →
    take_context_loop fuel o t s =
    Ok (Some v, set_owners (alter (λ i, with_contexts (delete t (contexts i)) i) q) s)) ∧
  ((∀ q v, ¬ resolves (owners s) t o q v) → take_context_loop fuel o t s = Ok (None, s)).
Proof.
  intros Hwf fuel. induction fuel as [|fuel IH]; intros o Hf; [lia|]. simpl.
  rewrite (bind_Ok _ _ s (owners s !! o) s) by done.
  destruct (owners s !! o) as [i|] eqn:Ho.
  2:{ split; [|done]. intros q v Hr. inversion Hr; simplify_eq. }
  destruct (contexts i !! t) as [v|] eqn:Hv.
  { split.
    - intros q w Hr. inversion Hr; simplify_eq. done.
    - intros Hno. destruct (Hno o v). by econstructor. }
  destruct (parent i) as [p|] eqn:Hp.
  2:{ split; [|done]. intros q v Hr. inversion Hr; simplify_eq. }
  pose proof (wo_parent _ Hwf o i p Ho Hp). destruct (IH p) as [H1 H2]; [lia|]. split.
  - intros q v Hr. inversion Hr; simplify_eq. by apply H1.
  - intros Hno. apply H2. intros q v Hr. apply (Hno q v). by econstructor.
Qed.

Lemma find_context_loop_ok t s : wf_owners s → ∀ fuel queue,
  sum_list_with (tree_size (S (next_owner s)) (owners s)) queue ≤ fuel →
  ∃ r, find_context_loop fuel t queue s = Ok (r, s) ∧
    match r with
    | Some v => ∃ o x i, o ∈ queue ∧ desc (owners s) o x ∧ owners s !! x = Some i ∧
        contexts i !! t = Some v
    | None => ∀ o x i, o ∈ queue → desc (owners s) o x → owners s !! x = Some i →
        contexts i !! t = None
    end.
Proof.
  intros Hwf fuel. induction fuel as [|fuel IH]; intros queue Hf.
  { destruct queue as [|o queue]; [|simpl in Hf; case_match; lia].
    exists None. split; [done|]. intros o x i Ho. by apply not_elem_of_nil in Ho. }
  destruct queue as [|o queue].
  { exists None. split; [done|]. intros o x i Ho. by apply not_elem_of_nil in Ho. }
  simpl find_context_loop. rewrite (bind_Ok _ _ s (owners s !! o) s) by done.
  cbn [sum_list_with] in Hf.
  destruct (owners s !! o) as [i|] eqn:Ho.
  - destruct (contexts i !! t) as [v|] eqn:Hv.
    { exists (Some v). split; [done|]. exists o, o, i. split_and!; [by left|constructor|done..]. }
    rewrite (tree_size_unfold s o i) in Hf by done.
    destruct (IH (queue ++ vec_list (children i))) as (r & Hr & Hspec).
    { rewrite sum_list_with_app. change (vec_list (children i)) with (kids i). lia. }
    exists r. split; [done|]. destruct r as [v|].
    + destruct Hspec as (c & x & j & Hc & Hx & Hj & Hcv).
      apply elem_of_app in Hc as [Hc|Hc].
      * exists c, x, j. split_and!; [by right|done..].
      * exists o, x, j. split_and!; [by left|by econstructor|done..].
    + intros c x j [->|Hc]%elem_of_cons Hx Hj.
      * apply desc_inv in Hx as [->|(i1 & d & Ho1 & Hd & Hx)]; simplify_eq; [done|].
        eapply Hspec; [|done..].
        apply elem_of_app. by right.
      * eapply Hspec; [|done..]. apply elem_of_app. by left.
  - pose proof (tree_size_pos (S (next_owner s)) (owners s) o).
    destruct (IH queue) as (r & Hr & Hspec); [lia|]. exists r. split; [done|].
    destruct r as [v|].
    + destruct Hspec as (c & x & j & Hc & Hx). exists c, x, j. split; [by right|done].
    + intros c x j [->|Hc]%elem_of_cons Hx Hj; [|by eapply Hspec].
      apply desc_inv in Hx as [->|(i1 & d & Ho1 & _)]; congruence.
Qed.

(** ** Programs *)

Inductive owner_step : runtime → runtime → Prop :=
| os_new o s s' : Owner_new s = Ok (o, s') → owner_step s s'
| os_new_root o s s' : Owner_new_root s = Ok (o, s') → owner_step s s'
| os_child o c s s' : Owner_child o s = Ok (c, s') → owner_step s s'
| os_set o s s' : Owner_set o s = Ok (tt, s') → owner_step s s'
| os_unset o s s' : unset o s = Ok (tt, s') → owner_step s s'
| os_cleanup o s s' : Owner_cleanup o s = Ok (tt, s') → owner_step s s'
| os_drop o s s' : drop_owner o s = Ok (tt, s') → owner_step s s'
| os_on_cleanup (f : C) s s' : on_cleanup f s = Ok (tt, s') → owner_step s s'
| os_pause o s s' : pause o s = Ok (tt, s') → owner_step s s'
| os_resume o s s' : resume o s = Ok (tt, s') → owner_step s s'
| os_provide o t v s s' : provide_context o t v s = Ok (tt, s') → owner_step s s'
| os_take o t r s s' : take_context o t s = Ok (r, s') → owner_step s s'
| os_item b n s s' : ArenaItem_new b s = Ok (n, s') → owner_step s s'
| os_dispose n s s' : ArenaItem_dispose n s = Ok (tt, s') → owner_step s s'.

Definition start : runtime := mkRuntime ∅ None sm_default [] 0.
Definition owner_reachable s : Prop := rtc owner_step start s.

Lemma wf_update f o s :
  (∀ i, parent (f i) = parent i ∧ kids (f i) = kids i) →
  wf_owners s → wf_owners (set_owners (alter f o) s).
Proof.
  intros Hf Hwf. apply (wf_shrinks s); [done..|]. intros x i'. simpl.
  destruct (decide (x = o)) as [->|].
  - rewrite lookup_alter_eq. destruct (owners s !! o) as [i|]; [|done]. intros [= <-].
    destruct (Hf i). eauto.
  - rewrite lookup_alter_ne by done. eauto.
Qed.

Lemma kids_push_child (alive : nat → bool) c i :
  kids (push_child alive c i) =
  (if negb (length (kids i) =? 0) && (length (kids i) =? vec_cap (children i))
   then filter (λ x, alive x = true) (kids i) else kids i) ++ [c].
Proof.
  unfold push_child, kids. cbn [children with_children]. rewrite vec_push_list. f_equal.
  by destruct (negb _ && _); rewrite ?vec_reserve_list.
Qed.

Lemma kids_push_child_in (alive : nat → bool) c i x :
  x ∈ kids (push_child alive c i) → x ∈ kids i ∨ x = c.
Proof.
  rewrite kids_push_child. intros [Hx| ->%list_elem_of_singleton]%elem_of_app; [left|by right].
  destruct (negb _ && _); [|done]. by apply list_elem_of_filter in Hx as [_ Hx].
Qed.

Lemma kids_push_child_nodup (alive : nat → bool) c i :
  NoDup (kids i) → c ∉ kids i → NoDup (kids (push_child alive c i)).
Proof.
  intros Hnd Hc. rewrite kids_push_child. apply NoDup_app. split_and!.
  - destruct (negb _ && _); [|done]. by apply NoDup_filter.
  - intros x Hx ->%list_elem_of_singleton. apply Hc.
    destruct (negb _ && _); [|done]. by apply list_elem_of_filter in Hx as [_ Hx].
  - apply NoDup_singleton.
Qed.

Definition add_owner (i : OwnerInner) s : runtime :=
  mkRuntime (<[next_owner s := i]> (owners s)) (OWNER s) (arena s) (trace s) (S (next_owner s)).

Lemma wf_add i s :
  wf_owners s → kids i = [] → (∀ p, parent i = Some p → p < next_owner s) →
  wf_owners (add_owner i s).
Proof.
  intros Hwf Hk Hp.
  assert (∀ o j, owners (add_owner i s) !! o = Some j →
    (o = next_owner s ∧ j = i) ∨ (o < next_owner s ∧ owners s !! o = Some j)) as Hcase.
  { intros o j. simpl. destruct (decide (o = next_owner s)) as [->|].
    - rewrite lookup_insert_eq. intros [= <-]. by left.
    - rewrite lookup_insert_ne by done. intros Ho. right. split; [|done].
      by eapply (wo_next _ Hwf). }
  assert (∀ c, c ∈ kids i → False) as Hno.
  { intros c Hc. rewrite Hk in Hc. by apply not_elem_of_nil in Hc. }
  split.
  - intros o j [[-> _]|[? _]]%Hcase; simpl; lia.
  - intros o j c [[-> ->]|[? Ho]]%Hcase Hc; [by destruct (Hno c)|].
    destruct (wo_child _ Hwf o j c Ho Hc). simpl. lia.
  - intros o j [[-> ->]|[? Ho]]%Hcase; [rewrite Hk; constructor|by eapply (wo_nodup _ Hwf)].
  - intros o1 j1 o2 j2 c [[-> ->]|[? H1]]%Hcase [[-> ->]|[? H2]]%Hcase Hc1 Hc2;
      [done|by destruct (Hno c)..|by eapply (wo_unique _ Hwf)].
  - intros o j p [[-> ->]|[? Ho]]%Hcase Hpj; [by apply Hp|by eapply (wo_parent _ Hwf)].
Qed.

(** Pushing the newest owner to the children of another. *)
Lemma wf_push_child (alive : nat → bool) p i s :
  wf_owners s → kids i = [] → parent i = Some p → p < next_owner s →
  wf_owners (set_owners (alter (push_child alive (next_owner s)) p) (add_owner i s)).
Proof.
  intros Hwf Hk Hpar Hp.
  assert (wf_owners (add_owner i s)) as Hwa.
  { apply wf_add; [done..|]. intros q Hq. congruence. }
  set (n := next_owner s). set (s1 := add_owner i s).
  assert (∀ o j, owners s1 !! o = Some j → n ∉ kids j) as Hnew.
  { intros o j Ho Hn. unfold s1 in Ho. simpl in Ho. destruct (decide (o = n)) as [->|].
    - rewrite lookup_insert_eq in Ho. simplify_eq. rewrite Hk in Hn.
      by apply not_elem_of_nil in Hn.
    - rewrite lookup_insert_ne in Ho by done.
      destruct (wo_child _ Hwf o j n Ho Hn). unfold n in *. lia. }
  assert (∀ o j', owners (set_owners (alter (push_child alive n) p) s1) !! o = Some j' →
    ∃ j, owners s1 !! o = Some j ∧ parent j' = parent j ∧
      ((o ≠ p ∧ j' = j) ∨ (o = p ∧ j' = push_child alive n j))) as Hcase.
  { intros o j'. simpl. destruct (decide (o = p)) as [->|].
    - rewrite lookup_alter_eq. destruct (owners s1 !! p) as [j|] eqn:E; simpl in E; [|by rewrite E].
      rewrite E. intros [= <-]. exists j. split_and!; [done|done|by right].
    - rewrite lookup_alter_ne by done. intros Ho. exists j'. split_and!; [done|done|by left]. }
  assert (∀ o j' j c, owners s1 !! o = Some j →
    (o ≠ p ∧ j' = j) ∨ (o = p ∧ j' = push_child alive n j) → c ∈ kids j' →
    c ∈ kids j ∨ (c = n ∧ o = p)) as Hkids.
  { intros o j' j c Hj [[_ ->]|[-> ->]] Hc; [by left|].
    apply kids_push_child_in in Hc as [?| ->]; [by left|by right]. }
  split.
  - intros o j' (j & Hj & _)%Hcase. by eapply (wo_next _ Hwa).
  - intros o j' c (j & Hj & _ & Hor)%Hcase Hc. simpl.
    destruct (Hkids o j' j c Hj Hor Hc) as [Hc'|[Hcn ->]]; [by eapply (wo_child _ Hwa)|].
    rewrite Hcn. unfold n. lia.
  - intros o j' (j & Hj & _ & Hor)%Hcase. pose proof (wo_nodup _ Hwa o j Hj).
    destruct Hor as [[_ ->]|[_ ->]]; [done|]. apply kids_push_child_nodup; [done|by eapply Hnew].
  - intros o1 j1' o2 j2' c (j1 & H1 & _ & Hor1)%Hcase (j2 & H2 & _ & Hor2)%Hcase Hc1 Hc2.
    destruct (Hkids o1 j1' j1 c H1 Hor1 Hc1) as [Hc1'|[E1 Ho1]],
      (Hkids o2 j2' j2 c H2 Hor2 Hc2) as [Hc2'|[E2 Ho2]].
    + by eapply (wo_unique _ Hwa).
    + rewrite E2 in Hc1'. by destruct (Hnew o1 j1 H1).
    + rewrite E1 in Hc2'. by destruct (Hnew o2 j2 H2).
    + congruence.
  - intros o j' q (j & Hj & Hpj & _)%Hcase Hq. eapply (wo_parent _ Hwa); [done|congruence].
Qed.

Lemma for_each_cleanup_wf l : ∀ s, wf_owners s →
  ∃ s', for_each Owner_cleanup l s = Ok (tt, s') ∧ wf_owners s'.
Proof.
  induction l as [|o l IH]; intros s Hwf; [by exists s|].
  destruct (cleanup_ok (cleanup_fuel s) o s Hwf) as (s1 & H1 & Hcln);
    [unfold cleanup_fuel; lia|].
  assert (wf_owners s1) as Hwf1 by (eapply wf_pruned; [done|by eapply cln_next|by eapply cln_pruned]).
  destruct (IH s1 Hwf1) as (s' & H' & Hwf'). exists s'. split; [|done]. simpl.
  rewrite (bind_Ok _ _ s tt s1); [done|]. unfold Owner_cleanup.
  by rewrite (bind_Ok _ _ s (cleanup_fuel s) s).
Qed.

Lemma paused_wf b g l s s' : paused_below b g l s s' → wf_owners s → wf_owners s'.
Proof.
  intros [_ _ Hor _ _ _ Hn] Hwf. apply (wf_shrinks s); [done..|]. intros o i' Ho.
  destruct (Hor o) as [Hx|Hx]; rewrite Ho in Hx; [by eauto|].
  destruct (owners s !! o) as [i|]; [|done]. simplify_eq/=. eauto.
Qed.

Lemma wf_same_owners s s' :
  owners s' = owners s → next_owner s' = next_owner s → wf_owners s → wf_owners s'.
Proof. intros Ho Hn [H1 H2 H3 H4 H5]. split; rewrite ?Ho, ?Hn; eauto. Qed.
End ops.
