(* ===== verification/OwnerProps.v ===== *)
(** * What the ownership tree promises

    Cleanup, pausing, contexts and arena storage, for every runtime that a
    program can reach, with witnesses on a small tree, and three cases in which
    the code does not do what its documentation says. *)

From stdpp Require Import base gmap list relations strings.
From S2P Require Import Prelude SlotMaps Owner OwnerTree OwnerOps.

Section steps.
Context {C M : Type} `{SlotMap Boxed M, !SlotMapLaws Boxed M}.
Local Abbreviation runtime := (runtime C M).
Local Abbreviation OwnerInner := (OwnerInner C).
Implicit Types (s : runtime) (g : gmap nat OwnerInner) (i : OwnerInner) (o c x p q : nat).

Lemma Owner_cleanup_ok o s :
  wf_owners s →
  ∃ s', Owner_cleanup o s = Ok (tt, s') ∧ cleaned (cleanup_fuel s) (owners s) [o] s s' ∧
    wf_owners s'.
Proof.
  intros Hwf. destruct (cleanup_ok (cleanup_fuel s) o s Hwf) as (s' & Hs' & Hcln);
    [unfold cleanup_fuel; lia|].
  exists s'. split_and!; [|done|eapply wf_pruned; [done|by eapply cln_next|by eapply cln_pruned]].
  unfold Owner_cleanup. by rewrite (bind_Ok _ _ s (cleanup_fuel s) s).
Qed.

Lemma pause_ok (b : bool) o s :
  wf_owners s → ∃ s', (if b then pause o else resume o) s = Ok (tt, s') ∧
    paused_below b (owners s) [o] s s'.
Proof.
  intros Hwf. destruct (set_paused_ok b o s Hwf) as (s' & Hs' & Hp). exists s'. split; [|done].
  destruct b; unfold pause, resume;
    by rewrite (bind_Ok _ _ s (tree_size (S (next_owner s)) (owners s) o) s).
Qed.

Lemma update_owner_wf f o s s' :
  (∀ i, parent (f i) = parent i ∧ kids (f i) = kids i) →
  update_owner f o s = Ok (tt, s') → wf_owners s → wf_owners s'.
Proof. intros Hf [= <-]. by apply wf_update. Qed.

Lemma current_alive s p : (current s = Ok (Some p, s)) → is_Some (owners s !! p).
Proof.
  unfold current, gets, is_alive. intros [= Heq]. destruct (OWNER s) as [o|]; [|done].
  case_bool_decide; by simplify_eq.
Qed.

Lemma owner_step_wf s s' : wf_owners s → owner_step s s' → wf_owners s'.
Proof.
  intros Hwf Hstep. destruct Hstep as [o s s' Hop|o s s' Hop|o c s s' Hop|o s s' Hop|o s s' Hop
    |o s s' Hop|o s s' Hop|f s s' Hop|o s s' Hop|o s s' Hop|o t v s s' Hop|o t r s s' Hop
    |b n s s' Hop|n s s' Hop].
  - unfold Owner_new in Hop.
    set (cur := match OWNER s with Some o => if is_alive s o then Some o else None | None => None end) in *.
    rewrite (bind_Ok current _ s cur s eq_refl) in Hop.
    destruct cur as [p|] eqn:Ecur.
    + injection Hop as <- <-. apply (wf_push_child _ p _ s); try done.
      assert (is_Some (owners s !! p)) as [i Hi].
      { apply current_alive. unfold current, gets. fold cur. by rewrite Ecur. }
      by eapply (wo_next _ Hwf).
    + injection Hop as <- <-. by apply (wf_add _ s).
  - injection Hop as <- <-.
    eapply (wf_same_owners (add_owner _ s)); [done|done|]. by apply wf_add.
  - unfold Owner_child in Hop. rewrite (bind_Ok _ _ s (owners s !! o) s eq_refl) in Hop.
    destruct (owners s !! o) as [i|] eqn:Ho; [|done]. injection Hop as <- <-.
    apply (wf_push_child _ o _ s); try done. by eapply (wo_next _ Hwf).
  - injection Hop as <-. by eapply (wf_same_owners s).
  - unfold unset in Hop.
    rewrite (bind_Ok current _ s _ s eq_refl) in Hop. case_decide; injection Hop as <-;
      [by eapply (wf_same_owners s)|done].
  - destruct (Owner_cleanup_ok o s Hwf) as (s1 & H1 & _ & Hwf1).
    rewrite Hop in H1. by simplify_eq.
  - unfold drop_owner in Hop. rewrite (bind_Ok _ _ s (owners s !! o) s eq_refl) in Hop.
    destruct (owners s !! o) as [i|] eqn:Ho; [|by injection Hop as <-].
    rewrite (bind_Ok _ _ s tt (set_owners (delete o) s) eq_refl) in Hop.
    destruct (for_each_cleanup_wf (vec_list (children i)) (set_owners (delete o) s))
      as (s1 & H1 & Hwf1).
    { apply (wf_shrinks s); [done..|]. intros x j. simpl. rewrite lookup_delete_Some.
      intros [_ Hx]. eauto. }
    rewrite (bind_Ok _ _ _ _ _ H1), (bind_Ok _ _ s1 _ _ (run_cleanups _ s1)) in Hop.
    destruct (remove_nodes (vec_list (onodes i)) (set_trace (trace s1 ++ cleanups i) s1))
      as (m & Hm & _). rewrite Hm in Hop. injection Hop as <-.
    by eapply (wf_same_owners s1).
  - unfold on_cleanup in Hop. rewrite (bind_Ok current _ s _ s eq_refl) in Hop.
    repeat case_match; try (by injection Hop as <-); by eapply update_owner_wf; [|exact Hop|].
  - destruct (pause_ok true o s Hwf) as (s1 & H1 & Hp). simpl in H1. rewrite Hop in H1.
    simplify_eq. by eapply paused_wf.
  - destruct (pause_ok false o s Hwf) as (s1 & H1 & Hp). simpl in H1. rewrite Hop in H1.
    simplify_eq. by eapply paused_wf.
  - by eapply update_owner_wf; [|exact Hop|].
  - assert (∀ r s', take_context o t s = Ok (r, s') → s' = s ∨
      ∃ q, s' = set_owners (alter (λ i, with_contexts (delete t (contexts i)) i) q) s) as Htake.
    { clear Hop. intros r0 s0 Hop. destruct (use_context_ok o t s Hwf) as (r' & _ & Hspec).
      destruct (take_context_ok t s Hwf (S o) o) as [H1 H2]; [lia|].
      unfold take_context in Hop. destruct r' as [v|].
      - destruct Hspec as (q & Hq). rewrite (H1 q v Hq) in Hop. simplify_eq. right. by exists q.
      - rewrite (H2 Hspec) in Hop. simplify_eq. by left. }
    destruct (Htake r s' Hop) as [->|[q ->]]; [done|]. by apply wf_update.
  - unfold ArenaItem_new in Hop.
    set (s1 := set_arena (sm_insert b (arena s)).2 s) in *.
    assert (wf_owners s1) as Hwf1 by by eapply (wf_same_owners s).
    rewrite (bind_Ok _ _ s (sm_insert b (arena s)).1 s1 eq_refl) in Hop.
    rewrite (bind_Ok current _ s1 _ s1 eq_refl) in Hop.
    repeat case_match; try (injection Hop as <- <-; try done; by apply wf_update).
  - injection Hop as <-. by eapply (wf_same_owners s).
Qed.

Lemma reachable_wf s : owner_reachable s → wf_owners s.
Proof.
  intros Hr. unfold owner_reachable in Hr.
  assert (wf_owners (@start C M _)) as H0.
  { split; intros *; simpl; by rewrite lookup_empty. }
  revert H0. induction Hr as [s|s1 s2 s3 Hst _ IH]; [done|]. intros Hwf.
  by apply IH, (owner_step_wf s1).
Qed.
End steps.

(** ** A small tree *)

Module OwnerDemo.
Abbreviation R := (runtime nat (used_map Boxed)).

Definition run {A} (c : stateM R A) (s : R) : R := match c s with Ok (_, s') => s' | _ => s end.

Definition theme : TypeId := TNamed "Theme".

(** root 0 with children 1 and 2, and 3 below 1; one cleanup and one arena
    item each for 1 and 3 *)
Definition program : stateM R unit :=
  _ ← Owner_new_root;
  _ ← Owner_child 0;
  _ ← Owner_child 0;
  _ ← Owner_child 1;
  _ ← Owner_set 1;
  _ ← on_cleanup 10;
  _ ← ArenaItem_new (sync_wrap theme (VBase 7));
  _ ← Owner_set 3;
  _ ← on_cleanup 30;
  _ ← ArenaItem_new (local_wrap 5 theme (VBase 8));
  provide_context 0 theme (VBase 1).

Definition t1 : R := run Owner_new_root start.
Definition t2 : R := run (Owner_child 0) t1.
Definition t3 : R := run (Owner_child 0) t2.
Definition t4 : R := run (Owner_child 1) t3.
Definition t5 : R := run (Owner_set 1) t4.
Definition t6 : R := run (on_cleanup 10) t5.
Definition t7 : R := run (ArenaItem_new (sync_wrap theme (VBase 7))) t6.
Definition t8 : R := run (Owner_set 3) t7.
Definition t9 : R := run (on_cleanup 30) t8.
Definition t10 : R := run (ArenaItem_new (local_wrap 5 theme (VBase 8))) t9.
Definition tree : R := run (provide_context 0 theme (VBase 1)) t10.

Lemma then_owner_step (s s' : R) : owner_reachable s → owner_step s s' → owner_reachable s'.
Proof. intros Hr Hst. by eapply rtc_r. Qed.

Lemma tree_reachable : owner_reachable tree.
Proof.
  assert (owner_reachable t1) as H1.
  { eapply then_owner_step; [apply rtc_refl|by eapply (os_new_root 0)]. }
  assert (owner_reachable t2) as H2.
  { eapply then_owner_step; [exact H1|by eapply (os_child 0 1)]. }
  assert (owner_reachable t3) as H3.
  { eapply then_owner_step; [exact H2|by eapply (os_child 0 2)]. }
  assert (owner_reachable t4) as H4.
  { eapply then_owner_step; [exact H3|by eapply (os_child 1 3)]. }
  assert (owner_reachable t5) as H5.
  { eapply then_owner_step; [exact H4|by eapply (os_set 1)]. }
  assert (owner_reachable t6) as H6.
  { eapply then_owner_step; [exact H5|by eapply (os_on_cleanup 10)]. }
  assert (owner_reachable t7) as H7.
  { eapply then_owner_step; [exact H6|eapply (os_item _ 1); vm_compute; reflexivity]. }
  assert (owner_reachable t8) as H8.
  { eapply then_owner_step; [exact H7|by eapply (os_set 3)]. }
  assert (owner_reachable t9) as H9.
  { eapply then_owner_step; [exact H8|by eapply (os_on_cleanup 30)]. }
  assert (owner_reachable t10) as H10.
  { eapply then_owner_step; [exact H9|eapply (os_item _ 2); vm_compute; reflexivity]. }
  eapply then_owner_step; [exact H10|by eapply (os_provide 0)].
Qed.
End OwnerDemo.

(** ** Theorems *)

Section props.
Context {C M : Type} `{SlotMap Boxed M, !SlotMapLaws Boxed M}.
Local Abbreviation runtime := (runtime C M).
Implicit Types (s : runtime) (o c x p q n : nat).

(** C2: [Owner::cleanup] terminates and runs every cleanup function registered at or below the owner exactly once, those of the children before those of their parent and in the order of registration; it empties these owners and no others, and it disposes exactly the arena items they own. A second cleanup runs nothing. *)
Theorem cleanup_runs_once s o :
owner_reachable s →
∃ s', Owner_cleanup o s = Ok (tt, s') ∧
  trace s' = trace s ++ cleanup_log (cleanup_fuel s) (owners s) o ∧
  (∀ x, desc (owners s) o x → owners s' !! x = emptied <$> owners s !! x) ∧
  (∀ x, ¬ desc (owners s) o x → owners s' !! x = owners s !! x) ∧
  (∀ n, sm_elems (arena s') !! n =
    if decide (n ∈ cleanup_nodes (cleanup_fuel s) (owners s) o) then None
    else sm_elems (arena s) !! n) ∧
  ∃ s'', Owner_cleanup o s' = Ok (tt, s'') ∧ trace s'' = trace s'.
Proof.
intros Hwf%reachable_wf.
destruct (Owner_cleanup_ok o s Hwf) as (s' & Hs' & [Ht Hin Hout _ Ha _ _ Hn] & Hwf').
exists s'. simpl in Ht, Ha. rewrite app_nil_r in Ht.
split_and!; [done|done| | | |].
- intros x Hx. apply (Hin x o); [by left|done].
- intros x Hx. apply Hout. by intros c ->%list_elem_of_singleton.
- intros n. rewrite Ha. by rewrite app_nil_r.
- destruct (Owner_cleanup_ok o s' Hwf') as (s'' & Hs'' & [Ht2 _ _ _ _ _ _ _] & _).
  exists s''. split; [done|]. rewrite Ht2. simpl. rewrite app_nil_r.
  unfold cleanup_fuel. simpl. rewrite (Hin o o); [|by left|constructor].
  destruct (owners s !! o); simpl; by rewrite app_nil_r.
Qed.

(** C31: [pause] and [resume] terminate; they set the flag of exactly the owners at or below the given one and change nothing else of the runtime. *)
Theorem pause_whole_subtree s o b :
owner_reachable s →
∃ s', (if (b : bool) then pause o else resume o) s = Ok (tt, s') ∧
  (∀ x, desc (owners s) o x → owners s' !! x = with_paused b <$> owners s !! x) ∧
  (∀ x, ¬ desc (owners s) o x → owners s' !! x = owners s !! x) ∧
  OWNER s' = OWNER s ∧ arena s' = arena s ∧ trace s' = trace s.
Proof.
intros Hwf%reachable_wf. destruct (pause_ok b o s Hwf) as (s' & Hs' & [Hin Hout _ Hc Ha Ht _]).
exists s'. split_and!; [done| | |done..].
- intros x Hx. apply (Hin o x); [by left|done].
- intros x Hx. apply Hout. by intros c ->%list_elem_of_singleton.
Qed.

(** C36: a context lookup always terminates and finds the value of the nearest provider, at the owner itself or at the closest ancestor that is alive; without one it finds nothing. *)
Theorem context_nearest s o t :
owner_reachable s →
(∀ q v, resolves (owners s) t o q v → use_context o t s = Ok (Some v, s)) ∧
((∀ q v, ¬ resolves (owners s) t o q v) → use_context o t s = Ok (None, s)).
Proof.
intros Hwf%reachable_wf. split.
- intros q v. by apply use_context_resolves.
- by apply use_context_none.
Qed.

(** [take_context] returns what [use_context] would have returned and removes that entry: it leaves every other owner alone and uncovers the value that the entry was shadowing. *)
Theorem take_context_uncovers s o t q v :
owner_reachable s → resolves (owners s) t o q v →
∃ s', take_context o t s = Ok (Some v, s') ∧
  (∀ x, x ≠ q → owners s' !! x = owners s !! x) ∧
  (∀ i p q' v', owners s !! q = Some i → parent i = Some p →
    resolves (owners s) t p q' v' → use_context o t s' = Ok (Some v', s')).
Proof.
intros Hwf%reachable_wf Hr.
destruct (take_context_ok t s Hwf (S o) o) as [Ht _]; [lia|].
specialize (Ht q v Hr). set (f i := with_contexts (delete t (contexts i)) i) in Ht.
exists (set_owners (alter f q) s). split_and!; [done| |].
- intros x Hx. simpl. by rewrite lookup_alter_ne.
- intros i p q' v' Hq Hp Hr'.
  assert (wf_owners (set_owners (alter f q) s)) as Hwf' by by apply wf_update.
  apply (use_context_resolves o t q'); [done|]. simpl.
  assert (∀ x, x < q → resolves (owners s) t x q' v' → resolves (alter f q (owners s)) t x q' v')
    as Hbelow.
  { clear -Hwf. intros x Hx Hr. induction Hr as [x i v Hxi Hv|x i p q' v Hxi Hv Hp Hr IH].
    - econstructor; [|done]. rewrite lookup_alter_ne; [done|lia].
    - eapply res_up; [|done|done|apply IH].
      + rewrite lookup_alter_ne; [done|lia].
      + pose proof (wo_parent _ Hwf x i p Hxi Hp). lia. }
  assert (resolves (alter f q (owners s)) t q q' v') as Hq'.
  { eapply (res_up _ _ _ (f i)); [by rewrite lookup_alter_eq, Hq|apply lookup_delete_eq|done|].
    apply Hbelow; [by eapply (wo_parent _ Hwf)|done]. }
  clear Hr' Ht Hbelow. induction Hr as [x j w Hx Hv|x j p' q w Hx Hv Hp' Hr IH]; [done|].
  eapply res_up; [|done|done|by apply IH].
  rewrite lookup_alter_ne; [done|].
  assert (q ≤ p') as Hle; [|pose proof (wo_parent _ Hwf x j p' Hx Hp'); lia].
  clear -Hr Hwf. induction Hr as [|x i p q v Hx Hv Hp Hr IH]; [done|].
  pose proof (wo_parent _ Hwf x i p Hx Hp). lia.
Qed.

(** [find_context_in_children] terminates; it finds a value exactly if some owner strictly below provides one, and the value is one of theirs. *)
Theorem context_below s o i t :
owner_reachable s → owners s !! o = Some i →
∃ r, find_context_in_children o t s = Ok (r, s) ∧
  match r with
  | Some v => ∃ c x j, c ∈ kids i ∧ desc (owners s) c x ∧ owners s !! x = Some j ∧
      contexts j !! t = Some v
  | None => ∀ c x j, c ∈ kids i → desc (owners s) c x → owners s !! x = Some j →
      contexts j !! t = None
  end.
Proof.
intros Hwf%reachable_wf Ho. unfold find_context_in_children.
rewrite (bind_Ok _ _ s (owners s !! o) s eq_refl), Ho.
rewrite (bind_Ok _ _ s (tree_size (S (next_owner s)) (owners s) o) s eq_refl).
apply find_context_loop_ok; [done|]. rewrite (tree_size_unfold s o i) by done.
change (vec_list (children i)) with (kids i). lia.
Qed.

(** A value in [LocalStorage] never panics and is never seen from another thread: on every thread the four accesses return, on a thread other than its own they return nothing and leave the arena unchanged. *)
Theorem local_storage_thread_safe s n t owner v thread w :
sm_elems (arena s) !! n = Some (local_wrap owner t v) →
∃ r1 r2 r3 s2 s3,
  local_try_with thread t n id s = Ok (r1, s) ∧
  local_try_set thread t n w s = Ok (r2, s2) ∧ local_take thread t n s = Ok (r3, s3) ∧
  (thread ≠ owner → r1 = None ∧ r2 = Some w ∧ r3 = None ∧ s2 = s ∧ s3 = s) ∧
  (thread = owner → r1 = Some v ∧ r2 = None ∧ r3 = Some v ∧
    sm_elems (arena s2) = <[n := local_wrap owner t w]> (sm_elems (arena s)) ∧
    sm_elems (arena s3) = delete n (sm_elems (arena s))).
Proof.
intros Hn.
assert (sm_elems (arena s) !! n ≫= local_downcast t = Some (owner, v)) as Hd.
{ rewrite Hn. simpl. unfold local_downcast. simpl. by rewrite decide_True. }
unfold local_try_with, local_try_set, local_take.
rewrite !(bind_Ok _ _ s _ s eq_refl). rewrite Hd. rewrite Hn. simpl.
destruct (decide (owner = thread)) as [->|Hne].
- rewrite bool_decide_eq_true_2 by done. simpl.
  assert (local_downcast t (local_wrap thread t v) = Some (thread, v)) as Hd'.
  { unfold local_downcast. simpl. by rewrite decide_True. }
  rewrite Hd'. eexists _, _, _, _, _. split_and!; [| |..].
  + rewrite (bind_Ok _ _ s v s); [done|]. unfold send_deref. simpl. by rewrite decide_True.
  + done.
  + set (s3 := set_arena (sm_remove n (arena s)).2 s).
    rewrite (bind_Ok (arena_remove n) _ s tt s3 eq_refl). rewrite (bind_Ok _ _ s3 v s3); [done|].
    unfold send_deref. simpl. by rewrite decide_True.
  + done.
  + intros _. split_and!; try done; simpl.
    * apply sm_set_spec. by eexists.
    * apply sm_remove_spec.
- rewrite bool_decide_eq_false_2 by done. simpl.
  eexists _, _, _, _, _. split_and!; try done.
Qed.

(** registering a node with an owner prunes only ids of items that were already disposed: the new node and every earlier one that is still in the arena stay registered, so that cleanup will dispose them. *)
Theorem register_keeps_live s o i n :
owners s !! o = Some i →
∃ s' i', register o n s = Ok (tt, s') ∧ owners s' !! o = Some i' ∧
  n ∈ vec_list (onodes i') ∧
  (∀ m, m ∈ vec_list (onodes i) → is_Some (sm_elems (arena s) !! m) →
    m ∈ vec_list (onodes i')) ∧
  (∀ m, m ∈ vec_list (onodes i') → m = n ∨ m ∈ vec_list (onodes i)).
Proof.
intros Ho. eexists _, _. split; [done|]. split; [by simpl; rewrite lookup_alter_eq, Ho|].
set (live m := sm_contains m (arena s)).
change (vec_list (onodes (register_node live n i))) with
  (vec_list (vec_push n (if negb (length (vec_list (onodes i)) =? 0) &&
    (length (vec_list (onodes i)) =? vec_cap (onodes i))
    then vec_retain live (onodes i) else onodes i))).
rewrite vec_push_list. split_and!.
- apply elem_of_app. right. apply list_elem_of_here.
- intros m Hm Hlive. apply elem_of_app. left. destruct (negb _ && _); [|done].
  apply list_elem_of_filter. split; [|done]. by apply bool_decide_eq_true.
- intros m [Hm| ->%list_elem_of_singleton]%elem_of_app; [right|by left].
  destruct (negb _ && _); [|done]. by apply list_elem_of_filter in Hm as [_ Hm].
Qed.
End props.

(** ** The theorems on the small tree *)

Section witnesses.
Import OwnerDemo.

Lemma cleanup_runs_once_witness :
∃ s', Owner_cleanup 0 tree = Ok (tt, s') ∧ trace s' = [30; 10].
Proof.
destruct (cleanup_runs_once tree 0 tree_reachable) as (s' & H1 & H2 & _).
exists s'. split; [exact H1|]. rewrite H2. vm_compute. reflexivity.
Defined.

Lemma pause_whole_subtree_witness :
∃ s' i, pause 1 tree = Ok (tt, s') ∧ owners s' !! 3 = Some i ∧ paused i = true.
Proof.
destruct (pause_whole_subtree tree 1 true tree_reachable) as (s' & H1 & H2 & _).
specialize (H2 3).
assert (desc (owners tree) 1 3) as Hd.
{ eapply desc_child; [vm_compute; reflexivity|vm_compute; apply list_elem_of_here|constructor]. }
specialize (H2 Hd).
destruct (owners tree !! 3) as [i|] eqn:E; [|by vm_compute in E].
exists s', (with_paused true i). split; [exact H1|]. split; [exact H2|reflexivity].
Defined.

Lemma tree_resolves : resolves (owners tree) theme 3 0 (VBase 1).
Proof.
eapply res_up; [vm_compute; reflexivity|vm_compute; reflexivity|vm_compute; reflexivity|].
eapply res_up; [vm_compute; reflexivity|vm_compute; reflexivity|vm_compute; reflexivity|].
eapply res_here; vm_compute; reflexivity.
Qed.

Lemma context_nearest_witness : use_context 3 theme tree = Ok (Some (VBase 1), tree).
Proof. apply (context_nearest tree 3 theme tree_reachable) with (q := 0). exact tree_resolves. Defined.

Lemma take_context_uncovers_witness :
∃ s', take_context 3 theme tree = Ok (Some (VBase 1), s').
Proof.
destruct (take_context_uncovers tree 3 theme 0 (VBase 1) tree_reachable tree_resolves)
  as (s' & H1 & _).
exists s'. exact H1.
Defined.

Lemma context_below_witness :
∃ i r, owners tree !! 0 = Some i ∧ find_context_in_children 0 theme tree = Ok (r, tree).
Proof.
destruct (owners tree !! 0) as [i|] eqn:E; [|by vm_compute in E].
destruct (context_below tree 0 i theme tree_reachable E) as (r & H1 & _).
exists i, r. split; [reflexivity|exact H1].
Defined.

Lemma local_storage_thread_safe_witness :
∃ r, local_try_with 6 theme 2 id tree = Ok (r, tree) ∧ r = None.
Proof.
destruct (local_storage_thread_safe tree 2 theme 5 (VBase 8) 6 VNone)
  as (r1 & r2 & r3 & s2 & s3 & H1 & _ & _ & H4 & _); [vm_compute; reflexivity|].
exists r1. split; [exact H1|]. apply H4. lia.
Defined.

Lemma register_keeps_live_witness :
∃ s' i', register 1 9 tree = Ok (tt, s') ∧ owners s' !! 1 = Some i' ∧ 9 ∈ vec_list (onodes i').
Proof.
destruct (owners tree !! 1) as [i|] eqn:E; [|by vm_compute in E].
destruct (register_keeps_live tree 1 i 9 E) as (s' & i' & H1 & H2 & H3 & _).
exists s', i'. auto.
Defined.
End witnesses.

(** ** Where the code and its documentation part *)

Module OwnerCases.
Import OwnerDemo.

(** a child created with [Owner::new] while its parent is current and paused *)
Definition paused_parent : R := run (Owner_set 0) (run (pause 0) tree).
Definition after_new : outcome (nat * R) := Owner_new paused_parent.

(** a context provided in one run of an owner, looked up in the next *)
Definition first_run : R := run (with_cleanup 3 (provide_context_current theme (VBase 2))) tree.
End OwnerCases.

(** A bidirectional lookup misses the ancestors: a type provided by the root is found from a grandchild by a plain lookup, but [use_context_bidirectional] looks for an [Option] of it there and finds nothing. *)
Theorem bidirectional_misses_parents :
  use_context 3 OwnerDemo.theme OwnerDemo.tree = Ok (Some (VBase 1), OwnerDemo.tree) ∧
  use_context_bidirectional 3 OwnerDemo.theme OwnerDemo.tree = Ok (None, OwnerDemo.tree).
Proof. split; vm_compute; reflexivity. Qed.

(** an owner made by [Owner::new] below a paused owner is not paused, unlike one made by [Owner::child]: effects create their owners this way, so a new effect under a paused owner runs. *)
Theorem new_ignores_pause :
  ∃ o s1 c s2,
    Owner_paused 0 OwnerCases.paused_parent = Ok (true, OwnerCases.paused_parent) ∧
    Owner_new OwnerCases.paused_parent = Ok (o, s1) ∧
    Owner_parent o s1 = Ok (Some 0, s1) ∧ Owner_paused o s1 = Ok (false, s1) ∧
    Owner_child 0 OwnerCases.paused_parent = Ok (c, s2) ∧ Owner_paused c s2 = Ok (true, s2).
Proof.
  destruct (Owner_new OwnerCases.paused_parent) as [[o s1]| |] eqn:E1; try by vm_compute in E1.
  destruct (Owner_child 0 OwnerCases.paused_parent) as [[c s2]| |] eqn:E2; try by vm_compute in E2.
  exists o, s1, c, s2. vm_compute in E1, E2. injection E1 as <- <-. injection E2 as <- <-.
  split_and!; vm_compute; reflexivity.
Qed.

(** Contexts survive a cleanup: what an owner provided in one run is still found in its next run, although that run no longer provides it. *)
Theorem cleanup_keeps_contexts :
  ∃ s', with_cleanup 3 (use_context_current OwnerDemo.theme) OwnerCases.first_run =
    Ok (Some (VBase 2), s').
Proof. eexists. vm_compute. reflexivity. Qed.
