(* ===== verification/RustStr.v ===== *)
(** * Strings of the standard library

    Rust's [str] as the list of its bytes, with the operations of the standard
    library that the router uses.  Slicing checks its bounds and that it cuts
    between characters, and panics otherwise. *)

From Stdlib Require Import Ascii.
From stdpp Require Import base list strings sets.
From S2P Require Import Prelude.

Abbreviation str := (list ascii).

(** String literals. *)
Definition lit (s : string) : str := String.list_ascii_of_string s.

Definition slash : ascii := "/"%char.
(** A byte of the form [0b10xxxxxx]: not the first one of a character. *)
Definition is_continuation (c : ascii) : bool :=
  let n := nat_of_ascii c in (128 <=? n) && (n <? 192).

(** [str::is_char_boundary] *)
Definition is_char_boundary (s : str) (n : nat) : bool :=
  (n =? 0) || match s !! n with
              | Some c => negb (is_continuation c)
              | None => n =? length s
              end.

(** [&s[0..n]] *)
Definition slice_to (s : str) (n : nat) : outcome str :=
  if is_char_boundary s n then Ok (take n s) else Panic.

(** [s.split_at(n)] *)
Definition split_at (s : str) (n : nat) : outcome (str * str) :=
  if is_char_boundary s n then Ok (take n s, drop n s) else Panic.

(** [s.starts_with(c)] for a character below 128 *)
Definition starts_with_char (c : ascii) (s : str) : bool :=
  match s with x :: _ => bool_decide (x = c) | [] => false end.

(** [s.strip_prefix(p)] *)
Fixpoint strip_prefix (p s : str) : option str :=
  match p, s with
  | [], _ => Some s
  | a :: p, b :: s => if decide (a = b) then strip_prefix p s else None
  | _ :: _, [] => None
  end.

(** [s.trim_start_matches(c)] and [s.trim_matches(c)] *)
Fixpoint trim_start (c : ascii) (s : str) : str :=
  match s with
  | x :: s' => if decide (x = c) then trim_start c s' else s
  | [] => []
  end.
Definition trim_end (c : ascii) (s : str) : str := rev (trim_start c (rev s)).
Definition trim (c : ascii) (s : str) : str := trim_end c (trim_start c s).

(** [s.trim_end_matches(p)] of a string pattern: suffixes equal to [p] are
    removed as long as there is one; an empty pattern removes nothing. *)
Fixpoint trim_start_str (fuel : nat) (p s : str) : str :=
  match fuel, p with
  | 0, _ | _, [] => s
  | S fuel, _ => match strip_prefix p s with
                 | Some s' => trim_start_str fuel p s'
                 | None => s
                 end
  end.
Definition trim_end_str (p s : str) : str :=
  rev (trim_start_str (length s) (rev p) (rev s)).

(** [s.split_once(c)] *)
Fixpoint split_once (c : ascii) (s : str) : option (str * str) :=
  match s with
  | [] => None
  | x :: s => if decide (x = c) then Some ([], s)
              else r ← split_once c s; Some (x :: r.1, r.2)
  end.

(** ** Lemmas *)

Lemma strip_prefix_Some p s r : strip_prefix p s = Some r ↔ s = p ++ r.
Proof.
  revert s. induction p as [|a p IH]; intros [|b s]; simpl;
    [naive_solver..|]. case_decide as Hab; [subst; rewrite IH; naive_solver|].
  split; [done|]. intros [= <-]. done.
Qed.

Lemma strip_prefix_app p r : strip_prefix p (p ++ r) = Some r.
Proof. by apply strip_prefix_Some. Qed.

Lemma split_once_app c p q : c ∉ p → split_once c (p ++ c :: q) = Some (p, q).
Proof.
  induction p as [|x p IH]; cbn; intros Hc; [by rewrite decide_True|].
  rewrite decide_False by set_solver. by rewrite IH by set_solver.
Qed.

Lemma split_once_None c s : c ∉ s → split_once c s = None.
Proof.
  induction s as [|x s IH]; cbn; intros Hc; [done|].
  rewrite decide_False by set_solver. by rewrite IH by set_solver.
Qed.

(** What remains of a path after a match: nothing, or more segments. *)
Definition at_segment (s : str) : Prop := s = [] ∨ ∃ t, s = slash :: t.

#[export] Instance at_segment_dec s : Decision (at_segment s).
Proof.
  destruct s as [|c t]; [left; by left|].
  destruct (decide (c = slash)) as [->|Hc]; [left; right; by eexists|].
  right. intros [|[u Hu]]; congruence.
Defined.
#[global] Arguments at_segment_dec : simpl never.

Lemma at_segment_nil : at_segment [].
Proof. by left. Qed.
Lemma at_segment_slash t : at_segment (slash :: t).
Proof. right. by eexists. Qed.
#[export] Hint Resolve at_segment_nil at_segment_slash : core.

(** Cutting before a slash, at the start or at the end never panics. *)
Lemma boundary_segment a b : at_segment b ∨ a = [] → is_char_boundary (a ++ b) (length a) = true.
Proof.
  unfold is_char_boundary. intros [[->|[t ->]]| ->]; [| |done]; apply orb_true_iff; right.
  - rewrite app_nil_r, (lookup_ge_None_2 a) by done. by apply Nat.eqb_refl.
  - by rewrite list_lookup_middle.
Qed.

Lemma slice_to_app a b : at_segment b ∨ a = [] → slice_to (a ++ b) (length a) = Ok a.
Proof.
  intros H. unfold slice_to. rewrite boundary_segment by done. by rewrite take_app_length.
Qed.

Lemma split_at_app a b : at_segment b ∨ a = [] → split_at (a ++ b) (length a) = Ok (a, b).
Proof.
  intros H. unfold split_at. rewrite boundary_segment by done.
  by rewrite take_app_length, drop_app_length.
Qed.

(** The bytes up to the next slash. *)
Fixpoint segment_len (s : str) : nat :=
  match s with
  | x :: s' => if decide (x = slash) then 0 else S (segment_len s')
  | [] => 0
  end.

Lemma segment_len_app v r : slash ∉ v → at_segment r → segment_len (v ++ r) = length v.
Proof.
  intros Hv Hr. induction v as [|c v IH]; simpl.
  - by destruct Hr as [->|[t ->]].
  - rewrite decide_False by set_solver. rewrite IH by set_solver. done.
Qed.

Lemma segment_split s : ∃ v r, s = (v ++ r) ∧ (slash ∉ v) ∧ at_segment r ∧ segment_len s = length v.
Proof.
  induction s as [|c s (v & r & -> & Hv & Hr & Hl)]; [exists [], []; set_solver|].
  destruct (decide (c = slash)) as [->|Hc].
  - exists [], (slash :: v ++ r). split_and!; [done|set_solver|done|done].
  - exists (c :: v), r. split_and!; [done|set_solver|done|simpl].
    rewrite decide_False by done. by rewrite Hl.
Qed.

(** ** UTF-8 *)

(** The continuation bytes that a first byte calls for, each with its bounds:
    no overlong form, no surrogate, nothing above [char::MAX]. *)
Definition utf8_lead (c : ascii) : option (list (nat * nat)) :=
  let n := nat_of_ascii c in
  let any := (128, 191) in
  if n <? 128 then Some []
  else if n <? 194 then None
  else if n <? 224 then Some [any]
  else if n <? 225 then Some [(160, 191); any]
  else if n <? 237 then Some [any; any]
  else if n <? 238 then Some [(128, 159); any]
  else if n <? 240 then Some [any; any]
  else if n <? 241 then Some [(144, 191); any; any]
  else if n <? 244 then Some [any; any; any]
  else if n <? 245 then Some [(128, 143); any; any]
  else None.

(** A [str] is well formed; the continuation bytes of [need] are due first. *)
Fixpoint utf8_from (need : list (nat * nat)) (s : str) : bool :=
  match s, need with
  | [], [] => true
  | [], _ :: _ => false
  | c :: s, [] => match utf8_lead c with Some need => utf8_from need s | None => false end
  | c :: s, (lo, hi) :: need =>
      is_continuation c && (lo <=? nat_of_ascii c) && (nat_of_ascii c <=? hi) && utf8_from need s
  end.
Definition utf8 (s : str) : bool := utf8_from [] s.

(** The first byte of a character, or one that needs no other *)
Lemma utf8_from_cut need v c t :
  is_continuation c = false → utf8_from need (v ++ c :: t) = true →
  utf8_from need v = true ∧ utf8 (c :: t) = true.
Proof.
  intros Hc. revert need. induction v as [|x v IH]; intros [|[lo hi] need]; cbn -[utf8_lead].
  - done.
  - by rewrite Hc.
  - destruct (utf8_lead x); [apply IH|done].
  - rewrite !andb_true_iff. intros [? H]. by apply IH in H as [-> ?].
Qed.

Lemma utf8_from_app need a b :
  utf8_from need a = true → utf8 b = true → utf8_from need (a ++ b) = true.
Proof.
  revert need. induction a as [|x a IH]; intros [|[lo hi] need]; cbn -[utf8_lead]; [done|done|..].
  - destruct (utf8_lead x); [apply IH|done].
  - rewrite !andb_true_iff. naive_solver.
Qed.

Lemma utf8_app a b : utf8 a = true → utf8 b = true → utf8 (a ++ b) = true.
Proof. apply utf8_from_app. Qed.

Lemma utf8_tail v r : utf8 (v ++ r) = true → at_segment r → utf8 r = true.
Proof. intros H [->|[t ->]]; [done|]. by apply (utf8_from_cut [] v slash t). Qed.

(** A character begins after every slash. *)
Lemma utf8_after_slash p : utf8 (slash :: p) = true → is_char_boundary (slash :: p) 1 = true.
Proof.
  unfold is_char_boundary. destruct p as [|c p]; [done|]. cbn. intros H.
  destruct (is_continuation c) eqn:Hc; [|done]. exfalso. revert Hc H.
  unfold is_continuation, utf8_lead. rewrite andb_true_iff.
  intros [H1%Nat.leb_le H2%Nat.ltb_lt].
  destruct (Nat.ltb_spec (nat_of_ascii c) 128); [lia|].
  destruct (Nat.ltb_spec (nat_of_ascii c) 194); [done|lia].
Qed.
