(* ===== verification/RouteMatch.v ===== *)
(** * Matching one route against a path

    Models [router/src/matching/horizontal/*.rs], [matching/path_segment.rs]
    and [PartialPathMatch] of [matching/mod.rs]: how the segments of a route
    definition test a prefix of a path and which parameters they bind. *)

From Stdlib Require Import Ascii.
From stdpp Require Import base list strings sets.
From S2P Require Import Prelude RustStr.

(** [PathSegment], the segments that a route reports about itself. *)
Inductive PathSegment :=
| PUnit
| PStatic (s : str)
| PParam (name : str)
| POptionalParam (name : str)
| PSplat (name : str).

#[global] Instance PathSegment_eq_dec : EqDecision PathSegment.
Proof. solve_decision. Defined.

Definition as_raw_str (p : PathSegment) : str :=
  match p with
  | PUnit => []
  | PStatic i | PParam i | POptionalParam i | PSplat i => i
  end.

(** The params that a match binds, in order. *)
Abbreviation params_t := (list (str * str)).

Record PartialPathMatch := mkPartial {
  remaining : str;
  params : params_t;
  matched : str;
}.

Definition is_complete (m : PartialPathMatch) : bool :=
  bool_decide (remaining m = []) || bool_decide (remaining m = [slash]).

(** The implementations of [PossibleRouteMatch]: [()], the four kinds of
    segments, and the tuples of at least one of them. *)
Inductive segment :=
| SUnit
| SStatic (s : str)
| SParam (name : str)
| SWildcard (name : str)
| SOptionalParam (name : str)
| STuple (first : segment) (rest : list segment).

(** ** The single segments *)

(** The loop of [StaticSegment::test] over the bytes of the path that are left:
    [None] where it returns, otherwise [seg_idx], [matched_len], [has_matched]. *)
Fixpoint static_loop (seg bytes : str) (seg_idx matched_len : nat) (has_matched : bool) :
    option (nat * nat * bool) :=
  match bytes with
  | [] => Some (seg_idx, matched_len, has_matched)
  | byte :: bytes =>
      let expected := seg !! seg_idx in
      if decide (byte = slash) then
        match expected with
        | Some _ => None
        | None => Some (S seg_idx, matched_len, has_matched)
        end
      else
        match expected with
        | None =>
            if bool_decide (seg = []) || bool_decide (seg = [slash])
            then Some (S seg_idx, matched_len, has_matched)
            else None
        | Some e =>
            if decide (byte = e) then static_loop seg bytes (S seg_idx) (S matched_len) true
            else None
        end
  end.

(** The end of [StaticSegment::test], from the loop's result. *)
Definition static_result (seg path : str) (r : option (nat * nat * bool)) :
    outcome (option PartialPathMatch) :=
  match r with
  | None => Ok None
  | Some (seg_idx, matched_len, has_matched) =>
      if seg_idx <? length seg then Ok None
      else
        mr ← (if (matched_len =? 1) && starts_with_char slash path
              then Ok ([slash], path)
              else split_at path matched_len);
        Ok (if (has_matched : bool) then Some (mkPartial mr.2 [] mr.1) else None)
  end.

(** [StaticSegment::test] *)
Definition static_test (seg path : str) : outcome (option PartialPathMatch) :=
  let has_matched := bool_decide (seg = []) || bool_decide (seg = [slash]) in
  let start :=
    if starts_with_char slash path then
      Some (1,
            (if bool_decide (seg = []) then 0 else 1),
            (if starts_with_char slash seg || bool_decide (seg = []) then 1 else 0))
    else if bool_decide (path = []) then Some (0, 0, 0)
    else None in
  match start with
  | None => Ok None
  | Some (path_idx, matched_len, seg_idx) =>
      static_result seg path (static_loop seg (drop path_idx path) seg_idx matched_len has_matched)
  end.

(** [bytes[offset..].iter().position(|&byte| byte == b'/')], or all that is left *)
Definition param_len (path : str) (offset : nat) : nat := segment_len (drop offset path).

Definition leading_slash (path : str) : nat := if starts_with_char slash path then 1 else 0.

(** [path[a..b]] where both ends are character boundaries *)
Definition slice (path : str) (a b : nat) : outcome str :=
  if is_char_boundary path a && is_char_boundary path b then Ok (take (b - a) (drop a path))
  else Panic.

(** [ParamSegment::test] *)
Definition param_test (name path : str) : outcome (option PartialPathMatch) :=
  let offset := leading_slash path in
  if (offset =? 0) && negb (bool_decide (path = [])) then Ok None
  else
    let len := param_len path offset in
    let matched_len := offset + len in
    if (matched_len =? 0) || ((matched_len =? 1) && (offset =? 1)) then Ok None
    else
      mr ← split_at path matched_len;
      v ← slice path offset (len + offset);
      Ok (Some (mkPartial mr.2 [(name, v)] mr.1)).

(** [WildcardSegment::test] *)
Definition wildcard_test (name path : str) : outcome (option PartialPathMatch) :=
  let offset := leading_slash path in
  if (offset =? 0) && negb (bool_decide (path = [])) then Ok None
  else
    let len := length path - offset in
    let matched_len := offset + len in
    mr ← split_at path matched_len;
    v ← slice path offset (len + offset);
    Ok (Some (mkPartial mr.2 [(name, v)] mr.1)).

(** [OptionalParamSegment::test] *)
Definition optional_param_test (name path : str) : outcome (option PartialPathMatch) :=
  let offset := leading_slash path in
  if (offset =? 0) && negb (bool_decide (path = [])) then Ok (Some (mkPartial path [] []))
  else
    let len := param_len path offset in
    let matched_len := offset + len in
    let matched_len := if (matched_len =? 1) && (offset =? 1) then 0 else matched_len in
    mr ← split_at path matched_len;
    ps ← (if 0 <? matched_len then v ← slice path offset (len + offset); Ok [(name, v)]
          else Ok []);
    Ok (Some (mkPartial mr.2 ps mr.1)).

(** ** Tuples *)

(** A field of a tuple: [optional()] and [test]. *)
Abbreviation field := (bool * (str → outcome (option PartialPathMatch)))%type.

(** The end of one run of the loop's body: [return None], [continue] after
    [include_optionals -= 1], or the accumulated [r], [matched_len] and [p]. *)
Inductive attempt :=
| AReturnNone
| AContinue
| ADone (r : str) (matched_len : nat) (p : params_t).

(** The fields after the first one. *)
Fixpoint tuple_fields (include_optionals nth_field : nat) (fields : list field)
    (r : str) (matched_len : nat) (p : params_t) : outcome attempt :=
  match fields with
  | [] => Ok (ADone r matched_len p)
  | (opt, t) :: fields =>
      let nth_field := if (opt : bool) then S nth_field else nth_field in
      if negb opt || (nth_field <=? include_optionals) then
        m ← t r;
        match m with
        | None =>
            Ok (if opt then AReturnNone
                else if include_optionals =? 0 then AReturnNone
                else AContinue)
        | Some m =>
            tuple_fields include_optionals nth_field fields (remaining m)
              (matched_len + length (matched m)) (p ++ params m)
        end
      else tuple_fields include_optionals nth_field fields r matched_len p
  end.

(** The body of the loop. *)
Definition tuple_attempt (include_optionals : nat) (first : field) (fields : list field)
    (path : str) : outcome attempt :=
  let nth_field := if (first.1 : bool) then 1 else 0 in
  if negb first.1 || (nth_field <=? include_optionals) then
    m ← first.2 path;
    match m with
    | None => Ok AReturnNone
    | Some m =>
        tuple_fields include_optionals nth_field fields (remaining m)
          (length (matched m)) (params m)
    end
  else tuple_fields include_optionals nth_field fields path 0 [].

(** The loop: every [continue] has decremented [include_optionals]. *)
Fixpoint tuple_loop (fuel include_optionals : nat) (first : field) (fields : list field)
    (path : str) : outcome (option PartialPathMatch) :=
  match fuel with
  | 0 => NoFuel
  | S fuel =>
      a ← tuple_attempt include_optionals first fields path;
      match a with
      | AReturnNone => Ok None
      | AContinue => tuple_loop fuel (include_optionals - 1) first fields path
      | ADone r matched_len p =>
          matched ← slice_to path matched_len;
          Ok (Some (mkPartial r p matched))
      end
  end.

Definition tuple_test (first : field) (fields : list field) (path : str) :
    outcome (option PartialPathMatch) :=
  let include_optionals :=
    length (List.filter (λ b, b) (map fst (first :: fields))) in
  tuple_loop (S include_optionals) include_optionals first fields path.

(** [PossibleRouteMatch for (A,)] *)
Definition tuple1_test (a : str → outcome (option PartialPathMatch)) (path : str) :
    outcome (option PartialPathMatch) :=
  m ← a path;
  match m with
  | None => Ok None
  | Some m =>
      matched ← slice_to path (length (matched m));
      Ok (Some (mkPartial (remaining m) (params m) matched))
  end.

(** ** [PossibleRouteMatch] *)

Fixpoint optional (x : segment) : bool :=
  match x with
  | SUnit | SStatic _ | SParam _ | SWildcard _ => false
  | SOptionalParam _ => true
  | STuple a l => optional a || existsb optional l
  end.

Fixpoint test (x : segment) (path : str) : outcome (option PartialPathMatch) :=
  match x with
  | SUnit => Ok (Some (mkPartial path [] []))
  | SStatic s => static_test s path
  | SParam name => param_test name path
  | SWildcard name => wildcard_test name path
  | SOptionalParam name => optional_param_test name path
  | STuple a [] => tuple1_test (test a) path
  | STuple a l => tuple_test (optional a, test a) (map (λ t, (optional t, test t)) l) path
  end.

(** [generate_path], appended to [path]. *)
Fixpoint generate_path (x : segment) (path : list PathSegment) : list PathSegment :=
  match x with
  | SUnit => path
  | SStatic s => path ++ [PStatic s]
  | SParam name => path ++ [PParam name]
  | SWildcard name => path ++ [PSplat name]
  | SOptionalParam name => path ++ [POptionalParam name]
  | STuple a l => fold_left (λ path t, generate_path t path) l (generate_path a path)
  end.
