(* ===== verification/RouteFacts.v ===== *)
(** * What the single segments match

    A specification of each kind of segment in terms of prefixes of the path,
    and the proof that the tests implement it.  A match splits the path before
    a slash or at its end, so that no test can panic. *)

From Stdlib Require Import Ascii.
From stdpp Require Import base list strings sets.
From S2P Require Import Prelude RustStr RouteMatch.

(** ** Static segments *)

(** A static segment without the slash that it may begin with. *)
Definition static_body (s : str) : str :=
  match s with c :: s' => if decide (c = slash) then s' else s | [] => [] end.

(** The segment matches exactly itself, up to the end of the path's segment.
    [""] and ["/"] match the start of any segment and consume nothing. *)
Definition static_spec (s path : str) : option PartialPathMatch :=
  if decide (s = []) then
    if decide (at_segment path) then Some (mkPartial path [] []) else None
  else if decide (s = [slash]) then
    if starts_with_char slash path then Some (mkPartial path [] [slash]) else None
  else if decide (slash ∈ static_body s) then None
  else
    match strip_prefix (slash :: static_body s) path with
    | Some r => if decide (at_segment r)
                then Some (mkPartial r [] (slash :: static_body s)) else None
    | None => None
    end.

(** What the loop and the check after it leave of the segment. *)
Definition loop_result (s : str) (r : option (nat * nat * bool)) : option (nat * bool) :=
  match r with
  | Some (i, m, h) => if i <? length s then None else Some (m, h)
  | None => None
  end.

Lemma static_loop_ok pre b bytes m h :
  pre ++ b ≠ [] → pre ++ b ≠ [slash] →
  loop_result (pre ++ b) (static_loop (pre ++ b) bytes (length pre) m h) =
    if decide (slash ∈ b) then None
    else match strip_prefix b bytes with
         | Some r => if decide (at_segment r)
                     then Some (m + length b, if decide (b = []) then h else true) else None
         | None => None
         end.
Proof.
  intros H1 H2. revert pre b m h H1 H2. induction bytes as [|c bytes IH]; intros pre b m h H1 H2; simpl.
  - rewrite length_app. destruct b as [|x b]; simpl.
    + by rewrite !Nat.add_0_r, Nat.ltb_irrefl.
    + destruct (Nat.ltb_spec (length pre) (length pre + S (length b))); [|lia].
      by case_decide.
  - destruct b as [|x b].
    + rewrite lookup_ge_None_2 by (rewrite length_app; simpl; lia).
      simpl.
      rewrite !bool_decide_eq_false_2 by done. simpl.
      case_decide as Hc; [subst c|].
      * simpl. rewrite length_app. simpl.
        destruct (Nat.ltb_spec (S (length pre)) (length pre + 0)); [lia|].
        by rewrite Nat.add_0_r.
      * rewrite decide_False; [done|]. intros [?|[t Ht]]; congruence.
    + rewrite list_lookup_middle by done. simpl.
      case_decide as Hc; [subst c|].
      * case_decide as Hin; [done|]. rewrite decide_False; [done|]. set_solver.
      * destruct (decide (c = x)) as [->|Hx].
        -- specialize (IH (pre ++ [x]) b (S m) true).
           rewrite <-(assoc app pre [x] b), length_app in IH. simpl in IH.
           rewrite Nat.add_1_r in IH. rewrite IH by done.
           assert (slash ∈ b ↔ slash ∈ x :: b) as Hiff by set_solver.
           destruct (decide (slash ∈ b)) as [Hb|Hb];
             destruct (decide (slash ∈ x :: b)) as [Hb'|Hb']; [done|tauto|tauto|].
           rewrite (decide_True (P := x = x)) by done.
           destruct (strip_prefix b bytes); [|done].
           destruct (decide (at_segment _)); [|done]. rewrite <-plus_n_Sm.
           by destruct (decide (b = [])).
        -- destruct (decide (slash ∈ x :: b)); [done|].
           destruct (decide (x = c)); [congruence|done].
Qed.

Lemma static_loop_empty bytes m h :
  loop_result [] (static_loop [] bytes 1 m h) = Some (m, h).
Proof. destruct bytes as [|c bytes]; simpl; [done|]. by case_decide. Qed.

Lemma static_loop_slash bytes m h :
  loop_result [slash] (static_loop [slash] bytes 1 m h) = Some (m, h).
Proof. destruct bytes as [|c bytes]; simpl; [done|]. by case_decide. Qed.

Lemma static_finish s path r :
  static_result s path r =
  match loop_result s r with
  | None => Ok None
  | Some (matched_len, has_matched) =>
      mr ← (if (matched_len =? 1) && starts_with_char slash path
            then Ok ([slash], path)
            else split_at path matched_len);
      Ok (if (has_matched : bool) then Some (mkPartial mr.2 [] mr.1) else None)
  end.
Proof. destruct r as [[[i m] h]|]; simpl; [|done]. by destruct (i <? length s). Qed.

Lemma starts_with_slash s : starts_with_char slash s = true ↔ ∃ t, s = slash :: t.
Proof.
  destruct s as [|c t]; simpl; [naive_solver|]. rewrite bool_decide_eq_true. naive_solver.
Qed.

Lemma static_test_spec s path : static_test s path = Ok (static_spec s path).
Proof.
  unfold static_test. cbv zeta.
  destruct (decide (s = [])) as [->|Hs].
  { unfold static_spec. rewrite decide_True by done.
    destruct path as [|c path]; [done|]. simpl.
    destruct (decide (c = slash)) as [->|Hc].
    - rewrite bool_decide_eq_true_2 by done. rewrite static_finish, static_loop_empty. simpl.
      done.
    - rewrite bool_decide_eq_false_2 by done.
      rewrite decide_False; [done|]. intros [?|[t ?]]; congruence. }
  destruct (decide (s = [slash])) as [->|Hs'].
  { destruct path as [|c path]; [done|]. simpl.
    destruct (decide (c = slash)) as [->|Hc].
    - rewrite bool_decide_eq_true_2 by done. by rewrite static_finish, static_loop_slash.
    - rewrite bool_decide_eq_false_2 by done. unfold static_spec. simpl.
      by rewrite bool_decide_eq_false_2 by done. }
  unfold static_spec. rewrite (decide_False (P := s = [])), (decide_False (P := s = [slash])) by done.
  rewrite !(bool_decide_eq_false_2 (s = [])), (bool_decide_eq_false_2 (s = [slash])) by done.
  destruct path as [|c path].
  { simpl. destruct s as [|x s]; [done|]. simpl. by repeat case_decide. }
  simpl starts_with_char. destruct (decide (c = slash)) as [->|Hc].
  2: { rewrite bool_decide_eq_false_2 by done. simpl.
       case_decide; [done|]. by rewrite decide_False by done. }
  rewrite bool_decide_eq_true_2 by done. rewrite static_finish, skipn_cons, drop_0.
  rewrite orb_false_r. simpl strip_prefix.
  assert (∃ pre, s = pre ++ static_body s ∧
    (if starts_with_char slash s then 1 else 0) = length pre ∧ static_body s ≠ []) as (pre & Hpre & Hlen & Hb).
  { destruct s as [|x s]; [done|]. simpl. destruct (decide (x = slash)) as [->|Hx].
    - exists [slash]. rewrite bool_decide_eq_true_2 by done. split_and!; [done..|].
      intros ->. done.
    - exists []. rewrite bool_decide_eq_false_2 by done. done. }
  rewrite Hlen. pose proof (static_loop_ok pre (static_body s) path 1 false) as Hloop.
  rewrite <-Hpre in Hloop. simpl orb. rewrite Hloop by done.
  case_decide as Hin; [done|]. simpl.
  destruct (strip_prefix (static_body s) path) as [r|] eqn:Hp; [|done].
  apply strip_prefix_Some in Hp as ->. case_decide as Hr; [|done].
  rewrite decide_False by done.
  destruct (Nat.eqb_spec (S (length (static_body s))) 1) as [He|_].
  { by destruct (static_body s). }
  rewrite andb_false_l. change (slash :: static_body s ++ r) with ((slash :: static_body s) ++ r).
  change (S (length (static_body s))) with (length (slash :: static_body s)).
  by rewrite split_at_app by auto.
Qed.

(** ** Parameters *)

(** The first segment of a path, after its slash, and what follows it. *)
Definition first_segment (path : str) : option (str * str) :=
  match path with
  | c :: p => if decide (c = slash) then Some (take (segment_len p) p, drop (segment_len p) p)
              else None
  | [] => None
  end.

(** A param binds a whole segment that is not empty. *)
Definition param_spec (name path : str) : option PartialPathMatch :=
  match first_segment path with
  | Some (v, r) => if decide (v = []) then None else Some (mkPartial r [(name, v)] (slash :: v))
  | None => None
  end.

(** A wildcard binds all that is left of the path. *)
Definition wildcard_spec (name path : str) : option PartialPathMatch :=
  match path with
  | [] => Some (mkPartial [] [(name, [])] [])
  | c :: p => if decide (c = slash) then Some (mkPartial [] [(name, p)] path) else None
  end.

(** An optional param binds what a param would, or nothing; it never fails. *)
Definition optional_param_spec (name path : str) : PartialPathMatch :=
  default (mkPartial path [] []) (param_spec name path).

Lemma first_segment_Some path v r :
  first_segment path = Some (v, r) ↔ path = slash :: (v ++ r) ∧ (slash ∉ v) ∧ at_segment r.
Proof.
  destruct path as [|c p]; simpl; [naive_solver|].
  destruct (segment_split p) as (w & t & -> & Hw & Ht & ->).
  rewrite take_app_length, drop_app_length. case_decide as Hc; [subst c|naive_solver].
  split; [naive_solver|]. intros ([= H] & Hv & Hr).
  pose proof (segment_len_app w t Hw Ht) as H1. pose proof (segment_len_app v r Hv Hr) as H2.
  rewrite H in H1. by destruct (app_inj_1 w v t r) as [-> ->]; [congruence|done|].
Qed.


(** [path[1..n]] of a path that begins with a slash *)
Lemma slice_tail a b :
  utf8 (slash :: a ++ b) = true → at_segment b → slice (slash :: a ++ b) 1 (length a + 1) = Ok a.
Proof.
  intros Hu Hb. unfold slice. rewrite Nat.add_1_r, utf8_after_slash by done.
  change (slash :: a ++ b) with ((slash :: a) ++ b).
  change (S (length a)) with (length (slash :: a)). rewrite boundary_segment by auto.
  simpl. rewrite Nat.sub_0_r, drop_0. by rewrite take_app_length.
Qed.

Lemma split_at_tail a b :
  at_segment b → split_at (slash :: a ++ b) (S (length a)) = Ok (slash :: a, b).
Proof. intros Hb. apply (split_at_app (slash :: a) b). auto. Qed.

(** Every path is empty, begins with a segment, or does not begin with a slash. *)
Lemma path_cases path :
  path = [] ∨
  (∃ v r, path = slash :: (v ++ r) ∧ (slash ∉ v) ∧ at_segment r ∧
    segment_len (v ++ r) = length v ∧ first_segment path = Some (v, r)) ∨
  (path ≠ [] ∧ starts_with_char slash path = false ∧ first_segment path = None).
Proof.
  destruct path as [|c p]; [by left|right].
  destruct (decide (c = slash)) as [->|Hc]; [left|right].
  - destruct (segment_split p) as (v & r & -> & Hv & Hr & Hl).
    exists v, r. split_and!; [done..|]. by apply first_segment_Some.
  - simpl. rewrite bool_decide_eq_false_2, decide_False by done. done.
Qed.

Lemma param_test_spec name path :
  utf8 path = true → param_test name path = Ok (param_spec name path).
Proof.
  intros Hu. unfold param_test, param_spec, leading_slash, param_len.
  destruct (path_cases path) as [->|[(v & r & -> & Hv & Hr & Hl & ->)|(Hp & -> & ->)]].
  - done.
  - simpl. rewrite drop_0, Hl.
    destruct v as [|x v]; [done|]. simpl length. simpl.
    pose proof (split_at_tail (x :: v) r Hr) as Hs. simpl in Hs. rewrite Hs. simpl.
    pose proof (slice_tail (x :: v) r Hu Hr) as Ht. simpl in Ht. by rewrite Ht.
  - simpl. by rewrite bool_decide_eq_false_2.
Qed.

Lemma wildcard_test_spec name path :
  utf8 path = true → wildcard_test name path = Ok (wildcard_spec name path).
Proof.
  intros Hu. unfold wildcard_test, leading_slash. destruct path as [|c p]; [done|].
  simpl starts_with_char. simpl wildcard_spec.
  destruct (decide (c = slash)) as [->|Hc].
  - simpl. rewrite Nat.sub_0_r.
    pose proof (split_at_tail p [] at_segment_nil) as Hs. rewrite app_nil_r in Hs. rewrite Hs.
    simpl. pose proof (slice_tail p []) as Ht. rewrite app_nil_r in Ht.
    by rewrite Ht.
  - by rewrite bool_decide_eq_false_2.
Qed.

Lemma optional_param_test_spec name path :
  utf8 path = true →
  optional_param_test name path = Ok (Some (optional_param_spec name path)).
Proof.
  intros Hu. unfold optional_param_test, optional_param_spec, param_spec, leading_slash, param_len.
  destruct (path_cases path) as [->|[(v & r & -> & Hv & Hr & Hl & ->)|(Hp & -> & ->)]].
  - done.
  - simpl. rewrite drop_0, Hl.
    destruct v as [|x v]; [done|]. simpl length. simpl.
    pose proof (split_at_tail (x :: v) r Hr) as Hs. simpl in Hs. rewrite Hs. simpl.
    pose proof (slice_tail (x :: v) r Hu Hr) as Ht. simpl in Ht. by rewrite Ht.
  - simpl. by rewrite bool_decide_eq_false_2.
Qed.

(** * What the tuples match

    The tests of nested tuples are total and split the path, as long as no
    segment is a lone slash, and they agree with matching the segments of the
    flattened route one after the other. *)

Lemma segment_nested_ind (P : segment → Prop) :
  P SUnit → (∀ s, P (SStatic s)) → (∀ n, P (SParam n)) → (∀ n, P (SWildcard n)) →
  (∀ n, P (SOptionalParam n)) → (∀ a l, P a → Forall P l → P (STuple a l)) →
  ∀ x, P x.
Proof.
  intros H1 H2 H3 H4 H5 H6. fix IH 1. intros [|s|n|n|n|a l]; [auto..|].
  apply H6; [apply IH|]. induction l as [|b l IHl]; constructor; [apply IH|apply IHl].
Qed.

(** No part of the route is [StaticSegment("/")], which reports a match that it
    does not consume. *)
Fixpoint no_root (x : segment) : bool :=
  match x with
  | SStatic s => negb (bool_decide (s = [slash]))
  | STuple a l => no_root a && forallb no_root l
  | _ => true
  end.

(** ** Totality *)

Definition good_match (path : str) (m : PartialPathMatch) : Prop :=
  path = matched m ++ remaining m ∧ (at_segment (remaining m) ∨ matched m = []).

Definition total_test (t : str → outcome (option PartialPathMatch)) : Prop :=
  ∀ path, utf8 path = true →
    ∃ m, t path = Ok m ∧ ∀ p, m = Some p → good_match path p.

Lemma utf8_rest a b : utf8 (a ++ b) = true → at_segment b ∨ a = [] → utf8 b = true.
Proof. intros Hu [Hb| ->]; [by eapply utf8_tail|done]. Qed.

Lemma static_spec_good s path m :
  s ≠ [slash] → static_spec s path = Some m → good_match path m.
Proof.
  unfold static_spec, good_match. intros Hs. rewrite (decide_False (P := s = [slash])) by done.
  destruct (decide (s = [])) as [->|Hs0].
  { case_decide; [|done]. intros [= <-]. simpl. auto. }
  case_decide; [done|]. destruct (strip_prefix _ _) as [r|] eqn:Hr; [|done].
  apply strip_prefix_Some in Hr as ->. case_decide; [|done]. intros [= <-]. simpl. auto.
Qed.

Lemma param_spec_good n path m : param_spec n path = Some m → good_match path m.
Proof.
  unfold param_spec, good_match. destruct (first_segment path) as [[v r]|] eqn:Hf; [|done].
  apply first_segment_Some in Hf as (-> & Hv & Hr). case_decide; [done|].
  intros [= <-]. simpl. auto.
Qed.

Lemma wildcard_spec_good n path m : wildcard_spec n path = Some m → good_match path m.
Proof.
  unfold wildcard_spec, good_match. destruct path as [|c p]; [intros [= <-]; simpl; auto|].
  case_decide; [|done]. intros [= <-]. simpl. rewrite app_nil_r. auto.
Qed.

Lemma optional_param_spec_good n path : good_match path (optional_param_spec n path).
Proof.
  unfold optional_param_spec. destruct (param_spec n path) eqn:Hp; simpl.
  - by eapply param_spec_good.
  - split; simpl; auto.
Qed.

(** What an attempt leaves behind. *)
Definition good_attempt (path : str) (include_optionals : nat) (a : attempt) : Prop :=
  match a with
  | AReturnNone => True
  | AContinue => include_optionals ≠ 0
  | ADone r n p => ∃ pre, n = length pre ∧ path = pre ++ r ∧ (at_segment r ∨ pre = [])
  end.

Lemma tuple_fields_total path k fields :
  utf8 path = true → Forall (λ f : field, total_test f.2) fields →
  ∀ nth pre r p, path = pre ++ r → at_segment r ∨ pre = [] →
  ∃ a, tuple_fields k nth fields r (length pre) p = Ok a ∧ good_attempt path k a.
Proof.
  intros Hu. induction 1 as [|[o t] fields Ht _ IH]; intros nth pre r p Hpath Hr; simpl.
  { eexists. split; [done|]. simpl. eauto. }
  set (nth' := if o then S nth else nth).
  destruct (negb o || (nth' <=? k)); [|by apply IH].
  assert (utf8 r = true) as Hur by (subst path; by eapply utf8_rest).
  destruct (Ht r Hur) as (m & Hm & Hgood). simpl in Hm. rewrite Hm. simpl.
  destruct m as [m|].
  - destruct (Hgood m eq_refl) as [Hsplit Hseg]. rewrite <-length_app.
    apply IH; [subst path; rewrite Hsplit at 1; by rewrite (assoc app)|].
    destruct Hseg as [?|Hnil]; [by left|]. rewrite Hnil, app_nil_r.
    rewrite Hnil in Hsplit. simpl in Hsplit. by rewrite <-Hsplit.
  - eexists. split; [done|]. destruct o; [done|]. simpl.
    by destruct (Nat.eqb_spec k 0).
Qed.

Lemma tuple_attempt_total path k first fields :
  utf8 path = true → Forall (λ f : field, total_test f.2) (first :: fields) →
  ∃ a, tuple_attempt k first fields path = Ok a ∧ good_attempt path k a.
Proof.
  intros Hu [Hf Hfs]%Forall_cons. unfold tuple_attempt.
  destruct first as [o t]. simpl in *.
  destruct (negb o || ((if o then 1 else 0) <=? k)).
  - destruct (Hf path Hu) as (m & Hm & Hgood). rewrite Hm. simpl.
    destruct m as [m|]; [|by exists AReturnNone].
    destruct (Hgood m eq_refl) as [Hsplit Hseg]. by apply tuple_fields_total.
  - apply (tuple_fields_total path k fields Hu Hfs _ [] path); auto.
Qed.

Lemma tuple_loop_total path first fields :
  utf8 path = true → Forall (λ f : field, total_test f.2) (first :: fields) →
  ∀ fuel k, k < fuel →
  ∃ m, tuple_loop fuel k first fields path = Ok m ∧ ∀ p, m = Some p → good_match path p.
Proof.
  intros Hu Hf. induction fuel as [|fuel IH]; intros k Hk; [lia|]. simpl.
  destruct (tuple_attempt_total path k first fields Hu Hf) as (a & Ha & Hgood).
  rewrite Ha. simpl. destruct a as [| |r n p].
  - eexists. split; [done|]. done.
  - simpl in Hgood. apply IH. lia.
  - destruct Hgood as (pre & -> & -> & Hr). rewrite slice_to_app by done. simpl.
    eexists. split; [done|]. intros q [= <-]. by split.
Qed.

Lemma test_total x : no_root x = true → total_test (test x).
Proof.
  induction x as [|s|n|n|n|a l IHa IHl] using segment_nested_ind; simpl; intros Hx path Hu.
  - eexists. split; [done|]. intros p [= <-]. split; simpl; auto.
  - rewrite static_test_spec. eexists. split; [done|]. intros p.
    apply static_spec_good. intros ->. done.
  - rewrite param_test_spec by done. eauto using param_spec_good.
  - rewrite wildcard_test_spec by done. eauto using wildcard_spec_good.
  - rewrite optional_param_test_spec by done. eexists. split; [done|].
    intros p [= <-]. apply optional_param_spec_good.
  - apply andb_true_iff in Hx as [Ha Hl].
    assert (Forall (λ f : field, total_test f.2)
      ((optional a, test a) :: map (λ t, (optional t, test t)) l)) as Hall.
    { constructor; [by apply IHa|]. apply Forall_map. rewrite forallb_forall in Hl.
      rewrite Forall_forall in IHl |- *. intros t Ht. apply IHl; [done|].
      apply Hl. by apply list_elem_of_In. }
    destruct l as [|b l].
    + unfold tuple1_test. destruct (IHa Ha path Hu) as (m & -> & Hgood). simpl.
      destruct m as [m|]; [|by eexists]. destruct (Hgood m eq_refl) as [Hsplit Hseg].
      assert (slice_to path (length (matched m)) = Ok (matched m)) as ->.
      { rewrite Hsplit at 1. by apply slice_to_app. }
      eexists. split; [done|]. intros p [= <-]. by split.
    + apply tuple_loop_total; [done..|]. lia.
Qed.

(** ** Matching the flattened route *)

Definition segment_spec (s : PathSegment) (path : str) : option PartialPathMatch :=
  match s with
  | PUnit => Some (mkPartial path [] [])
  | PStatic s => static_spec s path
  | PParam n => param_spec n path
  | POptionalParam n => Some (optional_param_spec n path)
  | PSplat n => wildcard_spec n path
  end.

(** The params bound by the segments one after the other, and the rest. *)
Fixpoint seq_match (l : list PathSegment) (path : str) : option (params_t * str) :=
  match l with
  | [] => Some ([], path)
  | s :: l =>
      match segment_spec s path with
      | Some m => match seq_match l (remaining m) with
                  | Some (ps, r) => Some (params m ++ ps, r)
                  | None => None
                  end
      | None => None
      end
  end.

Definition is_optional_param (s : PathSegment) : bool :=
  match s with POptionalParam _ => true | _ => false end.
Definition count_optionals (l : list PathSegment) : nat :=
  length (List.filter is_optional_param l).

(** The route with only its first [k] optional params. *)
Fixpoint choose (k : nat) (l : list PathSegment) : list PathSegment :=
  match l with
  | [] => []
  | s :: l =>
      if is_optional_param s then
        match k with 0 => choose 0 l | S k => s :: choose k l end
      else s :: choose k l
  end.

(** With as many of the optional params as possible. *)
Fixpoint longest_match (k : nat) (l : list PathSegment) (path : str) :
    option (params_t * str) :=
  match seq_match (choose k l) path with
  | Some r => Some r
  | None => match k with 0 => None | S k => longest_match k l path end
  end.

(** What a match binds and leaves. *)
Definition bound (m : PartialPathMatch) : params_t * str := (params m, remaining m).

Lemma seq_match_app l1 l2 path :
  seq_match (l1 ++ l2) path =
    match seq_match l1 path with
    | Some (ps, r) => match seq_match l2 r with
                      | Some (ps', r') => Some (ps ++ ps', r')
                      | None => None
                      end
    | None => None
    end.
Proof.
  revert path. induction l1 as [|s l1 IH]; intros path; simpl.
  { by destruct (seq_match l2 path) as [[? ?]|]. }
  destruct (segment_spec s path); [|done]. rewrite IH.
  destruct (seq_match l1 _) as [[ps r]|]; [|done].
  destruct (seq_match l2 r) as [[ps' r']|]; [|done]. by rewrite (assoc app).
Qed.

Lemma generate_path_acc x : ∀ acc, generate_path x acc = acc ++ generate_path x [].
Proof.
  induction x as [|s|n|n|n|a l IHa IHl] using segment_nested_ind; intros acc; simpl;
    [by rewrite app_nil_r|done..|].
  rewrite IHa. generalize (generate_path a []). intros g. clear IHa a.
  revert acc g. induction IHl as [|b l Hb _ IH]; intros acc g; simpl; [done|].
  rewrite (Hb (acc ++ g)), (Hb g), <-(assoc app). apply IH.
Qed.

Lemma generate_path_tuple a l :
  generate_path (STuple a l) [] = mjoin (map (λ x, generate_path x []) (a :: l)).
Proof.
  simpl. generalize (generate_path a []). induction l as [|b l IH]; intros g; simpl.
  { by rewrite app_nil_r. }
  rewrite generate_path_acc, IH. by rewrite (assoc app).
Qed.

Lemma choose_app k l1 l2 :
  forallb (λ s, negb (is_optional_param s)) l1 = true → choose k (l1 ++ l2) = l1 ++ choose k l2.
Proof.
  induction l1 as [|s l1 IH]; simpl; [done|]. intros [Hs Hl]%andb_true_iff.
  rewrite IH by done. by destruct (is_optional_param s).
Qed.

Lemma choose_required k l :
  forallb (λ s, negb (is_optional_param s)) l = true → choose k l = l.
Proof. intros H. rewrite <-(app_nil_r l), choose_app by done. simpl. by rewrite !app_nil_r. Qed.

Lemma count_required l :
  forallb (λ s, negb (is_optional_param s)) l = true → count_optionals l = 0.
Proof.
  unfold count_optionals. induction l as [|s l IH]; simpl; [done|].
  intros [Hs Hl]%andb_true_iff. by destruct (is_optional_param s); [|apply IH].
Qed.

Lemma count_app l1 l2 : count_optionals (l1 ++ l2) = count_optionals l1 + count_optionals l2.
Proof. unfold count_optionals. by rewrite List.filter_app, length_app. Qed.

(** A test that agrees with a list of segments. *)
Definition implements (t : str → outcome (option PartialPathMatch)) (g : list PathSegment) : Prop :=
  ∀ path, utf8 path = true → ∃ m, t path = Ok m ∧ bound <$> m = seq_match g path.

(** A field of a tuple: it has no optional params or is one. *)
Definition good_field (f : field) (g : list PathSegment) : Prop :=
  total_test f.2 ∧ implements f.2 g ∧
  if f.1 then ∃ n, g = [POptionalParam n]
  else forallb (λ s, negb (is_optional_param s)) g = true.

Lemma good_field_test o t g r :
  good_field (o, t) g → utf8 r = true →
  ∃ m, t r = Ok m ∧ bound <$> m = seq_match g r ∧ ∀ p, m = Some p → utf8 (remaining p) = true.
Proof.
  intros (Htot & Himp & _) Hu. destruct (Himp r Hu) as (m & Hm & Hb). simpl in Hm.
  exists m. split_and!; [done..|]. intros p ->.
  destruct (Htot r Hu) as (m' & Hm' & Hgood). simpl in Hm'. rewrite Hm in Hm'. injection Hm' as <-.
  destruct (Hgood p eq_refl) as [Hsplit Hseg]. rewrite Hsplit in Hu. by eapply utf8_rest.
Qed.

Lemma tuple_fields_seq k fields gs :
  Forall2 good_field fields gs →
  ∀ nth r n p, utf8 r = true →
  match seq_match (choose (k - nth) (mjoin gs)) r with
  | Some (ps, r') => ∃ n', tuple_fields k nth fields r n p = Ok (ADone r' n' (p ++ ps))
  | None => tuple_fields k nth fields r n p = Ok (if k =? 0 then AReturnNone else AContinue)
  end.
Proof.
  induction 1 as [|[o t] g fields gs Hf _ IH]; intros nth r n p Hu; cbn [tuple_fields mjoin list_join].
  { exists n. by rewrite app_nil_r. }
  destruct (good_field_test o t g r Hf Hu) as (m & Ht & Hb & Hrest).
  destruct Hf as (_ & _ & Hg). simpl in Hg. destruct o; cbn [negb orb].
  - destruct Hg as [name ->]. cbn [app choose is_optional_param].
    destruct (Nat.leb_spec (S nth) k) as [Hk|Hk].
    + replace (k - nth) with (S (k - S nth)) by lia. rewrite Ht.
      destruct m as [m|]; [|done]. simpl in Hb. injection Hb as Hp Hr.
      rewrite app_nil_r in Hp. simpl. rewrite <-Hp, <-Hr.
      specialize (IH (S nth) (remaining m) (n + length (matched m)) (p ++ params m)
        (Hrest m eq_refl)).
      destruct (seq_match _ _) as [[ps r']|]; [|done].
      destruct IH as [n' IH]. exists n'. by rewrite IH, (assoc app).
    + replace (k - nth) with 0 by lia.
      specialize (IH (S nth) r n p Hu). by replace (k - S nth) with 0 in IH by lia.
  - rewrite choose_app, seq_match_app by done. rewrite Ht. simpl.
    rewrite <-Hb. destruct m as [m|]; simpl; [|by destruct (k =? 0)].
    specialize (IH nth (remaining m) (n + length (matched m)) (p ++ params m) (Hrest m eq_refl)).
    destruct (seq_match _ _) as [[ps r']|]; [|done].
    destruct IH as [n' IH]. exists n'. by rewrite IH, (assoc app).
Qed.

Lemma tuple_attempt_seq k f g fields gs path :
  good_field f g → Forall2 good_field fields gs → utf8 path = true →
  match seq_match (choose k (mjoin (g :: gs))) path with
  | Some (ps, r) => ∃ n, tuple_attempt k f fields path = Ok (ADone r n ps)
  | None => tuple_attempt k f fields path = Ok (if k =? 0 then AReturnNone else AContinue) ∨
            tuple_attempt k f fields path = Ok AReturnNone ∧
            seq_match g path = None ∧ f.1 = false
  end.
Proof.
  intros Hf Hfs Hu. destruct f as [o t].
  pose proof (tuple_fields_seq k ((o, t) :: fields) (g :: gs)
    (proj2 (Forall2_cons good_field (o, t) fields g gs) (conj Hf Hfs)) 0 path 0 [] Hu) as H.
  destruct (good_field_test o t g path Hf Hu) as (m & Ht & Hb & _).
  destruct Hf as (_ & _ & Hg). simpl in Hg.
  unfold tuple_attempt. rewrite Nat.sub_0_r in H. revert H.
  cbn [tuple_fields fst snd]. rewrite Ht. destruct o; cbn [negb orb].
  - destruct Hg as [name ->]. destruct m as [m|]; [|done].
    destruct (seq_match (choose _ _) _) as [[ps r]|]; intros H; [exact H|left; exact H].
  - destruct m as [m|].
    + destruct (seq_match (choose _ _) _) as [[ps r]|]; intros H; [exact H|left; exact H].
    + cbn [mjoin list_join]. rewrite choose_app, seq_match_app, <-Hb by done.
      intros _. right. done.
Qed.

(** A first field that fails, fails every attempt. *)
Lemma longest_match_first k g l path :
  forallb (λ s, negb (is_optional_param s)) g = true → seq_match g path = None →
  longest_match k (g ++ l) path = None.
Proof.
  intros Hg Hn. induction k as [|k IH]; simpl; rewrite choose_app, seq_match_app, Hn by done;
    [done|apply IH].
Qed.

Lemma tuple_loop_seq f g fields gs path :
  good_field f g → Forall2 good_field fields gs → utf8 path = true →
  ∀ fuel k m, tuple_loop fuel k f fields path = Ok m →
    bound <$> m = longest_match k (mjoin (g :: gs)) path.
Proof.
  intros Hf Hfs Hu. induction fuel as [|fuel IH]; intros k m; [done|]. simpl tuple_loop.
  pose proof (tuple_attempt_seq k f g fields gs path Hf Hfs Hu) as Ha.
  assert (longest_match k (mjoin (g :: gs)) path =
    match seq_match (choose k (mjoin (g :: gs))) path with
    | Some r => Some r
    | None => match k with 0 => None | S k => longest_match k (mjoin (g :: gs)) path end
    end) as Hl by (by destruct k).
  rewrite Hl. destruct (seq_match (choose k _) path) as [[ps r]|].
  - destruct Ha as [n ->]. simpl. destruct (slice_to path n); [|done..]. by intros [= <-].
  - destruct Ha as [-> | (-> & Hn & Ho)]; simpl.
    + destruct k as [|k]; simpl; [by intros [= <-]|]. rewrite Nat.sub_0_r. apply IH.
    + intros [= <-]. destruct k as [|k]; [done|]. simpl.
      destruct f as [o t]. simpl in Ho. subst o. destruct Hf as (_ & _ & Hg).
      by rewrite longest_match_first.
Qed.

Lemma join_cons {A} (g : list A) gs : mjoin (g :: gs) = g ++ mjoin gs.
Proof. done. Qed.

Lemma count_fields fields gs :
  Forall2 good_field fields gs →
  length (List.filter (λ b, b) (map fst fields)) = count_optionals (mjoin gs).
Proof.
  induction 1 as [|[o t] g fields gs (_ & _ & Hg) _ IH]; [done|].
  rewrite join_cons, count_app, <-IH. cbn [map fst List.filter].
  simpl in Hg. destruct o; [by destruct Hg as [n ->]|]. by rewrite count_required.
Qed.

Lemma tuple_test_seq f g fields gs :
  good_field f g → Forall2 good_field fields gs →
  let l := mjoin (g :: gs) in
  ∀ path, utf8 path = true → ∃ m,
    tuple_test f fields path = Ok m ∧ bound <$> m = longest_match (count_optionals l) l path.
Proof.
  intros Hf Hfs l path Hu. unfold tuple_test.
  rewrite (count_fields (f :: fields) (g :: gs)) by (by constructor).
  destruct (tuple_loop_total path f fields Hu) with
    (fuel := S (count_optionals l)) (k := count_optionals l) as (m & Hm & _); [|lia|].
  { constructor; [apply Hf|]. eapply Forall2_Forall_l; [exact Hfs|].
    apply Forall_forall. intros ? _ ? H. apply H. }
  exists m. split; [done|]. by eapply tuple_loop_seq.
Qed.

Lemma optional_required x :
  optional x = false → forallb (λ s, negb (is_optional_param s)) (generate_path x []) = true.
Proof.
  induction x as [|s|n|n|n|a l IHa IHl] using segment_nested_ind; try done.
  intros [Ha Hl]%orb_false_iff. rewrite generate_path_tuple. cbn [map].
  rewrite join_cons, forallb_app, IHa by done. clear a IHa Ha. simpl.
  induction IHl as [|b l Hb _ IH]; [done|]. simpl in Hl. apply orb_false_iff in Hl as [Hb' Hl].
  cbn [map]. by rewrite join_cons, forallb_app, Hb, IH by done.
Qed.

Lemma one_segment s path : seq_match [s] path = bound <$> segment_spec s path.
Proof.
  simpl. destruct (segment_spec s path) as [m|]; [|done]. by rewrite app_nil_r.
Qed.

Lemma good_field_of x :
  no_root x = true → optional x = false → implements (test x) (generate_path x []) →
  good_field (optional x, test x) (generate_path x []).
Proof.
  intros Hr Ho Hi. split_and!; [by apply test_total|done|]. simpl. rewrite Ho.
  by apply optional_required.
Qed.

Lemma test_implements x :
  no_root x = true → optional x = false → implements (test x) (generate_path x []).
Proof.
  induction x as [|s|n|n|n|a l IHa IHl] using segment_nested_ind; intros Hr Ho path Hu.
  - by eexists.
  - simpl test. rewrite static_test_spec. eexists. split; [done|]. symmetry. apply (one_segment (PStatic s)).
  - simpl test. rewrite param_test_spec by done. eexists. split; [done|]. symmetry. apply (one_segment (PParam n)).
  - simpl test. rewrite wildcard_test_spec by done. eexists. split; [done|]. symmetry. apply (one_segment (PSplat n)).
  - done.
  - simpl in Hr, Ho. apply andb_true_iff in Hr as [Hra Hrl].
    apply orb_false_iff in Ho as [Hoa Hol].
    rewrite generate_path_tuple. cbn [map].
    destruct l as [|b l].
    + simpl. rewrite app_nil_r. unfold tuple1_test.
      destruct (IHa Hra Hoa path Hu) as (m & Hm & Hb). rewrite Hm. simpl.
      destruct (test_total a Hra path Hu) as (m' & Hm' & Hg). rewrite Hm in Hm'.
      injection Hm' as <-. destruct m as [m|]; [|by exists None].
      destruct (Hg m eq_refl) as [Hsplit Hseg].
      assert (slice_to path (length (matched m)) = Ok (matched m)) as ->.
      { rewrite Hsplit at 1. by apply slice_to_app. }
      simpl. eexists. split; [done|]. by rewrite <-Hb.
    + assert (Forall2 good_field (map (λ t, (optional t, test t)) (b :: l))
        (map (λ x, generate_path x []) (b :: l))) as Hfs.
      { clear IHa Hra Hoa. revert IHl Hrl Hol. generalize (b :: l). clear b l.
        induction 1 as [|b l Hb _ IH]; simpl; [constructor|].
        intros [Hrb Hrl]%andb_true_iff [Hob Hol]%orb_false_iff.
        constructor; [apply good_field_of; auto|auto]. }
      destruct (tuple_test_seq (optional a, test a) (generate_path a [])
        _ _ (good_field_of a Hra Hoa (IHa Hra Hoa)) Hfs path Hu) as (m & Hm & Hb).
      exists m. split; [exact Hm|]. rewrite Hb.
      assert (forallb (λ s, negb (is_optional_param s))
        (mjoin (map (λ x, generate_path x []) (a :: b :: l))) = true) as Hreq.
      { rewrite <-generate_path_tuple. apply optional_required. simpl in *. by rewrite Hoa. }
      change (generate_path a [] :: map (λ x, generate_path x []) (b :: l))
        with (map (λ x, generate_path x []) (a :: b :: l)).
      rewrite (count_required _ Hreq). simpl longest_match.
      rewrite choose_required by exact Hreq. by destruct (seq_match _ _).
Qed.

(** Optional params occur only as fields of the outermost tuple. *)
Definition shallow (x : segment) : bool :=
  match x with
  | STuple a l =>
      forallb (λ y, negb (optional y) || match y with SOptionalParam _ => true | _ => false end)
        (a :: l)
  | _ => true
  end.

Lemma shallow_field y :
  no_root y = true →
  negb (optional y) || match y with SOptionalParam _ => true | _ => false end = true →
  good_field (optional y, test y) (generate_path y []).
Proof.
  intros Hr [Ho|Ho]%orb_true_iff.
  - apply negb_true_iff in Ho. apply good_field_of; [done..|]. by apply test_implements.
  - destruct y; try done. split_and!; [by apply test_total| |by eexists].
    intros path Hu. cbn [snd test]. rewrite optional_param_test_spec by done.
    eexists. split; [done|]. symmetry. apply (one_segment (POptionalParam name)).
Qed.

Lemma tuple_longest a b l path :
  let x := STuple a (b :: l) in
  no_root x = true → shallow x = true → utf8 path = true →
  ∃ m, test x path = Ok m ∧
    bound <$> m = longest_match (count_optionals (generate_path x [])) (generate_path x []) path.
Proof.
  intros x Hr Hs Hu. subst x. rewrite generate_path_tuple.
  cbn [no_root] in Hr. apply andb_true_iff in Hr as [Hra Hrl].
  cbn [shallow forallb] in Hs. apply andb_true_iff in Hs as [Hsa Hsl].
  apply (tuple_test_seq (optional a, test a) (generate_path a [])
    (map (λ t, (optional t, test t)) (b :: l)) (map (λ x, generate_path x []) (b :: l)));
    [by apply shallow_field| |done].
  change (forallb (λ y, negb (optional y) ||
    match y with SOptionalParam _ => true | _ => false end) (b :: l) = true) in Hsl.
  revert Hrl Hsl. generalize (b :: l). clear.
  induction l as [|b l IH]; simpl; [constructor|].
  intros [Hrb Hrl]%andb_true_iff [Hsb Hsl]%andb_true_iff.
  constructor; [by apply shallow_field|by apply IH].
Qed.
