(* ===== verification/Routes.v ===== *)
(** * Nested routes

    Models [router/src/matching/nested/mod.rs], [nested/tuples.rs], the
    [RouteDefs] of [matching/mod.rs] and the order of [ssr_mode.rs]: how a tree
    of route definitions is matched against a path and how it lists the routes
    that it stands for.  The views and data of a route are left out. *)

From Stdlib Require Import Ascii.
From stdpp Require Import base list strings gmap sets countable finite.
From S2P Require Import Prelude RustStr RouteMatch.

Inductive Method := Get_ | Post | Put | Delete | Patch.

#[global] Instance Method_eq_dec : EqDecision Method.
Proof. solve_decision. Defined.
Definition Method_code (m : Method) : nat :=
  match m with Get_ => 0 | Post => 1 | Put => 2 | Delete => 3 | Patch => 4 end.
Definition Method_decode (n : nat) : Method :=
  match n with 0 => Get_ | 1 => Post | 2 => Put | 3 => Delete | _ => Patch end.
#[global] Instance Method_countable : Countable Method.
Proof. refine (inj_countable' Method_code Method_decode _). by intros []. Defined.

Section routes.
(** [RegenerationFn] is a function pointer of the application. *)
Context {R : Type}.

(** [SsrMode]; of a [StaticRoute] only the regeneration function is kept. *)
Inductive SsrMode :=
| OutOfOrder
| PartiallyBlocked
| InOrder
| Async
| StaticMode (regenerate : option R).

(** The derived order: by variant, all [StaticRoute]s being equal. *)
Definition ssr_rank (m : SsrMode) : nat :=
  match m with
  | OutOfOrder => 0 | PartiallyBlocked => 1 | InOrder => 2 | Async => 3 | StaticMode _ => 4
  end.
Definition ssr_gt (a b : SsrMode) : bool := ssr_rank b <? ssr_rank a.

Record GeneratedRouteData := mkGenerated {
  gr_segments : list PathSegment;
  gr_ssr_mode : SsrMode;
  gr_methods : gset Method;
  gr_regenerate : list R;
}.

(** The implementations of [MatchNestedRoutes]: [()], [NestedRoute], the tuples
    whose matches are tagged with the position that matched, and [(A,)] and
    [StaticVec], whose matches are not. *)
Inductive routes :=
| RUnit
| RNode (id : N) (segments : segment) (children : option routes)
    (methods : gset Method) (ssr_mode : SsrMode)
| RTuple (l : list routes)
| RVec (l : list routes).

(** [NestedMatch] and the [Either] types *)
Inductive route_match :=
| MUnit
| MNode (id : N) (matched : str) (params : params_t) (child : option route_match)
| MEither (nth : nat) (m : route_match).

(** [NestedRoute::new]: ids come from the counter [ROUTE_ID], a [u16]. *)
Definition NestedRoute_new (path : segment) (ROUTE_ID : N) : routes * N :=
  (RNode ROUTE_ID path None {[ Get_ ]} OutOfOrder, ((ROUTE_ID + 1) mod 65536)%N).
Definition NestedRoute_child (r child : routes) : routes :=
  match r with
  | RNode id segments _ methods mode => RNode id segments (Some child) methods mode
  | _ => r
  end.
Definition NestedRoute_ssr_mode (mode : SsrMode) (r : routes) : routes :=
  match r with
  | RNode id segments children methods _ => RNode id segments children methods mode
  | _ => r
  end.

(** ** [MatchInterface] and [MatchParams] *)

Fixpoint as_id (m : route_match) : N :=
  match m with MUnit => 0%N | MNode id _ _ _ => id | MEither _ m => as_id m end.
Fixpoint as_matched (m : route_match) : str :=
  match m with MUnit => [] | MNode _ matched _ _ => matched | MEither _ m => as_matched m end.
Fixpoint to_params (m : route_match) : params_t :=
  match m with MUnit => [] | MNode _ _ params _ => params | MEither _ m => to_params m end.
Fixpoint match_child (m : route_match) : option route_match :=
  match m with
  | MUnit => None
  | MNode _ _ _ child => child
  | MEither n m => MEither n <$> match_child m
  end.

(** ** Matching *)

Abbreviation matcher := (str → outcome (option (N * route_match) * str)).

(** The whole path has been used, up to a trailing slash. *)
Definition used_up (remaining : str) : bool :=
  bool_decide (remaining = []) || bool_decide (remaining = [slash]).
#[global] Arguments used_up : simpl never.

(** The start of the function [inner] of [NestedRoute::match_nested]: the child,
    what it leaves, and whether it is a fallback.  Where the route is optional
    and its children do not match behind it, they are matched against the whole
    path. *)
Definition match_children (this_was_optional : bool) (path remaining : str)
    (children : option matcher) : outcome (option (option route_match * str * bool)) :=
  match children with
  | None => Ok (Some (None, remaining, false))
  | Some children =>
      x ← children remaining;
      match x.1 with
      | Some (_, child) => Ok (Some (Some child, x.2, false))
      | None =>
          if this_was_optional then
            y ← children path;
            match y.1 with
            | Some (_, child) => Ok (Some (Some child, y.2, true))
            | None => Ok None
            end
          else Ok None
      end
  end.

(** The end of [inner]: after a fallback, the params are parsed again without
    the part of the path that the child matched. *)
Definition match_inner (this_was_optional : bool) (path remaining : str) (segments : segment)
    (children : option matcher) (ps : params_t) :
    outcome (option (option route_match * str * params_t)) :=
  c ← match_children this_was_optional path remaining children;
  match c with
  | None => Ok None
  | Some (child, remaining, was_optional_fallback) =>
      if used_up remaining then
        p ← (if (was_optional_fallback : bool) then
               let matched := match child with Some m => as_matched m | None => [] end in
               let rematch := trim_end_str (matched ++ remaining) path in
               new_partial ← test segments rematch;
               Ok (match new_partial with Some m => Some (params m) | None => None end)
             else Ok (Some ps));
        Ok (match p with
            | None => None
            | Some p =>
                Some (child, remaining,
                      p ++ match child with Some m => to_params m | None => [] end)
            end)
      else Ok None
  end.

(** The first alternative that matches. *)
Fixpoint first_match (wrap : nat → route_match → route_match) (nth : nat) (l : list matcher)
    (path : str) : outcome (option (N * route_match) * str) :=
  match l with
  | [] => Ok (None, path)
  | f :: l =>
      x ← f path;
      match x with
      | (Some (id, matched), remaining) => Ok (Some (id, wrap nth matched), remaining)
      | (None, _) => first_match wrap (S nth) l path
      end
  end.

Fixpoint match_nested (r : routes) (path : str) :
    outcome (option (N * route_match) * str) :=
  match r with
  | RUnit => Ok (Some (0%N, MUnit), path)
  | RNode id segments children _ _ =>
      partial_match ← test segments path;
      match partial_match with
      | None => Ok (None, path)
      | Some partial_match =>
          x ← match_inner (optional segments) path (remaining partial_match) segments
                (match children with Some c => Some (match_nested c) | None => None end)
                (params partial_match);
          Ok (match x with
              | None => (None, path)
              | Some (child, remaining, ps) =>
                  (Some (id, MNode id (matched partial_match) ps child), remaining)
              end)
      end
  | RTuple l => first_match MEither 0 (map match_nested l) path
  | RVec l => first_match (λ _ m, m) 0 (map match_nested l) path
  end.

(** [MatchNestedRoutes::optional] *)
Fixpoint routes_optional (r : routes) : bool :=
  match r with
  | RUnit => false
  | RNode _ segments children _ _ =>
      optional segments && match children with Some c => routes_optional c | None => true end
  | RTuple l | RVec l => forallb routes_optional l
  end.

(** ** [generate_routes] *)

(** A child's route below its parent: the more restrictive mode is used. *)
Definition extend_route (segments : list PathSegment) (mode : SsrMode) (methods : gset Method)
    (regenerate : list R) (child : GeneratedRouteData) : GeneratedRouteData :=
  mkGenerated (segments ++ gr_segments child)
    (if ssr_gt (gr_ssr_mode child) mode then gr_ssr_mode child else mode)
    (methods ∪ gr_methods child)
    (regenerate ++ gr_regenerate child).

Fixpoint generate_routes (r : routes) : list GeneratedRouteData :=
  match r with
  | RUnit => [mkGenerated [PUnit] OutOfOrder ∅ []]
  | RNode _ segments children methods mode =>
      let segment_routes := generate_path segments [] in
      let regenerate := match mode with
                        | StaticMode (Some regenerate) => [regenerate]
                        | _ => []
                        end in
      match children with
      | None => [mkGenerated segment_routes mode methods regenerate]
      | Some children =>
          map (extend_route segment_routes mode methods regenerate) (generate_routes children)
      end
  | RTuple l | RVec l => mjoin (map generate_routes l)
  end.

(** ** [RouteDefs] *)

Record RouteDefs := mkRouteDefs {
  rd_base : option str;
  rd_children : routes;
}.

(** The path below the base, which must end at the end of a segment. *)
Definition strip_base (base : option str) (path : str) : option str :=
  match base with
  | None => Some path
  | Some base =>
      let base := trim slash base in
      if bool_decide (base = []) then Some path
      else
        match strip_prefix base (trim_start slash path) with
        | None => None
        | Some rest =>
            if bool_decide (rest = []) || starts_with_char slash rest then Some rest else None
        end
  end.

Definition match_route (d : RouteDefs) (path : str) : outcome (option route_match) :=
  match strip_base (rd_base d) path with
  | None => Ok None
  | Some path =>
      x ← match_nested (rd_children d) path;
      Ok (match x with
          | (None, _) => None
          | (Some matched, remaining) => if used_up remaining then Some matched.2 else None
          end)
  end.
End routes.

Arguments SsrMode : clear implicits.
Arguments routes : clear implicits.
Arguments GeneratedRouteData : clear implicits.
Arguments RouteDefs : clear implicits.
