(* ===== verification/RoutesFacts.v ===== *)
(** * The routes that a tree stands for

    A path is matched by a tree of routes exactly if one of the routes listed
    by [generate_routes] matches it, and the first of them decides.  This is
    for routes without optional params. *)

From Stdlib Require Import Ascii.
From stdpp Require Import base list strings gmap sets.
From S2P Require Import Prelude RustStr RouteMatch RouteFacts Routes.

Section routes.
Context {R : Type}.
Abbreviation routes := (routes R).

Lemma routes_nested_ind (P : routes → Prop) :
  P RUnit →
  (∀ id segs methods mode, P (RNode id segs None methods mode)) →
  (∀ id segs c methods mode, P c → P (RNode id segs (Some c) methods mode)) →
  (∀ l, Forall P l → P (RTuple l)) →
  (∀ l, Forall P l → P (RVec l)) →
  ∀ r, P r.
Proof.
  intros H1 H2 H3 H4 H5. fix IH 1. intros [|id segs [c|] methods mode|l|l];
    [auto|apply H3, IH|apply H2|apply H4|apply H5];
    (induction l as [|b l IHl]; constructor; [apply IH|apply IHl]).
Qed.

(** Segments without optional params, where a lone slash is not part of a tuple. *)
Definition plain_segments (x : segment) : bool :=
  negb (optional x) && (no_root x || match x with SStatic _ => true | _ => false end).

Definition is_unit (r : routes) : bool := match r with RUnit => true | _ => false end.

(** Every segment is plain, and [()] is only the child of a route. *)
Fixpoint plain_routes (r : routes) : bool :=
  match r with
  | RUnit => true
  | RNode _ segs children _ _ =>
      plain_segments segs && match children with Some c => plain_routes c | None => true end
  | RTuple l | RVec l => forallb (λ r, negb (is_unit r) && plain_routes r) l
  end.

(** The first of the listed routes that uses the path up. *)
Fixpoint first_route (gs : list (list PathSegment)) (path : str) : option (params_t * str) :=
  match gs with
  | [] => None
  | g :: gs =>
      match seq_match g path with
      | Some (ps, r) => if used_up r then Some (ps, r) else first_route gs path
      | None => first_route gs path
      end
  end.

Definition listed (r : routes) : list (list PathSegment) := map gr_segments (generate_routes r).

(** A matcher that agrees with the listed routes. *)
Definition agrees (f : str → outcome (option (N * route_match) * str))
    (gs : list (list PathSegment)) : Prop :=
  ∀ path, utf8 path = true →
    ∃ m rem, f path = Ok (m, rem) ∧
      match m with
      | Some (_, mt) => first_route gs path = Some (to_params mt, rem)
      | None => first_route gs path = None ∧ rem = path
      end.

Lemma first_route_app l1 l2 path :
  first_route (l1 ++ l2) path =
    match first_route l1 path with Some x => Some x | None => first_route l2 path end.
Proof.
  induction l1 as [|g l1 IH]; simpl; [done|]. destruct (seq_match g path) as [[ps r]|]; [|done].
  by destruct (used_up r).
Qed.

Lemma first_route_below g gs path :
  first_route (map (app g) gs) path =
    match seq_match g path with
    | Some (ps, r) => match first_route gs r with
                      | Some (ps', r') => Some (ps ++ ps', r')
                      | None => None
                      end
    | None => None
    end.
Proof.
  induction gs as [|g' gs IH]; simpl; [by destruct (seq_match g path) as [[??]|]|].
  rewrite seq_match_app, IH. destruct (seq_match g path) as [[ps r]|]; [|done].
  destruct (seq_match g' r) as [[ps' r']|]; [|done]. by destruct (used_up r').
Qed.

Lemma first_route_used gs path ps r : first_route gs path = Some (ps, r) → used_up r = true.
Proof.
  induction gs as [|g gs IH]; simpl; [done|].
  destruct (seq_match g path) as [[ps' r']|]; [|done].
  destruct (used_up r') eqn:Hr; [naive_solver|done].
Qed.

Lemma plain_segments_ok x path :
  plain_segments x = true → utf8 path = true →
  optional x = false ∧
  ∃ m, test x path = Ok m ∧ bound <$> m = seq_match (generate_path x []) path ∧
    ∀ p, m = Some p → utf8 (remaining p) = true.
Proof.
  unfold plain_segments. intros [Ho%negb_true_iff Hr]%andb_true_iff Hu.
  split; [done|]. apply orb_true_iff in Hr as [Hr|Hr].
  - destruct (good_field_test (optional x) (test x) (generate_path x []) path) as (m & ?); eauto.
    apply good_field_of; [done..|]. by apply test_implements.
  - destruct x as [|s|n|n|n|a l]; try done. simpl test. rewrite static_test_spec.
    eexists. split_and!; [done|symmetry; apply (one_segment (PStatic s))|].
    intros p Hp. destruct (decide (s = [slash])) as [->|Hs].
    + unfold static_spec in Hp. simpl in Hp. destruct (starts_with_char slash path); [|done].
      by injection Hp as <-.
    + apply static_spec_good in Hp as [Hsplit Hseg]; [|done].
      rewrite Hsplit in Hu. by eapply utf8_rest.
Qed.

Lemma listed_child g mode methods regenerate (l : list (GeneratedRouteData R)) :
  map gr_segments (map (extend_route g mode methods regenerate) l) = map (app g) (map gr_segments l).
Proof. rewrite !map_map. done. Qed.

Lemma first_match_agrees wrap fs gss nth :
  (∀ n m, to_params (wrap n m) = to_params m) → Forall2 agrees fs gss →
  agrees (first_match wrap nth fs) (mjoin gss).
Proof.
  intros Hw Hf. revert nth. induction Hf as [|f gs fs gss Hf _ IH]; intros nth path Hu.
  { by exists None, path. }
  rewrite join_cons, first_route_app. simpl. destruct (Hf path Hu) as (m & rem & -> & Hm). simpl.
  destruct m as [[id mt]|].
  - exists (Some (id, wrap nth mt)), rem. split; [done|]. by rewrite Hm, Hw.
  - destruct Hm as [-> ->]. by apply IH.
Qed.

(** The match of a route whose children agree with what they list. *)
Lemma node_agrees id segs (children : option routes) methods mode gs :
  plain_segments segs = true →
  match children with
  | None => gs = [[]]
  | Some c => (c = RUnit ∧ gs = [[PUnit]]) ∨ agrees (match_nested c) gs
  end →
  agrees (match_nested (RNode id segs children methods mode))
    (map (app (generate_path segs [])) gs).
Proof.
  intros Hs Hc path Hu. simpl. rewrite first_route_below.
  destruct (plain_segments_ok segs path Hs Hu) as (Ho & m & -> & <- & Hrest). simpl.
  destruct m as [m|]; [|by exists None, path]. simpl. rewrite Ho.
  specialize (Hrest m eq_refl). unfold match_inner, match_children.
  destruct children as [c|].
  - destruct Hc as [[-> ->]|Hc].
    + simpl. destruct (used_up (remaining m)) eqn:Hr; simpl.
      * eexists (Some (id, _)), _. split; [done|]. simpl. by rewrite app_nil_r.
      * by exists None, path.
    + destruct (Hc (remaining m) Hrest) as (x & rem & -> & Hx). simpl.
      destruct x as [[i mt]|].
      * rewrite Hx. simpl. rewrite (first_route_used _ _ _ _ Hx). simpl.
        eexists (Some (id, _)), _. by split.
      * destruct Hx as [-> ->]. by exists None, path.
  - subst gs. simpl. destruct (used_up (remaining m)) eqn:Hr; simpl.
    + eexists (Some (id, _)), _. by split.
    + by exists None, path.
Qed.

Lemma list_agrees (l : list routes) :
  Forall (λ r, is_unit r = false → plain_routes r = true → agrees (match_nested r) (listed r)) l →
  forallb (λ r, negb (is_unit r) && plain_routes r) l = true →
  Forall2 agrees (map match_nested l) (map listed l).
Proof.
  induction 1 as [|r l Hr _ IH]; simpl; [constructor|].
  intros [[Hu%negb_true_iff Hp]%andb_true_iff Hl]%andb_true_iff. constructor; auto.
Qed.

Lemma listed_list (l : list routes) :
  map gr_segments (mjoin (map generate_routes l)) = mjoin (map listed l).
Proof.
  induction l as [|r l IH]; [done|]. cbn [map]. by rewrite !join_cons, map_app, IH.
Qed.

Lemma match_nested_agrees r :
  is_unit r = false → plain_routes r = true → agrees (match_nested r) (listed r).
Proof.
  induction r as [|id segs methods mode|id segs c methods mode IHc|l IH|l IH]
    using routes_nested_ind; intros Hu Hp.
  - done.
  - cbn [plain_routes] in Hp. rewrite andb_true_r in Hp.
    pose proof (node_agrees id segs None methods mode [[]] Hp eq_refl) as H.
    simpl in H. rewrite app_nil_r in H. exact H.
  - cbn [plain_routes] in Hp. apply andb_true_iff in Hp as [Hs Hc].
    assert (listed (RNode id segs (Some c) methods mode) =
      map (app (generate_path segs [])) (listed c)) as ->.
    { unfold listed. simpl. apply listed_child. }
    apply node_agrees; [done|]. destruct c; [by left|right..]; by apply IHc.
  - assert (listed (RTuple l) = mjoin (map listed l)) as -> by apply listed_list.
    apply (first_match_agrees MEither); [done|]. by apply list_agrees.
  - assert (listed (RVec l) = mjoin (map listed l)) as -> by apply listed_list.
    apply (first_match_agrees (λ _ m, m)); [done|]. by apply list_agrees.
Qed.

End routes.
