(* ===== verification/Paths.v ===== *)
(** * Paths: optional params, static generation, resolution

    Models [ExpandOptionals] of [router/src/matching/path_segment.rs],
    [StaticParamsMap] and [StaticPath::into_paths] of [static_routes.rs], and
    [matching/resolve_path.rs]. *)

From Stdlib Require Import Ascii.
From stdpp Require Import base list strings.
From S2P Require Import Prelude RustStr RouteMatch RouteFacts.

(** ** [ExpandOptionals] *)

(** The loop over the stack [segments], whose top is at the head: the first
    optional param of a route is left out or made a plain one. *)
Fixpoint expand_loop (fuel : nat) (segments checked : list (list PathSegment)) :
    outcome (list (list PathSegment)) :=
  match segments with
  | [] => Ok checked
  | next_to_check :: segments =>
      match fuel with
      | 0 => NoFuel
      | S fuel =>
          match list_find (λ s, is_optional_param s = true) next_to_check with
          | Some (idx, segment) =>
              let unit_variant := delete idx next_to_check in
              let param_variant := <[idx := PParam (as_raw_str segment)]> next_to_check in
              expand_loop fuel (param_variant :: unit_variant :: segments) checked
          | None => expand_loop fuel segments (checked ++ [next_to_check])
          end
      end
  end.

Definition expand_optionals (l : list PathSegment) : outcome (list (list PathSegment)) :=
  expand_loop (2 * 2 ^ count_optionals l) [l] [].

(** ** Static routes *)

(** [StaticParamsMap] *)
Abbreviation StaticParamsMap := (list (str * list str)).

Fixpoint spm_insert (key : str) (value : list str) (m : StaticParamsMap) : StaticParamsMap :=
  match m with
  | [] => [(key, value)]
  | (k, v) :: m => if decide (k = key) then (k, value) :: m else (k, v) :: spm_insert key value m
  end.
Fixpoint spm_get (key : str) (m : StaticParamsMap) : option (list str) :=
  match m with
  | [] => None
  | (k, v) :: m => if decide (k = key) then Some v else spm_get key m
  end.

(** [format!("{}{s}")] or [format!("{}/{s}")] for a static segment, which may be
    empty, and for the value of a param *)
Definition join_static (path s : str) : str :=
  if starts_with_char slash s || bool_decide (s = []) then path ++ s else path ++ slash :: s.
Definition join_value (path val : str) : str :=
  if starts_with_char slash val then path ++ val else path ++ slash :: val.

(** One segment of the loop of [StaticPath::into_paths]. *)
Definition extend_paths (params : option StaticParamsMap) (segment : PathSegment)
    (paths : list str) : list str :=
  let get name := match params with Some params => spm_get name params | None => None end in
  match segment with
  | PUnit => paths
  | PStatic s => map (λ p, join_static p s) paths
  | PParam name | PSplat name =>
      mjoin (map (λ path, match get name with
                          | Some vals => map (join_value path) vals
                          | None => []
                          end) paths)
  | POptionalParam name =>
      mjoin (map (λ path, path :: match get name with
                                  | Some vals => map (join_value path) vals
                                  | None => []
                                  end) paths)
  end.

Definition into_paths (segments : list PathSegment) (params : option StaticParamsMap) : list str :=
  fold_left (λ paths segment, extend_paths params segment paths) segments [[]].

(** ** [resolve_path] *)

Definition colon : ascii := ":"%char.

(** [path.split_once(':')], its first part *)
Fixpoint before_colon (s : str) : option str :=
  match s with
  | [] => None
  | c :: s => if decide (c = colon) then Some [] else
              match before_colon s with Some p => Some (c :: p) | None => None end
  end.

Definition in_range (lo hi : ascii) (c : ascii) : bool :=
  (nat_of_ascii lo <=? nat_of_ascii c) && (nat_of_ascii c <=? nat_of_ascii hi).
Definition is_ascii_alphabetic (c : ascii) : bool :=
  in_range "a" "z" c || in_range "A" "Z" c.
Definition is_ascii_alphanumeric (c : ascii) : bool :=
  is_ascii_alphabetic c || in_range "0" "9" c.

Definition has_scheme (path : str) : bool :=
  match strip_prefix [slash; slash] path with
  | Some _ => true
  | None =>
      match before_colon path with
      | None => false
      | Some [] => false
      | Some (first :: chars) =>
          is_ascii_alphabetic first &&
          forallb (λ c, is_ascii_alphanumeric c
            || bool_decide (c = "+"%char) || bool_decide (c = "-"%char)
            || bool_decide (c = "."%char)) chars
      end
  end.

Definition begins_with_query_or_hash (text : str) : bool :=
  starts_with_char "#" text || starts_with_char "?" text.

Fixpoint count_slashes (s : str) : nat :=
  match s with c :: s => if decide (c = slash) then S (count_slashes s) else 0 | [] => 0 end.

Definition normalize (path : str) (omit_slash : bool) : outcome str :=
  let s := trim_start slash path in
  let trim_end := count_slashes (rev s) - 1 in
  s ← slice_to s (length s - trim_end);
  Ok (if bool_decide (s = []) || omit_slash || begins_with_query_or_hash s then s
      else slash :: s).

(** [from_path.find(base_path) != Some(0)] says that it is not a prefix. *)
Definition resolve_path (base path : str) (from : option str) : outcome str :=
  if has_scheme path then Ok path
  else
    base_path ← normalize base false;
    from_path ← (match from with
                 | Some from => f ← normalize from false; Ok (Some f)
                 | None => Ok None
                 end);
    let result :=
      match from_path with
      | Some from_path =>
          if starts_with_char slash path then base_path
          else match strip_prefix base_path from_path with
               | None => base_path ++ from_path
               | Some _ => from_path
               end
      | None => base_path
      end in
    let result_empty := bool_decide (result = []) in
    let prefix := if result_empty then [slash] else result in
    p ← normalize path result_empty;
    Ok (prefix ++ p).
