(* ===== verification/PathFacts.v ===== *)
(** * Expansion, generation and normalization of paths

    Lemmas for [Paths]: the stack of [expand_optionals] computes a structural
    recursion, the paths of a route are renderings that its segments match, and
    a normalized path begins with at most one slash. *)

From Stdlib Require Import Ascii.
From stdpp Require Import base list strings.
From S2P Require Import Prelude RustStr RouteMatch RouteFacts Paths.

(** ** Optional params *)

(** All ways to leave an optional param out or make it a plain one. *)
Fixpoint expansions (l : list PathSegment) : list (list PathSegment) :=
  match l with
  | [] => [[]]
  | POptionalParam name :: l => map (cons (PParam name)) (expansions l) ++ expansions l
  | s :: l => map (cons s) (expansions l)
  end.

Lemma expansions_app pre l :
  forallb (λ s, negb (is_optional_param s)) pre = true →
  expansions (pre ++ l) = map (app pre) (expansions l).
Proof.
  induction pre as [|s pre IH]; simpl.
  { intros _. symmetry. apply map_id. }
  intros [Hs Hp]%andb_true_iff. rewrite IH by done.
  destruct s; try done; by rewrite map_map.
Qed.

Lemma find_optional l idx s :
  list_find (λ s, is_optional_param s = true) l = Some (idx, s) →
  ∃ pre post name, l = pre ++ s :: post ∧ s = POptionalParam name ∧ idx = length pre ∧
    forallb (λ s, negb (is_optional_param s)) pre = true.
Proof.
  intros (Hl & Hs & Hpre)%list_find_Some.
  destruct s as [| | |name|]; try done.
  exists (take idx l), (drop (S idx) l), name. split_and!.
  - by rewrite take_drop_middle.
  - done.
  - rewrite length_take_le; [done|]. apply lookup_lt_Some in Hl. lia.
  - apply forallb_forall. intros x [i [Hi Hx]%lookup_take_Some]%list_elem_of_In%list_elem_of_lookup.
    specialize (Hpre i x Hi Hx). by destruct (is_optional_param x).
Qed.

Lemma expansions_plain l :
  list_find (λ s, is_optional_param s = true) l = None → expansions l = [l].
Proof.
  intros H. assert (forallb (λ s, negb (is_optional_param s)) l = true) as Hl.
  { apply forallb_forall. intros x Hx. apply list_find_None in H.
    rewrite Forall_forall in H. apply list_elem_of_In in Hx. specialize (H x Hx).
    by destruct (is_optional_param x). }
  rewrite <-(app_nil_r l) at 1. rewrite expansions_app by done. simpl. by rewrite app_nil_r.
Qed.

(** The runs of the loop's body that a route takes. *)
Definition expand_cost (l : list PathSegment) : nat := 2 * 2 ^ count_optionals l - 1.

Lemma expand_cost_pos l : 1 ≤ expand_cost l.
Proof. unfold expand_cost. pose proof (Nat.pow_nonzero 2 (count_optionals l)). lia. Qed.

Lemma expand_loop_ok fuel segs checked :
  sum_list_with expand_cost segs ≤ fuel →
  expand_loop fuel segs checked = Ok (checked ++ mjoin (map expansions segs)).
Proof.
  revert segs checked. induction fuel as [|fuel IH]; intros [|l segs] checked Hf;
    simpl in Hf; [by rewrite app_nil_r| |by rewrite app_nil_r|].
  { pose proof (expand_cost_pos l). lia. }
  cbn [expand_loop map]. rewrite join_cons.
  destruct (list_find _ l) as [[idx s]|] eqn:Hfind.
  - destruct (find_optional l idx s Hfind) as (pre & post & name & -> & -> & -> & Hpre).
    rewrite delete_middle, insert_app_r_alt, Nat.sub_diag by done. simpl.
    assert (expand_cost (pre ++ PParam name :: post) + expand_cost (pre ++ post) <
            expand_cost (pre ++ POptionalParam name :: post)) as Hcost.
    { unfold expand_cost. rewrite !count_app. unfold count_optionals. simpl.
      rewrite Nat.add_succ_r, Nat.pow_succ_r'.
      pose proof (Nat.pow_nonzero 2 (length (List.filter is_optional_param pre) +
        length (List.filter is_optional_param post))). lia. }
    rewrite IH by (simpl; lia). cbn [map]. rewrite !join_cons, !expansions_app by done.
    simpl. rewrite map_app. by rewrite <-!(assoc app).
  - rewrite IH by (pose proof (expand_cost_pos l); lia).
    by rewrite (expansions_plain l Hfind), <-(assoc app).
Qed.

Lemma expansions_length l : length (expansions l) = 2 ^ count_optionals l.
Proof.
  unfold count_optionals. induction l as [|s l IH]; [done|].
  destruct s; simpl; rewrite ?length_app, ?length_map, IH; simpl; lia.
Qed.

Lemma expansions_required l g :
  g ∈ expansions l → forallb (λ s, negb (is_optional_param s)) g = true.
Proof.
  revert g. induction l as [|s l IH]; intros g; simpl.
  { by intros ->%list_elem_of_singleton. }
  assert (∀ x, is_optional_param x = false → g ∈ map (cons x) (expansions l) →
    forallb (λ s, negb (is_optional_param s)) g = true) as Hcons.
  { intros x Hx (g' & -> & Hg)%list_elem_of_fmap. simpl. rewrite Hx. by apply IH. }
  revert Hcons. destruct s as [|s|n|n|n]; intros Hcons Hin; try (by eapply Hcons, Hin).
  apply elem_of_app in Hin as [Hin|Hin]; [by eapply Hcons, Hin|by apply IH].
Qed.

(** ** Generated paths *)

(** A static segment that the router can match: nothing, or one segment with or
    without its slash. *)
Definition regular_static (s : str) : Prop :=
  s = [] ∨ (static_body s ≠ [] ∧ slash ∉ static_body s).

(** A piece of a path with its slash. *)
Definition piece (s : str) : str := if starts_with_char slash s then s else slash :: s.

(** [q] is what the segments look like with values from [params], where [ps] are
    the params they bind. *)
Inductive renders (params : StaticParamsMap) : list PathSegment → str → params_t → Prop :=
| renders_nil : renders params [] [] []
| renders_unit l q ps : renders params l q ps → renders params (PUnit :: l) q ps
| renders_static s l q ps :
    renders params l q ps →
    renders params (PStatic s :: l) ((if decide (s = []) then [] else piece s) ++ q) ps
| renders_param n vals val l q ps :
    spm_get n params = Some vals → val ∈ vals →
    renders params l q ps →
    renders params (PParam n :: l) (piece val ++ q) ((n, static_body val) :: ps)
| renders_splat n vals val l q ps :
    spm_get n params = Some vals → val ∈ vals →
    renders params l q ps →
    renders params (PSplat n :: l) (piece val ++ q) ((n, static_body val) :: ps).

Lemma join_static_piece p s : join_static p s = p ++ (if decide (s = []) then [] else piece s).
Proof.
  unfold join_static, piece. case_decide as Hs; [by subst|].
  rewrite (bool_decide_eq_false_2 (s = [])), orb_false_r by done.
  by destruct (starts_with_char slash s).
Qed.

Lemma join_value_piece p s : join_value p s = p ++ piece s.
Proof. unfold join_value, piece. by destruct (starts_with_char slash s). Qed.

Lemma piece_body s : piece s = slash :: static_body s.
Proof.
  destruct s as [|c s]; [done|]. unfold piece. simpl.
  destruct (decide (c = slash)) as [->|Hc]; [done|]. by rewrite bool_decide_eq_false_2.
Qed.

Lemma into_paths_renders g params paths p :
  forallb (λ s, negb (is_optional_param s)) g = true →
  p ∈ fold_left (λ paths segment, extend_paths (Some params) segment paths) g paths →
  ∃ p0 q ps, p0 ∈ paths ∧ p = p0 ++ q ∧ renders params g q ps.
Proof.
  revert paths. induction g as [|s g IH]; intros paths Hreq Hp.
  { exists p, [], []. rewrite app_nil_r. by split_and!; [| |constructor]. }
  simpl in Hreq, Hp. apply andb_true_iff in Hreq as [Hs Hreq].
  destruct (IH _ Hreq Hp) as (p1 & q & ps & Hp1 & -> & Hq). clear IH Hp.
  assert (∀ n, (∃ vals val p0, spm_get n params = Some vals ∧ val ∈ vals ∧ p0 ∈ paths ∧
      p1 = p0 ++ piece val) ∨
    ¬ p1 ∈ mjoin (map (λ path, match spm_get n params with
      | Some vals => map (join_value path) vals | None => [] end) paths)) as Hvals.
  { intros n. destruct (decide (p1 ∈ mjoin (map (λ path, match spm_get n params with
      | Some vals => map (join_value path) vals | None => [] end) paths))) as [Hin|]; [left|by right].
    apply list_elem_of_join in Hin as (l & Hin & Hl).
    apply list_elem_of_fmap in Hl as (p0 & -> & Hp0).
    destruct (spm_get n params) as [vals|] eqn:Hget; [|by apply not_elem_of_nil in Hin].
    apply list_elem_of_fmap in Hin as (val & -> & Hval).
    exists vals, val, p0. by rewrite join_value_piece. }
  destruct s as [|s|n|n|n]; simpl in Hp1; [| | |done|].
  - exists p1, q, ps. by split_and!; [| |constructor].
  - apply list_elem_of_fmap in Hp1 as (p0 & -> & Hp0). rewrite join_static_piece.
    eexists p0, _, ps. split_and!; [done|by rewrite <-(assoc app)|by constructor].
  - destruct (Hvals n) as [(vals & val & p0 & Hget & Hval & Hp0 & ->)|?]; [|done].
    eexists p0, _, _. split_and!; [done|by rewrite <-(assoc app)|by econstructor].
  - destruct (Hvals n) as [(vals & val & p0 & Hget & Hval & Hp0 & ->)|?]; [|done].
    eexists p0, _, _. split_and!; [done|by rewrite <-(assoc app)|by econstructor].
Qed.

(** Routes and params for which static generation is meant: no optional params,
    regular static segments, and values that are one segment, where the value of
    a final wildcard may be several. *)
Fixpoint regular_route (params : StaticParamsMap) (g : list PathSegment) : Prop :=
  match g with
  | [] => True
  | PUnit :: g => regular_route params g
  | PStatic s :: g => regular_static s ∧ regular_route params g
  | PParam n :: g =>
      (∀ vals val, spm_get n params = Some vals → val ∈ vals →
        static_body val ≠ [] ∧ slash ∉ static_body val) ∧ regular_route params g
  | PSplat n :: g => g = []
  | POptionalParam _ :: _ => False
  end.

Lemma renders_at_segment params g q ps : renders params g q ps → at_segment q.
Proof.
  induction 1; auto; [|rewrite piece_body; simpl; auto..].
  case_decide; [done|]. rewrite piece_body. simpl. auto.
Qed.

Lemma first_piece v q :
  slash ∉ v → at_segment q → first_segment (slash :: v ++ q) = Some (v, q).
Proof. intros Hv Hq. by apply first_segment_Some. Qed.

Lemma renders_match params g q ps :
  renders params g q ps → regular_route params g → seq_match g q = Some (ps, []).
Proof.
  induction 1 as [|l q ps _ IH|s l q ps Hq IH|n vals val l q ps Hget Hval Hq IH
    |n vals val l q ps Hget Hval Hq IH]; intros Hreg.
  - done.
  - simpl in *. by rewrite IH.
  - destruct Hreg as [[->|[Hne Hs]] Hreg]; apply renders_at_segment in Hq; simpl.
    + unfold static_spec. rewrite decide_True by done.
      destruct (decide (at_segment q)); [|done]. simpl. by rewrite IH.
    + unfold static_spec. rewrite !(decide_False (P := s = [])) by (by intros ->).
      rewrite (decide_False (P := s = [slash])) by (by intros ->).
      rewrite decide_False by done. rewrite piece_body, strip_prefix_app.
      destruct (decide (at_segment q)); [|done]. simpl. by rewrite IH.
  - destruct Hreg as [Hv Hreg]. destruct (Hv vals val Hget Hval) as [Hne Hs].
    apply renders_at_segment in Hq. simpl. unfold param_spec.
    rewrite piece_body. simpl app. rewrite first_piece by done.
    rewrite decide_False by done. simpl. by rewrite IH.
  - simpl in Hreg. subst l. inversion Hq; subst. rewrite piece_body. simpl.
    by rewrite app_nil_r.
Qed.

(** ** Normalization *)

Lemma trim_start_no_slash s : starts_with_char slash (trim_start slash s) = false.
Proof.
  induction s as [|c s IH]; [done|]. simpl. case_decide as Hc; [done|].
  simpl. by apply bool_decide_eq_false_2.
Qed.

Lemma trim_start_id s : starts_with_char slash s = false → trim_start slash s = s.
Proof.
  destruct s as [|c s]; [done|]. simpl. intros H%bool_decide_eq_false.
  by rewrite decide_False.
Qed.

Lemma count_slashes_split s :
  ∃ t, s = replicate (count_slashes s) slash ++ t ∧ starts_with_char slash t = false.
Proof.
  induction s as [|c s (t & Hs & Ht)]; [by exists []|]. simpl.
  destruct (decide (c = slash)) as [->|Hc].
  - exists t. simpl. by rewrite <-Hs.
  - exists (c :: s). split; [done|]. simpl. by apply bool_decide_eq_false_2.
Qed.

Lemma rev_slashes k : rev (replicate k slash) = replicate k slash.
Proof. rewrite rev_alt. apply reverse_replicate. Qed.

(** A string is a body, which does not end in a slash, and slashes. *)
Lemma trailing_slashes s :
  ∃ body, s = body ++ replicate (count_slashes (rev s)) slash ∧
    count_slashes (rev body) = 0.
Proof.
  destruct (count_slashes_split (rev s)) as (t & Hs & Ht). exists (rev t). split.
  - rewrite <-(rev_involutive s) at 1. rewrite Hs at 1. by rewrite rev_app_distr, rev_slashes.
  - rewrite rev_involutive. destruct t as [|c t]; [done|]. simpl in *.
    apply bool_decide_eq_false in Ht. by rewrite decide_False.
Qed.

Lemma count_slashes_snoc body k :
  count_slashes (rev body) = 0 → count_slashes (rev (body ++ replicate k slash)) = k.
Proof.
  intros Hb. rewrite rev_app_distr, rev_slashes.
  induction k as [|k IH]; [done|]. simpl. by rewrite IH.
Qed.

Lemma boundary_slashes body k j :
  j ≤ k → is_char_boundary (body ++ replicate k slash) (length body + j) = true.
Proof.
  intros Hj. unfold is_char_boundary. apply orb_true_iff. right.
  rewrite lookup_app_r by lia. replace (length body + j - length body) with j by lia.
  destruct (decide (j < k)) as [Hlt|Hge].
  - by rewrite lookup_replicate_2.
  - assert (j = k) as -> by lia. rewrite lookup_ge_None_2 by (rewrite length_replicate; lia).
    rewrite length_app, length_replicate. apply Nat.eqb_refl.
Qed.

(** What [normalize] trims the path to: no slash at the start, at most one at the end. *)
Definition trimmed (s : str) : Prop :=
  starts_with_char slash s = false ∧
  ∃ body k, s = body ++ replicate k slash ∧ count_slashes (rev body) = 0 ∧ k ≤ 1.

Lemma normalize_eq path omit_slash :
  ∃ s, trimmed s ∧
    normalize path omit_slash =
      Ok (if bool_decide (s = []) || omit_slash || begins_with_query_or_hash s then s
          else slash :: s) ∧
    (starts_with_char slash path = false → trimmed path → s = path) ∧
    (∀ p, path = slash :: p → trimmed p → s = p) ∧
    (begins_with_query_or_hash s = begins_with_query_or_hash (trim_start slash path)).
Proof.
  unfold normalize. set (s := trim_start slash path).
  pose proof (trim_start_no_slash path : starts_with_char slash s = false) as Hs.
  destruct (trailing_slashes s) as (body & Hb & Hbody).
  set (m := count_slashes (rev s)) in *.
  assert (length s - (m - 1) = length body + Nat.min m 1) as Hlen.
  { rewrite Hb, length_app, length_replicate. lia. }
  assert (take (length s - (m - 1)) s = body ++ replicate (Nat.min m 1) slash) as Htake.
  { rewrite Hlen. rewrite Hb at 1. rewrite take_app_add. f_equal.
    rewrite take_replicate. f_equal. lia. }
  assert (slice_to s (length s - (m - 1)) = Ok (body ++ replicate (Nat.min m 1) slash)) as ->.
  { unfold slice_to. rewrite <-Htake, Hlen. rewrite Hb at 1. rewrite boundary_slashes by lia. done. }
  assert (body = [] → s = []) as Hnil.
  { intros ->. rewrite Hb in Hs |- *. by destruct m. }
  assert (∀ c, starts_with_char c (body ++ replicate (Nat.min m 1) slash) = starts_with_char c s) as Hfst.
  { intros c. destruct body as [|x body]; [|by rewrite Hb].
    rewrite (Hnil eq_refl) in Hb |- *. by destruct m. }
  assert (trimmed s → body ++ replicate (Nat.min m 1) slash = s) as Hid.
  { intros (_ & body' & k & Hs' & Hb' & Hk).
    assert (m = k) as -> by (unfold m; rewrite Hs'; by apply count_slashes_snoc).
    replace (Nat.min k 1) with k by lia. done. }
  exists (body ++ replicate (Nat.min m 1) slash). split_and!.
  - split; [by rewrite Hfst|]. exists body, (Nat.min m 1). split_and!; [done..|lia].
  - done.
  - intros Hp Ht. assert (s = path) as E by apply (trim_start_id path), Ht.
    transitivity s; [apply Hid; by rewrite E|exact E].
  - intros p -> Ht. assert (s = p) as E by apply (trim_start_id p), Ht.
    transitivity s; [apply Hid; by rewrite E|exact E].
  - unfold begins_with_query_or_hash. by rewrite !Hfst.
Qed.
