(* ===== verification/RouterProps.v ===== *)
(** * Properties of the router

    The tests of segments and tuples, the matching of trees of routes, the
    paths of static routes, and the resolution of links. *)

From Stdlib Require Import Ascii.
From stdpp Require Import base list strings gmap sets.
From S2P Require Import Prelude RustStr RouteMatch RouteFacts Routes RoutesFacts Paths PathFacts.

(** ** Helpers *)

Lemma trim_start_prefix c s : ∃ pre, s = pre ++ trim_start c s.
Proof.
  induction s as [|x s [pre IH]]; simpl; [by exists []|].
  case_decide; [exists (x :: pre); by rewrite IH at 1|by exists []].
Qed.

Lemma strip_base_utf8 base path rest :
  utf8 path = true → strip_base base path = Some rest → utf8 rest = true.
Proof.
  intros Hu. unfold strip_base. destruct base as [base|]; [|by intros [= <-]].
  case_bool_decide; [by intros [= <-]|].
  destruct (strip_prefix _ _) as [r|] eqn:Hr; [|done]. apply strip_prefix_Some in Hr.
  destruct (trim_start_prefix slash path) as [pre Hpre]. rewrite Hr in Hpre.
  destruct (bool_decide (r = []) || starts_with_char slash r) eqn:Hb; [|done].
  intros [= <-]. rewrite Hpre, (assoc app) in Hu. eapply utf8_tail; [exact Hu|].
  apply orb_true_iff in Hb as [->%bool_decide_eq_true|[t ->]%starts_with_slash]; auto.
Qed.

Lemma match_route_listed {R} base (r : routes R) path rest :
  is_unit r = false → plain_routes r = true → utf8 rest = true →
  strip_base base path = Some rest →
  ∃ m, match_route (mkRouteDefs base r) path = Ok m ∧
    to_params <$> m = fst <$> first_route (listed r) rest.
Proof.
  intros Hu Hp Hutf Hb. unfold match_route. simpl. rewrite Hb.
  destruct (match_nested_agrees r Hu Hp rest Hutf) as (m & rem & -> & Hm). simpl.
  destruct m as [[id mt]|].
  - rewrite Hm, (first_route_used _ _ _ _ Hm). by eexists.
  - destruct Hm as [-> ->]. by eexists.
Qed.

Lemma first_route_in gs g path ps r :
  g ∈ gs → seq_match g path = Some (ps, r) → used_up r = true →
  is_Some (first_route gs path).
Proof.
  intros Hin Hg Hr. induction gs as [|g' gs IH]; [by apply not_elem_of_nil in Hin|]. simpl.
  apply elem_of_cons in Hin as [<-|Hin].
  - by rewrite Hg, Hr.
  - destruct (seq_match g' path) as [[ps' r']|]; [destruct (used_up r'); [done|]|]; by apply IH.
Qed.

(** Nothing, or a path that begins with one slash and goes on. *)
Definition rooted (s : str) : Prop :=
  s = [] ∨ ∃ t, s = slash :: t ∧ t ≠ [] ∧ starts_with_char slash t = false.

Lemma normalize_rooted path :
  begins_with_query_or_hash (trim_start slash path) = false →
  ∃ s, normalize path false = Ok s ∧ rooted s.
Proof.
  intros Hq. destruct (normalize_eq path false) as (s & [Hs _] & -> & _ & _ & Hqs).
  rewrite Hqs, Hq, !orb_false_r. eexists. split; [done|].
  case_bool_decide as Hn; [by left|right]. by exists s.
Qed.

Lemma rooted_app s t : rooted s → rooted t → rooted (s ++ t).
Proof.
  intros [->|(s' & -> & Hn & Hs)] Ht; [done|right]. exists (s' ++ t).
  by destruct s' as [|c s'].
Qed.

Lemma resolve_finish path result :
  rooted result →
  ∃ r, (p ← normalize path (bool_decide (result = []));
        Ok ((if bool_decide (result = []) then [slash] else result) ++ p)) = Ok (slash :: r) ∧
    starts_with_char slash r = false.
Proof.
  intros [->|(t & -> & Hn & Ht)]; simpl.
  - destruct (normalize_eq path true) as (p & [Hp _] & -> & _). rewrite orb_true_r. by eexists.
  - destruct (normalize_eq path false) as (p & _ & -> & _). simpl. eexists. split; [done|].
    by destruct t.
Qed.

(** A tree of routes: a home page, posts by id with comments, and a wildcard. *)
Module RouterDemo.
Definition blog : routes unit :=
  RTuple [
    RNode 1 (SStatic (lit "")) None {[ Get_ ]} OutOfOrder;
    RNode 2 (STuple (SStatic (lit "posts")) [SParam (lit "id")])
      (Some (RTuple [
        RNode 3 (SStatic (lit "comments")) None {[ Get_; Post ]} Async;
        RNode 4 SUnit None {[ Get_ ]} InOrder]))
      {[ Get_ ]} OutOfOrder;
    RNode 5 (SWildcard (lit "rest")) None {[ Get_ ]} OutOfOrder].
Definition post_route : list PathSegment :=
  [PStatic (lit "posts"); PParam (lit "id"); PStatic (lit "comments")].
Definition ids : StaticParamsMap := [(lit "id", [lit "first"; lit "/second"])].
Definition optional_route : segment :=
  STuple (SOptionalParam (lit "a")) [SOptionalParam (lit "b"); SStatic (lit "bar")].
End RouterDemo.
Import RouterDemo.

(** ** Segments *)

(** No test of a segment or tuple panics on a well-formed path, as long as no part of the route is a lone slash: a match splits the path in two, before a slash or at its end, or matches nothing of it. *)
Theorem route_test_safe x path :
  no_root x = true → utf8 path = true →
  ∃ m, test x path = Ok m ∧
    ∀ p, m = Some p →
      path = matched p ++ remaining p ∧ (at_segment (remaining p) ∨ matched p = []).
Proof. intros Hx Hu. exact (test_total x Hx path Hu). Qed.

Lemma route_test_safe_witness :
  ∃ m, test optional_route (lit "/foo/qux/bar/x") = Ok m ∧
    ∀ p, m = Some p →
      lit "/foo/qux/bar/x" = matched p ++ remaining p ∧
      (at_segment (remaining p) ∨ matched p = []).
Proof. apply route_test_safe; reflexivity. Defined.

(** A static segment matches exactly the paths that begin with it as a whole segment, whether or not it is written with its slash, and a param matches exactly the paths that begin with a nonempty segment, which it binds. *)
Theorem segments_match_whole path rest :
  utf8 path = true →
  (∀ s, static_body s ≠ [] → slash ∉ static_body s →
    (∃ m, test (SStatic s) path = Ok (Some m) ∧ remaining m = rest) ↔
    path = slash :: (static_body s ++ rest) ∧ at_segment rest) ∧
  (∀ n v,
    (∃ m, test (SParam n) path = Ok (Some m) ∧ remaining m = rest ∧ params m = [(n, v)]) ↔
    path = slash :: (v ++ rest) ∧ v ≠ [] ∧ (slash ∉ v) ∧ at_segment rest).
Proof.
  intros Hu. split.
  - intros s Hs Hin. simpl test. rewrite static_test_spec. unfold static_spec.
    rewrite !(decide_False (P := s = [])) by (by intros ->).
    rewrite (decide_False (P := s = [slash])) by (by intros ->).
    rewrite decide_False by done. split.
    + intros (m & Hm & Hr). destruct (strip_prefix _ _) as [r|] eqn:Hp; [|done].
      apply strip_prefix_Some in Hp as ->. destruct (decide (at_segment r)); [|done].
      injection Hm as <-. simpl in Hr. by subst r.
    + intros [-> Hr]. change (slash :: static_body s ++ rest) with ((slash :: static_body s) ++ rest).
      rewrite strip_prefix_app. destruct (decide (at_segment rest)); [|done]. by eexists.
  - intros n v. simpl test. rewrite param_test_spec by done. unfold param_spec. split.
    + intros (m & Hm & Hr & Hps). destruct (first_segment path) as [[w r]|] eqn:Hf; [|done].
      apply first_segment_Some in Hf as (-> & Hw & Hr'). case_decide; [done|].
      injection Hm as <-. simpl in *. subst r. by injection Hps as ->.
    + intros (-> & Hv & Hin & Hr). rewrite first_piece by done.
      rewrite decide_False by done. by eexists.
Qed.

Lemma segments_match_whole_witness :
  (∃ m, test (SStatic (lit "/posts")) (lit "/posts/7") = Ok (Some m) ∧ remaining m = lit "/7") ∧
  (∃ m, test (SParam (lit "id")) (lit "/7") = Ok (Some m) ∧ remaining m = [] ∧
    params m = [(lit "id", lit "7")]).
Proof.
  split.
  - apply (segments_match_whole (lit "/posts/7") (lit "/7") eq_refl); [done|by vm_compute; set_solver|].
    split; [done|]. right. by eexists.
  - apply (segments_match_whole (lit "/7") [] eq_refl). split_and!; [done..| |by left].
    vm_compute. set_solver.
Defined.

(** A tuple whose optional params are fields of its own tests the route with all of its optional params first, then without the last one, and so on: it matches exactly like the first of these that matches, segment after segment. *)
Theorem tuple_tries_longest a b l path :
  no_root (STuple a (b :: l)) = true → shallow (STuple a (b :: l)) = true → utf8 path = true →
  let route := generate_path (STuple a (b :: l)) [] in
  ∃ m, test (STuple a (b :: l)) path = Ok m ∧
    bound <$> m = longest_match (count_optionals route) route path.
Proof. intros Hr Hs Hu. by apply tuple_longest. Qed.

Lemma tuple_tries_longest_witness :
  ∃ m, test optional_route (lit "/foo/bar") = Ok m ∧
    bound <$> m = Some ([(lit "a", lit "foo")], []).
Proof. apply tuple_tries_longest; reflexivity. Defined.

(** A lone slash in a tuple counts a byte that it does not consume: the route [("/", "lang")] panics on the path ["/lang"], slicing it beyond its end. *)
Theorem root_in_tuple_panics :
  test (STuple (SStatic (lit "/")) [SStatic (lit "lang")]) (lit "/lang") = Panic ∧
  test (SStatic (lit "lang")) (lit "/lang") =
    Ok (Some (mkPartial [] [] (lit "/lang"))).
Proof. by vm_compute. Qed.

(** ** Trees of routes *)

(** C15: matching a tree of routes against a path below the base terminates without a panic and agrees with the flat list that [generate_routes] reports: the first listed route that uses the path up decides, and the match binds its params; a path outside of the base, or that no listed route uses up, is not matched.  The routes have no optional params and no lone slash within a tuple of segments ([plain_routes]), which can panic. *)
Theorem match_route_is_listed {R} base (r : routes R) path :
  is_unit r = false → plain_routes r = true → utf8 path = true →
  ∃ m, match_route (mkRouteDefs base r) path = Ok m ∧
    to_params <$> m =
      match strip_base base path with
      | Some rest => fst <$> first_route (map gr_segments (generate_routes r)) rest
      | None => None
      end.
Proof.
  intros Hu Hp Hutf. destruct (strip_base base path) as [rest|] eqn:Hb.
  - apply match_route_listed; [done..| |done]. by eapply strip_base_utf8.
  - exists None. unfold match_route. simpl. by rewrite Hb.
Qed.

Lemma match_route_is_listed_witness :
  ∃ m, match_route (mkRouteDefs (Some (lit "/app/")) blog) (lit "/app/posts/7/comments/") = Ok m ∧
    to_params <$> m = Some [(lit "id", lit "7")].
Proof.
  apply (match_route_is_listed (Some (lit "/app/")) blog (lit "/app/posts/7/comments/"));
    reflexivity.
Defined.

(** C25: the static paths of a route lead back to it.  The tree of routes has no optional params and no lone slash within a tuple; the static segments of the route are empty or one segment (so not a lone slash), the values for its params are one segment each, not empty, and a splat comes last ([regular_route]).  Then every path that [into_paths] generates for the route is matched by its segments one after the other with nothing left, binding a value for each of its params, and the router as a whole matches it. *)
Theorem static_paths_match {R} (r : routes R) g values p :
  is_unit r = false → plain_routes r = true →
  g ∈ map gr_segments (generate_routes r) → regular_route values g →
  p ∈ into_paths g (Some values) → utf8 p = true →
  (∃ ps, seq_match g p = Some (ps, []) ∧ renders values g p ps) ∧
  ∃ m, match_route (mkRouteDefs None r) p = Ok (Some m).
Proof.
  intros Hu Hp Hg Hreg Hin Hutf.
  assert (forallb (λ s, negb (is_optional_param s)) g = true) as Hreq.
  { clear -Hreg. induction g as [|s g IH]; [done|]. destruct s; simpl in *; try tauto.
    by subst. }
  apply (into_paths_renders _ _ _ _ Hreq) in Hin as (p0 & q & ps & Hp0 & -> & Hq).
  apply list_elem_of_singleton in Hp0 as ->. simpl in *.
  pose proof (renders_match _ _ _ _ Hq Hreg) as Hm. split; [by eexists|].
  destruct (match_route_listed None r q q Hu Hp Hutf eq_refl) as (m & Hr & Hps).
  destruct (first_route_in _ g q ps [] Hg Hm eq_refl) as [x Hx]. unfold listed in Hps.
  rewrite Hx in Hps. destruct m as [m|]; [|done]. by exists m.
Qed.

Lemma static_paths_match_witness :
  (∃ ps, seq_match post_route (lit "/posts/second/comments") = Some (ps, []) ∧
    renders ids post_route (lit "/posts/second/comments") ps) ∧
  ∃ m, match_route (mkRouteDefs None blog) (lit "/posts/second/comments") = Ok (Some m).
Proof.
  apply static_paths_match; [reflexivity|reflexivity| | | |reflexivity].
  - vm_compute. set_solver.
  - simpl. assert (∀ s : string, bool_decide (static_body (lit s) ≠ [] ∧
      slash ∉ static_body (lit s)) = true → regular_static (lit s)) as Hs.
    { intros s ?%bool_decide_eq_true. by right. }
    split; [by apply (Hs "posts"%string)|]. split; [|split; [by apply (Hs "comments"%string)|done]].
    intros vals val [= <-] Hval. revert val Hval. apply Forall_forall.
    apply (bool_decide_unpack _). by vm_compute.
  - vm_compute. set_solver.
Defined.

(** A route below a parent with the segment ["/"] is matched at ["/about"], but its static path is generated as ["//about"], which the router does not match. *)
Theorem root_parent_static_path :
  let r : routes unit :=
    RNode 1 (SStatic (lit "/")) (Some (RNode 2 (SStatic (lit "about")) None ∅ OutOfOrder))
      ∅ OutOfOrder in
  let d := mkRouteDefs None r in
  (∃ m, match_route d (lit "/about") = Ok (Some m)) ∧
  mjoin (map (λ g, into_paths (gr_segments g) None) (generate_routes r)) = [lit "//about"] ∧
  match_route d (lit "//about") = Ok None.
Proof. split_and!; [eexists; by vm_compute|by vm_compute..]. Qed.

(** ** Paths *)

(** Expanding the optional params of a route terminates: it gives each way to leave some of them out once, as a route without optional params, the ones that keep the first param coming first. *)
Theorem expand_optionals_all l :
  ∃ gs, expand_optionals l = Ok gs ∧ gs = expansions l ∧ length gs = 2 ^ count_optionals l ∧
    ∀ g, g ∈ gs → forallb (λ s, negb (is_optional_param s)) g = true.
Proof.
  exists (expansions l). split_and!; [|done|apply expansions_length|apply expansions_required].
  unfold expand_optionals. rewrite expand_loop_ok; [|simpl; unfold expand_cost; lia].
  simpl. by rewrite app_nil_r.
Qed.

(** normalizing a path does not panic and is idempotent. *)
Theorem normalize_idempotent path omit_slash :
  ∃ s, normalize path omit_slash = Ok s ∧ normalize s omit_slash = Ok s.
Proof.
  destruct (normalize_eq path omit_slash) as (s & Ht & Hn & _). rewrite Hn.
  eexists. split; [done|]. destruct (_ || _) eqn:Hb.
  - destruct (normalize_eq s omit_slash) as (s' & _ & -> & Hid & _).
    rewrite (Hid (proj1 Ht) Ht). by rewrite Hb.
  - destruct (normalize_eq (slash :: s) omit_slash) as (s' & _ & -> & _ & Hid & _).
    rewrite (Hid s eq_refl Ht). by rewrite Hb.
Qed.

(** A link without a scheme never leaves the site: resolved against any base and location that are paths, it begins with exactly one slash, so that the browser cannot take it for an address on another host. *)
Theorem resolve_stays_local base path from :
  has_scheme path = false →
  begins_with_query_or_hash (trim_start slash base) = false →
  (∀ f, from = Some f → begins_with_query_or_hash (trim_start slash f) = false) →
  ∃ r, resolve_path base path from = Ok (slash :: r) ∧ starts_with_char slash r = false.
Proof.
  intros Hs Hb Hf. unfold resolve_path. rewrite Hs.
  destruct (normalize_rooted base Hb) as (b & -> & Hrb). simpl.
  destruct from as [f|]; [|by apply resolve_finish].
  destruct (normalize_rooted f (Hf f eq_refl)) as (f' & -> & Hrf). simpl.
  apply resolve_finish. destruct (starts_with_char slash path); [done|].
  destruct (strip_prefix b f') eqn:Hp; [done|]. by apply rooted_app.
Qed.

Lemma resolve_stays_local_witness :
  ∃ r, resolve_path (lit "/app") (lit "x/../y") (Some (lit "///evil.com/")) = Ok (slash :: r) ∧
    starts_with_char slash r = false.
Proof.
  apply resolve_stays_local; [reflexivity|reflexivity|]. intros f [= <-]. reflexivity.
Defined.
