(* ===== verification/Params.v ===== *)
(** * Route and query parameters

    [router/src/params.rs]: [ParamsMap], a map from names to their values that
    keeps the order in which the names came, as an association list.  The
    percent-decoding of [Url::unescape] and the encoding of [Url::escape] come
    from the browser or from the [percent_encoding] crate: they are parameters
    of the operations that use them. *)

From Stdlib Require Import Ascii.
From stdpp Require Import base gmap list strings sets.
From S2P Require Import Prelude RustStr.

Definition ParamsMap : Type := list (str * list str).

Definition ParamsMap_new : ParamsMap := [].

(** [self.0.iter_mut().find(|(k, _)| k == &key)], and what is done to the
    values that it finds *)
Fixpoint find_mut (key : str) (f : list str → list str) (m : ParamsMap) : option ParamsMap :=
  match m with
  | [] => None
  | (k, vs) :: m => if decide (k = key) then Some ((k, f vs) :: m)
                    else m' ← find_mut key f m; Some ((k, vs) :: m')
  end.

Definition insert_decoded (m : ParamsMap) (key value : str) : ParamsMap :=
  match find_mut key (λ prev, prev ++ [value]) m with
  | Some m => m
  | None => m ++ [(key, [value])]
  end.

Section decoding.
Variable unescape : str → str.

Definition params_insert (m : ParamsMap) (key value : str) : ParamsMap :=
  let value := unescape value in
  match find_mut key (λ prev, prev ++ [value]) m with
  | Some m => m
  | None => m ++ [(key, [value])]
  end.

Definition params_replace (m : ParamsMap) (key value : str) : ParamsMap :=
  let value := unescape value in
  match find_mut key (λ _, [value]) m with
  | Some m => m
  | None => m ++ [(key, [value])]
  end.

Definition params_from_iter (l : list (str * str)) : ParamsMap :=
  foldl (λ m kv, params_insert m kv.1 kv.2) ParamsMap_new l.
End decoding.

Fixpoint get_str (m : ParamsMap) (key : str) : option str :=
  match m with
  | [] => None
  | (k, vs) :: m => match (if decide (k = key) then last vs else None) with
                    | Some v => Some v
                    | None => get_str m key
                    end
  end.

Definition params_get (m : ParamsMap) (key : str) : option str := get_str m key.

Fixpoint get_all (m : ParamsMap) (key : str) : option (list str) :=
  match m with
  | [] => None
  | (k, vs) :: m => if decide (k = key) then Some vs else get_all m key
  end.

Definition latest_values (m : ParamsMap) : list (str * str) :=
  omap (λ kvs : str * list str, v ← last kvs.2; Some (kvs.1, v)) m.

(** [Vec::swap_remove] *)
Definition swap_remove {A} (l : list A) (i : nat) : outcome (A * list A) :=
  match l !! i, last l with
  | Some x, Some z => Ok (x, take (length l - 1) (<[i := z]> l))
  | _, _ => Panic
  end.

(** The loop of [remove], from the index [i] on. *)
Fixpoint params_remove_loop (m : list (str * list str)) (key : str) (ixs : list nat)
    : outcome (option (list str) * ParamsMap) :=
  match ixs with
  | [] => Ok (None, m)
  | i :: ixs =>
      kvs ← unwrap (m !! i);
      if decide (kvs.1 = key) then
        r ← swap_remove m i; Ok (Some r.1.2, r.2)
      else params_remove_loop m key ixs
  end.
Definition params_remove (m : ParamsMap) (key : str) : outcome (option (list str) * ParamsMap) :=
  params_remove_loop m key (seq 0 (length m)).

(** [String::pop] of a character below 128 *)
Definition pop (s : str) : str := take (length s - 1) s.

Section encoding.
Variable escape : str → str.

Definition query_entry (k v : str) : str := escape k ++ lit "=" ++ escape v ++ lit "&".

Definition to_query_string (m : ParamsMap) : str :=
  match m with
  | [] => []
  | _ =>
      let buf := lit "?" ++ concat (map (λ kvs, concat (map (query_entry kvs.1) kvs.2)) m) in
      if 1 <? length buf then pop buf else buf
  end.
End encoding.

(** [IntoIterator]: the pairs in the order of the map. *)
Definition params_into_iter (m : ParamsMap) : list (str * str) :=
  foldl (λ c (kvs : str * list str), foldl (λ c v, c ++ [(kvs.1, v)]) c kvs.2) [] m.

(** ** The contents of a map *)

Definition contents (m : ParamsMap) : gmap str (list str) := list_to_map m.

(** Each name once, and none without values. *)
Definition params_wf (m : ParamsMap) : Prop := NoDup m.*1 ∧ Forall (λ kvs, kvs.2 ≠ []) m.

(** What [insert] and [replace] mean for a map of lists. *)
Definition push_value (k v : str) (c : gmap str (list str)) : gmap str (list str) :=
  <[k := default [] (c !! k) ++ [v]]> c.

Lemma find_mut_None k f m : find_mut k f m = None ↔ k ∉ m.*1.
Proof.
  induction m as [|[k' vs] m IH]; cbn; [set_solver|].
  case_decide; [set_solver|].
  destruct (find_mut k f m) as [m'|]; cbn; [|set_solver].
  assert (k ∈ m.*1) by (destruct (decide (k ∈ m.*1)); naive_solver). set_solver.
Qed.

Lemma find_mut_Some k f m m' : find_mut k f m = Some m' →
  m'.*1 = m.*1 ∧ ∃ a vs b, m = (a ++ (k, vs) :: b) ∧ m' = (a ++ (k, f vs) :: b) ∧ (k ∉ a.*1).
Proof.
  revert m'. induction m as [|[k' vs] m IH]; intros m'; cbn; [done|].
  case_decide as Hk.
  - intros [= <-]. subst. split; [done|]. exists [], vs, m. set_solver.
  - destruct (find_mut k f m) as [m1|]; cbn; [|done]. intros [= <-].
    destruct (IH m1 eq_refl) as (Hf & a & vs' & b & -> & -> & Hn).
    split; [cbn; by rewrite Hf|]. exists ((k', vs) :: a), vs', b. set_solver.
Qed.

Lemma contents_middle a k vs b :
  NoDup (a ++ (k, vs) :: b).*1 → contents (a ++ (k, vs) :: b) = <[k := vs]> (contents (a ++ b)).
Proof.
  intros Hd. apply map_eq. intros k'. unfold contents.
  rewrite !list_to_map_app. cbn [list_to_map foldr]. rewrite fmap_app in Hd. cbn in Hd.
  apply NoDup_app in Hd as (_ & Hd & _).
  assert ((list_to_map a : gmap str (list str)) !! k = None) as Hn.
  { apply not_elem_of_list_to_map. intros Hk. apply (Hd k Hk). set_solver. }
  cbn. rewrite <-insert_union_r by done. done.
Qed.

Lemma contents_snoc m k vs : k ∉ m.*1 → contents (m ++ [(k, vs)]) = <[k := vs]> (contents m).
Proof.
  intros Hk. unfold contents. rewrite list_to_map_app. cbn.
  rewrite <-insert_union_r by by apply not_elem_of_list_to_map. by rewrite map_union_empty.
Qed.

Lemma contents_lookup_None m k : k ∉ m.*1 → contents m !! k = None.
Proof. apply not_elem_of_list_to_map. Qed.

(** Both [insert] and [replace] change the values of a name with [f], where a
    new name has none. *)
Lemma find_mut_push k f v m :
  params_wf m → f [] = [v] → (∀ vs, f vs ≠ []) →
  let m' := default (m ++ [(k, [v])]) (find_mut k f m) in
  params_wf m' ∧ contents m' = <[k := f (default [] (contents m !! k))]> (contents m).
Proof.
  intros [Hd Hne] Hf Hf'. destruct (find_mut k f m) as [m'|] eqn:E; cbn.
  - apply find_mut_Some in E as (Hk & a & vs & b & -> & -> & Hn). split.
    + split; [by rewrite Hk|]. apply Forall_app in Hne as [? [? ?]%Forall_cons].
      apply Forall_app. split; [done|]. constructor; [apply Hf'|done].
    + rewrite !contents_middle by (rewrite ?Hk; done). rewrite lookup_insert_eq. cbn.
      by rewrite insert_insert_eq.
  - apply find_mut_None in E. rewrite contents_lookup_None by done. cbn.
    rewrite contents_snoc by done. rewrite Hf. split; [|done]. split.
    + rewrite fmap_app. apply NoDup_app. split; [done|]. split; [set_solver|apply NoDup_singleton].
    + apply Forall_app. split; [done|]. by repeat constructor.
Qed.

Lemma params_insert_spec u m k v : params_wf m →
  params_wf (params_insert u m k v) ∧ contents (params_insert u m k v) = push_value k (u v) (contents m).
Proof.
  intros Hw. destruct (find_mut_push k (λ prev, prev ++ [u v]) (u v) m Hw) as [H1 H2]; [done| |].
  { intros []; done. }
  unfold params_insert, push_value. by destruct (find_mut _ _ _).
Qed.

Lemma insert_decoded_spec m k v : params_wf m →
  params_wf (insert_decoded m k v) ∧ contents (insert_decoded m k v) = push_value k v (contents m).
Proof. apply (params_insert_spec id). Qed.

Lemma params_replace_spec u m k v : params_wf m →
  params_wf (params_replace u m k v) ∧ contents (params_replace u m k v) = <[k := [u v]]> (contents m).
Proof.
  intros Hw. destruct (find_mut_push k (λ _, [u v]) (u v) m Hw) as [H1 H2]; [done..|].
  unfold params_replace. by destruct (find_mut _ _ _).
Qed.

Lemma get_all_contents m k : get_all m k = contents m !! k.
Proof.
  induction m as [|[k' vs] m IH]; cbn; [done|].
  case_decide as Hk; [subst; by rewrite lookup_insert_eq|]. by rewrite lookup_insert_ne.
Qed.

Lemma get_str_contents m k : params_wf m → get_str m k = vs ← contents m !! k; last vs.
Proof.
  induction m as [|[k' vs] m IH]; cbn; [done|]. intros [[Hk' Hd]%NoDup_cons [Hv Hne]%Forall_cons].
  case_decide as Hk.
  - subst. rewrite lookup_insert_eq. cbn. cbn in Hv. destruct (last vs) eqn:E; [done|].
    by apply last_None in E.
  - rewrite lookup_insert_ne by done. by apply IH.
Qed.

(** ** Removal *)

Lemma swap_remove_middle {A} (a : list A) x b :
  swap_remove (a ++ x :: b) (length a) =
    Ok (x, a ++ match last b with Some z => z :: take (length b - 1) b | None => [] end).
Proof.
  unfold swap_remove. rewrite list_lookup_middle by done.
  destruct (last b) as [z|] eqn:E.
  - rewrite last_app, last_cons, E, insert_app_r_alt, Nat.sub_diag by lia. cbn [insert list_insert].
    rewrite length_app. cbn [length]. do 2 f_equal.
    apply last_Some in E as [b' ->]. rewrite length_app. cbn.
    replace (length b' + 1 - 1) with (length b') by lia. rewrite take_app_length.
    replace (length a + S (length b' + 1) - 1) with (length (a ++ z :: b')) by (rewrite length_app; cbn; lia).
    replace (a ++ z :: b' ++ [z]) with ((a ++ z :: b') ++ [z]) by (by rewrite <-app_assoc).
    by rewrite take_app_length.
  - apply last_None in E as ->. rewrite last_snoc, insert_app_r_alt, Nat.sub_diag by lia. cbn [insert list_insert].
    rewrite length_app. cbn. replace (length a + 1 - 1) with (length a) by lia.
    by rewrite take_app_length, app_nil_r.
Qed.

Lemma swap_remove_perm {A} (a : list A) x b :
  ∃ r, swap_remove (a ++ x :: b) (length a) = Ok (x, r) ∧ r ≡ₚ a ++ b.
Proof.
  eexists. split; [apply swap_remove_middle|]. apply Permutation_app_head.
  destruct (last b) as [z|] eqn:E.
  - apply last_Some in E as [b' ->]. rewrite length_app. cbn.
    replace (length b' + 1 - 1) with (length b') by lia. rewrite take_app_length.
    apply Permutation_cons_append.
  - by apply last_None in E as ->.
Qed.

Lemma params_remove_loop_skip a b k n : k ∉ a.*1 →
  params_remove_loop (a ++ b) k (seq 0 (length a + n)) =
  params_remove_loop (a ++ b) k (seq (length a) n).
Proof.
  revert b n. induction a as [|[k' vs] a IH] using rev_ind; intros b n Hk; [done|].
  rewrite fmap_app in Hk. cbn in Hk. rewrite <-app_assoc, length_app, <-Nat.add_assoc.
  rewrite IH by set_solver. cbn [app length Nat.add]. cbn [seq params_remove_loop].
  rewrite list_lookup_middle by done. cbn. rewrite decide_False by set_solver.
  by rewrite Nat.add_1_r.
Qed.

Lemma params_remove_absent m k : k ∉ m.*1 → params_remove m k = Ok (None, m).
Proof.
  intros Hk. pose proof (params_remove_loop_skip m [] k 0 Hk) as H.
  by rewrite app_nil_r, Nat.add_0_r in H.
Qed.

Lemma params_remove_present a vs b k : k ∉ a.*1 →
  ∃ m', params_remove (a ++ (k, vs) :: b) k = Ok (Some vs, m') ∧ m' ≡ₚ a ++ b.
Proof.
  intros Hk. destruct (swap_remove_perm a (k, vs) b) as (r & Hr & Hp). exists r.
  split; [|done]. unfold params_remove. rewrite length_app, params_remove_loop_skip by done.
  cbn [length seq params_remove_loop]. rewrite list_lookup_middle by done. cbn.
  rewrite decide_True by done. by rewrite Hr.
Qed.

Lemma params_remove_spec m k : params_wf m →
  ∃ m', params_remove m k = Ok (contents m !! k, m') ∧ params_wf m' ∧
        contents m' = delete k (contents m).
Proof.
  intros [Hd Hne]. destruct (decide (k ∈ m.*1)) as [Hk|Hk].
  - apply list_elem_of_fmap in Hk as ([k' vs] & -> & Hm). cbn.
    apply list_elem_of_split in Hm as (a & b & ->).
    pose proof Hd as Hd'. rewrite fmap_app in Hd'. cbn in Hd'.
    apply NoDup_app in Hd' as (Ha & Hab & [Hkb Hb]%NoDup_cons).
    assert (k' ∉ a.*1) as Hka by set_solver.
    assert (NoDup (a ++ b).*1) as Hnd.
    { rewrite fmap_app. apply NoDup_app. split_and!; [done|set_solver|done]. }
    destruct (params_remove_present a vs b k' Hka) as (m' & Hm' & Hp).
    assert (NoDup m'.*1) as Hnd' by by rewrite Hp.
    exists m'. rewrite contents_middle by done. rewrite lookup_insert_eq. split_and!; [done| |].
    + split; [done|]. rewrite Hp. apply Forall_app in Hne as [? [? ?]%Forall_cons].
      by apply Forall_app.
    + rewrite delete_insert_id; [by apply list_to_map_proper|].
      apply contents_lookup_None. rewrite fmap_app. set_solver.
  - exists m. rewrite params_remove_absent by done. rewrite contents_lookup_None by done.
    split_and!; [done|done|]. by rewrite delete_id by by apply contents_lookup_None.
Qed.

(** ** Iteration and the query string *)

Definition pairs_of (kvs : str * list str) : list (str * str) := map (pair kvs.1) kvs.2.

Lemma params_into_iter_pairs m : params_into_iter m = concat (map pairs_of m).
Proof.
  unfold params_into_iter.
  enough (∀ c, foldl (λ c (kvs : str * list str), foldl (λ c v, c ++ [(kvs.1, v)]) c kvs.2) c m =
               c ++ concat (map pairs_of m)) as H by apply (H []).
  induction m as [|[k vs] m IH]; intros c; cbn; [by rewrite app_nil_r|].
  rewrite IH, app_assoc. f_equal. clear. revert c.
  induction vs as [|v vs IH]; intros c; cbn; [by rewrite app_nil_r|].
  by rewrite IH, <-app_assoc.
Qed.

Lemma insert_decoded_snoc m k us v : k ∉ m.*1 →
  insert_decoded (m ++ [(k, us)]) k v = m ++ [(k, us ++ [v])].
Proof.
  intros Hk. unfold insert_decoded. destruct (find_mut _ _ _) as [m'|] eqn:E.
  - apply find_mut_Some in E as (_ & a & vs & b & Hm & -> & Ha).
    assert (a = m ∧ b = [] ∧ vs = us) as (-> & -> & ->); [|done].
    destruct b as [|x b _] using rev_ind; [apply app_inj_tail in Hm as [-> [= ->]]; done|].
    rewrite app_comm_cons, app_assoc in Hm. apply app_inj_tail in Hm as [-> _].
    destruct Hk. rewrite fmap_app. set_solver.
  - apply find_mut_None in E. destruct E. rewrite fmap_app. set_solver.
Qed.

Definition collect_decoded (m : ParamsMap) (l : list (str * str)) : ParamsMap :=
  foldl (λ m kv, insert_decoded m kv.1 kv.2) m l.

Lemma collect_decoded_values m k us vs : k ∉ m.*1 →
  collect_decoded (m ++ [(k, us)]) (map (pair k) vs) = m ++ [(k, us ++ vs)].
Proof.
  intros Hk. revert us. induction vs as [|v vs IH]; intros us; cbn; [by rewrite app_nil_r|].
  rewrite insert_decoded_snoc by done. rewrite IH. by rewrite <-app_assoc.
Qed.

Lemma collect_decoded_app m l1 l2 :
  collect_decoded m (l1 ++ l2) = collect_decoded (collect_decoded m l1) l2.
Proof. apply foldl_app. Qed.

(** Storing the pairs of a map one after the other rebuilds it. *)
Lemma collect_into_iter m : params_wf m → collect_decoded [] (params_into_iter m) = m.
Proof.
  rewrite params_into_iter_pairs. induction m as [|[k vs] m IH] using rev_ind; [done|].
  intros [Hd Hne]. rewrite fmap_app in Hd. apply NoDup_app in Hd as (Hd & Hk & _).
  apply Forall_app in Hne as [Hne [Hv _]%Forall_cons]. cbn in Hv.
  rewrite map_app, concat_app, collect_decoded_app, IH by done. cbn. rewrite app_nil_r.
  assert (k ∉ m.*1) as Hk' by set_solver.
  unfold pairs_of. destruct vs as [|v vs]; [done|]. cbn.
  change (v :: vs) with ([v] ++ vs). rewrite <-(collect_decoded_values m k [v] vs) by done.
  unfold collect_decoded. f_equal. unfold insert_decoded. by rewrite (proj2 (find_mut_None _ _ _)).
Qed.

(** The values that a list of pairs gives to a name. *)
Definition values_of (k : str) (l : list (str * str)) : list str :=
  (filter (λ kv, kv.1 = k) l).*2.

Lemma values_of_cons k k' v l :
  values_of k ((k', v) :: l) = if decide (k' = k) then v :: values_of k l else values_of k l.
Proof.
  unfold values_of. case_decide; [by rewrite filter_cons_True|by rewrite filter_cons_False].
Qed.

Lemma collect_decoded_spec l m : params_wf m →
  params_wf (collect_decoded m l) ∧
  ∀ k, contents (collect_decoded m l) !! k =
    match default [] (contents m !! k) ++ values_of k l with
    | [] => None
    | vs => Some vs
    end.
Proof.
  revert m. induction l as [|[k v] l IH]; intros m Hm.
  - split; [done|]. intros k. cbn. rewrite app_nil_r. destruct (contents m !! k) as [vs|] eqn:E; [|done].
    cbn. destruct vs; [|done]. exfalso. destruct Hm as [_ Hm].
    apply elem_of_list_to_map_2 in E. rewrite Forall_forall in Hm. by apply (Hm _ E).
  - change (collect_decoded m ((k, v) :: l)) with (collect_decoded (insert_decoded m k v) l).
    destruct (insert_decoded_spec m k v Hm) as [Hw Hc].
    destruct (IH _ Hw) as [Hw' Hl]. split; [done|]. intros k'. rewrite Hl, Hc.
    unfold push_value. rewrite values_of_cons. case_decide as Hk.
    + subst. rewrite lookup_insert_eq. cbn. by rewrite <-app_assoc.
    + by rewrite lookup_insert_ne.
Qed.

(** Separated by an ampersand *)
Fixpoint join_amp (l : list str) : str :=
  match l with
  | [] => []
  | [x] => x
  | x :: l => x ++ lit "&" ++ join_amp l
  end.

Lemma join_amp_concat a l :
  concat (map (λ x, x ++ lit "&") (a :: l)) = join_amp (a :: l) ++ lit "&".
Proof.
  revert a. induction l as [|b l IH]; intros a; [cbn; by rewrite app_nil_r|].
  change (join_amp (a :: b :: l)) with (a ++ lit "&" ++ join_amp (b :: l)).
  rewrite <-!app_assoc, <-IH. cbn. by rewrite <-!app_assoc.
Qed.

Lemma pop_snoc s c : pop (s ++ [c]) = s.
Proof.
  unfold pop. rewrite length_app. cbn. replace (length s + 1 - 1) with (length s) by lia.
  by rewrite take_app_length.
Qed.

Section query.
Context (escape : str → str).

Definition entry_of (kv : str * str) : str := escape kv.1 ++ lit "=" ++ escape kv.2.

Lemma to_query_string_spec m : params_wf m → m ≠ [] →
  to_query_string escape m = lit "?" ++ join_amp (map entry_of (params_into_iter m)).
Proof.
  intros [_ Hne] Hm. assert (∃ e l, map entry_of (params_into_iter m) = e :: l) as (e & l & El).
  { rewrite params_into_iter_pairs. destruct m as [|[k [|v vs]] m]; [done| |].
    - by apply Forall_cons in Hne as [? _].
    - cbn. eauto. }
  assert (concat (map (λ kvs, concat (map (query_entry escape kvs.1) kvs.2)) m) =
          concat (map (λ x, x ++ lit "&") (e :: l))) as H.
  { rewrite <-El, params_into_iter_pairs. clear. induction m as [|[k vs] m IH]; cbn; [done|].
    rewrite IH, !map_app, concat_app. f_equal. clear. induction vs as [|v vs IH]; cbn; [done|].
    rewrite IH. f_equal. unfold query_entry, entry_of. cbn. by rewrite <-!app_assoc. }
  rewrite El. destruct m as [|kvs m]; [done|]. unfold to_query_string.
  rewrite H, join_amp_concat. set (x := join_amp _).
  destruct (Nat.ltb_spec 1 (length (lit "?" ++ x ++ lit "&"))) as [_|Hl].
  - rewrite app_assoc. apply pop_snoc.
  - rewrite !length_app in Hl. cbn in Hl. lia.
Qed.
End query.

(** * Request URLs

    [Url] of [router/src/location/mod.rs] and [RequestUrl::parse] of
    [router/src/location/server.rs], which the server uses to take a request
    apart.  The [url] crate (absolute URLs and form decoding) is a parameter. *)

Record Url := mk_Url {
  url_origin : str;
  url_path : str;
  url_search : str;
  url_search_params : ParamsMap;
  url_hash : str;
}.

Definition to_full_path (u : Url) : str :=
  let path := url_path u in
  let path := match url_search u with [] => path | s => path ++ lit "?" ++ s end in
  match url_hash u with
  | [] => path
  | h => (if starts_with_char "#" h then path else path ++ lit "#") ++ h
  end.

(** [Url::provide_server_action_error]: the path and the error of the
    [ServerActionError] that it provides, if it provides one *)
Definition server_action_error (u : Url) : option (str * str) :=
  match get_str (url_search_params u) (lit "__err"), get_str (url_search_params u) (lit "__path") with
  | Some err, Some path => Some (path, err)
  | _, _ => None
  end.

Section url_crate.
(** [url::Url], what the program reads from it, and [url::ParseError] *)
Context {AbsoluteUrl ParseError : Type}.
Variable url_parse : str → AbsoluteUrl + ParseError.
Variable is_relative_without_base : ParseError → bool.
Variable unicode_origin : AbsoluteUrl → str.
Variable abs_path : AbsoluteUrl → str.
Variable abs_query : AbsoluteUrl → option str.
Variable query_pairs : AbsoluteUrl → list (str * str).
(** [url::form_urlencoded::parse] *)
Variable form_parse : str → list (str * str).

Definition from_absolute (url : AbsoluteUrl) : Url :=
  let search_params :=
    foldl (λ m kv, insert_decoded m kv.1 kv.2) ParamsMap_new (query_pairs url) in
  mk_Url (unicode_origin url) (abs_path url) (default [] (abs_query url)) search_params [].

Definition parse_relative (s : str) : Url :=
  let (path, query) := match split_once "?" s with
                       | Some (path, query) => (path, query)
                       | None => (s, [])
                       end in
  let path := match path with
              | [] => lit "/"
              | _ => if starts_with_char slash path then path else lit "/" ++ path
              end in
  let search_params :=
    foldl (λ m kv, insert_decoded m kv.1 kv.2) ParamsMap_new (form_parse query) in
  mk_Url [] path query search_params [].

Definition request_parse (s : str) : Url + ParseError :=
  match url_parse s with
  | inl url => inl (from_absolute url)
  | inr e => if is_relative_without_base e then inl (parse_relative s) else inr e
  end.
End url_crate.

(** ** Lemmas *)

(** With a leading slash *)
Definition rooted (p : str) : str := if starts_with_char slash p then p else slash :: p.

Lemma parse_relative_rooted fp p q :
  "?"%char ∉ p → parse_relative fp (p ++ "?"%char :: q) = mk_Url [] (rooted p) q (collect_decoded [] (fp q)) [].
Proof.
  intros Hp. unfold parse_relative. rewrite split_once_app by done. unfold rooted.
  by destruct p as [|c p]; cbn.
Qed.

Lemma parse_relative_no_query fp p :
  "?"%char ∉ p → parse_relative fp p = mk_Url [] (rooted p) [] (collect_decoded [] (fp [])) [].
Proof.
  intros Hp. unfold parse_relative. rewrite split_once_None by done. unfold rooted.
  by destruct p as [|c p]; cbn.
Qed.

Lemma parse_relative_params fp s :
  url_search_params (parse_relative fp s) = collect_decoded [] (fp (url_search (parse_relative fp s))).
Proof.
  unfold parse_relative. by destruct (split_once _ _) as [[??]|].
Qed.

Lemma params_wf_nil : params_wf [].
Proof. split; [apply NoDup_nil_2|done]. Qed.
#[export] Hint Resolve params_wf_nil : core.
