(* ===== verification/UrlProps.v ===== *)
(** * What the parameters and the URLs guarantee

    [ParamsMap] implements a map of lists of values; a relative request keeps
    its text, and its query is decoded once; a query string that the map
    prints is read back as the same map. *)

From Stdlib Require Import Ascii.
From stdpp Require Import base gmap list strings sets.
From S2P Require Import Prelude RustStr Params.

(** ** A map of lists *)

Inductive params_op :=
| OpInsert (k v : str)
| OpInsertDecoded (k v : str)
| OpReplace (k v : str)
| OpRemove (k : str).

Section refinement.
Variable unescape : str → str.

(** The program's map, with the results of the removals *)
Definition run_op (m : ParamsMap) (o : params_op) : outcome (option (list str) * ParamsMap) :=
  match o with
  | OpInsert k v => Ok (None, params_insert unescape m k v)
  | OpInsertDecoded k v => Ok (None, insert_decoded m k v)
  | OpReplace k v => Ok (None, params_replace unescape m k v)
  | OpRemove k => params_remove m k
  end.
Fixpoint run_ops (m : ParamsMap) (l : list params_op)
    : outcome (list (option (list str)) * ParamsMap) :=
  match l with
  | [] => Ok ([], m)
  | o :: l => r ← run_op m o; rs ← run_ops r.2 l; Ok (r.1 :: rs.1, rs.2)
  end.

(** The same on a finite map *)
Definition spec_op (c : gmap str (list str)) (o : params_op)
    : option (list str) * gmap str (list str) :=
  match o with
  | OpInsert k v => (None, push_value k (unescape v) c)
  | OpInsertDecoded k v => (None, push_value k v c)
  | OpReplace k v => (None, <[k := [unescape v]]> c)
  | OpRemove k => (c !! k, delete k c)
  end.
Fixpoint spec_ops (c : gmap str (list str)) (l : list params_op)
    : list (option (list str)) * gmap str (list str) :=
  match l with
  | [] => ([], c)
  | o :: l => let r := spec_op c o in
              let rs := spec_ops r.2 l in (r.1 :: rs.1, rs.2)
  end.

Lemma run_op_spec m o : params_wf m →
  ∃ m', run_op m o = Ok ((spec_op (contents m) o).1, m') ∧ params_wf m' ∧
        contents m' = (spec_op (contents m) o).2.
Proof.
  intros Hm. destruct o as [k v|k v|k v|k]; cbn.
  - destruct (params_insert_spec unescape m k v Hm). by eexists.
  - destruct (insert_decoded_spec m k v Hm). by eexists.
  - destruct (params_replace_spec unescape m k v Hm). by eexists.
  - by apply params_remove_spec.
Qed.

Lemma run_ops_spec l m : params_wf m →
  ∃ m', run_ops m l = Ok ((spec_ops (contents m) l).1, m') ∧ params_wf m' ∧
        contents m' = (spec_ops (contents m) l).2.
Proof.
  revert m. induction l as [|o l IH]; intros m Hm; cbn; [by eexists|].
  destruct (run_op_spec m o Hm) as (m1 & -> & Hw1 & Hc1). cbn. rewrite <-Hc1.
  destruct (IH m1 Hw1) as (m2 & -> & Hw2 & Hc2). by eexists.
Qed.
End refinement.

(** C37: [ParamsMap] is a map from names to the lists of their values.  Any
    sequence of insertions, decoded insertions, replacements and removals,
    from an empty map, returns what it returns on a finite map and leaves the
    same contents, without panicking; the readers ([get_all], [get] and the
    last values) answer from these contents. *)
Theorem params_implement_map (unescape : str → str) (l : list params_op) :
  let (outs, c) := spec_ops unescape ∅ l in
  ∃ m, run_ops unescape ParamsMap_new l = Ok (outs, m) ∧
    (∀ k, get_all m k = c !! k) ∧
    (∀ k, params_get m k = vs ← c !! k; last vs) ∧
    (∀ k v, (k, v) ∈ latest_values m ↔ ∃ vs, c !! k = Some vs ∧ last vs = Some v).
Proof.
  destruct (run_ops_spec unescape l [] params_wf_nil) as (m & Hr & Hw & Hc).
  change (contents []) with (∅ : gmap str (list str)) in *.
  destruct (spec_ops unescape ∅ l) as [outs c]. cbn in Hr, Hc. exists m.
  split_and!; [done| | |].
  - intros k. by rewrite get_all_contents, Hc.
  - intros k. unfold params_get. by rewrite get_str_contents, Hc.
  - intros k v. unfold latest_values. rewrite list_elem_of_omap. rewrite <-Hc.
    split.
    + intros ([k' vs] & Hm & Hv). cbn in Hv. destruct (last vs) eqn:E; [|done]. cbn in Hv.
      simplify_eq. exists vs. split; [|done]. by apply elem_of_list_to_map_1; [apply Hw|].
    + intros (vs & Hm & Hv). apply elem_of_list_to_map_2 in Hm. exists (k, vs).
      cbn. by rewrite Hv.
Qed.

(** ** Requests *)

Section requests.
Context {AbsoluteUrl ParseError : Type}.
Variable url_parse : str → AbsoluteUrl + ParseError.
Variable is_relative_without_base : ParseError → bool.
Variable unicode_origin : AbsoluteUrl → str.
Variable abs_path : AbsoluteUrl → str.
Variable abs_query : AbsoluteUrl → option str.
Variable query_pairs : AbsoluteUrl → list (str * str).
Variable form_parse : str → list (str * str).

Abbreviation parse := (request_parse url_parse is_relative_without_base unicode_origin
                       abs_path abs_query query_pairs form_parse).

(** A relative request ([path] or [path?query], whatever they hold) has no
    origin, so nothing in it can name another host; its path is the given one
    with a leading slash, its query is kept as it came, both print back, and
    the parameters of each name are the values that the form decoder gives for
    it, in order and decoded once. *)
Theorem relative_request_kept (path query : str) e :
  "?"%char ∉ path →
  url_parse (path ++ "?"%char :: query) = inr e →
  is_relative_without_base e = true →
  ∃ u, parse (path ++ "?"%char :: query) = inl u ∧
    url_origin u = [] ∧ url_path u = rooted path ∧ url_search u = query ∧
    (query ≠ [] → to_full_path u = rooted path ++ "?"%char :: query) ∧
    ∀ k, get_all (url_search_params u) k =
           match values_of k (form_parse query) with [] => None | vs => Some vs end ∧
         params_get (url_search_params u) k = last (values_of k (form_parse query)).
Proof.
  intros Hp Hu He. unfold request_parse. rewrite Hu, He. eexists. split; [done|].
  rewrite parse_relative_rooted by done. cbn. split_and!; [done..| |].
  - intros Hq. unfold to_full_path. cbn. by destruct query.
  - intros k. unfold params_get.
    destruct (collect_decoded_spec (form_parse query) [] params_wf_nil) as [Hw Hc].
    rewrite get_str_contents, get_all_contents, Hc by done. cbn.
    by destruct (values_of k (form_parse query)).
Qed.

Section roundtrip.
Variable escape : str → str.

(** The query string that [to_query_string] prints for a map, behind a path
    and read by [RequestUrl::parse], gives back this map, with its names and
    values in their order, when the [url] crate decodes forms as documented:
    pairs come apart at ampersands, a name and a value at the equals sign, and
    decoding undoes the escaping. *)
Theorem query_string_roundtrip (path : str) (m : ParamsMap) e :
  form_parse [] = [] →
  (∀ k v, form_parse (escape k ++ "="%char :: escape v) = [(k, v)]) →
  (∀ a b, "&"%char ∉ a → form_parse (a ++ "&"%char :: b) = form_parse a ++ form_parse b) →
  (∀ s, "&"%char ∉ escape s) →
  params_wf m → "?"%char ∉ path →
  url_parse (path ++ to_query_string escape m) = inr e →
  is_relative_without_base e = true →
  ∃ u, parse (path ++ to_query_string escape m) = inl u ∧
    url_path u = rooted path ∧ url_search_params u = m.
Proof.
  intros Hf0 Hf1 Hf2 He Hm Hp Hu Hr. unfold request_parse. rewrite Hu, Hr. eexists. split; [done|].
  destruct (decide (m = [])) as [->|Hn].
  - cbn. rewrite app_nil_r, parse_relative_no_query by done. cbn. by rewrite Hf0.
  - rewrite to_query_string_spec by done. cbn. rewrite parse_relative_rooted by done. cbn.
    split; [done|]. rewrite <-(collect_into_iter m Hm) at 2. f_equal.
    induction (params_into_iter m) as [|[k v] l IH]; [done|].
    destruct l as [|kv l]; [apply Hf1|].
    change (join_amp (map (entry_of escape) ((k, v) :: kv :: l))) with
      ((escape k ++ lit "=" ++ escape v) ++ "&"%char :: join_amp (map (entry_of escape) (kv :: l))).
    rewrite Hf2, IH; [cbn; by rewrite Hf1|].
    cbn. pose proof (He k). pose proof (He v). set_solver.
Qed.
End roundtrip.
End requests.

(** ** A form decoder that behaves as documented *)

Definition sample_escape (s : str) : str :=
  concat (map (λ c, if decide (c = "&"%char) then lit "%a"
                    else if decide (c = "="%char) then lit "%e"
                    else if decide (c = "%"%char) then lit "%p" else [c]) s).

Fixpoint sample_unescape (s : str) : str :=
  match s with
  | "%"%char :: "a"%char :: s => "&"%char :: sample_unescape s
  | "%"%char :: "e"%char :: s => "="%char :: sample_unescape s
  | "%"%char :: "p"%char :: s => "%"%char :: sample_unescape s
  | c :: s => c :: sample_unescape s
  | [] => []
  end.

(** The pieces between the ampersands *)
Fixpoint pieces (s : str) : list str :=
  match s with
  | [] => [[]]
  | c :: s => if decide (c = "&"%char) then [] :: pieces s
              else match pieces s with p :: ps => (c :: p) :: ps | [] => [[c]] end
  end.

Definition sample_pair (p : str) : str * str :=
  match split_once "=" p with
  | Some (k, v) => (sample_unescape k, sample_unescape v)
  | None => (sample_unescape p, [])
  end.
Definition sample_form (s : str) : list (str * str) :=
  map sample_pair (filter (.≠ []) (pieces s)).

Lemma sample_escape_clean s : ("&"%char ∉ sample_escape s) ∧ ("="%char ∉ sample_escape s).
Proof.
  induction s as [|c s [IH1 IH2]]; unfold sample_escape; cbn; [set_solver|].
  repeat case_decide; cbn; fold (sample_escape s); set_solver.
Qed.

Lemma sample_unescape_other c s : c ≠ "%"%char → sample_unescape (c :: s) = c :: sample_unescape s.
Proof. intros Hc. destruct c as [[] [] [] [] [] [] [] []]; done. Qed.

Lemma sample_unescape_escape s : sample_unescape (sample_escape s) = s.
Proof.
  induction s as [|c s IH]; [done|]. unfold sample_escape. cbn [map concat].
  fold (sample_escape s). repeat case_decide; subst; cbn [app lit String.list_ascii_of_string].
  1-3: cbn; by rewrite IH.
  rewrite sample_unescape_other by done. by rewrite IH.
Qed.

Lemma pieces_app a b : "&"%char ∉ a → pieces (a ++ "&"%char :: b) = a :: pieces b.
Proof.
  induction a as [|c a IH]; cbn; intros Ha; [done|]. rewrite decide_False by set_solver.
  by rewrite IH by set_solver.
Qed.
Lemma pieces_single a : "&"%char ∉ a → pieces a = [a].
Proof.
  induction a as [|c a IH]; cbn; intros Ha; [done|]. rewrite decide_False by set_solver.
  by rewrite IH by set_solver.
Qed.

Lemma sample_form_pair k v :
  sample_form (sample_escape k ++ "="%char :: sample_escape v) = [(k, v)].
Proof.
  unfold sample_form. destruct (sample_escape_clean k), (sample_escape_clean v).
  rewrite pieces_single by set_solver. rewrite filter_cons_True by (by destruct (sample_escape k)).
  cbn. unfold sample_pair. rewrite split_once_app by done. by rewrite !sample_unescape_escape.
Qed.

Lemma sample_form_amp a b : "&"%char ∉ a →
  sample_form (a ++ "&"%char :: b) = sample_form a ++ sample_form b.
Proof.
  intros Ha. unfold sample_form. rewrite pieces_app, (pieces_single a) by done.
  destruct (decide (a = [])) as [->|Hn].
  - by rewrite !filter_cons_False by naive_solver.
  - by rewrite !filter_cons_True by done.
Qed.

Definition relative_only (s : str) : unit + unit := inr tt.

Lemma relative_request_kept_witness :
  ∃ u, request_parse relative_only (λ _, true) (λ _, []) (λ _, []) (λ _, None) (λ _, []) sample_form
         (lit "foo?q=a&r=%p20&q=b") = inl u ∧
    url_origin u = [] ∧ url_path u = lit "/foo" ∧ url_search u = lit "q=a&r=%p20&q=b" ∧
    get_all (url_search_params u) (lit "q") = Some [lit "a"; lit "b"] ∧
    get_all (url_search_params u) (lit "r") = Some [lit "%20"].
Proof.
  destruct (relative_request_kept relative_only (λ _, true) (λ _, []) (λ _, []) (λ _, None) (λ _, [])
              sample_form (lit "foo") (lit "q=a&r=%p20&q=b") tt) as (u & H1 & H2 & H3 & H4 & _ & H5);
    [cbn; set_solver|done..|].
  exists u. split_and!; [exact H1|exact H2|exact H3|exact H4| |].
  - rewrite (proj1 (H5 (lit "q"))). vm_compute. reflexivity.
  - rewrite (proj1 (H5 (lit "r"))). vm_compute. reflexivity.
Defined.

Lemma query_string_roundtrip_witness :
  let m : ParamsMap := [(lit "q&a", [lit "1=2"; lit "%"]); (lit "z", [lit "x"])] in
  to_query_string sample_escape m = lit "?q%aa=1%e2&q%aa=%p&z=x" ∧
  ∃ u, request_parse relative_only (λ _, true) (λ _, []) (λ _, []) (λ _, None) (λ _, []) sample_form
         (lit "/p" ++ to_query_string sample_escape m) = inl u ∧
    url_path u = lit "/p" ∧ url_search_params u = m.
Proof.
  intros m. split; [vm_compute; reflexivity|].
  apply (query_string_roundtrip relative_only (λ _, true) (λ _, []) (λ _, []) (λ _, None) (λ _, [])
           sample_form sample_escape (lit "/p") m tt); [reflexivity|apply sample_form_pair
           |apply sample_form_amp|apply sample_escape_clean| | |reflexivity|reflexivity].
  - split; [|repeat constructor; done]. apply (bool_decide_unpack _). vm_compute. exact I.
  - cbn. set_solver.
Defined.
