(* ===== verification/ServerFnError.v ===== *)
(** * Errors of server functions

    [server_fn/src/error.rs] and [FormatType] of [server_fn/src/lib.rs]: how an
    error is turned into the body of a response, into a string and into the
    query of a URL, and how it is read back.  The [base64] and [url] crates are
    parameters, as are the texts that the standard library prints for a string
    in its debug form and for a UTF-8 error. *)

From Stdlib Require Import Ascii.
From stdpp Require Import base list strings gmap sets.
From S2P Require Import Prelude RustStr Params.

Inductive ServerFnError (E : Type) :=
| WrappedServerError (e : E)
| Registration (s : str)
| Request (s : str)
| Response (s : str)
| ServerError (s : str)
| MiddlewareError (s : str)
| Deserialization (s : str)
| Serialization (s : str)
| Args (s : str)
| MissingArg (s : str).
Arguments WrappedServerError {_} _.
Arguments Registration {_} _.
Arguments Request {_} _.
Arguments Response {_} _.
Arguments ServerError {_} _.
Arguments MiddlewareError {_} _.
Arguments Deserialization {_} _.
Arguments Serialization {_} _.
Arguments Args {_} _.
Arguments MissingArg {_} _.

Inductive ServerFnErrorErr :=
| ErrRegistration (s : str)
| ErrUnsupportedRequestMethod (s : str)
| ErrRequest (s : str)
| ErrServerError (s : str)
| ErrMiddlewareError (s : str)
| ErrDeserialization (s : str)
| ErrSerialization (s : str)
| ErrArgs (s : str)
| ErrMissingArg (s : str)
| ErrResponse (s : str).

Inductive Format := Binary | Text.

(** [FromServerFnError] with its [Encoder] ([Encodes], [Decodes],
    [ContentType] and [FormatType]); errors of the encoder are given by the
    text that they print. *)
Class FromServerFnError (E : Type) := {
  encoder_encode : E → str + str;
  encoder_decode : str → E + str;
  CONTENT_TYPE : str;
  FORMAT_TYPE : Format;
  from_server_fn_error : ServerFnErrorErr → E;
  status_code : E → nat;
}.

Record ServerFnErrorResponseParts := mkParts {
  parts_body : str;
  parts_content_type : str;
  parts_status_code : nat;
}.

Definition INTERNAL_SERVER_ERROR : nat := 500.

Section any_error.
Context {E : Type} `{FromServerFnError E}.

Definition into_app_error (e : ServerFnErrorErr) : E := from_server_fn_error e.

Definition ser (e : E) : ServerFnErrorResponseParts :=
  let '(body, content_type) :=
    match encoder_encode e with
    | inl body => (body, CONTENT_TYPE)
    | inr message =>
        match encoder_encode (from_server_fn_error (ErrSerialization message)) with
        | inl body => (body, CONTENT_TYPE)
        | inr _ => (message, lit "text/plain")
        end
    end in
  mkParts body content_type (status_code e).

Definition de (data : str) : E :=
  match encoder_decode data with
  | inl e => e
  | inr e => into_app_error (ErrDeserialization e)
  end.
End any_error.

(** ** The encoding of [ServerFnError] *)

Section server_fn_error.
(** A custom error: [Display], which may fail, and [FromStr] *)
Context {E : Type}.
Variable display_custom : E → option str.
Variable from_str_custom : str → option E.
(** [{:?}] of a string, and [{}] of a [FromUtf8Error] *)
Variable debug_str : str → str.
Variable utf8_error : str → str.

(** [Display] of [ServerFnError] *)
Definition display (e : ServerFnError E) : option str :=
  match e with
  | Registration s => Some (lit "error while trying to register the server function: " ++ s)
  | Request s => Some (lit "error reaching server to call server function: " ++ s)
  | ServerError s => Some (lit "error running server function: " ++ s)
  | MiddlewareError s => Some (lit "error running middleware: " ++ s)
  | Deserialization s => Some (lit "error deserializing server function results: " ++ s)
  | Serialization s => Some (lit "error serializing server function arguments: " ++ s)
  | Args s => Some (lit "error deserializing server function arguments: " ++ s)
  | MissingArg s => Some (lit "missing argument " ++ s)
  | Response s => Some (lit "error generating HTTP response: " ++ s)
  | WrappedServerError e => display_custom e
  end.

(** What [std::fmt::Error] prints *)
Definition fmt_error : str := lit "an error occurred when formatting an argument".

Definition encode (output : ServerFnError E) : str + str :=
  match output with
  | WrappedServerError e =>
      match display_custom e with
      | Some e => inl (lit "WrappedServerFn|" ++ e)
      | None => inr fmt_error
      end
  | Registration e => inl (lit "Registration|" ++ e)
  | Request e => inl (lit "Request|" ++ e)
  | Response e => inl (lit "Response|" ++ e)
  | ServerError e => inl (lit "ServerError|" ++ e)
  | MiddlewareError e => inl (lit "MiddlewareError|" ++ e)
  | Deserialization e => inl (lit "Deserialization|" ++ e)
  | Serialization e => inl (lit "Serialization|" ++ e)
  | Args e => inl (lit "Args|" ++ e)
  | MissingArg e => inl (lit "MissingArg|" ++ e)
  end.

(** The match on the name of the variant *)
Definition decode_variant (ty data : str) : ServerFnError E + str :=
  if decide (ty = lit "WrappedServerFn") then
    match from_str_custom data with
    | Some e => inl (WrappedServerError e)
    | None => inr (lit "Failed to parse CustErr from " ++ debug_str data)
    end
  else if decide (ty = lit "Registration") then inl (Registration data)
  else if decide (ty = lit "Request") then inl (Request data)
  else if decide (ty = lit "Response") then inl (Response data)
  else if decide (ty = lit "ServerError") then inl (ServerError data)
  else if decide (ty = lit "MiddlewareError") then inl (MiddlewareError data)
  else if decide (ty = lit "Deserialization") then inl (Deserialization data)
  else if decide (ty = lit "Serialization") then inl (Serialization data)
  else if decide (ty = lit "Args") then inl (Args data)
  else if decide (ty = lit "MissingArg") then inl (MissingArg data)
  else inr (lit "Unknown error type: " ++ ty).

Definition decode (bytes : str) : ServerFnError E + str :=
  if utf8 bytes then
    match split_once "|" bytes with
    | None => inr (lit "Invalid format: missing delimiter in " ++ debug_str bytes)
    | Some (ty, data) => decode_variant ty data
    end
  else inr (lit "UTF-8 conversion error: " ++ utf8_error bytes).

Definition server_fn_error_from (value : ServerFnErrorErr) : ServerFnError E :=
  match value with
  | ErrRegistration value => Registration value
  | ErrRequest value => Request value
  | ErrServerError value => ServerError value
  | ErrMiddlewareError value => MiddlewareError value
  | ErrDeserialization value => Deserialization value
  | ErrSerialization value => Serialization value
  | ErrArgs value => Args value
  | ErrMissingArg value => MissingArg value
  | ErrResponse value => Response value
  | ErrUnsupportedRequestMethod value => Request value
  end.

#[local] Instance ServerFnError_encoding : FromServerFnError (ServerFnError E) := {|
  encoder_encode := encode;
  encoder_decode := decode;
  CONTENT_TYPE := lit "text/plain";
  FORMAT_TYPE := Text;
  from_server_fn_error := server_fn_error_from;
  status_code _ := INTERNAL_SERVER_ERROR;
|}.
End server_fn_error.

(** ** Strings and URLs *)

(** The replacement character, in UTF-8 *)
Definition replacement : str := map ascii_of_nat [239; 191; 189].

(** [String::from_utf8_lossy]: a sequence of bytes that cannot be completed is
    replaced, and the byte that breaks it is looked at again.  [pending] holds
    the bytes of a character that still lacks the ones of [need]. *)
Fixpoint lossy_from (need : list (nat * nat)) (pending : str) (s : str) : str :=
  let fresh c s' :=
    match utf8_lead c with
    | Some [] => c :: lossy_from [] [] s'
    | Some need => lossy_from need [c] s'
    | None => replacement ++ lossy_from [] [] s'
    end in
  match s, need with
  | [], [] => []
  | [], _ :: _ => replacement
  | c :: s', [] => fresh c s'
  | c :: s', (lo, hi) :: need =>
      if (lo <=? nat_of_ascii c) && (nat_of_ascii c <=? hi) then
        match need with
        | [] => pending ++ c :: lossy_from [] [] s'
        | _ => lossy_from need (pending ++ [c]) s'
        end
      else replacement ++ fresh c s'
  end.
Definition from_utf8_lossy (s : str) : str := lossy_from [] [] s.

Section strings.
(** The [STANDARD_NO_PAD] engine of the [base64] crate *)
Variable no_pad_encode : str → str.
Variable no_pad_decode : str → str + str.

Definition into_encoded_string (format : Format) (bytes : str) : str :=
  match format with
  | Binary => no_pad_encode bytes
  | Text => if utf8 bytes then bytes else from_utf8_lossy bytes
  end.
Definition from_encoded_string (format : Format) (data : str) : str + str :=
  match format with
  | Binary => no_pad_decode data
  | Text => inl data
  end.

Context {E : Type} `{FromServerFnError E}.

(** [ServerFnErrorWrapper]: [Display] and [FromStr] *)
Definition wrapper_display (e : E) : str := into_encoded_string FORMAT_TYPE (parts_body (ser e)).
Definition wrapper_from_str (s : str) : E :=
  match from_encoded_string FORMAT_TYPE s with
  | inl bytes => de bytes
  | inr e => from_server_fn_error (ErrDeserialization e)
  end.
End strings.

Section urls.
Context {AbsoluteUrl ParseError : Type}.
Variable url_parse : str → AbsoluteUrl + ParseError.
Variable query_pairs : AbsoluteUrl → list (str * str).
(** [append_pair] and [clear] of [query_pairs_mut()], and [Url::to_string] *)
Variable append_pair : AbsoluteUrl → str → str → AbsoluteUrl.
Variable clear_pairs : AbsoluteUrl → AbsoluteUrl.
Variable url_to_string : AbsoluteUrl → str.
(** The [URL_SAFE] engine of the [base64] crate *)
Variable url_safe_encode : str → str.
Variable url_safe_decode : str → str + str.

Context {E : Type} `{FromServerFnError E}.

Record ServerFnUrlError := mkUrlError {
  ue_path : str;
  ue_error : E;
}.

Definition to_url (e : ServerFnUrlError) (base : str) : AbsoluteUrl + ParseError :=
  match url_parse base with
  | inr err => inr err
  | inl url =>
      let url := append_pair url (lit "__path") (ue_path e) in
      inl (append_pair url (lit "__err") (url_safe_encode (parts_body (ser (ue_error e)))))
  end.

Definition keeps_pair (kv : str * str) : bool :=
  bool_decide (kv.1 ≠ lit "__path") && bool_decide (kv.1 ≠ lit "__err").
Definition strip_error_info (path : str) : str :=
  match url_parse path with
  | inl url =>
      let pairs_previously := query_pairs url in
      let url := clear_pairs url in
      let url := foldl (λ url kv, append_pair url kv.1 kv.2) url
                   (List.filter keeps_pair pairs_previously) in
      url_to_string url
  | inr _ => path
  end.

Definition decode_err (err : str) : E :=
  match url_safe_decode err with
  | inl decoded => de decoded
  | inr err => into_app_error (ErrDeserialization err)
  end.
End urls.
Arguments ServerFnUrlError : clear implicits.
Arguments mkUrlError {_} _ _.

(** * Errors of server functions arrive as they were sent *)

(** The message of an error, if it is not a custom one *)
Definition message {E} (e : ServerFnError E) : option str :=
  match e with
  | WrappedServerError _ => None
  | Registration s | Request s | Response s | ServerError s | MiddlewareError s
  | Deserialization s | Serialization s | Args s | MissingArg s => Some s
  end.

Section codec.
Context {E : Type}.
Variable display_custom : E → option str.
Variable from_str_custom : str → option E.
Variable debug_str : str → str.
Variable utf8_error : str → str.

#[local] Instance enc : FromServerFnError (ServerFnError E) :=
  ServerFnError_encoding display_custom from_str_custom debug_str utf8_error.

(** A message is a [String]; a custom error reads back what it prints. *)
Definition sendable (e : ServerFnError E) : Prop :=
  match e with
  | WrappedServerError c =>
      ∀ s, display_custom c = Some s → utf8 s = true ∧ from_str_custom s = Some c
  | _ => ∀ s, message e = Some s → utf8 s = true
  end.

(** What arrives: a custom error that cannot be printed is reported as an error
    of the serialization. *)
Definition arrives (e : ServerFnError E) : ServerFnError E :=
  match e with
  | WrappedServerError c =>
      match display_custom c with Some _ => e | None => Serialization fmt_error end
  | _ => e
  end.

Lemma split_at_bar ty data : "|"%char ∉ ty → split_once "|" (ty ++ lit "|" ++ data) = Some (ty, data).
Proof. apply split_once_app. Qed.

(** The text of a variant, its name and its data *)
Lemma decode_variant_text ty data :
  "|"%char ∉ ty → utf8 ty = true → utf8 data = true →
  decode from_str_custom debug_str utf8_error (ty ++ lit "|" ++ data) =
    decode_variant from_str_custom debug_str ty data.
Proof.
  intros Hty Hu Hd. unfold decode. rewrite utf8_app; [|done|by apply (utf8_app (lit "|"))].
  by rewrite split_at_bar.
Qed.

Lemma decode_encode e b : sendable e → encode display_custom e = inl b →
  decode from_str_custom debug_str utf8_error b = inl e ∧ utf8 b = true.
Proof.
  intros Hs He.
  assert (∃ ty data, b = ty ++ lit "|" ++ data ∧ ("|"%char ∉ ty) ∧ utf8 ty = true ∧ utf8 data = true ∧
    decode_variant from_str_custom debug_str ty data = inl e) as (ty & data & -> & H1 & H2 & H3 & H4).
  { destruct e as [c|s|s|s|s|s|s|s|s|s]; cbn in He, Hs.
    1:{ destruct (display_custom c) as [s|] eqn:Ec; [|done]. injection He as <-.
        destruct (Hs s eq_refl) as [Hu Hc]. exists (lit "WrappedServerFn"), s.
        split_and!; [done|cbn; set_solver|done|done|]. unfold decode_variant.
        rewrite decide_True by done. by rewrite Hc. }
    all: injection He as <-; pose proof (Hs s eq_refl) as Hu.
    1: exists (lit "Registration"), s. 2: exists (lit "Request"), s. 3: exists (lit "Response"), s.
    4: exists (lit "ServerError"), s. 5: exists (lit "MiddlewareError"), s.
    6: exists (lit "Deserialization"), s. 7: exists (lit "Serialization"), s.
    8: exists (lit "Args"), s. 9: exists (lit "MissingArg"), s.
    all: split_and!; [done|cbn; set_solver|done|done|reflexivity]. }
  rewrite decode_variant_text by done. split; [done|].
  apply utf8_app; [done|]. by apply (utf8_app (lit "|")).
Qed.

Lemma ser_body e : sendable e →
  ∃ e', encode display_custom e' = inl (parts_body (ser e)) ∧ sendable e' ∧ e' = arrives e.
Proof.
  intros Hs. unfold ser. cbn [encoder_encode ServerFnError_encoding enc].
  destruct (encode display_custom e) as [b|m] eqn:He.
  - exists e. split_and!; [done|done|].
    destruct e as [c| | | | | | | | |]; [|done..]. cbn in *. by destruct (display_custom c).
  - exists (Serialization m). destruct e as [c| | | | | | | | |]; [|done..]. cbn in *.
    destruct (display_custom c); [done|]. injection He as <-.
    split_and!; [done| |done]. intros s [= <-]. reflexivity.
Qed.

Lemma de_ser e : sendable e → de (parts_body (ser e)) = arrives e.
Proof.
  intros Hs. destruct (ser_body e Hs) as (e' & He & Hs' & <-). unfold de.
  cbn [encoder_decode ServerFnError_encoding enc]. by rewrite (proj1 (decode_encode _ _ Hs' He)).
Qed.

Lemma ser_body_utf8 e : sendable e → utf8 (parts_body (ser e)) = true.
Proof. intros Hs. destruct (ser_body e Hs) as (e' & He & Hs' & _). by apply (decode_encode e'). Qed.


Section in_url.
Context {AbsoluteUrl ParseError : Type}.
Variable url_parse : str → AbsoluteUrl + ParseError.
Variable unicode_origin : AbsoluteUrl → str.
Variable abs_path : AbsoluteUrl → str.
Variable abs_query : AbsoluteUrl → option str.
Variable query_pairs : AbsoluteUrl → list (str * str).
Variable append_pair : AbsoluteUrl → str → str → AbsoluteUrl.
Variable clear_pairs : AbsoluteUrl → AbsoluteUrl.
Variable url_to_string : AbsoluteUrl → str.
Variable url_safe_encode : str → str.
Variable url_safe_decode : str → str + str.

Lemma append_pairs_spec u l :
  (∀ u k v, query_pairs (append_pair u k v) = query_pairs u ++ [(k, v)]) →
  query_pairs (foldl (λ u kv, append_pair u kv.1 kv.2) u l) = query_pairs u ++ l.
Proof.
  intros Ha. revert u. induction l as [|[k v] l IH]; intros u; cbn; [by rewrite app_nil_r|].
  by rewrite IH, Ha, <-app_assoc.
Qed.

(** Without JavaScript the server puts an error into the query of the URL
    to go back to, and the router finds it there: also when the URL has pairs
    of its own, even for an older error, [provide_server_action_error] yields
    the path and the text from which [decode_err] makes the error that was
    sent.  [strip_error_info] keeps exactly the other pairs, in order. *)
Theorem error_survives_redirect base u path (e : ServerFnError E) :
  (∀ u k v, query_pairs (append_pair u k v) = query_pairs u ++ [(k, v)]) →
  (∀ u, query_pairs (clear_pairs u) = []) →
  (∀ s, url_safe_decode (url_safe_encode s) = inl s) →
  url_parse base = inl u → sendable e →
  (∃ url err, to_url url_parse append_pair url_safe_encode (mkUrlError path e) base = inl url ∧
    server_action_error (from_absolute unicode_origin abs_path abs_query query_pairs url) =
      Some (path, err) ∧
    decode_err url_safe_decode err = arrives e) ∧
  ∃ url, strip_error_info url_parse query_pairs append_pair clear_pairs url_to_string base =
           url_to_string url ∧
    query_pairs url = List.filter keeps_pair (query_pairs u).
Proof.
  intros Ha Hc Hb Hu Hs. split.
  - eexists _, (url_safe_encode (parts_body (ser e))). unfold to_url. rewrite Hu. cbn [ue_path ue_error].
    split_and!; [done| |].
    + unfold server_action_error, from_absolute. cbn [url_search_params].
      rewrite !Ha. rewrite !foldl_app. cbn [foldl fst snd].
      set (m := foldl _ _ (query_pairs u)).
      assert (params_wf m) as Hm by (by apply collect_decoded_spec).
      destruct (insert_decoded_spec m (lit "__path") path Hm) as [H1 C1].
      destruct (insert_decoded_spec _ (lit "__err") (url_safe_encode (parts_body (ser e))) H1) as [H2 C2].
      rewrite !get_str_contents, C2, C1 by done. unfold push_value.
      rewrite lookup_insert_eq. cbn. rewrite last_snoc.
      rewrite lookup_insert_ne, lookup_insert_eq by done. cbn. by rewrite last_snoc.
    + unfold decode_err. rewrite Hb. by apply de_ser.
  - eexists. unfold strip_error_info. rewrite Hu. split; [done|]. by rewrite append_pairs_spec, Hc.
Qed.
End in_url.
End codec.

(** ** Witnesses *)

(** A custom error that is a number below three *)
Definition sample_display (n : nat) : option str :=
  match n with 0 => Some (lit "zero") | 1 => Some (lit "one|uno") | _ => None end.
Definition sample_from_str (s : str) : option nat :=
  if decide (s = lit "zero") then Some 0 else if decide (s = lit "one|uno") then Some 1 else None.


(** A URL is its list of pairs. *)
Definition sample_url_parse (s : str) : list (str * str) + unit :=
  inl [(lit "q", s); (lit "__err", lit "old")].
Definition sample_to_string (u : list (str * str)) : str := concat (map fst u).

Lemma error_survives_redirect_witness :
  let enc := ServerFnError_encoding sample_display sample_from_str id id in
  (∃ url err, @to_url _ _ sample_url_parse (λ u k v, u ++ [(k, v)]) id _ enc
       (mkUrlError (lit "/add") (ServerError (lit "no"))) (lit "x") = inl url ∧
    server_action_error (from_absolute (λ _, []) (λ _, []) (λ _, None) id url) = Some (lit "/add", err) ∧
    @decode_err inl _ enc err = ServerError (lit "no")) ∧
  ∃ url, strip_error_info sample_url_parse id (λ u k v, u ++ [(k, v)]) (λ _, []) sample_to_string
           (lit "x") = sample_to_string url ∧ url = [(lit "q", lit "x")].
Proof.
  intros enc.
  apply (error_survives_redirect sample_display sample_from_str id id sample_url_parse
    (λ _, []) (λ _, []) (λ _, None) id (λ u k v, u ++ [(k, v)]) (λ _, []) sample_to_string id inl
    (lit "x") [(lit "q", lit "x"); (lit "__err", lit "old")] (lit "/add") (ServerError (lit "no")));
    [reflexivity|reflexivity|reflexivity|reflexivity|].
  intros s [= <-]. reflexivity.
Defined.
