(* ===== verification/KeyedDiff.v ===== *)
(** * Keyed lists

    Models [tachys/src/view/keyed.rs]: the difference of two ordered sets of
    keys and its application to the rows of a list and to the DOM.  A row is
    rendered as one DOM node, a [nat]; [k_dom] are the children of the list's
    parent element that stand before its marker. *)

From Stdlib Require Import ZArith.
From stdpp Require Import base list.
From S2P Require Import Prelude IndexSets.

Inductive DiffOpAddMode := Normal | Append.
Record DiffOpAdd := mkAdd { add_at : nat; add_mode : DiffOpAddMode }.
Record DiffOpMove := mkMove {
  move_from : nat;
  move_len : nat;
  move_to : nat;
  move_in_dom : bool;
}.

Record Diff := mkDiff {
  d_removed : list nat;
  d_moved : list DiffOpMove;
  d_items_to_move : nat;
  d_added : list DiffOpAdd;
  d_clear : bool;
}.
Definition Diff_default : Diff := mkDiff [] [] 0 [] false.

(** [n as i32] *)
Definition as_i32 (n : nat) : Z := ((Z.of_nat n + 2 ^ 31) mod 2 ^ 32 - 2 ^ 31)%Z.

(** [group_adjacent_moves]: [prev] is the range that may still grow. *)
Fixpoint group_loop (prev : option DiffOpMove) (new_moved moved : list DiffOpMove) :
    list DiffOpMove :=
  match moved with
  | [] => match prev with Some p => new_moved ++ [p] | None => new_moved end
  | m :: moved =>
      match prev with
      | Some p =>
          if (move_from m =? move_from p + move_len p) && (move_to m =? move_to p + move_len p)
             && Bool.eqb (move_in_dom m) (move_in_dom p)
          then group_loop
                 (Some (mkMove (move_from p) (move_len p + 1) (move_to p) (move_in_dom p)))
                 new_moved moved
          else group_loop (Some m) (new_moved ++ [p]) moved
      | None => group_loop (Some m) new_moved moved
      end
  end.
Definition group_adjacent_moves (moved : list DiffOpMove) : list DiffOpMove :=
  group_loop None [] moved.

Section diff.
Context {K iset : Type} `{EqDecision K, IndexSet K iset}.

(** One index of the loop of [diff]. *)
Definition diff_step (from to : iset) (index : nat)
    (acc : list nat * list DiffOpMove * list DiffOpAdd) :
    list nat * list DiffOpMove * list DiffOpAdd :=
  let '(removed, moved, added) := acc in
  let from_item := iset_get_index from index in
  let to_item := iset_get_index to index in
  if decide (from_item = to_item) then acc
  else
    let removed :=
      match from_item with
      | Some k => if iset_contains to k then removed else removed ++ [index]
      | None => removed
      end in
    let added :=
      match to_item with
      | Some k => if iset_contains from k then added else added ++ [mkAdd index Normal]
      | None => added
      end in
    let moved :=
      match from_item with
      | Some k =>
          match iset_get_full to k with
          | Some to_item =>
              let moves_forward_by := (as_i32 to_item - as_i32 index)%Z in
              let move_in_dom :=
                bool_decide (moves_forward_by ≠
                  (as_i32 (length added) - as_i32 (length removed))%Z) in
              moved ++ [mkMove index 1 to_item move_in_dom]
          | None => moved
          end
      | None => moved
      end in
    (removed, moved, added).

Definition diff (from to : iset) : Diff :=
  if (iset_len from =? 0) && (iset_len to =? 0) then Diff_default
  else if iset_len to =? 0 then mkDiff [] [] 0 [] true
  else if iset_len from =? 0 then
    mkDiff [] [] 0 (map (λ at_, mkAdd at_ Append) (seq 0 (iset_len to))) false
  else
    let max_len := Nat.max (iset_len from) (iset_len to) in
    let '(removed, moved, added) :=
      fold_left (λ acc index, diff_step from to index acc) (seq 0 max_len) ([], [], []) in
    let moved := group_adjacent_moves moved in
    mkDiff removed moved (sum_list_with move_len moved) added false.
End diff.

(** [unpack_moves]: [i] counts up while there are iterations left. *)
Definition single_move (m : DiffOpMove) : DiffOpMove :=
  mkMove (move_from m) 1 (move_to m) (move_in_dom m).
(** The rest of a range whose first move has been taken, and the ranges after it. *)
Definition rest_moves (m : DiffOpMove) (ms : list DiffOpMove) : list DiffOpMove :=
  if move_len m - 1 =? 0 then ms
  else mkMove (move_from m + 1) (move_len m - 1) (move_to m + 1) (move_in_dom m) :: ms.

Fixpoint unpack_loop (iterations i : nat) (removes : list nat) (moved : list DiffOpMove)
    (added : list DiffOpAdd) (moves : list DiffOpMove) (adds : list DiffOpAdd) :
    list DiffOpMove * list DiffOpAdd :=
  match iterations with
  | 0 => (moves, adds)
  | S iterations =>
      if match removes with at_ :: _ => i =? at_ | [] => false end then
        unpack_loop iterations (S i) (tail removes) moved added moves adds
      else
        match added, moved with
        | add :: added', move_ :: moved' =>
            if add_at add =? i then
              unpack_loop iterations (S i) removes moved added' moves (adds ++ [add])
            else
              unpack_loop iterations (S i) removes (rest_moves move_ moved') added
                (moves ++ [single_move move_]) adds
        | add :: added', [] =>
            unpack_loop iterations (S i) removes [] added' moves (adds ++ [add])
        | [], move_ :: moved' =>
            unpack_loop iterations (S i) removes (rest_moves move_ moved') []
              (moves ++ [single_move move_]) adds
        | [], [] => (moves, adds)
        end
  end.
Definition unpack_moves (d : Diff) : list DiffOpMove * list DiffOpAdd :=
  unpack_loop (d_items_to_move d + length (d_added d) + length (d_removed d)) 0
    (d_removed d) (d_moved d) (d_added d) [] [].

(** ** Applying a difference *)

Section apply.
Context {T : Type}.

(** A rendered row: its item, its DOM node and the last index it was told. *)
Record row := mkRow { row_item : T; row_node : nat; row_index : nat }.

(** The rows, the DOM, the next fresh node, the rows taken out to be moved and
    the items that are not rendered yet. *)
Record kstate := mkK {
  k_children : list (option row);
  k_dom : list nat;
  k_next : nat;
  k_moved : list (option row);
  k_items : list (option T);
}.

Abbreviation M := (stateM kstate).

Definition with_dom (f : list nat → list nat) : M unit :=
  modify (λ s, mkK (k_children s) (f (k_dom s)) (k_next s) (k_moved s) (k_items s)).
Definition with_kchildren (f : list (option row) → list (option row)) : M unit :=
  modify (λ s, mkK (f (k_children s)) (k_dom s) (k_next s) (k_moved s) (k_items s)).
Definition with_moved (f : list (option row) → list (option row)) : M unit :=
  modify (λ s, mkK (k_children s) (k_dom s) (k_next s) (f (k_moved s)) (k_items s)).
Definition with_items (f : list (option T) → list (option T)) : M unit :=
  modify (λ s, mkK (k_children s) (k_dom s) (k_next s) (k_moved s) (f (k_items s))).

(** [v[i].take()] of a vector of options, which panics out of range *)
Definition take_child (i : nat) : M (option row) :=
  c ← gets (λ s, k_children s !! i);
  match c with
  | Some c => _ ← with_kchildren (<[i := None]>); mret c
  | None => panics
  end.
Definition take_moved (i : nat) : M (option row) :=
  c ← gets (λ s, k_moved s !! i);
  match c with
  | Some c => _ ← with_moved (<[i := None]>); mret c
  | None => panics
  end.
Definition take_item (i : nat) : M (option T) :=
  c ← gets (λ s, k_items s !! i);
  match c with
  | Some c => _ ← with_items (<[i := None]>); mret c
  | None => panics
  end.
(** [children[i] = c] *)
Definition set_child (i : nat) (c : option row) : M unit :=
  len ← gets (λ s, length (k_children s));
  if i <? len then with_kchildren (<[i := c]>) else panics.

(** [Mountable::unmount] and [mount]: inserting a node that is in the document
    moves it.  A sibling that is not mounted leaves the marker. *)
Definition dom_remove (n : nat) (dom : list nat) : list nat := filter (λ m, m ≠ n) dom.
Definition dom_append (n : nat) (dom : list nat) : list nat := dom_remove n dom ++ [n].
Fixpoint insert_at (sibling n : nat) (dom : list nat) : list nat :=
  match dom with
  | [] => [n]
  | m :: dom => if decide (m = sibling) then n :: m :: dom else m :: insert_at sibling n dom
  end.
Definition dom_insert_before (sibling n : nat) (dom : list nat) : list nat :=
  insert_at sibling n (dom_remove n dom).

(** [get_next_closest_mounted_sibling] *)
Definition next_sibling (start_at : nat) : M (option row) :=
  len ← gets (λ s, length (k_children s));
  if start_at <=? len then
    gets (λ s, match list_find is_Some (drop start_at (k_children s)) with
               | Some (_, c) => c
               | None => None
               end)
  else panics.

(** Mounting a row before the next one that is there, or at the marker. *)
Definition insert_node (parent : bool) (mode : DiffOpAddMode) (start_at n : nat) : M unit :=
  if parent then
    match mode with
    | Normal =>
        sibling ← next_sibling start_at;
        with_dom (match sibling with
                  | Some r => dom_insert_before (row_node r) n
                  | None => dom_append n
                  end)
    | Append => with_dom (dom_append n)
    end
  else mret tt.

Definition set_index (i : nat) (r : row) : row := mkRow (row_item r) (row_node r) i.

(** The five loops of [apply_diff]. *)
Definition apply_remove (at_ : nat) : M unit :=
  c ← take_child at_;
  match c with
  | Some r => with_dom (dom_remove (row_node r))
  | None => panics
  end.
Definition apply_take (m : DiffOpMove) : M unit :=
  c ← take_child (move_from m); with_moved (λ l, l ++ [c]).
Definition apply_quiet (im : nat * DiffOpMove) : M unit :=
  if move_in_dom im.2 then mret tt
  else
    c ← take_moved im.1;
    set_child (move_to im.2) (set_index (move_to im.2) <$> c).
Definition apply_move (parent : bool) (im : nat * DiffOpMove) : M unit :=
  if move_in_dom im.2 then
    c ← take_moved im.1;
    match c with
    | None => panics
    | Some r =>
        _ ← insert_node parent Normal (move_to im.2) (row_node r);
        set_child (move_to im.2) (Some (set_index (move_to im.2) r))
    end
  else mret tt.
(** [view_fn(at, item)], built as a new node *)
Definition apply_add (parent : bool) (a : DiffOpAdd) : M unit :=
  item ← take_item (add_at a);
  match item with
  | None => panics
  | Some item =>
      n ← gets k_next;
      _ ← modify (λ s, mkK (k_children s) (k_dom s) (S n) (k_moved s) (k_items s));
      _ ← insert_node parent (add_mode a) (add_at a) n;
      set_child (add_at a) (Some (mkRow item n (add_at a)))
  end.

Definition unmount_all : M unit :=
  modify (λ s, mkK [] (filter (λ n, n ∉ omap (fmap row_node) (k_children s)) (k_dom s))
                 (k_next s) (k_moved s) (k_items s)).

Definition enumerate {A} (l : list A) : list (nat * A) := zip (seq 0 (length l)) l.

(** [apply_diff] *)
Definition apply_diff (parent : bool) (d : Diff) : M unit :=
  _ ← (if d_clear d then unmount_all else mret tt);
  if d_clear d && (length (d_added d) =? 0) then mret tt
  else
    _ ← for_each apply_remove (d_removed d);
    let '(move_cmds, add_cmds) := unpack_moves d in
    _ ← for_each apply_take move_cmds;
    _ ← with_kchildren (λ c, c ++ replicate (length (d_added d)) None);
    _ ← for_each apply_quiet (enumerate move_cmds);
    _ ← for_each (apply_move parent) (enumerate move_cmds);
    _ ← for_each (apply_add parent) add_cmds;
    with_kchildren (filter is_Some).

Context {K iset : Type} `{EqDecision K, IndexSet K iset}.

(** [KeyedState]; the marker stands after the rows. *)
Record KeyedState := mkKeyed {
  ks_mounted : bool;
  ks_hashed_items : iset;
  ks_rendered_items : list (option row);
  ks_dom : list nat;
  ks_next : nat;
}.

Definition hash_items (key_fn : T → K) (items : list T) : iset :=
  fold_left (λ s item, iset_insert (key_fn item) s) items (iset_with_capacity (length items)).

(** [Keyed::build] *)
Definition build (key_fn : T → K) (items : list T) (next : nat) : KeyedState :=
  mkKeyed false (hash_items key_fn items)
    (map (λ ii, Some (mkRow ii.2 (next + ii.1) ii.1)) (enumerate items))
    [] (next + length items).

(** [Keyed::rebuild] *)
Definition rebuild (key_fn : T → K) (items : list T) (state : KeyedState) : outcome KeyedState :=
  let new_hashed_items := hash_items key_fn items in
  let cmds := diff (ks_hashed_items state) new_hashed_items in
  r ← apply_diff (ks_mounted state) cmds
        (mkK (ks_rendered_items state) (ks_dom state) (ks_next state) [] (map Some items));
  Ok (mkKeyed (ks_mounted state) new_hashed_items (k_children r.2) (k_dom r.2) (k_next r.2)).

(** [Mountable::mount] and [unmount] of the list, at the end of an empty parent *)
Definition mount (state : KeyedState) : KeyedState :=
  mkKeyed true (ks_hashed_items state) (ks_rendered_items state)
    (fold_left (λ dom r, dom_append (row_node r) dom) (omap id (ks_rendered_items state))
       (ks_dom state))
    (ks_next state).
Definition unmount (state : KeyedState) : KeyedState :=
  mkKeyed (ks_mounted state) (ks_hashed_items state) (ks_rendered_items state)
    (filter (λ n, n ∉ omap (fmap row_node) (ks_rendered_items state)) (ks_dom state))
    (ks_next state).
End apply.
Arguments row : clear implicits.
Arguments kstate : clear implicits.
Arguments KeyedState : clear implicits.
