(* ===== verification/KeyedApply.v ===== *)
(** * What the difference of two key sets says

    Grouping moves and unpacking them again is the identity, and the loop of
    [diff] lists exactly the keys that are only in the old set, only in the new
    one, or in both at different places. *)

From stdpp Require Import base list sets.
From S2P Require Import Prelude IndexSets KeyedDiff.

(** ** Ranges of moves *)

Definition expand_move (m : DiffOpMove) : list DiffOpMove :=
  map (λ k, mkMove (move_from m + k) 1 (move_to m + k) (move_in_dom m)) (seq 0 (move_len m)).
Definition expand_moves (ms : list DiffOpMove) : list DiffOpMove := mjoin (map expand_move ms).

Lemma expand_moves_cons m ms : expand_moves (m :: ms) = expand_move m ++ expand_moves ms.
Proof. done. Qed.

Lemma expand_moves_app l1 l2 : expand_moves (l1 ++ l2) = expand_moves l1 ++ expand_moves l2.
Proof.
  induction l1 as [|m l1 IH]; [done|]. simpl app. by rewrite !expand_moves_cons, IH, (assoc app).
Qed.

Lemma expand_single m : move_len m = 1 → expand_move m = [m].
Proof. destruct m as [f l t b]. unfold expand_move. simpl. intros ->. simpl. by rewrite !Nat.add_0_r. Qed.

Lemma expand_singles ms : Forall (λ m, move_len m = 1) ms → expand_moves ms = ms.
Proof.
  induction 1 as [|m ms Hm _ IH]; [done|]. by rewrite expand_moves_cons, expand_single, IH.
Qed.

Lemma expand_grow p m :
  move_from m = move_from p + move_len p → move_to m = move_to p + move_len p →
  move_in_dom m = move_in_dom p → move_len m = 1 →
  expand_move (mkMove (move_from p) (move_len p + 1) (move_to p) (move_in_dom p)) =
    expand_move p ++ [m].
Proof.
  destruct m as [f l t b]. simpl. intros -> -> -> ->.
  unfold expand_move. simpl. by rewrite seq_app, map_app.
Qed.

Lemma group_loop_expand prev new_moved moved :
  Forall (λ m, move_len m = 1) moved →
  expand_moves (group_loop prev new_moved moved) =
    expand_moves new_moved ++ expand_moves (option_list prev) ++ moved.
Proof.
  intros H. revert prev new_moved. induction H as [|m moved Hm Hmoved IH]; intros prev new_moved; simpl.
  { rewrite app_nil_r. destruct prev as [p|]; simpl; [by rewrite expand_moves_app|].
    by rewrite app_nil_r. }
  destruct prev as [p|].
  - destruct (_ && _) eqn:Hc.
    + apply andb_true_iff in Hc as [[Hf%Nat.eqb_eq Ht%Nat.eqb_eq]%andb_true_iff Hd%eqb_prop].
      rewrite IH. f_equal. simpl. rewrite !expand_moves_cons, expand_grow with (m := m) by done.
      by rewrite <-!(assoc app).
    + rewrite IH, expand_moves_app, <-(assoc app). do 2 f_equal.
      simpl. rewrite expand_moves_cons, (expand_single m) by done. done.
  - rewrite IH. f_equal. simpl. by rewrite expand_moves_cons, (expand_single m) by done.
Qed.

Lemma group_expand moved :
  Forall (λ m, move_len m = 1) moved → expand_moves (group_adjacent_moves moved) = moved.
Proof. intros H. unfold group_adjacent_moves. by rewrite group_loop_expand. Qed.

Lemma group_loop_len prev new_moved moved :
  Forall (λ m, 1 ≤ move_len m) (option_list prev ++ new_moved ++ moved) →
  Forall (λ m, 1 ≤ move_len m) (group_loop prev new_moved moved).
Proof.
  revert prev new_moved. induction moved as [|m moved IH]; intros prev new_moved; simpl.
  { rewrite !Forall_app. destruct prev; simpl; [|tauto].
    rewrite Forall_app, Forall_cons. tauto. }
  rewrite !Forall_app, Forall_cons. intros (Hp & Hn & Hm & Hmoved).
  destruct prev as [p|]; [destruct (_ && _)|]; apply IH; simpl in *;
    rewrite ?Forall_cons, ?Forall_app, ?Forall_cons in *; simpl; intuition lia.
Qed.

Lemma length_expand ms : length (expand_moves ms) = sum_list_with move_len ms.
Proof.
  induction ms as [|m ms IH]; [done|]. rewrite expand_moves_cons, length_app, IH. simpl.
  f_equal. unfold expand_move. by rewrite length_map, length_seq.
Qed.

Lemma expand_rest m ms :
  1 ≤ move_len m → expand_moves (m :: ms) = single_move m :: expand_moves (rest_moves m ms).
Proof.
  destruct m as [f l t b]. unfold rest_moves, single_move. simpl. intros Hl.
  destruct l as [|l]; [lia|]. rewrite expand_moves_cons. unfold expand_move. simpl.
  rewrite !Nat.add_0_r, Nat.sub_0_r. f_equal.
  destruct (Nat.eqb_spec l 0) as [->|Hl0]; [done|].
  rewrite expand_moves_cons. f_equal. unfold expand_move. simpl.
  rewrite <-seq_shift, map_map. apply map_ext. intros k. f_equal; lia.
Qed.

Lemma rest_moves_len m ms :
  Forall (λ m, 1 ≤ move_len m) (m :: ms) → Forall (λ m, 1 ≤ move_len m) (rest_moves m ms).
Proof.
  rewrite Forall_cons. intros [Hm Hms]. unfold rest_moves.
  destruct (Nat.eqb_spec (move_len m - 1) 0); [done|]. constructor; [simpl; lia|done].
Qed.

Lemma unpack_loop_ok n i removes moved added moves adds :
  Forall (λ m, 1 ≤ move_len m) moved →
  length removes + length (expand_moves moved) + length added ≤ n →
  unpack_loop n i removes moved added moves adds = (moves ++ expand_moves moved, adds ++ added).
Proof.
  revert i removes moved added moves adds.
  induction n as [|n IH]; intros i removes moved added moves adds Hm Hn.
  { simpl. destruct added; [|simpl in Hn; lia].
    destruct moved as [|m moved]; [by rewrite !app_nil_r|].
    inversion Hm; subst. rewrite expand_rest in Hn by done. simpl in Hn. lia. }
  cbn [unpack_loop]. destruct (match removes with at_ :: _ => i =? at_ | [] => false end) eqn:Hr.
  { destruct removes as [|r removes]; [done|]. apply IH; [done|]. simpl in Hn. simpl. lia. }
  assert (∀ m ms, moved = m :: ms →
    unpack_loop n (S i) removes (rest_moves m ms) added (moves ++ [single_move m]) adds =
    (moves ++ expand_moves moved, adds ++ added)) as Hmove.
  { intros m ms ->. pose proof Hm as [Hm1 _]%Forall_cons.
    rewrite expand_rest in Hn |- * by done. rewrite IH.
    - by rewrite <-(assoc app).
    - by apply rest_moves_len.
    - simpl in Hn. lia. }
  destruct added as [|a added], moved as [|m moved].
  - by rewrite !app_nil_r.
  - by apply Hmove.
  - rewrite IH; [by rewrite <-(assoc app)|done|]. simpl in Hn. simpl. lia.
  - destruct (add_at a =? i); [|by apply Hmove].
    rewrite IH; [by rewrite <-(assoc app)|done|]. simpl in Hn. lia.
Qed.

(** ** The loop of [diff] *)

Section diff.
Context {K iset : Type} `{EqDecision K, IndexSet K iset, !IndexSetLaws K iset}.
Implicit Types from to : iset.

Definition removed_at from to (i : nat) : option nat :=
  match iset_elems from !! i with
  | Some k => if decide (k ∈ iset_elems to) then None else Some i
  | None => None
  end.
Definition added_at from to (i : nat) : option DiffOpAdd :=
  match iset_elems to !! i with
  | Some k => if decide (k ∈ iset_elems from) then None else Some (mkAdd i Normal)
  | None => None
  end.
Definition moved_at from to (i : nat) : option (nat * nat) :=
  match iset_elems from !! i with
  | Some k => match iset_get_full to k with
              | Some j => if decide (i = j) then None else Some (i, j)
              | None => None
              end
  | None => None
  end.
Definition move_ends (m : DiffOpMove) : nat * nat := (move_from m, move_to m).

Lemma get_full_spec to k j : iset_get_full to k = Some j ↔ iset_elems to !! j = Some k.
Proof.
  unfold iset_get_full. rewrite fmap_Some. split.
  - intros ([i x] & Hf & ->). apply list_find_Some in Hf as (Hx & -> & _). done.
  - intros Hj. exists (j, k). split; [|done]. apply list_find_Some. split_and!; [done..|].
    intros i x Hi Hlt ->. pose proof (iset_nodup to) as Hnd. rewrite NoDup_alt in Hnd.
    specialize (Hnd i j x Hi Hj). lia.
Qed.

Lemma get_full_none to k : iset_get_full to k = None ↔ k ∉ iset_elems to.
Proof.
  rewrite list_elem_of_lookup. split.
  - intros Hn [j Hj]. apply get_full_spec in Hj. congruence.
  - intros Hn. destruct (iset_get_full to k) as [j|] eqn:Hj; [|done].
    exfalso. apply Hn. exists j. by apply get_full_spec.
Qed.

Lemma push_removed from to i removed :
  match iset_elems from !! i with
  | Some k => if iset_contains to k then removed else removed ++ [i]
  | None => removed
  end = removed ++ option_list (removed_at from to i).
Proof.
  unfold removed_at, iset_contains. destruct (iset_elems from !! i) as [k|]; simpl;
    [|by rewrite app_nil_r].
  case_bool_decide; case_decide; try done; simpl; by rewrite ?app_nil_r.
Qed.

Lemma push_added from to i added :
  match iset_elems to !! i with
  | Some k => if iset_contains from k then added else added ++ [mkAdd i Normal]
  | None => added
  end = added ++ option_list (added_at from to i).
Proof.
  unfold added_at, iset_contains. destruct (iset_elems to !! i) as [k|]; simpl;
    [|by rewrite app_nil_r].
  case_bool_decide; case_decide; try done; simpl; by rewrite ?app_nil_r.
Qed.

Lemma diff_step_ok from to i removed moved added :
  ∃ m, diff_step from to i (removed, moved, added) =
      (removed ++ option_list (removed_at from to i), moved ++ m,
       added ++ option_list (added_at from to i)) ∧
    map move_ends m = option_list (moved_at from to i) ∧ Forall (λ m, move_len m = 1) m.
Proof.
  unfold diff_step, iset_get_index.
  destruct (decide (iset_elems from !! i = iset_elems to !! i)) as [Heq|Hne].
  - exists []. rewrite app_nil_r. unfold removed_at, added_at, moved_at.
    destruct (iset_elems from !! i) as [k|] eqn:Hf; rewrite <-Heq;
      [|rewrite !app_nil_r; by repeat constructor].
    apply list_elem_of_lookup_2 in Hf as Hin. symmetry in Heq.
    apply list_elem_of_lookup_2 in Heq as Hin'. rewrite !decide_True by done.
    rewrite (proj2 (get_full_spec to k i)) by done. rewrite decide_True by done.
    simpl. rewrite !app_nil_r. by repeat constructor.
  - rewrite push_removed, push_added. unfold moved_at.
    destruct (iset_elems from !! i) as [k|] eqn:Hf;
      [|exists []; rewrite app_nil_r; by repeat constructor].
    destruct (iset_get_full to k) as [j|] eqn:Hj;
      [|exists []; rewrite app_nil_r; by repeat constructor].
    pose proof (proj1 (get_full_spec to k j) Hj) as Hto.
    rewrite (decide_False (P := i = j)) by congruence.
    eexists [_]. split; [done|]. by repeat constructor.
Qed.

Local Arguments diff_step : simpl never.
Lemma diff_loop_ok from to l removed moved added :
  ∃ m, fold_left (λ acc i, diff_step from to i acc) l (removed, moved, added) =
    (removed ++ omap (removed_at from to) l, moved ++ m, added ++ omap (added_at from to) l) ∧
    map move_ends m = omap (moved_at from to) l ∧ Forall (λ m, move_len m = 1) m.
Proof.
  revert removed moved added. induction l as [|i l IH]; intros removed moved added; simpl.
  { exists []. rewrite !app_nil_r. by repeat constructor. }
  destruct (diff_step_ok from to i removed moved added) as (m & -> & Hm & Hlen).
  destruct (IH (removed ++ option_list (removed_at from to i)) (moved ++ m)
    (added ++ option_list (added_at from to i))) as (m' & -> & Hm' & Hlen').
  exists (m ++ m'). rewrite <-!(assoc app). split_and!.
  - do 2 f_equal; [|f_equal]; [by destruct (removed_at from to i)|by destruct (added_at from to i)].
  - rewrite map_app, Hm, Hm'. by destruct (moved_at from to i).
  - by apply Forall_app.
Qed.
End diff.

(** * Applying a difference to the rows

    The loops of [apply_diff] as writes to the vector of rows: no loop panics
    on a difference of two key sets, and what it leaves behind. *)

Section writes.
Context {A : Type}.

(** The writes [c[i] = x], in order. *)
Definition write_all (ws : list (nat * A)) (c : list A) : list A :=
  fold_left (λ c w, <[w.1 := w.2]> c) ws c.

Lemma length_write_all ws c : length (write_all ws c) = length c.
Proof.
  revert c. induction ws as [|w ws IH]; intros c; simpl; [done|].
  unfold write_all in IH. by rewrite IH, length_insert.
Qed.

Lemma write_all_other ws c j : j ∉ ws.*1 → write_all ws c !! j = c !! j.
Proof.
  revert c. induction ws as [|w ws IH]; intros c Hj; simpl; [done|].
  apply not_elem_of_cons in Hj as [Hne Hj]. unfold write_all in IH. rewrite IH by done.
  by apply list_lookup_insert_ne.
Qed.

Lemma write_all_in ws c j x :
  NoDup ws.*1 → (j, x) ∈ ws → j < length c → write_all ws c !! j = Some x.
Proof.
  revert c. induction ws as [|w ws IH]; intros c Hnd Hin Hj; [by apply not_elem_of_nil in Hin|].
  simpl in Hnd. apply NoDup_cons in Hnd as [Hw Hnd]. simpl.
  apply elem_of_cons in Hin as [<-|Hin].
  - simpl in Hw |- *. rewrite (write_all_other ws (<[j := x]> c) j Hw : _ = _).
    by apply list_lookup_insert_eq.
  - unfold write_all in IH. apply IH; [done..|]. by rewrite length_insert.
Qed.
End writes.

(** One step of the monad, leaving the vectors alone. *)
Ltac kstep :=
  unfold mbind, stateM_bind, gets, modify, mret, stateM_ret;
  cbn -[lookup insert Nat.ltb Nat.leb].

Section apply.
Context {T : Type}.
Implicit Types s : kstate T.

(** The parts of the state besides the rows and the DOM. *)
Definition same_rest s s' : Prop :=
  k_next s' = k_next s ∧ k_moved s' = k_moved s ∧ k_items s' = k_items s.

(** What the loops do to the document: they put a node somewhere, or leave the
    set of nodes as it is. *)
Definition put (n : nat) (dom dom' : list nat) : Prop :=
  (∀ m, m ∈ dom' ↔ m = n ∨ m ∈ dom) ∧ (NoDup dom → NoDup dom').
Definition same_nodes (dom dom' : list nat) : Prop :=
  (∀ m, m ∈ dom' ↔ m ∈ dom) ∧ (NoDup dom → NoDup dom').

Lemma same_nodes_refl dom : same_nodes dom dom.
Proof. done. Qed.

Lemma same_nodes_trans dom1 dom2 dom3 :
  same_nodes dom1 dom2 → same_nodes dom2 dom3 → same_nodes dom1 dom3.
Proof. intros [H1 N1] [H2 N2]. split; [|by auto]. intros m. by rewrite H2, H1. Qed.

Lemma put_known n dom dom' : n ∈ dom → put n dom dom' → same_nodes dom dom'.
Proof. intros Hn [H1 H2]. split; [|done]. intros m. rewrite H1. split; [by intros [->|]|by right]. Qed.

Lemma elem_dom_remove n dom m : m ∈ dom_remove n dom ↔ m ≠ n ∧ m ∈ dom.
Proof. unfold dom_remove. by rewrite list_elem_of_filter. Qed.

Lemma NoDup_dom_remove n dom : NoDup dom → NoDup (dom_remove n dom).
Proof. apply NoDup_filter. Qed.

Lemma insert_at_perm sibling n dom : insert_at sibling n dom ≡ₚ n :: dom.
Proof.
  induction dom as [|m dom IH]; [done|]. simpl. case_decide; [done|]. rewrite IH. constructor.
Qed.

Lemma put_perm n dom dom' : dom' ≡ₚ n :: dom_remove n dom → put n dom dom'.
Proof.
  intros Hp. split.
  - intros m. rewrite Hp, elem_of_cons, elem_dom_remove. destruct (decide (m = n)); naive_solver.
  - intros Hd. rewrite Hp. constructor; [|by apply NoDup_dom_remove].
    rewrite elem_dom_remove. by intros [? _].
Qed.

Lemma put_append n dom : put n dom (dom_append n dom).
Proof. apply put_perm. unfold dom_append. by rewrite Permutation_app_comm. Qed.

Lemma put_before sibling n dom : put n dom (dom_insert_before sibling n dom).
Proof. apply put_perm, insert_at_perm. Qed.

Lemma removes_ok l s :
  NoDup l → (∀ i, i ∈ l → ∃ r, k_children s !! i = Some (Some r)) →
  ∃ s', for_each apply_remove l s = Ok (tt, s') ∧ same_rest s s' ∧
    k_children s' = write_all (map (λ i, (i, None)) l) (k_children s) ∧
    (∀ n, n ∈ k_dom s' ↔ n ∈ k_dom s ∧
      ∀ i r, i ∈ l → k_children s !! i = Some (Some r) → row_node r ≠ n) ∧
    (NoDup (k_dom s) → NoDup (k_dom s')).
Proof.
  revert s. induction l as [|i l IH]; intros s Hnd Hl.
  { exists s. split_and!; [done..| |done]. intros n. split; [|by intros [? _]]. intros Hn.
    split; [done|]. intros i r Hi. by apply not_elem_of_nil in Hi. }
  apply NoDup_cons in Hnd as [Hi Hnd].
  destruct (Hl i) as [r Hr]; [by left|]. cbn [for_each].
  set (s1 := mkK (<[i := None]> (k_children s)) (dom_remove (row_node r) (k_dom s))
    (k_next s) (k_moved s) (k_items s)).
  assert (∀ j, j ∈ l → k_children s1 !! j = k_children s !! j) as Hne.
  { intros j Hj. simpl. rewrite list_lookup_insert_ne by (by intros ->). done. }
  destruct (IH s1) as (s' & Hs' & Hrest & Hc & Hdom & Hdn); [done| |].
  { intros j Hj. destruct (Hl j) as [r' Hr']; [by right|]. exists r'. by rewrite Hne. }
  exists s'. split_and!; [|done|done| |].
  - erewrite bind_Ok; [exact Hs'|]. unfold apply_remove, take_child. kstep. by rewrite Hr.
  - intros n. rewrite Hdom. simpl k_dom. rewrite elem_dom_remove. split.
    + intros [[Hn Hin] Hall]. split; [done|]. intros j r' [->|Hj]%elem_of_cons Hr'.
      * rewrite Hr in Hr'. injection Hr' as <-. congruence.
      * apply (Hall j r' Hj). by rewrite Hne.
    + intros [Hin Hall]. split_and!; [|done|].
      * intros ->. apply (Hall i r); [by left|done|done].
      * intros j r' Hj Hr'. apply (Hall j r'); [by right|]. by rewrite <-Hne.
  - intros Hd. apply Hdn, NoDup_dom_remove, Hd.
Qed.

Lemma takes_ok l s :
  NoDup (map move_from l) → (∀ m, m ∈ l → ∃ r, k_children s !! move_from m = Some (Some r)) →
  ∃ s', for_each apply_take l s = Ok (tt, s') ∧
    k_next s' = k_next s ∧ k_items s' = k_items s ∧
    k_moved s' = k_moved s ++ map (λ m, mjoin (k_children s !! move_from m)) l ∧
    k_dom s' = k_dom s ∧
    k_children s' = write_all (map (λ m, (move_from m, None)) l) (k_children s).
Proof.
  revert s. induction l as [|m l IH]; intros s Hnd Hl; [exists s; by rewrite app_nil_r|].
  simpl in Hnd. apply NoDup_cons in Hnd as [Hi Hnd].
  destruct (Hl m) as [r Hr]; [by left|]. cbn [for_each].
  assert (∀ m', m' ∈ l → move_from m' ≠ move_from m) as Hne.
  { intros m' Hm' Heq. apply Hi. rewrite <-Heq. by apply list_elem_of_fmap_2. }
  set (s1 := mkK (<[move_from m := None]> (k_children s)) (k_dom s)
    (k_next s) (k_moved s ++ [Some r]) (k_items s)).
  destruct (IH s1) as (s' & Hs' & Hn & Hit & Hmv & Hd & Hc); [done| |].
  { intros m' Hm'. destruct (Hl m') as [r' Hr']; [by right|]. exists r'. simpl.
    rewrite list_lookup_insert_ne by (by apply not_eq_sym, Hne). done. }
  exists s'. split_and!; [|done|done| |done|done].
  - erewrite bind_Ok; [exact Hs'|]. unfold apply_take, take_child. kstep. by rewrite Hr.
  - rewrite Hmv. simpl. rewrite Hr, <-(assoc app). simpl.
    f_equal. apply (f_equal (cons (Some r))). apply map_ext_in. intros m' Hm'%list_elem_of_In.
    by rewrite list_lookup_insert_ne by (by apply not_eq_sym, Hne).
Qed.

Lemma insert_node_ok parent mode at_ n s :
  at_ ≤ length (k_children s) →
  ∃ dom, insert_node parent mode at_ n s =
      Ok (tt, mkK (k_children s) dom (k_next s) (k_moved s) (k_items s)) ∧
    if parent then put n (k_dom s) dom else dom = k_dom s.
Proof.
  intros Hat. destruct s as [c d nx mv it]. unfold insert_node. destruct parent; [|by exists d].
  destruct mode; [|eexists; split; [done|apply put_append]]. unfold next_sibling. kstep.
  rewrite (proj2 (Nat.leb_le _ _)) by done. eexists. split; [done|].
  destruct (list_find _ _) as [[? [r|]]|]; [apply put_before|apply put_append..].
Qed.

(** What both loops over the moved rows do with the moves they select. *)
Definition places (parent : bool) (sel : DiffOpMove → bool) (f : nat * DiffOpMove → stateM (kstate T) unit) : Prop :=
  ∀ i m s,
    (sel m = false → f (i, m) s = Ok (tt, s)) ∧
    (∀ r, sel m = true → k_moved s !! i = Some (Some r) → move_to m < length (k_children s) →
      ∃ dom, f (i, m) s =
        Ok (tt, mkK (<[move_to m := Some (set_index (move_to m) r)]> (k_children s)) dom
                  (k_next s) (<[i := None]> (k_moved s)) (k_items s)) ∧
        ((parent = true → row_node r ∈ k_dom s) → same_nodes (k_dom s) dom)).

Lemma quiet_places parent : places parent (λ m, negb (move_in_dom m)) apply_quiet.
Proof.
  intros i m s. unfold apply_quiet. simpl. split.
  - intros Hm%negb_false_iff. by rewrite Hm.
  - intros r Hm%negb_true_iff Hr Hto. rewrite Hm. unfold take_moved, set_child. kstep.
    rewrite Hr. kstep. rewrite (proj2 (Nat.ltb_lt _ _)) by done. by eexists.
Qed.

Lemma move_places parent : places parent move_in_dom (apply_move parent).
Proof.
  intros i m s. unfold apply_move. simpl. split; [by intros ->|].
  intros r -> Hr Hto. unfold take_moved. kstep. rewrite Hr. kstep.
  set (s1 := mkK (k_children s) (k_dom s) (k_next s) (<[i := None]> (k_moved s)) (k_items s)).
  destruct (insert_node_ok parent Normal (move_to m) (row_node r) s1) as (dom & Hd & Hput);
    [simpl; lia|].
  rewrite Hd. kstep. unfold set_child. kstep.
  rewrite (proj2 (Nat.ltb_lt _ _)) by done. eexists. split; [done|].
  intros Hin. destruct parent; [by eapply put_known, Hput; auto|by rewrite Hput].
Qed.

(** The writes of such a loop, given the rows that were taken out. *)
Definition placed (sel : DiffOpMove → bool) (moved : list (option (row T)))
    (l : list (nat * DiffOpMove)) : list (nat * option (row T)) :=
  omap (λ im, if sel im.2
              then Some (move_to im.2, set_index (move_to im.2) <$> mjoin (moved !! im.1))
              else None) l.

Lemma placed_cons sel moved i m l :
  placed sel moved ((i, m) :: l) =
    (if sel m then [(move_to m, set_index (move_to m) <$> mjoin (moved !! i))] else []) ++
    placed sel moved l.
Proof. unfold placed. simpl. by destruct (sel m). Qed.

Lemma placed_ext sel moved moved' l :
  (∀ i m, (i, m) ∈ l → sel m = true → moved' !! i = moved !! i) →
  placed sel moved' l = placed sel moved l.
Proof.
  induction l as [|[i m] l IH]; intros Hl; [done|]. rewrite !placed_cons.
  rewrite IH by (intros i' m' ?; apply (Hl i' m'); by right).
  destruct (sel m) eqn:Hm; [|done]. by rewrite (Hl i m) by (done || by left).
Qed.

Lemma places_ok parent sel f l s :
  places parent sel f → NoDup l.*1 →
  (∀ i m, (i, m) ∈ l → sel m = true →
    (∃ r, k_moved s !! i = Some (Some r)) ∧ move_to m < length (k_children s)) →
  ∃ s', for_each f l s = Ok (tt, s') ∧ k_next s' = k_next s ∧ k_items s' = k_items s ∧
    (∀ i, (∀ m, (i, m) ∈ l → sel m = false) → k_moved s' !! i = k_moved s !! i) ∧
    ((parent = true → ∀ i m r, (i, m) ∈ l → sel m = true → k_moved s !! i = Some (Some r) →
        row_node r ∈ k_dom s) →
      same_nodes (k_dom s) (k_dom s')) ∧
    k_children s' = write_all (placed sel (k_moved s) l) (k_children s).
Proof.
  intros Hf. revert s. induction l as [|[i m] l IH]; intros s Hnd Hl.
  { by exists s. }
  simpl in Hnd. apply NoDup_cons in Hnd as [Hi Hnd]. cbn [for_each].
  assert (∀ i' m', (i', m') ∈ l → i' ≠ i) as Hne.
  { intros i' m' Hin ->. apply Hi. apply list_elem_of_fmap. by exists (i, m'). }
  destruct (Hf i m s) as [Hskip Hplace]. destruct (sel m) eqn:Hsel.
  - destruct (Hl i m) as [[r Hr] Hto]; [by left|done|].
    destruct (Hplace r eq_refl Hr Hto) as (dom & Heq & Hsame).
    destruct (IH (mkK (<[move_to m := Some (set_index (move_to m) r)]> (k_children s)) dom
      (k_next s) (<[i := None]> (k_moved s)) (k_items s)))
      as (s' & Hs' & Hn & Hit & Hmv & Hdom & Hc); [done| |].
    { intros i' m' Hin Hsel'. destruct (Hl i' m') as [[r' Hr'] Hto']; [by right|done|].
      simpl. rewrite length_insert. split; [|done]. exists r'.
      rewrite list_lookup_insert_ne; [done|]. by apply not_eq_sym, (Hne i' m'). }
    exists s'. split_and!; [by erewrite bind_Ok|done|done| | |].
    + intros i' Hi'. rewrite Hmv by (intros m' Hin; apply Hi'; by right). simpl.
      rewrite list_lookup_insert_ne; [done|]. intros <-.
      rewrite Hi' in Hsel; [done|by left].
    + intros Hin. assert (same_nodes (k_dom s) dom) as Hd.
      { apply Hsame. intros Hp. by eapply (Hin Hp i m r); [left|..]. }
      eapply same_nodes_trans; [exact Hd|]. apply Hdom. intros Hp i' m' r' Hi' Hsel' Hr'. simpl in Hr' |- *.
      apply Hd. apply (Hin Hp i' m' r'); [by right|done|].
      by rewrite list_lookup_insert_ne in Hr' by (by apply not_eq_sym, (Hne i' m')).
    + rewrite Hc, placed_cons, Hsel, Hr. simpl.
      apply (f_equal (λ ws, write_all ws _)).
      apply placed_ext. intros i' m' Hin _. simpl.
      rewrite list_lookup_insert_ne; [done|]. by apply not_eq_sym, (Hne i' m').
  - destruct (IH s) as (s' & Hs' & Hn & Hit & Hmv & Hdom & Hc); [done| |].
    { intros i' m' Hin. apply Hl. by right. }
    exists s'. split_and!; [by erewrite bind_Ok by (by apply Hskip)|done|done| | |].
    + intros i' Hi'. apply Hmv. intros m' Hin. apply Hi'. by right.
    + intros Hin. apply Hdom. intros Hp i' m' r' Hi'. apply (Hin Hp i' m' r'). by right.
    + by rewrite Hc, placed_cons, Hsel.
Qed.

(** The rows that are written for new items have the nodes from [lo] on. *)
Definition fresh_rows (lo hi : nat) (ws : list (nat * option (row T))) : Prop :=
  hi = lo + length ws ∧ map (λ w, row_node <$> w.2) ws = map Some (seq lo (length ws)).

Lemma fresh_rows_cons lo hi i r ws :
  row_node r = lo → fresh_rows (S lo) hi ws → fresh_rows lo hi ((i, Some r) :: ws).
Proof. intros Hr [-> Hws]. split; simpl; [lia|]. by rewrite Hws, Hr. Qed.

Lemma adds_ok parent l s :
  NoDup (map add_at l) →
  (∀ a, a ∈ l → (∃ item, k_items s !! add_at a = Some (Some item)) ∧
    add_at a < length (k_children s)) →
  ∃ s' ws, for_each (apply_add parent) l s = Ok (tt, s') ∧
    k_children s' = write_all ws (k_children s) ∧ ws.*1 = map add_at l ∧
    fresh_rows (k_next s) (k_next s') ws ∧
    (∀ j x, (j, x) ∈ ws → ∃ item n, k_items s !! j = Some (Some item) ∧ x = Some (mkRow item n j)) ∧
    (∀ n, n ∈ k_dom s' ↔ n ∈ k_dom s ∨ (parent = true ∧ k_next s ≤ n < k_next s')) ∧
    (NoDup (k_dom s) → NoDup (k_dom s')).
Proof.
  revert s. induction l as [|a l IH]; intros s Hnd Hl.
  { exists s, []. split_and!; [done..| | | |done].
    - split; [simpl; lia|done].
    - intros j x Hin. by apply not_elem_of_nil in Hin.
    - intros n. split; [by left|]. intros [|[_ ?]]; [done|lia]. }
  simpl in Hnd. apply NoDup_cons in Hnd as [Ha Hnd]. cbn [for_each].
  destruct (Hl a) as [[item Hitem] Hat]; [by left|].
  set (s0 := mkK (k_children s) (k_dom s) (S (k_next s)) (k_moved s)
    (<[add_at a := None]> (k_items s))).
  destruct (insert_node_ok parent (add_mode a) (add_at a) (k_next s) s0) as (dom & Hd & Hput);
    [simpl; lia|].
  set (x := mkRow item (k_next s) (add_at a)).
  set (s1 := mkK (<[add_at a := Some x]> (k_children s)) dom (S (k_next s)) (k_moved s)
    (<[add_at a := None]> (k_items s))).
  assert (apply_add parent a s = Ok (tt, s1)) as Hstep.
  { unfold apply_add, take_item. kstep. rewrite Hitem. kstep. fold s0. rewrite Hd. kstep.
    unfold set_child. kstep. rewrite (proj2 (Nat.ltb_lt _ _)) by done. done. }
  assert (∀ a', a' ∈ l → add_at a' ≠ add_at a) as Hne.
  { intros a' Hin Heq. apply Ha. rewrite <-Heq. by apply list_elem_of_fmap_2. }
  destruct (IH s1) as (s' & ws & Hs' & Hc & Hfst & Hfr & Hws & Hdom & Hdn); [done| |].
  { intros a' Hin. destruct (Hl a') as [[item' Hit'] Hat']; [by right|]. simpl.
    rewrite length_insert. split; [|done]. exists item'.
    rewrite list_lookup_insert_ne; [done|]. by apply not_eq_sym, Hne. }
  simpl in Hfr, Hdom. exists s', ((add_at a, Some x) :: ws). split_and!.
  - by erewrite bind_Ok.
  - done.
  - exact (f_equal (cons (add_at a)) Hfst).
  - by apply fresh_rows_cons.
  - intros j y [[= -> ->]|Hin]%elem_of_cons; [by exists item, (k_next s)|].
    destruct (Hws j y Hin) as (item' & n & Hit' & ->). exists item', n. split; [|done].
    simpl in Hit'. destruct (decide (j = add_at a)) as [->|Hj].
    + rewrite list_lookup_insert_eq in Hit'; [done|]. by apply lookup_lt_Some in Hitem.
    + by rewrite list_lookup_insert_ne in Hit'.
  - intros n. rewrite Hdom. destruct Hfr as [Hhi _]. destruct parent; simpl in Hput.
    + rewrite (proj1 Hput n). simpl. destruct (decide (n = k_next s)); [naive_solver lia|].
      split; [intros [[|]|[? ?]]|intros [|[? ?]]]; try tauto; right; split; try done; lia.
    + rewrite Hput. simpl. naive_solver.
  - intros Hn. apply Hdn. simpl. destruct parent; [by apply Hput|by rewrite Hput].
Qed.
End apply.

(** ** What a difference lists *)

Lemma NoDup_omap_inj {A B} (f : A → option B) (l : list A) :
  NoDup l → (∀ x y z, f x = Some z → f y = Some z → x = y) → NoDup (omap f l).
Proof.
  intros Hl Hf. induction Hl as [|x l Hx _ IH]; simpl; [constructor|].
  destruct (f x) as [z|] eqn:Hz; [|done]. constructor; [|done].
  intros (y & Hy & Hyz)%list_elem_of_omap. by rewrite (Hf x y z Hz Hyz) in Hx.
Qed.

Lemma map_omap {A B C} (g : B → C) (f : A → option B) l :
  map g (omap f l) = omap (λ x, g <$> f x) l.
Proof.
  induction l as [|x l IH]; simpl; [done|].
  destruct (f x); simpl; [exact (f_equal (cons _) IH)|exact IH].
Qed.

Section lists.
Context {K iset : Type} `{EqDecision K, IndexSet K iset, !IndexSetLaws K iset}.
Implicit Types from to : iset.

(** The removed, moved and added indices of a difference. *)
Record lists_diff from to (removed : list nat) (moves : list DiffOpMove)
    (added : list DiffOpAdd) : Prop := {
  ld_removed i : i ∈ removed ↔ ∃ k, iset_elems from !! i = Some k ∧ k ∉ iset_elems to;
  ld_moves i j : (i, j) ∈ map move_ends moves ↔
    ∃ k, iset_elems from !! i = Some k ∧ iset_elems to !! j = Some k ∧ i ≠ j;
  ld_added j : j ∈ map add_at added ↔
    ∃ k, iset_elems to !! j = Some k ∧ k ∉ iset_elems from;
  ld_removed_nodup : NoDup removed;
  ld_from_nodup : NoDup (map move_from moves);
  ld_to_nodup : NoDup (map move_to moves);
  ld_added_nodup : NoDup (map add_at added);
}.

Lemma iset_index_inj (s : iset) i j k :
  iset_elems s !! i = Some k → iset_elems s !! j = Some k → i = j.
Proof. intros Hi Hj. pose proof (iset_nodup s) as H1. rewrite NoDup_alt in H1. eauto. Qed.

Lemma lists_diff_omap from to n moves added :
  iset_len from ≤ n → iset_len to ≤ n →
  map move_ends moves = omap (moved_at from to) (seq 0 n) →
  map add_at added = omap (λ i, add_at <$> added_at from to i) (seq 0 n) →
  lists_diff from to (omap (removed_at from to) (seq 0 n)) moves added.
Proof.
  unfold iset_len. intros Hf Ht Hm Ha.
  assert (∀ (s : iset) i k, iset_elems s !! i = Some k → length (iset_elems s) ≤ n →
    i ∈ seq 0 n) as Hseq.
  { intros s i k Hi%lookup_lt_Some Hle. apply elem_of_seq. lia. }
  assert (∀ i j, moved_at from to i = Some j ↔
    ∃ k, iset_elems from !! i = Some k ∧ iset_elems to !! j.2 = Some k ∧ i ≠ j.2 ∧ j.1 = i) as Hmv.
  { intros i [i' j]. unfold moved_at. simpl. split.
    - destruct (iset_elems from !! i) as [k|]; [|done].
      destruct (iset_get_full to k) as [j'|] eqn:Hj; [|done]. case_decide; [done|].
      intros [= <- <-]. apply get_full_spec in Hj. by exists k.
    - intros (k & Hk & Hj & Hne & ->). rewrite Hk. apply get_full_spec in Hj. rewrite Hj.
      by rewrite decide_False. }
  assert (NoDup (map fst (map move_ends moves)) ∧ NoDup (map snd (map move_ends moves))) as [Hfst Hsnd].
  { rewrite Hm, !map_omap. split; apply NoDup_omap_inj; try apply NoDup_seq;
      intros x y z ([x1 x2] & Hx & ->)%fmap_Some ([y1 y2] & Hy & Heq)%fmap_Some;
      simpl in Heq; subst; apply Hmv in Hx as (k & Hx1 & Hx2 & _ & Hx3);
      apply Hmv in Hy as (k' & Hy1 & Hy2 & _ & Hy3); simpl in *; [congruence|].
    rewrite Hx2 in Hy2. injection Hy2 as <-. by eapply iset_index_inj. }
  rewrite map_map in Hfst. rewrite map_map in Hsnd. simpl in Hfst, Hsnd.
  split; [..|done|done|].
  - intros i. rewrite list_elem_of_omap. unfold removed_at. split.
    + intros (x & _ & Hx). destruct (iset_elems from !! x) as [k|] eqn:Hk; [|done].
      case_decide; [done|]. injection Hx as <-. by exists k.
    + intros (k & Hk & Hn). exists i. split; [by eapply Hseq|]. rewrite Hk. by rewrite decide_False.
  - intros i j. rewrite Hm, list_elem_of_omap. split.
    + intros (x & _ & (k & Hk & Hj & Hne & <-)%Hmv). by exists k.
    + intros (k & Hk & Hj & Hne). exists i. split; [by eapply Hseq|]. apply Hmv. by exists k.
  - intros j. rewrite Ha, list_elem_of_omap. unfold added_at. split.
    + intros (x & _ & Hx). destruct (iset_elems to !! x) as [k|] eqn:Hk; [|done].
      case_decide; [done|]. injection Hx as <-. by exists k.
    + intros (k & Hk & Hn). exists j. split; [by eapply Hseq|]. rewrite Hk. by rewrite decide_False.
  - apply NoDup_omap_inj; [apply NoDup_seq|]. intros x y z. unfold removed_at.
    destruct (iset_elems from !! x), (iset_elems from !! y); try done. repeat case_decide; congruence.
  - rewrite Ha. apply NoDup_omap_inj; [apply NoDup_seq|]. intros x y z. unfold added_at.
    destruct (iset_elems to !! x), (iset_elems to !! y); try done.
    repeat case_decide; simpl; congruence.
Qed.

Lemma diff_lists from to :
  (iset_elems to = [] ∧ diff from to = mkDiff [] [] 0 [] true) ∨
  (d_clear (diff from to) = false ∧
   ∃ moves, unpack_moves (diff from to) = (moves, d_added (diff from to)) ∧
     lists_diff from to (d_removed (diff from to)) moves (d_added (diff from to))).
Proof.
  assert (∀ s : iset, iset_len s = 0 ↔ iset_elems s = []) as Hnil.
  { intros s. unfold iset_len. by rewrite length_zero_iff_nil. }
  unfold diff.
  destruct (Nat.eqb_spec (iset_len from) 0) as [Hf|Hf];
    destruct (Nat.eqb_spec (iset_len to) 0) as [Ht|Ht]; simpl.
  - right. split; [done|]. exists []. split; [done|].
    by apply (lists_diff_omap from to 0); [lia|lia|..].
  - right. split; [done|]. exists []. split.
    { unfold unpack_moves. simpl. apply (unpack_loop_ok _ 0 [] [] _ [] []); [done|simpl; lia]. }
    replace [] with (omap (removed_at from to) (seq 0 (iset_len to))) at 1.
    + apply lists_diff_omap; [lia|done|..].
      * simpl. symmetry. apply Hnil in Hf. clear Ht. generalize 0. induction (iset_len to) as [|n IH];
          intros i; [done|]. simpl. unfold moved_at at 1. rewrite Hf. simpl. apply IH.
      * rewrite map_map. simpl. rewrite map_id. apply Hnil in Hf.
        assert (∀ n i, i + n ≤ iset_len to →
          seq i n = omap (λ i, add_at <$> added_at from to i) (seq i n)) as H1.
        { induction n as [|n IH]; intros i Hi; [done|]. simpl. unfold added_at at 1.
          destruct (lookup_lt_is_Some_2 (iset_elems to) i) as [k ->]; [unfold iset_len in Hi; lia|].
          rewrite Hf, decide_False by apply not_elem_of_nil. simpl. rewrite <-IH by lia. done. }
        by apply H1.
    + apply Hnil in Hf. clear Ht. generalize 0. induction (iset_len to) as [|n IH];
        intros i; [done|]. simpl. unfold removed_at at 1. rewrite Hf. simpl. apply IH.
  - left. by apply Hnil in Ht.
  - right. set (n := Nat.max (iset_len from) (iset_len to)).
    destruct (diff_loop_ok from to (seq 0 n) [] [] []) as (m & -> & Hm & Hlen). simpl.
    split; [done|]. exists m. split.
    + unfold unpack_moves. simpl. rewrite unpack_loop_ok.
      * simpl. by rewrite group_expand.
      * apply group_loop_len. simpl. eapply Forall_impl; [exact Hlen|]. simpl. lia.
      * rewrite length_expand. lia.
    + apply lists_diff_omap; [lia|lia|done|]. by rewrite map_omap.
Qed.
End lists.
