(* ===== verification/KeyedProps.v ===== *)
(** * Properties of keyed lists

    After a rebuild the retained rows are those of the new items, in their
    order, with the rows of keys that stay kept, and the document holds the
    nodes of these rows and no others; the order of the DOM nodes can differ
    from it. *)

From stdpp Require Import base list sets.
From S2P Require Import Prelude IndexSets KeyedDiff KeyedApply.

(** ** The rows after [apply_diff] *)

Lemma placed_in {T} sel (moved : list (option (row T))) l j x :
  (j, x) ∈ placed sel moved l ↔
  ∃ i m, (i, m) ∈ l ∧ sel m = true ∧ j = move_to m ∧
    x = set_index (move_to m) <$> mjoin (moved !! i).
Proof.
  unfold placed. rewrite list_elem_of_omap. split.
  - intros ([i m] & Hin & Hx). simpl in Hx. destruct (sel m) eqn:Hs; [|done].
    injection Hx as <- <-. by exists i, m.
  - intros (i & m & Hin & Hs & -> & ->). exists (i, m). simpl. by rewrite Hs.
Qed.

Lemma placed_sublist {T} sel (moved : list (option (row T))) l :
  (placed sel moved l).*1 `sublist_of` map (λ im, move_to im.2) l.
Proof.
  induction l as [|[i m] l IH]; [constructor|]. rewrite placed_cons.
  destruct (sel m); simpl; by constructor.
Qed.

Lemma enumerate_in {A} (l : list A) i x : (i, x) ∈ enumerate l ↔ l !! i = Some x.
Proof.
  unfold enumerate. rewrite list_elem_of_lookup. split.
  - intros (j & (y & z & [= <- <-] & Hj & Hx)%lookup_zip_with_Some).
    apply lookup_seq in Hj as [-> _]. done.
  - intros Hx. exists i. apply lookup_zip_with_Some. exists i, x.
    split_and!; [done| |done]. apply lookup_seq. split; [done|]. by apply lookup_lt_Some in Hx.
Qed.

Lemma enumerate_fst {A} (l : list A) : (enumerate l).*1 = seq 0 (length l).
Proof. unfold enumerate. apply fst_zip. by rewrite length_seq. Qed.

Lemma enumerate_map {A B} (f : A → B) l : map (λ ix, f ix.2) (enumerate l) = map f l.
Proof.
  unfold enumerate. generalize 0. induction l as [|x l IH]; intros n; [done|].
  simpl. f_equal. apply IH.
Qed.

Section fresh.
Context {T : Type}.
Implicit Types (ws : list (nat * option (row T))) (r : row T).

Lemma fresh_lookup lo hi ws i j r :
  fresh_rows lo hi ws → ws !! i = Some (j, Some r) → row_node r = lo + i ∧ i < length ws.
Proof.
  intros [_ Hws] Hi. pose proof (lookup_lt_Some _ _ _ Hi) as Hlt. split; [|done].
  assert (map (λ w, row_node <$> w.2) ws !! i = Some (Some (row_node r))) as E
    by by rewrite list_lookup_fmap, Hi.
  rewrite Hws, list_lookup_fmap, (proj2 (lookup_seq _ _ _ _) (conj eq_refl Hlt)) in E. by injection E.
Qed.

Lemma fresh_bounds lo hi ws j r : fresh_rows lo hi ws → (j, Some r) ∈ ws → lo ≤ row_node r < hi.
Proof.
  intros Hf [i Hi]%list_elem_of_lookup. destruct (fresh_lookup _ _ _ _ _ _ Hf Hi).
  destruct Hf as [-> _]. lia.
Qed.

Lemma fresh_inj lo hi ws j j' r r' :
  fresh_rows lo hi ws → (j, Some r) ∈ ws → (j', Some r') ∈ ws → row_node r = row_node r' → j = j'.
Proof.
  intros Hf [i Hi]%list_elem_of_lookup [i' Hi']%list_elem_of_lookup Hn.
  destruct (fresh_lookup _ _ _ _ _ _ Hf Hi), (fresh_lookup _ _ _ _ _ _ Hf Hi').
  assert (i = i') as <- by lia. congruence.
Qed.

Lemma fresh_exists lo hi ws n :
  fresh_rows lo hi ws → lo ≤ n < hi → ∃ j r, (j, Some r) ∈ ws ∧ row_node r = n.
Proof.
  intros [-> Hws] Hn. assert (map (λ w, row_node <$> w.2) ws !! (n - lo) = Some (Some n)) as E.
  { rewrite Hws, list_lookup_fmap, (proj2 (lookup_seq _ _ _ n)); [done|lia]. }
  rewrite list_lookup_fmap in E. destruct (ws !! (n - lo)) as [[j [r|]]|] eqn:Hi; try done.
  exists j, r. split; [by eapply list_elem_of_lookup_2|]. simpl in E. congruence.
Qed.
End fresh.

Section rows.
Context {K iset T : Type} `{EqDecision K, IndexSet K iset, !IndexSetLaws K iset}.
Implicit Types from to : iset.

(** The row that stands for the [j]th new key: the old row of the key, told its
    new index, or a new one. *)
Definition expected from to (rows : list (row T)) (items : list T)
    (ws : list (nat * option (row T))) (j : nat) (r : row T) : Prop :=
  ∃ k, iset_elems to !! j = Some k ∧
    match iset_get_full from k with
    | Some i => ∃ old, rows !! i = Some old ∧ r = if decide (i = j) then old else set_index j old
    | None => (j, Some r) ∈ ws ∧ ∃ item n, items !! j = Some item ∧ r = mkRow item n j
    end.

(** The rows [ws] written for new keys, and the rows of keys that have gone *)
Definition new_rows from to (lo hi : nat) (ws : list (nat * option (row T))) : Prop :=
  NoDup ws.*1 ∧ fresh_rows lo hi ws ∧
  ∀ j, j ∈ ws.*1 ↔ ∃ k, iset_elems to !! j = Some k ∧ k ∉ iset_elems from.
Definition gone from to (rows : list (row T)) (n : nat) : Prop :=
  ∃ i k r, iset_elems from !! i = Some k ∧ k ∉ iset_elems to ∧
    rows !! i = Some r ∧ row_node r = n.

(** The document [dom'] after the loops: the removed rows have left [dom], and
    the new rows were inserted if the list has a parent. *)
Definition dom_follows (parent : bool) (gone : nat → Prop) (lo hi : nat) (dom dom' : list nat) : Prop :=
  (∀ n, n ∈ dom' ↔ (n ∈ dom ∧ ¬ gone n) ∨ (parent = true ∧ lo ≤ n < hi)) ∧
  (NoDup dom → NoDup dom').

(** The rows are a prefix, the rest is empty. *)
Lemma filter_prefix {A} (P : nat → A → Prop) n (c : list (option A)) :
  n ≤ length c →
  (∀ j, j < n → ∃ x, c !! j = Some (Some x) ∧ P j x) →
  (∀ j x, n ≤ j → c !! j = Some x → x = None) →
  ∃ l, filter is_Some c = map Some l ∧ length l = n ∧ ∀ j x, l !! j = Some x → P j x.
Proof.
  revert P c. induction n as [|n IH]; intros P c Hn Hlt Hge.
  - exists []. split_and!; [|done|done]. clear Hlt. induction c as [|x c IHc]; [done|].
    rewrite (Hge 0 x) by (done || lia). rewrite filter_cons_False by (by intros [? ?]).
    apply IHc; [simpl; lia|]. intros j y _ Hy. by apply (Hge (S j) y); [lia|].
  - destruct c as [|y c]; [simpl in Hn; lia|].
    destruct (Hlt 0) as (x & [= ->] & Hx); [lia|].
    destruct (IH (λ j, P (S j)) c) as (l & Hl & Hlen & HP).
    + simpl in Hn. lia.
    + intros j Hj. apply (Hlt (S j)). lia.
    + intros j z Hj Hz. by apply (Hge (S j) z); [lia|].
    + exists (x :: l). rewrite filter_cons_True by done. split_and!.
      * by rewrite Hl.
      * simpl. by rewrite Hlen.
      * intros [|j] z Hz; [by injection Hz as <-|by apply HP].
Qed.

(** The new keys are old ones or added ones. *)
Lemma enough_room from to removed moves added :
  lists_diff from to removed moves added →
  iset_len to ≤ iset_len from + length added.
Proof.
  intros Hd. unfold iset_len.
  transitivity (length (iset_elems from ++ omap (λ a, iset_elems to !! add_at a) added)).
  - apply submseteq_length, NoDup_submseteq; [apply iset_nodup|].
    intros k Hk. rewrite elem_of_app. destruct (decide (k ∈ iset_elems from)) as [|Hn]; [by left|right].
    apply list_elem_of_lookup in Hk as [j Hj].
    assert (j ∈ map add_at added) as Hin by (apply (ld_added _ _ _ _ _ Hd); eauto).
    apply list_elem_of_fmap in Hin as (a & -> & Ha). apply list_elem_of_omap. eauto.
  - rewrite length_app. apply Nat.add_le_mono_l. clear Hd.
    induction added as [|a added IH]; simpl; [done|].
    destruct (iset_elems to !! add_at a); [exact (le_n_S _ _ IH)|exact (le_S _ _ IH)].
Qed.

Lemma move_facts from to removed moves added m :
  lists_diff from to removed moves added → m ∈ moves →
  ∃ k, iset_elems from !! move_from m = Some k ∧ iset_elems to !! move_to m = Some k ∧
    move_from m ≠ move_to m.
Proof.
  intros Hd Hm. apply (ld_moves _ _ _ _ _ Hd). apply list_elem_of_fmap. by exists m.
Qed.

(** A moved row is none of the removed ones. *)
Lemma moved_not_removed from to removed moves added (rows : list (row T)) i m r r' :
  lists_diff from to removed moves added → NoDup (map row_node rows) → m ∈ moves → i ∈ removed →
  rows !! move_from m = Some r → rows !! i = Some r' → row_node r' ≠ row_node r.
Proof.
  intros Hd Hnd Hm Hi Hr Hr' Hn. assert (i = move_from m) as ->.
  { rewrite NoDup_alt in Hnd. apply (Hnd i (move_from m) (row_node r));
      rewrite list_lookup_fmap; [by rewrite Hr'; simpl; rewrite Hn|by rewrite Hr]. }
  destruct (move_facts _ _ _ _ _ _ Hd Hm) as (k & Hk & Ht & _).
  apply (ld_removed _ _ _ _ _ Hd) in Hi as (k' & Hk' & Hnk). rewrite Hk in Hk'.
  injection Hk' as <-. apply Hnk. by eapply list_elem_of_lookup_2.
Qed.

Lemma some_row (rows : list (row T)) i r : mjoin (map Some rows !! i) = Some r ↔ rows !! i = Some r.
Proof. rewrite list_lookup_fmap. by destruct (rows !! i). Qed.
Lemma some_row' (rows : list (row T)) i r : map Some rows !! i = Some (Some r) ↔ rows !! i = Some r.
Proof. rewrite list_lookup_fmap. destruct (rows !! i); naive_solver. Qed.

(** The state after the loops, from the rows at the start. *)
Lemma loops_ok parent from to removed moves added (rows : list (row T)) (items : list T) dom lo :
  length rows = iset_len from → length items = iset_len to →
  lists_diff from to removed moves added →
  ∃ s' c ws,
    (_ ← for_each apply_remove removed;
     _ ← for_each apply_take moves;
     _ ← with_kchildren (λ c, c ++ replicate (length added) None);
     _ ← for_each apply_quiet (enumerate moves);
     _ ← for_each (apply_move parent) (enumerate moves);
     _ ← for_each (apply_add parent) added;
     with_kchildren (filter is_Some)) (mkK (map Some rows) dom lo [] (map Some items)) =
      Ok (tt, s') ∧
    k_children s' = filter is_Some c ∧ length c = length rows + length added ∧
    fresh_rows lo (k_next s') ws ∧
    (NoDup (map row_node rows) → (parent = true → ∀ r, r ∈ rows → row_node r ∈ dom) →
      dom_follows parent (λ n, ∃ i r, i ∈ removed ∧ rows !! i = Some r ∧ row_node r = n)
        lo (k_next s') dom (k_dom s')) ∧
    (let old m := mjoin (map Some rows !! move_from m) in
     let moved := map old moves in
     let taken := map (λ m, (move_from m, None)) moves in
     c = write_all ws
           (write_all (placed move_in_dom moved (enumerate moves))
             (write_all (placed (λ m, negb (move_in_dom m)) moved (enumerate moves))
               (write_all taken (write_all (map (λ i, (i, None)) removed) (map Some rows)) ++
                replicate (length added) None)))) ∧
    ws.*1 = map add_at added ∧
    ∀ j x, (j, x) ∈ ws → ∃ item n, items !! j = Some item ∧ x = Some (mkRow item n j).
Proof.
  intros Hrows Hitems Hd. set (c0 := map Some rows).
  assert (∀ i k, iset_elems from !! i = Some k → ∃ r, c0 !! i = Some (Some r)) as Hold.
  { intros i k Hi%lookup_lt_Some. destruct (lookup_lt_is_Some_2 rows i) as [r Hr];
      [unfold iset_len in Hrows; lia|]. exists r. unfold c0. by rewrite list_lookup_fmap, Hr. }
  destruct (removes_ok removed (mkK c0 dom lo [] (map Some items)))
    as (s1 & H1 & (Hn1 & Hm1 & Hi1) & Hc1 & Hd1 & Hdn1).
  { apply Hd. } { intros i (k & Hk & _)%(ld_removed _ _ _ _ _ Hd). by eapply Hold. }
  simpl in Hn1, Hm1, Hi1, Hc1, Hd1, Hdn1.
  assert (∀ m, m ∈ moves → k_children s1 !! move_from m = c0 !! move_from m ∧
    ∃ r, c0 !! move_from m = Some (Some r)) as Htake.
  { intros m Hm. assert ((move_from m, move_to m) ∈ map move_ends moves) as Hin
      by (apply list_elem_of_fmap; by exists m).
    apply (ld_moves _ _ _ _ _ Hd) in Hin as (k & Hk & Ht & _).
    split; [|by eapply Hold]. rewrite Hc1. apply write_all_other.
    rewrite <-list_fmap_compose. change (fst ∘ (λ i, (i, None))) with (@id nat).
    rewrite list_fmap_id. intros (k' & Hk' & Hn)%(ld_removed _ _ _ _ _ Hd).
    rewrite Hk in Hk'. injection Hk' as <-. apply Hn. by eapply list_elem_of_lookup_2. }
  destruct (takes_ok moves s1) as (s2 & H2 & Hn2 & Hi2 & Hm2 & Hd2 & Hc2).
  { apply Hd. } { intros m Hm. destruct (Htake m Hm) as [-> Hr]. done. }
  rewrite Hm1 in Hm2. simpl in Hm2.
  assert (k_moved s2 = map (λ m, mjoin (c0 !! move_from m)) moves) as Hm2'.
  { rewrite Hm2. apply map_ext_in. intros m Hm%list_elem_of_In. by destruct (Htake m Hm) as [-> _]. }
  clear Hm2. set (s3 := mkK (k_children s2 ++ replicate (length added) None) (k_dom s2)
    (k_next s2) (k_moved s2) (k_items s2)).
  assert (length (k_children s3) = length rows + length added) as Hlen3.
  { simpl. rewrite length_app, length_replicate, Hc2, length_write_all, Hc1, length_write_all.
    unfold c0. by rewrite length_map. }
  pose proof (enough_room _ _ _ _ _ Hd) as Hroom. rewrite <-Hrows in Hroom.
  assert (∀ i m, (i, m) ∈ enumerate moves → (∃ r, k_moved s2 !! i = Some (Some r)) ∧
    move_to m < length rows + length added) as Hmv.
  { intros i m Hin%enumerate_in. apply list_elem_of_lookup_2 in Hin as Hm.
    destruct (Htake m Hm) as [_ [r Hr]]. split.
    - exists r. rewrite Hm2', list_lookup_fmap, Hin. simpl. by rewrite Hr.
    - assert ((move_from m, move_to m) ∈ map move_ends moves) as Hin'
        by (apply list_elem_of_fmap; by exists m).
      apply (ld_moves _ _ _ _ _ Hd) in Hin' as (k & _ & Ht%lookup_lt_Some & _).
      unfold iset_len in *. lia. }
  assert (NoDup (enumerate moves).*1) as Hnd by (rewrite enumerate_fst; apply NoDup_seq).
  destruct (places_ok _ _ _ (enumerate moves) s3 (quiet_places parent) Hnd)
    as (s4 & H4 & Hn4 & Hi4 & Hm4 & Hd4 & Hc4).
  { intros i m Hin _. rewrite Hlen3. by apply Hmv. }
  assert (∀ i m, (i, m) ∈ enumerate moves → move_in_dom m = true →
    k_moved s4 !! i = k_moved s2 !! i) as Hsame.
  { intros i m Hin Hdom. rewrite Hm4; [done|]. intros m' Hin'.
    apply enumerate_in in Hin, Hin'. rewrite Hin in Hin'. injection Hin' as <-. by rewrite Hdom. }
  assert (length (k_children s4) = length rows + length added) as Hlen4.
  { by rewrite Hc4, length_write_all. }
  destruct (places_ok _ _ _ (enumerate moves) s4 (move_places parent) Hnd)
    as (s5 & H5 & Hn5 & Hi5 & _ & Hd5 & Hc5).
  { intros i m Hin Hdom. rewrite (Hsame i m Hin Hdom), Hlen4. by apply Hmv. }
  assert (k_items s5 = map Some items) as Hitems5 by (rewrite Hi5, Hi4; simpl; congruence).
  assert (k_next s5 = lo) as Hnext5 by (rewrite Hn5, Hn4; simpl; congruence).
  destruct (adds_ok parent added s5) as (s6 & ws & H6 & Hc6 & Hfst & Hfr & Hws & Hd6 & Hdn6).
  { apply Hd. }
  { intros a Ha. assert (add_at a ∈ map add_at added) as Hin by (by apply list_elem_of_fmap_2).
    apply (ld_added _ _ _ _ _ Hd) in Hin as (k & Hk%lookup_lt_Some & _).
    unfold iset_len in *. rewrite Hc5, length_write_all, Hlen4. split; [|lia].
    destruct (lookup_lt_is_Some_2 items (add_at a)) as [item Hitem]; [lia|].
    exists item. by rewrite Hitems5, list_lookup_fmap, Hitem. }
  eexists (mkK (filter is_Some (k_children s6)) (k_dom s6) (k_next s6) (k_moved s6) (k_items s6)),
    (k_children s6), ws. split_and!.
  - erewrite bind_Ok by exact H1. erewrite bind_Ok by exact H2.
    erewrite bind_Ok by (unfold with_kchildren, modify; reflexivity). fold s3.
    erewrite bind_Ok by exact H4. erewrite bind_Ok by exact H5. erewrite bind_Ok by exact H6. done.
  - done.
  - by rewrite Hc6, length_write_all, Hc5, length_write_all.
  - by rewrite <-Hnext5.
  - intros Hnodes Hin. simpl k_dom. simpl k_next.
    assert (parent = true → ∀ i m r, (i, m) ∈ enumerate moves → k_moved s2 !! i = Some (Some r) →
      row_node r ∈ k_dom s1) as Hstay.
    { intros Hp i m r Him%enumerate_in Hr. rewrite Hm2', list_lookup_fmap, Him in Hr. simpl in Hr.
      apply list_elem_of_lookup_2 in Him. injection Hr as Hr%some_row. apply Hd1.
      split; [by apply Hin, (list_elem_of_lookup_2 _ _ _ Hr)|].
      intros i' r' Hi' Hr'%some_row'. by eapply moved_not_removed. }
    assert (same_nodes (k_dom s1) (k_dom s5)) as [Hsn Hsd].
    { assert (same_nodes (k_dom s1) (k_dom s4)) as H14.
      { rewrite <-Hd2. apply Hd4. intros Hp i m r Him _ Hr. simpl in Hr |- *. rewrite Hd2.
        by eapply Hstay. }
      eapply same_nodes_trans; [exact H14|]. apply Hd5. intros Hp i m r Him Hdom Hr.
      rewrite (Hsame i m Him Hdom) in Hr. apply H14. by eapply Hstay. }
    split; [|intros H0; by apply Hdn6, Hsd, Hdn1].
    intros n. rewrite Hd6, Hsn, Hd1, Hnext5. apply or_iff_compat_r, and_iff_compat_l. split.
    + intros Hall (i & r & Hi & Hr & Hn). apply (Hall i r Hi); [by apply some_row'|done].
    + intros Hno i r Hi Hr%some_row' Hn. apply Hno. by exists i, r.
  - rewrite Hc6, Hc5, Hc4. simpl k_children. simpl k_moved. rewrite Hm2', Hc2, Hc1.
    rewrite (placed_ext move_in_dom (map (λ m, mjoin (c0 !! move_from m)) moves)); [done|].
    intros i m Hin Hdom. by rewrite (Hsame i m Hin Hdom), Hm2'.
  - done.
  - intros j x Hin. destruct (Hws j x Hin) as (item & n & Hit & ->). exists item, n.
    rewrite Hitems5, list_lookup_fmap in Hit. simpl.
    destruct (items !! j) as [item'|]; [|done]. by injection Hit as ->.
Qed.

(** The vector before anything is written to it: rows that stay, and gaps. *)
Lemma taken_lookup from to removed moves added (rows : list (row T)) j :
  lists_diff from to removed moves added → length rows = iset_len from →
  let c := write_all (map (λ m, (move_from m, None)) moves)
             (write_all (map (λ i, (i, None)) removed) (map Some rows)) ++
           replicate (length added) None in
  (iset_elems from !! j = iset_elems to !! j → ∀ r, rows !! j = Some r → c !! j = Some (Some r)) ∧
  (iset_len to ≤ j → ∀ x, c !! j = Some x → x = None).
Proof.
  intros Hd Hrows c.
  set (c1 := write_all (map (λ i, (i, None)) removed) (map Some rows)) in *.
  set (c2 := write_all (map (λ m, (move_from m, None)) moves) c1) in *.
  assert (length c2 = length rows) as Hlen
    by (unfold c2, c1; by rewrite !length_write_all, length_map).
  assert (∀ B (f : B → nat) l, (map (λ x : B, (f x, @None (row T))) l).*1 = map f l) as Hfst.
  { intros B f l. rewrite <-list_fmap_compose. done. }
  assert (j ∉ map move_from moves → c2 !! j = c1 !! j) as Hc2.
  { intros Hj. apply write_all_other. by rewrite Hfst. }
  split.
  - intros Heq r Hr. apply lookup_lt_Some in Hr as Hlt.
    destruct (lookup_lt_is_Some_2 (iset_elems from) j) as [k Hk]; [unfold iset_len in *; lia|].
    rewrite Hk in Heq. symmetry in Heq. unfold c. rewrite lookup_app_l by lia.
    rewrite Hc2. 2: { intros (m & -> & Hm)%list_elem_of_fmap.
      destruct (move_facts _ _ _ _ _ _ Hd Hm) as (k' & Hk' & Ht & Hne).
      rewrite Hk in Hk'. injection Hk' as <-. apply Hne. exact (iset_index_inj to _ _ _ Heq Ht). }
    unfold c1. rewrite write_all_other, list_lookup_fmap, Hr; [done|].
    rewrite Hfst, map_id. intros (k' & Hk' & Hn)%(ld_removed _ _ _ _ _ Hd).
    rewrite Hk in Hk'. injection Hk' as <-. apply Hn. by eapply list_elem_of_lookup_2.
  - intros Hj x Hx. unfold c in Hx. destruct (decide (j < length rows)) as [Hlt|Hge].
    + rewrite lookup_app_l in Hx by lia.
      destruct (lookup_lt_is_Some_2 (iset_elems from) j) as [k Hk]; [unfold iset_len in *; lia|].
      destruct (decide (k ∈ iset_elems to)) as [Hin|Hn].
      * apply list_elem_of_lookup in Hin as [j' Hj'].
        assert (j ≠ j') by (apply lookup_lt_Some in Hj'; unfold iset_len in *; lia).
        assert ((j, j') ∈ map move_ends moves) as Hends
          by (apply (ld_moves _ _ _ _ _ Hd); by exists k).
        apply list_elem_of_fmap in Hends as (m & [= -> ->] & Hm).
        unfold c2 in Hx. rewrite (write_all_in _ _ _ None) in Hx.
        -- by injection Hx as <-.
        -- rewrite Hfst. apply Hd.
        -- apply list_elem_of_fmap. by exists m.
        -- unfold c1. by rewrite length_write_all, length_map.
      * rewrite Hc2 in Hx. 2: { intros (m & -> & Hm)%list_elem_of_fmap.
          destruct (move_facts _ _ _ _ _ _ Hd Hm) as (k' & Hk' & Ht & _).
          rewrite Hk in Hk'. injection Hk' as <-. apply Hn. by eapply list_elem_of_lookup_2. }
        unfold c1 in Hx. rewrite (write_all_in _ _ _ None) in Hx.
        -- by injection Hx as <-.
        -- rewrite Hfst, map_id. apply Hd.
        -- apply list_elem_of_fmap. exists j. split; [done|]. apply (ld_removed _ _ _ _ _ Hd). by exists k.
        -- by rewrite length_map.
    + rewrite lookup_app_r in Hx by lia. by apply lookup_replicate_1 in Hx as [-> _].
Qed.

(** The writes of the two loops that place moved rows find each kept row. *)
Lemma kept_lookup from to removed moves added (rows : list (row T)) (ws : list (nat * option (row T))) i j k old :
  lists_diff from to removed moves added → length rows = iset_len from →
  ws.*1 = map add_at added →
  iset_elems from !! i = Some k → iset_elems to !! j = Some k → rows !! i = Some old →
  let moved := map (λ m, mjoin (map Some rows !! move_from m)) moves in
  write_all ws
    (write_all (placed move_in_dom moved (enumerate moves))
      (write_all (placed (λ m, negb (move_in_dom m)) moved (enumerate moves))
        (write_all (map (λ m, (move_from m, None)) moves)
          (write_all (map (λ i, (i, None)) removed) (map Some rows)) ++
         replicate (length added) None))) !! j =
  Some (Some (if decide (i = j) then old else set_index j old)).
Proof.
  intros Hd Hrows Hfst Hi Hj Hold moved.
  set (c0 := write_all (map _ moves) _ ++ _).
  assert (j < length c0) as Hlt.
  { unfold c0. rewrite length_app, !length_write_all, length_map, length_replicate, Hrows.
    eapply Nat.lt_le_trans, enough_room; [|done]. by apply lookup_lt_Some in Hj. }
  assert (j ∉ ws.*1) as Hws.
  { rewrite Hfst. intros (k' & Hk' & Hn)%(ld_added _ _ _ _ _ Hd). rewrite Hj in Hk'.
    injection Hk' as <-. apply Hn. by eapply list_elem_of_lookup_2. }
  rewrite write_all_other by done.
  assert (∀ sel, NoDup (placed sel moved (enumerate moves)).*1) as Hnd.
  { intros sel. eapply sublist_NoDup; [|apply placed_sublist].
    rewrite enumerate_map. apply Hd. }
  assert (∀ m, m ∈ moves → move_to m = j → move_from m = i ∧ i ≠ j) as Hmv.
  { intros m Hm <-. destruct (move_facts _ _ _ _ _ _ Hd Hm) as (k' & Hk' & Ht & Hne).
    rewrite Hj in Ht. injection Ht as <-.
    by rewrite (iset_index_inj from _ _ _ Hi Hk'). }
  assert (∀ sel x, (j, x) ∈ placed sel moved (enumerate moves) → ∃ m, m ∈ moves ∧
    move_to m = j ∧ sel m = true) as Hpl.
  { intros sel x (n & m & Hm%enumerate_in & Hs & -> & _)%placed_in. exists m.
    split_and!; [by eapply list_elem_of_lookup_2|done..]. }
  assert (∀ sel, (∀ m, m ∈ moves → move_to m = j → sel m = false) →
    j ∉ (placed sel moved (enumerate moves)).*1) as Hnot.
  { intros sel Hsel ([j' x] & -> & Hin)%list_elem_of_fmap.
    destruct (Hpl sel x Hin) as (m & Hm & Hto & Hs). by rewrite Hsel in Hs. }
  destruct (decide (i = j)) as [->|Hne].
  - rewrite !write_all_other.
    + apply (taken_lookup _ _ _ _ added rows j Hd Hrows); congruence.
    + apply Hnot. intros m Hm Hto. by destruct (Hmv m Hm Hto).
    + apply Hnot. intros m Hm Hto. by destruct (Hmv m Hm Hto).
  - assert ((i, j) ∈ map move_ends moves) as Hin
      by (apply (ld_moves _ _ _ _ _ Hd); by exists k).
    apply list_elem_of_fmap in Hin as (m & [= Hfrom Hto] & Hm).
    apply list_elem_of_lookup in Hm as Hm'. destruct Hm' as [n Hn].
    assert (∀ sel, sel m = true →
      (j, Some (set_index j old)) ∈ placed sel moved (enumerate moves)) as Hput.
    { intros sel Hs. apply placed_in. exists n, m. split_and!; [by apply enumerate_in|done|done|].
      unfold moved. rewrite list_lookup_fmap, Hn. simpl.
      rewrite list_lookup_fmap, <-Hfrom, Hold, <-Hto. done. }
    destruct (move_in_dom m) eqn:Hdom.
    + apply write_all_in; [done|by apply Hput|by rewrite length_write_all].
    + rewrite write_all_other; [apply write_all_in; [done|apply Hput; by rewrite Hdom|done]|].
      apply Hnot. intros m' Hm' Hto'.
      apply list_elem_of_lookup in Hm' as [n' Hn'].
      assert (n = n') as <-; [|congruence].
      pose proof (ld_to_nodup _ _ _ _ _ Hd) as Hndt. rewrite NoDup_alt in Hndt.
      apply (Hndt n n' j); rewrite list_lookup_fmap; [by rewrite Hn, Hto|].
      rewrite Hn'. simpl. by rewrite Hto'.
Qed.

Lemma omap_nodes (rows : list (row T)) : omap (fmap row_node) (map Some rows) = map row_node rows.
Proof. induction rows as [|r rows IH]; [done|]. simpl. by rewrite <-IH. Qed.

(** Without new keys all rows are removed at once. *)
Lemma cleared_follows parent from to (rows : list (row T)) lo dom :
  length rows = iset_len from → iset_elems to = [] →
  dom_follows parent (gone from to rows) lo lo dom
    (filter (λ n, n ∉ omap (fmap row_node) (map Some rows)) dom).
Proof.
  intros Hlen Hto. split; [|apply NoDup_filter]. intros n. rewrite list_elem_of_filter, omap_nodes.
  assert (n ∈ map row_node rows ↔ gone from to rows n) as ->.
  { rewrite list_elem_of_fmap. split.
    - intros (r & -> & [i Hi]%list_elem_of_lookup).
      destruct (lookup_lt_is_Some_2 (iset_elems from) i) as [k Hk].
      { apply lookup_lt_Some in Hi. unfold iset_len in Hlen. lia. }
      exists i, k, r. rewrite Hto. split_and!; [done|by apply not_elem_of_nil|done..].
    - intros (i & k & r & _ & _ & Hr & <-). exists r. split; [done|]. by eapply list_elem_of_lookup_2. }
  split; [intros [? ?]; by left|intros [[? ?]|[_ ?]]; [done|lia]].
Qed.

Lemma apply_diff_rows parent from to (rows : list (row T)) (items : list T) dom lo :
  length rows = iset_len from → length items = iset_len to →
  ∃ s' rows' ws,
    apply_diff parent (diff from to) (mkK (map Some rows) dom lo [] (map Some items)) = Ok (tt, s') ∧
    k_children s' = map Some rows' ∧ length rows' = iset_len to ∧
    new_rows from to lo (k_next s') ws ∧
    (NoDup (map row_node rows) → (parent = true → ∀ r, r ∈ rows → row_node r ∈ dom) →
      dom_follows parent (gone from to rows) lo (k_next s') dom (k_dom s')) ∧
    ∀ j r, rows' !! j = Some r → expected from to rows items ws j r.
Proof.
  intros Hrows Hitems. destruct (diff_lists from to) as [[Hto ->]|(Hclear & moves & Hun & Hd)].
  { eexists _, [], []. split_and!; [by cbn|done|unfold iset_len; by rewrite Hto| | |done].
    - split_and!; [constructor|by split|]. intros j. rewrite Hto. split.
      + intros Hj. by apply not_elem_of_nil in Hj.
      + by intros (k & Hk & _).
    - intros _ _. by apply cleared_follows. }
  destruct (loops_ok parent from to _ moves _ rows items dom lo Hrows Hitems Hd)
    as (s' & c & ws & Hrun & Hs' & Hlen & Hfr & Hdom & Hc & Hfst & Hws).
  assert (apply_diff parent (diff from to) (mkK (map Some rows) dom lo [] (map Some items)) =
    Ok (tt, s')) as Happ.
  { unfold apply_diff. rewrite Hclear, Hun. simpl. exact Hrun. }
  exists s'. rewrite Happ, Hs'. simpl in Hc.
  set (moved := map (λ m, mjoin (map Some rows !! move_from m)) moves) in *.
  set (c0 := write_all (map _ moves) _ ++ _) in Hc.
  assert (∀ j, j ∉ map add_at (d_added (diff from to)) → j ∉ map move_to moves → c !! j = c0 !! j) as Hrest.
  { intros j Ha Hm. rewrite Hc.
    assert (∀ sel, j ∉ (placed sel moved (enumerate moves)).*1) as Hp.
    { intros sel Hin. apply Hm. rewrite <-enumerate_map.
      by eapply sublist_subseteq, Hin; apply placed_sublist. }
    rewrite !write_all_other; [done|apply Hp..|by rewrite Hfst]. }
  destruct (filter_prefix (expected from to rows items ws) (iset_len to) c)
    as (rows' & Hf & Hlen' & Hexp).
  - rewrite Hlen, Hrows. by eapply enough_room.
  - intros j Hj. destruct (lookup_lt_is_Some_2 (iset_elems to) j Hj) as [k Hk].
    destruct (iset_get_full from k) as [i|] eqn:Hi.
    + apply get_full_spec in Hi as Hik.
      destruct (lookup_lt_is_Some_2 rows i) as [old Hold].
      { rewrite Hrows. by apply lookup_lt_Some in Hik. }
      exists (if decide (i = j) then old else set_index j old). split.
      * rewrite Hc. exact (kept_lookup _ _ _ _ _ rows ws i j k old Hd Hrows Hfst Hik Hk Hold).
      * exists k. rewrite Hi. eauto.
    + apply get_full_none in Hi as Hn.
      assert (j ∈ ws.*1) as Hin by (rewrite Hfst; apply (ld_added _ _ _ _ _ Hd); by exists k).
      apply list_elem_of_fmap in Hin as ([j' x] & -> & Hin). simpl in *.
      destruct (Hws j' x Hin) as (item & n & Hit & ->).
      exists (mkRow item n j'). split.
      * rewrite Hc. apply write_all_in; [rewrite Hfst; apply Hd|done|].
        rewrite <-(length_write_all ws), <-Hc, Hlen, Hrows.
        eapply Nat.lt_le_trans, enough_room; [exact Hj|done].
      * exists k. rewrite Hi. eauto 10.
  - intros j x Hj Hx. rewrite Hrest in Hx.
    + by eapply (taken_lookup _ _ _ _ _ rows j Hd Hrows).
    + intros (k & Hk%lookup_lt_Some & _)%(ld_added _ _ _ _ _ Hd). unfold iset_len in Hj. lia.
    + intros (m & -> & Hm)%list_elem_of_fmap.
      destruct (move_facts _ _ _ _ _ _ Hd Hm) as (k & _ & Ht%lookup_lt_Some & _).
      unfold iset_len in Hj. lia.
  - exists rows', ws. split_and!; [done..| | |done].
    + split_and!; [rewrite Hfst; apply Hd|done|]. intros j. rewrite Hfst. apply Hd.
    + intros Hn Hin. destruct (Hdom Hn Hin) as [H1 H2]. split; [|done]. intros n. rewrite H1.
      apply or_iff_compat_r, and_iff_compat_l, not_iff_compat. split.
      * intros (i & r & (k & Hk & Hnk)%(ld_removed _ _ _ _ _ Hd) & Hr & Hrn). by exists i, k, r.
      * intros (i & k & r & Hk & Hnk & Hr & Hrn). exists i, r. split_and!; [|done..].
        apply (ld_removed _ _ _ _ _ Hd). by exists k.
Qed.

(** Which nodes the rows have afterwards: those of old rows, or new ones *)
Lemma expected_case from to (rows : list (row T)) items ws j r :
  expected from to rows items ws j r →
  (∃ i k old, iset_elems from !! i = Some k ∧ iset_elems to !! j = Some k ∧
     rows !! i = Some old ∧ row_node r = row_node old) ∨ (j, Some r) ∈ ws.
Proof.
  intros (k & Hk & He). destruct (iset_get_full from k) as [i|] eqn:Hi; [left|by destruct He; right].
  apply get_full_spec in Hi. destruct He as (old & Ho & ->). exists i, k, old.
  split_and!; [done..|]. by case_decide.
Qed.

Lemma node_inj (rows : list (row T)) i i' r r' :
  NoDup (map row_node rows) → rows !! i = Some r → rows !! i' = Some r' → row_node r = row_node r' → i = i'.
Proof.
  intros Hnd Hr Hr' Hn. rewrite NoDup_alt in Hnd. apply (Hnd i i' (row_node r)); rewrite list_lookup_fmap;
    [by rewrite Hr|by rewrite Hr'; simpl; rewrite Hn].
Qed.

Lemma expected_distinct from to (rows rows' : list (row T)) items lo hi ws :
  NoDup (map row_node rows) → (∀ r, r ∈ rows → row_node r < lo) → fresh_rows lo hi ws →
  (∀ j r, rows' !! j = Some r → expected from to rows items ws j r) → NoDup (map row_node rows').
Proof.
  intros Hnd Hlo Hfr Hexp. apply NoDup_alt. intros j j' n Hj Hj'. rewrite !list_lookup_fmap in Hj, Hj'.
  destruct (rows' !! j) as [r|] eqn:Hr; [|done]. destruct (rows' !! j') as [r'|] eqn:Hr'; [|done].
  injection Hj as Hn. injection Hj' as Hn'.
  destruct (expected_case _ _ _ _ _ _ _ (Hexp j r Hr)) as [(i & k & old & Hi & Hk & Ho & Hno)|Hin],
    (expected_case _ _ _ _ _ _ _ (Hexp j' r' Hr')) as [(i' & k' & old' & Hi' & Hk' & Ho' & Hno')|Hin'].
  - assert (i = i') as <- by (apply (node_inj rows i i' old old'); [done..|congruence]).
    rewrite Hi in Hi'. injection Hi' as <-. by eapply iset_index_inj.
  - pose proof (Hlo old (list_elem_of_lookup_2 _ _ _ Ho)). pose proof (fresh_bounds _ _ _ _ _ Hfr Hin'). lia.
  - pose proof (Hlo old' (list_elem_of_lookup_2 _ _ _ Ho')). pose proof (fresh_bounds _ _ _ _ _ Hfr Hin). lia.
  - apply (fresh_inj _ _ _ _ _ r r' Hfr); [done..|congruence].
Qed.

(** A node that stays in the document is that of a row. *)
Lemma node_of_row from to (rows rows' : list (row T)) items lo hi ws n :
  length rows = iset_len from → length rows' = iset_len to → new_rows from to lo hi ws →
  (∀ j r, rows' !! j = Some r → expected from to rows items ws j r) →
  (n ∈ map row_node rows ∧ ¬ gone from to rows n) ∨ lo ≤ n < hi → n ∈ map row_node rows'.
Proof.
  intros Hlen Hlen' (Hwnd & Hfr & Hws) Hexp.
  assert (∀ j k, iset_elems to !! j = Some k → ∃ r, rows' !! j = Some r ∧ row_node r ∈ map row_node rows') as Hrow.
  { intros j k Hj%lookup_lt_Some. destruct (lookup_lt_is_Some_2 rows' j) as [r Hr]; [unfold iset_len in Hlen'; lia|].
    exists r. split; [done|]. apply list_elem_of_fmap. exists r. split; [done|by eapply list_elem_of_lookup_2]. }
  intros [[(r & -> & [i Hi]%list_elem_of_lookup)%list_elem_of_fmap Hg]|Hn].
  - destruct (lookup_lt_is_Some_2 (iset_elems from) i) as [k Hk].
    { apply lookup_lt_Some in Hi. unfold iset_len in Hlen. lia. }
    destruct (decide (k ∈ iset_elems to)) as [[j Hj]%list_elem_of_lookup|Hn];
      [|exfalso; apply Hg; by exists i, k, r].
    destruct (Hrow j k Hj) as (r' & Hr' & Hin). destruct (Hexp j r' Hr') as (k' & Hk' & He).
    rewrite Hj in Hk'. injection Hk' as <-. rewrite (proj2 (get_full_spec from k i)) in He by done.
    destruct He as (old & Ho & ->). rewrite Hi in Ho. injection Ho as <-. by case_decide.
  - destruct (fresh_exists _ _ _ _ Hfr Hn) as (j & r & Hin & <-).
    assert (j ∈ ws.*1) as (k & Hk & Hnk)%Hws by (apply list_elem_of_fmap; by exists (j, Some r)).
    destruct (Hrow j k Hk) as (r' & Hr' & Hin'). destruct (Hexp j r' Hr') as (k' & Hk' & He).
    rewrite Hk in Hk'. injection Hk' as <-. rewrite (proj2 (get_full_none from k)) in He by done.
    destruct He as [Hw' _]. assert (Some r = Some r') as [= ->]; [|done].
    apply list_elem_of_lookup in Hin as [a Ha], Hw' as [b Hb]. rewrite NoDup_alt in Hwnd.
    assert (a = b) as <-; [|congruence].
    apply (Hwnd a b j); rewrite list_lookup_fmap; [by rewrite Ha|by rewrite Hb].
Qed.

Lemma expected_nodes parent from to (rows rows' : list (row T)) items lo hi ws dom dom' :
  length rows = iset_len from → length rows' = iset_len to → NoDup (map row_node rows) →
  (∀ r, r ∈ rows → row_node r < lo) → new_rows from to lo hi ws →
  (∀ j r, rows' !! j = Some r → expected from to rows items ws j r) →
  dom_follows parent (gone from to rows) lo hi dom dom' →
  dom ≡ₚ (if parent then map row_node rows else []) →
  dom' ≡ₚ (if parent then map row_node rows' else []).
Proof.
  intros Hlen Hlen' Hnd Hlo Hnew Hexp [Hdom Hdn] Hp. pose proof Hnew as (_ & Hfr & _). destruct parent.
  2: { destruct dom' as [|n l]; [done|]. exfalso. destruct (proj1 (Hdom n)) as [[Hin _]|[? _]]; [by left| |done].
    rewrite Hp in Hin. by apply not_elem_of_nil in Hin. }
  apply NoDup_Permutation; [apply Hdn; by rewrite Hp|by eapply expected_distinct|]. intros n. rewrite Hdom, Hp. split.
  - intros H'. apply (node_of_row from to rows rows' items lo hi ws); [done..|]. tauto.
  - intros (r & -> & [j Hr]%list_elem_of_lookup)%list_elem_of_fmap.
    destruct (expected_case _ _ _ _ _ _ _ (Hexp j r Hr)) as [(i & k & old & Hi & Hk & Ho & ->)|Hin]; [left|right].
    + split; [apply list_elem_of_fmap; exists old; split; [done|by eapply list_elem_of_lookup_2]|].
      intros (i' & k' & r' & Hi' & Hnk & Hr' & Hn). assert (i' = i) as -> by (by eapply node_inj).
      rewrite Hi in Hi'. injection Hi' as <-. apply Hnk. by eapply list_elem_of_lookup_2.
    + split; [done|by eapply fresh_bounds].
Qed.
End rows.

(** ** Properties *)

Section keyed.
Context {K iset T : Type} `{EqDecision K, IndexSet K iset, !IndexSetLaws K iset}.

(** The state between two renders: a row for every key, which knows its index
    and has a node of its own. *)
Definition keyed_ok (state : KeyedState T iset) : Prop :=
  ∃ rows, ks_rendered_items state = map Some rows ∧
    length rows = iset_len (ks_hashed_items state) ∧
    NoDup (map row_node rows) ∧
    ∀ i r, rows !! i = Some r → row_index r = i ∧ row_node r < ks_next state.

(** A mounted list has the nodes of its rows in the document, each once, and
    nothing else; one that was never mounted has none. *)
Definition in_document (state : KeyedState T iset) : Prop :=
  ks_dom state ≡ₚ
    if ks_mounted state then omap (fmap row_node) (ks_rendered_items state) else [].

Lemma hash_loop (key_fn : T → K) items (s : iset) :
  NoDup (iset_elems s ++ map key_fn items) →
  iset_elems (fold_left (λ s item, iset_insert (key_fn item) s) items s) =
    iset_elems s ++ map key_fn items.
Proof.
  revert s. induction items as [|x items IH]; intros s Hnd; simpl; [by rewrite app_nil_r|].
  assert (iset_elems (iset_insert (key_fn x) s) = iset_elems s ++ [key_fn x]) as Hins.
  { rewrite elems_insert. rewrite decide_False; [done|]. intros Hin.
    apply NoDup_app in Hnd as (_ & Hnd & _). apply (Hnd _ Hin). by left. }
  rewrite IH; rewrite Hins, <-(assoc app); done.
Qed.

Lemma hash_items_elems (key_fn : T → K) items :
  NoDup (map key_fn items) → iset_elems (hash_items (iset := iset) key_fn items) = map key_fn items.
Proof.
  intros Hnd. unfold hash_items. rewrite hash_loop; rewrite elems_with_capacity; done.
Qed.

Lemma build_ok (key_fn : T → K) items next :
  NoDup (map key_fn items) → keyed_ok (build key_fn items next).
Proof.
  intros Hnd. exists (map (λ ii, mkRow ii.2 (next + ii.1) ii.1) (enumerate items)).
  split_and!; simpl.
  - by rewrite map_map.
  - unfold iset_len. rewrite hash_items_elems by done. unfold enumerate.
    rewrite !length_map, length_zip_with, length_seq. lia.
  - rewrite map_map. unfold enumerate. generalize 0. clear Hnd.
    induction items as [|x items IH]; intros n; [constructor|]. simpl. constructor; [|apply IH].
    intros ([i y] & Heq & Hin)%list_elem_of_fmap. simpl in Heq.
    apply list_elem_of_lookup in Hin as (j & (a & b & [= -> ->] & Ha & _)%lookup_zip_with_Some).
    apply lookup_seq in Ha. lia.
  - intros i r Hr. rewrite list_lookup_fmap in Hr.
    destruct (enumerate items !! i) as [[j x]|] eqn:Hj; [|done]. injection Hr as <-. simpl.
    unfold enumerate in Hj. apply lookup_zip_with_Some in Hj as (a & b & [= -> ->] & Ha & _).
    apply lookup_seq in Ha as [-> Hlt]. lia.
Qed.

Lemma mount_ok (state : KeyedState T iset) : keyed_ok state → keyed_ok (mount state).
Proof. done. Qed.

Lemma dom_remove_fresh n dom : n ∉ dom → dom_remove n dom = dom.
Proof.
  unfold dom_remove. induction dom as [|m dom IH]; [done|].
  intros [Hne Hn]%not_elem_of_cons. by rewrite filter_cons_True, IH.
Qed.

(** Mounting puts the nodes of all rows into the document. *)
Lemma mount_nodes rows dom :
  NoDup (dom ++ map row_node rows) →
  fold_left (λ dom r, dom_append (row_node (T := T) r) dom) rows dom = dom ++ map row_node rows.
Proof.
  revert dom. induction rows as [|r rows IH]; intros dom Hnd; simpl; [by rewrite app_nil_r|].
  assert (dom_append (row_node r) dom = dom ++ [row_node r]) as Ha.
  { unfold dom_append. rewrite dom_remove_fresh; [done|].
    intros Hm. apply NoDup_app in Hnd as (_ & Hnd & _). apply (Hnd _ Hm). by left. }
  rewrite Ha, IH; rewrite <-(assoc app); done.
Qed.

Lemma mount_in_document (state : KeyedState T iset) :
  keyed_ok state → ks_dom state = [] → in_document (mount state).
Proof.
  intros (rows & Hr & _ & Hnd & _) Hd. unfold in_document. simpl. rewrite Hd, Hr, omap_nodes.
  assert (omap id (map Some rows) = rows) as ->.
  { clear. induction rows as [|r rows IH]; [done|]. exact (f_equal (cons r) IH). }
  by rewrite mount_nodes.
Qed.
End keyed.

(** C5: rebuilding a keyed list with distinct keys terminates without a panic.
    The retained rows are then exactly the new items in their order: a key that
    was there before keeps its row and DOM node and is told its new index, and
    a new key gets a newly built row with a new node.  A mounted list has in the
    document exactly the nodes of these rows, each once: new rows have been
    mounted, the rows of the keys that have gone unmounted (in which order they
    stand is another matter, see [keyed_dom_out_of_order]). *)
Theorem rebuild_keeps_rows {K iset T} `{EqDecision K, IndexSet K iset, !IndexSetLaws K iset}
    (key_fn : T → K) items (state : KeyedState T iset) :
  keyed_ok state → in_document state → NoDup (map key_fn items) →
  ∃ state', rebuild key_fn items state = Ok state' ∧ keyed_ok state' ∧
    iset_elems (ks_hashed_items state') = map key_fn items ∧
    length (ks_rendered_items state') = length items ∧
    ks_mounted state' = ks_mounted state ∧ in_document state' ∧
    (∀ i r k, ks_rendered_items state !! i = Some (Some r) →
      iset_elems (ks_hashed_items state) !! i = Some k → k ∉ map key_fn items →
      row_node r ∉ ks_dom state') ∧
    ∀ j item, items !! j = Some item →
      ∃ r, ks_rendered_items state' !! j = Some (Some r) ∧ row_index r = j ∧
        match iset_get_full (ks_hashed_items state) (key_fn item) with
        | Some i => ∃ old, ks_rendered_items state !! i = Some (Some old) ∧
            row_node r = row_node old ∧ row_item r = row_item old
        | None => row_item r = item ∧ ks_next state ≤ row_node r
        end.
Proof.
  intros (rows & Hren & Hlen & Hndn & Hrows) Hdoc Hnd. unfold rebuild.
  set (to := hash_items key_fn items). set (from := ks_hashed_items state).
  assert (iset_elems to = map key_fn items) as Hto by by apply hash_items_elems.
  destruct (apply_diff_rows (ks_mounted state) from to rows items (ks_dom state) (ks_next state))
    as (s' & rows' & ws & Happ & Hc & Hlen' & Hnew & Hdom & Hexp);
    [done|by unfold iset_len; rewrite Hto, length_map|].
  assert (∀ r, r ∈ rows → row_node r < ks_next state) as Hlo.
  { intros r [i Hi]%list_elem_of_lookup. by eapply Hrows. }
  unfold in_document in Hdoc. rewrite Hren, omap_nodes in Hdoc.
  assert (dom_follows (ks_mounted state) (gone from to rows) (ks_next state) (k_next s')
    (ks_dom state) (k_dom s')) as Hfol.
  { apply Hdom; [done|]. intros Hm r Hr. rewrite Hdoc, Hm. by apply list_elem_of_fmap_2. }
  pose proof (expected_distinct from to rows rows' items _ _ ws Hndn Hlo (proj1 (proj2 Hnew)) Hexp) as Hnd'.
  pose proof (expected_nodes (ks_mounted state) from to rows rows' items _ _ ws (ks_dom state) (k_dom s')
    Hlen Hlen' Hndn Hlo Hnew Hexp Hfol Hdoc) as Hdoc'.
  rewrite Hren, Happ. simpl. eexists. split; [done|].
  assert (∀ j r, rows' !! j = Some r → row_index r = j ∧ row_node r < k_next s') as Hok.
  { intros j r Hr. destruct Hnew as (_ & Hfr & _). assert (ks_next state ≤ k_next s') by (destruct Hfr; lia).
    destruct (Hexp j r Hr) as (k & Hk & He). destruct (iset_get_full from k) as [i|].
    - destruct He as (old & Hold & ->). destruct (Hrows i old Hold) as [Hi Hn].
      case_decide; simpl; split; [congruence|lia|done|lia].
    - destruct He as (Hin & item & n & _ & ->). split; [done|]. by apply (fresh_bounds _ _ _ _ _ Hfr Hin). }
  split_and!; simpl.
  - exists rows'. by split_and!.
  - done.
  - rewrite Hc, length_map, Hlen'. unfold iset_len. by rewrite Hto, length_map.
  - done.
  - unfold in_document. simpl. by rewrite Hc, omap_nodes.
  - intros i r k Hr Hk Hn. rewrite list_lookup_fmap in Hr. destruct (rows !! i) as [r'|] eqn:Hri; [|done].
    injection Hr as ->. rewrite (proj1 Hfol). intros [[_ Hg]|[_ Hb]].
    + apply Hg. exists i, k, r. by rewrite Hto.
    + specialize (Hlo r (list_elem_of_lookup_2 _ _ _ Hri)). lia.
  - intros j item Hj. destruct (lookup_lt_is_Some_2 rows' j) as [r Hr].
    { rewrite Hlen'. unfold iset_len. rewrite Hto, length_map. by apply lookup_lt_Some in Hj. }
    exists r. rewrite Hc, list_lookup_fmap, Hr. split; [done|]. split; [by apply Hok|].
    destruct (Hexp j r Hr) as (k & Hk & He). rewrite Hto, list_lookup_fmap, Hj in Hk.
    injection Hk as <-. destruct (iset_get_full from (key_fn item)) as [i|].
    + destruct He as (old & Hold & ->). exists old. rewrite list_lookup_fmap, Hold.
      split; [done|]. by case_decide.
    + destruct He as (Hin & item' & n & Hit & ->). rewrite Hj in Hit. injection Hit as <-.
      simpl. split; [done|]. apply (fresh_bounds _ _ _ _ _ (proj1 (proj2 Hnew)) Hin).
Qed.

Definition numbers (l : list nat) : KeyedState nat (list_iset nat) :=
  mount (build (iset := list_iset nat) id l 100).

Lemma rebuild_keeps_rows_witness :
  ∃ state', rebuild id [4; 7; 2; 0] (numbers [0; 1; 2; 3; 4]) = Ok state' ∧ keyed_ok state' ∧
    iset_elems (ks_hashed_items state') = [4; 7; 2; 0] ∧ 103 ∉ ks_dom state'.
Proof.
  assert (keyed_ok (build (iset := list_iset nat) id [0; 1; 2; 3; 4] 100)) as Hb.
  { apply build_ok. apply (bool_decide_unpack _). by vm_compute. }
  destruct (rebuild_keeps_rows id [4; 7; 2; 0] (numbers [0; 1; 2; 3; 4]))
    as (state' & H & Hok & He & _ & _ & _ & Hgone & _).
  - by apply mount_ok.
  - by apply mount_in_document.
  - apply (bool_decide_unpack _). by vm_compute.
  - exists state'. split_and!; [done..|]. apply (Hgone 3 (mkRow 3 103 3) 3); [done..|].
    apply (bool_decide_unpack _). by vm_compute.
Defined.

(** The DOM nodes of a keyed list can end up in the wrong order: when [0;1;2;3;4] becomes [4;3;2], the rows are right, but the node of the row for 3, which the difference does not mark to be moved in the DOM because its index changes by as much as the number of removed rows before it, stays behind the node for 2. *)
Theorem keyed_dom_out_of_order :
  ∃ state, rebuild id [4; 3; 2] (numbers [0; 1; 2; 3; 4]) = Ok state ∧
    map (fmap row_item) (ks_rendered_items state) = [Some 4; Some 3; Some 2] ∧
    omap (fmap row_node) (ks_rendered_items state) = [104; 103; 102] ∧
    ks_dom state = [102; 104; 103].
Proof. eexists. split_and!; by vm_compute. Qed.

(** Unpacking a difference undoes the grouping of adjacent moves: the moves and additions come out one by one and in order, whichever way they are interleaved with the removals. *)
Theorem unpack_undoes_grouping removed moved added :
  Forall (λ m, move_len m = 1) moved →
  unpack_moves (mkDiff removed (group_adjacent_moves moved)
    (sum_list_with move_len (group_adjacent_moves moved)) added false) = (moved, added).
Proof.
  intros Hm. unfold unpack_moves. simpl. rewrite unpack_loop_ok.
  - simpl. by rewrite group_expand.
  - apply group_loop_len. simpl. eapply Forall_impl; [exact Hm|]. simpl. lia.
  - rewrite length_expand. lia.
Qed.

Lemma unpack_undoes_grouping_witness :
  let moved := [mkMove 2 1 1 true; mkMove 3 1 2 true; mkMove 5 1 4 true] in
  unpack_moves (mkDiff [0; 1] (group_adjacent_moves moved)
    (sum_list_with move_len (group_adjacent_moves moved)) [mkAdd 0 Normal] false) =
  (moved, [mkAdd 0 Normal]).
Proof. apply unpack_undoes_grouping. repeat constructor. Defined.
