(* ===== verification/ConstConcat.v ===== *)
(** * Concatenation of static strings at compile time

    [const_str_slice_concat/src/lib.rs]: the templates of the views are built by
    [const] functions that write bytes into a zeroed buffer of fixed size.  A
    panic of a [const] function is a compilation error. *)

From Stdlib Require Import Ascii.
From stdpp Require Import base list strings sets.
From S2P Require Import Prelude RustStr.

Definition MAX_TEMPLATE_SIZE : nat := N.to_nat 4096.
#[global] Arguments MAX_TEMPLATE_SIZE : simpl never.

Definition nul : ascii := ascii_of_nat 0.

(** [[0; MAX_TEMPLATE_SIZE]] *)
Definition zeroed : str := replicate MAX_TEMPLATE_SIZE nul.
#[global] Arguments zeroed : simpl never.

(** [buffer[position] = b] *)
Definition store (buffer : str) (position : nat) (b : ascii) : outcome str :=
  if position <? length buffer then Ok (<[position := b]> buffer) else Panic.

(** [while i < x.len() { buffer[position] = x[i]; position += 1; i += 1; }] *)
Fixpoint write_bytes (buffer : str) (position : nat) (x : str) : outcome (str * nat) :=
  match x with
  | [] => Ok (buffer, position)
  | b :: x => buffer ← store buffer position b; write_bytes buffer (S position) x
  end.

(** The loop over the strings *)
Fixpoint write_strs (buffer : str) (position : nat) (strs : list str) : outcome (str * nat) :=
  match strs with
  | [] => Ok (buffer, position)
  | current :: tail =>
      r ← write_bytes buffer position current; write_strs r.1 r.2 tail
  end.

Definition const_concat (strs : list str) : outcome str :=
  r ← write_strs zeroed 0 strs; Ok r.1.

(** [while i < body_end { new_buf[new_pos] = buffer[i]; .. }], with [n] rounds
    left *)
Fixpoint copy_body (new_buf : str) (new_pos : nat) (buffer : str) (i n : nat)
    : outcome (str * nat) :=
  match n with
  | 0 => Ok (new_buf, new_pos)
  | S n => b ← unwrap (buffer !! i);
           new_buf ← store new_buf new_pos b;
           copy_body new_buf (S new_pos) buffer (S i) n
  end.

Definition const_concat_with_prefix (strs : list str) (prefix suffix : str) : outcome str :=
  r ← write_strs zeroed 0 strs;
  let buffer := r.1 in
  let position := r.2 in
  if position =? 0 then Ok buffer
  else
    r ← write_bytes zeroed 0 prefix;
    r ← copy_body r.1 r.2 buffer 0 position;
    r ← write_bytes r.1 r.2 suffix;
    Ok r.1.

Fixpoint write_separated (separator buffer : str) (position : nat) (wrote_any : bool)
    (strs : list str) : outcome (str * nat) :=
  match strs with
  | [] => Ok (buffer, position)
  | [] :: tail => write_separated separator buffer position wrote_any tail
  | x :: tail =>
      r ← (if wrote_any then write_bytes buffer position separator else Ok (buffer, position));
      r ← write_bytes r.1 r.2 x;
      write_separated separator r.1 r.2 true tail
  end.

Definition const_concat_with_separator (strs : list str) (separator : str) : outcome str :=
  r ← write_separated separator zeroed 0 false strs; Ok r.1.

(** [CStr::from_bytes_until_nul] *)
Fixpoint until_nul (buf : str) : option str :=
  match buf with
  | [] => None
  | c :: buf => if decide (c = nul) then Some [] else cons c <$> until_nul buf
  end.

Definition str_from_buffer (buf : str) : outcome str :=
  match until_nul buf with
  | Some s => if utf8 s then Ok s else Panic
  | None => Panic
  end.

(** ** Buffers *)

(** A buffer of [MAX_TEMPLATE_SIZE] bytes that holds [s] and then zeros *)
Definition filled (s : str) : str := s ++ replicate (MAX_TEMPLATE_SIZE - length s) nul.

(** What a function yields that means to write [s]: a panic when it is too long *)
Definition template (s : str) : outcome str :=
  if length s <=? MAX_TEMPLATE_SIZE then Ok (filled s) else Panic.
Definition template_pos (s : str) : outcome (str * nat) :=
  if length s <=? MAX_TEMPLATE_SIZE then Ok (filled s, length s) else Panic.

Lemma zeroed_filled : zeroed = filled [].
Proof. unfold zeroed, filled. cbn [length app]. by rewrite Nat.sub_0_r. Qed.

Lemma length_filled s : length s ≤ MAX_TEMPLATE_SIZE → length (filled s) = MAX_TEMPLATE_SIZE.
Proof. intros H. unfold filled. rewrite length_app, length_replicate. lia. Qed.

Lemma template_pos_small s : length s ≤ MAX_TEMPLATE_SIZE → template_pos s = Ok (filled s, length s).
Proof. intros H. unfold template_pos. by rewrite (proj2 (Nat.leb_le _ _)). Qed.
Lemma template_pos_big s : MAX_TEMPLATE_SIZE < length s → template_pos s = Panic.
Proof. intros H. unfold template_pos. by rewrite (proj2 (Nat.leb_gt _ _)). Qed.

Lemma store_filled s b : length s ≤ MAX_TEMPLATE_SIZE →
  store (filled s) (length s) b = if length s <? MAX_TEMPLATE_SIZE then Ok (filled (s ++ [b])) else Panic.
Proof.
  intros H. unfold store. rewrite length_filled by done.
  destruct (Nat.ltb_spec (length s) MAX_TEMPLATE_SIZE); [|done]. f_equal. unfold filled.
  rewrite insert_app_r_alt, Nat.sub_diag by lia. rewrite length_app. cbn [length].
  replace (MAX_TEMPLATE_SIZE - length s) with (S (MAX_TEMPLATE_SIZE - (length s + 1))) by lia.
  cbn. by rewrite <-app_assoc.
Qed.

Lemma write_bytes_filled x s : length s ≤ MAX_TEMPLATE_SIZE →
  write_bytes (filled s) (length s) x = template_pos (s ++ x).
Proof.
  revert s. induction x as [|b x IH]; intros s H; cbn.
  - by rewrite app_nil_r, template_pos_small.
  - rewrite store_filled by done. destruct (Nat.ltb_spec (length s) MAX_TEMPLATE_SIZE); cbn.
    + replace (S (length s)) with (length (s ++ [b])) by (rewrite length_app; cbn; lia).
      rewrite IH by (rewrite length_app; cbn; lia). by rewrite <-app_assoc.
    + rewrite template_pos_big; [done|]. rewrite length_app. cbn. lia.
Qed.

(** Writing [y] behind [x] when [x] was to be written before *)
Lemma template_pos_bind s (f : str * nat → outcome (str * nat)) t :
  (length s ≤ MAX_TEMPLATE_SIZE → f (filled s, length s) = template_pos (s ++ t)) →
  template_pos s ≫= f = template_pos (s ++ t).
Proof.
  intros Hf. destruct (decide (length s ≤ MAX_TEMPLATE_SIZE)).
  - rewrite template_pos_small by done. cbn. by apply Hf.
  - rewrite !template_pos_big; [done|rewrite ?length_app; lia..].
Qed.

Lemma template_of_pos s : (r ← template_pos s; Ok r.1) = template s.
Proof. unfold template_pos, template. by case_match. Qed.

Lemma write_strs_filled strs s : length s ≤ MAX_TEMPLATE_SIZE →
  write_strs (filled s) (length s) strs = template_pos (s ++ concat strs).
Proof.
  revert s. induction strs as [|x strs IH]; intros s H; cbn.
  - by rewrite app_nil_r, template_pos_small.
  - rewrite write_bytes_filled, app_assoc by done. apply template_pos_bind. intros Hx. cbn.
    by apply IH.
Qed.

Lemma copy_body_filled s b l n : length s ≤ MAX_TEMPLATE_SIZE → n = length l → ∀ pre rest,
  b = pre ++ l ++ rest →
  copy_body (filled s) (length s) b (length pre) n = template_pos (s ++ l).
Proof.
  intros H ->. revert s H. induction l as [|c l IH]; intros s H pre rest ->; cbn.
  - by rewrite app_nil_r, template_pos_small.
  - rewrite list_lookup_middle by done. cbn. rewrite store_filled by done.
    destruct (Nat.ltb_spec (length s) MAX_TEMPLATE_SIZE); cbn.
    + replace (S (length s)) with (length (s ++ [c])) by (rewrite length_app; cbn; lia).
      replace (S (length pre)) with (length (pre ++ [c])) by (rewrite length_app; cbn; lia).
      rewrite (IH (s ++ [c])) with (rest := rest);
        [by rewrite <-app_assoc|rewrite length_app; cbn; lia|by rewrite <-app_assoc].
    + rewrite template_pos_big; [done|]. rewrite length_app. cbn. lia.
Qed.

(** The inputs that are not empty, each behind the separator but the first *)
Definition tail_separated (separator : str) (strs : list str) : str :=
  concat (map (app separator) (filter (.≠ []) strs)).
Definition separated (separator : str) (strs : list str) : str :=
  match filter (.≠ []) strs with
  | [] => []
  | x :: l => x ++ concat (map (app separator) l)
  end.

Lemma write_separated_tail sep strs s : length s ≤ MAX_TEMPLATE_SIZE →
  write_separated sep (filled s) (length s) true strs = template_pos (s ++ tail_separated sep strs).
Proof.
  revert s. induction strs as [|[|c x] strs IH]; intros s H.
  - cbn. by rewrite app_nil_r, template_pos_small.
  - cbn. by apply IH.
  - cbn [write_separated]. rewrite write_bytes_filled by done.
    replace (s ++ tail_separated sep ((c :: x) :: strs)) with
      ((s ++ sep) ++ (c :: x) ++ tail_separated sep strs)
      by (unfold tail_separated; rewrite filter_cons_True by done; cbn; by rewrite <-!app_assoc).
    apply template_pos_bind. intros H1. cbn [fst snd]. rewrite write_bytes_filled, app_assoc by done.
    apply template_pos_bind. intros H2. cbn [fst snd]. by apply IH.
Qed.

Lemma write_separated_start sep strs :
  write_separated sep zeroed 0 false strs = template_pos (separated sep strs).
Proof.
  rewrite zeroed_filled. change 0 with (length (@nil ascii)).
  induction strs as [|[|c x] strs IH].
  - symmetry. apply (template_pos_small []), Nat.le_0_l.
  - cbn. apply IH.
  - cbn [write_separated mbind outcome_bind fst snd].
    rewrite write_bytes_filled by (cbn; lia).
    replace (separated sep ((c :: x) :: strs)) with ((c :: x) ++ tail_separated sep strs)
      by (unfold separated; by rewrite filter_cons_True).
    apply template_pos_bind. intros H2. cbn [fst snd]. by apply write_separated_tail.
Qed.

Lemma until_nul_filled s : until_nul (filled s) =
  if bool_decide (nul ∈ s) then until_nul s
  else if length s <? MAX_TEMPLATE_SIZE then Some s else None.
Proof.
  unfold filled. assert (∀ n, until_nul (s ++ replicate n nul) =
    if bool_decide (nul ∈ s) then until_nul s else match n with 0 => None | S _ => Some s end) as ->.
  { intros n. induction s as [|c s IH]; [rewrite bool_decide_false by set_solver; by destruct n|].
    cbn. destruct (decide (c = nul)) as [Hc|Hc].
    - by rewrite bool_decide_true by (subst; left).
    - rewrite IH. rewrite (bool_decide_ext (nul ∈ c :: s) (nul ∈ s)); [|set_solver].
      case_bool_decide; [done|]. by destruct n. }
  destruct (Nat.ltb_spec (length s) MAX_TEMPLATE_SIZE) as [H|H].
  - by destruct (MAX_TEMPLATE_SIZE - length s) eqn:E; [lia|].
  - by replace (MAX_TEMPLATE_SIZE - length s) with 0 by lia.
Qed.

Lemma until_nul_split s : nul ∈ s → ∃ a b, until_nul s = Some a ∧ s = a ++ nul :: b ∧ nul ∉ a.
Proof.
  induction s as [|c s IH]; cbn; [set_solver|]. intros Hin. case_decide as Hc.
  - subst. exists [], s. set_solver.
  - destruct IH as (a & b & -> & -> & Ha); [set_solver|]. exists (c :: a), b. set_solver.
Qed.

Lemma until_nul_absent s : nul ∉ s → until_nul s = None.
Proof.
  induction s as [|c s IH]; cbn; intros Hs; [done|].
  rewrite decide_False by set_solver. by rewrite IH by set_solver.
Qed.

Lemma utf8_separated sep strs :
  Forall (λ s, utf8 s = true) strs → utf8 sep = true → utf8 (separated sep strs) = true.
Proof.
  intros Hs Hsep. unfold separated.
  assert (Forall (λ s, utf8 s = true) (filter (.≠ []) strs)) as Hf.
  { rewrite Forall_forall in *. intros x [_ Hx]%list_elem_of_filter. by apply Hs. }
  destruct Hf as [|x l Hx Hl]; [done|]. apply utf8_app; [done|].
  induction Hl as [|y l Hy Hl IH]; [done|]. cbn. auto using utf8_app.
Qed.

(** ** The three functions *)

Lemma write_strs_start strs : write_strs zeroed 0 strs = template_pos (concat strs).
Proof. rewrite zeroed_filled. apply (write_strs_filled strs []), Nat.le_0_l. Qed.

Lemma write_bytes_start x : write_bytes zeroed 0 x = template_pos x.
Proof. rewrite zeroed_filled. apply (write_bytes_filled x []), Nat.le_0_l. Qed.

(** The second buffer of the prefixed form *)
Lemma wrapped_body prefix body suffix rest :
  (r ← template_pos prefix;
   r ← copy_body r.1 r.2 (body ++ rest) 0 (length body);
   write_bytes r.1 r.2 suffix) = template_pos (prefix ++ body ++ suffix).
Proof.
  apply template_pos_bind. intros Hp. cbn [fst snd].
  pose proof (copy_body_filled prefix _ body _ Hp eq_refl [] rest eq_refl) as Hc.
  cbn [app length] in Hc. rewrite Hc, app_assoc.
  apply template_pos_bind. intros Hb. by apply write_bytes_filled.
Qed.

Lemma with_prefix_filled strs prefix suffix :
  const_concat_with_prefix strs prefix suffix =
    if decide (concat strs = []) then Ok zeroed else template (prefix ++ concat strs ++ suffix).
Proof.
  unfold const_concat_with_prefix. rewrite write_strs_start.
  destruct (decide (length (concat strs) ≤ MAX_TEMPLATE_SIZE)) as [Hl|Hl].
  - rewrite template_pos_small by done. cbn [mbind outcome_bind fst snd].
    case_decide as Hb; [rewrite Hb; cbn; by rewrite zeroed_filled|].
    destruct (Nat.eqb_spec (length (concat strs)) 0) as [H0|H0]; [by apply nil_length_inv in H0|].
    rewrite write_bytes_start, <-template_of_pos.
    rewrite <-(wrapped_body prefix (concat strs) suffix (replicate (MAX_TEMPLATE_SIZE - length (concat strs)) nul)).
    rewrite outcome_bind_assoc. destruct (template_pos prefix) as [r| |]; cbn; [|done..]. by rewrite outcome_bind_assoc.
  - rewrite template_pos_big by lia. cbn [mbind outcome_bind].
    rewrite decide_False by (intros E; rewrite E in Hl; cbn in Hl; lia).
    rewrite <-template_of_pos, template_pos_big; [done|]. rewrite !length_app. lia.
Qed.

(** * What the template buffers hold *)

(** C40: Each of the three functions writes exactly the bytes that it means to,
    followed by zeros up to [MAX_TEMPLATE_SIZE]: the inputs one after the
    other; the same between the prefix and the suffix, or nothing at all when
    all inputs are empty; the inputs that are not empty with the separator
    between two of them and nowhere else.  It panics exactly when these bytes
    (for the prefixed form, also the body alone) do not fit. *)
Theorem buffers_hold_their_parts (strs : list str) (prefix suffix separator : str) :
  const_concat strs = template (concat strs) ∧
  const_concat_with_prefix strs prefix suffix =
    (if decide (concat strs = []) then Ok zeroed else template (prefix ++ concat strs ++ suffix)) ∧
  const_concat_with_separator strs separator = template (separated separator strs).
Proof.
  split_and!.
  - unfold const_concat. rewrite write_strs_start. apply template_of_pos.
  - apply with_prefix_filled.
  - unfold const_concat_with_separator. rewrite write_separated_start. apply template_of_pos.
Qed.

(** Reading a separated buffer back gives its text up to the first NUL
    byte, when the inputs and the separator are UTF-8; in particular a text
    without NUL is read back whole.  Joined text that leaves no room for a
    terminating zero panics: a buffer that is exactly full is written and then
    not readable, unless the text itself holds a NUL. *)
Theorem separated_text_reads_back (strs : list str) (separator : str) :
  Forall (λ s, utf8 s = true) strs → utf8 separator = true →
  let text := separated separator strs in
  (b ← const_concat_with_separator strs separator; str_from_buffer b) =
    if bool_decide (length text < MAX_TEMPLATE_SIZE ∨ length text = MAX_TEMPLATE_SIZE ∧ nul ∈ text)
    then Ok (default text (until_nul text)) else Panic.
Proof.
  intros Hs Hsep text. unfold const_concat_with_separator. rewrite write_separated_start.
  rewrite template_of_pos. fold text.
  assert (utf8 text = true) as Hu by by apply utf8_separated. clearbody text.
  unfold template. destruct (Nat.leb_spec (length text) MAX_TEMPLATE_SIZE) as [Hl|Hl]; cbn.
  - unfold str_from_buffer. rewrite until_nul_filled. case_bool_decide as Hn.
    + destruct (until_nul_split text Hn) as (a & b & -> & Ht & Ha).
      rewrite Ht in Hu. apply (utf8_from_cut [] a nul b) in Hu as [Hu _]; [|done].
      unfold utf8. rewrite Hu. rewrite bool_decide_true; [done|]. destruct (decide (length text = MAX_TEMPLATE_SIZE)); [by right|left; lia].
    + rewrite until_nul_absent by done. destruct (Nat.ltb_spec (length text) MAX_TEMPLATE_SIZE).
      * rewrite Hu, bool_decide_true; [done|by left].
      * rewrite bool_decide_false; [done|]. intros [?|[??]]; [lia|done].
  - rewrite bool_decide_false; [done|]. intros [?|[??]]; lia.
Qed.

Lemma separated_text_reads_back_witness :
  (b ← const_concat_with_separator [lit "btn"; []; lit "btn-primary"] (lit " "); str_from_buffer b)
    = Ok (lit "btn btn-primary").
Proof.
  rewrite (separated_text_reads_back [lit "btn"; []; lit "btn-primary"] (lit " "));
    [vm_compute; reflexivity|repeat constructor|reflexivity].
Defined.
