(* ===== verification/Dom.v ===== *)
(** * The document

    [tachys/src/renderer/dom.rs] calls the browser's DOM through [web_sys],
    which is not part of this repository.  [Dom] names the operations that the
    views use, [DomLaws] states what the DOM standard says of them, and
    [gmap_Dom] is one concrete document, on which the views run. *)

From stdpp Require Import base gmap list strings sets relations.
From S2P Require Import Prelude RustStr.

Inductive node_kind :=
| NText (s : str)
| NComment
| NElement (tag : str).

(** [Rndr::create_*], [set_text], [insert_node] and [remove], with what a
    script can see of a document: the kinds, children and parents of nodes. *)
Class Dom (D : Type) := {
  dom_kind : D → nat → option node_kind;
  dom_children : D → nat → list nat;
  dom_parent : D → nat → option nat;
  dom_create : node_kind → D → nat * D;
  dom_set_text : nat → str → D → D;
  dom_insert_before : nat → nat → option nat → D → D;
  dom_remove : nat → D → D;
}.

(** Where [insertBefore] puts a node. *)
Fixpoint insert_in (anchor : option nat) (n : nat) (l : list nat) : list nat :=
  match l with
  | [] => [n]
  | x :: l => if decide (Some x = anchor) then n :: x :: l else x :: insert_in anchor n l
  end.

(** [a] is the parent of [b], or one of its further ancestors, or [b]. *)
Definition ancestor `{Dom D} (d : D) : nat → nat → Prop :=
  rtc (λ a b, dom_parent d b = Some a).

Definition is_element `{Dom D} (d : D) (p : nat) : Prop :=
  ∃ tag, dom_kind d p = Some (NElement tag).

(** The documented behaviour, for detached nodes where a node is inserted. *)
Class DomLaws (D : Type) `{Dom D} := {
  dom_ok : D → Prop;
  dom_children_parent d p n : dom_ok d → n ∈ dom_children d p ↔ dom_parent d n = Some p;
  dom_children_NoDup d p : dom_ok d → NoDup (dom_children d p);
  dom_parent_exists d p n : dom_ok d → dom_parent d n = Some p → dom_kind d p ≠ None ∧ dom_kind d n ≠ None;
  dom_create_spec k d : dom_ok d →
    let (n, d') := dom_create k d in
    dom_ok d' ∧ dom_kind d n = None ∧
    (∀ m, dom_kind d' m = if decide (m = n) then Some k else dom_kind d m) ∧
    (∀ m, dom_children d' m = dom_children d m) ∧
    (∀ m, dom_parent d' m = dom_parent d m);
  dom_set_text_spec n s s' d : dom_ok d → dom_kind d n = Some (NText s') →
    let d' := dom_set_text n s d in
    dom_ok d' ∧
    (∀ m, dom_kind d' m = if decide (m = n) then Some (NText s) else dom_kind d m) ∧
    (∀ m, dom_children d' m = dom_children d m) ∧
    (∀ m, dom_parent d' m = dom_parent d m);
  dom_insert_before_spec p n anchor d : dom_ok d →
    is_element d p → dom_kind d n ≠ None → dom_parent d n = None → ¬ ancestor d n p →
    (∀ a, anchor = Some a → dom_parent d a = Some p) →
    let d' := dom_insert_before p n anchor d in
    dom_ok d' ∧
    (∀ m, dom_kind d' m = dom_kind d m) ∧
    (∀ m, dom_children d' m = if decide (m = p) then insert_in anchor n (dom_children d p)
                              else dom_children d m) ∧
    (∀ m, dom_parent d' m = if decide (m = n) then Some p else dom_parent d m);
  dom_remove_spec n d : dom_ok d →
    let d' := dom_remove n d in
    dom_ok d' ∧
    (∀ m, dom_kind d' m = dom_kind d m) ∧
    (∀ m, dom_children d' m = List.filter (λ x, negb (x =? n)) (dom_children d m)) ∧
    (∀ m, dom_parent d' m = if decide (m = n) then None else dom_parent d m);
}.

(** ** A concrete document *)

Record document := mkDocument {
  doc_kinds : gmap nat node_kind;
  doc_children : gmap nat (list nat);
  doc_parents : gmap nat nat;
  doc_next : nat;
}.

Definition doc_children_of (d : document) (p : nat) : list nat := default [] (doc_children d !! p).

#[export] Instance gmap_Dom : Dom document := {|
  dom_kind d n := doc_kinds d !! n;
  dom_children := doc_children_of;
  dom_parent d n := doc_parents d !! n;
  dom_create k d :=
    (doc_next d, mkDocument (<[doc_next d := k]> (doc_kinds d)) (doc_children d) (doc_parents d)
                   (S (doc_next d)));
  dom_set_text n s d :=
    mkDocument (<[n := NText s]> (doc_kinds d)) (doc_children d) (doc_parents d) (doc_next d);
  dom_insert_before p n anchor d :=
    mkDocument (doc_kinds d) (<[p := insert_in anchor n (doc_children_of d p)]> (doc_children d))
      (<[n := p]> (doc_parents d)) (doc_next d);
  dom_remove n d :=
    mkDocument (doc_kinds d) (List.filter (λ x, negb (x =? n)) <$> doc_children d)
      (delete n (doc_parents d)) (doc_next d);
|}.

(** A document with one element, the root. *)
Definition empty_document : document :=
  mkDocument {[ 0 := NElement (lit "body") ]} ∅ ∅ 1.

Definition document_ok (d : document) : Prop :=
  (∀ p n, n ∈ doc_children_of d p ↔ doc_parents d !! n = Some p) ∧
  (∀ p, NoDup (doc_children_of d p)) ∧
  (∀ p n, doc_parents d !! n = Some p → doc_kinds d !! p ≠ None ∧ doc_kinds d !! n ≠ None) ∧
  (∀ n, doc_next d ≤ n → doc_kinds d !! n = None).

(** ** Lemmas *)

Lemma elem_of_insert_in a n l m : m ∈ insert_in a n l ↔ m = n ∨ m ∈ l.
Proof. induction l as [|x l IH]; cbn; [set_solver|]. case_decide; set_solver. Qed.

Lemma NoDup_insert_in a n l : n ∉ l → NoDup l → NoDup (insert_in a n l).
Proof.
  induction l as [|x l IH]; cbn; intros Hn Hd; [by repeat constructor; set_solver|].
  apply NoDup_cons in Hd as [Hx Hd]. case_decide.
  - by repeat constructor.
  - constructor; [|apply IH; set_solver]. rewrite elem_of_insert_in. set_solver.
Qed.

Lemma insert_in_None n l : insert_in None n l = l ++ [n].
Proof. induction l as [|x l IH]; cbn; [done|]. by rewrite IH. Qed.

Lemma insert_in_middle a n pre post :
  a ∉ pre → insert_in (Some a) n (pre ++ a :: post) = pre ++ n :: a :: post.
Proof.
  induction pre as [|x pre IH]; cbn; intros Ha; [by rewrite decide_True|].
  rewrite decide_False by set_solver. by rewrite IH by set_solver.
Qed.

Lemma filter_not_elem_of n l : n ∉ l → List.filter (λ x, negb (x =? n)) l = l.
Proof.
  induction l as [|x l IH]; cbn; [done|]. intros Hn.
  destruct (Nat.eqb_spec x n); [set_solver|]. cbn. by rewrite IH by set_solver.
Qed.

Lemma elem_of_List_filter {A} (f : A → bool) l x : x ∈ List.filter f l ↔ x ∈ l ∧ f x = true.
Proof. rewrite !list_elem_of_In. apply List.filter_In. Qed.

Lemma NoDup_List_filter {A} (f : A → bool) l : NoDup l → NoDup (List.filter f l).
Proof. rewrite !NoDup_ListNoDup. apply List.NoDup_filter. Qed.

(** ** The concrete document obeys the laws *)

Lemma doc_children_of_insert d p l m k pr nx :
  doc_children_of (mkDocument k (<[p := l]> (doc_children d)) pr nx) m =
    if decide (m = p) then l else doc_children_of d m.
Proof.
  unfold doc_children_of. cbn. case_decide; [subst; by rewrite lookup_insert_eq|].
  by rewrite lookup_insert_ne.
Qed.

Lemma doc_children_of_fmap d f m k pr nx : f [] = [] →
  doc_children_of (mkDocument k (f <$> doc_children d) pr nx) m = f (doc_children_of d m).
Proof. intros Hf. unfold doc_children_of. cbn. rewrite lookup_fmap. by destruct (_ !! m). Qed.

Lemma lookup_insert_decide {A} (g : gmap nat A) n x m :
  <[n := x]> g !! m = if decide (m = n) then Some x else g !! m.
Proof. case_decide; [subst; apply lookup_insert_eq|by apply lookup_insert_ne]. Qed.

#[export] Instance document_DomLaws : DomLaws document.
Proof.
  refine {| dom_ok := document_ok |}.
  - intros d p n (H & _). apply H.
  - intros d p (_ & H & _). apply H.
  - intros d p n (_ & _ & H & _). apply H.
  - intros k d (H1 & H2 & H3 & H4). cbn. split_and!; [|by apply H4| |done|done].
    + split_and!; [done|done| |]; cbn.
      * intros p n Hn. rewrite !lookup_insert_decide. destruct (H3 p n Hn).
        by repeat case_decide.
      * intros n Hn. rewrite lookup_insert_ne by lia. apply H4. lia.
    + intros m. apply lookup_insert_decide.
  - intros n s s' d (H1 & H2 & H3 & H4) Hn. cbn. split_and!; [|apply lookup_insert_decide|done|done].
    split_and!; [done|done| |]; cbn.
    + intros p m Hm. rewrite !lookup_insert_decide. destruct (H3 p m Hm). by repeat case_decide.
    + intros m Hm. rewrite lookup_insert_ne; [by apply H4|]. intros ->.
      cbn in Hn. rewrite H4 in Hn; [done|lia].
  - intros p n anchor d (H1 & H2 & H3 & H4) [tag Hp] Hn Hpn Ha Hanchor. cbn.
    split_and!; [|done|intros m; apply doc_children_of_insert|intros m; apply lookup_insert_decide].
    assert (∀ q, n ∉ doc_children_of d q) as Hq.
    { intros q Hq. apply H1 in Hq. cbn in Hpn. congruence. }
    split_and!; cbn; [| | |done].
    + intros q m. rewrite doc_children_of_insert, lookup_insert_decide.
      repeat case_decide; subst; rewrite ?elem_of_insert_in, ?H1; naive_solver.
    + intros q. rewrite doc_children_of_insert. case_decide; [|done]. by apply NoDup_insert_in.
    + intros q m. rewrite lookup_insert_decide. case_decide; [|apply H3]. intros [= <-].
      subst. cbn in Hp, Hn. by rewrite Hp.
  - intros n d (H1 & H2 & H3 & H4). cbn.
    assert (∀ m, doc_children_of (mkDocument (doc_kinds d)
      (List.filter (λ x, negb (x =? n)) <$> doc_children d) (delete n (doc_parents d)) (doc_next d)) m =
      List.filter (λ x, negb (x =? n)) (doc_children_of d m)) as Hc by (intros m; by apply doc_children_of_fmap).
    assert (∀ m, delete n (doc_parents d) !! m = if decide (m = n) then None else doc_parents d !! m) as Hp.
    { intros m. case_decide; [subst; apply lookup_delete_eq|by apply lookup_delete_ne]. }
    split_and!; [|done|done|done]. split_and!; cbn; [| | |done].
    + intros p m. rewrite Hc, Hp, elem_of_List_filter, H1.
      destruct (Nat.eqb_spec m n); case_decide; naive_solver.
    + intros p. rewrite Hc. by apply NoDup_List_filter.
    + intros p m. rewrite Hp. case_decide; [done|apply H3].
Defined.
