(* ===== verification/Views.v ===== *)
(** * Views

    Models the traits [Render] and [Mountable] of [tachys/src/view/mod.rs] and
    their implementations for strings ([strings.rs]), [()] and tuples
    ([tuples.rs]), [Either] ([either.rs]), [Option] and [Vec] ([iterators.rs])
    and HTML elements ([html/element/mod.rs], without their attributes), on any
    document that obeys the laws of [Dom].  The type of a view decides the type
    of its retained state: [view_type] has a code for every type that these
    implementations make, [view] and [state] are the two types. *)

From stdpp Require Import base list strings.
From S2P Require Import Prelude RustStr Dom.

(** [Render], and [Mountable] for its state.  The other view that
    [insert_before_this] is given occurs there only through its [mount]. *)
Class Render (D V S : Type) := {
  r_build : V → stateM D S;
  r_rebuild : V → S → stateM D S;
  r_unmount : S → stateM D unit;
  r_mount : S → nat → option nat → stateM D unit;
  r_insert_before_this : S → (nat → option nat → stateM D unit) → stateM D bool;
}.

Section nodes.
Context {D : Type} `{Dom D}.
Local Abbreviation M := (stateM D).

(** ** The renderer *)

Definition create_node (k : node_kind) : M nat := λ d, Ok (dom_create k d).
Definition create_text_node (text : str) : M nat := create_node (NText text).
Definition create_placeholder : M nat := create_node NComment.
Definition create_element (tag : str) : M nat := create_node (NElement tag).
Definition set_text (node : nat) (text : str) : M unit := modify (dom_set_text node text).
Definition insert_node (parent new_child : nat) (anchor : option nat) : M unit :=
  modify (dom_insert_before parent new_child anchor).
Definition remove (node : nat) : M unit := modify (dom_remove node).

(** [get_parent], cast to an [Element] *)
Definition parent_element (node : nat) : M (option nat) :=
  gets (λ d, match dom_parent d node with
             | Some p => match dom_kind d p with Some (NElement _) => Some p | _ => None end
             | None => None
             end).

(** [try_mount_before], of the [mount] of the new child *)
Definition try_mount_before (new_child : nat → option nat → M unit) (before : nat) : M bool :=
  p ← parent_element before;
  match p with
  | Some parent => _ ← new_child parent (Some before); mret true
  | None => mret false
  end.

(** [Mountable] for [Text], [Comment] and [Element] *)
Definition node_unmount (node : nat) : M unit := remove node.
Definition node_mount (node : nat) (parent : nat) (marker : option nat) : M unit :=
  insert_node parent node marker.
Definition node_insert_before_this (node : nat) (child : nat → option nat → M unit) : M bool :=
  p ← parent_element node;
  match p with
  | Some parent => _ ← child parent (Some node); mret true
  | None => mret false
  end.

(** ** Strings *)

Record StrState := mkStrState {
  ss_node : nat;
  ss_str : str;
}.

Definition str_build (s : str) : M StrState :=
  node ← create_text_node s; mret (mkStrState node s).
Definition str_rebuild (s : str) (state : StrState) : M StrState :=
  if decide (s = ss_str state) then mret state
  else _ ← set_text (ss_node state) s; mret (mkStrState (ss_node state) s).

#[export] Instance str_Render : Render D str StrState := {|
  r_build := str_build;
  r_rebuild := str_rebuild;
  r_unmount st := node_unmount (ss_node st);
  r_mount st parent marker := insert_node parent (ss_node st) marker;
  r_insert_before_this st := node_insert_before_this (ss_node st);
|}.

(** ** [()] and tuples *)

Definition unit_build : M nat := create_placeholder.
Definition unit_rebuild (state : nat) : M nat := mret state.

#[export] Instance unit_Render : Render D unit nat := {|
  r_build _ := unit_build;
  r_rebuild _ := unit_rebuild;
  r_unmount := node_unmount;
  r_mount := node_mount;
  r_insert_before_this := node_insert_before_this;
|}.

Section tuple.
Context {A SA B SB : Type} `{Render D A SA, Render D B SB}.

(** The macro's tuples build, rebuild, mount and unmount their fields in order;
    a tuple of more than two fields is a pair of its first one and the rest. *)
Definition tuple_build (v : A * B) : M (SA * SB) :=
  first ← r_build v.1; ty ← r_build v.2; mret (first, ty).
Definition tuple_rebuild (v : A * B) (state : SA * SB) : M (SA * SB) :=
  view_first ← r_rebuild v.1 state.1;
  view_ty ← r_rebuild v.2 state.2;
  mret (view_first, view_ty).
Definition tuple_unmount (state : SA * SB) : M unit :=
  _ ← r_unmount state.1; r_unmount state.2.
Definition tuple_mount (state : SA * SB) (parent : nat) (marker : option nat) : M unit :=
  _ ← r_mount state.1 parent marker; r_mount state.2 parent marker.
Definition tuple_insert_before_this (state : SA * SB) (child : nat → option nat → M unit) : M bool :=
  b ← r_insert_before_this state.1 child;
  if (b : bool) then mret true else r_insert_before_this state.2 child.

#[export] Instance tuple_Render : Render D (A * B) (SA * SB) := {|
  r_build := tuple_build;
  r_rebuild := tuple_rebuild;
  r_unmount := tuple_unmount;
  r_mount := tuple_mount;
  r_insert_before_this := tuple_insert_before_this;
|}.

(** ** [Either] *)

Definition either_build (v : A + B) : M (SA + SB) :=
  match v with
  | inl l => s ← r_build l; mret (inl s)
  | inr r => s ← r_build r; mret (inr s)
  end.
Definition either_rebuild (v : A + B) (state : SA + SB) : M (SA + SB) :=
  match v, state with
  | inl new, inl old => s ← r_rebuild new old; mret (inl s)
  | inr new, inr old => s ← r_rebuild new old; mret (inr s)
  | inr new, inl old =>
      new_state ← r_build new;
      _ ← r_insert_before_this old (r_mount new_state);
      _ ← r_unmount old;
      mret (inr new_state)
  | inl new, inr old =>
      new_state ← r_build new;
      _ ← r_insert_before_this old (r_mount new_state);
      _ ← r_unmount old;
      mret (inl new_state)
  end.
Definition either_unmount (state : SA + SB) : M unit :=
  match state with inl l => r_unmount l | inr r => r_unmount r end.
Definition either_mount (state : SA + SB) (parent : nat) (marker : option nat) : M unit :=
  match state with
  | inl l => r_mount l parent marker
  | inr r => r_mount r parent marker
  end.
Definition either_insert_before_this (state : SA + SB) (child : nat → option nat → M unit) : M bool :=
  match state with
  | inl l => r_insert_before_this l child
  | inr r => r_insert_before_this r child
  end.

#[export] Instance either_Render : Render D (A + B) (SA + SB) := {|
  r_build := either_build;
  r_rebuild := either_rebuild;
  r_unmount := either_unmount;
  r_mount := either_mount;
  r_insert_before_this := either_insert_before_this;
|}.
End tuple.

(** ** [Option] and [Vec] *)

Section iterators.
Context {A SA : Type} `{Render D A SA}.

Definition option_to_either (v : option A) : A + unit :=
  match v with Some value => inl value | None => inr tt end.
Definition option_build (v : option A) : M (SA + nat) := r_build (option_to_either v).
Definition option_rebuild (v : option A) (state : SA + nat) : M (SA + nat) :=
  r_rebuild (option_to_either v) state.

#[export] Instance option_Render : Render D (option A) (SA + nat) := {|
  r_build := option_build;
  r_rebuild := option_rebuild;
  r_unmount := r_unmount (V := A + unit);
  r_mount := r_mount (V := A + unit);
  r_insert_before_this := r_insert_before_this (V := A + unit);
|}.

Record VecState := mkVecState {
  vs_states : list SA;
  vs_marker : nat;
}.

(** [into_iter().map(T::build).collect()] *)
Fixpoint build_all (l : list A) : M (list SA) :=
  match l with
  | [] => mret []
  | v :: l => s ← r_build v; states ← build_all l; mret (s :: states)
  end.

Definition vec_build (v : list A) : M VecState :=
  marker ← create_placeholder;
  states ← build_all v;
  mret (mkVecState states marker).

(** [itertools::zip_longest] *)
Inductive EitherOrBoth :=
| Both (new : A) (old : SA)
| OnlyNew (new : A)
| OnlyOld (old : SA).
Fixpoint zip_longest (new : list A) (old : list SA) : list EitherOrBoth :=
  match new, old with
  | n :: new, o :: old => Both n o :: zip_longest new old
  | new, [] => map OnlyNew new
  | [], old => map OnlyOld old
  end.

(** The loop of the unkeyed diff: the old states afterwards, the states to add
    and the number of states to remove at the end. *)
Fixpoint vec_diff_loop (marker : nat) (items : list EitherOrBoth) : M (list SA * list SA * nat) :=
  match items with
  | [] => mret ([], [], 0)
  | Both new old :: items =>
      old ← r_rebuild new old;
      r ← vec_diff_loop marker items;
      mret (old :: r.1.1, r.1.2, r.2)
  | OnlyNew new :: items =>
      new_state ← r_build new;
      _ ← try_mount_before (r_mount new_state) marker;
      r ← vec_diff_loop marker items;
      mret (r.1.1, new_state :: r.1.2, r.2)
  | OnlyOld old :: items =>
      _ ← r_unmount old;
      r ← vec_diff_loop marker items;
      mret (old :: r.1.1, r.1.2, S r.2)
  end.

Definition vec_rebuild (v : list A) (state : VecState) : M VecState :=
  let old := vs_states state in
  let marker := vs_marker state in
  match old, v with
  | [], _ =>
      new ← vec_build v;
      _ ← for_each (λ item, _ ← try_mount_before (r_mount item) marker; mret tt) (vs_states new);
      mret (mkVecState (vs_states new) marker)
  | _, [] =>
      _ ← for_each r_unmount old;
      mret (mkVecState [] marker)
  | _, _ =>
      r ← vec_diff_loop marker (zip_longest v old);
      let '(old, adds, removes_at_end) := r in
      mret (mkVecState (take (length old - removes_at_end) old ++ adds) marker)
  end.

Definition vec_unmount (state : VecState) : M unit :=
  _ ← for_each r_unmount (vs_states state); node_unmount (vs_marker state).
Definition vec_mount (state : VecState) (parent : nat) (marker : option nat) : M unit :=
  _ ← for_each (λ s, r_mount s parent marker) (vs_states state);
  node_mount (vs_marker state) parent marker.
Definition vec_insert_before_this (state : VecState) (child : nat → option nat → M unit) : M bool :=
  b ← any_of (λ s, r_insert_before_this s child) (vs_states state);
  if (b : bool) then mret true else node_insert_before_this (vs_marker state) child.

#[export] Instance vec_Render : Render D (list A) VecState := {|
  r_build := vec_build;
  r_rebuild := vec_rebuild;
  r_unmount := vec_unmount;
  r_mount := vec_mount;
  r_insert_before_this := vec_insert_before_this;
|}.

(** ** HTML elements

    [tag] and [self_closing] are the constants of the [ElementType]; it is one
    with a constant tag, so that a rebuild never changes it. *)

Record ElementState := mkElementState {
  es_el : nat;
  es_children : option SA;
}.

Definition element_build (tag : str) (self_closing : bool) (children : A) : M ElementState :=
  el ← create_element tag;
  children ← (if self_closing then mret None
              else children ← r_build children;
                   _ ← r_mount children el None;
                   mret (Some children));
  mret (mkElementState el children).
Definition element_rebuild (new : A) (state : ElementState) : M ElementState :=
  match es_children state with
  | Some children =>
      children ← r_rebuild new children; mret (mkElementState (es_el state) (Some children))
  | None => mret state
  end.

Definition element_Render (tag : str) (self_closing : bool) : Render D A ElementState := {|
  r_build := element_build tag self_closing;
  r_rebuild := element_rebuild;
  r_unmount st := remove (es_el st);
  r_mount st parent marker := insert_node parent (es_el st) marker;
  r_insert_before_this st := node_insert_before_this (es_el st);
|}.
End iterators.
End nodes.

Arguments VecState : clear implicits.
Arguments ElementState : clear implicits.
Arguments mkVecState {_} _ _.
Arguments mkElementState {_} _ _.

(** ** All types of views *)

(** The constants of an [ElementType] *)
Record element_type := mkElementType {
  TAG : str;
  SELF_CLOSING : bool;
  ESCAPE_CHILDREN : bool;
  HYDRATES_CHILDREN : bool;
}.

Inductive view_type :=
| TString
| TUnit
| TTuple (a b : view_type)
| TEither (a b : view_type)
| TOption (a : view_type)
| TVec (a : view_type)
| TElement (e : element_type) (children : view_type).

Fixpoint view (t : view_type) : Type :=
  match t with
  | TString => str
  | TUnit => unit
  | TTuple a b => view a * view b
  | TEither a b => view a + view b
  | TOption a => option (view a)
  | TVec a => list (view a)
  | TElement _ children => view children
  end.

(** [Render::State] *)
Fixpoint state (t : view_type) : Type :=
  match t with
  | TString => StrState
  | TUnit => nat
  | TTuple a b => state a * state b
  | TEither a b => state a + state b
  | TOption a => state a + nat
  | TVec a => VecState (state a)
  | TElement _ children => ElementState (state children)
  end.

Fixpoint view_Render {D} `{Dom D} (t : view_type) : Render D (view t) (state t) :=
  match t with
  | TString => str_Render
  | TUnit => unit_Render
  | TTuple a b => @tuple_Render D _ _ _ _ (view_Render a) (view_Render b)
  | TEither a b => @either_Render D _ _ _ _ (view_Render a) (view_Render b)
  | TOption a => @option_Render D _ _ _ (view_Render a)
  | TVec a => @vec_Render D _ _ _ (view_Render a)
  | TElement e a => @element_Render D _ _ _ (view_Render a) (TAG e) (SELF_CLOSING e)
  end.
