(* ===== verification/ViewSpec.v ===== *)
(** * What a view promises

    The retained state of a view owns nodes of the document: its top nodes
    stand side by side among the children of an element, or nowhere; the others
    are below them.  [ViewLaws] states what building, mounting, rebuilding and
    unmounting do to the document in these terms, [shape] what a view looks
    like.  The predicates on computations ([mounts], [unmounts], [inserts],
    [replaces]) compose along sequences of siblings. *)

From stdpp Require Import base list strings sets relations.
From S2P Require Import Prelude RustStr Dom Views.

(** What a view looks like: a list of trees. *)
Inductive shape_node :=
| ShText (s : str)
| ShComment
| ShElement (tag : str) (children : list shape_node).

(** A place for siblings: the children [pre] and [post] of an element before
    and after it, or nowhere. *)
Abbreviation place := (option (nat * list nat * list nat)).

Definition place_parent (l : place) : option nat := (λ x, x.1.1) <$> l.
(** The place of what stands before [ns], and of what stands behind them *)
Definition place_before (ns : list nat) (l : place) : place :=
  (λ x, (x.1.1, x.1.2, ns ++ x.2)) <$> l.
Definition place_after (ns : list nat) (l : place) : place :=
  (λ x, (x.1.1, x.1.2 ++ ns, x.2)) <$> l.

Section spec.
Context {D : Type} `{DomLaws D}.
Local Abbreviation M := (stateM D).

(** The nodes [ns] stand at [l]. *)
Definition located (d : D) (l : place) (ns : list nat) : Prop :=
  match l with
  | Some (p, pre, post) => is_element d p ∧ dom_children d p = pre ++ ns ++ post
  | None => ∀ n, n ∈ ns → dom_parent d n = None
  end.

(** The document shows a tree at a node. *)
Fixpoint shows (d : D) (n : nat) (x : shape_node) {struct x} : Prop :=
  match x with
  | ShText s => dom_kind d n = Some (NText s)
  | ShComment => dom_kind d n = Some NComment
  | ShElement tag xs =>
      dom_kind d n = Some (NElement tag) ∧
      (fix go ns xs {struct xs} := match ns, xs with
                       | [], [] => True
                       | n :: ns, x :: xs => shows d n x ∧ go ns xs
                       | _, _ => False
                       end) (dom_children d n) xs
  end.
Definition shows_all (d : D) : list nat → list shape_node → Prop := Forall2 (shows d).

(** Nodes that are not in [X] keep what they are and where they are; [p] may
    get other children. *)
Definition kept (X : list nat) (p : option nat) (d d' : D) : Prop :=
  ∀ n, dom_kind d n ≠ None → n ∉ X →
    dom_kind d' n = dom_kind d n ∧ dom_parent d' n = dom_parent d n ∧
    (p ≠ Some n → dom_children d' n = dom_children d n).

(** Only the parents of the nodes in [X] and the children of [p] change. *)
Definition moved (X : list nat) (p : option nat) (d d' : D) : Prop :=
  (∀ n, dom_kind d' n = dom_kind d n) ∧
  (∀ n, n ∉ X → dom_parent d' n = dom_parent d n) ∧
  (∀ n, p ≠ Some n → dom_children d' n = dom_children d n).

Definition exist (d : D) (X : list nat) : Prop := ∀ n, n ∈ X → dom_kind d n ≠ None.
Definition closed (d : D) (X : list nat) : Prop :=
  ∀ n m, n ∈ X → m ∈ dom_children d n → m ∈ X.
Definition outside (X : list nat) (l : place) : Prop := ∀ p, place_parent l = Some p → p ∉ X.

(** A marker among the children of [p], between [pre] and [post] *)
Definition at_marker (d : D) (p : nat) (marker : option nat) (pre post : list nat) : Prop :=
  is_element d p ∧ dom_children d p = pre ++ post ∧ marker = head post.

(** [c] mounts the nodes [ns], below which there is nothing but [X]. *)
Definition mounts (c : nat → option nat → M unit) (ns : list nat) : Prop :=
  ∀ d X p marker pre post,
    dom_ok d → closed d X → ns ⊆ X → exist d ns → NoDup ns → located d None ns → p ∉ X →
    at_marker d p marker pre post →
    ∃ d', c p marker d = Ok (tt, d') ∧ dom_ok d' ∧ moved ns (Some p) d d' ∧
      dom_children d' p = pre ++ ns ++ post.

(** [c] unmounts them. *)
Definition unmounts (c : M unit) (ns : list nat) : Prop :=
  ∀ d l, dom_ok d → located d l ns →
    ∃ d', c d = Ok (tt, d') ∧ dom_ok d' ∧ moved ns (place_parent l) d d' ∧
      located d' None ns ∧ located d' l [].

(** [c] inserts another view before them. *)
Definition inserts (c : (nat → option nat → M unit) → M bool) (ns : list nat) : Prop :=
  ∀ f d l, dom_ok d → located d l ns →
    c f d = match l with
            | Some (p, _, _) =>
                match ns with
                | [] => Ok (false, d)
                | n :: _ => (_ ← f p (Some n); mret true) d
                end
            | None => Ok (false, d)
            end.

(** The nodes [ns], which own [X], give way to [ns'], which own [X']. *)
Record replaces (d d' : D) (l : place) (X ns X' ns' : list nat) : Prop := mk_replaces {
  rep_ok : dom_ok d';
  rep_nodup : NoDup X';
  rep_sub : ns' ⊆ X';
  rep_fresh : ∀ n, n ∈ X' → n ∈ X ∨ dom_kind d n = None;
  rep_exist : exist d' X';
  rep_located : located d' l ns';
  rep_kept : kept X (place_parent l) d d';
}.

(** ** Locations *)

Lemma located_app d l ns1 ns2 :
  located d l (ns1 ++ ns2) ↔
  located d (place_before ns2 l) ns1 ∧ located d (place_after ns1 l) ns2.
Proof.
  destruct l as [[[p pre] post]|]; cbn; [|set_solver]. rewrite <-!app_assoc. tauto.
Qed.

Lemma located_swap d l ns1 ns2 :
  located d (place_before ns2 l) ns1 → l ≠ None → located d (place_after ns1 l) ns2.
Proof. destruct l as [[[p pre] post]|]; cbn; [|done]. by rewrite <-app_assoc. Qed.

Lemma located_parent d l ns n : dom_ok d → located d l ns → n ∈ ns → dom_parent d n = place_parent l.
Proof.
  intros Hd Hl Hn. destruct l as [[[p pre] post]|]; cbn in *; [|by apply Hl].
  apply dom_children_parent; [done|]. destruct Hl as [_ ->]. set_solver.
Qed.

Lemma located_NoDup d p pre post ns : dom_ok d → located d (Some (p, pre, post)) ns → NoDup ns.
Proof.
  intros Hd [_ Hc]. pose proof (dom_children_NoDup d p Hd) as Hn. rewrite Hc in Hn.
  apply NoDup_app in Hn as (_ & _ & Hn). by apply NoDup_app in Hn as [? _].
Qed.

Lemma kept_element X p d d' q : kept X p d d' → is_element d q → q ∉ X → is_element d' q.
Proof. intros Hk [tag Hq] Hx. exists tag. rewrite (proj1 (Hk q ltac:(congruence) Hx)). done. Qed.

Lemma moved_element X p d d' q : moved X p d d' → is_element d q → is_element d' q.
Proof. intros [Hk _] [tag Hq]. exists tag. by rewrite Hk. Qed.

Lemma located_kept X q d d' l ns :
  kept X q d d' → located d l ns → exist d ns → outside X l → (∀ n, n ∈ ns → n ∉ X) →
  (∀ p, place_parent l = Some p → q ≠ Some p) → located d' l ns.
Proof.
  intros Hk Hl He Ho Hx Hq. destruct l as [[[p pre] post]|]; cbn in *.
  - destruct Hl as [[tag Hp] Hc]. specialize (Ho p eq_refl). specialize (Hq p eq_refl).
    destruct (Hk p ltac:(congruence) Ho) as (Hk1 & _ & Hk2). split; [exists tag; congruence|].
    rewrite Hk2; [done|congruence].
  - intros n Hn. destruct (Hk n (He n Hn) (Hx n Hn)) as (_ & -> & _). by apply Hl.
Qed.

Lemma moved_kept X p d d' : moved X p d d' → kept X p d d'.
Proof. intros (H1 & H2 & H3) n _ Hn. auto. Qed.

Lemma kept_refl X p d : kept X p d d.
Proof. done. Qed.

Lemma kept_trans X Y Z p d d1 d2 :
  kept X p d d1 → kept Y p d1 d2 → X ⊆ Z → (∀ n, n ∈ Y → n ∈ Z ∨ dom_kind d n = None) →
  kept Z p d d2.
Proof.
  intros H1 H2 HX HY n Hn Hz. destruct (H1 n Hn) as (K1 & K2 & K3); [set_solver|].
  destruct (H2 n) as (L1 & L2 & L3); [congruence|intros Hy; destruct (HY n Hy); done|].
  split_and!; [congruence|congruence|]. intros Hp. by rewrite L3, K3.
Qed.

Lemma kept_None X p d d' : kept X None d d' → kept X p d d'.
Proof. intros Hk n Hn Hx. destruct (Hk n Hn Hx) as (? & ? & Hc). split_and!; [done..|]. intros _. by apply Hc. Qed.

Lemma kept_weaken X Y p d d' : kept X p d d' → X ⊆ Y → kept Y p d d'.
Proof. intros Hk Hs n Hn Hy. apply Hk; set_solver. Qed.

Lemma moved_trans X Y p d d1 d2 : moved X p d d1 → moved Y p d1 d2 → moved (X ++ Y) p d d2.
Proof.
  intros (A1 & A2 & A3) (B1 & B2 & B3). split_and!.
  - intros n. by rewrite B1.
  - intros n Hn. rewrite B2, A2 by set_solver. done.
  - intros n Hn. by rewrite B3, A3.
Qed.

Lemma exist_moved X p d d' Y : moved X p d d' → exist d Y → exist d' Y.
Proof. intros [Hk _] He n Hn. rewrite Hk. by apply He. Qed.

Lemma closed_moved X p d d' Y : moved X (Some p) d d' → p ∉ Y → closed d Y → closed d' Y.
Proof.
  intros (_ & _ & Hc) Hp HY n m Hn Hm. rewrite Hc in Hm by (intros [= ->]; done). by apply (HY n m).
Qed.

(** Below the nodes of a closed set there are only its own. *)
Lemma closed_ancestor d X n p : dom_ok d → closed d X → n ∈ X → p ∉ X → ¬ ancestor d n p.
Proof.
  intros Hd Hc Hn Hp Ha. apply Hp. clear Hp. induction Ha as [x|x y z Hxy _ IH]; [done|].
  apply IH. apply (Hc x); [done|]. by apply dom_children_parent.
Qed.

(** ** Single nodes *)

Lemma insert_in_head n pre post : NoDup (pre ++ post) → insert_in (head post) n (pre ++ post) = pre ++ n :: post.
Proof.
  destruct post as [|a post]; cbn; intros Hn; [by rewrite app_nil_r, insert_in_None|].
  apply insert_in_middle. apply NoDup_app in Hn as (_ & Hn & _). set_solver.
Qed.

Lemma node_mounts n : mounts (node_mount n) [n].
Proof.
  intros d X p marker pre post Hd Hc Hs He _ Hl Hp (Hel & Hch & ->).
  destruct (dom_insert_before_spec p n (head post) d) as (Hd' & Hk & Hch' & Hpar); [done|done|apply He; set_solver|apply Hl; set_solver| | |].
  - apply (closed_ancestor d X); [done|done|set_solver|done].
  - intros a Ha. apply dom_children_parent; [done|]. rewrite Hch. destruct post; [done|].
    injection Ha as <-. set_solver.
  - eexists. split; [reflexivity|]. split; [done|]. split; [split_and!; [done| |]|].
    + intros m Hm. rewrite Hpar, decide_False by set_solver. done.
    + intros m Hm. rewrite Hch', decide_False by congruence. done.
    + rewrite Hch', decide_True, Hch, insert_in_head by
        (done || (rewrite <-Hch; by apply dom_children_NoDup)). done.
Qed.

Lemma node_unmounts n : unmounts (node_unmount n) [n].
Proof.
  intros d l Hd Hl. destruct (dom_remove_spec n d Hd) as (Hd' & Hk & Hch & Hpar).
  pose proof (located_parent d l [n] n Hd Hl ltac:(set_solver)) as Hn.
  assert (∀ m, place_parent l ≠ Some m → dom_children (dom_remove n d) m = dom_children d m) as Hother.
  { intros m Hm. rewrite Hch. apply filter_not_elem_of. rewrite dom_children_parent by done. congruence. }
  eexists. split; [reflexivity|]. split_and!; [done|split_and!; [done| |done]| |].
  - intros m Hm. rewrite Hpar, decide_False by set_solver. done.
  - intros m Hm. assert (m = n) as -> by set_solver. by rewrite Hpar, decide_True.
  - destruct l as [[[p pre] post]|]; cbn in *; [|set_solver]. destruct Hl as [[tag Hel] Hc].
    split; [exists tag; by rewrite Hk|]. rewrite Hch, Hc.
    pose proof (dom_children_NoDup d p Hd) as Hnd. rewrite Hc in Hnd.
    apply NoDup_app in Hnd as (_ & Hpre & [Hpost _]%NoDup_cons).
    rewrite List.filter_app. cbn. rewrite Nat.eqb_refl. cbn.
    rewrite !filter_not_elem_of by set_solver. done.
Qed.

Lemma parent_element_located d l n ns : dom_ok d → located d l ns → n ∈ ns →
  parent_element n d = Ok (place_parent l, d).
Proof.
  intros Hd Hl Hn. unfold parent_element, gets. rewrite (located_parent d l ns n) by done.
  destruct l as [[[p pre] post]|]; [|done]. cbn. destruct Hl as [[tag Hel] _]. by rewrite Hel.
Qed.

Lemma node_inserts n : inserts (node_insert_before_this n) [n].
Proof.
  intros f d l Hd Hl. unfold node_insert_before_this, mbind, stateM_bind.
  rewrite (parent_element_located d l n [n]) by (done || set_solver).
  by destruct l as [[[p pre] post]|].
Qed.

(** ** Sequences of siblings *)

Lemma mounts_nil : mounts (λ _ _, mret tt) [].
Proof.
  intros d X p marker pre post Hd _ _ _ _ _ _ (_ & Hc & _). exists d. split_and!; [done|done|by split_and!|done].
Qed.

Lemma mounts_app c1 c2 ns1 ns2 : mounts c1 ns1 → mounts c2 ns2 →
  mounts (λ p m, _ ← c1 p m; c2 p m) (ns1 ++ ns2).
Proof.
  intros H1 H2 d X p marker pre post Hd HX Hs He Hn Hl Hp Hm.
  apply NoDup_app in Hn as (Hn1 & Hn12 & Hn2).
  destruct (H1 d X p marker pre post) as (d1 & E1 & Hd1 & Hm1 & Hc1);
    [done|done|set_solver|intros n ?; apply He; set_solver|done|intros n ?; apply Hl; set_solver|done|done|].
  destruct (H2 d1 X p marker (pre ++ ns1) post) as (d2 & E2 & Hd2 & Hm2 & Hc2);
    [done|by eapply closed_moved|set_solver|eapply exist_moved; [done|]; intros n ?; apply He; set_solver
    |done| |done| |].
  - intros n Hn. destruct Hm1 as (_ & -> & _); [apply Hl; set_solver|set_solver].
  - destruct Hm as (Hel & _ & ->). split_and!; [by eapply moved_element|by rewrite Hc1, app_assoc|done].
  - exists d2. rewrite (bind_Ok _ _ _ _ _ E1). split_and!; [done|done|by eapply moved_trans|].
    by rewrite Hc2, <-!app_assoc.
Qed.

Lemma unmounts_nil : unmounts (mret tt) [].
Proof. intros d l Hd Hl. exists d. split_and!; [done|done|by split_and!|cbn; set_solver|done]. Qed.

Lemma unmounts_app c1 c2 ns1 ns2 : unmounts c1 ns1 → unmounts c2 ns2 →
  unmounts (_ ← c1; c2) (ns1 ++ ns2).
Proof.
  intros H1 H2 d l Hd Hl. apply located_app in Hl as [Hl1 Hl2].
  destruct (H1 d _ Hd Hl1) as (d1 & E1 & Hd1 & Hm1 & Hn1 & Hp1).
  assert (located d1 l ns2) as Hl2'.
  { destruct l as [[[p pre] post]|]; cbn in *; [done|]. intros n Hn.
    destruct (decide (n ∈ ns1)); [by apply Hn1|]. destruct Hm1 as (_ & -> & _); [by apply Hl2|done]. }
  destruct (H2 d1 l Hd1 Hl2') as (d2 & E2 & Hd2 & Hm2 & Hn2 & Hp2).
  exists d2. rewrite (bind_Ok _ _ _ _ _ E1).
  assert (place_parent (place_before ns2 l) = place_parent l) as Hpp by by destruct l as [[[??]?]|].
  rewrite Hpp in Hm1. split_and!; [done|done|by eapply moved_trans| |done].
  intros n Hn. destruct (decide (n ∈ ns2)); [by apply Hn2|].
  destruct Hm2 as (_ & -> & _); [apply Hn1; set_solver|done].
Qed.

Lemma inserts_nil : inserts (λ _, mret false) [].
Proof. intros f d [[[p pre] post]|] Hd Hl; done. Qed.

Lemma inserts_app c1 c2 ns1 ns2 : inserts c1 ns1 → inserts c2 ns2 →
  inserts (λ f, b ← c1 f; if (b : bool) then mret true else c2 f) (ns1 ++ ns2).
Proof.
  intros H1 H2 f d l Hd Hl. apply located_app in Hl as [Hl1 Hl2].
  unfold mbind, stateM_bind. rewrite (H1 f d _ Hd Hl1).
  destruct l as [[[p pre] post]|]; cbn in *; [|by apply (H2 f d None)].
  destruct ns1 as [|n ns1]; cbn.
  - by rewrite (H2 f d (Some (p, pre ++ [], post)) Hd Hl2).
  - unfold mbind, stateM_bind. by destruct (f p (Some n) d) as [[[] d']| |].
Qed.

(** Two neighbours are replaced one after the other. *)
Lemma replaces_app d d1 d2 l X1 ns1 X1' ns1' X2 ns2 X2' ns2' :
  dom_ok d → located d l (ns1 ++ ns2) → exist d (X1 ++ X2) → NoDup (X1 ++ X2) →
  ns1 ⊆ X1 → ns2 ⊆ X2 → outside (X1 ++ X2) l →
  replaces d d1 (place_before ns2 l) X1 ns1 X1' ns1' →
  replaces d1 d2 (place_after ns1' l) X2 ns2 X2' ns2' →
  replaces d d2 l (X1 ++ X2) (ns1 ++ ns2) (X1' ++ X2') (ns1' ++ ns2').
Proof.
  intros Hd Hl He Hn Hs1 Hs2 Ho [A1 A2 A3 A4 A5 A6 A7] [B1 B2 B3 B4 B5 B6 B7].
  apply NoDup_app in Hn as (_ & Hn12 & _).
  assert (place_parent (place_before ns2 l) = place_parent l) as Hp1 by by destruct l as [[[??]?]|].
  assert (place_parent (place_after ns1' l) = place_parent l) as Hp2 by by destruct l as [[[??]?]|].
  rewrite Hp1 in A7. rewrite Hp2 in B7.
  assert (∀ n, n ∈ X1' → n ∉ X2) as Hd1.
  { intros n Hn Hn2. destruct (A4 n Hn); [by apply (Hn12 n)|]. by apply (He n); [set_solver|]. }
  assert (∀ n, n ∈ X2' → n ∈ X2 ∨ dom_kind d1 n = None ∧ dom_kind d n = None ∨ dom_kind d1 n = None ∧ n ∈ X1) as Hf2.
  { intros n Hn. destruct (B4 n Hn) as [|Hk]; [by left|]. right.
    destruct (decide (n ∈ X1)); [by right|left]. split; [done|].
    destruct (dom_kind d n) eqn:E; [|done]. destruct (A7 n) as [A _]; congruence. }
  split.
  - done.
  - apply NoDup_app. split_and!; [done| |done]. intros n Hn Hn'.
    destruct (B4 n Hn') as [Hx|Hx]; [by apply (Hd1 n)|]. by apply (A5 n).
  - set_solver.
  - intros n [Hn|Hn]%elem_of_app; [destruct (A4 n Hn); set_solver|].
    destruct (Hf2 n Hn) as [?|[[_ ?]|[_ ?]]]; set_solver.
  - intros n [Hn|Hn]%elem_of_app; [|by apply B5].
    destruct (B7 n (A5 n Hn) (Hd1 n Hn)) as [-> _]. by apply A5.
  - apply located_app. destruct l as [[[p pre] post]|]; cbn in *.
    + destruct B6 as [? Hc]. split; split; [done| |done|done]. rewrite Hc. by rewrite <-!app_assoc.
    + split; [|done]. intros n Hn. destruct (B7 n) as (_ & -> & _); [apply A5; set_solver| |by apply A6].
      apply Hd1. set_solver.
  - apply (kept_trans X1 X2 _ _ d d1); [done|done|set_solver|set_solver].
Qed.
End spec.
