(* ===== verification/ViewInst.v ===== *)
(** * Every view keeps its promises

    [ViewLaws] is the contract of [Render] and [Mountable]: a view builds what
    its [shape] says, a rebuild turns any state into one of the new shape in
    the same place, and nodes of others are left alone.  One instance per
    implementation; [view_laws] covers every type of view. *)

From stdpp Require Import base list strings sets relations.
From S2P Require Import Prelude RustStr Dom Views ViewSpec.

Class ViewLaws (D V S : Type) `{DomLaws D, Render D V S} := {
  tops : S → list nat;
  owned : S → list nat;
  shape : V → list shape_node;
  state_shape : S → list shape_node;
  consistent : S → D → Prop;
  vl_tops_owned st : sublist (tops st) (owned st);
  vl_tops_cons st : tops st ≠ [];
  vl_exist st d : consistent st d → exist d (owned st);
  vl_closed st d : dom_ok d → consistent st d → closed d (owned st);
  vl_frame st d d' : consistent st d →
    (∀ n, n ∈ owned st → dom_kind d' n = dom_kind d n ∧ dom_children d' n = dom_children d n) →
    consistent st d';
  vl_shows st d : consistent st d → shows_all d (tops st) (state_shape st);
  vl_mounts st : mounts (r_mount st) (tops st);
  vl_unmounts st : unmounts (r_unmount st) (tops st);
  vl_inserts st : inserts (r_insert_before_this st) (tops st);
  vl_build v d : dom_ok d →
    ∃ st d', r_build v d = Ok (st, d') ∧ consistent st d' ∧ state_shape st = shape v ∧
      replaces d d' None [] [] (owned st) (tops st);
  vl_rebuild v st d l : dom_ok d → consistent st d → NoDup (owned st) →
    located d l (tops st) → outside (owned st) l →
    ∃ st' d', r_rebuild v st d = Ok (st', d') ∧ consistent st' d' ∧ state_shape st' = shape v ∧
      replaces d d' l (owned st) (tops st) (owned st') (tops st');
}.

Section laws.
Context {D : Type} `{DomLaws D}.

(** ** Places *)

Lemma place_parent_before ns l : place_parent (place_before ns l) = place_parent l.
Proof. by destruct l as [[[??]?]|]. Qed.
Lemma place_parent_after ns l : place_parent (place_after ns l) = place_parent l.
Proof. by destruct l as [[[??]?]|]. Qed.
Lemma outside_before X ns l : outside X l → outside X (place_before ns l).
Proof. intros Ho p. rewrite place_parent_before. apply Ho. Qed.
Lemma outside_after X ns l : outside X l → outside X (place_after ns l).
Proof. intros Ho p. rewrite place_parent_after. apply Ho. Qed.
Lemma outside_sub X Y l : outside X l → Y ⊆ X → outside Y l.
Proof. intros Ho Hs p Hp Hy. apply (Ho p Hp). set_solver. Qed.
Lemma outside_None X : outside X None.
Proof. done. Qed.

(** What stands behind replaced nodes is still there. *)
Lemma replaces_rest d d1 l X ns X' ns' R :
  replaces d d1 (place_before R l) X ns X' ns' → located d l (ns ++ R) → exist d R →
  (∀ n, n ∈ R → n ∉ X) → located d1 (place_after ns' l) R.
Proof.
  intros [A1 A2 A3 A4 A5 A6 A7] Hl He Hx. destruct l as [[[p pre] post]|]; cbn in *.
  - destruct A6 as [Hel Hc]. split; [done|]. by rewrite Hc, <-app_assoc.
  - intros n Hn. destruct (A7 n (He n Hn) (Hx n Hn)) as (_ & -> & _). apply Hl. set_solver.
Qed.

Lemma replaces_refl d l X ns :
  dom_ok d → NoDup X → ns ⊆ X → exist d X → located d l ns → replaces d d l X ns X ns.
Proof. intros. by split; auto. Qed.

(** Nodes that come before may be added on either side. *)
Lemma replaces_weaken d d' l X ns Y ms X' ns' :
  replaces d d' l X ns X' ns' → X ⊆ Y → replaces d d' l Y ms X' ns'.
Proof.
  intros [A1 A2 A3 A4 A5 A6 A7] Hs. split; try done.
  - intros n Hn. destruct (A4 n Hn); [left; set_solver|by right].
  - by eapply kept_weaken.
Qed.

Section views.
Context {V S : Type} `{Render D V S, !ViewLaws D V S}.

Lemma tops_sub st : tops st ⊆ owned st.
Proof. apply sublist_subseteq, vl_tops_owned. Qed.
Lemma tops_NoDup st : NoDup (owned st) → NoDup (tops st).
Proof. intros Hn. by eapply sublist_NoDup, vl_tops_owned. Qed.

Lemma consistent_kept st d d' X p :
  consistent st d → kept X p d d' → (∀ n, n ∈ owned st → n ∉ X) →
  (∀ q, p = Some q → q ∉ owned st) → consistent st d'.
Proof.
  intros Hc Hk Hx Hp. apply (vl_frame st d); [done|]. intros n Hn.
  destruct (Hk n) as (K1 & _ & K3); [by apply (vl_exist st)|by apply Hx|].
  split; [done|]. apply K3. intros E. by apply (Hp n).
Qed.

Lemma consistent_moved st d d' X p :
  consistent st d → moved X p d d' → (∀ q, p = Some q → q ∉ owned st) → consistent st d'.
Proof.
  intros Hc (K1 & _ & K3) Hp. apply (vl_frame st d); [done|]. intros n Hn. split; [done|].
  apply K3. intros ->. by apply (Hp n).
Qed.

(** Mounting a state that stands nowhere *)
Lemma view_mount_ok st d p marker pre post :
  dom_ok d → consistent st d → NoDup (owned st) → located d None (tops st) → p ∉ owned st →
  at_marker d p marker pre post →
  ∃ d', r_mount st p marker d = Ok (tt, d') ∧ dom_ok d' ∧ moved (tops st) (Some p) d d' ∧
    dom_children d' p = pre ++ tops st ++ post ∧ consistent st d'.
Proof.
  intros Hd Hc Hn Hl Hp Hm.
  destruct (vl_mounts st d (owned st) p marker pre post) as (d' & E & Hd' & Hmv & Hch);
    [done|by apply vl_closed|apply tops_sub| |by apply tops_NoDup|done|done|done|].
  - intros n Hx. apply (vl_exist st d Hc). by apply tops_sub.
  - exists d'. split_and!; [done..|]. apply (consistent_moved st d d' _ _ Hc Hmv). by intros q [= <-].
Qed.

(** A state that was just built is mounted between its neighbours. *)
Lemma mount_built st d0 d l R pre post p :
  replaces d0 d None [] [] (owned st) (tops st) → consistent st d →
  dom_kind d0 p ≠ None → at_marker d p (head post) pre post →
  l = Some (p, pre, post) →
  R = tops st →
  ∃ d', r_mount st p (head post) d = Ok (tt, d') ∧ consistent st d' ∧
    replaces d0 d' l [] [] (owned st) R.
Proof.
  intros [A1 A2 A3 A4 A5 A6 A7] Hc Hp Hm -> ->.
  destruct (view_mount_ok st d p (head post) pre post) as (d' & E & Hd' & Hmv & Hch & Hc'); [done..| |done|].
  { intros Hx. destruct (A4 p Hx); set_solver. }
  exists d'. split_and!; [done..|]. split; try done.
  - intros n Hn. rewrite (proj1 Hmv). by apply A5.
  - split; [eapply moved_element; [done|]; apply Hm|done].
  - apply (kept_trans [] (tops st) _ _ d0 d d');
      [by apply kept_None|by apply moved_kept|done|]. intros n Hn. destruct (A4 n); [by apply tops_sub|set_solver|by right].
Qed.
End views.
End laws.

(** * The views that keep their promises

    One instance of [ViewLaws] for each implementation of [Render]. *)

Section instances.
Context {D : Type} `{DomLaws D}.

(** A node that was just created *)
Lemma create_node_ok k d : dom_ok d →
  ∃ n d', create_node k d = Ok (n, d') ∧ dom_ok d' ∧ dom_kind d' n = Some k ∧
    dom_children d' n = [] ∧ kept [] None d d' ∧
    replaces d d' None [] [] [n] [n].
Proof.
  intros Hd. pose proof (dom_create_spec k d Hd) as Hc. unfold create_node.
  destruct (dom_create k d) as [n d']. destruct Hc as (Hd' & Hn & Hk & Hch & Hp).
  assert (dom_kind d' n = Some k) as Hkn by by rewrite Hk, decide_True.
  assert (dom_parent d n = None) as Hpn.
  { destruct (dom_parent d n) eqn:E; [|done]. by apply dom_parent_exists in E as [_ ?]. }
  assert (kept [] None d d') as Hkept.
  { intros m Hm _. rewrite Hk, decide_False, Hp, Hch by congruence. done. }
  exists n, d'. split_and!; [done|done|done| |done|].
  - rewrite Hch. destruct (dom_children d n) as [|m l] eqn:E; [done|].
    assert (m ∈ dom_children d n) as Hm by (rewrite E; set_solver).
    apply dom_children_parent, dom_parent_exists in Hm as [? _]; done.
  - split; [done|apply NoDup_singleton|done| | | |done].
    + intros m Hm. right. by assert (m = n) as -> by set_solver.
    + intros m Hm. assert (m = n) as -> by set_solver. by rewrite Hkn.
    + intros m Hm. assert (m = n) as -> by set_solver. by rewrite Hp.
Qed.

(** Replacing at nowhere, one after the other *)
Lemma built_app d d1 d2 X1 ns1 X2 ns2 :
  dom_ok d → replaces d d1 None [] [] X1 ns1 → replaces d1 d2 None [] [] X2 ns2 →
  replaces d d2 None [] [] (X1 ++ X2) (ns1 ++ ns2).
Proof.
  intros Hd H1 H2. apply (replaces_app d d1 d2 None [] [] X1 ns1 [] [] X2 ns2); [|intros n Hn; set_solver..| | | | | |]; try done.
  apply NoDup_nil_2.
Qed.

Lemma sublist_app_2 {A} (a b c e : list A) : sublist a b → sublist c e → sublist (a ++ c) (b ++ e).
Proof. apply sublist_app. Qed.

(** ** Strings *)

#[export] Instance str_laws : ViewLaws D str StrState.
Proof.
  refine {|
    tops st := [ss_node st];
    owned st := [ss_node st];
    shape s := [ShText s];
    state_shape st := [ShText (ss_str st)];
    consistent st d := dom_kind d (ss_node st) = Some (NText (ss_str st)) ∧ dom_children d (ss_node st) = [];
  |}; cbn.
  - done.
  - done.
  - intros st d [Hk _] n Hn. assert (n = ss_node st) as -> by set_solver. congruence.
  - intros st d _ [_ Hc] n m Hn. assert (n = ss_node st) as -> by set_solver. rewrite Hc. set_solver.
  - intros st d d' [Hk Hc] Hf. destruct (Hf (ss_node st)) as [-> ->]; [set_solver|done].
  - intros st d [Hk _]. by repeat constructor.
  - intros st. apply node_mounts.
  - intros st. apply node_unmounts.
  - intros st. apply node_inserts.
  - intros s d Hd. destruct (create_node_ok (NText s) d Hd) as (n & d' & E & Hd' & Hk & Hc & _ & Hr).
    exists (mkStrState n s), d'. unfold str_build, create_text_node.
    rewrite (bind_Ok _ _ _ _ _ E). done.
  - intros s st d l Hd [Hk Hc] Hn Hl Ho. unfold str_rebuild. case_decide as Hs.
    + exists st, d. split_and!; [done|done|done|by subst|]. apply replaces_refl; try done.
      intros n Hx. assert (n = ss_node st) as -> by set_solver. congruence.
    + destruct (dom_set_text_spec (ss_node st) s _ d Hd Hk) as (Hd' & Hk' & Hc' & Hp').
      exists (mkStrState (ss_node st) s), (dom_set_text (ss_node st) s d). cbn.
      rewrite Hk', decide_True, Hc' by done. split_and!; [done..|]. split; [done|done|done|set_solver| | |].
      * intros n Hx. rewrite Hk'. case_decide; [done|]. set_solver.
      * destruct l as [[[p pre] post]|]; cbn in *.
        -- destruct Hl as [[tag Hel] Hch]. split; [|by rewrite Hc'].
           exists tag. rewrite Hk', decide_False; [done|]. intros ->. apply (Ho (ss_node st) eq_refl). set_solver.
        -- intros n Hx. rewrite Hp'. by apply Hl.
      * intros n _ Hx. rewrite Hk', decide_False, Hp', Hc' by set_solver. done.
Defined.

(** ** [()] *)

#[export] Instance unit_laws : ViewLaws D unit nat.
Proof.
  refine {|
    tops n := [n];
    owned n := [n];
    shape _ := [ShComment];
    state_shape _ := [ShComment];
    consistent n d := dom_kind d n = Some NComment ∧ dom_children d n = [];
  |}; cbn.
  - done.
  - done.
  - intros st d [Hk _] n Hn. assert (n = st) as -> by set_solver. congruence.
  - intros st d _ [_ Hc] n m Hn. assert (n = st) as -> by set_solver. rewrite Hc. set_solver.
  - intros st d d' [Hk Hc] Hf. destruct (Hf st) as [-> ->]; [set_solver|done].
  - intros st d [Hk _]. by repeat constructor.
  - intros st. apply node_mounts.
  - intros st. apply node_unmounts.
  - intros st. apply node_inserts.
  - intros [] d Hd. destruct (create_node_ok NComment d Hd) as (n & d' & E & Hd' & Hk & Hc & _ & Hr).
    by exists n, d'.
  - intros [] st d l Hd Hc Hn Hl Ho. exists st, d. split_and!; [done|apply Hc|apply Hc|done|].
    apply replaces_refl; try done. intros n Hx. assert (n = st) as -> by set_solver.
    destruct Hc. congruence.
Defined.

(** ** Tuples *)

Section tuple.
Context {A SA B SB : Type} `{Render D A SA, !ViewLaws D A SA, Render D B SB, !ViewLaws D B SB}.

Lemma tuple_build_ok (v : A * B) d : dom_ok d →
  ∃ st d', tuple_build v d = Ok (st, d') ∧ (consistent st.1 d' ∧ consistent st.2 d') ∧
    state_shape st.1 ++ state_shape st.2 = shape v.1 ++ shape v.2 ∧
    replaces d d' None [] [] (owned st.1 ++ owned st.2) (tops st.1 ++ tops st.2).
Proof.
  intros Hd. destruct (vl_build v.1 d Hd) as (sa & d1 & E1 & C1 & S1 & R1).
  destruct (vl_build v.2 d1 (rep_ok _ _ _ _ _ _ _ R1)) as (sb & d2 & E2 & C2 & S2 & R2).
  exists (sa, sb), d2. unfold tuple_build. rewrite (bind_Ok _ _ _ _ _ E1), (bind_Ok _ _ _ _ _ E2).
  cbn. split_and!; [done| |done|by rewrite S1, S2|by eapply built_app].
  eapply consistent_kept; [done|apply R2|set_solver|done].
Qed.

Lemma tuple_rebuild_ok (v : A * B) (st : SA * SB) d l : dom_ok d →
  consistent st.1 d ∧ consistent st.2 d → NoDup (owned st.1 ++ owned st.2) →
  located d l (tops st.1 ++ tops st.2) → outside (owned st.1 ++ owned st.2) l →
  ∃ st' d', tuple_rebuild v st d = Ok (st', d') ∧ (consistent st'.1 d' ∧ consistent st'.2 d') ∧
    state_shape st'.1 ++ state_shape st'.2 = shape v.1 ++ shape v.2 ∧
    replaces d d' l (owned st.1 ++ owned st.2) (tops st.1 ++ tops st.2)
      (owned st'.1 ++ owned st'.2) (tops st'.1 ++ tops st'.2).
Proof.
  intros Hd [C1 C2] Hn Hl Ho. pose proof Hn as Hn'. apply NoDup_app in Hn' as (Hn1 & Hn12 & Hn2).
  pose proof (proj1 (located_app _ _ _ _) Hl) as [Hl1 _].
  destruct (vl_rebuild v.1 st.1 d _ Hd C1 Hn1 Hl1) as (sa & d1 & E1 & C1' & S1 & R1).
  { apply outside_before. eapply outside_sub; [done|set_solver]. }
  assert (∀ n, n ∈ owned st.2 → n ∉ owned st.1) as Hdis by (intros n ? ?; by apply (Hn12 n)).
  assert (exist d (owned st.2)) as He2 by by apply vl_exist.
  assert (consistent st.2 d1) as C2'.
  { eapply consistent_kept; [done|apply R1|done|]. rewrite place_parent_before.
    intros q Hq Hx. apply (Ho q Hq). set_solver. }
  assert (located d1 (place_after (tops sa) l) (tops st.2)) as Hl2.
  { eapply replaces_rest; [done|done| |]; intros n Hx%tops_sub; auto. }
  destruct (vl_rebuild v.2 st.2 d1 _ (rep_ok _ _ _ _ _ _ _ R1) C2' Hn2 Hl2) as (sb & d2 & E2 & C2'' & S2 & R2).
  { apply outside_after. eapply outside_sub; [done|set_solver]. }
  exists (sa, sb), d2. unfold tuple_rebuild. rewrite (bind_Ok _ _ _ _ _ E1), (bind_Ok _ _ _ _ _ E2).
  cbn. split_and!; [done| |done|by rewrite S1, S2|].
  - eapply consistent_kept; [done|apply R2| |].
    + intros n Hx Hx2. destruct (rep_fresh _ _ _ _ _ _ _ R1 n Hx); [by apply (Hn12 n)|by apply (He2 n)].
    + rewrite place_parent_after. intros q Hq Hx. destruct (rep_fresh _ _ _ _ _ _ _ R1 q Hx) as [Hx'|Hx'].
      * apply (Ho q Hq). set_solver.
      * destruct l as [[[p pre] post]|]; [|done]. injection Hq as ->. destruct Hl as [[tag Hel] _]. congruence.
  - eapply replaces_app; [done|done| |done|apply tops_sub|apply tops_sub|done|done|done].
    intros n [Hx|Hx]%elem_of_app; [by apply (vl_exist st.1)|by apply He2].
Qed.

#[export] Instance tuple_laws : ViewLaws D (A * B) (SA * SB).
Proof.
  refine {|
    tops st := tops st.1 ++ tops st.2;
    owned st := owned st.1 ++ owned st.2;
    shape v := shape v.1 ++ shape v.2;
    state_shape st := state_shape st.1 ++ state_shape st.2;
    consistent st d := consistent st.1 d ∧ consistent st.2 d;
  |}.
  - intros st. apply sublist_app_2; apply vl_tops_owned.
  - intros st [E _]%app_nil. by apply vl_tops_cons in E.
  - intros st d [C1 C2] n [Hx|Hx]%elem_of_app; [by apply (vl_exist st.1)|by apply (vl_exist st.2)].
  - intros st d Hd [C1 C2] n m [Hx|Hx]%elem_of_app Hm; apply elem_of_app.
    + left. by apply (vl_closed st.1 d Hd C1 n).
    + right. by apply (vl_closed st.2 d Hd C2 n).
  - intros st d d' [C1 C2] Hf. split; (eapply vl_frame; [done|]; intros n Hx; apply Hf; set_solver).
  - intros st d [C1 C2]. apply Forall2_app; by apply vl_shows.
  - intros st. apply (mounts_app _ _ _ _ (vl_mounts st.1) (vl_mounts st.2)).
  - intros st. apply (unmounts_app _ _ _ _ (vl_unmounts st.1) (vl_unmounts st.2)).
  - intros st. apply (inserts_app _ _ _ _ (vl_inserts st.1) (vl_inserts st.2)).
  - apply tuple_build_ok.
  - apply tuple_rebuild_ok.
Defined.
End tuple.

(** ** [Either] *)

Section either.
Context {A SA B SB : Type} `{Render D A SA, !ViewLaws D A SA, Render D B SB, !ViewLaws D B SB}.

(** A new view is built and put in the place of an old one of another type. *)
Lemma switch_ok {R} (v : B) (old : SA) (f : SB → R) d l : dom_ok d →
  consistent old d → NoDup (owned old) → located d l (tops old) → outside (owned old) l →
  ∃ st d', (new_state ← r_build v;
            _ ← r_insert_before_this old (r_mount new_state);
            _ ← r_unmount old;
            mret (f new_state)) d = Ok (f st, d') ∧
    consistent st d' ∧ state_shape st = shape v ∧
    replaces d d' l (owned old) (tops old) (owned st) (tops st).
Proof.
  intros Hd Hc Hn Hl Ho. destruct (vl_build v d Hd) as (st & d1 & E1 & C1 & S1 & R1).
  pose proof R1 as [A1 A2 A3 A4 A5 A6 A7].
  assert (exist d (tops old)) as Het by (intros n Hx%tops_sub; by apply (vl_exist old)).
  assert (located d1 l (tops old)) as Hl1.
  { eapply located_kept; [exact A7|done|done| |set_solver|done]. intros p _. set_solver. }
  exists st. rewrite (bind_Ok _ _ _ _ _ E1). unfold mbind at 1, stateM_bind at 1.
  rewrite (vl_inserts old _ d1 l A1 Hl1). destruct l as [[[p pre] post]|].
  - assert (dom_kind d p ≠ None) as Hp by (destruct Hl as [[tag Hel] _]; congruence).
    assert (∃ t0 ts, tops old = t0 :: ts) as (t0 & ts & Et).
    { pose proof (vl_tops_cons old). destruct (tops old) as [|t0 ts]; [done|by exists t0, ts]. }
    replace (match tops old with [] => _ | n :: _ => _ end) with
      ((_ ← r_mount st p (Some t0); mret true) d1 : outcome (bool * D)) by by rewrite Et.
    assert (p ∉ owned st) as Hps by (intros Hx; destruct (A4 p Hx); set_solver).
    destruct (view_mount_ok st d1 p (Some t0) pre (tops old ++ post)) as (d2 & E2 & Hd2 & M2 & Ch2 & C2);
      [done..|unfold at_marker; rewrite Et in *; by destruct Hl1; split_and!|].
    rewrite (bind_Ok _ _ _ _ _ E2).
    destruct (vl_unmounts old d2 (Some (p, pre ++ tops st, post)) Hd2) as (d3 & E3 & Hd3 & M3 & _ & Hl3).
    { split; [eapply moved_element; [done|apply Hl1]|]. by rewrite Ch2, <-app_assoc. }
    exists d3. cbn. rewrite (bind_Ok _ _ _ _ _ E3). split_and!; [done| |done|].
    + eapply consistent_moved; [exact C2|done|]. by intros q [= <-].
    + assert (kept (owned old) (Some p) d d3) as Hk.
      { apply (kept_trans [] (tops st ++ tops old) _ _ d d1 d3); [by apply kept_None| |set_solver|].
        - apply moved_kept. by eapply moved_trans.
        - intros n [Hx|Hx]%elem_of_app; [|left; by apply tops_sub].
          destruct (A4 n); [by apply tops_sub|set_solver|by right]. }
      split; [done|done|apply tops_sub|intros n Hx; right; destruct (A4 n Hx); set_solver| | |done].
      * intros n Hx. rewrite (proj1 M3), (proj1 M2). by apply A5.
      * destruct Hl3 as [? Hch]. split; [done|]. by rewrite Hch, <-app_assoc.
  - destruct (vl_unmounts old d1 None A1 Hl1) as (d3 & E3 & Hd3 & M3 & _ & _).
    exists d3. cbn. rewrite (bind_Ok _ _ _ _ _ E3). split_and!; [done| |done|].
    + by eapply consistent_moved.
    + split; [done|done|apply tops_sub|intros n Hx; right; destruct (A4 n Hx); set_solver| | |].
      * intros n Hx. rewrite (proj1 M3). by apply A5.
      * intros n Hx. destruct (decide (n ∈ tops old)) as [Ho'|Ho'].
        -- exfalso. destruct (A4 n) as [|Hk]; [by apply tops_sub|set_solver|]. by apply (Het n).
        -- destruct M3 as (_ & -> & _); [by apply A6|done].
      * apply (kept_trans [] (tops old) _ _ d d1 d3); [done|by apply moved_kept|set_solver|].
        intros n Hx. left. by apply tops_sub.
Qed.
End either.

#[export] Instance either_laws {A SA B SB : Type}
    `{Render D A SA, !ViewLaws D A SA, Render D B SB, !ViewLaws D B SB} : ViewLaws D (A + B) (SA + SB).
Proof.
  refine {|
    tops st := match st with inl a => tops a | inr b => tops b end;
    owned st := match st with inl a => owned a | inr b => owned b end;
    shape v := match v with inl a => shape a | inr b => shape b end;
    state_shape st := match st with inl a => state_shape a | inr b => state_shape b end;
    consistent st d := match st with inl a => consistent a d | inr b => consistent b d end;
  |}.
  - intros [st|st]; exact (vl_tops_owned st).
  - intros [st|st]; exact (vl_tops_cons st).
  - intros [st|st] d; exact (vl_exist st d).
  - intros [st|st] d; exact (vl_closed st d).
  - intros [st|st] d d'; exact (vl_frame st d d').
  - intros [st|st] d; exact (vl_shows st d).
  - intros [st|st]; exact (vl_mounts st).
  - intros [st|st]; exact (vl_unmounts st).
  - intros [st|st]; exact (vl_inserts st).
  - intros [v|v] d Hd; destruct (vl_build v d Hd) as (st & d' & E & C & S' & R); cbn.
    + exists (inl st), d'. by rewrite (bind_Ok _ _ _ _ _ E).
    + exists (inr st), d'. by rewrite (bind_Ok _ _ _ _ _ E).
  - intros [v|v] [st|st] d l Hd Hc Hn Hl Ho; cbn [r_rebuild either_Render either_rebuild].
    + destruct (vl_rebuild v st d l Hd Hc Hn Hl Ho) as (st' & d' & E & C & S' & R).
      exists (inl st'), d'. by rewrite (bind_Ok _ _ _ _ _ E).
    + destruct (switch_ok v st (@inl SA SB) d l Hd Hc Hn Hl Ho) as (st' & d' & E & ?). by exists (inl st'), d'.
    + destruct (switch_ok v st (@inr SA SB) d l Hd Hc Hn Hl Ho) as (st' & d' & E & ?). by exists (inr st'), d'.
    + destruct (vl_rebuild v st d l Hd Hc Hn Hl Ho) as (st' & d' & E & C & S' & R).
      exists (inr st'), d'. by rewrite (bind_Ok _ _ _ _ _ E).
Defined.

#[export] Instance option_laws {A SA : Type} `{Render D A SA, !ViewLaws D A SA} :
  ViewLaws D (option A) (SA + nat).
Proof.
  pose (L := either_laws (A := A) (B := unit)).
  refine {|
    tops := @tops _ _ _ _ _ _ L;
    owned := @owned _ _ _ _ _ _ L;
    shape v := @shape _ _ _ _ _ _ L (option_to_either v);
    state_shape := @state_shape _ _ _ _ _ _ L;
    consistent := @consistent _ _ _ _ _ _ L;
  |}.
  - apply L.
  - apply L.
  - apply L.
  - apply L.
  - apply L.
  - apply L.
  - apply L.
  - apply L.
  - apply L.
  - intros v. apply (@vl_build _ _ _ _ _ _ L).
  - intros v. apply (@vl_rebuild _ _ _ _ _ _ L).
Defined.
End instances.
