(* ===== verification/ViewVec.v ===== *)
(** * Vectors and elements keep their promises

    The unkeyed diff of [Vec] ([iterators.rs]) and [HtmlElement]; then every
    type of view has its instance. *)

From stdpp Require Import base list strings sets relations.
From S2P Require Import Prelude RustStr Dom Views ViewSpec ViewInst.

Section sequences.
Context {D : Type} `{DomLaws D}.
Context {A SA : Type} `{Render D A SA, !ViewLaws D A SA}.

Definition tops_all (l : list SA) : list nat := concat (map tops l).
Definition owned_all (l : list SA) : list nat := concat (map owned l).
Definition consistent_all (l : list SA) (d : D) : Prop := Forall (λ st, consistent st d) l.
Definition shape_all (l : list A) : list shape_node := concat (map shape l).
Definition state_shape_all (l : list SA) : list shape_node := concat (map state_shape l).

Lemma all_tops_owned l : sublist (tops_all l) (owned_all l).
Proof. induction l as [|st l IH]; [done|]. apply sublist_app_2; [apply vl_tops_owned|done]. Qed.

Lemma all_exist l d : consistent_all l d → exist d (owned_all l).
Proof.
  induction 1 as [|st l Hc _ IH]; intros n; [set_solver|]. intros [Hn|Hn]%elem_of_app; [by apply (vl_exist st)|by apply IH].
Qed.

Lemma all_closed l d : dom_ok d → consistent_all l d → closed d (owned_all l).
Proof.
  intros Hd. induction 1 as [|st l Hc _ IH]; intros n m; [set_solver|].
  intros [Hn|Hn]%elem_of_app Hm; apply elem_of_app; [left; by apply (vl_closed st d Hd Hc n)|right; by apply (IH n)].
Qed.

Lemma all_frame l d d' : consistent_all l d →
  (∀ n, n ∈ owned_all l → dom_kind d' n = dom_kind d n ∧ dom_children d' n = dom_children d n) →
  consistent_all l d'.
Proof.
  induction 1 as [|st l Hc _ IH]; intros Hf; constructor.
  - apply (vl_frame st d); [done|]. intros n Hn. apply Hf, elem_of_app. by left.
  - apply IH. intros n Hn. apply Hf, elem_of_app. by right.
Qed.

Lemma all_kept l d d' X p : consistent_all l d → kept X p d d' →
  (∀ n, n ∈ owned_all l → n ∉ X) → (∀ q, p = Some q → q ∉ owned_all l) → consistent_all l d'.
Proof.
  intros Hc Hk Hx Hp. apply (all_frame l d); [done|]. intros n Hn.
  destruct (Hk n) as (K1 & _ & K3); [by apply (all_exist l)|by apply Hx|].
  split; [done|]. apply K3. intros E. by apply (Hp n).
Qed.

Lemma all_moved l d d' X p : consistent_all l d → moved X p d d' →
  (∀ q, p = Some q → q ∉ owned_all l) → consistent_all l d'.
Proof.
  intros Hc (K1 & _ & K3) Hp. apply (all_frame l d); [done|]. intros n Hn. split; [done|].
  apply K3. intros ->. by apply (Hp n).
Qed.

Lemma all_shows l d : consistent_all l d → shows_all d (tops_all l) (state_shape_all l).
Proof. induction 1 as [|st l Hc _ IH]; [constructor|]. apply Forall2_app; [by apply vl_shows|done]. Qed.

Lemma all_mounts l : mounts (λ p m, for_each (λ s, r_mount s p m) l) (tops_all l).
Proof.
  induction l as [|st l IH]; [apply mounts_nil|].
  apply (mounts_app _ _ _ _ (vl_mounts st) IH).
Qed.

Lemma all_unmounts l : unmounts (for_each r_unmount l) (tops_all l).
Proof.
  induction l as [|st l IH]; [apply unmounts_nil|].
  apply (unmounts_app _ _ _ _ (vl_unmounts st) IH).
Qed.

Lemma all_inserts l : inserts (λ f, any_of (λ s, r_insert_before_this s f) l) (tops_all l).
Proof.
  induction l as [|st l IH]; [apply inserts_nil|].
  apply (inserts_app _ _ _ _ (vl_inserts st) IH).
Qed.

Lemma build_all_ok l d : dom_ok d →
  ∃ sts d', build_all l d = Ok (sts, d') ∧ consistent_all sts d' ∧
    state_shape_all sts = shape_all l ∧
    replaces d d' None [] [] (owned_all sts) (tops_all sts).
Proof.
  revert d. induction l as [|v l IH]; intros d Hd.
  - exists [], d. split_and!; [done|constructor|done|]. apply replaces_refl; [done|apply NoDup_nil_2|done|..]; intros n; set_solver.
  - destruct (vl_build v d Hd) as (st & d1 & E1 & C1 & S1 & R1).
    destruct (IH d1 (rep_ok _ _ _ _ _ _ _ R1)) as (sts & d2 & E2 & C2 & S2 & R2).
    exists (st :: sts), d2. cbn. rewrite (bind_Ok _ _ _ _ _ E1), (bind_Ok _ _ _ _ _ E2).
    split_and!; [done| |unfold state_shape_all, shape_all in *; cbn; by rewrite S1, S2|by eapply built_app].
    constructor; [|done]. eapply consistent_kept; [done|apply R2|set_solver|done].
Qed.

(** ** Steps of the unkeyed diff *)

(** The first siblings are unmounted. *)
Lemma drop_front c ns R d l : unmounts c ns → dom_ok d → located d l (ns ++ R) →
  ∃ d', c d = Ok (tt, d') ∧ dom_ok d' ∧ moved ns (place_parent l) d d' ∧ located d' l R.
Proof.
  intros Hu Hd Hl. apply located_app in Hl as [Hl1 Hl2].
  destruct (Hu d _ Hd Hl1) as (d' & E & Hd' & Hm & Hn & Hp). rewrite place_parent_before in Hm.
  exists d'. split_and!; [done..|]. destruct l as [[[p pre] post]|]; cbn in *; [done|].
  intros n Hx. destruct (decide (n ∈ ns)); [by apply Hn|]. destruct Hm as (_ & -> & _); [by apply Hl2|done].
Qed.

Lemma replaces_after_moved d d1 d2 l Y X ns ms X' ns' :
  moved Y (place_parent l) d d1 → replaces d1 d2 l X ns X' ns' → Y ⊆ X →
  replaces d d2 l X ms X' ns'.
Proof.
  intros Hm [A1 A2 A3 A4 A5 A6 A7] Hs. split; try done.
  - intros n Hn. destruct (A4 n Hn); [by left|right]. by rewrite <-(proj1 Hm).
  - apply (kept_trans Y X _ _ d d1 d2); [by apply moved_kept|done|done|]. intros n Hn. by left.
Qed.

(** A state that stands nowhere is mounted before the marker. *)
Lemma try_mount_ok st m d l : dom_ok d → consistent st d → NoDup (owned st) →
  located d None (tops st) → located d l [m] → outside (owned st) l →
  ∃ b d', try_mount_before (r_mount st) m d = Ok (b, d') ∧ dom_ok d' ∧
    moved (tops st) (place_parent l) d d' ∧ located d' l (tops st ++ [m]) ∧ consistent st d'.
Proof.
  intros Hd Hc Hn Ht Hl Ho. unfold try_mount_before.
  rewrite (bind_Ok _ _ _ _ _ (parent_element_located d l m [m] Hd Hl ltac:(set_solver))).
  destruct l as [[[p pre] post]|]; cbn.
  - destruct Hl as [Hel Hch].
    destruct (view_mount_ok st d p (Some m) pre (m :: post)) as (d' & E & Hd' & M & Ch & C);
      [done..|by apply Ho|by split_and!|].
    exists true, d'. rewrite (bind_Ok _ _ _ _ _ E). split_and!;
      [done..|by eapply moved_element|by rewrite Ch, <-app_assoc|done].
  - exists false, d. split_and!; [done|done|by split_and!| |done].
    intros n [Hx|Hx]%elem_of_app; [by apply Ht|by apply Hl].
Qed.

(** All states that were built are mounted before the marker. *)
Lemma try_mount_all_ok sts m d l : dom_ok d → consistent_all sts d → NoDup (owned_all sts) →
  located d None (tops_all sts) → located d l [m] → outside (owned_all sts) l →
  ∃ d', for_each (λ item, _ ← try_mount_before (r_mount item) m; mret tt) sts d = Ok (tt, d') ∧
    dom_ok d' ∧ moved (tops_all sts) (place_parent l) d d' ∧
    located d' l (tops_all sts ++ [m]) ∧ consistent_all sts d'.
Proof.
  revert d l. induction sts as [|st sts IH]; intros d l Hd Hc Hn Ht Hl Ho.
  - exists d. split_and!; [done|done|by split_and!|done|done].
  - apply Forall_cons in Hc as [Hc Hcs]. apply NoDup_app in Hn as (Hn & Hdis & Hns).
    destruct (try_mount_ok st m d l) as (b & d1 & E1 & Hd1 & M1 & L1 & C1);
      [done..|intros n Hx; apply Ht, elem_of_app; by left|done|eapply outside_sub; [done|]; cbn; set_solver|].
    assert (consistent_all sts d1) as Hcs1.
    { eapply all_moved; [done|done|]. intros q Hq Hx. apply (Ho q Hq). cbn. set_solver. }
    apply located_app in L1 as [L1 L1'].
    assert (located d1 None (tops_all sts)) as Ht1.
    { intros n Hx. destruct M1 as (_ & -> & _); [apply Ht, elem_of_app; by right|].
      intros Hx'%tops_sub. apply (Hdis n Hx'). by eapply sublist_subseteq; [apply all_tops_owned|]. }
    destruct (IH d1 (place_after (tops st) l)) as (d2 & E2 & Hd2 & M2 & L2 & C2); [done..| |].
    { apply outside_after. eapply outside_sub; [done|]. cbn. set_solver. }
    rewrite place_parent_after in M2. exists d2. cbn [for_each].
    assert ((_ ← try_mount_before (r_mount st) m; mret tt) d = Ok (tt, d1)) as E1'.
    { by rewrite (bind_Ok _ _ _ _ _ E1). }
    rewrite (bind_Ok _ _ _ _ _ E1'). split_and!; [done|done|by eapply moved_trans| |].
    + change (tops_all (st :: sts)) with (tops st ++ tops_all sts). rewrite <-app_assoc.
      apply located_app. split; [|done]. destruct l as [[[p pre] post]|]; cbn in *.
      * destruct L2 as [? Hch]. split; [done|]. by rewrite Hch, <-!app_assoc.
      * intros n Hx. destruct M2 as (_ & -> & _); [by apply L1|].
        intros Hx2. apply (Hdis n); [by apply tops_sub|]. by eapply sublist_subseteq; [apply all_tops_owned|].
    + constructor; [|done]. eapply consistent_moved; [done|done|]. intros q Hq Hx. apply (Ho q Hq). cbn. set_solver.
Qed.

(** ** The unkeyed diff *)

Definition marker_ok (m : nat) (d : D) : Prop := consistent (V := unit) m d.

Lemma marker_kept m d d' X p : marker_ok m d → kept X p d d' → m ∉ X → p ≠ Some m → marker_ok m d'.
Proof.
  intros Hc Hk Hx Hp. apply (consistent_kept (V := unit) m d d' X p); [done|done| |].
  - intros n Hn. by assert (n = m) as -> by set_solver.
  - intros q -> Hq. assert (q = m) as -> by set_solver. done.
Qed.

(** What the loop leaves behind, and the states that it means *)
Definition kept_states (r : list SA * list SA * nat) : list SA :=
  take (length r.1.1 - r.2) r.1.1 ++ r.1.2.

Record diff_done (m : nat) (new : list A) (old : list SA) (l : place) (d : D)
    (r : list SA * list SA * nat) (d' : D) : Prop := mk_diff_done {
  dd_removes : r.2 ≤ length r.1.1;
  dd_removes_all : new = [] → r.2 = length r.1.1;
  dd_consistent : consistent_all (kept_states r) d';
  dd_marker : marker_ok m d';
  dd_shape : state_shape_all (kept_states r) = shape_all new;
  dd_replaces : replaces d d' l (owned_all old ++ [m]) (tops_all old ++ [m])
                  (owned_all (kept_states r) ++ [m]) (tops_all (kept_states r) ++ [m]);
}.

Record diff_ready (m : nat) (old : list SA) (l : place) (d : D) : Prop := mk_diff_ready {
  dr_ok : dom_ok d;
  dr_consistent : consistent_all old d;
  dr_marker : marker_ok m d;
  dr_NoDup : NoDup (owned_all old ++ [m]);
  dr_located : located d l (tops_all old ++ [m]);
  dr_outside : outside (owned_all old ++ [m]) l;
}.

Lemma marker_exists m d : marker_ok m d → dom_kind d m ≠ None.
Proof. intros [Hk _]. congruence. Qed.

Lemma ready_exist m old l d : diff_ready m old l d → exist d (owned_all old ++ [m]).
Proof.
  intros [] n [Hn|Hn]%elem_of_app; [by apply (all_exist old)|].
  assert (n = m) as -> by set_solver. by apply marker_exists.
Qed.

Lemma ready_tops m old l d : diff_ready m old l d → tops_all old ++ [m] ⊆ owned_all old ++ [m].
Proof. intros _. apply sublist_subseteq, sublist_app_2; [apply all_tops_owned|done]. Qed.

(** Only old states are left: they are unmounted. *)
Lemma diff_old_ok m old d l : diff_ready m old l d →
  ∃ r d', vec_diff_loop m (map OnlyOld old) d = Ok (r, d') ∧ r.1.2 = [] ∧ diff_done m [] old l d r d'.
Proof.
  revert d l. induction old as [|st old IH]; intros d l Hr; pose proof Hr as [Hd Hc Hm Hn Hl Ho].
  - exists ([], [], 0), d. split_and!; [done|done|]. split; try done.
    apply replaces_refl; try done. by apply (ready_exist m [] l).
  - apply Forall_cons in Hc as [Hc Hcs]. cbn in Hn, Ho. rewrite <-app_assoc in Hn, Ho.
    pose proof Hn as Hn'. apply NoDup_app in Hn' as (Hn1 & Hdis & Hn2).
    change (tops_all (st :: old)) with (tops st ++ tops_all old) in Hl. rewrite <-app_assoc in Hl.
    destruct (drop_front _ _ _ d l (vl_unmounts st) Hd Hl) as (d1 & E1 & Hd1 & M1 & L1).
    assert (diff_ready m old l d1) as Hr1.
    { split; [done| | |done|done|eapply outside_sub; [done|set_solver]].
      - eapply all_moved; [done|done|]. intros q Hq Hx. apply (Ho q Hq). set_solver.
      - eapply marker_kept; [done|by apply moved_kept| |].
        + intros Hx%tops_sub. apply (Hdis m Hx). set_solver.
        + intros Hq. apply (Ho m Hq). set_solver. }
    destruct (IH d1 l Hr1) as (r & d2 & E2 & Ha & [B1 B2 B3 B4 B5 B6]).
    exists (st :: r.1.1, r.1.2, S r.2), d2. cbn.
    rewrite (bind_Ok _ _ _ _ _ E1), (bind_Ok _ _ _ _ _ E2).
    assert (kept_states (st :: r.1.1, r.1.2, S r.2) = kept_states r) as Hk.
    { unfold kept_states. cbn. rewrite (B2 eq_refl), !Nat.sub_diag. done. }
    split_and!; [done|done|]. split; rewrite ?Hk; cbn; try done; [lia|by rewrite B2|].
    change (owned_all (st :: old)) with (owned st ++ owned_all old). rewrite <-app_assoc.
    assert (moved (owned st) (place_parent l) d d1) as M1'.
    { destruct M1 as (? & M & ?). split_and!; [done| |done]. intros n Hx. apply M.
      by intros ?%tops_sub. }
    eapply (replaces_after_moved d d1 d2 l (owned st) (owned st ++ owned_all old ++ [m]) [m]);
      [done| |set_solver]. eapply replaces_weaken; [done|set_solver].
Qed.

(** Only new values are left: they are built and mounted before the marker. *)
Lemma diff_new_ok m new d l : diff_ready m [] l d →
  ∃ r d', vec_diff_loop m (map OnlyNew new) d = Ok (r, d') ∧ r.1.1 = [] ∧ diff_done m new [] l d r d'.
Proof.
  revert d l. induction new as [|v new IH]; intros d l Hr; pose proof Hr as [Hd Hc Hm Hn Hl Ho].
  - exists ([], [], 0), d. split_and!; [done|done|]. split; try done.
    apply replaces_refl; try done. by apply (ready_exist m [] l).
  - destruct (vl_build v d Hd) as (st & d1 & E1 & C1 & S1 & R1). pose proof R1 as [A1 A2 A3 A4 A5 A6 A7].
    assert (m ∉ owned st) as Hmst.
    { intros Hx. destruct (A4 m Hx) as [|]; [set_solver|]. by apply (marker_exists m d). }
    assert (outside (owned st) l) as Hol.
    { intros p Hp Hx. destruct (A4 p Hx) as [|Hk]; [set_solver|].
      destruct l as [[[q pre] post]|]; [|done]. injection Hp as ->. destruct Hl as [[tag Hel] _]. congruence. }
    assert (located d1 l [m]) as Hl1.
    { eapply located_kept; [exact A7|done| |intros p _; set_solver|set_solver|done]. intros n Hx.
      assert (n = m) as -> by set_solver. by apply marker_exists. }
    destruct (try_mount_ok st m d1 l A1 C1 A2 A6 Hl1 Hol) as (b & d2 & E2 & Hd2 & M2 & L2 & C2).
    assert (replaces d d2 (place_before [m] l) [] [] (owned st) (tops st)) as R2.
    { apply located_app in L2 as [L2 _]. split; [done|done|done|done| |done|].
      - intros n Hx. rewrite (proj1 M2). by apply A5.
      - rewrite place_parent_before. apply (kept_trans [] (tops st) _ _ d d1 d2);
          [by apply kept_None|by apply moved_kept|done|]. intros n Hx. destruct (A4 n); [by apply tops_sub|set_solver|by right]. }
    assert (diff_ready m [] (place_after (tops st) l) d2) as Hr2.
    { apply located_app in L2 as [_ L2]. split; [done|constructor| |done|done|by apply outside_after].
      eapply marker_kept; [done|apply (rep_kept _ _ _ _ _ _ _ R2)|set_solver|].
      rewrite place_parent_before. intros Hq. apply (Ho m Hq). set_solver. }
    destruct (IH d2 _ Hr2) as (r & d3 & E3 & Ha & [B1 B2 B3 B4 B5 B6]).
    exists (r.1.1, st :: r.1.2, r.2), d3. cbn.
    rewrite (bind_Ok _ _ _ _ _ E1), (bind_Ok _ _ _ _ _ E2), (bind_Ok _ _ _ _ _ E3).
    assert (kept_states (r.1.1, st :: r.1.2, r.2) = st :: kept_states r) as Hk.
    { unfold kept_states. cbn. by rewrite Ha. }
    split_and!; [done|done|]. split; rewrite ?Hk; cbn [fst snd]; try done.
    + constructor; [|done]. eapply consistent_kept; [exact C2|apply B6| |].
      * intros n Hx Hx'. assert (n = m) as -> by set_solver. done.
      * rewrite place_parent_after. apply Hol.
    + unfold state_shape_all, shape_all in *. cbn. by rewrite S1, B5.
    + change (owned_all (st :: kept_states r)) with (owned st ++ owned_all (kept_states r)).
      change (tops_all (st :: kept_states r)) with (tops st ++ tops_all (kept_states r)).
      rewrite <-!app_assoc.
      apply (replaces_app d d2 d3 l [] [] (owned st) (tops st) [m] [m]); try done.
      by apply (ready_exist m [] l).
Qed.

Lemma zip_longest_nil_r (new : list A) : zip_longest new ([] : list SA) = map OnlyNew new.
Proof. by destruct new. Qed.

Lemma diff_ok m new old d l : diff_ready m old l d →
  ∃ r d', vec_diff_loop m (zip_longest new old) d = Ok (r, d') ∧ diff_done m new old l d r d'.
Proof.
  revert old d l. induction new as [|v new IH]; intros [|st old] d l Hr.
  - by destruct (diff_new_ok m [] d l Hr) as (r & d' & E & _ & ?); exists r, d'.
  - by destruct (diff_old_ok m (st :: old) d l Hr) as (r & d' & E & _ & ?); exists r, d'.
  - by destruct (diff_new_ok m (v :: new) d l Hr) as (r & d' & E & _ & ?); exists r, d'.
  - pose proof Hr as [Hd Hc Hm Hn Hl Ho]. pose proof (ready_exist _ _ _ _ Hr) as He.
    apply Forall_cons in Hc as [Hc Hcs].
    change (owned_all (st :: old)) with (owned st ++ owned_all old) in *.
    change (tops_all (st :: old)) with (tops st ++ tops_all old) in *.
    rewrite <-app_assoc in Hn, Ho, Hl, He.
    pose proof Hn as Hn'. apply NoDup_app in Hn' as (Hn1 & Hdis & Hn2).
    pose proof (proj1 (located_app _ _ _ _) Hl) as [Hl1 _].
    assert (sublist (tops_all old ++ [m]) (owned_all old ++ [m])) as Hsub
      by (apply sublist_app_2; [apply all_tops_owned|done]). apply sublist_subseteq in Hsub.
    destruct (vl_rebuild v st d _ Hd Hc Hn1 Hl1) as (st' & d1 & E1 & C1 & S1 & R1).
    { apply outside_before. eapply outside_sub; [done|set_solver]. }
    pose proof (rep_kept _ _ _ _ _ _ _ R1) as K1. rewrite place_parent_before in K1.
    assert (diff_ready m old (place_after (tops st') l) d1) as Hr1.
    { split; [apply R1| | |done| |apply outside_after; eapply outside_sub; [done|set_solver]].
      - eapply all_kept; [done|done|intros n Hx Hx'; apply (Hdis n Hx'); set_solver|].
        intros q Hq Hx. apply (Ho q Hq). set_solver.
      - eapply marker_kept; [done|done|intros Hx; apply (Hdis m Hx); set_solver|].
        intros Hq. apply (Ho m Hq). set_solver.
      - eapply replaces_rest; [done|done| |]; intros n Hx%Hsub; [apply He; set_solver|].
        intros Hx'. by apply (Hdis n). }
    destruct (IH old d1 _ Hr1) as (r & d2 & E2 & [B1 B2 B3 B4 B5 B6]).
    exists (st' :: r.1.1, r.1.2, r.2), d2. cbn.
    rewrite (bind_Ok _ _ _ _ _ E1), (bind_Ok _ _ _ _ _ E2).
    assert (kept_states (st' :: r.1.1, r.1.2, r.2) = st' :: kept_states r) as Hk.
    { unfold kept_states. cbn [fst snd length]. by rewrite Nat.sub_succ_l by done. }
    split; [done|]. split; rewrite ?Hk; cbn [fst snd]; try done; [cbn; lia| | |].
    + constructor; [|done]. eapply consistent_kept; [exact C1|apply B6| |].
      * intros n Hx Hx'. destruct (rep_fresh _ _ _ _ _ _ _ R1 n Hx) as [Hx2|Hx2]; [by apply (Hdis n)|].
        apply (He n); [set_solver|done].
      * rewrite place_parent_after. intros q Hq Hx. destruct (rep_fresh _ _ _ _ _ _ _ R1 q Hx) as [Hx2|Hx2];
          [apply (Ho q Hq); set_solver|].
        destruct l as [[[p pre] post]|]; [|done]. injection Hq as ->. destruct Hl as [[tag Hel] _]. congruence.
    + unfold state_shape_all, shape_all in *. cbn. by rewrite S1, B5.
    + change (owned_all (st' :: kept_states r)) with (owned st' ++ owned_all (kept_states r)).
      change (tops_all (st' :: kept_states r)) with (tops st' ++ tops_all (kept_states r)).
      change (owned_all (st :: old)) with (owned st ++ owned_all old).
      change (tops_all (st :: old)) with (tops st ++ tops_all old).
      rewrite <-!app_assoc. apply (replaces_app d d1 d2); try done. apply tops_sub.
Qed.
End sequences.

Section instances.
Context {D : Type} `{DomLaws D}.
Context {A SA : Type} `{Render D A SA, !ViewLaws D A SA}.

(** ** [Vec] *)

Definition vec_consistent (st : VecState SA) (d : D) : Prop :=
  consistent_all (vs_states st) d ∧ marker_ok (vs_marker st) d.
Definition vec_owned (st : VecState SA) : list nat := owned_all (vs_states st) ++ [vs_marker st].
Definition vec_tops (st : VecState SA) : list nat := tops_all (vs_states st) ++ [vs_marker st].

Lemma vec_exist st d : vec_consistent st d → exist d (vec_owned st).
Proof.
  intros [Hc Hm] n [Hn|Hn]%elem_of_app; [by apply (all_exist (vs_states st))|].
  assert (n = vs_marker st) as -> by set_solver. by apply marker_exists.
Qed.

Lemma snoc_cons (n m : nat) l : n ∈ l ++ [m] → n ∈ m :: l.
Proof. set_solver. Qed.

Lemma vec_build_ok v d : dom_ok d →
  ∃ st d', vec_build v d = Ok (st, d') ∧ vec_consistent st d' ∧
    state_shape_all (vs_states st) ++ [ShComment] = shape_all v ++ [ShComment] ∧
    replaces d d' None [] [] (vec_owned st) (vec_tops st).
Proof.
  intros Hd. destruct (create_node_ok NComment d Hd) as (m & d1 & E1 & Hd1 & Hk & Hch & _ & R1).
  destruct (build_all_ok v d1 Hd1) as (sts & d2 & E2 & C2 & S2 & R2).
  exists (mkVecState sts m), d2. unfold vec_build, create_placeholder.
  rewrite (bind_Ok _ _ _ _ _ E1), (bind_Ok _ _ _ _ _ E2). split_and!; [done| |cbn [vs_states]; by rewrite S2|].
  - split; [done|]. eapply (marker_kept m d1); [done|apply R2|set_solver|done].
  - pose proof (built_app _ _ _ _ _ _ _ Hd R1 R2) as [A1 A2 A3 A4 A5 A6 A7]. unfold vec_owned, vec_tops. cbn in *.
    pose proof (λ n Y, snoc_cons n m Y) as Hin.
    split; [done|by rewrite Permutation_app_comm| | | | |done].
    + apply sublist_subseteq, sublist_app_2; [apply all_tops_owned|done].
    + intros n Hx%Hin. by apply A4.
    + intros n Hx%Hin. by apply A5.
    + intros n Hx%Hin. by apply A6.
Qed.

(** Nothing is there yet: everything is built and mounted before the marker. *)
Lemma vec_fill_ok v m d l : diff_ready (A := A) m [] l d →
  ∃ new d2 d3, vec_build v d = Ok (new, d2) ∧
    for_each (λ item, _ ← try_mount_before (r_mount item) m; mret tt) (vs_states new) d2 = Ok (tt, d3) ∧
    vec_consistent (mkVecState (vs_states new) m) d3 ∧
    state_shape_all (vs_states new) = shape_all v ∧
    replaces d d3 l [m] [m] (vec_owned (mkVecState (vs_states new) m)) (vec_tops (mkVecState (vs_states new) m)).
Proof.
  intros Hr. pose proof Hr as [Hd _ Hm Hn Hl Ho]. cbn in Hl, Ho.
  assert (dom_kind d m ≠ None) as Hem by by apply marker_exists.
  destruct (vec_build_ok v d Hd) as (new & d2 & E2 & [C2 _] & S2 & [A1 A2 A3 A4 A5 A6 A7]).
  apply app_inv_tail in S2. unfold vec_owned, vec_tops in A2, A3, A4, A5, A6.
  apply NoDup_app in A2 as (A2 & _ & _).
  assert (∀ n, n ∈ owned_all (vs_states new) → dom_kind d n = None) as Hfresh.
  { intros n Hx. destruct (A4 n); [set_solver|set_solver|done]. }
  assert (outside (owned_all (vs_states new)) l) as Hol.
  { intros p Hp Hx%Hfresh. destruct l as [[[q pre] post]|]; [|done]. injection Hp as ->.
    destruct Hl as [[tag Hel] _]. congruence. }
  assert (located d2 l [m]) as Hl2.
  { eapply located_kept; [exact A7|done| |intros p _; set_solver|set_solver|done].
    intros n Hx. by assert (n = m) as -> by set_solver. }
  destruct (try_mount_all_ok (vs_states new) m d2 l A1 C2 A2) as (d3 & E3 & Hd3 & M3 & L3 & C3);
    [intros n Hx; apply A6; set_solver|done|done|].
  assert (kept [] (place_parent l) d d3) as Hk.
  { eapply (kept_trans [] (tops_all (vs_states new)) _ _ d d2 d3); [by apply kept_None|by apply moved_kept|done|].
    intros n Hx. right. apply Hfresh. by eapply sublist_subseteq; [apply all_tops_owned|]. }
  exists new, d2, d3. split_and!; [done|done| |done|].
  - split; [done|]. eapply (marker_kept m d); [done|done|set_solver|]. intros Hq. apply (Ho m Hq). set_solver.
  - unfold vec_owned, vec_tops. cbn. split; [done| | | | |done|eapply kept_weaken; [done|set_solver]].
    + apply NoDup_app. split_and!; [done| |apply NoDup_singleton]. intros n Hx%Hfresh Hx2.
      assert (n = m) as -> by set_solver. done.
    + apply sublist_subseteq, sublist_app_2; [apply all_tops_owned|done].
    + intros n [Hx|Hx]%elem_of_app; [right; by apply Hfresh|by left].
    + intros n [Hx|Hx]%elem_of_app; rewrite (proj1 M3); [apply A5; set_solver|].
      assert (n = m) as -> by set_solver. destruct (A7 m Hem) as [-> _]; [set_solver|done].
Qed.

Lemma vec_rebuild_ok v st d l : dom_ok d → vec_consistent st d → NoDup (vec_owned st) →
  located d l (vec_tops st) → outside (vec_owned st) l →
  ∃ st' d', vec_rebuild v st d = Ok (st', d') ∧ vec_consistent st' d' ∧
    state_shape_all (vs_states st') ++ [ShComment] = shape_all v ++ [ShComment] ∧
    replaces d d' l (vec_owned st) (vec_tops st) (vec_owned st') (vec_tops st').
Proof.
  intros Hd [Hc Hm] Hn Hl Ho. destruct st as [old m].
  assert (diff_ready m old l d) as Hr by done. unfold vec_rebuild. cbn [vs_states vs_marker].
  destruct old as [|st0 old]; [|destruct v as [|v0 v]].
  - destruct (vec_fill_ok v m d l Hr) as (new & d2 & d3 & E2 & E3 & C & S & R).
    exists (mkVecState (vs_states new) m), d3.
    rewrite (bind_Ok _ _ _ _ _ E2), (bind_Ok _ _ _ _ _ E3). cbn [vs_states]. by rewrite S.
  - destruct (drop_front _ _ _ d l (all_unmounts (st0 :: old)) Hd Hl) as (d1 & E1 & Hd1 & M1 & L1).
    exists (mkVecState [] m), d1. rewrite (bind_Ok _ _ _ _ _ E1).
    assert (m ∉ tops_all (st0 :: old)) as Hmt.
    { intros Hx. apply NoDup_app in Hn as (_ & Hdis & _). apply (Hdis m); [|set_solver].
      by eapply sublist_subseteq; [apply all_tops_owned|]. }
    assert (place_parent l ≠ Some m) as Hpm by (intros Hq; apply (Ho m Hq); unfold vec_owned; cbn; set_solver).
    assert (marker_ok m d1) as Hm1 by (by eapply marker_kept; [|by apply moved_kept|..]).
    split_and!; [done|by split; [constructor|]|done|].
    assert (moved (vec_owned (mkVecState (st0 :: old) m)) (place_parent l) d d1) as M1'.
    { destruct M1 as (? & M & ?). split_and!; [done| |done]. intros n Hx. apply M. intros Hx'. apply Hx.
      unfold vec_owned. apply elem_of_app. left. by eapply sublist_subseteq; [apply all_tops_owned|]. }
    eapply (replaces_after_moved d d1 d1 l _ _ []); [done| |done].
    eapply (replaces_weaken _ _ _ [m] [m]); [|unfold vec_owned; cbn; set_solver].
    apply replaces_refl; [done|apply NoDup_singleton|done| |done].
    intros n Hx. assert (n = m) as -> by set_solver. by apply marker_exists.
  - destruct (diff_ok m (v0 :: v) (st0 :: old) d l Hr) as ([[olds adds] rem] & d' & E & [B1 B2 B3 B4 B5 B6]).
    exists (mkVecState (take (length olds - rem) olds ++ adds) m), d'.
    rewrite (bind_Ok _ _ _ _ _ E). split_and!; [done|done| |done]. cbn [vs_states].
    unfold kept_states in B5. cbn [fst snd] in B5. by rewrite B5.
Qed.

#[export] Instance vec_laws : ViewLaws D (list A) (VecState SA).
Proof.
  refine {|
    tops := vec_tops;
    owned := vec_owned;
    shape v := shape_all v ++ [ShComment];
    state_shape st := state_shape_all (vs_states st) ++ [ShComment];
    consistent := vec_consistent;
  |}.
  - intros st. apply sublist_app_2; [apply all_tops_owned|done].
  - intros st E. by apply app_nil in E as [_ ?].
  - apply vec_exist.
  - intros st d Hd [Hc Hm] n m [Hx|Hx]%elem_of_app Hch; apply elem_of_app.
    + left. by apply (all_closed _ d Hd Hc n).
    + right. by apply (vl_closed (V := unit) (vs_marker st) d Hd Hm n).
  - intros st d d' [Hc Hm] Hf. split; [eapply all_frame; [done|]|eapply (vl_frame (V := unit)); [done|]];
      intros n Hx; apply Hf, elem_of_app; auto.
  - intros st d [Hc Hm]. apply Forall2_app; [by apply all_shows|exact (vl_shows (V := unit) (vs_marker st) d Hm)].
  - intros st. apply (mounts_app _ _ _ _ (all_mounts _) (node_mounts _)).
  - intros st. apply (unmounts_app _ _ _ _ (all_unmounts _) (node_unmounts _)).
  - intros st. apply (inserts_app _ _ _ _ (all_inserts _) (node_inserts _)).
  - apply vec_build_ok.
  - apply vec_rebuild_ok.
Defined.

(** ** HTML elements *)

Definition element_owned (st : ElementState SA) : list nat :=
  es_el st :: match es_children st with Some c => owned c | None => [] end.
Definition element_consistent (tag : str) (st : ElementState SA) (d : D) : Prop :=
  dom_kind d (es_el st) = Some (NElement tag) ∧
  match es_children st with
  | Some c => dom_children d (es_el st) = tops c ∧ consistent c d
  | None => dom_children d (es_el st) = []
  end.
(** Children that an element with [self_closing] does not have are not shown. *)
Definition element_shape (tag : str) (self_closing : bool) (v : A) : list shape_node :=
  [ShElement tag (if self_closing then [] else shape v)].
Definition element_state_shape (tag : str) (st : ElementState SA) : list shape_node :=
  [ShElement tag (match es_children st with Some c => state_shape c | None => [] end)].

Lemma shows_element d n tag xs :
  dom_kind d n = Some (NElement tag) → shows_all d (dom_children d n) xs → shows d n (ShElement tag xs).
Proof.
  intros Hk Hs. cbn. split; [done|]. revert xs Hs. generalize (dom_children d n).
  intros ns xs Hs. induction Hs; [done|]. by split.
Qed.

Lemma element_build_ok tag sc v d : dom_ok d →
  ∃ st d', element_build tag sc v d = Ok (st, d') ∧ element_consistent tag st d' ∧
    (is_Some (es_children st) ↔ sc = false) ∧
    element_state_shape tag st = element_shape tag sc v ∧
    replaces d d' None [] [] (element_owned st) [es_el st].
Proof.
  intros Hd. destruct (create_node_ok (NElement tag) d Hd) as (el & d1 & E1 & Hd1 & Hk & Hch & K1 & R1).
  unfold element_build, create_element. rewrite (bind_Ok _ _ _ _ _ E1). destruct sc.
  - exists (mkElementState el None), d1. split_and!; [done|done| |done|done].
    by split; [intros [? ?]|].
  - destruct (vl_build v d1 Hd1) as (c & d2 & E2 & C2 & S2 & R2).
    pose proof R2 as [A1 A2 A3 A4 A5 A6 A7].
    assert (el ∉ owned c) as Hel by (intros Hx; destruct (A4 el Hx); [set_solver|congruence]).
    destruct (A7 el) as (Kk & _ & Kc); [congruence|set_solver|].
    destruct (view_mount_ok c d2 el None [] []) as (d3 & E3 & Hd3 & M3 & Ch3 & C3); [done..| |].
    { split_and!; [exists tag; congruence|by rewrite Kc|done]. }
    exists (mkElementState el (Some c)), d3.
    assert ((children ← r_build v; _ ← r_mount children el None; mret (Some children)) d1 = Ok (Some c, d3)) as E23.
    { by rewrite (bind_Ok _ _ _ _ _ E2), (bind_Ok _ _ _ _ _ E3). }
    rewrite (bind_Ok _ _ _ _ _ E23). split_and!; [done| |done| |].
    + split; cbn; [by rewrite (proj1 M3), Kk|]. split; [|done]. by rewrite Ch3, app_nil_r.
    + unfold element_state_shape, element_shape. cbn. by rewrite S2.
    + pose proof (built_app _ _ _ _ _ _ _ Hd R1 R2) as [B1 B2 B3 B4 B5 B6 B7].
      split; [done|done|set_solver|done| | |].
      * intros n Hx. rewrite (proj1 M3). by apply B5.
      * intros n Hx. assert (n = el) as -> by set_solver. destruct M3 as (_ & -> & _); [apply B6; set_solver|].
        by intros ?%tops_sub.
      * intros n Hx _. destruct (B7 n Hx) as (P1 & P2 & P3); [set_solver|]. destruct M3 as (Q1 & Q2 & Q3).
        assert (n ≠ el) as Hne. { intros ->. destruct (rep_fresh _ _ _ _ _ _ _ R1 el); set_solver. }
        rewrite Q1, Q2, Q3; [by split_and!; try apply P3|congruence|].
        intros Hx2%tops_sub. destruct (B4 n); set_solver.
Qed.

Lemma element_rebuild_ok tag v st d l : dom_ok d → element_consistent tag st d → NoDup (element_owned st) →
  located d l [es_el st] → outside (element_owned st) l →
  ∃ st' d', element_rebuild v st d = Ok (st', d') ∧ element_consistent tag st' d' ∧
    (is_Some (es_children st') ↔ is_Some (es_children st)) ∧
    element_state_shape tag st' =
      element_shape tag (match es_children st with Some _ => false | None => true end) v ∧
    replaces d d' l (element_owned st) [es_el st] (element_owned st') [es_el st'].
Proof.
  intros Hd [Hk Hc] Hn Hl Ho. destruct st as [el [c|]]; cbn in *.
  - destruct Hc as [Hch Hc]. apply NoDup_cons in Hn as [Hel Hn].
    destruct (vl_rebuild v c d (Some (el, [], [])) Hd Hc Hn) as (c' & d' & E & C & S & R).
    { split; [by exists tag|]. by rewrite app_nil_r. }
    { by intros p [= <-]. }
    pose proof R as [A1 A2 A3 A4 A5 A6 A7]. destruct (A7 el) as (K1 & K2 & _); [congruence|done|].
    assert (el ∉ owned c') as Hel' by (intros Hx; destruct (A4 el Hx); [done|congruence]).
    exists (mkElementState el (Some c')), d'. unfold element_rebuild. cbn [es_children es_el].
    rewrite (bind_Ok _ _ _ _ _ E). split_and!; [done| |done| |].
    + split; [cbn; congruence|]. cbn. split; [|done]. destruct A6 as [_ ->]. by rewrite app_nil_r.
    + unfold element_state_shape, element_shape. cbn. by rewrite S.
    + split; [done|by constructor|set_solver| | | |].
      * intros n [->|Hx]%elem_of_cons; [left; set_solver|]. destruct (A4 n Hx); [left; set_solver|by right].
      * intros n [->|Hx]%elem_of_cons; [cbn; congruence|by apply A5].
      * destruct l as [[[p pre] post]|]; cbn in *.
        -- destruct Hl as [[ptag Hp] Hpc]. pose proof (Ho p eq_refl) as Hpo.
           destruct (A7 p) as (P1 & _ & P3); [congruence|set_solver|].
           split; [exists ptag; congruence|]. rewrite P3; [done|]. intros [= ->]. set_solver.
        -- intros n Hx. assert (n = el) as -> by set_solver. rewrite K2. by apply Hl.
      * intros n Hx Hx2. destruct (A7 n Hx) as (P1 & P2 & P3); [set_solver|]. split_and!; [done|done|].
        intros _. apply P3. intros [= ->]. set_solver.
  - exists (mkElementState el None), d. split_and!; [done|done|done|done|]. apply replaces_refl; try done.
    intros n Hx. assert (n = el) as -> by set_solver. congruence.
Qed.

Definition element_laws (tag : str) (sc : bool) :
  @ViewLaws D A (ElementState SA) _ _ (element_Render tag sc).
Proof.
  refine (@Build_ViewLaws D A (ElementState SA) _ _ (element_Render tag sc)
    (λ st, [es_el st])
    element_owned
    (element_shape tag sc)
    (element_state_shape tag)
    (λ st d, element_consistent tag st d ∧ (is_Some (es_children st) ↔ sc = false))
    _ _ _ _ _ _ _ _ _ _ _).
  - intros st. apply sublist_skip, sublist_nil_l.
  - done.
  - intros [el [c|]] d [[Hk Hc] _] n [->|Hn]%elem_of_cons; cbn in *; [congruence| |congruence|set_solver].
    by apply (vl_exist c d (proj2 Hc)).
  - intros [el [c|]] d Hd [[Hk Hc] _] n m [->|Hn]%elem_of_cons Hm; cbn in *.
    + destruct Hc as [Hch _]. rewrite Hch in Hm. apply elem_of_cons. right. by apply tops_sub.
    + destruct Hc as [_ Hc]. apply elem_of_cons. right. by apply (vl_closed c d Hd Hc n).
    + rewrite Hc in Hm. set_solver.
    + set_solver.
  - intros [el [c|]] d d' [[Hk Hc] Hs] Hf; split; try done; destruct (Hf el) as [Hk' Hch']; [left| |left|];
      split; cbn in *; [congruence| |congruence|congruence].
    destruct Hc as [Hch Hc]. split; [congruence|]. apply (vl_frame c d); [done|].
    intros n Hn. apply Hf. by right.
  - intros st d [[Hk Hc] _]. constructor; [|constructor]. apply shows_element; [done|].
    destruct (es_children st) as [c|]; [destruct Hc as [-> Hc]; by apply vl_shows|rewrite Hc; constructor].
  - intros st. apply node_mounts.
  - intros st. apply node_unmounts.
  - intros st. apply node_inserts.
  - intros v d Hd. destruct (element_build_ok tag sc v d Hd) as (st & d' & E & C & Hs & S & R).
    by exists st, d'.
  - intros v st d l Hd [C Hs] Hn Hl Ho.
    destruct (element_rebuild_ok tag v st d l Hd C Hn Hl Ho) as (st' & d' & E & C' & Hs' & S & R).
    exists st', d'. split; [done|]. split; [split; [done|by rewrite Hs']|]. split; [|done].
    rewrite S. do 2 f_equal. destruct (es_children st), sc; try done; exfalso.
    + by pose proof (proj1 Hs (mk_is_Some _ _ eq_refl)).
    + by destruct (proj2 Hs eq_refl) as [? ?].
Defined.
End instances.

(** ** Every type of view *)

Fixpoint view_laws {D} `{DomLaws D} (t : view_type) :
    @ViewLaws D (view t) (state t) _ _ (view_Render t) :=
  match t with
  | TString => str_laws
  | TUnit => unit_laws
  | TTuple a b => @tuple_laws D _ _ _ _ _ _ _ (view_laws a) _ (view_laws b)
  | TEither a b => @either_laws D _ _ _ _ _ _ _ (view_laws a) _ (view_laws b)
  | TOption a => @option_laws D _ _ _ _ _ (view_laws a)
  | TVec a => @vec_laws D _ _ _ _ _ (view_laws a)
  | TElement e c => @element_laws D _ _ _ _ _ (view_laws c) (TAG e) (SELF_CLOSING e)
  end.
