(* ===== verification/ViewProps.v ===== *)
(** * What a view shows

    A mounted view shows, after any number of rebuilds, what a fresh view of
    the last value would show, in the place where it was mounted, and nothing
    else in the document changes. *)

From stdpp Require Import base gmap list strings sets relations.
From S2P Require Import Prelude RustStr Dom Views ViewSpec ViewInst ViewVec.

(** What a view looks like, for every type of view.  Sides that may be empty
    are marked by a comment: [()], [None], and the end of a vector. *)
Fixpoint view_shape (t : view_type) : view t → list shape_node :=
  match t with
  | TString => λ s, [ShText s]
  | TUnit => λ _, [ShComment]
  | TTuple a b => λ v, view_shape a v.1 ++ view_shape b v.2
  | TEither a b => λ v, match v with inl v => view_shape a v | inr v => view_shape b v end
  | TOption a => λ v, match v with Some v => view_shape a v | None => [ShComment] end
  | TVec a => λ v, concat (map (view_shape a) v) ++ [ShComment]
  | TElement e a => λ v, [ShElement (TAG e) (if SELF_CLOSING e then [] else view_shape a v)]
  end.

Lemma last_default {A} (x : A) l a b : List.last (x :: l) a = List.last (x :: l) b.
Proof. revert x. induction l as [|y l IH]; intros x; [done|]. apply (IH y). Qed.

Lemma last_cons_default {A} (w : A) l v : List.last (w :: l) v = List.last l w.
Proof. destruct l as [|x l]; [done|]. exact (last_default x l v w). Qed.

Section programs.
Context {D : Type} `{Dom D}.
Variable t : view_type.

Definition build_and_mount (v : view t) (p : nat) (marker : option nat) : stateM D (state t) :=
  st ← @r_build D _ _ (view_Render t) v;
  _ ← @r_mount D _ _ (view_Render t) st p marker;
  mret st.
Fixpoint rebuild_all (vs : list (view t)) (st : state t) : stateM D (state t) :=
  match vs with
  | [] => mret st
  | v :: vs => st ← @r_rebuild D _ _ (view_Render t) v st; rebuild_all vs st
  end.
Definition show_then (v : view t) (vs : list (view t)) (p : nat) (marker : option nat) : stateM D (state t) :=
  st ← build_and_mount v p marker; rebuild_all vs st.
End programs.

Section shows.
Context {D : Type} `{DomLaws D}.

Lemma view_shape_laws t v : @shape D _ _ _ _ _ (view_laws t) v = view_shape t v.
Proof.
  induction t as [| |a IHa b IHb|a IHa b IHb|a IHa|a IHa|e a IHa]; cbn in *.
  - done.
  - done.
  - by rewrite IHa, IHb.
  - destruct v; [apply IHa|apply IHb].
  - destruct v; [apply IHa|done].
  - f_equal. unfold shape_all. f_equal. apply map_ext. apply IHa.
  - unfold element_shape. by rewrite IHa.
Qed.

(** A view in its place: its state is intact, and the document shows it. *)
Record in_place t (d0 d : D) (p : nat) (pre post : list nat) (v : view t) (st : state t) : Prop := mk_in_place {
  ip_ok : dom_ok d;
  ip_consistent : @consistent D _ _ _ _ _ (view_laws t) st d;
  ip_NoDup : NoDup (@owned D _ _ _ _ _ (view_laws t) st);
  ip_located : located d (Some (p, pre, post)) (@tops D _ _ _ _ _ (view_laws t) st);
  ip_fresh : ∀ n, n ∈ @owned D _ _ _ _ _ (view_laws t) st → dom_kind d0 n = None;
  ip_shape : @state_shape D _ _ _ _ _ (view_laws t) st = view_shape t v;
  ip_kept : kept [] (Some p) d0 d;
}.

Lemma mount_in_place t v d p pre post : dom_ok d → is_element d p → dom_children d p = pre ++ post →
  ∃ st d', build_and_mount t v p (head post) d = Ok (st, d') ∧ in_place t d d' p pre post v st.
Proof.
  intros Hd Hel Hch. pose (Hr := view_Render (D := D) t). pose (L := view_laws (D := D) t).
  destruct (@vl_build D _ _ _ _ Hr L v d Hd) as (st & d1 & E1 & C1 & S1 & R1).
  pose proof R1 as [A1 A2 A3 A4 A5 A6 A7].
  assert (dom_kind d p ≠ None) as Hp by (destruct Hel; congruence).
  destruct (A7 p Hp) as (K1 & _ & K3); [set_solver|].
  destruct (mount_built st d d1 (Some (p, pre, post)) (tops st) pre post p R1 C1 Hp) as (d2 & E2 & C2 & [B1 B2 B3 B4 B5 B6 B7]);
    [|done|done|].
  { split_and!; [destruct Hel as [tag Ht]; exists tag; congruence|by rewrite K3|done]. }
  exists st, d2. unfold build_and_mount. fold Hr.
  rewrite (bind_Ok _ _ _ _ _ E1), (bind_Ok _ _ _ _ _ E2). split; [done|]. split; try done.
  - intros n Hn. destruct (B4 n Hn); [set_solver|done].
  - exact (eq_trans S1 (view_shape_laws t v)).
Qed.

Lemma rebuild_in_place t v w st d0 d p pre post :
  dom_kind d0 p ≠ None → in_place t d0 d p pre post v st →
  ∃ st' d', @r_rebuild D _ _ (view_Render t) w st d = Ok (st', d') ∧ in_place t d0 d' p pre post w st'.
Proof.
  intros Hp [A1 A2 A3 A4 A5 A6 A7].
  destruct (@vl_rebuild D _ _ _ _ _ (view_laws t) w st d _ A1 A2 A3 A4) as (st' & d' & E & C & S & [B1 B2 B3 B4 B5 B6 B7]).
  { intros q [= <-] Hx. by apply Hp, A5. }
  assert (∀ n, n ∈ @owned D _ _ _ _ _ (view_laws t) st' → dom_kind d0 n = None) as Hf.
  { intros n Hn. destruct (B4 n Hn) as [|Hk]; [by apply A5|].
    destruct (dom_kind d0 n) eqn:E0; [|done]. destruct (A7 n) as [K _]; [congruence|set_solver|congruence]. }
  exists st', d'. split; [done|]. split; try done; [exact (eq_trans S (view_shape_laws t w))|].
  eapply (kept_trans [] _ _ _ d0 d d'); [done|done|done|]. intros n Hn. right. by apply A5.
Qed.

Lemma rebuild_all_in_place t vs v st d0 d p pre post :
  dom_kind d0 p ≠ None → in_place t d0 d p pre post v st →
  ∃ st' d', rebuild_all t vs st d = Ok (st', d') ∧ in_place t d0 d' p pre post (List.last vs v) st'.
Proof.
  intros Hp. revert v st d. induction vs as [|w vs IH]; intros v st d Hi.
  - by exists st, d.
  - destruct (rebuild_in_place t v w st d0 d p pre post Hp Hi) as (st1 & d1 & E1 & Hi1).
    destruct (IH w st1 d1 Hi1) as (st2 & d2 & E2 & Hi2). exists st2, d2. cbn [rebuild_all].
    rewrite (bind_Ok _ _ _ _ _ E1). split; [done|].
    by rewrite (last_cons_default w vs v).
Qed.
End shows.

Section properties.
Context {D : Type} `{DomLaws D}.

(** C4: A view of any type (strings, [()], tuples, [Either], [Option], [Vec],
    elements, nested at will) that is built, mounted among the children of an
    element and then rebuilt any number of times shows exactly what its last
    value looks like, between the same neighbours; no step panics, and every
    other node of the document stays what and where it was. *)
Theorem rebuild_shows_last_value t (v : view t) (vs : list (view t)) (d : D) p pre post :
  dom_ok d → is_element d p → dom_children d p = pre ++ post →
  ∃ st d' ns, show_then t v vs p (head post) d = Ok (st, d') ∧
    dom_children d' p = pre ++ ns ++ post ∧
    shows_all d' ns (view_shape t (List.last vs v)) ∧
    kept [] (Some p) d d' ∧ dom_ok d'.
Proof.
  intros Hd Hel Hch. assert (dom_kind d p ≠ None) as Hp by (destruct Hel; congruence).
  destruct (mount_in_place t v d p pre post Hd Hel Hch) as (st & d1 & E1 & Hi1).
  destruct (rebuild_all_in_place t vs v st d d1 p pre post Hp Hi1) as (st' & d' & E2 & [A1 A2 A3 A4 A5 A6 A7]).
  exists st', d'. unfold show_then. rewrite (bind_Ok _ _ _ _ _ E1).
  eexists. split; [done|]. split; [apply A4|]. split; [|done]. rewrite <-A6. by apply (@vl_shows D _ _ _ _ _ (view_laws t)).
Qed.

(** C26: Unmounting a view, whatever it was rebuilt to, takes all of its nodes
    away and nothing else: its neighbours are next to each other again, and
    its state stays intact, so that mounting it elsewhere shows it again. *)
Theorem unmount_restores_parent t (v : view t) (vs : list (view t)) (d : D) p pre post :
  dom_ok d → is_element d p → dom_children d p = pre ++ post →
  ∃ st d1 d2, show_then t v vs p (head post) d = Ok (st, d1) ∧
    @r_unmount D _ _ (view_Render t) st d1 = Ok (tt, d2) ∧
    dom_children d2 p = pre ++ post ∧ kept [] (Some p) d d2 ∧ dom_ok d2 ∧
    ∀ q pre' post', is_element d q → dom_children d2 q = pre' ++ post' →
      ∃ d3 ns, @r_mount D _ _ (view_Render t) st q (head post') d2 = Ok (tt, d3) ∧
        dom_children d3 q = pre' ++ ns ++ post' ∧
        shows_all d3 ns (view_shape t (List.last vs v)).
Proof.
  intros Hd Hel Hch. assert (dom_kind d p ≠ None) as Hp by (destruct Hel; congruence).
  destruct (mount_in_place t v d p pre post Hd Hel Hch) as (st0 & d0 & E0 & Hi0).
  destruct (rebuild_all_in_place t vs v st0 d d0 p pre post Hp Hi0) as (st & d1 & E1 & [A1 A2 A3 A4 A5 A6 A7]).
  destruct (@vl_unmounts D _ _ _ _ _ (view_laws t) st d1 _ A1 A4) as (d2 & E2 & Hd2 & M2 & L2 & L2').
  assert (kept [] (Some p) d d2) as Hk.
  { eapply (kept_trans [] _ _ _ d d1 d2); [done|by apply moved_kept|done|].
    intros n Hn. right. by apply A5, (@tops_sub D _ _ _ _ _ (view_laws t)). }
  assert (∀ q, dom_kind d q ≠ None → q ∉ @owned D _ _ _ _ _ (view_laws t) st) as Hout.
  { intros q Hq Hx. by apply Hq, A5. }
  exists st, d1, d2. unfold show_then. rewrite (bind_Ok _ _ _ _ _ E0).
  split_and!; [done|done|apply L2'|done|done|]. intros q pre' post' Hq Hchq.
  assert (dom_kind d q ≠ None) as Hqe by (destruct Hq; congruence).
  destruct (@view_mount_ok D _ _ _ _ _ (view_laws t) st d2 q (head post') pre' post') as (d3 & E3 & Hd3 & M3 & Ch3 & C3); [done| |done|done|by apply Hout| |].
  - eapply (@consistent_moved D _ _ _ _ _ (view_laws t)); [done|done|]. intros r [= <-]. by apply Hout.
  - split_and!; [|done|done]. destruct (Hk q Hqe) as [K _]; [set_solver|]. destruct Hq as [tag Ht]. exists tag. congruence.
  - eexists d3, _. split_and!; [done|done|]. rewrite <-A6. by apply (@vl_shows D _ _ _ _ _ (view_laws t)).
Qed.
End properties.

(** ** A list of optional items below a title *)

Definition element (tag : string) : element_type := mkElementType (lit tag) false true true.
Definition sample_type : view_type :=
  TTuple (TElement (element "h1") TString)
    (TVec (TEither (TElement (element "p") (TTuple TString (TOption TString))) TUnit)).
Definition sample_first : view sample_type := (lit "One", [inr tt; inl (lit "a", None)]).
Definition sample_last : view sample_type := (lit "Two", [inl (lit "b", Some (lit "c")); inr tt; inr tt]).

Lemma empty_document_ok : dom_ok empty_document ∧ is_element empty_document 0.
Proof.
  split; [|by exists (lit "body")]. split_and!.
  - intros p n. unfold doc_children_of. cbn. rewrite !lookup_empty. cbn. set_solver.
  - intros p. unfold doc_children_of. cbn. rewrite lookup_empty. apply NoDup_nil_2.
  - intros p n Hn. cbn in Hn. by rewrite lookup_empty in Hn.
  - intros n Hn. cbn in *. apply lookup_singleton_ne. lia.
Qed.

Lemma rebuild_shows_last_value_witness :
  ∃ st d' ns, show_then sample_type sample_first [sample_last; sample_first; sample_last] 0 None
      empty_document = Ok (st, d') ∧
    dom_children d' 0 = [] ++ ns ++ [] ∧
    shows_all d' ns [ShElement (lit "h1") [ShText (lit "Two")];
                     ShElement (lit "p") [ShText (lit "b"); ShText (lit "c")];
                     ShComment; ShComment; ShComment].
Proof.
  destruct (rebuild_shows_last_value sample_type sample_first [sample_last; sample_first; sample_last]
    empty_document 0 [] [] (proj1 empty_document_ok) (proj2 empty_document_ok) eq_refl)
    as (st & d' & ns & H1 & H2 & H3 & _).
  exists st, d', ns. split; [exact H1|]. split; [exact H2|exact H3].
Defined.

Lemma unmount_restores_parent_witness :
  ∃ st d1 d2, show_then sample_type sample_first [sample_last] 0 None empty_document = Ok (st, d1) ∧
    @r_unmount document _ _ (view_Render sample_type) st d1 = Ok (tt, d2) ∧
    dom_children d2 0 = [].
Proof.
  destruct (unmount_restores_parent sample_type sample_first [sample_last]
    empty_document 0 [] [] (proj1 empty_document_ok) (proj2 empty_document_ok) eq_refl)
    as (st & d1 & d2 & H1 & H2 & H3 & _).
  exists st, d1, d2. split; [exact H1|]. split; [exact H2|exact H3].
Defined.
