(* ===== verification/Html.v ===== *)
(** * Server rendering and hydration

    [RenderHtml] of [tachys/src/view/mod.rs] for the views of [Views]:
    [to_html_with_buf], which prints a view, and [hydrate], which walks over
    the document that a browser made of the text with the [Cursor] of
    [hydration.rs] and takes its nodes over.  Escaping is done by the
    [html_escape] crate, a parameter.  Attributes are left out, and of
    [hydrate] this is the variant for text that came from the server. *)

From stdpp Require Import base list strings.
From S2P Require Import Prelude RustStr Dom Views.

Inductive Position :=
| Current
| FirstChild
| NextChild
| NextChildAfterText
| OnlyChild
| LastChild.

#[export] Instance Position_eq_dec : EqDecision Position.
Proof. solve_decision. Defined.

Record RenderFlags := mkRenderFlags {
  escape : bool;
  hydrate_markers : bool;
  mark_branches : bool;
}.
Definition HYDRATE : RenderFlags := mkRenderFlags true true false.
Definition HYDRATE_BRANCHING : RenderFlags := mkRenderFlags true true true.
Definition with_escape (b : bool) (f : RenderFlags) : RenderFlags :=
  mkRenderFlags b (hydrate_markers f) (mark_branches f).
Definition with_hydrate (b : bool) (f : RenderFlags) : RenderFlags :=
  mkRenderFlags (escape f) b (mark_branches f).

(** [RenderHtml::EXISTS] *)
Fixpoint EXISTS (t : view_type) : bool :=
  match t with
  | TUnit => false
  | TTuple a b => EXISTS a || EXISTS b
  | _ => true
  end.

(** ** Printing *)

Section printing.
Variable encode_text : str → str.

Definition open_branch (buf branch_id : str) : str := buf ++ lit "<!--bo-" ++ branch_id ++ lit "-->".
Definition close_branch (buf branch_id : str) : str := buf ++ lit "<!--bc-" ++ branch_id ++ lit "-->".

(** The buffer and the position that a print goes through *)
Abbreviation printer := (str → Position → RenderFlags → str * Position).

Definition str_to_html (s : str) : printer := λ buf position flags,
  let buf := if hydrate_markers flags && bool_decide (position = NextChildAfterText)
             then buf ++ lit "<!>" else buf in
  let buf := if bool_decide (s = []) && hydrate_markers flags then buf ++ lit " "
             else if escape flags then buf ++ encode_text s
             else buf ++ s in
  (buf, NextChildAfterText).

Definition unit_to_html : printer := λ buf position flags,
  if hydrate_markers flags then (buf ++ lit "<!>", NextChild) else (buf, position).

Definition tuple_to_html (first ty : printer) : printer := λ buf position flags,
  let '(buf, position) := first buf position flags in ty buf position flags.

(** One side of an [Either] *)
Definition branch_to_html (branch_id : str) (side : printer) : printer := λ buf position flags,
  let mark := mark_branches flags && escape flags in
  let buf := if mark then open_branch buf branch_id else buf in
  let '(buf, position) := side buf position flags in
  if mark then
    (close_branch buf branch_id, if decide (position = NextChildAfterText) then NextChild else position)
  else (buf, position).

Definition vec_to_html (children : list printer) : printer := λ buf position flags,
  let '(buf, position) :=
    foldl (λ bp child, child bp.1 bp.2 flags) (buf, position) children in
  if hydrate_markers flags then (buf ++ lit "<!>", NextChild) else (buf, position).

Definition element_to_html (e : element_type) (ch_exists : bool) (children : printer) : printer :=
  λ buf position flags,
    let buf := buf ++ lit "<" ++ TAG e ++ lit ">" in
    let buf :=
      if SELF_CLOSING e then buf
      else
        let buf := if ch_exists
                   then (children buf FirstChild (with_hydrate (HYDRATES_CHILDREN e)
                                                    (with_escape (ESCAPE_CHILDREN e) flags))).1
                   else buf in
        buf ++ lit "</" ++ TAG e ++ lit ">" in
    (buf, NextChild).

Fixpoint to_html_with_buf (t : view_type) : view t → printer :=
  match t with
  | TString => str_to_html
  | TUnit => λ _, unit_to_html
  | TTuple a b => λ v, tuple_to_html (to_html_with_buf a v.1) (to_html_with_buf b v.2)
  | TEither a b => λ v, match v with
                        | inl v => branch_to_html (lit "0") (to_html_with_buf a v)
                        | inr v => branch_to_html (lit "1") (to_html_with_buf b v)
                        end
  | TOption a => λ v, match v with
                      | Some v => branch_to_html (lit "0") (to_html_with_buf a v)
                      | None => branch_to_html (lit "1") unit_to_html
                      end
  | TVec a => λ v, vec_to_html (map (to_html_with_buf a) v)
  | TElement e a => λ v, element_to_html e (EXISTS a) (to_html_with_buf a v)
  end.

(** [RenderHtml::to_html] and [to_html_branching] *)
Definition to_html (t : view_type) (v : view t) : str :=
  (to_html_with_buf t v [] FirstChild HYDRATE).1.
Definition to_html_branching (t : view_type) (v : view t) : str :=
  (to_html_with_buf t v [] FirstChild HYDRATE_BRANCHING).1.
End printing.

(** ** Hydration *)

Section hydration.
Context {D : Type} `{Dom D}.
(** The document, which is only read *)
Variable d : D.

(** [Node::first_child] and [Node::next_sibling], from what a script sees *)
Definition first_child (node : nat) : option nat := head (dom_children d node).
Fixpoint next_in (node : nat) (l : list nat) : option nat :=
  match l with
  | [] => None
  | x :: l => if decide (x = node) then head l else next_in node l
  end.
Definition next_sibling (node : nat) : option nat :=
  p ← dom_parent d node; next_in node (dom_children d p).

(** The node of the [Cursor] and the [PositionState] *)
Local Abbreviation HM := (stateM (nat * Position)).

Definition cursor_current : HM nat := gets fst.
Definition cursor_set (n : nat) : HM unit := modify (λ s, (n, s.2)).
Definition position_get : HM Position := gets snd.
Definition position_set (p : Position) : HM unit := modify (λ s, (s.1, p)).
Definition cursor_child : HM unit :=
  modify (λ s, (match first_child s.1 with Some n => n | None => s.1 end, s.2)).
Definition cursor_sibling : HM unit :=
  modify (λ s, (match next_sibling s.1 with Some n => n | None => s.1 end, s.2)).

(** The cast of a node that panics when it is of another kind *)
Definition cast_text (node : nat) : HM nat :=
  match dom_kind d node with Some (NText _) => mret node | _ => panics end.
Definition cast_comment (node : nat) : HM nat :=
  match dom_kind d node with Some NComment => mret node | _ => panics end.
Definition cast_element (node : nat) : HM nat :=
  match dom_kind d node with Some (NElement _) => mret node | _ => panics end.

Definition advance_to_placeholder : HM unit :=
  position ← position_get;
  _ ← (if decide (position = FirstChild) then cursor_child else cursor_sibling);
  position_set NextChild.
Definition next_placeholder : HM nat :=
  _ ← advance_to_placeholder; marker ← cursor_current; cast_comment marker.

Definition str_hydrate (s : str) : HM StrState :=
  position ← position_get;
  _ ← (if decide (position = FirstChild) then cursor_child else cursor_sibling);
  position ← position_get;
  _ ← (if decide (position = NextChildAfterText) then cursor_sibling else mret tt);
  node ← cursor_current;
  node ← cast_text node;
  _ ← position_set NextChildAfterText;
  mret (mkStrState node s).

Definition unit_hydrate : HM nat :=
  marker ← next_placeholder; _ ← position_set NextChild; mret marker.

Definition tuple_hydrate {SA SB} (first : HM SA) (ty : HM SB) : HM (SA * SB) :=
  s ← first; s' ← ty; mret (s, s').

Fixpoint hydrate_all {SA} (children : list (HM SA)) : HM (list SA) :=
  match children with
  | [] => mret []
  | child :: children => s ← child; states ← hydrate_all children; mret (s :: states)
  end.
Definition vec_hydrate {SA} (children : list (HM SA)) : HM (VecState SA) :=
  states ← hydrate_all children;
  marker ← next_placeholder;
  _ ← position_set NextChild;
  mret (mkVecState states marker).

Definition element_hydrate {SA} (e : element_type) (ch_exists : bool) (children : HM SA) : HM (ElementState SA) :=
  curr_position ← position_get;
  _ ← (if decide (curr_position = FirstChild) then cursor_child
       else if decide (curr_position ≠ Current) then cursor_sibling else mret tt);
  el ← cursor_current;
  el ← cast_element el;
  children ← (if negb ch_exists || negb (HYDRATES_CHILDREN e) then mret None
              else _ ← position_set FirstChild; s ← children; mret (Some s));
  _ ← cursor_set el;
  _ ← position_set NextChild;
  mret (mkElementState el children).

Fixpoint hydrate (t : view_type) : view t → HM (state t) :=
  match t with
  | TString => str_hydrate
  | TUnit => λ _, unit_hydrate
  | TTuple a b => λ v, tuple_hydrate (hydrate a v.1) (hydrate b v.2)
  | TEither a b => λ v, match v with
                        | inl v => s ← hydrate a v; mret (inl s)
                        | inr v => s ← hydrate b v; mret (inr s)
                        end
  | TOption a => λ v, match v with
                      | Some v => s ← hydrate a v; mret (inl s)
                      | None => s ← unit_hydrate; mret (inr s)
                      end
  | TVec a => λ v, vec_hydrate (map (hydrate a) v)
  | TElement e a => λ v, element_hydrate e (EXISTS a) (hydrate a v)
  end.

(** [hydrate_from] the element that holds the text *)
Definition hydrate_from (t : view_type) (v : view t) (el : nat) : outcome (state t) :=
  match hydrate t v (el, FirstChild) with
  | Ok (s, _) => Ok s
  | Panic => Panic
  | NoFuel => NoFuel
  end.
End hydration.
