(* ===== verification/HtmlProps.v ===== *)
(** * The nodes that the HTML stands for

    [html_nodes] says which nodes a browser makes of the text of a view, with
    the comments that separate neighbouring texts.  The text is the print of
    these nodes, they survive a parser's merging of texts, and the walk of
    [hydrate] meets them one after the other. *)

From Stdlib Require Import Ascii.
From stdpp Require Import base list strings sets relations gmap.
From S2P Require Import Prelude RustStr Dom Views ViewSpec Html ViewInst ViewVec ViewProps.

(** ** HTML text *)

Section text.
(** The escaping of texts, and the elements without a closing tag *)
Variable encode_text : str → str.
Variable void : str → bool.

Fixpoint print_node (x : shape_node) : str :=
  match x with
  | ShText s => encode_text s
  | ShComment => lit "<!>"
  | ShElement tag xs =>
      lit "<" ++ tag ++ lit ">" ++
      (if void tag then [] else concat (map print_node xs) ++ lit "</" ++ tag ++ lit ">")
  end.
Definition print_nodes (xs : list shape_node) : str := concat (map print_node xs).

Definition is_text (x : shape_node) : bool := match x with ShText _ => true | _ => false end.

(** Whether the last node is a text; [after] is what stands before them. *)
Definition ends_in_text (after : bool) (xs : list shape_node) : bool :=
  match last xs with Some x => is_text x | None => after end.

(** No text is empty or follows a text, and void elements are empty: a parser
    gives back these nodes and no others. *)
Definition separated_by (normal : shape_node → Prop) : bool → list shape_node → Prop :=
  fix go after xs := match xs with
                     | [] => True
                     | x :: xs => normal x ∧ (is_text x = true → after = false) ∧ go (is_text x) xs
                     end.
Fixpoint normal_node (x : shape_node) : Prop :=
  match x with
  | ShText s => s ≠ []
  | ShComment => True
  | ShElement tag xs =>
      (void tag = true → xs = []) ∧ separated_by normal_node false xs
  end.
Definition normal_nodes : bool → list shape_node → Prop := separated_by normal_node.

Lemma print_nodes_app xs ys : print_nodes (xs ++ ys) = print_nodes xs ++ print_nodes ys.
Proof. unfold print_nodes. by rewrite map_app, concat_app. Qed.

Lemma ends_in_text_cons after x xs : ends_in_text after (x :: xs) = ends_in_text (is_text x) xs.
Proof.
  destruct xs as [|y xs]; [done|]. unfold ends_in_text. rewrite last_cons_cons.
  destruct (last (y :: xs)) eqn:E; [done|]. by apply last_None in E.
Qed.

Lemma normal_nodes_app after xs ys :
  normal_nodes after xs → normal_nodes (ends_in_text after xs) ys → normal_nodes after (xs ++ ys).
Proof.
  unfold normal_nodes. revert after. induction xs as [|x xs IH]; intros after; [done|].
  intros (Hx & Ht & Hxs) Hys. cbn. do 2 (split; [done|]). apply IH; [done|].
  by rewrite ends_in_text_cons in Hys.
Qed.

Lemma ends_in_text_app after xs ys :
  ends_in_text after (xs ++ ys) = ends_in_text (ends_in_text after xs) ys.
Proof. unfold ends_in_text. rewrite last_app. by destruct (last ys). Qed.
End text.

(** ** The nodes of a view *)

(** An empty string is printed as a space. *)
Definition shown (s : str) : str := if decide (s = []) then lit " " else s.

Definition is_after_text (pos : Position) : bool := bool_decide (pos = NextChildAfterText).

Fixpoint html_nodes (t : view_type) : view t → Position → list shape_node * Position :=
  match t with
  | TString => λ s pos,
      ((if is_after_text pos then [ShComment] else []) ++ [ShText (shown s)], NextChildAfterText)
  | TUnit => λ _ _, ([ShComment], NextChild)
  | TTuple a b => λ v pos,
      let xs := html_nodes a v.1 pos in
      let ys := html_nodes b v.2 xs.2 in (xs.1 ++ ys.1, ys.2)
  | TEither a b => λ v pos,
      match v with inl v => html_nodes a v pos | inr v => html_nodes b v pos end
  | TOption a => λ v pos,
      match v with Some v => html_nodes a v pos | None => ([ShComment], NextChild) end
  | TVec a => λ v pos,
      ((foldl (λ xs v, let ys := html_nodes a v xs.2 in (xs.1 ++ ys.1, ys.2)) ([], pos) v).1 ++ [ShComment],
       NextChild)
  | TElement e a => λ v _,
      ([ShElement (TAG e) (if EXISTS a then (html_nodes a v FirstChild).1 else [])], NextChild)
  end.

(** Elements as the standard has them: void ones have no children, the others
    escape and hydrate theirs. *)
Fixpoint regular (void : str → bool) (t : view_type) : Prop :=
  match t with
  | TString | TUnit => True
  | TTuple a b | TEither a b => regular void a ∧ regular void b
  | TOption a | TVec a => regular void a
  | TElement e a =>
      SELF_CLOSING e = void (TAG e) ∧
      (if SELF_CLOSING e then EXISTS a = false
       else ESCAPE_CHILDREN e = true ∧ HYDRATES_CHILDREN e = true) ∧
      regular void a
  end.

Section printed.
Variable encode_text : str → str.
Variable void : str → bool.
Hypothesis encode_space : encode_text (lit " ") = lit " ".

Abbreviation prints p nodes := (∀ buf pos,
  p buf pos HYDRATE = (buf ++ print_nodes encode_text void (nodes pos).1, (nodes pos).2)).

Lemma branch_prints id p nodes : prints p nodes → prints (branch_to_html id p) nodes.
Proof. intros Hp buf pos. unfold branch_to_html. cbn. by rewrite Hp. Qed.

Lemma to_html_prints t v : regular void t →
  prints (to_html_with_buf encode_text t v) (html_nodes t v).
Proof.
  induction t as [| |a IHa b IHb|a IHa b IHb|a IHa|a IHa|e a IHa];
    cbn [regular html_nodes to_html_with_buf]; intros Hr.
  - intros buf pos. cbn [fst snd]. rewrite print_nodes_app. destruct v as [|c v].
    + assert (print_nodes encode_text void [ShText (shown [])] = lit " ") as -> by
        (etrans; [apply app_nil_r|exact encode_space]).
      destruct pos; [done..| |done|done]. apply (f_equal (λ x, (x, NextChildAfterText))). symmetry. apply app_assoc.
    + assert (print_nodes encode_text void [ShText (shown (c :: v))] = encode_text (c :: v)) as -> by
        (apply app_nil_r).
      destruct pos; [done..| |done|done]. apply (f_equal (λ x, (x, NextChildAfterText))). symmetry. apply app_assoc.
  - intros buf pos. done.
  - destruct Hr as [Ha Hb]. intros buf pos. unfold tuple_to_html. rewrite (IHa v.1 Ha), (IHb v.2 Hb).
    cbn [fst snd]. by rewrite print_nodes_app, app_assoc.
  - destruct Hr as [Ha Hb]. destruct v as [v|v]; apply branch_prints; [by apply IHa|by apply IHb].
  - destruct v as [v|]; [by apply branch_prints, IHa|]. apply (branch_prints _ _ (λ _, ([ShComment], NextChild))).
    done.
  - intros buf pos. unfold vec_to_html. cbn.
    assert (∀ xs, foldl (λ bp child, child bp.1 bp.2 HYDRATE) (buf ++ print_nodes encode_text void xs.1, xs.2)
        (map (to_html_with_buf encode_text a) v) =
      let xs' := foldl (λ xs v, let ys := html_nodes a v xs.2 in (xs.1 ++ ys.1, ys.2)) xs v in
      (buf ++ print_nodes encode_text void xs'.1, xs'.2)) as Hf.
    { induction v as [|x v IHv]; intros xs; [done|]. cbn. rewrite (IHa x Hr).
      rewrite <-app_assoc, <-print_nodes_app. apply (IHv (_, _)). }
    specialize (Hf ([], pos)). cbn in Hf. rewrite app_nil_r in Hf. rewrite Hf.
    unfold print_nodes. by rewrite map_app, concat_app, app_assoc.
  - destruct Hr as (Hv & He & Ha). intros buf pos. unfold element_to_html. cbn [fst snd]. unfold print_nodes. cbn.
    rewrite <-Hv. destruct (SELF_CLOSING e).
    + by rewrite !app_nil_r.
    + destruct He as [-> ->]. fold HYDRATE. rewrite app_nil_r. destruct (EXISTS a); cbn.
      * unfold with_hydrate, with_escape. cbn. fold HYDRATE. rewrite (IHa v Ha). cbn.
        rewrite <-!app_assoc. cbn [app]. by rewrite <-!app_assoc.
      * rewrite <-!app_assoc. cbn [app]. by rewrite <-!app_assoc.
Qed.
End printed.

(** ** The nodes are those that a parser gives back *)

Section normal.
Variable void : str → bool.

Definition well_placed (after : bool) (xs : list shape_node * Position) : Prop :=
  normal_nodes void after xs.1 ∧ ends_in_text after xs.1 = is_after_text xs.2.

Lemma html_nodes_normal t v pos : regular void t → well_placed (is_after_text pos) (html_nodes t v pos).
Proof.
  revert pos. induction t as [| |a IHa b IHb|a IHa b IHb|a IHa|a IHa|e a IHa]; intros pos; cbn [regular html_nodes]; intros Hr.
  - unfold well_placed, shown. destruct (is_after_text pos); cbn; repeat case_decide; by split_and!.
  - by split_and!.
  - destruct Hr as [Ha Hb]. destruct (IHa v.1 pos Ha) as [N1 E1].
    destruct (IHb v.2 (html_nodes a v.1 pos).2 Hb) as [N2 E2]. rewrite <-E1 in N2, E2. split; cbn.
    + by apply normal_nodes_app.
    + by rewrite ends_in_text_app, E2.
  - destruct Hr as [Ha Hb]. destruct v; [by apply IHa|by apply IHb].
  - destruct v; [by apply IHa|by split_and!].
  - assert (∀ xs, well_placed (is_after_text pos) xs →
      well_placed (is_after_text pos)
        (foldl (λ xs v, let ys := html_nodes a v xs.2 in (xs.1 ++ ys.1, ys.2)) xs v)) as Hf.
    { induction v as [|x v IHv]; intros xs [N1 E1]; [done|]. cbn. apply IHv.
      destruct (IHa x xs.2 Hr) as [N2 E2]. rewrite <-E1 in N2, E2. split; cbn.
      - by apply normal_nodes_app.
      - by rewrite ends_in_text_app, E2. }
    destruct (Hf ([], pos)) as [N E]; [by split|]. split; cbn.
    + by apply normal_nodes_app.
    + by rewrite ends_in_text_app.
  - destruct Hr as (Hv & He & Ha). split; [|done].
    destruct (IHa v FirstChild Ha) as [N _]. unfold well_placed, normal_nodes in *. cbn.
    split_and!; [|destruct (EXISTS a); [apply N|done]|done|done].
    intros Hs. rewrite <-Hv in Hs. rewrite Hs in He. by rewrite He.
Qed.
End normal.

(** * Hydration takes over what the server has printed

    [hydrate] walks over the nodes that the printed text stands for; it never
    panics on them, and every part of the state gets the node that was printed
    for it. *)

(** ** What it means to adopt nodes *)

(** The nodes of a state among the children of its parent, in their order *)
Fixpoint top_nodes (t : view_type) : state t → list nat :=
  match t with
  | TString => λ st, [ss_node st]
  | TUnit => λ n, [n]
  | TTuple a b => λ st, top_nodes a st.1 ++ top_nodes b st.2
  | TEither a b => λ st, match st with inl s => top_nodes a s | inr s => top_nodes b s end
  | TOption a => λ st, match st with inl s => top_nodes a s | inr n => [n] end
  | TVec a => λ st, concat (map (top_nodes a) (vs_states st)) ++ [vs_marker st]
  | TElement _ _ => λ st, [es_el st]
  end.

Section hydration.
Context {D : Type} `{DomLaws D}.
Variable d : D.

(** A state that belongs to a view, with nodes of the kinds it needs: a text
    with the string, a comment where the view shows nothing, an element with
    the nodes of its children inside. *)
Fixpoint adopts (t : view_type) : view t → state t → Prop :=
  match t with
  | TString => λ v st, ss_str st = v ∧ dom_kind d (ss_node st) = Some (NText (shown v))
  | TUnit => λ _ n, dom_kind d n = Some NComment
  | TTuple a b => λ v st, adopts a v.1 st.1 ∧ adopts b v.2 st.2
  | TEither a b => λ v st,
      match v, st with inl v, inl s => adopts a v s | inr v, inr s => adopts b v s | _, _ => False end
  | TOption a => λ v st,
      match v, st with
      | Some v, inl s => adopts a v s
      | None, inr n => dom_kind d n = Some NComment
      | _, _ => False
      end
  | TVec a => λ v st,
      Forall2 (adopts a) v (vs_states st) ∧ dom_kind d (vs_marker st) = Some NComment
  | TElement e a => λ v st,
      dom_kind d (es_el st) = Some (NElement (TAG e)) ∧
      match es_children st with
      | Some s => adopts a v s ∧ top_nodes a s `sublist_of` dom_children d (es_el st)
      | None => EXISTS a = false
      end
  end.

(** ** The cursor *)

(** The cursor has gone over the children [before] of [p]. *)
Definition walked (p : nat) (before : list nat) (cur : nat) (pos : Position) : Prop :=
  match pos with
  | FirstChild => before = [] ∧ cur = p
  | NextChild | NextChildAfterText => ∃ l, before = l ++ [cur]
  | _ => False
  end.

Lemma next_in_middle l a b r : NoDup (l ++ a :: b :: r) → next_in a (l ++ a :: b :: r) = Some b.
Proof.
  induction l as [|x l IH]; cbn.
  - intros _. by rewrite decide_True.
  - intros [Hx Hn]%NoDup_cons. rewrite decide_False by (intros ->; set_solver). by apply IH.
Qed.

Hypothesis Hd : dom_ok d.

(** One step of the cursor, as every kind of view makes it *)
Lemma cursor_advances p before cur pos n rest :
  walked p before cur pos → dom_children d p = before ++ n :: rest →
  (if decide (pos = FirstChild) then cursor_child d else cursor_sibling d) (cur, pos) = Ok (tt, (n, pos)).
Proof.
  intros Hw Hc.
  assert (∀ l, before = l ++ [cur] → next_sibling d cur = Some n) as Hs.
  { intros l ->. rewrite <-app_assoc in Hc. unfold next_sibling.
    assert (dom_parent d cur = Some p) as -> by (apply (dom_children_parent d p cur Hd); rewrite Hc; set_solver).
    cbn. rewrite Hc. apply next_in_middle. change (NoDup (l ++ [cur] ++ n :: rest)). rewrite <-Hc.
    by apply dom_children_NoDup. }
  destruct pos; try done.
  - destruct Hw as [-> ->]. rewrite decide_True by done.
    unfold cursor_child, modify, first_child. cbn. by rewrite Hc.
  - destruct Hw as [l Hl]. rewrite decide_False by done. unfold cursor_sibling, modify. cbn. by rewrite (Hs l Hl).
  - destruct Hw as [l Hl]. rewrite decide_False by done. unfold cursor_sibling, modify. cbn. by rewrite (Hs l Hl).
Qed.

Lemma next_placeholder_ok p before cur pos n rest :
  walked p before cur pos → dom_children d p = before ++ n :: rest → dom_kind d n = Some NComment →
  next_placeholder d (cur, pos) = Ok (n, (n, NextChild)).
Proof.
  intros Hw Hc Hk. unfold next_placeholder, advance_to_placeholder, mbind, stateM_bind.
  change (position_get (cur, pos)) with (Ok (pos, (cur, pos))). cbn iota beta.
  rewrite (cursor_advances p before cur pos n rest Hw Hc). cbn. unfold cast_comment. by rewrite Hk.
Qed.

(** [c] goes from [pos] to [pos'] over the next nodes [ns], and keeps some of
    them. *)
Definition takes {S} (c : stateM (nat * Position) S) (pos pos' : Position) (ns : list nat)
    (ok : S → Prop) (tops : S → list nat) : Prop :=
  ∀ p before rest cur, walked p before cur pos → dom_children d p = before ++ ns ++ rest →
    ∃ s cur', c (cur, pos) = Ok (s, (cur', pos')) ∧ walked p (before ++ ns) cur' pos' ∧
      ok s ∧ tops s `sublist_of` ns.

Lemma shows_element_inv n tag xs : shows d n (ShElement tag xs) →
  dom_kind d n = Some (NElement tag) ∧ shows_all d (dom_children d n) xs.
Proof.
  cbn. intros [Hk Hs]. split; [done|]. revert xs Hs. generalize (dom_children d n).
  induction l as [|m l IH]; intros [|x xs] Hs; try done; [by constructor|].
  destruct Hs as [Hx Hs]. constructor; [done|by apply IH].
Qed.

Lemma walked_next p before n : walked p (before ++ [n]) n NextChild.
Proof. by eexists. Qed.

Lemma placeholder_takes {S} (f : nat → S) ok tops pos n :
  dom_kind d n = Some NComment → ok (f n) → tops (f n) = [n] →
  takes (m ← next_placeholder d; _ ← position_set NextChild; mret (f m)) pos NextChild [n] ok tops.
Proof.
  intros Hk Hok Ht p before rest cur Hw Hc.
  step_with (next_placeholder_ok p before cur pos n rest Hw Hc Hk).
  eexists _, n. split; [reflexivity|]. split_and!; [apply walked_next|done|by rewrite Ht].
Qed.

Lemma str_takes s pos ns : shows_all d ns (html_nodes TString s pos).1 →
  takes (str_hydrate d s) pos NextChildAfterText ns (adopts TString s) (top_nodes TString).
Proof.
  intros Hs p before rest cur Hw Hc. unfold str_hydrate.
  rewrite (bind_Ok _ _ (cur, pos) pos (cur, pos)) by done.
  destruct (decide (pos = NextChildAfterText)) as [->|Hp].
  - apply Forall2_cons_inv_r in Hs as (c & ns' & Hcom & Hs & ->).
    apply Forall2_cons_inv_r in Hs as (n & ns'' & Hn & Hs & ->). apply Forall2_nil_inv_r in Hs as ->.
    cbn [app] in Hc. step_with (cursor_advances p before cur _ c (n :: rest) Hw Hc).
    rewrite (bind_Ok _ _ _ NextChildAfterText (c, NextChildAfterText)), decide_True by done.
    change (c :: n :: rest) with ([c] ++ n :: rest) in Hc. rewrite app_assoc in Hc.
    pose proof (cursor_advances p (before ++ [c]) c NextChildAfterText n rest ltac:(by eexists) Hc) as E.
    rewrite decide_False in E by done. step_with E.
    cbn in Hn. unfold mbind, stateM_bind, cursor_current, gets, cast_text. cbn. rewrite Hn. cbn.
    eexists _, n. split; [reflexivity|]. split_and!; [|done|done|by apply sublist_cons].
    exists (before ++ [c]). by rewrite <-app_assoc.
  - assert (∃ n, ns = [n] ∧ shows d n (ShText (shown s))) as (n & -> & Hn).
    { destruct pos; try done; apply Forall2_cons_inv_r in Hs as (n & ns' & Hn & Hs & ->);
        apply Forall2_nil_inv_r in Hs as ->; by exists n. }
    step_with (cursor_advances p before cur pos n rest Hw Hc).
    rewrite (bind_Ok _ _ _ pos (n, pos)), decide_False by done.
    cbn in Hn. unfold mbind, stateM_bind, cursor_current, gets, cast_text. cbn. rewrite Hn. cbn.
    eexists _, n. split; [reflexivity|]. split_and!; [by eexists|done|done|done].
Qed.

Lemma takes_weaken {S} (c : stateM _ S) pos pos' ns ok ok' tops tops' :
  takes c pos pos' ns ok tops → (∀ s, ok s → ok' s ∧ tops' s = tops s) → takes c pos pos' ns ok' tops'.
Proof.
  intros Hc Hi p before rest cur Hw Hch. destruct (Hc p before rest cur Hw Hch) as (s & cur' & E & W & O & T).
  destruct (Hi s O) as [O' T']. exists s, cur'. rewrite T'. by split_and!.
Qed.

(** Neighbours are taken one after the other. *)
Lemma takes_bind {S S' S''} (c : stateM _ S) (c' : stateM _ S') (f : S → S' → S'') pos pos1 pos2 ns ns'
    ok ok' ok'' tops tops' tops'' :
  takes c pos pos1 ns ok tops → takes c' pos1 pos2 ns' ok' tops' →
  (∀ s s', ok s → ok' s' → ok'' (f s s') ∧ tops'' (f s s') = tops s ++ tops' s') →
  takes (s ← c; s' ← c'; mret (f s s')) pos pos2 (ns ++ ns') ok'' tops''.
Proof.
  intros Hc Hc' Hf p before rest cur Hw Hch. rewrite <-app_assoc in Hch.
  destruct (Hc p before (ns' ++ rest) cur Hw Hch) as (s & cur1 & E & W & O & T).
  rewrite app_assoc in Hch.
  destruct (Hc' p (before ++ ns) rest cur1 W Hch) as (s' & cur2 & E' & W' & O' & T').
  destruct (Hf s s' O O') as [O'' Ht].
  exists (f s s'), cur2. step_with E. step_with E'. rewrite app_assoc, Ht.
  split_and!; [done|done|done|]. by apply sublist_app.
Qed.

Lemma takes_map {S S'} (c : stateM _ S) (f : S → S') pos pos' ns ok ok' tops tops' :
  takes c pos pos' ns ok tops → (∀ s, ok s → ok' (f s) ∧ tops' (f s) = tops s) →
  takes (s ← c; mret (f s)) pos pos' ns ok' tops'.
Proof.
  intros Hc Hi p before rest cur Hw Hch. destruct (Hc p before rest cur Hw Hch) as (s & cur' & E & W & O & T).
  destruct (Hi s O) as [O' T']. exists (f s), cur'. step_with E. rewrite T'. by split_and!.
Qed.

Lemma takes_ext {S} (c c' : stateM _ S) pos pos' ns ok tops :
  (∀ s, c' s = c s) → takes c pos pos' ns ok tops → takes c' pos pos' ns ok tops.
Proof. intros He Hc p before rest cur Hw Hch. rewrite He. exact (Hc p before rest cur Hw Hch). Qed.

(** ** Every kind of view *)

Definition nodes_of_all (a : view_type) (v : list (view a)) (pos : Position) : list shape_node * Position :=
  foldl (λ xs v, let ys := html_nodes a v xs.2 in (xs.1 ++ ys.1, ys.2)) ([], pos) v.

Lemma nodes_of_all_cons a x v pos :
  nodes_of_all a (x :: v) pos =
    let ys := html_nodes a x pos in
    let zs := nodes_of_all a v ys.2 in (ys.1 ++ zs.1, zs.2).
Proof.
  set (F := λ xs v, let ys := html_nodes a v xs.2 in (xs.1 ++ ys.1, ys.2)).
  assert (∀ xs pos', foldl F (xs, pos') v =
    (xs ++ (foldl F ([], pos') v).1, (foldl F ([], pos') v).2)) as Hf; [|apply Hf].
  induction v as [|y v IH]; intros xs pos'; [by cbn; rewrite app_nil_r|].
  change (foldl F (F (xs, pos') y) v = (xs ++ (foldl F (F ([], pos') y) v).1, (foldl F (F ([], pos') y) v).2)).
  unfold F at 2 4 6. cbn [fst snd app]. rewrite (IH (xs ++ _)), (IH (html_nodes a y pos').1).
  cbn [fst snd]. by rewrite app_assoc.
Qed.

(** What the cursor does over the nodes of a view *)
Abbreviation hydrates a v := (∀ pos ns, shows_all d ns (html_nodes a v pos).1 →
  takes (hydrate d a v) pos (html_nodes a v pos).2 ns (adopts a v) (top_nodes a)).

Lemma all_takes a v : (∀ x, hydrates a x) → ∀ pos ns, shows_all d ns (nodes_of_all a v pos).1 →
  takes (hydrate_all (map (hydrate d a) v)) pos (nodes_of_all a v pos).2 ns
    (Forall2 (adopts a) v) (λ l, concat (map (top_nodes a) l)).
Proof.
  intros Ha. induction v as [|x v IH]; intros pos ns Hs.
  - apply Forall2_nil_inv_r in Hs as ->. intros p before rest cur Hw Hc.
    exists [], cur. rewrite app_nil_r. by split_and!.
  - rewrite nodes_of_all_cons in Hs |- *. apply Forall2_app_inv_r in Hs as (ns1 & ns2 & Hs1 & Hs2 & ->).
    eapply (takes_bind _ _ cons); [by apply Ha|by apply IH|]. intros s l Hx Hv. split; [by constructor|done].
Qed.

Lemma vec_takes a v : (∀ x, hydrates a x) → hydrates (TVec a) v.
Proof.
  intros Ha pos ns Hs. apply Forall2_app_inv_r in Hs as (ns1 & ns2 & Hs1 & Hs2 & ->).
  apply Forall2_cons_inv_r in Hs2 as (n & ns' & Hn & Hs2 & ->). apply Forall2_nil_inv_r in Hs2 as ->.
  apply (takes_ext (states ← hydrate_all (map (hydrate d a) v);
                    m ← (m ← next_placeholder d; _ ← position_set NextChild; mret m);
                    mret (mkVecState states m))).
  - intros s. cbn. unfold vec_hydrate, mbind, stateM_bind.
    destruct (hydrate_all _ s) as [[l s1]| |]; [|done..]. by destruct (next_placeholder d s1) as [[m s2]| |].
  - eapply (takes_bind _ _ mkVecState); [by apply all_takes| |].
    + by apply (placeholder_takes id (λ m, dom_kind d m = Some NComment) (λ m, [m])).
    + by intros l m Hl Hm.
Qed.

Lemma element_takes e a v :
  (EXISTS a = true → HYDRATES_CHILDREN e = true) → hydrates a v → hydrates (TElement e a) v.
Proof.
  intros He Ha pos ns Hs p before rest cur Hw Hc.
  apply Forall2_cons_inv_r in Hs as (n & ns' & Hn & Hs & ->). apply Forall2_nil_inv_r in Hs as ->.
  apply shows_element_inv in Hn as [Hk Hch].
  pose proof (cursor_advances p before cur pos n rest Hw Hc) as E.
  assert ((if decide (pos = FirstChild) then cursor_child d
           else if decide (pos ≠ Current) then cursor_sibling d else mret tt) (cur, pos) = Ok (tt, (n, pos))) as E'.
  { destruct (decide (pos = FirstChild)); [done|]. rewrite decide_True; [done|]. by intros ->. }
  cbn [hydrate]. unfold element_hydrate. rewrite (bind_Ok _ _ (cur, pos) pos (cur, pos)) by done. step_with E'.
  rewrite (bind_Ok _ _ (n, pos) n (n, pos)) by done.
  rewrite (bind_Ok _ _ (n, pos) n (n, pos)) by (unfold cast_element; by rewrite Hk).
  destruct (EXISTS a) eqn:Hx.
  - rewrite He by done. cbn [negb orb].
    destruct (Ha FirstChild (dom_children d n) Hch n [] [] n) as (s & cur' & Es & _ & Os & Ts).
    { done. } { by rewrite app_nil_r. }
    eexists (mkElementState n (Some s)), n. split; [|by split_and!; [apply walked_next| |]].
    unfold mbind, stateM_bind. cbn. by rewrite Es.
  - eexists (mkElementState n None), n. split; [done|]. by split_and!; [apply walked_next| |].
Qed.

Lemma hydrate_takes void t : regular void t → ∀ v, hydrates t v.
Proof.
  induction t as [| |a IHa b IHb|a IHa b IHb|a IHa|a IHa|e a IHa]; cbn [regular]; intros Hr v.
  - intros pos ns. apply str_takes.
  - intros pos ns Hs. apply Forall2_cons_inv_r in Hs as (n & ns' & Hn & Hs & ->).
    apply Forall2_nil_inv_r in Hs as ->. by apply (placeholder_takes id).
  - destruct Hr as [Ra Rb]. intros pos ns Hs. apply Forall2_app_inv_r in Hs as (ns1 & ns2 & Hs1 & Hs2 & ->).
    eapply (takes_bind _ _ pair); [by apply IHa|by apply IHb|done].
  - destruct Hr as [Ra Rb]. destruct v as [v|v]; intros pos ns Hs; (eapply takes_map; [|done]);
      [by apply IHa|by apply IHb].
  - destruct v as [v|]; intros pos ns Hs; [eapply takes_map; [by apply IHa|done]|].
    apply Forall2_cons_inv_r in Hs as (n & ns' & Hn & Hs & ->). apply Forall2_nil_inv_r in Hs as ->.
    eapply takes_map; [by apply (placeholder_takes id (λ m, dom_kind d m = Some NComment) (λ m, [m]))|].
    by intros s Hk.
  - by apply vec_takes, IHa.
  - destruct Hr as (Hv & He & Ra). apply element_takes; [|by apply IHa].
    intros Hx. destruct (SELF_CLOSING e); [congruence|]. by destruct He.
Qed.
End hydration.
