(* ===== verification/HtmlReader.v ===== *)
(** * Reading HTML

    What a browser's parser makes of the text of a view, after the tokenizer of
    the HTML standard: texts up to the next [<] with their character
    references decoded, [<!>], which is an empty comment, and elements with
    what stands before their end tags.  Void elements and the elements whose
    content is not markup are those of the standard.  Texts that need the rest
    of the standard (attributes, other comments, implied, missing or misplaced
    tags) are refused.  Reading the print of nodes gives the nodes back. *)

From Stdlib Require Import Ascii.
From stdpp Require Import base list strings sets relations gmap.
From S2P Require Import Prelude RustStr Dom Views ViewSpec ViewInst ViewVec ViewProps Html HtmlProps.

(** ** Names *)

(** Elements without content and end tag, and those whose content is read as
    text, or whose first line break is dropped *)
Definition void_elements : list str :=
  map lit ["area"; "base"; "br"; "col"; "embed"; "hr"; "img"; "input"; "link"; "meta";
           "source"; "track"; "wbr"]%string.
Definition text_elements : list str :=
  map lit ["script"; "style"; "textarea"; "title"; "xmp"; "iframe"; "noembed"; "noframes";
           "noscript"; "plaintext"; "pre"; "listing"]%string.
Definition void_element (tag : str) : bool := bool_decide (tag ∈ void_elements).
Definition text_element (tag : str) : bool := bool_decide (tag ∈ text_elements).

Definition in_range (lo hi : ascii) (c : ascii) : bool :=
  (nat_of_ascii lo <=? nat_of_ascii c) && (nat_of_ascii c <=? nat_of_ascii hi).
Definition is_lower (c : ascii) : bool := in_range "a" "z" c.
Definition is_name_char (c : ascii) : bool :=
  is_lower c || in_range "0" "9" c || bool_decide (c = "-"%char).

(** Names of elements in lower case, as [createElement] spells them *)
Definition plain_name (tag : str) : bool :=
  match tag with
  | [] => false
  | c :: _ => is_lower c && forallb is_name_char tag && negb (text_element tag)
  end.

(** ** The reader *)

Section reader.
(** Character references, such as [&lt;] *)
Variable decode_text : str → str.

Fixpoint take_until (c : ascii) (s : str) : str * str :=
  match s with
  | [] => ([], [])
  | x :: s' => if decide (x = c) then ([], s) else let '(a, b) := take_until c s' in (x :: a, b)
  end.

(** A start tag after its [<], without attributes *)
Definition read_name (s : str) : option (str * str) :=
  let '(tag, rest) := take_until ">" s in
  match rest with
  | _ :: rest => if plain_name tag then Some (tag, rest) else None
  | [] => None
  end.

(** The nodes up to the end of the text or the next end tag, and what follows;
    every node uses up some of the text, so that its length is enough fuel. *)
Fixpoint read_nodes (fuel : nat) (s : str) : option (list shape_node * str) :=
  match fuel with
  | 0 => None
  | S fuel =>
      match s with
      | [] => Some ([], [])
      | "<"%char :: "/"%char :: _ => Some ([], s)
      | "<"%char :: "!"%char :: ">"%char :: s =>
          '(xs, s) ← read_nodes fuel s; Some (ShComment :: xs, s)
      | "<"%char :: s =>
          '(tag, s) ← read_name s;
          if void_element tag then
            '(xs, s) ← read_nodes fuel s; Some (ShElement tag [] :: xs, s)
          else
            '(children, s) ← read_nodes fuel s;
            s ← strip_prefix (lit "</" ++ tag ++ lit ">") s;
            '(xs, s) ← read_nodes fuel s; Some (ShElement tag children :: xs, s)
      | _ =>
          let '(text, s) := take_until "<" s in
          '(xs, s) ← read_nodes fuel s; Some (ShText (decode_text text) :: xs, s)
      end
  end.

(** The nodes of a whole text *)
Definition parse_html (s : str) : option (list shape_node) :=
  match read_nodes (S (length s)) s with
  | Some (xs, []) => Some xs
  | _ => None
  end.
End reader.

(** ** Reading what was printed *)

Section printed.
Variable encode_text decode_text : str → str.
Hypothesis decode_nil : decode_text [] = [].

(** The text survives being escaped and read. *)
Definition faithful (s : str) : Prop :=
  decode_text (encode_text s) = s ∧ "<"%char ∉ encode_text s.

Fixpoint readable_node (x : shape_node) : Prop :=
  match x with
  | ShText s => faithful s
  | ShComment => True
  | ShElement tag xs => plain_name tag = true ∧ foldr (λ x P, readable_node x ∧ P) True xs
  end.
Definition readable (xs : list shape_node) : Prop := foldr (λ x P, readable_node x ∧ P) True xs.

Abbreviation print := (print_nodes encode_text void_element).

Lemma take_until_app c s rest :
  c ∉ s → (rest = [] ∨ head rest = Some c) → take_until c (s ++ rest) = (s, rest).
Proof.
  intros Hs Hr. induction s as [|x s IH]; simpl.
  - destruct rest as [|y rest]; [done|]. destruct Hr as [|[= ->]]; [done|]. simpl. by rewrite decide_True.
  - apply not_elem_of_cons in Hs as [Hx Hs]. rewrite decide_False by done. by rewrite IH.
Qed.

Lemma plain_name_chars tag : plain_name tag = true → ">"%char ∉ tag.
Proof.
  destruct tag as [|c tag]; [done|]. unfold plain_name. intros Hp Hin.
  apply andb_true_iff in Hp as [[_ Hall]%andb_true_iff _].
  rewrite forallb_forall in Hall. apply list_elem_of_In in Hin. apply Hall in Hin. done.
Qed.

Lemma read_name_ok tag s : plain_name tag = true → read_name (tag ++ lit ">" ++ s) = Some (tag, s).
Proof.
  intros Hp. unfold read_name. rewrite take_until_app; [|by apply plain_name_chars|by right].
  simpl. by rewrite Hp.
Qed.

(** The first letter of a name tells a start tag from the rest. *)
Lemma read_element fuel tag s :
  plain_name tag = true →
  read_nodes decode_text (S fuel) (lit "<" ++ tag ++ lit ">" ++ s) =
    if void_element tag then
      '(xs, s) ← read_nodes decode_text fuel s; Some (ShElement tag [] :: xs, s)
    else
      '(children, s) ← read_nodes decode_text fuel s;
      s ← strip_prefix (lit "</" ++ tag ++ lit ">") s;
      '(xs, s) ← read_nodes decode_text fuel s; Some (ShElement tag children :: xs, s).
Proof.
  intros Hp. pose proof (read_name_ok tag s Hp) as Hn. destruct tag as [|c tag]; [done|].
  assert (is_lower c = true) as Hc.
  { unfold plain_name in Hp. by apply andb_true_iff in Hp as [[? _]%andb_true_iff _]. }
  change (lit "<" ++ (c :: tag) ++ lit ">" ++ s) with ("<"%char :: c :: tag ++ lit ">" ++ s).
  change ((c :: tag) ++ lit ">" ++ s) with (c :: tag ++ lit ">" ++ s) in Hn.
  revert Hn. generalize (tag ++ lit ">" ++ s). intros r Hn.
  destruct c as [[] [] [] [] [] [] [] []]; try discriminate Hc; cbn [read_nodes]; rewrite Hn; reflexivity.
Qed.

Lemma read_text fuel t s :
  t ≠ [] → "<"%char ∉ t → (s = [] ∨ head s = Some "<"%char) →
  read_nodes decode_text (S fuel) (t ++ s) =
    '(xs, s) ← read_nodes decode_text fuel s; Some (ShText (decode_text t) :: xs, s).
Proof.
  intros Ht Hl Hs. pose proof (take_until_app "<"%char t s Hl Hs) as Hu.
  destruct t as [|c t]; [done|]. apply not_elem_of_cons in Hl as [Hc _].
  change ((c :: t) ++ s) with (c :: t ++ s) in *. revert Hu. generalize (t ++ s). intros r Hu.
  destruct c as [[] [] [] [] [] [] [] []]; try (exfalso; by apply Hc); cbn [read_nodes]; rewrite Hu; reflexivity.
Qed.

(** Where the nodes of an element or of the whole text end *)
Definition stops (s : str) : Prop := s = [] ∨ ∃ r, s = "<"%char :: "/"%char :: r.

Lemma print_starts xs s :
  normal_nodes void_element true xs → stops s → print xs ++ s = [] ∨ head (print xs ++ s) = Some "<"%char.
Proof.
  intros Hx Hs. destruct xs as [|x xs]; simpl.
  - destruct Hs as [->|[r ->]]; [by left|by right].
  - right. destruct Hx as (_ & Ht & _). by destruct x; [specialize (Ht eq_refl)|..].
Qed.

Lemma print_cons x xs s : print (x :: xs) ++ s = print_node encode_text void_element x ++ print xs ++ s.
Proof. unfold print_nodes. simpl. by rewrite (assoc app). Qed.

(** Reading undoes printing. *)
Lemma read_printed n xs after rest :
  readable xs → normal_nodes void_element after xs → length (print xs) < n → stops rest →
  read_nodes decode_text n (print xs ++ rest) = Some (xs, rest).
Proof.
  revert xs after rest. induction n as [|n IH]; intros xs after rest Hr Hn Hl Hs; [lia|].
  destruct xs as [|x xs].
  { by destruct Hs as [->|[r ->]]. }
  destruct Hr as [Hx Hr]. destruct Hn as (Hnx & _ & Hn).
  pose proof (print_cons x xs []) as Hlen. rewrite !app_nil_r in Hlen.
  rewrite Hlen, length_app in Hl. rewrite print_cons.
  destruct x as [t| |tag ys]; cbn [print_node] in Hl |- *.
  - destruct Hx as [Hd Hlt].
    assert (encode_text t ≠ []) as Ht by (intros E; rewrite E, decode_nil in Hd; by apply Hnx).
    rewrite read_text; [|done|done|by apply print_starts].
    rewrite (IH xs true rest); [|done..| |done]; [simpl; by rewrite Hd|].
    destruct (encode_text t); [done|simpl in Hl; lia].
  - change (lit "<!>" ++ print xs ++ rest) with ("<"%char :: "!"%char :: ">"%char :: print xs ++ rest).
    cbn [read_nodes]. rewrite (IH xs false rest); [done..| |done]. simpl in Hl. lia.
  - destruct Hx as [Hp Hys]. destruct Hnx as [Hv Hny].
    rewrite <-!(assoc app), read_element by done. rewrite !length_app in Hl.
    destruct (void_element tag) eqn:E.
    + rewrite Hv by done. simpl app. rewrite (IH xs false rest); [done..| |done]. simpl in Hl. lia.
    + rewrite !length_app in Hl. fold (print ys) in Hl |- *. rewrite <-!(assoc app).
      rewrite (IH ys false _); [|done..| |]; [|simpl in Hl; lia|right; by eexists].
      assert (strip_prefix (lit "</" ++ tag ++ lit ">") (lit "</" ++ tag ++ lit ">" ++ print xs ++ rest) =
        Some (print xs ++ rest)) as Hp'.
      { rewrite <-(strip_prefix_app (lit "</" ++ tag ++ lit ">")). by rewrite <-!(assoc app). }
      cbn [mbind option_bind]. rewrite Hp'. cbn [mbind option_bind].
      rewrite (IH xs false rest); [done..| |done]. simpl in Hl. lia.
Qed.

Lemma parse_printed xs : readable xs → normal_nodes void_element false xs →
  parse_html decode_text (print xs) = Some xs.
Proof.
  intros Hr Hn. unfold parse_html.
  pose proof (read_printed (S (length (print xs))) xs false [] Hr Hn) as E.
  rewrite app_nil_r in E. rewrite E; [done|lia|by left].
Qed.
End printed.

(** ** The nodes of a view can be read *)

(** The strings of a view, and whether its elements have plain names *)
Fixpoint strings (t : view_type) : view t → list str :=
  match t with
  | TString => λ s, [s]
  | TUnit => λ _, []
  | TTuple a b => λ v, strings a v.1 ++ strings b v.2
  | TEither a b => λ v, match v with inl v => strings a v | inr v => strings b v end
  | TOption a => λ v, match v with Some v => strings a v | None => [] end
  | TVec a => λ v, concat (map (strings a) v)
  | TElement e a => strings a
  end.
Fixpoint plain_tags (t : view_type) : bool :=
  match t with
  | TString | TUnit => true
  | TTuple a b | TEither a b => plain_tags a && plain_tags b
  | TOption a | TVec a => plain_tags a
  | TElement e a => plain_name (TAG e) && plain_tags a
  end.

Section views.
Variable encode_text decode_text : str → str.
Abbreviation faithful := (faithful encode_text decode_text).
Abbreviation readable := (readable encode_text decode_text).
Hypothesis space_faithful : faithful (lit " ").

Lemma readable_app xs ys : readable (xs ++ ys) ↔ readable xs ∧ readable ys.
Proof. induction xs as [|x xs IH]; simpl; [tauto|]. rewrite IH. tauto. Qed.

Lemma html_nodes_readable t v pos :
  plain_tags t = true → Forall faithful (strings t v) → readable (html_nodes t v pos).1.
Proof.
  revert pos. induction t as [| |a IHa b IHb|a IHa b IHb|a IHa|a IHa|e a IHa];
    intros pos; cbn [plain_tags strings html_nodes]; intros Hp Hs.
  - apply Forall_cons in Hs as [Hs _]. apply readable_app. split; [by destruct (is_after_text pos)|].
    unfold shown. by case_decide.
  - done.
  - apply andb_true_iff in Hp as [Ha Hb]. apply Forall_app in Hs as [Sa Sb].
    apply readable_app. split; [by apply IHa|by apply IHb].
  - apply andb_true_iff in Hp as [Ha Hb]. destruct v; [by apply IHa|by apply IHb].
  - by destruct v; [apply IHa|].
  - apply readable_app. split; [|done].
    assert (∀ xs, readable xs.1 → readable
      (foldl (λ xs v, let ys := html_nodes a v xs.2 in (xs.1 ++ ys.1, ys.2)) xs v).1) as Hf;
      [|by apply Hf].
    induction v as [|x v IHv]; intros xs Hxs; [done|]. simpl in Hs. apply Forall_app in Hs as [Sx Sv].
    cbn [foldl]. apply IHv; [done|]. apply readable_app. split; [done|by apply IHa].
  - apply andb_true_iff in Hp as [Ht Ha]. cbn. split_and!; [done| |done].
    destruct (EXISTS a); [|done]. by apply (IHa v FirstChild).
Qed.
End views.

(** ** Printing, reading and hydrating *)

(** C7: When a parser of HTML reads the text that the server sends for a view,
    it gets nodes such that on every document in which an element has them as
    its children, hydrating the same view from that element succeeds: every
    string of the state has the text node that shows it, every element its
    element with its children's nodes inside, every empty side its comment, all
    in the order of the view.  The escaping must be undone by the character
    references and leave no [<], for the strings of the view; element names are
    in lower case; and elements are void exactly if the standard has them so,
    or have markup as content, which is escaped and hydrated ([text_elements],
    such as script, textarea, title and pre, are excluded). *)
Theorem hydrate_takes_over encode_text decode_text t (v : view t) :
  encode_text (lit " ") = lit " " → decode_text [] = [] →
  Forall (faithful encode_text decode_text) (lit " " :: strings t v) →
  regular void_element t → plain_tags t = true →
  ∃ xs, parse_html decode_text (to_html encode_text t v) = Some xs ∧
    ∀ (D : Type) `(DomLaws D) (d : D) p, dom_ok d → shows_all d (dom_children d p) xs →
      ∃ st, hydrate_from d t v p = Ok st ∧ adopts d t v st ∧
        top_nodes t st `sublist_of` dom_children d p.
Proof.
  intros He Hd Hs Hr Hp. exists (html_nodes t v FirstChild).1. apply Forall_cons in Hs as [Hsp Hs]. split.
  - unfold to_html. rewrite (to_html_prints encode_text void_element He t v Hr). apply parse_printed; [done| |].
    + by apply html_nodes_readable.
    + apply (html_nodes_normal void_element t v FirstChild Hr).
  - intros D H0 H1 d p Hk Hc.
    destruct (hydrate_takes d Hk void_element t Hr v FirstChild (dom_children d p) Hc p [] [] p)
      as (st & cur & E & _ & A & T).
    { done. } { by rewrite app_nil_r. }
    exists st. unfold hydrate_from. by rewrite E.
Qed.

(** ** A page with a title and a list *)

Definition escape_byte (c : ascii) : str :=
  if decide (c = "<"%char) then lit "&lt;"
  else if decide (c = ">"%char) then lit "&gt;"
  else if decide (c = "&"%char) then lit "&amp;"
  else [c].
Definition escape_text (s : str) : str := concat (map escape_byte s).
Fixpoint decode_refs (s : str) : str :=
  match s with
  | "&"%char :: "l"%char :: "t"%char :: ";"%char :: s => "<"%char :: decode_refs s
  | "&"%char :: "g"%char :: "t"%char :: ";"%char :: s => ">"%char :: decode_refs s
  | "&"%char :: "a"%char :: "m"%char :: "p"%char :: ";"%char :: s => "&"%char :: decode_refs s
  | c :: s => c :: decode_refs s
  | [] => []
  end.

(** This escaping is faithful to every text. *)
Lemma escape_faithful s : faithful escape_text decode_refs s.
Proof.
  induction s as [|c s [IHd IHl]]; [by split; [|apply not_elem_of_nil]|].
  unfold faithful. change (escape_text (c :: s)) with (escape_byte c ++ escape_text s).
  unfold escape_byte. repeat case_decide; subst.
  1-3: split; [cbn; by rewrite IHd|cbn; set_solver].
  split; [|set_solver]. destruct c as [[] [] [] [] [] [] [] []]; try done; cbn; by rewrite IHd.
Qed.

(** The page that a browser makes of the text of [sample_last] *)
Definition page_type : view_type :=
  TTuple (TElement (element "h1") TString)
    (TTuple (TElement (element "p") (TTuple TString (TTuple TUnit TString)))
       (TTuple TUnit (TTuple TUnit TUnit))).
Definition page : view page_type := (lit "Two", ((lit "b", (tt, lit "c")), (tt, (tt, tt)))).

Lemma sample_html : to_html escape_text sample_type sample_last = lit "<h1>Two</h1><p>b<!>c</p><!><!><!>".
Proof. reflexivity. Qed.

Lemma hydrate_takes_over_witness :
  ∃ (d : document) st, dom_ok d ∧ hydrate_from d sample_type sample_last 0 = Ok st ∧
    adopts d sample_type sample_last st.
Proof.
  destruct (hydrate_takes_over escape_text decode_refs sample_type sample_last) as (xs & Hx & Hh);
    [reflexivity|reflexivity|by apply Forall_true, escape_faithful|by repeat split|reflexivity|].
  destruct (mount_in_place page_type page empty_document 0 [] [] (proj1 empty_document_ok)
    (proj2 empty_document_ok) eq_refl) as (st & d & _ & [A1 A2 A3 A4 A5 A6 A7]).
  destruct (Hh document _ _ d 0 A1) as (st' & E & Ad & _).
  - rewrite (proj2 A4), app_nil_r. cbn [app].
    assert (xs = view_shape page_type page) as -> by (apply (inj Some); rewrite <-Hx; vm_compute; reflexivity).
    rewrite <-A6. by apply (@vl_shows document _ _ _ _ _ (view_laws page_type)).
  - by exists d, st'.
Defined.
