(* ===== verification/Stream.v ===== *)
(** * Streams of HTML

    [StreamBuilder] of [tachys/src/ssr/mod.rs]: text that is ready, chunks that
    wait for a future and are sent in their place, and chunks that are sent
    when they are ready, with a script that puts them in the place of their
    fallback.  A future is the number of polls that find it pending with the
    result that the next poll gives, so that every order in which futures get
    ready is a choice of these numbers. *)

From Stdlib Require Import Ascii NArith.
From stdpp Require Import base list strings pretty.
From S2P Require Import Prelude RustStr Dom Views Html.

Inductive StreamChunk :=
| Sync (s : str)
| Async (polls : nat) (chunks : list StreamChunk)
| OutOfOrder (polls : nat) (id : str) (chunks : list StreamChunk) (replace : bool) (nonce : option str).

Record OooChunk := mkOooChunk {
  ooo_id : str;
  ooo_chunks : list StreamChunk;
  ooo_replace : bool;
  ooo_nonce : option str;
}.

Record StreamBuilder := mkStreamBuilder {
  sync_buf : str;
  chunks : list StreamChunk;
  pending : option (nat * list StreamChunk);
  pending_ooo : list (nat * OooChunk);
  sb_id : option (list N);
}.

Definition builder_new (id : option (list N)) : StreamBuilder := mkStreamBuilder [] [] None [] id.

Definition set_sync_buf (s : str) (b : StreamBuilder) : StreamBuilder :=
  mkStreamBuilder s (chunks b) (pending b) (pending_ooo b) (sb_id b).
Definition set_chunks (l : list StreamChunk) (b : StreamBuilder) : StreamBuilder :=
  mkStreamBuilder (sync_buf b) l (pending b) (pending_ooo b) (sb_id b).
Definition set_pending (p : option (nat * list StreamChunk)) (b : StreamBuilder) : StreamBuilder :=
  mkStreamBuilder (sync_buf b) (chunks b) p (pending_ooo b) (sb_id b).
Definition set_pending_ooo (l : list (nat * OooChunk)) (b : StreamBuilder) : StreamBuilder :=
  mkStreamBuilder (sync_buf b) (chunks b) (pending b) l (sb_id b).
Definition set_id (id : option (list N)) (b : StreamBuilder) : StreamBuilder :=
  mkStreamBuilder (sync_buf b) (chunks b) (pending b) (pending_ooo b) id.

(** ** Building *)

Definition push_sync (s : str) (b : StreamBuilder) : StreamBuilder := set_sync_buf (sync_buf b ++ s) b.

(** The text that is ready becomes a chunk. *)
Definition flush_sync (b : StreamBuilder) : StreamBuilder :=
  match sync_buf b with
  | [] => b
  | sync => set_sync_buf [] (set_chunks (chunks b ++ [Sync sync]) b)
  end.

Definition push_async (polls : nat) (fut : list StreamChunk) (b : StreamBuilder) : StreamBuilder :=
  let b := flush_sync b in set_chunks (chunks b ++ [Async polls fut]) b.

Definition take_chunks (b : StreamBuilder) : list StreamChunk * StreamBuilder :=
  let b := flush_sync b in (chunks b, set_chunks [] b).

Definition append (other b : StreamBuilder) : StreamBuilder :=
  let b := flush_sync b in
  push_sync (sync_buf other) (set_chunks (chunks b ++ chunks other) b).

Definition finish (b : StreamBuilder) : StreamBuilder :=
  match sync_buf b with
  | [] => b
  | remaining =>
      match last (chunks b) with
      | Some (Sync buf) =>
          set_sync_buf [] (set_chunks (removelast (chunks b) ++ [Sync (buf ++ remaining)]) b)
      | _ => set_sync_buf [] (set_chunks (chunks b ++ [Sync remaining]) b)
      end
  end.

(** The counters of the identifiers are [u16] and wrap around. *)
Definition next_id (b : StreamBuilder) : StreamBuilder :=
  match sb_id b with
  | Some ids =>
      match last ids with
      | Some n => set_id (Some (removelast ids ++ [(n + 1) mod 2 ^ 16]%N)) b
      | None => b
      end
  | None => b
  end.

Definition child_id (b : StreamBuilder) : option (list N) := (λ ids, ids ++ [0%N]) <$> sb_id b.

(** [write!("{piece}-")] for every piece *)
Definition print_id (ids : list N) : str := concat (map (λ n, lit (pretty n) ++ lit "-") ids).

Definition write_chunk_marker (opening : bool) (b : StreamBuilder) : StreamBuilder :=
  match sb_id b with
  | Some ids =>
      push_sync (lit "<!--s-" ++ print_id ids ++ (if opening then lit "o-->" else lit "c-->")) b
  | None => b
  end.

(** [fallback] prints the view into a buffer. *)
Definition push_fallback (fallback : str → Position → RenderFlags → str * Position)
    (position : Position) (mark_branches : bool) (b : StreamBuilder) : StreamBuilder * Position :=
  let b := write_chunk_marker true b in
  let b := set_sync_buf (fallback (sync_buf b) position (mkRenderFlags true true mark_branches)).1 b in
  (write_chunk_marker false b, NextChild).

(** Waiting for the chunks of error boundaries: the polls that this takes and
    the chunks. *)
Fixpoint flatten_chunks (l : list StreamChunk) : nat * list StreamChunk :=
  match l with
  | [] => (0, [])
  | Async polls cs :: l => let '(n, r) := flatten_chunks l in (polls + n, cs ++ r)
  | c :: l => let '(n, r) := flatten_chunks l in (n, c :: r)
  end.

(** The future waits for [polls] polls for the view, then prints it with [view]
    into a builder of its own. *)
Definition push_async_out_of_order (polls : nat) (replace : bool)
    (view : StreamBuilder → Position → RenderFlags → StreamBuilder * Position)
    (position : Position) (mark_branches : bool) (nonce : option str) (b : StreamBuilder) : StreamBuilder :=
  let id := match sb_id b with Some ids => print_id ids | None => [] end in
  let subbuilder := (view (builder_new (child_id b)) position (mkRenderFlags true true mark_branches)).1 in
  let '(n, flattened) := flatten_chunks (take_chunks (finish subbuilder)).1 in
  set_chunks (chunks b ++ [OutOfOrder (polls + n) id flattened replace nonce]) b.

Definition push_start (id : str) (buf : str) : str :=
  buf ++ lit "<template id=" ++ ["034"%char] ++ id ++ lit "f" ++ ["034"%char] ++ lit ">".

(** The script that moves a chunk to its place *)
Definition script_walk : str := ["034"%char] ++ lit ";let open = undefined;let close = undefined;let walker = document.createTreeWalker(document.body, NodeFilter.SHOW_COMMENT);while(walker.nextNode()) {if(walker.currentNode.textContent == `s-${id}o`){ open=walker.currentNode; } else if(walker.currentNode.textContent == `s-${id}c`) { close = walker.currentNode;}}let range = new Range(); range.setStartBefore(open); range.setEndBefore(close);".
Definition script_replace : str := lit "range.deleteContents(); let tpl = document.getElementById(`${id}f`); close.parentNode.insertBefore(tpl.content.cloneNode(true), close);close.remove();".
Definition script_keep : str := lit "close.remove();open.remove();".
Definition push_end_with_nonce (replace : bool) (id : str) (buf : str) (nonce : option str) : str :=
  buf ++ lit "</template>" ++
  match nonce with
  | Some nonce => lit "<script nonce=" ++ ["034"%char] ++ nonce ++ ["034"%char] ++ lit ">(function() { let id = " ++ ["034"%char]
  | None => lit "<script>(function() { let id = " ++ ["034"%char]
  end ++ id ++ script_walk ++ (if replace then script_replace else script_keep) ++ lit "})()</script>".

(** ** Polling *)

Inductive Poll (A : Type) :=
| Pending
| Ready (a : A).
Arguments Pending {A}.
Arguments Ready {A} _.

Section poll.
Local Abbreviation M := (stateM StreamBuilder).

Definition get_stream : M StreamBuilder := gets id.
Definition change (f : StreamBuilder → StreamBuilder) : M unit := modify f.

(** [mem::take(&mut this.sync_buf)] as the next item *)
Definition send_buf : M (Poll (option str)) :=
  this ← get_stream; _ ← change (set_sync_buf []); mret (Ready (Some (sync_buf this))).

(** [str::find] *)
Fixpoint find_str (needle s : str) : option nat :=
  match strip_prefix needle s with
  | Some _ => Some 0
  | None => match s with [] => None | _ :: s => S <$> find_str needle s end
  end.

(** The text of the chunks that are ready, and the others *)
Definition ready_text (l : list StreamChunk) : str :=
  concat (map (λ c, match c with Sync s => s | _ => [] end) l).
Definition is_sync (c : StreamChunk) : bool := match c with Sync _ => true | _ => false end.
Definition held_chunks (l : list StreamChunk) : list StreamChunk := List.filter (λ c, negb (is_sync c)) l.

(** An out-of-order chunk is ready: its text replaces the fallback if that has
    not been sent yet, and goes into a template otherwise. *)
Definition insert_ooo (c : OooChunk) : M unit :=
  this ← get_stream;
  let marker := lit "<!--s-" ++ ooo_id c ++ lit "o-->" in
  _ ← (match find_str marker (sync_buf this) with
       | Some start =>
           let marker := lit "<!--s-" ++ ooo_id c ++ lit "c-->" in
           n ← unwrapM (find_str marker (drop start (sync_buf this)));
           let before := take start (sync_buf this) in
           let after := drop (start + n + length marker) (sync_buf this) in
           change (set_sync_buf (before ++ ready_text (ooo_chunks c) ++ after))
       | None =>
           change (set_sync_buf
             (push_end_with_nonce (ooo_replace c) (ooo_id c)
                (push_start (ooo_id c) (sync_buf this) ++ ready_text (ooo_chunks c)) (ooo_nonce c)))
       end);
  change (λ this, set_chunks (held_chunks (ooo_chunks c) ++ chunks this) this).

Definition poll_ooo (p : nat * OooChunk) : M unit :=
  match p with
  | (0, c) => insert_ooo c
  | (S n, c) => change (λ this, set_pending_ooo (pending_ooo this ++ [(n, c)]) this)
  end.

(** The loop after a synchronous chunk: the text up to the next future *)
Fixpoint drain_sync (l : list StreamChunk) : str * list StreamChunk * list (nat * OooChunk) :=
  match l with
  | [] => ([], [], [])
  | Sync next :: l => let '(s, r, o) := drain_sync l in (next ++ s, r, o)
  | OutOfOrder n id cs replace nonce :: l => ([], l, [(n, mkOooChunk id cs replace nonce)])
  | Async n cs :: l => ([], Async n cs :: l, [])
  end.

Fixpoint poll_next (fuel : nat) : M (Poll (option str)) :=
  match fuel with
  | 0 => no_fuel
  | S fuel =>
      this ← get_stream;
      match pending this with
      | Some (S n, cs) => _ ← change (set_pending (Some (n, cs))); mret Pending
      | Some (0, cs) =>
          _ ← change (λ this, set_pending None (set_chunks (cs ++ chunks this) this)); poll_next fuel
      | None =>
          match chunks this with
          | [] =>
              match pending_ooo this with
              | [] => match sync_buf this with [] => mret (Ready None) | _ => send_buf end
              | ooo =>
                  _ ← change (set_pending_ooo []);
                  _ ← for_each poll_ooo ooo;
                  this ← get_stream;
                  match sync_buf this with [] => mret Pending | _ => send_buf end
              end
          | Sync value :: rest =>
              let '(s, rest, ooo) := drain_sync rest in
              _ ← change (λ this, set_sync_buf (sync_buf this ++ value ++ s)
                                    (set_chunks rest (set_pending_ooo (pending_ooo this ++ ooo) this)));
              poll_next fuel
          | Async n cs :: rest =>
              _ ← change (λ this, set_pending (Some (n, cs)) (set_chunks rest this));
              match sync_buf this with [] => poll_next fuel | _ => send_buf end
          | OutOfOrder n id cs replace nonce :: rest =>
              _ ← change (λ this, set_pending_ooo (pending_ooo this ++ [(n, mkOooChunk id cs replace nonce)])
                                    (set_chunks rest this));
              match sync_buf this with [] => poll_next fuel | _ => send_buf end
          end
      end
  end.
End poll.
