(* ===== verification/StreamViews.v ===== *)
(** * Views with asynchronous parts

    [to_html_async_with_buf] of the views of [Views], and of [Suspend] of
    [tachys/src/reactive_graph/suspense.rs], a view that a future yields, when
    it is not below a [Suspense].  [async_type] codes the types of these
    views as [view_type] does for the others. *)

From Stdlib Require Import Ascii NArith.
From stdpp Require Import base list strings.
From S2P Require Import Prelude RustStr Dom Views Html Stream.

(** The view, how many polls find its future pending, and whether the future
    reads a local resource: then it never yields the view on the server, and
    [LocalResourceNotifier] ends the waiting. *)
Record Suspend (A : Type) := mkSuspend {
  s_inner : A;
  s_polls : nat;
  s_local : bool;
}.
Arguments mkSuspend {A} _ _ _.
Arguments s_inner {A} _.
Arguments s_polls {A} _.
Arguments s_local {A} _.

Inductive async_type :=
| AString
| AUnit
| ATuple (a b : async_type)
| AEither (a b : async_type)
| AOption (a : async_type)
| AVec (a : async_type)
| AElement (e : element_type) (children : async_type)
| ASuspend (a : async_type).

Fixpoint async_view (t : async_type) : Type :=
  match t with
  | AString => str
  | AUnit => unit
  | ATuple a b => async_view a * async_view b
  | AEither a b => async_view a + async_view b
  | AOption a => option (async_view a)
  | AVec a => list (async_view a)
  | AElement _ children => async_view children
  | ASuspend a => Suspend (async_view a)
  end.

Fixpoint ASYNC_EXISTS (t : async_type) : bool :=
  match t with
  | AUnit => false
  | ATuple a b => ASYNC_EXISTS a || ASYNC_EXISTS b
  | _ => true
  end.

(** [RenderHtml::resolve]: the view when all futures are ready *)
Fixpoint resolved (t : async_type) : view_type :=
  match t with
  | AString => TString
  | AUnit => TUnit
  | ATuple a b => TTuple (resolved a) (resolved b)
  | AEither a b => TEither (resolved a) (resolved b)
  | AOption a => TOption (resolved a)
  | AVec a => TVec (resolved a)
  | AElement e a => TElement e (resolved a)
  | ASuspend a => TOption (resolved a)
  end.
Fixpoint resolve (t : async_type) : async_view t → view (resolved t) :=
  match t with
  | AString => λ v, v
  | AUnit => λ v, v
  | ATuple a b => λ v, (resolve a v.1, resolve b v.2)
  | AEither a b => λ v, match v with inl v => inl (resolve a v) | inr v => inr (resolve b v) end
  | AOption a => λ v, match v with Some v => Some (resolve a v) | None => None end
  | AVec a => λ v, map (resolve a) v
  | AElement _ a => λ v, resolve a v
  | ASuspend a => λ v, Some (resolve a (s_inner v))
  end.

Section printing.
Variable encode_text : str → str.

Abbreviation printer := (StreamBuilder → Position → RenderFlags → StreamBuilder * Position).

(** The default: print into the buffer. *)
Definition sync_to_html (p : str → Position → RenderFlags → str * Position) : printer :=
  λ buf position flags,
    let '(s, position) := p (sync_buf buf) position flags in (set_sync_buf s buf, position).

Definition tuple_to_html_async (first ty : printer) : printer := λ buf position flags,
  let '(buf, position) := first buf position flags in ty buf position flags.

Definition branch_to_html_async (branch_id : str) (side : printer) : printer := λ buf position flags,
  let mark := mark_branches flags && escape flags in
  let buf := if mark then set_sync_buf (open_branch (sync_buf buf) branch_id) buf else buf in
  let '(buf, position) := side buf position flags in
  if mark then
    (set_sync_buf (close_branch (sync_buf buf) branch_id) buf,
     if decide (position = NextChildAfterText) then NextChild else position)
  else (buf, position).

Definition vec_to_html_async (children : list printer) : printer := λ buf position flags,
  let '(buf, position) :=
    foldl (λ bp child, child bp.1 bp.2 flags) (buf, position) children in
  if hydrate_markers flags then (push_sync (lit "<!>") buf, NextChild) else (buf, position).

Definition element_to_html_async (e : element_type) (ch_exists : bool) (children : printer) : printer :=
  λ buffer position flags,
    let buffer := push_sync (lit "<" ++ TAG e ++ lit ">") buffer in
    let buffer :=
      if SELF_CLOSING e then buffer
      else
        let buffer := if ch_exists
                      then (children buffer FirstChild (with_hydrate (HYDRATES_CHILDREN e)
                                                          (with_escape (ESCAPE_CHILDREN e) flags))).1
                      else buffer in
        push_sync (lit "</" ++ TAG e ++ lit ">") buffer in
    (buffer, NextChild).

(** The [Option] that the future yields *)
Definition option_to_html_async (some : option printer) : printer :=
  match some with
  | Some p => branch_to_html_async (lit "0") p
  | None => branch_to_html_async (lit "1") (sync_to_html unit_to_html)
  end.

Definition suspend_to_html_async {A} (out_of_order : bool) (inner : A → printer) (v : Suspend A) : printer :=
  λ buf position flags,
    if (s_polls v =? 0) && negb (s_local v) then inner (s_inner v) buf position flags
    else
      let buf := next_id buf in
      let polls := pred (s_polls v) in
      let value := option_to_html_async (if s_local v then None else Some (inner (s_inner v))) in
      if out_of_order then
        let '(buf, _) := push_fallback unit_to_html position (mark_branches flags) buf in
        (push_async_out_of_order polls (negb (s_local v)) value position (mark_branches flags) None buf,
         position)
      else
        let builder := (value (builder_new (sb_id buf)) position flags).1 in
        (push_async polls (take_chunks (finish builder)).1 buf, NextChild).

Fixpoint to_html_async (out_of_order : bool) (t : async_type) : async_view t → printer :=
  match t with
  | AString => λ s, sync_to_html (str_to_html encode_text s)
  | AUnit => λ _, sync_to_html unit_to_html
  | ATuple a b => λ v, tuple_to_html_async (to_html_async out_of_order a v.1) (to_html_async out_of_order b v.2)
  | AEither a b => λ v,
      match v with
      | inl v => branch_to_html_async (lit "0") (to_html_async out_of_order a v)
      | inr v => branch_to_html_async (lit "1") (to_html_async out_of_order b v)
      end
  | AOption a => λ v,
      option_to_html_async (match v with Some v => Some (to_html_async out_of_order a v) | None => None end)
  | AVec a => λ v, vec_to_html_async (map (to_html_async out_of_order a) v)
  | AElement e a => λ v, element_to_html_async e (ASYNC_EXISTS a) (to_html_async out_of_order a v)
  | ASuspend a => suspend_to_html_async out_of_order (to_html_async out_of_order a)
  end.

Definition to_html_stream_in_order (t : async_type) (v : async_view t) : StreamBuilder :=
  finish (to_html_async false t v (builder_new None) FirstChild HYDRATE).1.
Definition to_html_stream_out_of_order (t : async_type) (v : async_view t) : StreamBuilder :=
  finish (to_html_async true t v (builder_new (Some [0%N])) FirstChild HYDRATE).1.
End printing.

(** ** Receiving a stream

    The items that polling yields, until the stream ends *)
Fixpoint collect (fuel : nat) (b : StreamBuilder) : outcome (list str) :=
  match fuel with
  | 0 => NoFuel
  | S fuel =>
      match poll_next fuel b with
      | Ok (Pending, b) => collect fuel b
      | Ok (Ready (Some item), b) => items ← collect fuel b; Ok (item :: items)
      | Ok (Ready None, _) => Ok []
      | Panic => Panic
      | NoFuel => NoFuel
      end
  end.

(** ** Examples *)

Definition demo_element (tag : string) : element_type := mkElementType (lit tag) false true true.
Definition demo_type : async_type :=
  ATuple (AElement (demo_element "p") (ATuple AString (ASuspend (AElement (demo_element "em") AString)))) AString.
Definition demo : async_view demo_type := ((lit "a", mkSuspend (lit "b") 3 false), lit "c").
Lemma demo_in_order :
  collect 100 (to_html_stream_in_order id demo_type demo) =
    Ok [lit "<p>a"; lit "<em>b</em></p>c"].
Proof. vm_compute. reflexivity. Qed.
Lemma demo_out_of_order :
  ∃ script, collect 100 (to_html_stream_out_of_order id demo_type demo) =
    Ok [lit "<p>a<!--s-1-o--><!><!--s-1-c--></p>c";
        lit "<template id=" ++ ["034"%char] ++ lit "1-f" ++ ["034"%char] ++ lit "><em>b</em></template>" ++ script].
Proof. eexists. vm_compute. reflexivity. Qed.
