(* ===== verification/StreamProps.v ===== *)
(** * Streams without out-of-order chunks

    The text that a stream still has to send, and the measures that bound how
    often it is polled: every poll either sends the next part of that text, or
    finds a future pending once more, or ends the stream with nothing left. *)

From Stdlib Require Import Ascii NArith.
From stdpp Require Import base list strings gmap.
From S2P Require Import Prelude RustStr Dom Views Html Stream StreamViews ViewSpec ViewProps HtmlProps.

(** ** Chunks *)

Fixpoint chunk_text (c : StreamChunk) : str :=
  match c with
  | Sync s => s
  | Async _ cs => concat (map chunk_text cs)
  | OutOfOrder _ _ _ _ _ => []
  end.
Definition chunks_text (l : list StreamChunk) : str := concat (map chunk_text l).

Fixpoint in_order (c : StreamChunk) : bool :=
  match c with
  | Sync _ => true
  | Async _ cs => forallb in_order cs
  | OutOfOrder _ _ _ _ _ => false
  end.
Abbreviation all_in_order l := (forallb in_order l = true).

(** How many steps polling takes, and how often futures are pending *)
Fixpoint chunk_size (c : StreamChunk) : nat :=
  match c with
  | Async _ cs => 2 + list_sum (map chunk_size cs)
  | _ => 1
  end.
Definition chunks_size (l : list StreamChunk) : nat := list_sum (map chunk_size l).
Fixpoint chunk_polls (c : StreamChunk) : nat :=
  match c with
  | Async n cs => n + list_sum (map chunk_polls cs)
  | _ => 0
  end.
Definition chunks_polls (l : list StreamChunk) : nat := list_sum (map chunk_polls l).

#[local] Arguments chunks_text : simpl never.
#[local] Arguments chunks_size : simpl never.
#[local] Arguments chunks_polls : simpl never.

Lemma chunks_text_cons c l : chunks_text (c :: l) = chunk_text c ++ chunks_text l.
Proof. done. Qed.
Lemma chunks_size_cons c l : chunks_size (c :: l) = chunk_size c + chunks_size l.
Proof. done. Qed.
Lemma chunks_polls_cons c l : chunks_polls (c :: l) = chunk_polls c + chunks_polls l.
Proof. done. Qed.
Lemma chunk_size_async n l : chunk_size (Async n l) = 2 + chunks_size l.
Proof. done. Qed.
Lemma chunk_polls_async n l : chunk_polls (Async n l) = n + chunks_polls l.
Proof. done. Qed.
Lemma chunks_text_app l l' : chunks_text (l ++ l') = chunks_text l ++ chunks_text l'.
Proof. unfold chunks_text. by rewrite map_app, concat_app. Qed.
Lemma chunks_size_app l l' : chunks_size (l ++ l') = chunks_size l + chunks_size l'.
Proof. unfold chunks_size. by rewrite map_app, list_sum_app. Qed.
Lemma chunks_polls_app l l' : chunks_polls (l ++ l') = chunks_polls l + chunks_polls l'.
Proof. unfold chunks_polls. by rewrite map_app, list_sum_app. Qed.

(** ** Building *)

(** The text of a stream that is being built *)
Definition built_text (b : StreamBuilder) : str := chunks_text (chunks b) ++ sync_buf b.

(** A builder without out-of-order chunks that nobody has polled *)
Definition fresh (b : StreamBuilder) : Prop :=
  all_in_order (chunks b) ∧ pending b = None ∧ pending_ooo b = [].

Lemma flush_sync_ok b : fresh b →
  fresh (flush_sync b) ∧ built_text (flush_sync b) = built_text b ∧ sync_buf (flush_sync b) = [].
Proof.
  intros (Hc & Hp & Ho). unfold flush_sync. destruct (sync_buf b) as [|c s] eqn:E; [done|].
  unfold fresh, built_text. cbn. rewrite forallb_app, Hc, chunks_text_app, chunks_text_cons, E.
  unfold chunks_text at 2. cbn. by rewrite !app_nil_r.
Qed.

Lemma push_sync_ok s b : fresh b → fresh (push_sync s b) ∧ built_text (push_sync s b) = built_text b ++ s.
Proof. intros Hf. split; [done|]. unfold built_text. cbn. by rewrite app_assoc. Qed.

Lemma push_async_ok n cs b : fresh b → all_in_order cs →
  fresh (push_async n cs b) ∧ built_text (push_async n cs b) = built_text b ++ chunks_text cs.
Proof.
  intros Hf Hcs. destruct (flush_sync_ok b Hf) as ((Hc & Hp & Ho) & Ht & Hs). rewrite <-Ht.
  unfold push_async, fresh, built_text. cbn. rewrite forallb_app, Hc, Hs, chunks_text_app. cbn.
  rewrite Hcs, !app_nil_r. split; [done|]. unfold chunks_text at 2. cbn. by rewrite app_nil_r.
Qed.

Lemma finish_ok b : fresh b →
  fresh (finish b) ∧ built_text (finish b) = built_text b ∧ sync_buf (finish b) = [].
Proof.
  intros (Hc & Hp & Ho). unfold finish. destruct (sync_buf b) as [|c s] eqn:E; [done|].
  assert (∀ l, all_in_order l → chunks_text l = chunks_text (chunks b) ++ c :: s →
    let b' := set_sync_buf [] (set_chunks l b) in
    fresh b' ∧ built_text b' = built_text b ∧ sync_buf b' = []) as Hdone.
  { intros l Hl Ht. unfold fresh, built_text. cbn. by rewrite E, Ht, app_nil_r. }
  assert (chunks_text (chunks b ++ [Sync (c :: s)]) = chunks_text (chunks b) ++ c :: s) as Hsnoc.
  { rewrite chunks_text_app. unfold chunks_text at 2. cbn. by rewrite app_nil_r. }
  destruct (last (chunks b)) as [[buf| |]|] eqn:El;
    try (apply Hdone; [by rewrite forallb_app, Hc|done]).
  apply last_Some in El as [l El]. rewrite El in *. rewrite removelast_last.
  rewrite forallb_app in Hc. apply andb_prop in Hc as [Hc _]. apply Hdone.
  - by rewrite forallb_app, Hc.
  - rewrite !chunks_text_app, <-app_assoc. f_equal. unfold chunks_text. cbn. by rewrite !app_nil_r.
Qed.

Lemma take_chunks_ok b : fresh b →
  all_in_order (take_chunks b).1 ∧ chunks_text (take_chunks b).1 = built_text b.
Proof.
  intros Hf. destruct (flush_sync_ok b Hf) as ((Hc & _) & Ht & Hs). cbn.
  split; [done|]. rewrite <-Ht. unfold built_text. by rewrite Hs, app_nil_r.
Qed.

Lemma fresh_new id : fresh (builder_new id).
Proof. done. Qed.

Lemma fresh_next_id b : fresh b → fresh (next_id b) ∧ built_text (next_id b) = built_text b.
Proof. intros Hf. unfold next_id. repeat case_match; done. Qed.

(** ** Polling *)

Record streams (b : StreamBuilder) : Prop := mk_streams {
  st_chunks : all_in_order (chunks b);
  st_ooo : pending_ooo b = [];
  st_pending : ∀ n cs, pending b = Some (n, cs) → all_in_order cs ∧ sync_buf b = [];
}.

Definition pending_chunks (b : StreamBuilder) : list StreamChunk :=
  match pending b with Some (_, cs) => cs | None => [] end.

(** What a stream that is being polled has still to send *)
Definition stream_text (b : StreamBuilder) : str :=
  sync_buf b ++ chunks_text (pending_chunks b) ++ chunks_text (chunks b).

Definition poll_fuel (b : StreamBuilder) : nat :=
  (match pending b with Some (_, cs) => 1 + chunks_size cs | None => 0 end) + chunks_size (chunks b).

(** How often the stream can be polled *)
Definition stream_fuel (b : StreamBuilder) : nat :=
  (match pending b with Some (n, cs) => n + chunks_polls cs | None => 0 end) + chunks_polls (chunks b) +
  poll_fuel b + (match sync_buf b with [] => 0 | _ => 1 end).

Ltac chunk_sizes :=
  unfold stream_fuel, poll_fuel in *; cbn [pending chunks sync_buf] in *;
  rewrite ?chunks_size_cons, ?chunks_polls_cons, ?chunk_size_async, ?chunk_polls_async,
    ?chunks_size_app, ?chunks_polls_app in *; cbn [chunk_size chunk_polls] in *; try lia.

Lemma drain_sync_ok l : all_in_order l →
  let '(s, r, o) := drain_sync l in
  o = [] ∧ all_in_order r ∧ chunks_text l = s ++ chunks_text r ∧ chunks_size r ≤ chunks_size l ∧
  chunks_polls r = chunks_polls l.
Proof.
  induction l as [|[s| |] l IH]; cbn; [done| |done|done].
  intros Hl. destruct (drain_sync l) as [[s' r] o]. destruct (IH Hl) as (-> & Hr & Ht & Hs & Hp).
  rewrite chunks_text_cons, chunks_size_cons, chunks_polls_cons. cbn.
  split_and!; [done|done|by rewrite Ht, app_assoc|lia|done].
Qed.

(** One poll *)
Definition polled (b : StreamBuilder) (r : Poll (option str)) (b' : StreamBuilder) : Prop :=
  streams b' ∧
  match r with
  | Pending => stream_text b' = stream_text b ∧ stream_fuel b' < stream_fuel b
  | Ready (Some item) =>
      item ≠ [] ∧ stream_text b = item ++ stream_text b' ∧ stream_fuel b' < stream_fuel b
  | Ready None => stream_text b = []
  end.

Lemma polled_after b b1 r b' : stream_text b1 = stream_text b → stream_fuel b1 ≤ stream_fuel b →
  polled b1 r b' → polled b r b'.
Proof.
  intros Ht Hf [Hs Hr]. split; [done|]. destruct r as [|[item|]]; rewrite <-Ht.
  - destruct Hr. split; [done|lia].
  - destruct Hr as (? & ? & ?). split_and!; [done|done|lia].
  - done.
Qed.

Lemma poll_next_ok fuel b : streams b → poll_fuel b < fuel →
  ∃ r b', poll_next fuel b = Ok (r, b') ∧ polled b r b'.
Proof.
  revert b. induction fuel as [|fuel IH]; intros b Hb Hf; [lia|].
  destruct b as [sync cs pend ooo id]. destruct Hb as [Hc Ho Hp]. cbn in *. subst ooo.
  destruct pend as [[[|n] ps]|].
  - destruct (Hp 0 ps eq_refl) as [Hps ->].
    destruct (IH (mkStreamBuilder [] (ps ++ cs) None [] id)) as (r & b' & E & Hr).
    + split; cbn; [by rewrite forallb_app, Hps|done|done].
    + chunk_sizes.
    + exists r, b'. split; [done|]. eapply polled_after; [| |exact Hr].
      * unfold stream_text. cbn. by rewrite chunks_text_app.
      * chunk_sizes.
  - eexists _, _. split; [reflexivity|]. destruct (Hp _ _ eq_refl) as [Hps ->]. split; [split; [done|done|naive_solver]|].
    split; [done|]. unfold stream_fuel, poll_fuel. cbn. lia.
  - destruct cs as [|[s|n ps|] cs]; cbn in *.
    + destruct sync as [|x sync]; (eexists _, _; split; [reflexivity|]); (split; [done|]); [done|].
      split_and!; [done| |unfold stream_fuel, poll_fuel; cbn; lia].
      unfold stream_text. cbn. by rewrite !app_nil_r.
    + pose proof (drain_sync_ok cs Hc) as Hd. destruct (drain_sync cs) as [[s' r] o] eqn:Ed.
      destruct Hd as (-> & Hr & Ht & Hs & Hpl).
      destruct (IH (mkStreamBuilder (sync ++ s ++ s') r None [] id)) as (res & b' & E & Hres).
      * by split.
      * chunk_sizes.
      * exists res, b'. split.
        { unfold mbind, stateM_bind. cbn. rewrite Ed. exact E. }
        eapply polled_after; [| |exact Hres].
        -- unfold stream_text. cbn. by rewrite chunks_text_cons, Ht, <-!app_assoc.
        -- chunk_sizes. destruct (sync ++ s ++ s'); lia.
    + apply andb_prop in Hc as [Hps Hc]. destruct sync as [|x sync].
      * destruct (IH (mkStreamBuilder [] cs (Some (n, ps)) [] id)) as (res & b' & E & Hres).
        -- split; cbn; [done|done|naive_solver].
        -- chunk_sizes.
        -- exists res, b'. split; [done|]. eapply polled_after; [| |exact Hres]; [done|].
           chunk_sizes.
      * eexists _, _. split; [reflexivity|]. split; [split; cbn; [done|done|naive_solver]|].
        split_and!; [done|done|]. cbn. chunk_sizes.
    + done.
Qed.

Lemma collect_ok fuel b : streams b → S (stream_fuel b) < fuel →
  ∃ items, collect fuel b = Ok items ∧ concat items = stream_text b ∧ Forall (λ item, item ≠ []) items.
Proof.
  revert b. induction fuel as [|fuel IH]; intros b Hb Hf; [lia|]. cbn.
  destruct (poll_next_ok fuel b Hb) as (r & b' & E & Hs & Hr).
  - assert (poll_fuel b ≤ stream_fuel b) by (unfold stream_fuel; lia). lia.
  - rewrite E. destruct r as [|[item|]].
    + destruct Hr as [<- Hlt]. apply IH; [done|lia].
    + destruct Hr as (Hi & -> & Hlt). destruct (IH b' Hs) as (items & -> & <- & Hall); [lia|].
      exists (item :: items). by split_and!; [| |constructor].
    + exists []. by rewrite Hr.
Qed.

(** * What a stream in order sends

    A stream in order sends the HTML of the view whose futures are all ready,
    where no suspended view ends in a text; and if one does, a text that
    follows it is not separated from it. *)

(** ** Printing into a buffer appends *)

Section prints.
Variable encode_text : str → str.

Abbreviation appends p := (∀ buf pos flags, p buf pos flags = (buf ++ (p [] pos flags).1, (p [] pos flags).2)).

Lemma appends_str s : appends (str_to_html encode_text s).
Proof.
  intros buf pos flags. unfold str_to_html. f_equal. repeat case_match; cbn; rewrite ?app_nil_r, <-?app_assoc; done.
Qed.

Lemma appends_unit : appends unit_to_html.
Proof. intros buf pos flags. unfold unit_to_html. case_match; cbn; by rewrite ?app_nil_r. Qed.

Lemma appends_tuple p q : appends p → appends q → appends (tuple_to_html p q).
Proof.
  intros Hp Hq buf pos flags. unfold tuple_to_html. rewrite (Hp buf), (Hq (buf ++ _)).
  destruct (p [] pos flags) as [s pos']. cbn. rewrite (Hq s). cbn. by rewrite app_assoc.
Qed.

Lemma appends_branch id p : appends p → appends (branch_to_html id p).
Proof.
  intros Hp buf pos flags. unfold branch_to_html, open_branch, close_branch. destruct (mark_branches flags && escape flags); rewrite Hp.
  - rewrite (Hp ([] ++ _)). cbn [fst snd app]. by rewrite <-!app_assoc.
  - by destruct (p [] pos flags).
Qed.

Lemma appends_vec ps : Forall (λ p, appends p) ps → appends (vec_to_html ps).
Proof.
  intros Hps buf pos flags. unfold vec_to_html.
  assert (∀ s, foldl (λ bp child, child bp.1 bp.2 flags) (buf ++ s, pos) ps =
    let r := foldl (λ bp child, child bp.1 bp.2 flags) (s, pos) ps in (buf ++ r.1, r.2)) as Hf.
  { revert pos. induction Hps as [|p ps Hp _ IH]; intros pos s; [done|]. cbn.
    rewrite (Hp (buf ++ s)), (Hp s). cbn. rewrite <-app_assoc. apply IH. }
  specialize (Hf []). rewrite app_nil_r in Hf. rewrite Hf.
  destruct (foldl _ ([], pos) ps) as [s pos']. cbn. case_match; cbn; by rewrite ?app_assoc.
Qed.

Lemma appends_element e ex p : appends p → appends (element_to_html e ex p).
Proof.
  intros Hp buf pos flags. unfold element_to_html. cbn [fst snd]. f_equal.
  destruct (SELF_CLOSING e), ex; cbn [app]; rewrite <-?app_assoc; try done.
  rewrite Hp. rewrite (Hp (lit "<" ++ _)). cbn [fst]. by rewrite <-!app_assoc.
Qed.

Lemma appends_view t v : appends (to_html_with_buf encode_text t v).
Proof.
  induction t as [| |a IHa b IHb|a IHa b IHb|a IHa|a IHa|e a IHa]; cbn.
  - apply appends_str.
  - apply appends_unit.
  - by apply appends_tuple.
  - destruct v; by apply appends_branch.
  - destruct v; by apply appends_branch, IHa || apply (appends_branch _ _ appends_unit).
  - apply appends_vec. induction v; by constructor.
  - by apply appends_element.
Qed.
End prints.

(** ** The stream prints what the resolved view prints *)

(** The view does not end in a text. *)
Fixpoint closed_end (t : async_type) : bool :=
  match t with
  | AString => false
  | AUnit | AVec _ | AElement _ _ => true
  | ATuple _ b => closed_end b
  | AEither a b => closed_end a && closed_end b
  | AOption a | ASuspend a => closed_end a
  end.

(** Suspended views are of this kind. *)
Fixpoint streamable (t : async_type) : bool :=
  match t with
  | AString | AUnit => true
  | ATuple a b | AEither a b => streamable a && streamable b
  | AOption a | AVec a | AElement _ a => streamable a
  | ASuspend a => streamable a && closed_end a
  end.

(** No future waits for a local resource. *)
Fixpoint no_local (t : async_type) : async_view t → Prop :=
  match t with
  | AString | AUnit => λ _, True
  | ATuple a b => λ v, no_local a v.1 ∧ no_local b v.2
  | AEither a b => λ v, match v with inl v => no_local a v | inr v => no_local b v end
  | AOption a => λ v, match v with Some v => no_local a v | None => True end
  | AVec a => λ v, Forall (no_local a) v
  | AElement _ a => λ v, no_local a v
  | ASuspend a => λ v, s_local v = false ∧ no_local a (s_inner v)
  end.

Section streams.
Variable encode_text : str → str.

(** A position only matters where markers are printed. *)
Definition same_position (flags : RenderFlags) (p q : Position) : Prop :=
  hydrate_markers flags = true → p = q.

(** A builder prints what [q] prints. *)
Definition prints_as (p : StreamBuilder → Position → RenderFlags → StreamBuilder * Position)
    (q : str → Position → RenderFlags → str * Position) : Prop :=
  ∀ b pos pos' flags, fresh b → mark_branches flags = false → same_position flags pos pos' →
    let r := p b pos flags in
    fresh r.1 ∧ built_text r.1 = built_text b ++ (q [] pos' flags).1 ∧
    same_position flags r.2 (q [] pos' flags).2.

(** [q] leaves the position behind a node that is not a text. *)
Definition ends_closed (q : str → Position → RenderFlags → str * Position) : Prop :=
  ∀ pos flags, hydrate_markers flags = true → mark_branches flags = false → (q [] pos flags).2 = NextChild.

Lemma EXISTS_resolved t : EXISTS (resolved t) = ASYNC_EXISTS t.
Proof. induction t; cbn; congruence. Qed.

Lemma sync_prints p :
  (∀ buf pos flags, p buf pos flags = (buf ++ (p [] pos flags).1, (p [] pos flags).2)) →
  (∀ pos pos' flags, same_position flags pos pos' →
     (p [] pos flags).1 = (p [] pos' flags).1 ∧ same_position flags (p [] pos flags).2 (p [] pos' flags).2) →
  prints_as (sync_to_html p) p.
Proof.
  intros Ha Hp b pos pos' flags Hb _ Hs. unfold sync_to_html. rewrite Ha. cbn.
  destruct (Hp pos pos' flags Hs) as [<- Hs']. split_and!; [done| |done].
  unfold built_text. cbn. by rewrite app_assoc.
Qed.

Lemma str_prints s : prints_as (sync_to_html (str_to_html encode_text s)) (str_to_html encode_text s).
Proof.
  apply sync_prints; [apply appends_str|]. intros pos pos' flags Hs. unfold str_to_html.
  destruct (hydrate_markers flags) eqn:Hh; [by rewrite (Hs Hh)|by split].
Qed.

Lemma unit_prints : prints_as (sync_to_html unit_to_html) unit_to_html.
Proof.
  apply sync_prints; [apply appends_unit|]. intros pos pos' flags Hs. unfold unit_to_html.
  by destruct (hydrate_markers flags).
Qed.

Lemma tuple_prints p p' q q' : (∀ b pos flags, q' b pos flags = (b ++ (q' [] pos flags).1, (q' [] pos flags).2)) →
  prints_as p q → prints_as p' q' → prints_as (tuple_to_html_async p p') (tuple_to_html q q').
Proof.
  intros Ha Hp Hp' b pos pos' flags Hb Hm Hs. unfold tuple_to_html_async, tuple_to_html.
  destruct (Hp b pos pos' flags Hb Hm Hs) as (Hf & Ht & Hs1).
  destruct (p b pos flags) as [b1 pos1]. destruct (q [] pos' flags) as [s1 pos1']. cbn in *.
  destruct (Hp' b1 pos1 pos1' flags Hf Hm Hs1) as (Hf' & Ht' & Hs2).
  rewrite (Ha s1). cbn. split_and!; [done| |done]. by rewrite Ht', Ht, app_assoc.
Qed.

Lemma branch_prints_async id p q : prints_as p q →
  prints_as (branch_to_html_async id p) (branch_to_html id q).
Proof.
  intros Hp b pos pos' flags Hb Hm Hs. unfold branch_to_html_async, branch_to_html. rewrite Hm. cbn [andb].
  destruct (Hp b pos pos' flags Hb Hm Hs) as (Hf & Ht & Hs1).
  destruct (p b pos flags), (q [] pos' flags). done.
Qed.

Lemma vec_prints {A} (f : A → _) (g : A → _) v :
  (∀ x, x ∈ v → ∀ b pos flags, g x b pos flags = (b ++ (g x [] pos flags).1, (g x [] pos flags).2)) →
  (∀ x, x ∈ v → prints_as (f x) (g x)) →
  prints_as (vec_to_html_async (map f v)) (vec_to_html (map g v)).
Proof.
  intros Ha Hv b pos pos' flags Hb Hm Hs. unfold vec_to_html_async, vec_to_html.
  assert (∀ b s, fresh b → ∀ pos pos', same_position flags pos pos' →
    let r := foldl (λ bp child, child bp.1 bp.2 flags) (b, pos) (map f v) in
    let r' := foldl (λ bp child, child bp.1 bp.2 flags) (s, pos') (map g v) in
    fresh r.1 ∧ (∃ s', r'.1 = s ++ s' ∧ built_text r.1 = built_text b ++ s') ∧ same_position flags r.2 r'.2) as Hf.
  { clear b pos pos' Hb Hs. induction v as [|x v IH]; intros b s Hb pos pos' Hs.
    - cbn. split_and!; [done| |done]. exists []. by rewrite !app_nil_r.
    - cbn. rewrite (Ha x) by set_solver.
      destruct (Hv x ltac:(set_solver) b pos pos' flags Hb Hm Hs) as (Hf & Ht & Hs1).
      destruct (f x b pos flags) as [b1 pos1]. destruct (g x [] pos' flags) as [s1 pos1']. cbn in *.
      destruct (IH ltac:(set_solver) ltac:(set_solver) b1 (s ++ s1) Hf pos1 pos1' Hs1) as (Hf' & (s' & Hr & Ht') & Hs2).
      split_and!; [done| |done]. exists (s1 ++ s'). by rewrite Hr, Ht', Ht, !app_assoc. }
  destruct (Hf b [] Hb pos pos' Hs) as (Hfr & (s' & Hr & Ht) & Hs').
  destruct (foldl _ (b, pos) (map f v)) as [b1 pos1]. destruct (foldl _ ([], pos') (map g v)) as [s1 pos1'].
  cbn [fst snd app] in *. subst s1.
  destruct (hydrate_markers flags); [|done]. cbn [fst snd]. destruct (push_sync_ok (lit "<!>") b1 Hfr) as [Hfr' Ht'].
  split_and!; [done| |done]. by rewrite Ht', Ht, app_assoc.
Qed.

Lemma element_prints e ex p q : (∀ b pos flags, q b pos flags = (b ++ (q [] pos flags).1, (q [] pos flags).2)) →
  prints_as p q → prints_as (element_to_html_async e ex p) (element_to_html e ex q).
Proof.
  intros Ha Hp b pos pos' flags Hb Hm Hs. unfold element_to_html_async, element_to_html. cbn [fst snd app].
  destruct (push_sync_ok (lit "<" ++ TAG e ++ lit ">") b Hb) as [Hf Ht].
  split_and!; [| |done]; destruct (SELF_CLOSING e); try done; destruct ex; try done.
  - destruct (Hp _ FirstChild FirstChild (with_hydrate (HYDRATES_CHILDREN e) (with_escape (ESCAPE_CHILDREN e) flags)) Hf)
      as (Hf1 & _ & _); [done|done|]. by apply push_sync_ok.
  - destruct (Hp _ FirstChild FirstChild (with_hydrate (HYDRATES_CHILDREN e) (with_escape (ESCAPE_CHILDREN e) flags)) Hf)
      as (Hf1 & Ht1 & _); [done|done|]. rewrite (proj2 (push_sync_ok _ _ Hf1)), Ht1, Ht, (Ha (lit "<" ++ _)). cbn [fst].
    by rewrite <-!app_assoc.
  - rewrite (proj2 (push_sync_ok _ _ Hf)), Ht. by rewrite <-!app_assoc.
Qed.

(** A suspended view that is ready is printed at once; one that is not becomes
    a chunk with the text that it has when it is ready. *)
Lemma suspend_prints {A} (f : A → _) v q :
  s_local v = false → prints_as (f (s_inner v)) q → ends_closed q →
  prints_as (suspend_to_html_async false f v) q.
Proof.
  intros Hl Hp Hc b pos pos' flags Hb Hm Hs. unfold suspend_to_html_async. rewrite Hl. cbn [negb].
  destruct (s_polls v =? 0) eqn:Hz; cbn [andb]; [by apply Hp|].
  assert (prints_as (branch_to_html_async (lit "0") (f (s_inner v))) (branch_to_html (lit "0") q)) as Hb0 by
    by apply branch_prints_async.
  destruct (fresh_next_id b Hb) as [Hf Ht]. rewrite <-Ht.
  destruct (Hb0 (builder_new (sb_id (next_id b))) pos pos' flags (fresh_new _) Hm Hs) as (Hf1 & Ht1 & _).
  destruct (finish_ok _ Hf1) as (Hf2 & Ht2 & _). destruct (take_chunks_ok _ Hf2) as [Hi Htc].
  destruct (push_async_ok (pred (s_polls v)) _ (next_id b) Hf Hi) as [Hf3 Ht3]. cbn [fst snd option_to_html_async].
  split_and!; [done| |].
  - rewrite Ht3, Htc, Ht2, Ht1. cbn. unfold branch_to_html. rewrite Hm. cbn. by destruct (q [] pos' flags).
  - intros Hh. symmetry. by apply Hc.
Qed.

Lemma view_ends_closed t v : closed_end t = true → ends_closed (to_html_with_buf encode_text (resolved t) (resolve t v)).
Proof.
  assert (∀ id q, ends_closed q → ends_closed (branch_to_html id q)) as Hbr.
  { intros id q Hq pos flags Hh Hm. unfold branch_to_html. rewrite Hm. cbn.
    specialize (Hq pos flags Hh Hm). by destruct (q [] pos flags). }
  assert (ends_closed unit_to_html) as Hu.
  { intros pos flags Hh Hm. unfold unit_to_html. by rewrite Hh. }
  induction t as [| |a IHa b IHb|a IHa b IHb|a IHa|a IHa|e a IHa|a IHa]; cbn; intros Ht; try done.
  - intros pos flags Hh Hm. unfold tuple_to_html.
    destruct (to_html_with_buf encode_text (resolved a) _ [] pos flags) as [s pos'].
    rewrite appends_view. by apply IHb.
  - apply andb_prop in Ht as [Ha Hb]. destruct v; by apply Hbr; auto.
  - destruct v; by apply Hbr; auto.
  - intros pos flags Hh Hm. unfold vec_to_html. destruct (foldl _ _ _). by rewrite Hh.
  - by apply Hbr, IHa.
Qed.

Lemma stream_prints t v : streamable t = true → no_local t v →
  prints_as (to_html_async encode_text false t v) (to_html_with_buf encode_text (resolved t) (resolve t v)).
Proof.
  induction t as [| |a IHa b IHb|a IHa b IHb|a IHa|a IHa|e a IHa|a IHa]; cbn; intros Ht Hl.
  - apply str_prints.
  - apply unit_prints.
  - apply andb_prop in Ht as [Ha Hb]. destruct Hl. apply tuple_prints; [apply appends_view|auto|auto].
  - apply andb_prop in Ht as [Ha Hb]. destruct v; apply branch_prints_async; auto.
  - destruct v; apply branch_prints_async; [by apply IHa|apply unit_prints].
  - rewrite map_map. rewrite Forall_forall in Hl. apply vec_prints; [intros; apply appends_view|auto].
  - rewrite EXISTS_resolved. apply element_prints; [apply appends_view|auto].
  - apply andb_prop in Ht as [Ha Hb]. destruct Hl as [Hl Hi].
    pose proof (suspend_prints (to_html_async encode_text false a) v _ Hl (IHa _ Ha Hi) (view_ends_closed a _ Hb)) as Hp.
    intros b pos pos' flags Hf Hm Hs. unfold branch_to_html. rewrite Hm. cbn.
    specialize (Hp b pos pos' flags Hf Hm Hs). by destruct (to_html_with_buf _ _ _ [] pos' flags).
Qed.
End streams.

(** C8: A stream in order of a view whose suspended parts do not end in a text
    and need no local resource ends after finitely many polls, however often
    its futures are pending, and never panics; its items are nonempty and make
    up the HTML of the view with all of its futures ready. *)
Theorem stream_in_order_is_to_html encode_text t (v : async_view t) fuel :
  streamable t = true → no_local t v →
  let stream := to_html_stream_in_order encode_text t v in
  2 + stream_fuel stream ≤ fuel →
  ∃ items, collect fuel stream = Ok items ∧
    concat items = to_html encode_text (resolved t) (resolve t v) ∧
    Forall (λ item, item ≠ []) items.
Proof.
  intros Ht Hl stream Hfuel.
  destruct (stream_prints encode_text t v Ht Hl (builder_new None) FirstChild FirstChild HYDRATE)
    as (Hf & Htext & _); [done..|].
  destruct (finish_ok _ Hf) as ((Hc & Hp & Ho) & Ht2 & Hs).
  destruct (collect_ok fuel stream) as (items & E & Hi & Hne); [split|lia|].
  - exact Hc.
  - exact Ho.
  - subst stream. unfold to_html_stream_in_order. rewrite Hp. done.
  - exists items. split; [done|]. split; [|done]. rewrite Hi. etrans; [|exact Htext].
    unfold stream_text, pending_chunks. subst stream. unfold to_html_stream_in_order.
    rewrite Hs, Hp. cbn [app]. unfold built_text in Ht2 at 1. rewrite Hs, app_nil_r in Ht2. exact Ht2.
Qed.

Lemma stream_in_order_is_to_html_witness :
  ∃ items, collect 10 (to_html_stream_in_order id demo_type demo) = Ok items ∧
    concat items = lit "<p>a<em>b</em></p>c".
Proof.
  destruct (stream_in_order_is_to_html id demo_type demo 10) as (items & E & Hi & _);
    [reflexivity|by repeat split|vm_compute; lia|].
  exists items. split; [exact E|]. rewrite Hi. reflexivity.
Defined.

(** ** Texts after suspended views *)

Definition two_texts : async_type := ATuple (ASuspend AString) AString.
Definition suspended_text : async_view two_texts := (mkSuspend (lit "a") 1 false, lit "b").
(** The page that a browser makes of the text [ab] *)
Definition merged_page : document :=
  mkDocument {[ 0 := NElement (lit "body"); 1 := NText (lit "ab") ]} {[ 0 := [1] ]} {[ 1 := 0 ]} 2.

Definition em_between : async_type :=
  ATuple AString (ATuple (ASuspend (AElement (demo_element "em") AUnit)) AString).
Definition suspended_em : async_view em_between := (lit "a", (mkSuspend tt 1 false, lit "b")).
(** The page that a browser makes of the text [a<em></em><!>b] *)
Definition page_with_em : document :=
  mkDocument
    {[ 0 := NElement (lit "body"); 1 := NText (lit "a"); 2 := NElement (lit "em"); 3 := NComment; 4 := NText (lit "b") ]}
    {[ 0 := [1; 2; 3; 4] ]} {[ 1 := 0; 2 := 0; 3 := 0; 4 := 0 ]} 5.

(** A stream does not know how a suspended view ends.  In order, a text
    behind a suspended text is sent without the comment that separates
    neighbouring texts, unlike in the HTML of the view that is ready, and
    hydration makes both texts take the same node.  Out of order, a text
    behind a suspended element that stands after a text is sent with such a
    comment, which does not belong there, and hydration panics on it. *)
Theorem suspended_view_misplaces_text :
  (collect 10 (to_html_stream_in_order id two_texts suspended_text) = Ok [lit "ab"] ∧
   to_html id (resolved two_texts) (resolve two_texts suspended_text) = lit "a<!>b" ∧
   hydrate_from merged_page (resolved two_texts) (resolve two_texts suspended_text) 0 =
     Ok (inl (mkStrState 1 (lit "a")), mkStrState 1 (lit "b"))) ∧
  collect 10 (to_html_stream_out_of_order id em_between suspended_em) = Ok [lit "a<em></em><!>b"] ∧
  to_html id (resolved em_between) (resolve em_between suspended_em) = lit "a<em></em>b" ∧
  hydrate_from page_with_em (resolved em_between) (resolve em_between suspended_em) 0 = Panic.
Proof.
  repeat split; vm_compute; reflexivity.
Qed.
