(* ===== verification/FieldKeys.v ===== *)
(** * Keys of collections in stores

    [FieldKeys] of [reactive_stores/src/lib.rs]: every key of a keyed
    collection has a path segment that stays with it while the items move, and
    the index at which its item stands.  Segments of removed keys are used
    again.  The order in which a [HashMap] is visited is a parameter. *)

From stdpp Require Import base gmap list.
From S2P Require Import Prelude.

Section field_keys.
Context {K : Type} `{Countable K}.
(** How the two maps are visited *)
Variable visit_keys : gmap K (nat * nat) → list (K * (nat * nat)).
Variable visit_new : gmap K nat → list (K * nat).

Record FieldKeys := mkFieldKeys {
  spare_keys : list nat;
  current_key : nat;
  fk_keys : gmap K (nat * nat);
}.

Definition FieldKeys_new (from_keys : list K) : FieldKeys :=
  let keys := foldl (λ keys p, <[p.2 := (p.1, p.1)]> keys) ∅ (imap pair from_keys) in
  mkFieldKeys [] (size keys - 1) keys.

Definition fk_get (key : K) (fk : FieldKeys) : option (nat * nat) := fk_keys fk !! key.

Definition next_key (fk : FieldKeys) : nat * FieldKeys :=
  match last (spare_keys fk) with
  | Some segment_of => (segment_of, mkFieldKeys (removelast (spare_keys fk)) (current_key fk) (fk_keys fk))
  | None => (current_key fk + 1, mkFieldKeys (spare_keys fk) (current_key fk + 1) (fk_keys fk))
  end.

(** Removing old keys; their segments are spare. *)
Definition retain_keys (new_keys : gmap K nat) (fk : FieldKeys) : FieldKeys :=
  mkFieldKeys
    (spare_keys fk ++
     omap (λ p, match new_keys !! p.1 with Some _ => None | None => Some p.2.1 end) (visit_keys (fk_keys fk)))
    (current_key fk)
    (map_imap (λ key old, match new_keys !! key with Some idx => Some (old.1, idx) | None => None end) (fk_keys fk)).

Fixpoint add_keys (new_keys : list (K * nat)) (fk : FieldKeys) : list (nat * nat) * FieldKeys :=
  match new_keys with
  | [] => ([], fk)
  | (key, idx) :: new_keys =>
      match fk_keys fk !! key with
      | Some (segment_of, idx) =>
          let '(index_keys, fk) := add_keys new_keys fk in ((idx, segment_of) :: index_keys, fk)
      | None =>
          let '(path, fk) := next_key fk in
          let fk := mkFieldKeys (spare_keys fk) (current_key fk) (<[key := (path, idx)]> (fk_keys fk)) in
          let '(index_keys, fk) := add_keys new_keys fk in ((idx, path) :: index_keys, fk)
      end
  end.

Definition fk_update (iter : list K) (fk : FieldKeys) : list (nat * nat) * FieldKeys :=
  let new_keys := foldl (λ m p, <[p.2 := p.1]> m) ∅ (imap pair iter) in
  add_keys (visit_new new_keys) (retain_keys new_keys fk).

(** ** Invariant *)

(** No two keys share a segment, spare segments are not in use, and all are
    below the counter. *)
Record fk_wf (fk : FieldKeys) : Prop := mk_fk_wf {
  fk_inj : ∀ k1 k2 s i1 i2, fk_keys fk !! k1 = Some (s, i1) → fk_keys fk !! k2 = Some (s, i2) → k1 = k2;
  fk_spare : NoDup (spare_keys fk);
  fk_unused : ∀ k s i, fk_keys fk !! k = Some (s, i) → s ∉ spare_keys fk;
  fk_below : ∀ k s i, fk_keys fk !! k = Some (s, i) → s ≤ current_key fk;
  fk_spare_below : ∀ s, s ∈ spare_keys fk → s ≤ current_key fk;
}.

(** The map from the items of a list without duplicates to their indexes *)
Lemma indexed_lookup (l : list K) (m : gmap K nat) f :
  NoDup l → (∀ k, k ∈ l → m !! k = None) →
  ∀ k i, foldl (λ m p, <[p.2 := p.1]> m) m (imap (λ n x, (f n, x)) l) !! k = Some i ↔
    m !! k = Some i ∨ ∃ n, l !! n = Some k ∧ i = f n.
Proof.
  revert m f. induction l as [|x l IH]; intros m f Hl Hm k i; cbn.
  { naive_solver. }
  apply NoDup_cons in Hl as [Hx Hl].
  rewrite (IH (<[x := f 0]> m) (f ∘ S)); [|done|].
  - split.
    + intros [Hi|(n & Hn & ->)]; [|right; by exists (S n)].
      apply lookup_insert_Some in Hi as [[<- <-]|[_ Hi]]; [right; by exists 0|by left].
    + intros [Hi|([|n] & Hn & ->)]; cbn in *.
      * left. rewrite lookup_insert_ne; [done|]. intros ->. rewrite Hm in Hi by set_solver. done.
      * left. injection Hn as ->. by rewrite lookup_insert_eq.
      * right. by exists n.
  - intros y Hy. rewrite lookup_insert_ne by set_solver. apply Hm. set_solver.
Qed.

Lemma indexed_keys l k i : NoDup l →
  foldl (λ m p, <[p.2 := p.1]> m) (∅ : gmap K nat) (imap pair l) !! k = Some i ↔ l !! i = Some k.
Proof.
  intros Hl. rewrite (indexed_lookup l ∅ id) by (done || intros; apply lookup_empty).
  rewrite lookup_empty. unfold id. naive_solver.
Qed.

Lemma new_keys_lookup (l : list K) (m : gmap K (nat * nat)) f :
  NoDup l → (∀ k, k ∈ l → m !! k = None) →
  let m' := foldl (λ keys p, <[p.2 := (p.1, p.1)]> keys) m (imap (λ n x, (f n, x)) l) in
  (∀ k e, m' !! k = Some e ↔ m !! k = Some e ∨ ∃ n, l !! n = Some k ∧ e = (f n, f n)) ∧
  size m' = size m + length l.
Proof.
  revert m f. induction l as [|x l IH]; intros m f Hl Hm; cbn.
  { split; [naive_solver|lia]. }
  apply NoDup_cons in Hl as [Hx Hl].
  destruct (IH (<[x := (f 0, f 0)]> m) (f ∘ S) Hl) as [IHl IHs].
  { intros y Hy. rewrite lookup_insert_ne by set_solver. apply Hm. set_solver. }
  split; [|etrans; [exact IHs|]; rewrite map_size_insert_None by (apply Hm; set_solver); lia].
  intros k e. etrans; [apply IHl|]. split.
  - intros [Hi|(n & Hn & ->)]; [|right; by exists (S n)].
    apply lookup_insert_Some in Hi as [[<- <-]|[_ Hi]]; [right; by exists 0|by left].
  - intros [Hi|([|n] & Hn & ->)]; cbn in *.
    + left. rewrite lookup_insert_ne; [done|]. intros ->. rewrite Hm in Hi by set_solver. done.
    + left. injection Hn as ->. by rewrite lookup_insert_eq.
    + right. by exists n.
Qed.

Lemma FieldKeys_new_ok l : NoDup l →
  fk_wf (FieldKeys_new l) ∧ ∀ k s i, fk_get k (FieldKeys_new l) = Some (s, i) ↔ l !! i = Some k ∧ s = i.
Proof.
  intros Hl. destruct (new_keys_lookup l ∅ id Hl) as [Hk Hs]; [intros; apply lookup_empty|].
  assert (∀ k s i, fk_keys (FieldKeys_new l) !! k = Some (s, i) ↔ l !! i = Some k ∧ s = i) as Hget.
  { intros k s i. cbn. rewrite Hk, lookup_empty. unfold id. naive_solver. }
  assert (current_key (FieldKeys_new l) = length l - 1) as Hcur.
  { apply (f_equal (λ n, n - 1)) in Hs. etrans; [exact Hs|]. by rewrite map_size_empty. }
  split; [|exact Hget]. split; [| | |rewrite Hcur|]; cbn.
  - intros k1 k2 s i1 i2. rewrite !Hget. naive_solver.
  - constructor.
  - intros; apply not_elem_of_nil.
  - intros k s i Hi. apply Hget in Hi as [Hi ->]. apply lookup_lt_Some in Hi. lia.
  - set_solver.
Qed.

(** ** Updates *)

Hypothesis visit_keys_all : ∀ m, visit_keys m ≡ₚ map_to_list m.
Hypothesis visit_new_all : ∀ m, visit_new m ≡ₚ map_to_list m.

Lemma next_key_ok fk : fk_wf fk →
  let '(s, fk') := next_key fk in
  fk_keys fk' = fk_keys fk ∧ (∀ k i, fk_keys fk !! k ≠ Some (s, i)) ∧
  ∀ key idx, fk_keys fk !! key = None →
    fk_wf (mkFieldKeys (spare_keys fk') (current_key fk') (<[key := (s, idx)]> (fk_keys fk'))).
Proof.
  intros [W1 W2 W3 W4 W5]. unfold next_key. destruct (last (spare_keys fk)) as [s|] eqn:El.
  - apply last_Some in El as [l El]. rewrite El in *. rewrite removelast_last.
    apply NoDup_app in W2 as (Hl & Hls & _).
    assert (∀ k i, fk_keys fk !! k ≠ Some (s, i)) as Hs by (intros k i Hk; apply (W3 k s i Hk); set_solver).
    split_and!; [done|done|]. intros key idx Hkey. split; cbn.
    + intros k1 k2 s' i1 i2 H1 H2. apply lookup_insert_Some in H1, H2. naive_solver.
    + done.
    + intros k s' i [[<- [= <- <-]]|[_ Hk]]%lookup_insert_Some; [set_solver|]. specialize (W3 k s' i Hk). set_solver.
    + intros k s' i [[<- [= <- <-]]|[_ Hk]]%lookup_insert_Some; [apply W5; set_solver|by eapply W4].
    + intros s' Hs'. apply W5. set_solver.
  - assert (∀ k i, fk_keys fk !! k ≠ Some (current_key fk + 1, i)) as Hs.
    { intros k i Hk. specialize (W4 k _ i Hk). lia. }
    split_and!; [done|done|]. intros key idx Hkey. apply last_None in El. rewrite El in *. split; cbn.
    + intros k1 k2 s' i1 i2 H1 H2. apply lookup_insert_Some in H1, H2. naive_solver.
    + constructor.
    + intros; apply not_elem_of_nil.
    + intros k s' i [[<- [= <- <-]]|[_ Hk]]%lookup_insert_Some; [lia|]. specialize (W4 k s' i Hk). lia.
    + set_solver.
Qed.

Lemma retain_lookup new_keys fk k s i :
  fk_keys (retain_keys new_keys fk) !! k = Some (s, i) ↔
  new_keys !! k = Some i ∧ ∃ i0, fk_keys fk !! k = Some (s, i0).
Proof.
  cbn. rewrite map_lookup_imap. destruct (fk_keys fk !! k) as [[s0 i0]|]; cbn; [|naive_solver].
  destruct (new_keys !! k); cbn; naive_solver.
Qed.

Lemma retain_spare new_keys fk s :
  s ∈ spare_keys (retain_keys new_keys fk) ↔
  s ∈ spare_keys fk ∨ ∃ k i, fk_keys fk !! k = Some (s, i) ∧ new_keys !! k = None.
Proof.
  cbn. rewrite elem_of_app, list_elem_of_omap. f_equiv. split.
  - intros ([k [s' i]] & Hin & Hs). rewrite visit_keys_all in Hin. apply elem_of_map_to_list in Hin.
    cbn in Hs. destruct (new_keys !! k) eqn:E; [done|]. injection Hs as ->. by exists k, i.
  - intros (k & i & Hk & Hn). exists (k, (s, i)). split; [|cbn; by rewrite Hn].
    rewrite visit_keys_all. by apply elem_of_map_to_list.
Qed.

Lemma retain_ok new_keys fk : fk_wf fk → fk_wf (retain_keys new_keys fk).
Proof.
  intros [W1 W2 W3 W4 W5]. split.
  - intros k1 k2 s i1 i2 [_ [j1 H1]]%retain_lookup [_ [j2 H2]]%retain_lookup. by eapply W1.
  - cbn. apply NoDup_app. split_and!; [done| |].
    + intros s Hs ([k [s' i]] & Hin & Hk)%list_elem_of_omap. rewrite visit_keys_all in Hin.
      apply elem_of_map_to_list in Hin. cbn in Hk. destruct (new_keys !! k); [done|]. injection Hk as ->.
      by eapply W3.
    + assert (NoDup (map (λ p, p.2.1) (map_to_list (fk_keys fk)))) as Hn.
      { apply NoDup_fmap_2_strong; [|apply NoDup_map_to_list].
        intros [k1 [s1 i1]] [k2 [s2 i2]] H1 H2 [= ->].
        apply elem_of_map_to_list in H1, H2. pose proof (W1 _ _ _ _ _ H1 H2) as ->. congruence. }
      rewrite visit_keys_all. revert Hn. generalize (map_to_list (fk_keys fk)) as l.
      induction l as [|[k [s i]] l IH]; cbn; intros Hn; [constructor|].
      apply NoDup_cons in Hn as [Hs Hn]. destruct (new_keys !! k); [by apply IH|].
      constructor; [|by apply IH]. intros ([k' [s' i']] & Hin & Hk)%list_elem_of_omap. apply Hs.
      apply list_elem_of_fmap. cbn in Hk. destruct (new_keys !! k'); [done|]. injection Hk as ->. by exists (k', (s, i')).
  - intros k s i [Hi [j Hk]]%retain_lookup [Hs|(k' & i' & Hk' & Hn)]%retain_spare; [by eapply W3|].
    pose proof (W1 _ _ _ _ _ Hk Hk') as ->. congruence.
  - intros k s i [_ [j Hk]]%retain_lookup. by eapply W4.
  - intros s [Hs|(k & i & Hk & _)]%retain_spare; [by apply W5|by eapply W4].
Qed.

(** Keys that are there already keep their entries; the others get segments
    that no key has. *)
Lemma add_keys_ok new_keys fk : fk_wf fk → NoDup (map fst new_keys) →
  (∀ k s i, fk_keys fk !! k = Some (s, i) → ∀ j, (k, j) ∈ new_keys → j = i) →
  let '(index_keys, fk') := add_keys new_keys fk in
  fk_wf fk' ∧
  (∀ k e, fk_keys fk !! k = Some e → fk_keys fk' !! k = Some e) ∧
  (∀ k s i, fk_keys fk' !! k = Some (s, i) → fk_keys fk !! k = Some (s, i) ∨ (k, i) ∈ new_keys) ∧
  (∀ k i, (k, i) ∈ new_keys → ∃ s, fk_keys fk' !! k = Some (s, i)) ∧
  (∀ i s, (i, s) ∈ index_keys ↔ ∃ k, (k, i) ∈ new_keys ∧ fk_keys fk' !! k = Some (s, i)).
Proof.
  revert fk. induction new_keys as [|[key idx] new_keys IH]; intros fk Hw Hn Hag; cbn.
  { split_and!; [done|naive_solver|naive_solver|set_solver|set_solver]. }
  cbn in Hn. apply NoDup_cons in Hn as [Hkey Hn].
  assert (∀ j, (key, j) ∉ new_keys) as Hkey'.
  { intros j Hj. apply Hkey. apply list_elem_of_fmap. by exists (key, j). }
  destruct (fk_keys fk !! key) as [[seg i]|] eqn:Ek.
  - pose proof (Hag _ _ _ Ek idx ltac:(set_solver)) as ->.
    specialize (IH fk Hw Hn). destruct (add_keys new_keys fk) as [l fk'].
    destruct IH as (A1 & A2 & A3 & A4 & A5); [intros k s j Hk j' Hj; eapply Hag; [done|set_solver]|].
    pose proof (A2 _ _ Ek) as Ek'. split_and!; [done|done| | |].
    + intros k s j Hk. destruct (A3 k s j Hk); [by left|right; set_solver].
    + intros k j [[= -> ->]|Hj]%elem_of_cons; [by eexists|by apply A4].
    + intros j s. rewrite elem_of_cons, A5. split.
      * intros [[= -> ->]|(k & Hk & Hs)]; [exists key; split; [set_solver|done]|exists k; split; [set_solver|done]].
      * intros (k & [[= -> ->]|Hk]%elem_of_cons & Hs); [left; congruence|right; by exists k].
  - pose proof (next_key_ok fk Hw) as Hnext. destruct (next_key fk) as [path fk1].
    destruct Hnext as (E1 & Hfresh & Hw1). specialize (Hw1 key idx Ek).
    set (fk2 := mkFieldKeys _ _ _) in *. specialize (IH fk2 Hw1 Hn).
    assert (∀ k, k ≠ key → fk_keys fk2 !! k = fk_keys fk !! k) as Hne.
    { intros k Hk. cbn. rewrite lookup_insert_ne, E1 by done. done. }
    assert (fk_keys fk2 !! key = Some (path, idx)) as Heq by apply lookup_insert_eq.
    destruct (add_keys new_keys fk2) as [l fk'].
    destruct IH as (A1 & A2 & A3 & A4 & A5).
    { intros k s j Hk j' Hj. destruct (decide (k = key)) as [->|Hk']; [by apply Hkey' in Hj|].
      rewrite Hne in Hk by done. eapply Hag; [done|set_solver]. }
    pose proof (A2 _ _ Heq) as Heq'. split_and!; [done| | | |].
    + intros k e Hk. apply A2. rewrite Hne; [done|]. intros ->. congruence.
    + intros k s j Hk. destruct (A3 k s j Hk) as [Hk2|]; [|right; set_solver].
      destruct (decide (k = key)) as [->|Hk']; [right; set_solver|left]. by rewrite <-Hne.
    + intros k j [[= -> ->]|Hj]%elem_of_cons; [by eexists|by apply A4].
    + intros j s. rewrite elem_of_cons, A5. split.
      * intros [[= -> ->]|(k & Hk & Hs)]; [exists key; split; [set_solver|done]|exists k; split; [set_solver|done]].
      * intros (k & [[= -> ->]|Hk]%elem_of_cons & Hs); [left; congruence|right; by exists k].
Qed.

(** After an update the keys are those of the list, with their indexes; a key
    that was there keeps its segment. *)
Lemma fk_update_ok l fk : fk_wf fk → NoDup l →
  let '(index_keys, fk') := fk_update l fk in
  fk_wf fk' ∧
  (∀ k s i, fk_get k fk' = Some (s, i) → l !! i = Some k) ∧
  (∀ k i, l !! i = Some k → ∃ s, fk_get k fk' = Some (s, i)) ∧
  (∀ k s i s' i', fk_get k fk = Some (s, i) → fk_get k fk' = Some (s', i') → s' = s) ∧
  (∀ i s, (i, s) ∈ index_keys ↔ ∃ k, fk_get k fk' = Some (s, i)).
Proof.
  intros Hw Hl. unfold fk_update. set (new_keys := foldl _ _ _).
  assert (∀ k i, new_keys !! k = Some i ↔ l !! i = Some k) as Hnew by (intros; by apply indexed_keys).
  assert (∀ k i, (k, i) ∈ visit_new new_keys ↔ l !! i = Some k) as Hvisit.
  { intros k i. rewrite visit_new_all, elem_of_map_to_list. apply Hnew. }
  pose proof (add_keys_ok (visit_new new_keys) (retain_keys new_keys fk) (retain_ok new_keys fk Hw)) as Hadd.
  destruct (add_keys _ _) as [index_keys fk']. destruct Hadd as (A1 & A2 & A3 & A4 & A5).
  - rewrite visit_new_all. apply NoDup_fst_map_to_list.
  - intros k s i [Hi _]%retain_lookup j Hj. apply Hvisit in Hj. apply Hnew in Hj. congruence.
  - split_and!; [done| | | |].
    + intros k s i [[Hi _]%retain_lookup|Hi]%A3; [by apply Hnew|by apply Hvisit].
    + intros k i Hi. apply A4. by apply Hvisit.
    + intros k s i s' i' Hk Hk'.
      assert (l !! i' = Some k) as Hi'.
      { destruct (A3 _ _ _ Hk') as [[Hi _]%retain_lookup|Hi]; [by apply Hnew|by apply Hvisit]. }
      assert (fk_keys (retain_keys new_keys fk) !! k = Some (s, i')) as Hr.
      { apply retain_lookup. split; [by apply Hnew|by exists i]. }
      apply A2 in Hr. unfold fk_get in Hk'. congruence.
    + intros i s. rewrite A5. split; [intros (k & _ & Hk); by exists k|].
      intros (k & Hk). exists k. split; [|done].
      destruct (A3 _ _ _ Hk) as [[Hi _]%retain_lookup|Hi]; [apply Hvisit; by apply Hnew|done].
Qed.

(** ** Sequences of updates *)

Fixpoint fk_run (lists : list (list K)) (fk : FieldKeys) : FieldKeys :=
  match lists with
  | [] => fk
  | l :: lists => fk_run lists (fk_update l fk).2
  end.

Lemma fk_run_ok l0 lists fk : fk_wf fk → Forall NoDup lists →
  (∀ k i, l0 !! i = Some k ↔ ∃ s, fk_get k fk = Some (s, i)) →
  fk_wf (fk_run lists fk) ∧
  (∀ k i, default l0 (last lists) !! i = Some k ↔ ∃ s, fk_get k (fk_run lists fk) = Some (s, i)) ∧
  (∀ k s i, fk_get k fk = Some (s, i) → (∀ l, l ∈ lists → k ∈ l) → ∃ j, fk_get k (fk_run lists fk) = Some (s, j)).
Proof.
  revert l0 fk. induction lists as [|l lists IH]; intros l0 fk Hw Hn Hl0.
  { split_and!; [done|done|]. intros k s i Hk _. by exists i. }
  apply Forall_cons in Hn as [Hn Hns]. pose proof (fk_update_ok l fk Hw Hn) as Hup. cbn.
  destruct (fk_update l fk) as [ik fk']. cbn. destruct Hup as (W & Hget & Hall & Hkeep & _).
  assert (∀ k i, l !! i = Some k ↔ ∃ s, fk_get k fk' = Some (s, i)) as Hl.
  { intros k i. split; [apply Hall|]. intros [s Hs]. by eapply Hget. }
  destruct (IH l fk' W Hns Hl) as (W' & Hl' & Hkeep'). split_and!; [done| |].
  - intros k i. rewrite <-Hl', last_cons. by destruct (last lists).
  - intros k s i Hk Hin. assert (k ∈ l) as Hkl by (apply Hin; set_solver).
    apply list_elem_of_lookup in Hkl as [j Hj]. apply Hall in Hj as [s' Hs'].
    rewrite (Hkeep _ _ _ _ _ Hk Hs') in Hs'. eapply Hkeep'; [exact Hs'|]. intros l' Hl''. apply Hin. set_solver.
Qed.

(** C24: the keys of a collection follow its items.  The keys are made from a
    list and updated with other lists, each without duplicates: they are exactly
    those of the last list, with their indexes; different keys have different
    segments, although segments are used again; and a key that was in every
    list has the segment that it had at first. *)
Theorem keys_follow_items l0 lists : NoDup l0 → Forall NoDup lists →
  let fk := fk_run lists (FieldKeys_new l0) in
  (∀ k i, default l0 (last lists) !! i = Some k ↔ ∃ s, fk_get k fk = Some (s, i)) ∧
  (∀ k1 k2 s i1 i2, fk_get k1 fk = Some (s, i1) → fk_get k2 fk = Some (s, i2) → k1 = k2) ∧
  (∀ k s i, fk_get k (FieldKeys_new l0) = Some (s, i) → (∀ l, l ∈ lists → k ∈ l) → ∃ j, fk_get k fk = Some (s, j)).
Proof.
  intros Hn Hns fk. destruct (FieldKeys_new_ok l0 Hn) as [Hw Hget].
  destruct (fk_run_ok l0 lists _ Hw Hns) as (W & Hl & Hkeep).
  { intros k i. setoid_rewrite Hget. naive_solver. }
  split_and!; [exact Hl|apply W|exact Hkeep].
Qed.
End field_keys.

Lemma keys_follow_items_witness :
  let fk := fk_run map_to_list map_to_list [[12; 11; 10]; [11; 13; 10]]%Z (FieldKeys_new [10; 11; 12]%Z) in
  fk_get 10%Z fk = Some (0, 2) ∧ fk_get 13%Z fk = Some (2, 1) ∧
  (∀ k1 k2 s i1 i2, fk_get k1 fk = Some (s, i1) → fk_get k2 fk = Some (s, i2) → k1 = k2).
Proof.
  split_and!; [vm_compute; reflexivity|vm_compute; reflexivity|].
  apply (keys_follow_items map_to_list map_to_list (λ _, reflexivity _) (λ _, reflexivity _) [10; 11; 12]%Z [[12; 11; 10]; [11; 13; 10]]%Z).
  - by apply (bool_decide_unpack _).
  - by apply (bool_decide_unpack _).
Defined.
