(* ===== verification/Stores.v ===== *)
(** * Stores

    [reactive_stores]: a store holds one nested value, and an accessor of a
    field reads and writes a part of it.  Every path has two triggers, which
    readers track and writers notify ([store_field.rs], [subfield.rs],
    [option.rs], [iter.rs], [keyed.rs]).  An accessor is a record of the
    operations of [StoreField], made from the record of the accessor it comes
    from; [field] lists the accessors that can be made.

    A write is modelled as a whole: the guard is made, the value changed, and
    the guard dropped.  While a guard is there a read gives nothing, since the
    lock is only tried ([reactive_graph/src/signal/guards.rs]).  Of the reactive graph only the triggers that an
    observer tracks and those that are notified are kept. *)

From stdpp Require Import base gmap list.
From S2P Require Import Prelude FieldKeys.

Abbreviation StorePath := (list nat).

(** Values of user types: structs with their fields, options and vectors *)
Inductive data :=
| VPrim (z : Z)
| VStruct (fields : list data)
| VOption (o : option data)
| VVec (items : list data).

#[export] Instance value_eq_dec : EqDecision data.
Proof.
  refine (fix go (v w : data) : Decision (v = w) :=
    let _ : EqDecision data := go in
    match v, w with
    | VPrim z, VPrim z' => cast_if (decide (z = z'))
    | VStruct l, VStruct l' => cast_if (decide (l = l'))
    | VOption o, VOption o' => cast_if (decide (o = o'))
    | VVec l, VVec l' => cast_if (decide (l = l'))
    | _, _ => right _
    end); congruence.
Defined.

(** One step into a value *)
Inductive value_step :=
| IntoField (i : nat)
| IntoSome
| IntoItem (i : nat).
#[export] Instance step_eq_dec : EqDecision value_step.
Proof. solve_decision. Defined.

Definition step_get (s : value_step) (v : data) : option data :=
  match s, v with
  | IntoField i, VStruct l => l !! i
  | IntoSome, VOption o => o
  | IntoItem i, VVec l => l !! i
  | _, _ => None
  end.
Definition step_set (s : value_step) (x v : data) : data :=
  match s, v with
  | IntoField i, VStruct l => VStruct (<[i := x]> l)
  | IntoSome, VOption (Some _) => VOption (Some x)
  | IntoItem i, VVec l => VVec (<[i := x]> l)
  | _, _ => v
  end.

Fixpoint value_at (p : list value_step) (v : data) : option data :=
  match p with
  | [] => Some v
  | s :: p => v ← step_get s v; value_at p v
  end.
Fixpoint update_at (p : list value_step) (f : data → data) (v : data) : data :=
  match p with
  | [] => f v
  | s :: p => match step_get s v with
              | Some x => step_set s (update_at p f x) v
              | None => v
              end
  end.

Record StoreFieldTrigger := mkTrigger {
  this : nat;
  children : nat;
}.

Section stores.
Context {K : Type} `{Countable K}.
Variable visit_keys : gmap K (nat * nat) → list (K * (nat * nat)).
Variable visit_new : gmap K nat → list (K * nat).

Record ArcStore := mkStore {
  st_value : data;
  (** Whether a write guard holds the lock of the value *)
  st_locked : bool;
  (** [TriggerMap] with the number of triggers made *)
  st_triggers : gmap StorePath StoreFieldTrigger;
  st_next : nat;
  (** [KeyMap]: the keys of the field at a path, and the segment of an index *)
  st_keys : gmap StorePath (@FieldKeys K _ _);
  st_index_keys : gmap (StorePath * nat) nat;
  (** The triggers that the observer tracks, and those notified, in order *)
  st_tracked : list nat;
  st_notified : list nat;
}.

Definition ArcStore_new (v : data) : ArcStore := mkStore v false ∅ 0 ∅ ∅ [] [].

Local Abbreviation M := (stateM ArcStore).

Definition set_value (v : data) (s : ArcStore) : ArcStore :=
  mkStore v (st_locked s) (st_triggers s) (st_next s) (st_keys s) (st_index_keys s) (st_tracked s) (st_notified s).

Definition set_locked (b : bool) (s : ArcStore) : ArcStore :=
  mkStore (st_value s) b (st_triggers s) (st_next s) (st_keys s) (st_index_keys s) (st_tracked s) (st_notified s).

(** ** Triggers *)

Definition get_trigger (key : StorePath) : M StoreFieldTrigger := λ s,
  match st_triggers s !! key with
  | Some trigger => Ok (trigger, s)
  | None =>
      let new := mkTrigger (st_next s) (S (st_next s)) in
      Ok (new, mkStore (st_value s) (st_locked s) (<[key := new]> (st_triggers s)) (S (S (st_next s)))
                 (st_keys s) (st_index_keys s) (st_tracked s) (st_notified s))
  end.

(** [ArcTrigger::track] and [ArcTrigger::notify] *)
Definition trigger_track (t : nat) : M unit := modify (λ s,
  mkStore (st_value s) (st_locked s) (st_triggers s) (st_next s) (st_keys s) (st_index_keys s)
    (st_tracked s ++ [t]) (st_notified s)).
Definition trigger_notify (t : nat) : M unit := modify (λ s,
  mkStore (st_value s) (st_locked s) (st_triggers s) (st_next s) (st_keys s) (st_index_keys s)
    (st_tracked s) (st_notified s ++ [t])).

(** The path with the keys of keyed fields in the place of indexes *)
Fixpoint keyed_path (done rest : StorePath) : M StorePath :=
  match rest with
  | [] => mret done
  | segment_of :: rest =>
      parent_is_keyed ← gets (λ s, bool_decide (is_Some (st_keys s !! done)));
      segment_of ← (if (parent_is_keyed : bool) then
                   key ← gets (λ s, st_index_keys s !! (done, segment_of)); unwrapM key
                 else mret segment_of);
      keyed_path (done ++ [segment_of]) rest
  end.
Definition get_trigger_unkeyed (orig_path : StorePath) : M StoreFieldTrigger :=
  path ← keyed_path [] orig_path; get_trigger path.

(** The prefixes of a path, itself excluded, from the longest to the root: the
    paths that popping goes through *)
Fixpoint ancestors (path : StorePath) : list StorePath :=
  match path with
  | [] => []
  | x :: path => map (cons x) (ancestors path) ++ [[]]
  end.

Fixpoint map_children (get : StorePath → M StoreFieldTrigger) (paths : list StorePath) : M (list nat) :=
  match paths with
  | [] => mret []
  | p :: paths => inner ← get p; triggers ← map_children get paths; mret (children inner :: triggers)
  end.
Definition triggers_for_path_with (get : StorePath → M StoreFieldTrigger) (path : StorePath) : M (list nat) :=
  trigger ← get path;
  triggers ← map_children get (ancestors path);
  mret (rev (this trigger :: children trigger :: triggers)).
Definition triggers_for_path : StorePath → M (list nat) := triggers_for_path_with get_trigger.
Definition triggers_for_path_unkeyed : StorePath → M (list nat) := triggers_for_path_with get_trigger_unkeyed.

(** ** Keys *)

Definition with_field_keys {T} (path : StorePath)
    (fun_ : FieldKeys → (T * list (nat * nat)) * FieldKeys) (initialize : M (list K)) : M T :=
  needs_init ← gets (λ s, bool_decide (st_keys s !! path = None));
  initial ← (if (needs_init : bool) then initialize else mret []);
  λ s,
    let entry := default (FieldKeys_new initial) (st_keys s !! path) in
    let '((result, new_keys), entry) := fun_ entry in
    Ok (result,
        mkStore (st_value s) (st_locked s) (st_triggers s) (st_next s) (<[path := entry]> (st_keys s))
          (foldl (λ m p, <[(path, p.1) := p.2]> m) (st_index_keys s) new_keys)
          (st_tracked s) (st_notified s)).

(** ** Accessors *)

(** What a guard that is dropped notifies: the triggers of the guard inside it
    first.  [guard_untrack] takes away those of the outermost guard. *)
Record guard := mkGuard {
  g_inner : list nat;
  g_triggers : list nat;
}.
Definition guard_untrack (g : guard) : guard := mkGuard (g_inner g) [].
Definition drop_guard (g : guard) : M unit :=
  _ ← modify (set_locked false); for_each trigger_notify (g_inner g ++ g_triggers g).

(** The operations of the trait, with the guards' way into the value *)
Record StoreField := mkStoreField {
  path : M StorePath;
  path_unkeyed : M StorePath;
  track_field : M unit;
  reader : M (option (list value_step));
  writer : M (option (guard * list value_step));
}.

Definition triggers_for_current_path (f : M StorePath) : M (list nat) := p ← f; triggers_for_path p.

(** [ArcStore] itself *)
Definition store_field : StoreField := {|
  path := mret [];
  path_unkeyed := mret [];
  track_field := (
    trigger ← get_trigger [];
    _ ← trigger_track (this trigger); trigger_track (children trigger));
  reader := (
    locked ← gets st_locked;
    mret (if (locked : bool) then None else Some []));
  writer := (
    trigger ← get_trigger [];
    locked ← gets st_locked;
    if (locked : bool) then mret None
    else _ ← modify (set_locked true); mret (Some (mkGuard [] [children trigger], [])));
|}.

(** Tracking, as all accessors of parts do it *)
Definition track_path (path : M StorePath) : M unit :=
  full_path ← path;
  p ← path;
  trigger ← get_trigger p;
  _ ← trigger_track (this trigger);
  _ ← trigger_track (children trigger);
  for_each (λ p, inner ← get_trigger p; trigger_track (this inner)) (ancestors full_path).

Definition push_path (segment_of : nat) (inner : M StorePath) : M StorePath :=
  p ← inner; mret (p ++ [segment_of]).

Definition push_step (s : value_step) (p : list value_step) : list value_step := p ++ [s].

Definition Subfield (inner : StoreField) (path_segment : nat) : StoreField := {|
  path := push_path path_segment (path inner);
  path_unkeyed := push_path path_segment (path_unkeyed inner);
  track_field := track_path (push_path path_segment (path inner));
  reader := (
    inner ← reader inner;
    mret (push_step (IntoField path_segment) <$> inner));
  writer := (
    parent ← writer inner;
    match parent with
    | Some (parent, p) =>
        let parent := guard_untrack parent in
        triggers ← triggers_for_current_path (push_path path_segment (path inner));
        mret (Some (mkGuard (g_inner parent ++ g_triggers parent) triggers, push_step (IntoField path_segment) p))
    | None => mret None
    end);
|}.

(** The value behind a guard; an index that is out of range panics here. *)
Definition deref (p : list value_step) : M data :=
  v ← gets (λ s, value_at p (st_value s)); unwrapM v.
Definition is_none (v : data) : bool := match v with VOption None => true | _ => false end.
Definition items (v : data) : list data := match v with VVec l => l | _ => [] end.
Definition len (v : data) : nat := length (items v).

(** A guard that is not returned is dropped. *)
Definition OptionSubfield (inner : StoreField) : StoreField := {|
  path := push_path 0 (path inner);
  path_unkeyed := push_path 0 (path_unkeyed inner);
  track_field := track_path (push_path 0 (path inner));
  reader := (
    inner ← reader inner;
    match inner with
    | Some p =>
        v ← deref p;
        if is_none v then mret None else mret (Some (push_step IntoSome p))
    | None => mret None
    end);
  writer := (
    parent ← writer inner;
    match parent with
    | Some (parent, p) =>
        v ← deref p;
        if is_none v then _ ← drop_guard parent; mret None
        else
          let parent := guard_untrack parent in
          triggers ← triggers_for_current_path (push_path 0 (path inner));
          mret (Some (mkGuard (g_inner parent ++ g_triggers parent) triggers, push_step IntoSome p))
    | None => mret None
    end);
|}.

Definition AtIndex (inner : StoreField) (index : nat) : StoreField := {|
  path := push_path index (path inner);
  path_unkeyed := push_path index (path_unkeyed inner);
  track_field := track_path (push_path index (path inner));
  reader := (
    inner ← reader inner;
    match inner with
    | Some p => v ← deref p; if len v <=? index then mret None else mret (Some (push_step (IntoItem index) p))
    | None => mret None
    end);
  writer := (
    parent ← writer inner;
    match parent with
    | Some (parent, p) =>
        let parent := guard_untrack parent in
        triggers ← triggers_for_current_path (push_path index (path inner));
        let inner := mkGuard (g_inner parent ++ g_triggers parent) triggers in
        v ← deref p;
        if len v <=? index then _ ← drop_guard inner; mret None
        else mret (Some (inner, push_step (IntoItem index) p))
    | None => mret None
    end);
|}.

(** *** Keyed collections *)

Section keyed.
(** [KeyedSubfield { path_segment, inner, key_fn }] *)
Variable (inner : StoreField) (path_segment : nat) (key_fn : data → K).

(** It is a [Subfield] otherwise. *)
Definition KeyedSubfield : StoreField := Subfield inner path_segment.

Definition latest_keys : M (list K) :=
  r ← reader KeyedSubfield;
  match r with
  | Some p => v ← deref p; mret (map key_fn (items v))
  | None => mret []
  end.

Definition update_keys : M unit :=
  inner_path ← path KeyedSubfield;
  latest ← latest_keys;
  with_field_keys inner_path
    (λ keys, let '(index_keys, keys) := fk_update visit_keys visit_new latest keys in ((tt, index_keys), keys))
    latest_keys.

(** [AtKeyed { inner, key }] *)
Variable key : K.

(** [with_field_keys(path, |keys| (keys.get(&self.key), vec![]), ..).flatten()] *)
Definition get_keyed (path : StorePath) : M (option (nat * nat)) :=
  with_field_keys path (λ keys, ((fk_get key keys, []), keys)) latest_keys.

Definition index_is_current (index : option nat) : M bool :=
  r ← reader KeyedSubfield;
  match r with
  | None => mret true
  | Some p =>
      v ← deref p;
      mret (match index with
            | Some index => bool_decide (key_fn <$> items v !! index = Some key)
            | None => negb (bool_decide (key ∈ map key_fn (items v)))
            end)
  end.

Definition resolve_index : M (option nat) :=
  inner_path ← path KeyedSubfield;
  let lookup := (e ← get_keyed inner_path; mret (snd <$> e)) in
  index ← lookup;
  current ← index_is_current index;
  if (current : bool) then mret index
  else _ ← update_keys; lookup.

Definition AtKeyed_path : M StorePath :=
  inner ← path KeyedSubfield;
  this ← get_keyed inner;
  mret (inner ++ match this with Some (path, _) => [path] | None => [] end).

Definition AtKeyed : StoreField := {|
  path := AtKeyed_path;
  path_unkeyed := (
    inner ← path_unkeyed KeyedSubfield;
    this ← get_keyed inner;
    mret (inner ++ match this with Some (_, idx) => [idx] | None => [] end));
  track_field := track_path AtKeyed_path;
  reader := (
    index ← resolve_index;
    match index with
    | Some index =>
        inner ← reader KeyedSubfield;
        mret (push_step (IntoItem index) <$> inner)
    | None => mret None
    end);
  writer := (
    index ← resolve_index;
    match index with
    | Some index =>
        triggers ← triggers_for_current_path AtKeyed_path;
        inner ← writer KeyedSubfield;
        match inner with
        | Some (inner, p) =>
            let inner := guard_untrack inner in
            mret (Some (mkGuard (g_inner inner ++ g_triggers inner) triggers, push_step (IntoItem index) p))
        | None => mret None
        end
    | None => mret None
    end);
|}.
End keyed.

(** ** Reading and writing *)

(** The accessors of the fields of a store *)
Inductive field :=
| FRoot
| FField (inner : field) (path_segment : nat)
| FSome (inner : field)
| FIndex (inner : field) (index : nat)
| FKeyed (inner : field) (path_segment : nat) (key_fn : data → K)
| FAtKey (inner : field) (path_segment : nat) (key_fn : data → K) (key : K).

Fixpoint accessor (f : field) : StoreField :=
  match f with
  | FRoot => store_field
  | FField inner i => Subfield (accessor inner) i
  | FSome inner => OptionSubfield (accessor inner)
  | FIndex inner i => AtIndex (accessor inner) i
  | FKeyed inner i _ => KeyedSubfield (accessor inner) i
  | FAtKey inner i key_fn key => AtKeyed (accessor inner) i key_fn key
  end.

(** [Notify::notify] of an accessor *)
Definition notify_field (path : M StorePath) : M unit :=
  p ← path;
  trigger ← get_trigger p;
  _ ← trigger_notify (this trigger);
  trigger_notify (children trigger).

(** The drop of the guards that [try_write] returns, after a change *)
Definition write_drop (f : field) (g : guard) : M unit :=
  _ ← drop_guard g;
  match f with
  | FRoot => notify_field (mret [])
  | FKeyed inner i key_fn =>
      _ ← update_keys (accessor inner) i key_fn;
      notify_field (path (accessor f))
  | _ => mret tt
  end.

(** [try_update]: [try_write], a change of the value, and the drop of the guard *)
Definition try_update (f : field) (change : data → data) : M bool :=
  w ← writer (accessor f);
  match w with
  | Some (g, p) =>
      _ ← deref p;
      _ ← modify (λ s, set_value (update_at p change (st_value s)) s);
      _ ← write_drop f g;
      mret true
  | None => mret false
  end.

(** Iterating a collection: by key, which refreshes the keys, and by index *)
Definition into_iter (inner : field) (i : nat) (key_fn : data → K) : M (list field) :=
  _ ← update_keys (accessor inner) i key_fn;
  _ ← track_field (accessor (FKeyed inner i key_fn));
  r ← reader (accessor (FKeyed inner i key_fn));
  keys ← match r with
         | Some p => v ← deref p; mret (map key_fn (items v))
         | None => mret []
         end;
  mret (map (FAtKey inner i key_fn) keys).

Definition iter_unkeyed (f : field) : M (list field) :=
  p ← path (accessor f);
  trigger ← get_trigger p;
  _ ← trigger_track (this trigger);
  _ ← trigger_track (children trigger);
  r ← reader (accessor f);
  len ← match r with Some p => v ← deref p; mret (len v) | None => mret 0 end;
  mret (map (FIndex f) (seq 0 len)).

(** [OptionStoreExt::map], which gives the field inside if there is one *)
Definition map_some (f : field) : M (option field) :=
  _ ← track_field (accessor f);
  r ← reader (accessor f);
  match r with
  | Some p => v ← deref p; mret (if is_none v then None else Some (FSome f))
  | None => mret None
  end.

(** [try_get]: tracking and reading *)
Definition try_get (f : field) : M (option data) :=
  _ ← track_field (accessor f);
  r ← reader (accessor f);
  match r with
  | Some p => v ← deref p; mret (Some v)
  | None => mret None
  end.
End stores.
