(* ===== verification/Patch.v ===== *)
(** * Patching stores

    [reactive_stores/src/patch.rs]: a store or a field takes a new value, and
    only what differs is notified.  The code is driven by the type of the value:
    [ty] lists the types of the model, [mode] what the attributes of
    [#[derive(Store, Patch)]] say of a field of a struct.  What the macro
    generates for a struct is the branch of [TyStruct]. *)

From stdpp Require Import base gmap list.
From S2P Require Import Prelude FieldKeys Stores.

Section patch.
Context {K : Type} `{Countable K}.
Variable visit_keys : gmap K (nat * nat) → list (K * (nat * nat)).
Variable visit_new : gmap K nat → list (K * nat).

(** [#[store(key: K = key_fn)]], [#[store(skip)]] *)
Inductive mode :=
| Plain
| Keyed (key_fn : data → K)
| Skip.

Inductive ty :=
| TyPrim
| TyStruct (fields : list (mode * ty))
| TyOption (t : ty)
| TyVec (t : ty).

Local Abbreviation M := (stateM (@ArcStore K _ _)).

(** The closure [notify] that patching is given *)
Definition notify_path (path : StorePath) : M unit :=
  triggers ← triggers_for_path_unkeyed path; for_each trigger_notify triggers.

(** ** Keyed patches of vectors *)

(** [IndexMap::insert] *)
Fixpoint index_map_insert {V} (key : K) (v : V) (l : list (K * V)) : list (K * V) :=
  match l with
  | [] => [(key, v)]
  | (key', v') :: l => if decide (key = key') then (key', v) :: l else (key', v') :: index_map_insert key v l
  end.

Section keyed_patch.
Variable patch : data → data → StorePath → M data.
Variable path_at_key : K → M (option StorePath).

(** The loop over [new_keyed], with the vector that is rebuilt *)
Fixpoint patch_entries (new_keyed : list (K * (nat * data))) (old_keyed : gmap K (nat * data))
    (new : list data) (has_changed : bool) : M (list data * bool) :=
  match new_keyed with
  | [] => mret (new, has_changed)
  | (key, (new_idx, new_value)) :: new_keyed =>
      let old_at_key := old_keyed !! key in
      let old_keyed := delete key old_keyed in
      match old_at_key with
      | None => patch_entries new_keyed old_keyed (new ++ [new_value]) true
      | Some (old_idx, old_value) =>
          let has_changed := has_changed || negb (old_idx =? new_idx) in
          let new := new ++ [old_value] in
          field_to_patch ← unwrapM (new !! new_idx);
          path ← path_at_key key;
          match path with
          | Some path =>
              v ← patch new_value field_to_patch path;
              patch_entries new_keyed old_keyed (<[new_idx := v]> new) has_changed
          | None => patch_entries new_keyed old_keyed new true
          end
      end
  end.

Definition patch_field_keyed (key_fn : data → K) (new old : list data) : M (list data * bool) :=
  let old_keyed := foldl (λ m p, <[key_fn p.2 := p]> m) ∅ (imap pair old) in
  let new_keyed := foldl (λ l p, index_map_insert (key_fn p.2) p l) [] (imap pair new) in
  let has_changed := existsb (λ p, bool_decide (p.1 ∉ map fst new_keyed)) (map_to_list old_keyed) in
  patch_entries new_keyed old_keyed [] has_changed.
End keyed_patch.

(** ** Patches by type *)

(** The closure [path_at_key] of the derived code *)
Definition derived_path_at_key (path : StorePath) (key : K) : M (option StorePath) :=
  e ← with_field_keys path (λ keys, ((fk_get key keys, []), keys)) (mret []);
  mret (match e with Some (_, idx) => Some (path ++ [idx]) | None => None end).

(** The items of two vectors side by side: those that are in both are patched,
    those at the end of the new one are added. *)
Fixpoint zip_patch (patch : data → data → StorePath → M data) (path : StorePath) (idx : nat)
    (new old : list data) : M (list data) :=
  match new, old with
  | n :: new, o :: old =>
      v ← patch n o (path ++ [idx]);
      items ← zip_patch patch path (S idx) new old;
      mret (v :: items)
  | adds, [] => mret adds
  | [], _ => mret []
  end.

(** The fields of a struct one after the other, each with its number *)
Fixpoint patch_fields (fields : list (nat → data → data → M data)) (idx : nat) (new old : list data) : M (list data) :=
  match fields, new, old with
  | field :: fields, n :: new, o :: old =>
      v ← field idx n o;
      values ← patch_fields fields (S idx) new old;
      mret (v :: values)
  | [], [], [] => mret []
  | _, _, _ => panics
  end.

(** What is left of the value [old], after [old.patch_field(new, path, notify, keys)] *)
Fixpoint patch_field (t : ty) (new old : data) (path : StorePath) : M data :=
  match t, new, old with
  | TyPrim, VPrim new, VPrim old =>
      if decide (new ≠ old) then _ ← notify_path path; mret (VPrim new) else mret (VPrim old)
  | TyOption t, VOption new, VOption old =>
      match old, new with
      | None, None => mret (VOption None)
      | Some _, None => _ ← notify_path path; mret (VOption None)
      | None, Some new => _ ← notify_path path; mret (VOption (Some new))
      | Some old, Some new =>
          v ← patch_field t new old (path ++ [0]);
          mret (VOption (Some v))
      end
  | TyVec t, VVec new, VVec old =>
      match new, old with
      | [], [] => mret (VVec [])
      | [], _ => _ ← notify_path path; mret (VVec [])
      | _, [] => _ ← notify_path path; mret (VVec new)
      | _, _ =>
          items ← zip_patch (patch_field t) path 0 new old;
          _ ← (if length new =? length old then mret tt else notify_path path);
          mret (VVec items)
      end
  | TyStruct fields, VStruct new, VStruct old =>
      values ← patch_fields (map (λ '(mode, t), λ idx n o,
          match mode with
          | Skip => mret o
          | Plain => patch_field t n o (path ++ [idx])
          | Keyed key_fn =>
              match t, n, o with
              | TyVec t, VVec n, VVec o =>
                  r ← patch_field_keyed (patch_field t) (derived_path_at_key path) key_fn n o;
                  let '(items, structure_changed) := r in
                  _ ← (if (structure_changed : bool) then notify_path (path ++ [idx]) else mret tt);
                  mret (VVec items)
              | _, _, _ => panics
              end
          end) fields) 0 new old;
      mret (VStruct values)
  | _, _, _ => panics
  end.

(** ** [patch] *)

Definition patch (t : ty) (f : field) (new : data) : M unit :=
  path ← path_unkeyed (accessor visit_keys visit_new f);
  w ← writer (accessor visit_keys visit_new f);
  match w with
  | Some (writer, p) =>
      let writer := guard_untrack writer in
      old ← deref p;
      v ← patch_field t new old path;
      _ ← modify (λ s, set_value (update_at p (λ _, v) (st_value s)) s);
      drop_guard writer
  | None => mret tt
  end.

(** [KeyedSubfield::patch], for a vector of items of type [t] *)
Definition KeyedSubfield_patch (inner : field) (path_segment : nat) (key_fn : data → K) (t : ty)
    (new : list data) : M unit :=
  let inner := accessor visit_keys visit_new inner in
  let self := KeyedSubfield inner path_segment in
  path ← path_unkeyed self;
  w ← writer self;
  structure_changed ← match w with
    | Some (writer, p) =>
        let writer := guard_untrack writer in
        old ← deref p;
        r ← patch_field_keyed (patch_field t)
              (λ key, e ← get_keyed inner path_segment key_fn key path;
                      mret (match e with Some (_, idx) => Some (path ++ [idx]) | None => None end))
              key_fn new (items old);
        let '(new, structure_changed) := r in
        _ ← modify (λ s, set_value (update_at p (λ _, VVec new) (st_value s)) s);
        _ ← drop_guard writer;
        mret structure_changed
    | None => mret false
    end;
  _ ← (if (structure_changed : bool) then
         trigger ← get_trigger_unkeyed path;
         _ ← trigger_notify (children trigger);
         for_each (λ p, inner ← get_trigger_unkeyed p; trigger_notify (children inner)) (ancestors path)
       else mret tt);
  update_keys visit_keys visit_new inner path_segment key_fn.
End patch.
