(* ===== verification/StoreAccess.v ===== *)
(** * Lemmas on stores

    Where an accessor stands ([resolved]), what its operations do there, and
    which triggers they track and notify.  [placed] relates the path of a part
    to the way into the value, by the types of the store. *)

From stdpp Require Import base gmap list.
From S2P Require Import Prelude FieldKeys Stores Patch.

(** ** Runs that return *)

Definition ensures {S A} (c : stateM S A) (s : S) (Q : A → S → Prop) : Prop :=
  match c s with Ok (a, s') => Q a s' | _ => False end.

Section ensures_rules.
Context {S : Type}.

Lemma ensures_ret {A} (a : A) (s : S) Q : Q a s → ensures (mret a) s Q.
Proof. done. Qed.

Lemma ensures_bind {A B} (c : stateM S A) (f : A → stateM S B) s Q R :
  ensures c s R → (∀ a s', R a s' → ensures (f a) s' Q) → ensures (x ← c; f x) s Q.
Proof.
  unfold ensures, mbind, stateM_bind. intros Hc Hf. destruct (c s) as [[a s']| |]; [|done|done]. by apply Hf.
Qed.

Lemma ensures_mono {A} (c : stateM S A) s (Q R : A → S → Prop) :
  ensures c s Q → (∀ a s', Q a s' → R a s') → ensures c s R.
Proof. unfold ensures. destruct (c s) as [[a s']| |]; naive_solver. Qed.

Lemma ensures_eq {A B} (c : stateM S A) (f : A → stateM S B) s a s' Q :
  c s = Ok (a, s') → ensures (f a) s' Q → ensures (x ← c; f x) s Q.
Proof. unfold ensures, mbind, stateM_bind. by intros ->. Qed.

Lemma ensures_gets {A B} (g : S → A) (f : A → stateM S B) s Q :
  ensures (f (g s)) s Q → ensures (x ← gets g; f x) s Q.
Proof. done. Qed.

Lemma ensures_modify {B} (g : S → S) (f : unit → stateM S B) s Q :
  ensures (f tt) (g s) Q → ensures (x ← modify g; f x) s Q.
Proof. done. Qed.

Lemma ensures_run {A} (c : stateM S A) s Q : ensures c s Q → ∃ a s', c s = Ok (a, s') ∧ Q a s'.
Proof. unfold ensures. destruct (c s) as [[a s']| |]; naive_solver. Qed.
Lemma ensures_same {A} (c' : stateM S A) s' (c : stateM S A) s Q : c s = c' s' → ensures c' s' Q → ensures c s Q.
Proof. unfold ensures. by intros ->. Qed.
End ensures_rules.

(** ** Paths and their ancestors *)

Lemma elem_ancestors (p q : StorePath) : q ∈ ancestors p ↔ q `prefix_of` p ∧ q ≠ p.
Proof.
  revert q. induction p as [|x p IH]; intros q; cbn.
  - rewrite elem_of_nil. split; [done|]. intros [Hq Hn]. by apply prefix_nil_inv in Hq.
  - rewrite elem_of_app, list_elem_of_fmap, list_elem_of_singleton. split.
    + intros [(y & -> & Hy)| ->]; [|split; [apply prefix_nil|done]].
      apply IH in Hy as [Hy Hn]. split; [by apply prefix_cons|congruence].
    + intros [Hq Hn]. destruct q as [|y q]; [by right|left].
      pose proof (prefix_cons_inv_1 _ _ _ _ Hq) as ->. apply prefix_cons_inv_2 in Hq.
      exists q. split; [done|]. apply IH. split; [done|congruence].
Qed.

Definition comparable {A} (p q : list A) : Prop := p `prefix_of` q ∨ q `prefix_of` p.

(** ** Ways into values *)

Lemma value_at_app p q v : value_at (p ++ q) v = x ← value_at p v; value_at q x.
Proof. revert v. induction p as [|x p IH]; intros v; cbn; [done|]. destruct (step_get x v); cbn; [apply IH|done]. Qed.

Lemma value_at_snoc p x v : value_at (p ++ [x]) v = y ← value_at p v; step_get x y.
Proof. rewrite value_at_app. destruct (value_at p v) as [y|]; cbn; [|done]. by destruct (step_get x y). Qed.

Lemma step_get_set x y v w : step_get x v = Some w → step_get x (step_set x y v) = Some y.
Proof.
  destruct x, v as [|l|[]|l]; cbn; try done; intros Hw; apply lookup_lt_Some in Hw;
    by rewrite list_lookup_insert_eq.
Qed.

Lemma step_get_set_ne x z y v : x ≠ z → step_get x (step_set z y v) = step_get x v.
Proof. intros Hn. destruct x, z, v as [|l|[]|l]; cbn; try done; rewrite list_lookup_insert_ne by congruence; done. Qed.

Lemma value_at_update p f v x : value_at p v = Some x → value_at p (update_at p f v) = Some (f x).
Proof.
  revert v. induction p as [|y p IH]; intros v; cbn; [by intros [= ->]|].
  destruct (step_get y v) as [w|] eqn:E; cbn; [|done]. intros Hx.
  rewrite (step_get_set _ _ _ _ E). cbn. by apply IH.
Qed.

Lemma value_at_update_app p q f v x :
  value_at p v = Some x → value_at (p ++ q) (update_at p f v) = value_at q (f x).
Proof. intros Hx. rewrite value_at_app. by rewrite (value_at_update _ _ _ _ Hx). Qed.

Lemma value_at_update_incomparable p q f v :
  ¬ comparable p q → value_at p (update_at q f v) = value_at p v.
Proof.
  revert q v. induction p as [|x p IH]; intros q v Hn; [destruct Hn; left; apply prefix_nil|].
  destruct q as [|y q]; [destruct Hn; right; apply prefix_nil|]. cbn.
  destruct (step_get y v) as [w|] eqn:E; [|done].
  destruct (decide (x = y)) as [->|Hxy].
  - rewrite (step_get_set _ _ _ _ E), E. cbn. apply IH. intros [Hc|Hc]; apply Hn; [left|right]; by apply prefix_cons.
  - by rewrite step_get_set_ne.
Qed.

(** ** Parts of a store *)

Section facts.
Context {K : Type} `{Countable K}.
Variable visit_keys : gmap K (nat * nat) → list (K * (nat * nat)).
Variable visit_new : gmap K nat → list (K * nat).

Local Abbreviation St := (@ArcStore K _ _).
Local Abbreviation M := (stateM (@ArcStore K _ _)).
Local Abbreviation accessor := (accessor visit_keys visit_new).

(** The item of a key *)
Definition item_at (kf : data → K) (k : K) (l : list data) : option data := find (λ v, bool_decide (kf v = k)) l.

Lemma item_at_Some kf k l idx v : NoDup (map kf l) → l !! idx = Some v → kf v = k → item_at kf k l = Some v.
Proof.
  intros Hn Hi <-. revert idx Hn Hi. induction l as [|w l IH]; intros idx Hn Hi; [done|].
  cbn in Hn. apply NoDup_cons in Hn as [Hw Hn]. cbn. destruct idx as [|idx]; cbn in Hi.
  - injection Hi as ->. by rewrite bool_decide_true.
  - rewrite bool_decide_false; [by eapply IH|]. intros E. apply Hw. rewrite E. apply list_elem_of_fmap.
    exists v. split; [done|by eapply list_elem_of_lookup_2].
Qed.

Lemma item_at_None kf k l : k ∉ map kf l → item_at kf k l = None.
Proof.
  induction l as [|w l IH]; [done|]. cbn. intros Hk. rewrite bool_decide_false by set_solver. apply IH. set_solver.
Qed.

(** The path of a field and the way into the value, when the field is there and
    the keys that lead to it are up to date *)
Fixpoint resolved (s : St) (f : field) : option (StorePath * list value_step) :=
  match f with
  | FRoot => Some ([], [])
  | FField g i | FKeyed g i _ =>
      '(p, st) ← resolved s g;
      _ ← value_at (st ++ [IntoField i]) (st_value s);
      Some (p ++ [i], st ++ [IntoField i])
  | FSome g =>
      '(p, st) ← resolved s g;
      _ ← value_at (st ++ [IntoSome]) (st_value s);
      Some (p ++ [0], st ++ [IntoSome])
  | FIndex g i =>
      '(p, st) ← resolved s g;
      _ ← value_at (st ++ [IntoItem i]) (st_value s);
      Some (p ++ [i], st ++ [IntoItem i])
  | FAtKey g i key_fn key =>
      '(p, st) ← resolved s g;
      keys ← st_keys s !! (p ++ [i]);
      '(seg, idx) ← fk_get key keys;
      v ← value_at ((st ++ [IntoField i]) ++ [IntoItem idx]) (st_value s);
      if decide (key_fn v = key) then Some ((p ++ [i]) ++ [seg], (st ++ [IntoField i]) ++ [IntoItem idx])
      else None
  end.

(** The accessors that the macro makes for a store of type [T]; a keyed
    collection is not accessed by index. *)
Definition is_keyed (f : field) : option (data → K) :=
  match f with FKeyed _ _ key_fn => Some key_fn | _ => None end.

Inductive typed (T : @ty K) : @field K → @ty K → Prop :=
| typed_root : typed T FRoot T
| typed_field g i l t : typed T g (TyStruct l) → l !! i = Some (Plain, t) → typed T (FField g i) t
| typed_some g t : typed T g (TyOption t) → typed T (FSome g) t
| typed_index g i t : typed T g (TyVec t) → is_keyed g = None → typed T (FIndex g i) t
| typed_keyed g i key_fn l t :
    typed T g (TyStruct l) → l !! i = Some (Keyed key_fn, TyVec t) → typed T (FKeyed g i key_fn) (TyVec t)
| typed_at_key g i key_fn key l t :
    typed T g (TyStruct l) → l !! i = Some (Keyed key_fn, TyVec t) → typed T (FAtKey g i key_fn key) t.

Definition keyed_mode (m : @mode K) : bool := match m with Keyed _ => true | _ => false end.

(** One step, from a part with its path, type and key function *)
Inductive edge (s : St) (p : StorePath) (st : list value_step) :
    @ty K → option (data → K) → nat → value_step → @ty K → option (data → K) → Prop :=
| edge_field l i m t : l !! i = Some (m, t) → keyed_mode m = false → edge s p st (TyStruct l) None i (IntoField i) t None
| edge_keyed l i kf t : l !! i = Some (Keyed kf, TyVec t) →
    edge s p st (TyStruct l) None i (IntoField i) (TyVec t) (Some kf)
| edge_some t : edge s p st (TyOption t) None 0 IntoSome t None
| edge_index t i : edge s p st (TyVec t) None i (IntoItem i) t None
| edge_key t kf keys key seg idx v :
    st_keys s !! p = Some keys → fk_get key keys = Some (seg, idx) →
    value_at (st ++ [IntoItem idx]) (st_value s) = Some v → kf v = key →
    edge s p st (TyVec t) (Some kf) seg (IntoItem idx) t None.

Inductive placed (s : St) (T : @ty K) : StorePath → list value_step → @ty K → option (data → K) → Prop :=
| located_root : placed s T [] [] T None
| located_step p st t k seg x t' k' :
    placed s T p st t k → edge s p st t k seg x t' k' → placed s T (p ++ [seg]) (st ++ [x]) t' k'.

Definition keys_wf (s : St) : Prop := ∀ p keys, st_keys s !! p = Some keys → fk_wf keys.

Lemma resolve_located s T f t p st :
  typed T f t → resolved s f = Some (p, st) → placed s T p st t (is_keyed f).
Proof.
  intros Hf. revert p st. induction Hf as [|g i l t Hg IH Hl|g t Hg IH|g i t Hg IH Hk|g i kf l t Hg IH Hl|g i kf k l t Hg IH Hl];
    intros p st; cbn; [intros [= <- <-]; constructor|..];
    (destruct (resolved s g) as [[p0 st0]|]; cbn; [|done]); specialize (IH _ _ eq_refl).
  - destruct (value_at _ _); [|done]. intros [= <- <-].
    econstructor; [exact IH|]. assert (is_keyed g = None) as -> by (by inversion Hg). by eapply edge_field.
  - destruct (value_at _ _); [|done]. intros [= <- <-].
    econstructor; [exact IH|]. assert (is_keyed g = None) as -> by (by inversion Hg). constructor.
  - destruct (value_at _ _); [|done]. intros [= <- <-]. econstructor; [exact IH|]. rewrite Hk. constructor.
  - destruct (value_at _ _); [|done]. intros [= <- <-].
    econstructor; [exact IH|]. assert (is_keyed g = None) as -> by (by inversion Hg). by apply edge_keyed.
  - destruct (st_keys s !! (p0 ++ [i])) as [keys|] eqn:Ek; cbn; [|done].
    destruct (fk_get k keys) as [[seg idx]|] eqn:Eg; cbn; [|done].
    destruct (value_at _ _) as [v|] eqn:Ev; cbn; [|done]. destruct (decide (kf v = k)); [|done].
    intros [= <- <-]. econstructor; [econstructor; [exact IH|]|by eapply edge_key].
    assert (is_keyed g = None) as -> by (by inversion Hg). by apply edge_keyed.
Qed.

Lemma edge_det s p st t k seg x t1 k1 seg' x' t2 k2 : keys_wf s →
  edge s p st t k seg x t1 k1 → edge s p st t k seg' x' t2 k2 → seg = seg' ∨ x = x' →
  seg = seg' ∧ x = x' ∧ t1 = t2 ∧ k1 = k2.
Proof.
  intros Hw He. destruct He as [| | | |t kf keys key seg idx v Hkeys Hget Hv Hkey]; intros He' Hor; inversion He'; subst.
  1-5: destruct Hor as [|[=]]; subst; naive_solver.
  - destruct Hor; naive_solver.
  - rename select (st_keys s !! p = Some keys0) into Hkeys'. assert (keys0 = keys) as -> by congruence.
    unfold fk_get in *. destruct Hor as [<-|[= <-]]; [|naive_solver].
    match goal with Hg : fk_keys keys !! kf v0 = _ |- _ =>
      pose proof (fk_inj _ (Hw _ _ Hkeys) _ _ _ _ _ Hget Hg) as Ek; rewrite <-Ek in Hg end.
    naive_solver.
Qed.

Lemma located_length s T p st t k : placed s T p st t k → length p = length st.
Proof. induction 1; rewrite ?length_app; cbn; lia. Qed.

(** The path and the way into the value determine each other. *)
Lemma located_det s T p st t k p' st' t' k' : keys_wf s →
  placed s T p st t k → placed s T p' st' t' k' → p = p' ∨ st = st' →
  p = p' ∧ st = st' ∧ t = t' ∧ k = k'.
Proof.
  intros Hw Hl. revert p' st' t' k'.
  induction Hl as [|p st t k seg x t1 k1 Hl IH He]; intros p' st' t' k' Hl' Hor.
  - pose proof (located_length _ _ _ _ _ _ Hl') as Hlen.
    destruct Hl' as [|p' st' t k seg x t1 k1]; [done|].
    exfalso. rewrite !length_app in Hlen. destruct Hor as [E|E]; apply (f_equal length) in E; rewrite length_app in E; cbn in E; lia.
  - destruct Hl' as [|p' st' t' k' seg' x' t2 k2 Hl' He'].
    { exfalso. destruct Hor as [E|E]; apply (f_equal length) in E; rewrite length_app in E; cbn in E; lia. }
    assert ((p = p' ∨ st = st') ∧ (seg = seg' ∨ x = x')) as [Hor1 Hor2].
    { destruct Hor as [E|E]; apply app_inj_tail in E as [-> ->]; auto. }
    destruct (IH _ _ _ _ Hl' Hor1) as (-> & -> & -> & ->).
    destruct (edge_det _ _ _ _ _ _ _ _ _ _ _ _ _ Hw He He' Hor2) as (-> & -> & -> & ->). done.
Qed.

Lemma located_take s T p st t k n : placed s T p st t k → n ≤ length p →
  ∃ t' k', placed s T (take n p) (take n st) t' k'.
Proof.
  intros Hl. pose proof (located_length _ _ _ _ _ _ Hl) as Hlen. revert Hlen.
  induction Hl as [|p st t k seg x t1 k1 Hl IH He]; intros Hlen Hn.
  - rewrite !take_nil. eexists _, _. constructor.
  - pose proof (located_length _ _ _ _ _ _ Hl) as Hlen'. destruct (decide (n ≤ length p)) as [Hle|Hgt].
    + rewrite !take_app_le by lia. by apply IH.
    + rewrite !length_app in *. cbn in *. rewrite !take_ge by (rewrite ?length_app; cbn; lia).
      eexists _, _. by econstructor.
Qed.

Lemma located_prefix s T p st t k p' st' t' k' : keys_wf s →
  placed s T p st t k → placed s T p' st' t' k' → p `prefix_of` p' ↔ st `prefix_of` st'.
Proof.
  intros Hw Hl Hl'. pose proof (located_length _ _ _ _ _ _ Hl) as E1. pose proof (located_length _ _ _ _ _ _ Hl') as E2.
  split; intros Hp.
  - destruct (located_take _ _ _ _ _ _ (length p) Hl') as (t1 & k1 & Ht); [by apply prefix_length|].
    assert (take (length p) p' = p) as Ep by (destruct Hp as [r ->]; apply take_app_length).
    destruct (located_det _ _ _ _ _ _ _ _ _ _ Hw Hl Ht) as (_ & -> & _); [by left|]. apply prefix_take.
  - destruct (located_take _ _ _ _ _ _ (length st) Hl') as (t1 & k1 & Ht); [apply prefix_length in Hp; lia|].
    assert (take (length st) st' = st) as Ep by (destruct Hp as [r ->]; apply take_app_length).
    destruct (located_det _ _ _ _ _ _ _ _ _ _ Hw Hl Ht) as (-> & _); [by right|]. apply prefix_take.
Qed.

Lemma resolve_comparable s T f g t t' p st q st' : keys_wf s → typed T f t → typed T g t' →
  resolved s f = Some (p, st) → resolved s g = Some (q, st') → comparable p q ↔ comparable st st'.
Proof.
  intros Hw Hf Hg Rf Rg. pose proof (resolve_located _ _ _ _ _ _ Hf Rf). pose proof (resolve_located _ _ _ _ _ _ Hg Rg).
  unfold comparable. f_equiv; by eapply located_prefix.
Qed.
End facts.

(** * What the operations of stores track and notify

    [traced s s' tr no]: between two states, the triggers [tr] were tracked and
    [no] notified, each given by its path and whether it is the trigger of the
    part itself or of its children. *)

Lemma Forall2_rev {A B} (P : A → B → Prop) l k : Forall2 P l k → Forall2 P (rev l) (rev k).
Proof. induction 1; cbn; [constructor|]. apply Forall2_app; [done|by constructor]. Qed.

Section trace.
Context {K : Type} `{Countable K}.
Variable visit_keys : gmap K (nat * nat) → list (K * (nat * nat)).
Variable visit_new : gmap K nat → list (K * nat).

Local Abbreviation St := (@ArcStore K _ _).
Local Abbreviation M := (stateM (@ArcStore K _ _)).
Local Abbreviation accessor := (accessor visit_keys visit_new).

(** ** Triggers *)

(** Triggers are numbered in pairs, and no two paths share one. *)
Record triggers_wf (s : St) : Prop := mk_triggers_wf {
  tw_next : ∃ n, st_next s = 2 * n;
  tw_pair : ∀ p t, st_triggers s !! p = Some t → ∃ n, this t = 2 * n ∧ children t = 2 * n + 1 ∧ 2 * n + 1 < st_next s;
  tw_inj : ∀ p q t u, st_triggers s !! p = Some t → st_triggers s !! q = Some u → this t = this u → p = q;
}.

Definition trigger_id (s : St) (x : StorePath * bool) : option nat :=
  (λ t, if x.2 then this t else children t) <$> st_triggers s !! x.1.

Definition trigger_ids (s : St) (l : list (StorePath * bool)) (ts : list nat) : Prop :=
  Forall2 (λ x t, trigger_id s x = Some t) l ts.

Lemma trigger_id_inj s x y t : triggers_wf s → trigger_id s x = Some t → trigger_id s y = Some t → x = y.
Proof.
  unfold trigger_id. intros Hw (u & Hu & ->)%fmap_Some (v & Hv & Ev)%fmap_Some. destruct x as [p b], y as [q c]; cbn in *.
  destruct (tw_pair _ Hw _ _ Hu) as (n & En & En' & _), (tw_pair _ Hw _ _ Hv) as (m & Em & Em' & _).
  assert (b = c) as -> by (destruct b, c; done || lia).
  assert (this u = this v) by (destruct c; lia).
  f_equal. by eapply tw_inj.
Qed.

Record traced (s s' : St) (tr no : list (StorePath * bool)) : Prop := mk_traced {
  tr_wf : triggers_wf s';
  tr_grow : st_triggers s ⊆ st_triggers s';
  tr_tracked : ∃ ts, st_tracked s' = st_tracked s ++ ts ∧ trigger_ids s' tr ts;
  tr_notified : ∃ ts, st_notified s' = st_notified s ++ ts ∧ trigger_ids s' no ts;
}.

Lemma ids_grow s s' l ts : st_triggers s ⊆ st_triggers s' → trigger_ids s l ts → trigger_ids s' l ts.
Proof.
  intros Hs Hl. eapply Forall2_impl; [exact Hl|]. intros [p b] t. unfold trigger_id. intros (u & Hu & ->)%fmap_Some. cbn in *.
  by rewrite (lookup_weaken _ _ _ _ Hu Hs).
Qed.

Lemma traced_trans s s1 s2 tr1 tr2 no1 no2 :
  traced s s1 tr1 no1 → traced s1 s2 tr2 no2 → traced s s2 (tr1 ++ tr2) (no1 ++ no2).
Proof.
  intros [W1 G1 (t1 & E1 & T1) (n1 & F1 & N1)] [W2 G2 (t2 & E2 & T2) (n2 & F2 & N2)]. split; [done|by etrans|..].
  - exists (t1 ++ t2). rewrite E2, E1, app_assoc. split; [done|]. apply Forall2_app; [by eapply ids_grow|done].
  - exists (n1 ++ n2). rewrite F2, F1, app_assoc. split; [done|]. apply Forall2_app; [by eapply ids_grow|done].
Qed.

Lemma traced_refl s s' : triggers_wf s → st_next s' = st_next s → st_triggers s' = st_triggers s →
  st_tracked s' = st_tracked s → st_notified s' = st_notified s → traced s s' [] [].
Proof.
  intros [W1 W2 W3] E1 E2 E3 E4. split.
  - split; rewrite ?E1, ?E2; done.
  - by rewrite E2.
  - exists []. rewrite E3, app_nil_r. split; [done|constructor].
  - exists []. rewrite E4, app_nil_r. split; [done|constructor].
Qed.

(** The parts of the state that hold no triggers *)
Definition same_data (s s' : St) : Prop :=
  st_value s' = st_value s ∧ st_locked s' = st_locked s ∧ st_keys s' = st_keys s ∧ st_index_keys s' = st_index_keys s.

Lemma same_data_trans s s1 s2 : same_data s s1 → same_data s1 s2 → same_data s s2.
Proof. unfold same_data. intuition congruence. Qed.

(** A run that leaves the data alone *)
Definition runs {A} (c : M A) (s : St) (tr no : list (StorePath * bool)) (Q : A → St → Prop) : Prop :=
  ensures c s (λ a s', same_data s s' ∧ traced s s' tr no ∧ Q a s').

Lemma runs_bind {A B} (c : M A) (f : A → M B) s tr tr' no no' (R : A → St → Prop) (Q : B → St → Prop) :
  runs c s tr no R →
  (∀ a s1, same_data s s1 → traced s s1 tr no → R a s1 → runs (f a) s1 tr' no' Q) →
  runs (x ← c; f x) s (tr ++ tr') (no ++ no') Q.
Proof.
  intros Hc Hf. eapply ensures_bind; [exact Hc|]. intros a s1 (D1 & T1 & Ha).
  eapply ensures_mono; [by apply Hf|]. intros b s2 (D2 & T2 & Hb).
  split_and!; [by eapply same_data_trans|by eapply traced_trans|done].
Qed.

(** The same when the first part tracks and notifies nothing *)
Lemma runs_bind_quiet {A B} (c : M A) (f : A → M B) s tr no (R : A → St → Prop) (Q : B → St → Prop) :
  runs c s [] [] R →
  (∀ a s1, same_data s s1 → traced s s1 [] [] → R a s1 → runs (f a) s1 tr no Q) →
  runs (x ← c; f x) s tr no Q.
Proof. apply (runs_bind c f s [] tr [] no). Qed.

Lemma runs_ret {A} (a : A) s (Q : A → St → Prop) : triggers_wf s → Q a s → runs (mret a) s [] [] Q.
Proof. intros Hw HQ. split_and!; [done|by apply traced_refl|done]. Qed.

Lemma runs_mono {A} (c : M A) s tr no (Q R : A → St → Prop) :
  runs c s tr no Q → (∀ a s', same_data s s' → traced s s' tr no → Q a s' → R a s') → runs c s tr no R.
Proof. intros Hc HQ. eapply ensures_mono; [exact Hc|]. naive_solver. Qed.

Lemma runs_eq {A B} (c : M A) (f : A → M B) s a tr no Q :
  c s = Ok (a, s) → runs (f a) s tr no Q → runs (x ← c; f x) s tr no Q.
Proof. apply ensures_eq. Qed.

Lemma get_trigger_ok p s : triggers_wf s →
  runs (get_trigger p) s [] [] (λ t s', st_triggers s' !! p = Some t).
Proof.
  intros Hw. unfold runs, get_trigger, ensures. destruct (st_triggers s !! p) as [t|] eqn:Et.
  { split_and!; [done|by apply traced_refl|done]. }
  split_and!; [done| |apply lookup_insert_eq]. destruct Hw as [[n W1] W2 W3]. split; cbn.
  - split; cbn.
    + exists (S n). lia.
    + intros q u [[<- <-]|[_ Hu]]%lookup_insert_Some; [exists n; cbn; lia|].
      destruct (W2 _ _ Hu) as (m & ? & ? & ?). exists m. lia.
    + intros q r u v [[<- <-]|[Hn1 Hu]]%lookup_insert_Some [[<- <-]|[Hn2 Hv]]%lookup_insert_Some; cbn; intros E; try done.
      * destruct (W2 _ _ Hv) as (m & ? & ? & ?). lia.
      * destruct (W2 _ _ Hu) as (m & ? & ? & ?). lia.
      * by eapply W3.
  - by apply insert_subseteq.
  - exists []. rewrite app_nil_r. split; [done|constructor].
  - exists []. rewrite app_nil_r. split; [done|constructor].
Qed.

Lemma trigger_id_this s p t : st_triggers s !! p = Some t → trigger_id s (p, true) = Some (this t).
Proof. unfold trigger_id. cbn. by intros ->. Qed.
Lemma trigger_id_children s p t : st_triggers s !! p = Some t → trigger_id s (p, false) = Some (children t).
Proof. unfold trigger_id. cbn. by intros ->. Qed.

Lemma trigger_track_ok t x s : triggers_wf s → trigger_id s x = Some t →
  runs (trigger_track t) s [x] [] (λ _ s', st_triggers s' = st_triggers s).
Proof.
  intros [W1 W2 W3] Hx. unfold runs, trigger_track, modify, ensures. split_and!; [done| |done]. split; cbn; [by split|done|..].
  - exists [t]. split; [done|]. by constructor.
  - exists []. rewrite app_nil_r. split; [done|constructor].
Qed.

Lemma trigger_notify_ok t x s : triggers_wf s → trigger_id s x = Some t →
  runs (trigger_notify t) s [] [x] (λ _ s', st_triggers s' = st_triggers s).
Proof.
  intros [W1 W2 W3] Hx. unfold runs, trigger_notify, modify, ensures. split_and!; [done| |done]. split; cbn; [by split|done|..].
  - exists []. rewrite app_nil_r. split; [done|constructor].
  - exists [t]. split; [done|]. by constructor.
Qed.

Lemma notify_all_ok ts l s : triggers_wf s → trigger_ids s l ts → runs (for_each trigger_notify ts) s [] l (λ _ _, True).
Proof.
  intros Hw Hl. revert s Hw Hl. revert ts. induction l as [|x l IH]; intros ts s Hw Hl.
  - apply Forall2_nil_inv_l in Hl as ->. by apply runs_ret.
  - apply Forall2_cons_inv_l in Hl as (t & ts' & Ht & Hts & ->).
    apply (runs_bind _ _ _ [] [] [x] l (λ _ s', st_triggers s' = st_triggers s)); [by apply trigger_notify_ok|].
    intros _ s1 _ T1 E1. apply IH; [apply T1|]. eapply ids_grow; [|done]. by rewrite E1.
Qed.

(** [this] and [children] of the trigger at a path *)
Lemma track_both_ok p s : triggers_wf s →
  runs (t ← get_trigger p; _ ← trigger_track (this t); trigger_track (children t)) s [(p, true); (p, false)] [] (λ _ _, True).
Proof.
  intros Hw. eapply runs_bind_quiet; [by apply get_trigger_ok|]. intros t s1 _ T1 Ht.
  apply (runs_bind _ _ _ [_] [_] [] [] (λ _ s', st_triggers s' = st_triggers s1));
    [apply trigger_track_ok; [apply T1|by apply trigger_id_this]|].
  intros _ s2 _ T2 E2. eapply runs_mono; [apply trigger_track_ok; [apply T2|]|done].
  apply trigger_id_children. by rewrite E2.
Qed.

Lemma notify_both_ok p s : triggers_wf s →
  runs (t ← get_trigger p; _ ← trigger_notify (this t); trigger_notify (children t)) s [] [(p, true); (p, false)] (λ _ _, True).
Proof.
  intros Hw. eapply runs_bind_quiet; [by apply get_trigger_ok|]. intros t s1 _ T1 Ht.
  apply (runs_bind _ _ _ [] [] [_] [_] (λ _ s', st_triggers s' = st_triggers s1));
    [apply trigger_notify_ok; [apply T1|by apply trigger_id_this]|].
  intros _ s2 _ T2 E2. eapply runs_mono; [apply trigger_notify_ok; [apply T2|]|done].
  apply trigger_id_children. by rewrite E2.
Qed.

Lemma track_ancestors_ok ps s : triggers_wf s →
  runs (for_each (λ p, inner ← get_trigger p; trigger_track (this inner)) ps) s (map (., true) ps) [] (λ _ _, True).
Proof.
  revert s. induction ps as [|p ps IH]; intros s Hw; [by apply runs_ret|].
  apply (runs_bind _ _ _ [_] _ [] [] (λ _ _, True)); [|intros _ s1 _ T1 _; apply IH, T1].
  eapply runs_bind_quiet; [by apply get_trigger_ok|]. intros t s1 _ T1 Ht.
  eapply runs_mono; [apply trigger_track_ok; [apply T1|by apply trigger_id_this]|done].
Qed.

(** What a reader of the part at [p] tracks, and what a writer notifies *)
Definition read_triggers (p : StorePath) : list (StorePath * bool) := [(p, true); (p, false)] ++ map (., true) (ancestors p).
Definition written_triggers (p : StorePath) : list (StorePath * bool) :=
  rev ([(p, true); (p, false)] ++ map (., false) (ancestors p)).

Lemma track_path_ok (path : M StorePath) p s : triggers_wf s →
  path s = Ok (p, s) → runs (track_path path) s (read_triggers p) [] (λ _ _, True).
Proof.
  intros Hw Hp. unfold track_path. do 2 (eapply runs_eq; [exact Hp|]).
  eapply runs_bind_quiet; [by apply get_trigger_ok|]. intros t s1 _ T1 Ht.
  apply (runs_bind _ _ _ [_] (_ :: _) [] [] (λ _ s', st_triggers s' = st_triggers s1));
    [apply trigger_track_ok; [apply T1|by apply trigger_id_this]|].
  intros _ s2 _ T2 E2. apply (runs_bind _ _ _ [_] _ [] [] (λ _ _, True)).
  - eapply runs_mono; [apply trigger_track_ok; [apply T2|]|done]. apply trigger_id_children. by rewrite E2.
  - intros _ s3 _ T3 _. apply track_ancestors_ok, T3.
Qed.

(** The triggers for a path, where [get q] gives the trigger at [to q] *)
Lemma triggers_for_path_ok (get : StorePath → M StoreFieldTrigger) (to : StorePath → StorePath) p s :
  triggers_wf s →
  (∀ q s1, q `prefix_of` p → same_data s s1 → triggers_wf s1 →
     runs (get q) s1 [] [] (λ t s', st_triggers s' !! to q = Some t)) →
  runs (triggers_for_path_with get p) s [] []
    (λ ts s', trigger_ids s' (rev ([(to p, true); (to p, false)] ++ map (λ q, (to q, false)) (ancestors p))) ts).
Proof.
  intros Hw Hget.
  assert (∀ ps s0, (∀ q, q ∈ ps → q `prefix_of` p) → same_data s s0 → triggers_wf s0 →
    runs (map_children get ps) s0 [] [] (λ ts s', trigger_ids s' (map (λ q, (to q, false)) ps) ts)) as Hmap.
  { induction ps as [|q ps IH]; intros s0 Hps D0 W0; [apply runs_ret; [done|constructor]|].
    eapply runs_bind_quiet; [apply Hget; [apply Hps; set_solver|done..]|]. intros t s1 D1 T1 Ht.
    eapply runs_bind_quiet.
    { apply IH; [intros; apply Hps; set_solver|by eapply same_data_trans|apply T1]. }
    intros ts s2 D2 T2 Hts. apply runs_ret; [apply T2|]. constructor; [|done].
    apply trigger_id_children. eapply lookup_weaken; [exact Ht|apply T2]. }
  eapply runs_bind_quiet; [by apply Hget|]. intros t s1 D1 T1 Ht.
  eapply runs_bind_quiet.
  { apply Hmap; [intros q [Hq _]%elem_ancestors; done|done|apply T1]. }
  intros ts s2 D2 T2 Hts. apply runs_ret; [apply T2|].
  pose proof (lookup_weaken _ _ _ _ Ht (tr_grow _ _ _ _ T2)) as Ht2.
  unfold trigger_ids. apply Forall2_rev. constructor; [by apply trigger_id_this|].
  constructor; [by apply trigger_id_children|done].
Qed.
End trace.

(** * The operations of accessors

    At a part that is there ([resolved]) the accessor gives its path, reads it,
    and makes a write guard whose drop notifies [written_triggers]; no operation panics. *)

Section access.
Context {K : Type} `{Countable K}.
Variable visit_keys : gmap K (nat * nat) → list (K * (nat * nat)).
Variable visit_new : gmap K nat → list (K * nat).

Local Abbreviation St := (@ArcStore K _ _).
Local Abbreviation M := (stateM (@ArcStore K _ _)).
Local Abbreviation accessor := (accessor visit_keys visit_new).

Lemma resolve_ext (s s' : St) (f : @field K) : st_value s' = st_value s → st_keys s' = st_keys s → resolved s' f = resolved s f.
Proof. intros Ev Ek. induction f; cbn; rewrite ?IHf, ?Ev, ?Ek; done. Qed.

Lemma resolve_present (s : St) (f : @field K) p st : resolved s f = Some (p, st) → is_Some (value_at st (st_value s)).
Proof.
  destruct f as [|f i|f|f i|f i kf|f i kf k]; cbn; [intros [= <- <-]; by eexists|..];
    (destruct (resolved s f) as [[p0 st0]|]; cbn; [|done]).
  5: { destruct (st_keys s !! _) as [keys|]; cbn; [|done]. destruct (fk_get k keys) as [[seg idx]|]; cbn; [|done].
       destruct (value_at _ _) eqn:Ev; cbn; [|done]. destruct (decide _); [|done]. intros [= <- <-]. by eexists. }
  all: destruct (value_at _ _) eqn:Ev; cbn; [|done]; intros [= <- <-]; by eexists.
Qed.

(** An item is resolved through its collection. *)
Lemma resolve_at_key (s : St) (g : @field K) i kf k p st : resolved s (FAtKey g i kf k) = Some (p, st) →
  ∃ p0 st0 keys seg idx l v,
    resolved s g = Some (p0, st0) ∧ resolved s (FKeyed g i kf) = Some (p0 ++ [i], st0 ++ [IntoField i]) ∧
    value_at (st0 ++ [IntoField i]) (st_value s) = Some (VVec l) ∧
    st_keys s !! (p0 ++ [i]) = Some keys ∧ fk_get k keys = Some (seg, idx) ∧ l !! idx = Some v ∧ kf v = k ∧
    p = (p0 ++ [i]) ++ [seg] ∧ st = (st0 ++ [IntoField i]) ++ [IntoItem idx].
Proof.
  cbn. destruct (resolved s g) as [[p0 st0]|]; cbn; [|done].
  destruct (st_keys s !! _) as [keys|] eqn:Ek; cbn; [|done].
  destruct (fk_get k keys) as [[seg idx]|] eqn:Eg; cbn; [|done].
  destruct (value_at _ _) as [v|] eqn:Ev; cbn; [|done]. destruct (decide _); [|done]. intros [= <- <-].
  rewrite value_at_snoc in Ev. destruct (value_at (st0 ++ [IntoField i]) (st_value s)) as [w|] eqn:Ew; cbn in Ev; [|done].
  destruct w as [| | |l]; try done. exists p0, st0, keys, seg, idx, l, v. by split_and!.
Qed.

Lemma with_keys_ok {T} (s : St) p keys (f : @FieldKeys K _ _ → (T * list (nat * nat)) * @FieldKeys K _ _) init r :
  st_keys s !! p = Some keys → f keys = ((r, []), keys) → with_field_keys p f init s = Ok (r, s).
Proof.
  intros Hk Hf. unfold with_field_keys, gets, mbind, stateM_bind, mret, stateM_ret.
  rewrite bool_decide_false by (by rewrite Hk). rewrite Hk. cbn. rewrite Hf. cbn.
  rewrite insert_id by done. by destruct s.
Qed.

Lemma push_path_ok seg (inner : M StorePath) p s : inner s = Ok (p, s) → push_path seg inner s = Ok (p ++ [seg], s).
Proof. intros Hp. unfold push_path. by step_with Hp. Qed.

Lemma path_ok (s : St) (f : @field K) p st : resolved s f = Some (p, st) → path (accessor f) s = Ok (p, s).
Proof.
  revert p st. induction f as [|f IH i|f IH|f IH i|f IH i kf|f IH i kf k]; intros p st Hr.
  6: { apply resolve_at_key in Hr as (p0 & st0 & keys & seg & idx & l & v & Hg & _ & _ & Hk & Hget & _ & _ & -> & _).
       cbn. unfold AtKeyed_path, get_keyed. cbn.
       pose proof (push_path_ok i _ _ _ (IH _ _ Hg)) as Hp. step_with Hp.
       pose proof (with_keys_ok s _ _ (λ keys, ((fk_get k keys, []), keys)) (latest_keys (accessor f) i kf) _ Hk eq_refl) as Hw.
       step_with Hw. by rewrite Hget. }
  1: by injection Hr as <- <-.
  all: cbn in Hr |- *; (destruct (resolved s f) as [[p0 st0]|]; cbn in Hr; [|done]);
    (destruct (value_at _ _); cbn in Hr; [|done]); injection Hr as <- <-;
    apply push_path_ok; by eapply IH.
Qed.

Lemma deref_ok st v (s : St) : value_at st (st_value s) = Some v → deref st s = Ok (v, s).
Proof. intros Hv. unfold deref, mbind, stateM_bind, gets, unwrapM. by rewrite Hv. Qed.

Lemma keyed_reader_ok (s : St) (g : @field K) i p st kf : st_locked s = false → resolved s (FKeyed g i kf) = Some (p, st) →
  (∀ p st, resolved s g = Some (p, st) → reader (accessor g) s = Ok (Some st, s)) →
  reader (KeyedSubfield (accessor g) i) s = Ok (Some st, s).
Proof.
  intros Hl Hr Hg. cbn in Hr |- *. destruct (resolved s g) as [[p0 st0]|] eqn:Er; cbn in Hr; [|done].
  destruct (value_at _ _); cbn in Hr; [|done]. injection Hr as <- <-. step_with (Hg _ _ eq_refl). done.
Qed.

(** The index of an item whose keys are up to date *)
Lemma resolve_index_ok (s : St) (g : @field K) i kf k p st : st_locked s = false → resolved s (FAtKey g i kf k) = Some (p, st) →
  (∀ p st, resolved s g = Some (p, st) → reader (accessor g) s = Ok (Some st, s)) →
  ∃ st0 idx, st = st0 ++ [IntoItem idx] ∧ reader (KeyedSubfield (accessor g) i) s = Ok (Some st0, s) ∧
    resolve_index visit_keys visit_new (accessor g) i kf k s = Ok (Some idx, s).
Proof.
  intros Hl Hr Hg.
  apply resolve_at_key in Hr as (p0 & st0 & keys & seg & idx & l & v & Er & Hkr & Hv & Hk & Hget & Hidx & Hkey & -> & ->).
  pose proof (keyed_reader_ok s g i _ _ kf Hl Hkr Hg) as Hread.
  exists (st0 ++ [IntoField i]), idx. split_and!; [done|done|].
  unfold resolve_index. cbn [path KeyedSubfield Subfield].
  step_with (push_path_ok i _ _ _ (path_ok _ _ _ _ Er)).
  pose proof (with_keys_ok s _ _ (λ keys, ((fk_get k keys, []), keys)) (latest_keys (accessor g) i kf) _ Hk eq_refl) as Hw.
  assert ((e ← get_keyed (accessor g) i kf k (p0 ++ [i]); mret (snd <$> e)) s = Ok (Some idx, s)) as Hlook.
  { unfold get_keyed. step_with Hw. by rewrite Hget. }
  step_with Hlook.
  assert (index_is_current (accessor g) i kf k (Some idx) s = Ok (true, s)) as Hcur.
  { unfold index_is_current. step_with Hread. step_with (deref_ok _ _ _ Hv). cbn. rewrite Hidx. cbn.
    by rewrite Hkey, bool_decide_true. }
  by step_with Hcur.
Qed.

Lemma reader_ok (s : St) (f : @field K) p st : st_locked s = false → resolved s f = Some (p, st) → reader (accessor f) s = Ok (Some st, s).
Proof.
  intros Hl. revert p st. induction f as [|f IH i|f IH|f IH i|f IH i kf|f IH i kf k]; intros p st Hr.
  - cbn in Hr |- *. injection Hr as <- <-. unfold gets, mbind, stateM_bind. by rewrite Hl.
  - cbn in Hr |- *. destruct (resolved s f) as [[p0 st0]|] eqn:Er; cbn in Hr; [|done].
    destruct (value_at _ _); cbn in Hr; [|done]. injection Hr as <- <-. by step_with (IH _ _ eq_refl).
  - cbn in Hr |- *. destruct (resolved s f) as [[p0 st0]|] eqn:Er; cbn in Hr; [|done].
    destruct (value_at _ _) as [w|] eqn:Ev; cbn in Hr; [|done]. injection Hr as <- <-.
    step_with (IH _ _ eq_refl). rewrite value_at_snoc in Ev.
    destruct (value_at st0 _) as [u|] eqn:Eu; cbn in Ev; [|done]. step_with (deref_ok _ _ _ Eu).
    by destruct u as [| |[]|].
  - cbn in Hr |- *. destruct (resolved s f) as [[p0 st0]|] eqn:Er; cbn in Hr; [|done].
    destruct (value_at _ _) as [w|] eqn:Ev; cbn in Hr; [|done]. injection Hr as <- <-.
    step_with (IH _ _ eq_refl). rewrite value_at_snoc in Ev.
    destruct (value_at st0 _) as [u|] eqn:Eu; cbn in Ev; [|done]. step_with (deref_ok _ _ _ Eu).
    destruct u as [| | |l]; try done. cbn in Ev |- *. apply lookup_lt_Some in Ev.
    unfold len. cbn. by rewrite (proj2 (Nat.leb_gt _ _) Ev).
  - eapply keyed_reader_ok; eauto.
  - destruct (resolve_index_ok s f i kf k p st Hl Hr IH) as (st0 & idx & -> & Hread & Hidx).
    cbn [reader accessor Stores.accessor AtKeyed]. step_with Hidx. by step_with Hread.
Qed.

(** ** Write guards *)

Lemma current_triggers_ok (s : St) (path : M StorePath) p : triggers_wf s → path s = Ok (p, s) →
  runs (triggers_for_current_path path) s [] [] (λ ts s', trigger_ids s' (written_triggers p) ts).
Proof.
  intros Hw Hp. unfold triggers_for_current_path. eapply runs_eq; [exact Hp|].
  apply (triggers_for_path_ok get_trigger (λ q, q)); [done|]. intros. by apply get_trigger_ok.
Qed.

(** The triggers of the guard for a field at [p] *)
Definition guarded (f : @field K) (p : StorePath) : list (StorePath * bool) :=
  match f with FRoot => [([], false)] | _ => written_triggers p end.

Definition made_guard (s : St) (l : list (StorePath * bool)) (st : list value_step) (r : option (guard * list value_step)) (s' : St) : Prop :=
  ∃ g, r = Some (g, st) ∧ g_inner g = [] ∧ same_data (set_locked true s) s' ∧ traced s s' [] [] ∧ trigger_ids s' l (g_triggers g).

Lemma locked_resolve (s s1 : St) (f : @field K) : same_data (set_locked true s) s1 → resolved s1 f = resolved s f.
Proof. intros (Ev & _ & Ek & _). by apply resolve_ext. Qed.

(** A guard around the one of the inner accessor *)
Lemma wrap_guard_ok (s s1 : St) p st (path : M StorePath) :
  same_data (set_locked true s) s1 → traced s s1 [] [] → path s1 = Ok (p, s1) →
  ensures (triggers_for_current_path path) s1 (λ ts s2,
    made_guard s (written_triggers p) st (Some (mkGuard [] ts, st)) s2 ∧ st_value s2 = st_value s).
Proof.
  intros D1 T1 Hp. eapply ensures_mono; [by apply current_triggers_ok; [apply T1|]|].
  intros ts s2 (D2 & T2 & Hts). pose proof (same_data_trans _ _ _ D1 D2) as D. split; [|apply D].
  eexists. split_and!; [done|done|done| |done]. by apply (traced_trans _ s1 _ [] [] [] []).
Qed.

Ltac inner_guard IH :=
  eapply ensures_bind; [by apply IH|];
  let g := fresh "g" in let gi := fresh "gi" in let gt := fresh "gt" in
  intros ? s1 (g & -> & Hgi & D1 & T1 & _); destruct g as [gi gt]; cbn in Hgi; subst gi; cbn [guard_untrack g_inner g_triggers app].

Lemma sub_writer_ok (s : St) (g : @field K) i p st :
  (∀ p st, resolved s g = Some (p, st) → ensures (writer (accessor g)) s (made_guard s (guarded g p) st)) →
  resolved s (FField g i) = Some (p, st) → ensures (writer (Subfield (accessor g) i)) s (made_guard s (written_triggers p) st).
Proof.
  intros IH Hr. cbn in Hr. destruct (resolved s g) as [[p0 st0]|] eqn:Er; cbn in Hr; [|done].
  destruct (value_at _ _); cbn in Hr; [|done]. injection Hr as <- <-. cbn [writer Subfield].
  inner_guard IH. eapply ensures_bind.
  { apply (wrap_guard_ok s s1 (p0 ++ [i])); [done..|].
    apply push_path_ok. eapply path_ok. by rewrite (locked_resolve s). }
  intros ts s2 [Hg _]. exact Hg.
Qed.

Lemma writer_ok (s : St) f p st : triggers_wf s → st_locked s = false → resolved s f = Some (p, st) →
  ensures (writer (accessor f)) s (made_guard s (guarded f p) st).
Proof.
  revert s p st.
  induction f as [|f IH i|f IH|f IH i|f IH i kf|f IH i kf k]; intros s p st Hw Hl Hr.
  - cbn in Hr |- *. injection Hr as <- <-. eapply ensures_bind; [by apply get_trigger_ok|].
    intros t s1 (D1 & T1 & Ht). apply ensures_gets. rewrite (proj1 (proj2 D1)), Hl.
    apply ensures_modify, ensures_ret. eexists. split_and!; [done|done| | |].
    + destruct D1 as (? & ? & ? & ?). by split_and!.
    + apply (traced_trans _ s1 _ [] [] [] [] T1). apply traced_refl; [apply T1|done..].
    + constructor; [by apply trigger_id_children|constructor].
  - apply sub_writer_ok; [|done]. intros. by apply IH.
  - cbn in Hr. destruct (resolved s f) as [[p0 st0]|] eqn:Er; cbn in Hr; [|done].
    destruct (value_at _ _) as [w|] eqn:Ev; cbn in Hr; [|done]. injection Hr as <- <-.
    rewrite value_at_snoc in Ev. destruct (value_at st0 _) as [u|] eqn:Eu; cbn in Ev; [|done].
    cbn [writer accessor Stores.accessor OptionSubfield]. inner_guard IH.
    eapply ensures_eq; [apply deref_ok; by rewrite (proj1 D1)|].
    assert (is_none u = false) as -> by (by destruct u as [| |[]|]).
    eapply ensures_bind.
    { apply (wrap_guard_ok s s1 (p0 ++ [0])); [done..|].
      apply push_path_ok. eapply path_ok. by rewrite (locked_resolve s). }
    intros ts s2 [Hg _]. exact Hg.
  - cbn in Hr. destruct (resolved s f) as [[p0 st0]|] eqn:Er; cbn in Hr; [|done].
    destruct (value_at _ _) as [w|] eqn:Ev; cbn in Hr; [|done]. injection Hr as <- <-.
    rewrite value_at_snoc in Ev. destruct (value_at st0 _) as [u|] eqn:Eu; cbn in Ev; [|done].
    cbn [writer accessor Stores.accessor AtIndex]. inner_guard IH.
    eapply ensures_bind.
    { apply (wrap_guard_ok s s1 (p0 ++ [i])); [done..|].
      apply push_path_ok. eapply path_ok. by rewrite (locked_resolve s). }
    intros ts s2 [Hg Ev2]. eapply ensures_eq; [apply deref_ok; by rewrite Ev2|].
    destruct u as [| | |l]; try done. cbn in Ev. apply lookup_lt_Some in Ev.
    unfold len. cbn [items]. rewrite (proj2 (Nat.leb_gt _ _) Ev). exact Hg.
  - apply sub_writer_ok; [|done]. intros. by apply IH.
  - destruct (resolve_index_ok s f i kf k p st Hl Hr) as (st0 & idx & Est & _ & Hidx).
    { intros. eapply reader_ok; eauto. }
    pose proof (resolve_at_key _ _ _ _ _ _ _ Hr) as (p0 & st1 & keys & seg & idx' & l & v & Er & Hkr & _ & _ & _ & _ & _ & _ & Est').
    rewrite Est in Est'. apply app_inj_tail in Est' as [-> _]. subst st.
    cbn [writer accessor Stores.accessor AtKeyed]. eapply ensures_eq; [exact Hidx|].
    eapply ensures_bind.
    { apply (current_triggers_ok s _ p); [done|]. eapply (path_ok s (FAtKey f i kf k)). exact Hr. }
    intros ts s1 (D1 & T1 & Hts).
    assert (resolved s1 (FField f i) = Some (p0 ++ [i], st1 ++ [IntoField i])) as Hr1.
    { etrans; [apply resolve_ext; apply D1|]. exact Hkr. }
    eapply ensures_bind.
    { apply (sub_writer_ok s1); [|exact Hr1]. intros. apply IH; [apply T1| |done]. by rewrite (proj1 (proj2 D1)). }
    intros r s2 (g & -> & Hgi & D2 & T2 & _). destruct g as [gi gt]. cbn in Hgi; subst gi. cbn [guard_untrack g_inner g_triggers app].
    eexists. split_and!; [done|done| | |].
    + destruct D1 as (? & ? & ? & ?), D2 as (? & ? & ? & ?). cbn in *. split_and!; cbn; congruence.
    + by apply (traced_trans _ s1 _ [] [] [] []).
    + eapply ids_grow; [apply T2|done].
Qed.

(** ** Reading and writing *)

Lemma track_field_ok (s : St) f p st : triggers_wf s → resolved s f = Some (p, st) →
  runs (track_field (accessor f)) s (read_triggers p) [] (λ _ _, True).
Proof.
  intros Hw Hr. pose proof (path_ok _ _ _ _ Hr) as Hp.
  destruct f; try by apply track_path_ok.
  cbn in Hr. injection Hr as <- <-. apply (track_both_ok [] s Hw).
Qed.

Lemma try_get_ok (s : St) f p st : triggers_wf s → st_locked s = false → resolved s f = Some (p, st) →
  runs (try_get visit_keys visit_new f) s (read_triggers p) [] (λ r _, r = value_at st (st_value s)).
Proof.
  intros Hw Hl Hr. unfold try_get. rewrite <-(app_nil_r (read_triggers p)).
  apply (runs_bind _ _ _ (read_triggers p) [] [] [] (λ _ _, True)); [by eapply track_field_ok|].
  intros _ s1 D1 T1 _. pose proof D1 as (Ev & El & Ek & _).
  eapply runs_eq.
  { eapply reader_ok; [by rewrite El|]. etrans; [by apply resolve_ext|exact Hr]. }
  destruct (resolve_present _ _ _ _ Hr) as [v Hv].
  eapply runs_eq; [apply deref_ok; by rewrite Ev|]. apply runs_ret; [apply T1|done].
Qed.

(** Keys below the collections that lead to a field do not matter. *)
Lemma resolve_keys_ext (s s' : St) f p st : resolved s f = Some (p, st) → st_value s' = st_value s →
  (∀ q, length q < length p → st_keys s' !! q = st_keys s !! q) → resolved s' f = Some (p, st).
Proof.
  intros Hr Ev Ek. revert p st Hr Ek. induction f as [|f IH i|f IH|f IH i|f IH i kf|f IH i kf k]; intros p st Hr Ek.
  1: exact Hr.
  all: cbn in Hr |- *; (destruct (resolved s f) as [[p0 st0]|]; cbn in Hr; [|done]).
  1-4: destruct (value_at _ _) as [v|] eqn:Hv; cbn in Hr; [|done]; injection Hr as <- <-;
    rewrite (IH _ _ eq_refl) by (intros; apply Ek; rewrite length_app; cbn; lia); cbn; by rewrite Ev, Hv.
  destruct (st_keys s !! _) as [keys|] eqn:Hk; cbn in Hr; [|done].
  destruct (fk_get k keys) as [[seg idx]|] eqn:Hget; cbn in Hr; [|done].
  destruct (value_at _ _) as [v|] eqn:Hv; cbn in Hr; [|done]. destruct (decide _) eqn:Hd; [|done]. injection Hr as <- <-.
  rewrite (IH _ _ eq_refl) by (intros; apply Ek; rewrite !length_app; cbn; lia). cbn.
  rewrite Ek, Hk by (rewrite !length_app; cbn; lia). cbn. rewrite Hget. cbn. rewrite Ev, Hv. cbn. by rewrite Hd.
Qed.

(** The keys that [update_keys] leaves for a collection with keys [latest] *)
Definition updated_keys (s : St) (p : StorePath) (latest : list K) : list (nat * nat) * @FieldKeys K _ _ :=
  fk_update visit_keys visit_new latest (default (FieldKeys_new latest) (st_keys s !! p)).

Definition refresh (s : St) (p : StorePath) (latest : list K) : St :=
  let r := updated_keys s p latest in
  mkStore (st_value s) (st_locked s) (st_triggers s) (st_next s) (<[p := r.2]> (st_keys s))
    (foldl (λ m e, <[(p, e.1) := e.2]> m) (st_index_keys s) r.1) (st_tracked s) (st_notified s).

Lemma latest_keys_ok (s : St) g i kf p st v : st_locked s = false → resolved s (FKeyed g i kf) = Some (p, st) →
  value_at st (st_value s) = Some v →
  latest_keys (accessor g) i kf s = Ok (map kf (items v), s).
Proof.
  intros Hl Hr Hv. unfold latest_keys. pose proof (reader_ok s (FKeyed g i kf) _ _ Hl Hr) as Hread.
  step_with Hread. by step_with (deref_ok _ _ _ Hv).
Qed.

Lemma update_keys_ok (s : St) g i kf p st v : st_locked s = false → resolved s (FKeyed g i kf) = Some (p, st) →
  value_at st (st_value s) = Some v →
  update_keys visit_keys visit_new (accessor g) i kf s = Ok (tt, refresh s p (map kf (items v))).
Proof.
  intros Hl Hr Hv. unfold update_keys. pose proof (path_ok s (FKeyed g i kf) _ _ Hr) as Hp.
  pose proof (latest_keys_ok s g i kf _ _ _ Hl Hr Hv) as Hlat.
  step_with Hp. step_with Hlat. unfold with_field_keys, refresh, updated_keys.
  destruct (st_keys s !! p) as [keys|] eqn:Hk.
  - unfold gets, mbind, stateM_bind, mret, stateM_ret. rewrite Hk, bool_decide_false by done. cbn.
    rewrite Hk. cbn. by destruct (fk_update _ _ _ _).
  - unfold gets, mbind, stateM_bind. rewrite Hk. rewrite bool_decide_true by done. rewrite Hlat, Hk. cbn.
    by destruct (fk_update _ _ _ _).
Qed.
End access.
