(* ===== verification/StoreProps.v ===== *)
(** * Theorems on stores *)

From stdpp Require Import base gmap list.
From S2P Require Import Prelude FieldKeys Stores Patch StoreAccess.

Section props.
Context {K : Type} `{Countable K}.
Variable visit_keys : gmap K (nat * nat) → list (K * (nat * nat)).
Variable visit_new : gmap K nat → list (K * nat).

Local Abbreviation St := (@ArcStore K _ _).
Local Abbreviation M := (stateM (@ArcStore K _ _)).
Local Abbreviation accessor := (accessor visit_keys visit_new).

(** ** Writes *)

Lemma elem_writes p x : x ∈ written_triggers p ↔ x = (p, true) ∨ ∃ q, q `prefix_of` p ∧ x = (q, false).
Proof.
  unfold written_triggers. rewrite list_elem_of_In, <-in_rev, <-list_elem_of_In, elem_of_app, list_elem_of_fmap. split.
  - intros [Hx|(q & -> & [Hq _]%elem_ancestors)]; [|right; by exists q].
    apply elem_of_cons in Hx as [->|Hx]; [by left|]. apply list_elem_of_singleton in Hx as ->. right. by exists p.
  - intros [->|(q & Hq & ->)]; [left; set_solver|]. destruct (decide (q = p)) as [->|Hn]; [left; set_solver|].
    right. exists q. split; [done|]. by apply elem_ancestors.
Qed.

Lemma elem_reads p x : x ∈ read_triggers p ↔ x = (p, false) ∨ ∃ q, q `prefix_of` p ∧ x = (q, true).
Proof.
  unfold read_triggers. rewrite elem_of_app, list_elem_of_fmap. split.
  - intros [Hx|(q & -> & [Hq _]%elem_ancestors)]; [|right; by exists q].
    apply elem_of_cons in Hx as [->|Hx]; [right; by exists p|]. apply list_elem_of_singleton in Hx as ->. by left.
  - intros [->|(q & Hq & ->)]; [left; set_solver|]. destruct (decide (q = p)) as [->|Hn]; [left; set_solver|].
    right. exists q. split; [done|]. by apply elem_ancestors.
Qed.

(** A reader and a writer meet exactly at comparable paths. *)
Lemma reads_writes p q : (∃ x, x ∈ read_triggers p ∧ x ∈ written_triggers q) ↔ comparable p q.
Proof.
  split.
  - intros (x & Hr & Hw). apply elem_reads in Hr. apply elem_writes in Hw.
    destruct Hr as [->|(r & Hr & ->)], Hw as [[= ->]|(r' & Hr' & [= ->])]; [by left|by right].
  - intros [Hc|Hc].
    + exists (p, false). rewrite elem_reads, elem_writes. split; [by left|right; by exists p].
    + exists (q, true). rewrite elem_reads, elem_writes. split; [right; by exists q|by left].
Qed.

(** A run at [s1] after the lock is given back and the value set *)
Lemma traced_from (s s0 s1 : St) tr no : st_next s0 = st_next s → st_triggers s0 = st_triggers s →
  st_tracked s0 = st_tracked s → st_notified s0 = st_notified s → traced s0 s1 tr no → traced s s1 tr no.
Proof. intros E1 E2 E3 E4 [T1 T2 T3 T4]. split; [done|by rewrite <-E2|by rewrite <-E3|by rewrite <-E4]. Qed.

Lemma notify_field_ok (s : St) (p : M StorePath) q : triggers_wf s → p s = Ok (q, s) →
  runs (notify_field p) s [] [(q, true); (q, false)] (λ _ _, True).
Proof. intros Hw Hp. unfold notify_field. eapply runs_eq; [exact Hp|]. by apply notify_both_ok. Qed.

Lemma try_update_ok (s : St) g q st change :
  triggers_wf s → st_locked s = false → resolved s g = Some (q, st) →
  resolved (set_value (update_at st change (st_value s)) s) g = Some (q, st) →
  ensures (try_update visit_keys visit_new g change) s (λ r s',
    r = true ∧ st_value s' = update_at st change (st_value s) ∧ st_locked s' = false ∧
    ∃ no, traced s s' [] no ∧ ∀ x, x ∈ no ↔ x ∈ written_triggers q).
Proof.
  intros Hw Hl Hr Hr'. unfold try_update.
  eapply ensures_bind; [by apply writer_ok|]. intros r s1 (gd & -> & Hgi & D1 & T1 & Hts).
  destruct gd as [gi gt]. cbn in Hgi, Hts. subst gi.
  destruct (resolve_present _ _ _ _ Hr) as [v Hv]. pose proof D1 as (Ev & _ & Ek & _). cbn in Ev, Ek.
  eapply ensures_eq; [apply deref_ok; by rewrite Ev|]. apply ensures_modify.
  eapply ensures_bind with (R := λ _ s', st_value s' = update_at st change (st_value s) ∧ st_locked s' = false ∧
    ∃ no, traced s s' [] no ∧ ∀ x, x ∈ no ↔ x ∈ written_triggers q); [|by intros _ s' HR].
  unfold write_drop, drop_guard. cbn [g_inner g_triggers app].
  eapply ensures_bind with (R := λ _ s', st_value s' = update_at st change (st_value s) ∧ st_locked s' = false ∧
    st_keys s' = st_keys s ∧ traced s s' [] (guarded g q)).
  { apply ensures_modify. eapply ensures_mono.
    { apply notify_all_ok; [|exact Hts]. destruct (tr_wf _ _ _ _ T1). by split. }
    intros _ s2 ((E1 & E2 & E3 & _) & T2 & _). cbn in *. split_and!; [congruence|done|congruence|].
    apply (traced_trans s s1 s2 [] [] [] _ T1). by eapply traced_from; [..|exact T2]. }
  intros _ s2 (Ev2 & El2 & Ek2 & T2).
  assert (resolved s2 g = Some (q, st)) as Hr2.
  { etrans; [|exact Hr']. by apply resolve_ext. }
  destruct g as [|g i|g|g i|g i kf|g i kf k]; try (split_and!; [done|done|by exists (written_triggers q)]).
  - cbn in Hr. injection Hr as <- <-. eapply ensures_mono; [apply notify_field_ok; [apply T2|done]|].
    intros _ s3 ((E1 & E2 & _ & _) & T3 & _). split_and!; [congruence|congruence|].
    eexists. split; [exact (traced_trans _ _ _ [] [] _ _ T2 T3)|].
    intros x. rewrite elem_writes. cbn. set_unfold. split.
    + intros [->|[->|[->|[]]]]; [right; by exists []|by left|right; by exists []].
    + intros [->|(q & ->%prefix_nil_inv & ->)]; auto.
  - pose proof (resolve_present _ _ _ _ Hr2) as [v2 Hv2].
    eapply ensures_eq; [by apply (update_keys_ok visit_keys visit_new s2 g i kf q st v2)|].
    set (s3 := refresh _ _ _ _ _).
    eapply ensures_mono.
    { apply (notify_field_ok s3); [destruct (tr_wf _ _ _ _ T2); by split|].
      eapply (path_ok visit_keys visit_new s3 (FKeyed g i kf)).
      eapply resolve_keys_ext; [exact Hr2|done|]. intros q' Hq'. cbn. apply lookup_insert_ne. intros ->. lia. }
    intros _ s4 ((E1 & E2 & _ & _) & T4 & _). split_and!; [by rewrite E1|by rewrite E2|].
    exists (written_triggers q ++ [(q, true); (q, false)]). split.
    { apply (traced_trans s s2 s4 [] [] _ _ T2). by eapply traced_from; [..|exact T4]. }
    intros x. cbn [guarded]. rewrite elem_of_app. rewrite (elem_writes q x). set_unfold.
    split; [intros [?|[->|[->|[]]]]; [done|by left|right; by exists q]|by left].
Qed.

Lemma ids_elem (s : St) l ts t : trigger_ids s l ts → t ∈ ts ↔ ∃ x, x ∈ l ∧ trigger_id s x = Some t.
Proof.
  intros Hl. split.
  - intros Ht. apply list_elem_of_lookup in Ht as [i Hi].
    destruct (Forall2_lookup_r _ _ _ _ _ Hl Hi) as (x & Hx & Ht). exists x. split; [by eapply list_elem_of_lookup_2|done].
  - intros (x & Hx & Ht). apply list_elem_of_lookup in Hx as [i Hi].
    destruct (Forall2_lookup_l _ _ _ _ _ Hl Hi) as (t' & Ht' & E). assert (t' = t) as -> by congruence.
    by eapply list_elem_of_lookup_2.
Qed.

(** Whether an observer that tracked in a run is notified *)
Lemma meet_ok (s s2 : St) tr no : st_tracked s = [] → st_notified s = [] → traced s s2 tr no →
  (∃ t, t ∈ st_tracked s2 ∧ t ∈ st_notified s2) ↔ ∃ x, x ∈ tr ∧ x ∈ no.
Proof.
  intros E1 E2 [W _ (ts & Ht & Its) (ns & Hn & Ins)]. rewrite E1 in Ht. rewrite E2 in Hn. cbn in *. rewrite Ht, Hn.
  split.
  - intros (t & (x & Hx & Tx)%(ids_elem _ _ _ _ Its) & (y & Hy & Ty)%(ids_elem _ _ _ _ Ins)).
    pose proof (trigger_id_inj _ _ _ _ W Tx Ty) as ->. by exists y.
  - intros (x & Hx & Hy). apply list_elem_of_lookup in Hx as [i Hi].
    destruct (Forall2_lookup_l _ _ _ _ _ Its Hi) as (t & Ht' & Tx). exists t.
    split; [by eapply list_elem_of_lookup_2|]. apply (ids_elem _ _ _ _ Ins). by exists x.
Qed.

(** C6: fields of a store are reactive by themselves.  A field [f] is read while
    an observer tracks it, and then a field [g] is written, both with their keys
    up to date: both succeed, the read gives the value of the field, the write
    stores the changed value, and the observer is notified exactly if one of the
    two fields contains the other.  If it is not, what it has read is still
    there. *)
Theorem write_notifies_readers T (s : St) f g tf tg p q st st' change :
  triggers_wf s → keys_wf s → st_locked s = false → st_tracked s = [] → st_notified s = [] →
  typed T f tf → typed T g tg → resolved s f = Some (p, st) → resolved s g = Some (q, st') →
  resolved (set_value (update_at st' change (st_value s)) s) g = Some (q, st') →
  ∃ v w s1 s2,
    value_at st (st_value s) = Some v ∧ try_get visit_keys visit_new f s = Ok (Some v, s1) ∧
    value_at st' (st_value s) = Some w ∧ try_update visit_keys visit_new g change s1 = Ok (true, s2) ∧
    value_at st' (st_value s2) = Some (change w) ∧
    ((∃ t, t ∈ st_tracked s2 ∧ t ∈ st_notified s2) ↔ comparable st st') ∧
    (¬ comparable st st' → value_at st (st_value s2) = Some v).
Proof.
  intros Hw Hk Hl Ht Hn Tf Tg Rf Rg Rg'.
  destruct (resolve_present _ _ _ _ Rf) as [v Hv], (resolve_present _ _ _ _ Rg) as [w Hgw].
  destruct (ensures_run _ _ _ (try_get_ok visit_keys visit_new _ _ _ _ Hw Hl Rf)) as (r & s1 & Hget & D1 & T1 & ->).
  pose proof D1 as (Ev & El & Ek & _).
  assert (ensures (try_update visit_keys visit_new g change) s1 (λ r s',
    r = true ∧ st_value s' = update_at st' change (st_value s1) ∧ st_locked s' = false ∧
    ∃ no, traced s1 s' [] no ∧ ∀ x, x ∈ no ↔ x ∈ written_triggers q)) as Hup.
  { apply try_update_ok; [apply T1|by rewrite El|by etrans; [apply resolve_ext|]|].
    etrans; [|exact Rg']. apply resolve_ext; cbn; [by rewrite Ev|done]. }
  destruct (ensures_run _ _ _ Hup) as (r & s2 & Hrun & -> & Ev2 & _ & no & T2 & Hno).
  exists v, w, s1, s2. rewrite Hv in Hget. rewrite Ev in Ev2. split_and!; try done.
  - rewrite Ev2. by apply value_at_update.
  - rewrite (meet_ok s s2 (read_triggers p ++ []) ([] ++ no)); [|done..|by eapply traced_trans].
    rewrite <-(resolve_comparable s T f g tf tg p st q st') by done. rewrite <-reads_writes. rewrite app_nil_r. cbn.
    by setoid_rewrite Hno.
  - intros Hc. rewrite Ev2. by rewrite value_at_update_incomparable.
Qed.

(** ** Iterating by index *)

Lemma iter_unkeyed_ok (s : St) f p st v : triggers_wf s → st_locked s = false → resolved s f = Some (p, st) →
  value_at st (st_value s) = Some v →
  runs (iter_unkeyed visit_keys visit_new f) s [(p, true); (p, false)] [] (λ r _, r = map (FIndex f) (seq 0 (len v))).
Proof.
  intros Hw Hl Hr Hv. unfold iter_unkeyed. eapply runs_eq; [by eapply path_ok|].
  eapply runs_bind_quiet; [by apply get_trigger_ok|]. intros t s1 D1 T1 Ht.
  apply (runs_bind _ _ _ [_] [_] [] [] (λ _ s', st_triggers s' = st_triggers s1));
    [apply trigger_track_ok; [apply T1|by apply trigger_id_this]|].
  intros _ s2 D2 T2 E2. apply (runs_bind _ _ _ [_] [] [] [] (λ _ _, True)).
  { eapply runs_mono; [apply trigger_track_ok; [apply T2|]|done]. apply trigger_id_children. by rewrite E2. }
  intros _ s3 D3 T3 _. pose proof (same_data_trans _ _ _ (same_data_trans _ _ _ D1 D2) D3) as (Ev & El & Ek & _).
  eapply runs_eq; [eapply reader_ok; [by rewrite El|etrans; [by apply resolve_ext|exact Hr]]|].
  assert (deref st s3 = Ok (v, s3)) as Hd by (apply deref_ok; by rewrite Ev).
  eapply (runs_eq _ _ _ (len v)); [by step_with Hd|]. by apply runs_ret; [apply T3|].
Qed.

(** An observer that iterates a collection by index does not notice writes
    above it: the iterator tracks the collection, but none of its ancestors.  A
    write of a field that contains the collection replaces the items, and the
    observer is not notified. *)
Theorem iter_unkeyed_misses_ancestors T (s : St) f g tf tg p q st st' change :
  triggers_wf s → keys_wf s → st_locked s = false → st_tracked s = [] → st_notified s = [] →
  typed T f tf → typed T g tg → resolved s f = Some (p, st) → resolved s g = Some (q, st') →
  resolved (set_value (update_at st' change (st_value s)) s) g = Some (q, st') →
  st' `prefix_of` st → st' ≠ st →
  ∃ v s1 s2,
    value_at st (st_value s) = Some v ∧
    iter_unkeyed visit_keys visit_new f s = Ok (map (FIndex f) (seq 0 (len v)), s1) ∧
    try_update visit_keys visit_new g change s1 = Ok (true, s2) ∧
    st_value s2 = update_at st' change (st_value s) ∧
    ¬ ∃ t, t ∈ st_tracked s2 ∧ t ∈ st_notified s2.
Proof.
  intros Hw Hk Hl Ht Hn Tf Tg Rf Rg Rg' Hp Hne.
  destruct (resolve_present _ _ _ _ Rf) as [v Hv].
  destruct (ensures_run _ _ _ (iter_unkeyed_ok s f p st v Hw Hl Rf Hv)) as (r & s1 & Hit & D1 & T1 & ->).
  pose proof D1 as (Ev & El & Ek & _).
  assert (resolved (set_value (update_at st' change (st_value s1)) s1) g = Some (q, st')) as Rg1.
  { etrans; [|exact Rg']. apply resolve_ext; cbn; [by rewrite Ev|done]. }
  destruct (ensures_run _ _ _ (try_update_ok s1 g q st' change (tr_wf _ _ _ _ T1) ltac:(by rewrite El)
    ltac:(by etrans; [apply resolve_ext|]) Rg1)) as (b & s2 & Hup & -> & Ev2 & _ & no & T2 & Hno).
  exists v, s1, s2. split_and!; [done|done|done|by rewrite Ev2, Ev|].
  rewrite (meet_ok s s2 ([(p, true); (p, false)] ++ []) ([] ++ no)); [|done..|by eapply traced_trans].
  assert (q `prefix_of` p ∧ q ≠ p) as [Hqp Hqne].
  { pose proof (resolve_located _ _ _ _ _ _ Tf Rf) as Lf. pose proof (resolve_located _ _ _ _ _ _ Tg Rg) as Lg. split.
    - by apply (located_prefix _ _ _ _ _ _ _ _ _ _ Hk Lg Lf).
    - intros ->. by destruct (located_det _ _ _ _ _ _ _ _ _ _ Hk Lg Lf) as (_ & ? & _); [left|]. }
  intros (x & Hx & Hx'). apply Hno, elem_writes in Hx'. rewrite app_nil_r in Hx.
  apply elem_of_cons in Hx as [->|Hx%list_elem_of_singleton].
  - destruct Hx' as [[= ->]|(r & _ & [=])]. done.
  - subst x. destruct Hx' as [[=]|(r & Hr & [= ->])]. apply Hqne. apply (anti_symm prefix); done.
Qed.

(** ** Keys that are missing or out of date *)

Section at_key.
Hypothesis visit_keys_all : ∀ m, visit_keys m ≡ₚ map_to_list m.
Hypothesis visit_new_all : ∀ m, visit_new m ≡ₚ map_to_list m.

Definition with_keys (s : St) (p : StorePath) (keys : @FieldKeys K _ _) : St :=
  mkStore (st_value s) (st_locked s) (st_triggers s) (st_next s) (<[p := keys]> (st_keys s)) (st_index_keys s)
    (st_tracked s) (st_notified s).

(** The first access makes the keys of a collection. *)
Lemma get_keyed_ok (s : St) g i kf k p st l : st_locked s = false →
  resolved s (FKeyed g i kf) = Some (p, st) → value_at st (st_value s) = Some (VVec l) →
  let keys := default (FieldKeys_new (map kf l)) (st_keys s !! p) in
  get_keyed (accessor g) i kf k p s = Ok (fk_get k keys, with_keys s p keys).
Proof.
  intros Hl Hr Hv. unfold get_keyed, with_field_keys, gets, mbind, stateM_bind, mret, stateM_ret.
  destruct (st_keys s !! p) as [keys|] eqn:Ek.
  - rewrite bool_decide_false by done. by rewrite Ek.
  - rewrite bool_decide_true by done. rewrite (latest_keys_ok _ _ s g i kf p st _ Hl Hr Hv). by rewrite Ek.
Qed.

Lemma with_keys_resolve (s : St) g i kf p st keys : resolved s (FKeyed g i kf) = Some (p, st) →
  resolved (with_keys s p keys) (FKeyed g i kf) = Some (p, st).
Proof.
  intros Hr. eapply resolve_keys_ext; [done|done|]. intros q Hq. cbn. apply lookup_insert_ne. intros ->. lia.
Qed.

Lemma with_keys_again (s : St) p keys :
  with_keys (with_keys s p keys) p (default keys (st_keys (with_keys s p keys) !! p)) = with_keys s p keys.
Proof. unfold with_keys. cbn. by rewrite lookup_insert_eq, insert_insert_eq. Qed.

Lemma AtKeyed_path_ok (s : St) g i kf k p st l : st_locked s = false →
  resolved s (FKeyed g i kf) = Some (p, st) → value_at st (st_value s) = Some (VVec l) →
  let keys := default (FieldKeys_new (map kf l)) (st_keys s !! p) in
  AtKeyed_path (accessor g) i kf k s =
    Ok (p ++ match fk_get k keys with Some (path, _) => [path] | None => [] end, with_keys s p keys).
Proof.
  intros Hl Hr Hv keys. unfold AtKeyed_path. step_with (path_ok visit_keys visit_new s (FKeyed g i kf) _ _ Hr).
  by step_with (get_keyed_ok s g i kf k p st l Hl Hr Hv).
Qed.

Lemma track_at_key_ok (s : St) g i kf k p st l : triggers_wf s → st_locked s = false →
  resolved s (FKeyed g i kf) = Some (p, st) → value_at st (st_value s) = Some (VVec l) →
  let keys := default (FieldKeys_new (map kf l)) (st_keys s !! p) in
  ensures (track_field (accessor (FAtKey g i kf k))) s (λ _ s', same_data (with_keys s p keys) s' ∧ triggers_wf s').
Proof.
  intros Hw Hl Hr Hv keys. pose proof (AtKeyed_path_ok s g i kf k p st l Hl Hr Hv) as Hp. cbn zeta in Hp. fold keys in Hp.
  set (s0 := with_keys s p keys) in *.
  assert (AtKeyed_path (accessor g) i kf k s0 =
    Ok (p ++ match fk_get k keys with Some (path, _) => [path] | None => [] end, s0)) as Hp0.
  { rewrite (AtKeyed_path_ok s0 g i kf k p st l Hl) by (done || by apply with_keys_resolve).
    cbn zeta. unfold s0 at 1 2. cbn [st_keys with_keys]. rewrite lookup_insert_eq. cbn. unfold s0, with_keys. cbn.
    by rewrite insert_insert_eq, lookup_insert_eq. }
  apply (ensures_same (track_path (AtKeyed_path (accessor g) i kf k)) s0).
  { change (track_field (accessor (FAtKey g i kf k))) with (track_path (AtKeyed_path (accessor g) i kf k)). unfold track_path. step_with Hp. do 3 step_with Hp0. done. }
  eapply ensures_mono; [eapply track_path_ok; [|exact Hp0]|].
  - destruct Hw. by split.
  - intros _ s1 (D1 & T1 & _). split; [done|apply T1].
Qed.

(** A state in which the keys of the collection are those of its items: the
    lookup after a refresh, or one that was found to be current *)
Definition index_ok (kf : data → K) (k : K) (l : list data) (index : option nat) : Prop :=
  match index with
  | Some idx => ∃ v, l !! idx = Some v ∧ kf v = k
  | None => k ∉ map kf l
  end.

Lemma index_is_current_ok (s : St) g i kf k p st l index : st_locked s = false →
  resolved s (FKeyed g i kf) = Some (p, st) → value_at st (st_value s) = Some (VVec l) →
  ∃ b : bool, index_is_current (accessor g) i kf k index s = Ok (b, s) ∧ (b = true ↔ index_ok kf k l index).
Proof.
  intros Hl Hr Hv. unfold index_is_current. pose proof (reader_ok visit_keys visit_new s (FKeyed g i kf) _ _ Hl Hr) as Hread.
  step_with Hread. step_with (deref_ok _ _ _ Hv). eexists. split; [done|]. destruct index as [idx|]; cbn.
  - rewrite bool_decide_eq_true. destruct (l !! idx) as [v|]; cbn; naive_solver.
  - rewrite negb_true_iff, bool_decide_eq_false. done.
Qed.

Lemma default_keys_wf (s : St) p (kf : data → K) l : NoDup (map kf l) → (∀ keys, st_keys s !! p = Some keys → fk_wf keys) →
  fk_wf (default (FieldKeys_new (map kf l)) (st_keys s !! p)).
Proof.
  intros Hn Hk. destruct (st_keys s !! p) as [keys|] eqn:E; cbn; [by apply Hk|]. by apply FieldKeys_new_ok.
Qed.

Lemma refreshed_index_ok (s : St) p kf l k : NoDup (map kf l) →
  (∀ keys, st_keys s !! p = Some keys → fk_wf keys) →
  ∃ keys, st_keys (refresh visit_keys visit_new s p (map kf l)) !! p = Some keys ∧ fk_wf keys ∧
    index_ok kf k l (snd <$> fk_get k keys).
Proof.
  intros Hn Hk. cbn. rewrite lookup_insert_eq. eexists. split; [done|]. unfold updated_keys.
  assert (fk_wf (default (FieldKeys_new (map kf l)) (st_keys s !! p))) as Hw.
  { by apply default_keys_wf. }
  pose proof (fk_update_ok visit_keys visit_new visit_keys_all visit_new_all (map kf l) _ Hw Hn) as Hup.
  destruct (fk_update _ _ _ _) as [ik keys']. cbn. destruct Hup as (W & Hget & Hall & _). split; [done|].
  destruct (fk_get k keys') as [[seg idx]|] eqn:E; cbn.
  - apply Hget in E. rewrite list_lookup_fmap in E. apply fmap_Some in E as (v & Hv & ->). by exists v.
  - intros Hin. apply list_elem_of_lookup in Hin as [idx Hidx]. apply Hall in Hidx as [seg Hs]. congruence.
Qed.

Lemma refresh_resolve (s : St) g i kf p st latest : resolved s (FKeyed g i kf) = Some (p, st) →
  resolved (refresh visit_keys visit_new s p latest) (FKeyed g i kf) = Some (p, st).
Proof. intros Hr. eapply resolve_keys_ext; [done|done|]. intros q Hq. cbn. apply lookup_insert_ne. intros ->. lia. Qed.

(** The state after the index of a key was looked up *)
Definition indexed (s s' : St) (f : field) p st kf k l (index : option nat) : Prop :=
  index_ok kf k l index ∧ st_value s' = st_value s ∧ st_locked s' = st_locked s ∧ resolved s' f = Some (p, st) ∧
  ∃ keys, st_keys s' !! p = Some keys ∧ fk_wf keys ∧ index = snd <$> fk_get k keys.

Lemma resolve_index_total (s : St) g i kf k p st l : st_locked s = false →
  resolved s (FKeyed g i kf) = Some (p, st) → value_at st (st_value s) = Some (VVec l) →
  NoDup (map kf l) → (∀ keys, st_keys s !! p = Some keys → fk_wf keys) →
  ensures (resolve_index visit_keys visit_new (accessor g) i kf k) s
    (λ index s', indexed s s' (FKeyed g i kf) p st kf k l index).
Proof.
  intros Hl Hr Hv Hn Hk. unfold resolve_index.
  eapply ensures_eq; [exact (path_ok visit_keys visit_new s (FKeyed g i kf) _ _ Hr)|].
  set (lookup := e ← get_keyed _ _ _ _ _; _).
  assert (∀ s0 : St, st_locked s0 = false → resolved s0 (FKeyed g i kf) = Some (p, st) → value_at st (st_value s0) = Some (VVec l) →
    let keys := default (FieldKeys_new (map kf l)) (st_keys s0 !! p) in
    lookup s0 = Ok (snd <$> fk_get k keys, with_keys s0 p keys)) as Hlook.
  { intros s0 Hl0 Hr0 Hv0. unfold lookup. by step_with (get_keyed_ok s0 g i kf k p st l Hl0 Hr0 Hv0). }
  eapply ensures_eq; [by apply Hlook|]. set (keys := default _ _). set (s0 := with_keys s p keys).
  assert (resolved s0 (FKeyed g i kf) = Some (p, st)) as Hr0 by by apply with_keys_resolve.
  assert (fk_wf keys) as Hw by by apply default_keys_wf.
  destruct (index_is_current_ok s0 g i kf k p st l (snd <$> fk_get k keys) Hl Hr0 Hv) as (b & Hb & Hok).
  eapply ensures_eq; [exact Hb|]. destruct b.
  - apply ensures_ret. split_and!; [by apply Hok|done|done|done|]. exists keys. split_and!; [apply lookup_insert_eq|done|done].
  - eapply ensures_eq; [by apply (update_keys_ok visit_keys visit_new s0 g i kf p st (VVec l))|]. cbn [items].
    set (s1 := refresh _ _ _ _ _).
    assert (∀ ks, st_keys s0 !! p = Some ks → fk_wf ks) as Hk0.
    { intros ks. cbn. rewrite lookup_insert_eq. by intros [= <-]. }
    destruct (refreshed_index_ok s0 p kf l k Hn Hk0) as (keys1 & E1 & W1 & Hidx). fold s1 in E1.
    assert (resolved s1 (FKeyed g i kf) = Some (p, st)) as Hr1 by by apply refresh_resolve.
    unfold ensures. rewrite (Hlook s1 Hl Hr1 Hv). cbn zeta. rewrite E1. cbn [default from_option id].
    split_and!; [done|done|done|by apply with_keys_resolve|].
    exists keys1. split_and!; [apply lookup_insert_eq|done|done].
Qed.

Lemma resolve_at_key_keys (s : St) g i kf k p st keys : resolved s (FKeyed g i kf) = Some (p, st) →
  st_keys s !! p = Some keys →
  resolved s (FAtKey g i kf k) =
    ('(seg, idx) ← fk_get k keys; v ← value_at (st ++ [IntoItem idx]) (st_value s);
     if decide (kf v = k) then Some (p ++ [seg], st ++ [IntoItem idx]) else None).
Proof.
  intros Hr Hk. cbn in Hr |- *. destruct (resolved s g) as [[p0 st0]|]; cbn in *; [|done].
  destruct (value_at _ _); cbn in Hr; [|done]. injection Hr as <- <-. by rewrite Hk.
Qed.

Lemma at_key_reader_ok (s : St) g i kf k p st l : st_locked s = false →
  resolved s (FKeyed g i kf) = Some (p, st) → value_at st (st_value s) = Some (VVec l) →
  NoDup (map kf l) → (∀ keys, st_keys s !! p = Some keys → fk_wf keys) →
  ensures (reader (accessor (FAtKey g i kf k))) s (λ r s',
    st_value s' = st_value s ∧ (k ∈ map kf l ↔ is_Some (resolved s' (FAtKey g i kf k))) ∧
    match r with
    | Some q => ∃ v, value_at q (st_value s') = Some v ∧ item_at kf k l = Some v
    | None => item_at kf k l = None
    end).
Proof.
  intros Hl Hr Hv Hn Hk.
  change (reader (accessor (FAtKey g i kf k))) with (reader (AtKeyed visit_keys visit_new (accessor g) i kf k)).
  cbn [reader AtKeyed]. eapply ensures_bind; [by apply (resolve_index_total s g i kf k p st l)|].
  intros index s2 (Hidx & Ev2 & El2 & Hr2 & keys & Ek2 & Wk2 & ->).
  assert (reader (KeyedSubfield (accessor g) i) s2 = Ok (Some st, s2)) as Hread.
  { apply (reader_ok visit_keys visit_new s2 (FKeyed g i kf) p); [congruence|done]. }
  assert (value_at st (st_value s2) = Some (VVec l)) as Hv2 by congruence.
  pose proof (resolve_at_key_keys s2 g i kf k p st keys Hr2 Ek2) as Hres.
  destruct (fk_get k keys) as [[seg idx]|] eqn:Eg; cbn [fmap option_fmap option_map snd] in *.
  - destruct Hidx as (v & Hi & Hkv). eapply ensures_eq; [exact Hread|]. apply ensures_ret.
    split_and!; [congruence| |].
    + split; [intros _|intros _; apply list_elem_of_fmap; exists v; split; [done|by eapply list_elem_of_lookup_2]].
      rewrite Hres. cbn [mbind option_bind]. rewrite value_at_snoc, Hv2. cbn. rewrite Hi. cbn.
      rewrite decide_True by done. by eexists.
    + exists v. cbn. unfold push_step. rewrite value_at_snoc, Hv2. cbn. split; [done|]. by eapply item_at_Some.
  - apply ensures_ret. split_and!; [congruence| |by apply item_at_None].
    rewrite Hres. split; [done|by intros [? ?]].
Qed.

(** An item of a keyed collection is found by its key.  The keys that the
    store has for the collection may be missing, or out of date because the
    collection was changed through one of its ancestors: a read through the key
    gives the item that has it, or nothing when there is none, and from then on
    the keys lead to the item. *)
Theorem at_key_finds_item (s : St) g i kf k p st l :
  triggers_wf s → st_locked s = false → resolved s (FKeyed g i kf) = Some (p, st) →
  value_at st (st_value s) = Some (VVec l) → NoDup (map kf l) → (∀ keys, st_keys s !! p = Some keys → fk_wf keys) →
  ∃ s', try_get visit_keys visit_new (FAtKey g i kf k) s = Ok (item_at kf k l, s') ∧
    st_value s' = st_value s ∧ (k ∈ map kf l ↔ is_Some (resolved s' (FAtKey g i kf k))).
Proof.
  intros Hw Hl Hr Hv Hn Hk.
  assert (ensures (try_get visit_keys visit_new (FAtKey g i kf k)) s (λ r s',
    r = item_at kf k l ∧ st_value s' = st_value s ∧ (k ∈ map kf l ↔ is_Some (resolved s' (FAtKey g i kf k))))) as Hrun;
    [|by destruct (ensures_run _ _ _ Hrun) as (r & s' & Hr' & -> & ? & ?); exists s'].
  unfold try_get. eapply ensures_bind; [by apply (track_at_key_ok s g i kf k p st l)|].
  intros _ s1 [(Ev1 & El1 & Ek1 & _) W1]. cbn in Ev1, El1, Ek1.
  eapply ensures_bind.
  { apply (at_key_reader_ok s1 g i kf k p st l); [congruence| |congruence|done|].
    - etrans; [|exact (with_keys_resolve s g i kf p st (default (FieldKeys_new (map kf l)) (st_keys s !! p)) Hr)].
      by apply resolve_ext.
    - intros keys. rewrite Ek1, lookup_insert_eq. intros [= <-]. by apply default_keys_wf. }
  intros r s2 (Ev2 & Hin & Hitem). destruct r as [q|].
  - destruct Hitem as (v & Hvq & ->). eapply ensures_eq; [by apply deref_ok|]. apply ensures_ret. split_and!; [done|congruence|done].
  - apply ensures_ret. split_and!; [done|congruence|done].
Qed.
End at_key.
End props.
