(* ===== verification/PatchProps.v ===== *)
(** * What a patch changes and notifies

    [patched]: a patch of a value notifies a list of positions and leaves a new
    value; the positions are such that the parts there differ, and every part
    that differs is above or below one of them. *)

From stdpp Require Import base gmap list.
From S2P Require Import Prelude FieldKeys Stores Patch StoreAccess StoreProps.

Section patch_facts.
Context {K : Type} `{Countable K}.
Variable visit_keys : gmap K (nat * nat) → list (K * (nat * nat)).
Variable visit_new : gmap K nat → list (K * nat).

Local Abbreviation St := (@ArcStore K _ _).
Local Abbreviation M := (stateM (@ArcStore K _ _)).
Local Abbreviation ty := (@ty K).

(** ** Types *)

Lemma ty_nested_ind (P : ty → Prop) :
  P TyPrim → (∀ fields, Forall (λ f, P f.2) fields → P (TyStruct fields)) →
  (∀ t, P t → P (TyOption t)) → (∀ t, P t → P (TyVec t)) → ∀ t, P t.
Proof.
  intros HP HS HO HV. fix IH 1. intros [|fields|t|t]; [exact HP| |apply HO, IH|apply HV, IH].
  apply HS. induction fields as [|[m t] fields IHf]; constructor; [apply IH|exact IHf].
Qed.

Fixpoint has_type (t : ty) (v : data) : Prop :=
  match t, v with
  | TyPrim, VPrim _ => True
  | TyStruct fields, VStruct values => Forall2 (λ (T : data → Prop) v, T v) (map (λ '(_, t), has_type t) fields) values
  | TyOption t, VOption o => match o with Some v => has_type t v | None => True end
  | TyVec t, VVec items => Forall (has_type t) items
  | _, _ => False
  end.

(** No field has the given mode. *)
Fixpoint no_keyed (t : ty) : bool :=
  match t with
  | TyPrim => true
  | TyStruct fields => forallb (λ '(m, t), match m with Keyed _ => false | _ => no_keyed t end) fields
  | TyOption t | TyVec t => no_keyed t
  end.
Fixpoint no_skip (t : ty) : bool :=
  match t with
  | TyPrim => true
  | TyStruct fields => forallb (λ '(m, t), match m with Skip => false | _ => no_skip t end) fields
  | TyOption t | TyVec t => no_skip t
  end.

(** ** Positions *)

Definition seg_of (x : value_step) : nat := match x with IntoField i => i | IntoSome => 0 | IntoItem i => i end.

Definition differ (old v : data) (q : list value_step) : Prop := value_at q old ≠ value_at q v.

Record covers (old v : data) (qs : list (list value_step)) : Prop := mk_covers {
  cov_sound : ∀ q, q ∈ qs → differ old v q;
  cov_complete : ∀ q, differ old v q → ∃ q', q' ∈ qs ∧ comparable q q';
}.

Definition notify_at (path : StorePath) (qs : list (list value_step)) : M unit :=
  for_each notify_path (map (λ q, path ++ map seg_of q) qs).

Definition patched (c : M data) (path : StorePath) (old : data) (qs : list (list value_step)) (v : data) : Prop :=
  (∀ s, c s = (_ ← notify_at path qs; mret v) s) ∧ covers old v qs.

Lemma bind_assoc {A B C} (c : M A) (f : A → M B) (g : B → M C) s :
  (y ← (x ← c; f x); g y) s = (x ← c; y ← f x; g y) s.
Proof. unfold mbind, stateM_bind. by destruct (c s) as [[a s']| |]. Qed.

Lemma bind_ext {A B} (c : M A) (f f' : A → M B) s : (∀ a s', f a s' = f' a s') → (x ← c; f x) s = (x ← c; f' x) s.
Proof. intros Hf. unfold mbind, stateM_bind. destruct (c s) as [[a s']| |]; [apply Hf|done|done]. Qed.

Lemma bind_same {A B} (c c' : M A) (f : A → M B) s : c s = c' s → (x ← c; f x) s = (x ← c'; f x) s.
Proof. unfold mbind, stateM_bind. by intros ->. Qed.

Lemma for_each_app {A} (f : A → M unit) l l' s : for_each f (l ++ l') s = (_ ← for_each f l; for_each f l') s.
Proof.
  revert s. induction l as [|x l IH]; intros s; cbn; [done|]. rewrite bind_assoc. apply bind_ext. intros [] s'. apply IH.
Qed.

Lemma notify_at_app path qs qs' s : notify_at path (qs ++ qs') s = (_ ← notify_at path qs; notify_at path qs') s.
Proof. unfold notify_at. by rewrite map_app, for_each_app. Qed.

(** Positions inside a part *)
Lemma notify_at_in path x qs : notify_at path (map (cons x) qs) = notify_at (path ++ [seg_of x]) qs.
Proof.
  unfold notify_at. f_equal. rewrite map_map. apply map_ext. intros q. cbn. by rewrite <-app_assoc.
Qed.

Lemma differ_in x q old v old' v' : step_get x old = Some old' → step_get x v = Some v' →
  differ old v (x :: q) ↔ differ old' v' q.
Proof. intros E1 E2. unfold differ. cbn. by rewrite E1, E2. Qed.

Lemma comparable_cons {A} (x : A) p q : comparable p q → comparable (x :: p) (x :: q).
Proof. intros [Hp|Hp]; [left|right]; by apply prefix_cons. Qed.

(** ** Items and fields *)

Lemma run_cons (at_ : nat → value_step) (c : M data) (rest : M (list data)) path idx qs v qs' l :
  seg_of (at_ idx) = idx →
  (∀ s, c s = (_ ← notify_at (path ++ [idx]) qs; mret v) s) →
  (∀ s, rest s = (_ ← notify_at path qs'; mret l) s) →
  ∀ s, (v ← c; items ← rest; mret (v :: items)) s = (_ ← notify_at path (map (cons (at_ idx)) qs ++ qs'); mret (v :: l)) s.
Proof.
  intros Hat Hc Hrest s. rewrite (bind_same c _ _ _ (Hc s)), bind_assoc.
  rewrite (bind_same (notify_at path (_ ++ _)) _ _ _ (notify_at_app _ _ _ _)), bind_assoc.
  rewrite notify_at_in, Hat. apply bind_ext. intros [] s1.
  change ((items ← rest; mret (v :: items)) s1 = (_ ← notify_at path qs'; mret (v :: l)) s1).
  etrans; [apply bind_same, Hrest|]. rewrite bind_assoc. by apply bind_ext.
Qed.

Record list_covers (at_ : nat → value_step) (idx : nat) (old l : list data) (qs : list (list value_step)) : Prop := mk_list_covers {
  lc_sound : ∀ q, q ∈ qs → ∃ i q' o v, q = at_ (idx + i) :: q' ∧ old !! i = Some o ∧ l !! i = Some v ∧ differ o v q';
  lc_complete : ∀ i o v q', old !! i = Some o → l !! i = Some v → differ o v q' →
    ∃ q'', at_ (idx + i) :: q'' ∈ qs ∧ comparable q' q'';
}.

Lemma list_covers_nil at_ idx old l : old = [] ∨ l = [] → list_covers at_ idx old l [].
Proof. intros Hnil. split; [set_solver|]. intros i o v q' Ho Hl. by destruct Hnil as [->| ->]. Qed.

Lemma list_covers_cons at_ idx o old v l qs qs' : covers o v qs → list_covers at_ (S idx) old l qs' →
  list_covers at_ idx (o :: old) (v :: l) (map (cons (at_ idx)) qs ++ qs').
Proof.
  intros [C1 C2] [L1 L2]. split.
  - intros q [Hq|Hq]%elem_of_app.
    + apply list_elem_of_fmap in Hq as (q' & -> & Hq'). exists 0, q', o, v. rewrite Nat.add_0_r. split_and!; auto.
    + destruct (L1 _ Hq) as (i & q' & o' & v' & -> & Ho & Hv & Hd). exists (S i), q', o', v'.
      by rewrite Nat.add_succ_r.
  - intros [|i] o' v' q' Ho Hv Hd; cbn in Ho, Hv.
    + injection Ho as ->. injection Hv as ->. destruct (C2 _ Hd) as (q'' & Hq & Hc). exists q''. rewrite Nat.add_0_r.
      split; [|done]. apply elem_of_app. left. apply list_elem_of_fmap. by exists q''.
    + destruct (L2 _ _ _ _ Ho Hv Hd) as (q'' & Hq & Hc). exists q''. rewrite Nat.add_succ_r. split; [|done].
      apply elem_of_app. by right.
Qed.

(** A value made of a list of parts of the same length as before *)
Lemma list_covers_value (mk : list data → data) at_ old l qs :
  (∀ l i, step_get (at_ i) (mk l) = l !! i) → (∀ l x, step_get x (mk l) ≠ None → ∃ i, x = at_ i) →
  length l = length old → list_covers at_ 0 old l qs → covers (mk old) (mk l) qs.
Proof.
  intros Hat Hstep Hlen [L1 L2]. split.
  - intros q (i & q' & o & v & -> & Ho & Hv & Hd)%L1. cbn. by rewrite (differ_in _ _ _ _ o v) by (rewrite Hat; done).
  - intros q Hd. destruct q as [|x q'].
    + destruct (decide (qs = [])) as [->|Hne].
      * exfalso. apply Hd. cbn. do 2 f_equal. apply list_eq_same_length with (length old); [done|done|].
        intros i o v _ Ho Hv. destruct (decide (value_at [] o = value_at [] v)) as [[= E]|Hn]; [done|].
        destruct (L2 _ _ _ [] Ho Hv Hn) as (q'' & Hq & _). by apply elem_of_nil in Hq.
      * destruct qs as [|q qs]; [done|]. exists q. split; [set_solver|]. left. apply prefix_nil.
    + destruct (step_get x (mk old)) as [o|] eqn:Eo.
      * destruct (Hstep old x) as [i ->]; [by rewrite Eo|]. rewrite Hat in Eo.
        destruct (lookup_lt_is_Some_2 l i) as [v Ev]; [rewrite Hlen; by eapply lookup_lt_Some|].
        rewrite (differ_in _ _ _ _ o v) in Hd by (by rewrite Hat).
        destruct (L2 _ _ _ _ Eo Ev Hd) as (q'' & Hq & Hc). exists (at_ (0 + i) :: q''). split; [done|]. by apply comparable_cons.
      * exfalso. apply Hd. cbn. rewrite Eo. destruct (step_get x (mk l)) as [v|] eqn:Ev; [|done].
        destruct (Hstep l x) as [i ->]; [by rewrite Ev|]. rewrite Hat in Eo, Ev. apply lookup_ge_None in Eo.
        apply lookup_lt_Some in Ev. lia.
Qed.

Lemma lookup_map {A B} (f : A → B) (l : list A) i :
  map f l !! i = match l !! i with Some x => Some (f x) | None => None end.
Proof. revert i. induction l as [|x l IH]; intros [|i]; cbn; [done|done|done|apply IH]. Qed.

Lemma forallb_map {A B} (f : B → bool) (g : A → B) l : forallb f (map g l) = forallb (λ x, f (g x)) l.
Proof. induction l as [|x l IH]; cbn; [done|]. by rewrite IH. Qed.

(** The patch of a part, as the lemmas below assume it *)
Definition patches_to (c : M data) (path : StorePath) (ex : Prop) (new old : data) : Prop :=
  ∃ qs v, patched c path old qs v ∧ (ex → v = new).

Lemma zip_patch_ok (patch : data → data → StorePath → M data) path (ex : Prop) new old idx :
  (∀ n o p, n ∈ new → o ∈ old → patches_to (patch n o p) p ex n o) →
  ∃ qs l, (∀ s, zip_patch patch path idx new old s = (_ ← notify_at path qs; mret l) s) ∧
    list_covers IntoItem idx old l qs ∧ length l = length new ∧ (ex → l = new).
Proof.
  revert old idx. induction new as [|n new IH]; intros old idx Hp.
  { exists [], []. cbn. split_and!; [by destruct old|apply list_covers_nil; by right|done|done]. }
  destruct old as [|o old].
  { exists [], (n :: new). cbn. split_and!; [done|apply list_covers_nil; by left|done|done]. }
  destruct (Hp n o (path ++ [idx])) as (qs & v & [Hrun Hcov] & Hex); [set_solver..|].
  destruct (IH old (S idx)) as (qs' & l & Hrun' & Hcov' & Hlen & Hex'); [intros; apply Hp; set_solver|].
  exists (map (cons (IntoItem idx)) qs ++ qs'), (v :: l). split_and!.
  - by apply run_cons.
  - by apply list_covers_cons.
  - cbn. by rewrite Hlen.
  - intros E. by rewrite Hex, Hex'.
Qed.

Lemma patch_fields_ok (fs : list (nat → data → data → M data)) (exs : list bool) path new old idx :
  length fs = length new → length fs = length old → length fs = length exs →
  (∀ i f n o ex, fs !! i = Some f → new !! i = Some n → old !! i = Some o → exs !! i = Some ex →
     patches_to (f (idx + i) n o) (path ++ [idx + i]) (ex = true) n o) →
  ∃ qs l, (∀ s, patch_fields fs idx new old s = (_ ← notify_at path qs; mret l) s) ∧
    list_covers IntoField idx old l qs ∧ length l = length old ∧ (forallb id exs = true → l = new).
Proof.
  revert exs new old idx. induction fs as [|f fs IH]; intros [|ex exs] [|n new] [|o old] idx Hn Ho He Hp; try done.
  { exists [], []. split_and!; [done|apply list_covers_nil; by left|done|done]. }
  cbn in Hn, Ho, He. injection Hn as Hn. injection Ho as Ho. injection He as He.
  destruct (Hp 0 f n o ex) as (qs & v & [Hrun Hcov] & Hex); [done..|]. rewrite Nat.add_0_r in Hrun.
  destruct (IH exs new old (S idx)) as (qs' & l & Hrun' & Hcov' & Hlen & Hex'); [done..|intros i g n' o' ex' Hg Hn' Ho' He'|].
  { rewrite Nat.add_succ_comm. apply (Hp (S i)); done. }
  exists (map (cons (IntoField idx)) qs ++ qs'), (v :: l). split_and!.
  - by apply run_cons.
  - by apply list_covers_cons.
  - cbn. by rewrite Hlen.
  - cbn. rewrite andb_true_iff. intros [E E']. by rewrite Hex, Hex'.
Qed.

(** Nothing is notified, or the whole value *)
Lemma patched_nothing path v : patched (mret v) path v [] v.
Proof. split; [done|]. split; [set_solver|]. intros q Hq. by destruct Hq. Qed.

Lemma notify_one path s {A} (a : A) : (_ ← notify_path path; mret a) s = (_ ← notify_at path [[]]; mret a) s.
Proof.
  unfold notify_at. cbn. rewrite app_nil_r, bind_assoc. apply bind_ext. by intros [] s'.
Qed.

Lemma patched_whole path old v : old ≠ v → patched (_ ← notify_path path; mret v) path old [[]] v.
Proof.
  intros Hn. split; [intros s; apply notify_one|]. split.
  - intros q ->%list_elem_of_singleton. intros [= E]. by destruct Hn.
  - intros q _. exists []. split; [set_solver|]. right. apply prefix_nil.
Qed.

(** A value around other values, whose patch does nothing else *)
Lemma patched_map {A} (c : M A) path old qs a v (f : A → data) :
  (∀ s, c s = (_ ← notify_at path qs; mret a) s) → f a = v → covers old v qs →
  patched (x ← c; mret (f x)) path old qs v.
Proof.
  intros Hc <- Hcov. split; [|done]. intros s. rewrite (bind_same _ _ _ _ (Hc s)), bind_assoc. by apply bind_ext.
Qed.

Lemma some_covers old v qs : covers old v qs → covers (VOption (Some old)) (VOption (Some v)) (map (cons IntoSome) qs).
Proof.
  intros [C1 C2]. split.
  - intros q (q' & -> & Hq)%list_elem_of_fmap. by apply C1.
  - intros [|[i| |i] q] Hd.
    + destruct (C2 []) as (q' & Hq & _); [unfold differ in *; cbn in *; congruence|].
      exists (IntoSome :: q'). split; [apply list_elem_of_fmap; by exists q'|left; apply prefix_nil].
    + by destruct Hd.
    + destruct (C2 q Hd) as (q' & Hq & Hc). exists (IntoSome :: q').
      split; [apply list_elem_of_fmap; by exists q'|by apply comparable_cons].
    + by destruct Hd.
Qed.

Lemma struct_covers old l qs : length l = length old → list_covers IntoField 0 old l qs → covers (VStruct old) (VStruct l) qs.
Proof. apply list_covers_value; [done|]. intros k [i| |i] Hx; cbn in Hx; try done. by exists i. Qed.

Lemma vec_covers old l qs : list_covers IntoItem 0 old l qs →
  covers (VVec old) (VVec l) (qs ++ if length l =? length old then [] else [[]]).
Proof.
  intros Hc. destruct (Nat.eqb_spec (length l) (length old)) as [E|E].
  { rewrite app_nil_r. apply (list_covers_value VVec IntoItem); [done| |done|done].
    intros k [i| |i] Hx; cbn in Hx; try done. by exists i. }
  split.
  - intros q [Hq| ->%list_elem_of_singleton]%elem_of_app; [|intros [= Eq]; by rewrite Eq in E].
    destruct (lc_sound _ _ _ _ _ Hc q Hq) as (i & q' & o & v & -> & Ho & Hv & Hd).
    by rewrite (differ_in _ _ _ _ o v).
  - intros q _. exists []. split; [set_solver|]. right. apply prefix_nil.
Qed.

(** The patch of a type without keyed collections *)
Lemma patch_field_ok t : no_keyed t = true → ∀ new old path, has_type t new → has_type t old →
  patches_to (patch_field t new old path) path (no_skip t = true) new old.
Proof.
  induction t as [|fields IH|t IH|t IH] using ty_nested_ind; intros Hk new old path Hn Ho.
  - destruct new, old; try done. cbn. destruct (decide (z ≠ z0)) as [Hz|Hz].
    + exists [[]], (VPrim z). split; [apply patched_whole; congruence|done].
    + exists [], (VPrim z0). split; [apply patched_nothing|]. intros _. f_equal. by destruct (decide (z = z0)).
  - destruct new as [|new| |], old as [|old| |]; try done. cbn in Hn, Ho, Hk.
    destruct (patch_fields_ok (map (λ '(m, t), λ idx n o,
      match m with
      | Skip => mret o
      | Plain => patch_field t n o (path ++ [idx])
      | Keyed key_fn =>
          match t, n, o with
          | TyVec t, VVec n, VVec o =>
              r ← patch_field_keyed (patch_field t) (derived_path_at_key path) key_fn n o;
              let '(items, structure_changed) := r in
              _ ← (if (structure_changed : bool) then notify_path (path ++ [idx]) else mret tt);
              mret (VVec items)
          | _, _, _ => panics
          end
      end) fields) (map (λ '(m, t), match m with Skip => false | _ => no_skip t end) fields) path new old 0)
      as (qs & l & Hrun & Hcov & Hlen & Hex).
    + apply Forall2_length in Hn. by rewrite length_map in *.
    + apply Forall2_length in Ho. by rewrite length_map in *.
    + by rewrite !length_map.
    + intros i f n o ex Hf Hn' Ho' Hex'. rewrite lookup_map in Hf. rewrite lookup_map in Hex'.
      destruct (fields !! i) as [[m t]|] eqn:Ei; cbn in Hf, Hex'; [|done]. injection Hf as <-. injection Hex' as <-.
      rewrite Forall_lookup in IH. specialize (IH _ _ Ei). cbn in IH.
      destruct (Forall2_lookup_r _ _ _ _ _ Hn Hn') as (Tn & En & Hnt). destruct (Forall2_lookup_r _ _ _ _ _ Ho Ho') as (To & Eo & Hot).
      rewrite lookup_map, Ei in En. rewrite lookup_map, Ei in Eo. cbn in En, Eo. injection En as <-. injection Eo as <-.
      rewrite forallb_forall in Hk. specialize (Hk (m, t)). cbn in Hk.
      rewrite <-list_elem_of_In in Hk. specialize (Hk ltac:(by eapply list_elem_of_lookup_2)).
      destruct m; [|done|]; cbn.
      * apply IH; done.
      * exists [], o. split; [apply patched_nothing|done].
    + exists qs, (VStruct l). split; [|intros E; rewrite Hex; [done|]; rewrite forallb_map; etrans; [|exact E]; f_equal].
      cbn. eapply patched_map; [exact Hrun|done|]. by apply struct_covers.
  - destruct new as [| |new|], old as [| |old|]; try done. cbn. destruct old as [old|], new as [new|].
    + destruct (IH Hk new old (path ++ [0]) Hn Ho) as (qs & v & [Hrun Hcov] & Hex).
      exists (map (cons IntoSome) qs), (VOption (Some v)). split; [|intros; by rewrite Hex].
      eapply (patched_map _ _ _ _ v); [|done|by apply some_covers]. intros s. rewrite notify_at_in. apply Hrun.
    + exists [[]], (VOption None). split; [by apply patched_whole|done].
    + exists [[]], (VOption (Some new)). split; [by apply patched_whole|done].
    + exists [], (VOption None). split; [apply patched_nothing|done].
  - destruct new as [| | |new], old as [| | |old]; try done. cbn in Hn, Ho.
    destruct new as [|n new], old as [|o old].
    + exists [], (VVec []). split; [apply patched_nothing|done].
    + exists [[]], (VVec []). split; [by apply patched_whole|done].
    + exists [[]], (VVec (n :: new)). split; [by apply patched_whole|done].
    + destruct (zip_patch_ok (patch_field t) path (no_skip t = true) (n :: new) (o :: old) 0) as (qs & l & Hrun & Hcov & Hlen & Hex).
      { intros n' o' p Hn' Ho'. rewrite Forall_forall in Hn, Ho. by apply IH; [|apply Hn|apply Ho]. }
      exists (qs ++ if length l =? length (o :: old) then [] else [[]]), (VVec l).
      split; [split; [|by apply vec_covers]|intros; by rewrite Hex].
      intros s. change (patch_field (TyVec t) (VVec (n :: new)) (VVec (o :: old)) path s) with
        ((items ← zip_patch (patch_field t) path 0 (n :: new) (o :: old);
          _ ← (if length (n :: new) =? length (o :: old) then mret tt else notify_path path); mret (VVec items)) s).
      rewrite (bind_same _ _ _ _ (Hrun s)), bind_assoc.
      rewrite (bind_same (notify_at path (_ ++ _)) _ _ _ (notify_at_app _ _ _ _)), bind_assoc, Hlen.
      apply bind_ext. intros [] s'. destruct (_ =? _); [done|]. apply (notify_one path s' (VVec l)).
Qed.
End patch_facts.

(** * Theorems on patches *)

Section patch_props.
Context {K : Type} `{Countable K}.
Variable visit_keys : gmap K (nat * nat) → list (K * (nat * nat)).
Variable visit_new : gmap K nat → list (K * nat).

Local Abbreviation St := (@ArcStore K _ _).
Local Abbreviation M := (stateM (@ArcStore K _ _)).
Local Abbreviation accessor := (accessor visit_keys visit_new).
Local Abbreviation ty := (@ty K).

(** ** Paths by index *)

Fixpoint at_keys (f : @field K) : nat :=
  match f with
  | FRoot => 0
  | FField g _ | FSome g | FIndex g _ | FKeyed g _ _ => at_keys g
  | FAtKey g _ _ _ => S (at_keys g)
  end.

Lemma path_is_segments (s : St) f p st : at_keys f = 0 → resolved s f = Some (p, st) → p = map seg_of st.
Proof.
  revert p st. induction f as [|f IH i|f IH|f IH i|f IH i kf|f IH i kf k]; intros p st Ha Hr; cbn in Ha, Hr; [by injection Hr as <- <-|..|done];
    (destruct (resolved s f) as [[p0 st0]|]; cbn in Hr; [|done]);
    (destruct (value_at _ _); cbn in Hr; [|done]); injection Hr as <- <-;
    rewrite map_app; cbn; by rewrite <-(IH _ _ Ha eq_refl).
Qed.

Lemma path_unkeyed_ok (s : St) f p st : at_keys f ≤ 1 → resolved s f = Some (p, st) →
  path_unkeyed (accessor f) s = Ok (map seg_of st, s).
Proof.
  revert p st. induction f as [|f IH i|f IH|f IH i|f IH i kf|f IH i kf k]; intros p st Ha Hr.
  6: { pose proof (resolve_at_key s f i kf k p st Hr) as (p0 & st0 & keys & seg & idx & l & v & Hg & _ & _ & Hk & Hget & _ & _ & -> & ->).
       cbn in Ha. pose proof (IH _ _ ltac:(lia) Hg) as Hp.
       pose proof (path_is_segments s f _ _ ltac:(lia) Hg) as E.
       cbn. unfold get_keyed. step_with (push_path_ok i _ _ _ Hp). rewrite <-E.
       pose proof (with_keys_ok s _ _ (λ keys, ((fk_get k keys, []), keys)) (latest_keys (accessor f) i kf) _ Hk eq_refl) as Hw.
       step_with Hw. rewrite Hget, !map_app, <-E. done. }
  1: by injection Hr as <- <-.
  all: cbn in Ha, Hr |- *; (destruct (resolved s f) as [[p0 st0]|]; cbn in Hr; [|done]);
    (destruct (value_at _ _); cbn in Hr; [|done]); injection Hr as <- <-;
    rewrite map_app; apply push_path_ok; by eapply IH.
Qed.

(** The path with keys, when the indexes on the way are registered *)
Fixpoint to_keyed (s : St) (d u : StorePath) : option StorePath :=
  match u with
  | [] => Some d
  | x :: u =>
      seg ← match st_keys s !! d with Some _ => st_index_keys s !! (d, x) | None => Some x end;
      to_keyed s (d ++ [seg]) u
  end.

Lemma keyed_path_ok (s : St) d u :
  keyed_path d u s = match to_keyed s d u with Some p => Ok (p, s) | None => Panic end.
Proof.
  revert d. induction u as [|x u IH]; intros d; [done|]. cbn [keyed_path to_keyed].
  unfold gets, mbind, stateM_bind, option_bind, unwrapM, mret, stateM_ret.
  destruct (st_keys s !! d); [rewrite bool_decide_true by done|rewrite bool_decide_false by (intros [? ?]; done)].
  - destruct (st_index_keys s !! (d, x)); [apply IH|done].
  - apply IH.
Qed.

Lemma to_keyed_ext (s s1 : St) d u : st_keys s1 = st_keys s → st_index_keys s1 = st_index_keys s →
  to_keyed s1 d u = to_keyed s d u.
Proof.
  intros Ek Ei. revert d. induction u as [|x u IH]; intros d; cbn; [done|]. rewrite Ek, Ei.
  by destruct (match st_keys s !! d with Some _ => _ | None => _ end); cbn.
Qed.

Lemma to_keyed_app (s : St) d u r q : to_keyed s d u = Some q → to_keyed s d (u ++ r) = to_keyed s q r.
Proof.
  revert d. induction u as [|x u IH]; intros d; cbn; [by intros [= ->]|].
  destruct (match st_keys s !! d with Some _ => _ | None => _ end) as [seg|]; cbn; [apply IH|done].
Qed.

Lemma to_keyed_length (s : St) d u q : to_keyed s d u = Some q → ∃ r, q = d ++ r ∧ length r = length u.
Proof.
  revert d. induction u as [|x u IH]; intros d; cbn; [intros [= <-]; exists []; by rewrite app_nil_r|].
  destruct (match st_keys s !! d with Some _ => _ | None => _ end) as [seg|]; cbn; [|done].
  intros (r & -> & Hr)%IH. exists (seg :: r). rewrite <-app_assoc. cbn. by rewrite Hr.
Qed.

(** Each ancestor has its own path with keys. *)
Lemma to_keyed_take (s : St) u q r : to_keyed s [] u = Some q → r `prefix_of` u →
  to_keyed s [] r = Some (take (length r) q).
Proof.
  intros Hu [r' ->]. destruct (to_keyed s [] r) as [q0|] eqn:E.
  - rewrite (to_keyed_app _ _ _ _ _ E) in Hu. destruct (to_keyed_length _ _ _ _ E) as (q1 & -> & Hlen).
    destruct (to_keyed_length _ _ _ _ Hu) as (q2 & -> & _). cbn. rewrite <-Hlen. by rewrite take_app_length.
  - exfalso. revert E Hu. generalize (@nil nat) as d. induction r as [|x r IH]; intros d; cbn; [done|].
    destruct (match st_keys s !! d with Some _ => _ | None => _ end) as [seg|]; cbn; [apply IH|done].
Qed.

Lemma map_take_ancestors (u q : StorePath) : length u = length q →
  map (λ r, (take (length r) q, false)) (ancestors u) = map (., false) (ancestors q).
Proof.
  intros Hlen. rewrite <-(map_map (λ r, take (length r) q) (., false)). f_equal.
  revert q Hlen. induction u as [|x u IH]; intros [|y q] Hlen; try done. cbn. injection Hlen as Hlen.
  rewrite map_app, map_map. cbn. f_equal. rewrite <-(IH q Hlen), map_map. done.
Qed.

(** What the closure of a patch notifies *)
Lemma notify_path_ok (s : St) u q : triggers_wf s → to_keyed s [] u = Some q → runs (notify_path u) s [] (written_triggers q) (λ _ _, True).
Proof.
  intros Hw Hu. destruct (to_keyed_length _ _ _ _ Hu) as (q' & Eq & Hlen). cbn in Eq. subst q'.
  unfold notify_path. eapply runs_bind_quiet.
  { apply (triggers_for_path_ok get_trigger_unkeyed (λ r, take (length r) q)); [done|].
    intros r s1 Hr D1 W1. unfold get_trigger_unkeyed.
    assert (keyed_path [] r s1 = Ok (take (length r) q, s1)) as Hk.
    { by rewrite keyed_path_ok, (to_keyed_ext s s1), (to_keyed_take _ _ _ _ Hu Hr) by apply D1. }
    eapply runs_eq; [exact Hk|]. by apply get_trigger_ok. }
  cbn beta. intros ts s1 D1 T1 Hts. apply notify_all_ok; [apply T1|].
  rewrite map_take_ancestors in Hts by done. rewrite take_ge in Hts by (by rewrite Hlen). exact Hts.
Qed.

Lemma notify_at_ok (s : St) path qs (to : list value_step → StorePath) : triggers_wf s →
  (∀ q, q ∈ qs → to_keyed s [] (path ++ map seg_of q) = Some (to q)) →
  runs (notify_at path qs) s [] (concat (map (λ q, written_triggers (to q)) qs)) (λ _ _, True).
Proof.
  intros Hw Hto. unfold notify_at. revert s Hw Hto. induction qs as [|q qs IH]; intros s Hw Hto; [by apply runs_ret|].
  apply (runs_bind _ _ _ [] [] _ _ (λ _ _, True)).
  - apply notify_path_ok; [done|]. apply Hto. set_solver.
  - intros _ s1 D1 T1 _. apply IH; [apply T1|]. intros q' Hq'.
    rewrite (to_keyed_ext s s1) by apply D1. apply Hto. set_solver.
Qed.

(** Inside a part without keyed collections *)
Lemma to_keyed_plain (s : St) p q : (∀ r, st_keys s !! (p ++ r) = None) → to_keyed s p q = Some (p ++ q).
Proof.
  revert p. induction q as [|x q IH]; intros p Hp; cbn; [by rewrite app_nil_r|].
  specialize (Hp []) as Hp0. rewrite app_nil_r in Hp0. rewrite Hp0. cbn.
  rewrite IH; [by rewrite <-app_assoc|]. intros r. rewrite <-app_assoc. apply Hp.
Qed.

Lemma located_inside (s : St) T p st t v q w : placed s T p st t None → no_keyed t = true → has_type t v →
  value_at q v = Some w → ∃ t', placed s T (p ++ map seg_of q) (st ++ q) t' None.
Proof.
  revert p st t v. induction q as [|x q IH]; intros p st t v Hl Hk Ht Hv; cbn.
  { rewrite !app_nil_r. by exists t. }
  assert (∃ t' v', edge s p st t None (seg_of x) x t' None ∧ no_keyed t' = true ∧ has_type t' v' ∧ value_at q v' = Some w)
    as (t' & v' & He & Hk' & Ht' & Hv').
  { cbn in Hv. destruct (step_get x v) as [v'|] eqn:Ex; cbn in Hv; [|done].
    destruct x as [i| |i], v as [|l|[]|l], t as [|fields|t|t]; cbn in Ex, Ht, Hk |- *; try done.
    - destruct (Forall2_lookup_r _ _ _ _ _ Ht Ex) as (P & HP & Hv'). rewrite lookup_map in HP.
      destruct (fields !! i) as [[m t]|] eqn:Ei; [|done]. injection HP as <-.
      rewrite forallb_forall in Hk. specialize (Hk (m, t)). cbn in Hk. rewrite <-list_elem_of_In in Hk.
      specialize (Hk ltac:(by eapply list_elem_of_lookup_2)).
      exists t, v'. destruct m; [|done|]; (split_and!; [by eapply edge_field|done..]).
    - injection Ex as ->. exists t, v'. split_and!; [constructor|done..].
    - rewrite Forall_lookup in Ht. exists t, v'. split_and!; [constructor|done|by eapply Ht|done]. }
  destruct (IH (p ++ [seg_of x]) (st ++ [x]) t' v') as (t'' & Hl'); [by econstructor|done..|].
  rewrite <-!app_assoc in Hl'. by exists t''.
Qed.

(** ** Patches of fields without keyed collections *)

(** The indexes that lead to the field are registered, and nothing keyed is
    inside. *)
Record patchable (s : St) (g : @field K) (t : ty) (q : StorePath) (st : list value_step) (old new : data) : Prop := mk_patchable {
  pa_resolve : resolved s g = Some (q, st);
  pa_depth : at_keys g ≤ 1;
  pa_indexed : to_keyed s [] (map seg_of st) = Some q;
  pa_inside : ∀ r, st_keys s !! (q ++ r) = None;
  pa_type : no_keyed t = true ∧ no_skip t = true;
  pa_new : has_type t new;
  pa_old : has_type t old;
  pa_value : value_at st (st_value s) = Some old;
}.

Lemma patch_ok (s : St) g t q st old new : triggers_wf s → st_locked s = false → patchable s g t q st old new →
  ensures (patch visit_keys visit_new t g new) s (λ _ s',
    st_value s' = update_at st (λ _, new) (st_value s) ∧ st_locked s' = false ∧
    ∃ qs, covers old new qs ∧ traced s s' [] (concat (map (λ r, written_triggers (q ++ map seg_of r)) qs))).
Proof.
  intros Hw Hl [Hr Hd Hi Hin [Hk Hs] Hn Ho Hv]. unfold patch.
  eapply ensures_eq; [by eapply path_unkeyed_ok|].
  eapply ensures_bind; [by apply writer_ok|]. intros r s1 (gd & -> & Hgi & D1 & T1 & _).
  destruct gd as [gi gt]. cbn in Hgi. subst gi. pose proof D1 as (Ev & _ & Ek & Ei). cbn in Ev, Ek, Ei.
  eapply ensures_eq; [apply deref_ok; by rewrite Ev|].
  destruct (patch_field_ok t Hk new old (map seg_of st) Hn Ho) as (qs & v & [Hrun Hcov] & Hex).
  rewrite (Hex Hs) in *.
  eapply ensures_bind with (R := λ v s2, v = new ∧ same_data s1 s2 ∧
    traced s1 s2 [] (concat (map (λ r, written_triggers (q ++ map seg_of r)) qs))).
  { eapply ensures_same; [apply Hrun|]. eapply ensures_bind.
    { apply (notify_at_ok s1 _ qs (λ r, q ++ map seg_of r)); [apply T1|]. intros r _.
      rewrite (to_keyed_ext s s1) by done. rewrite (to_keyed_app s _ _ _ q) by done. by apply to_keyed_plain. }
    intros _ s2 (D2 & T2 & _). by apply ensures_ret. }
  intros w s2 (-> & D2 & T2). apply ensures_modify. unfold drop_guard. apply ensures_modify. cbn [guard_untrack g_inner g_triggers app for_each].
  apply ensures_ret. split_and!; [cbn; f_equal; rewrite (proj1 D2); exact Ev|done|].
  exists qs. split; [done|]. rewrite <-(app_nil_r (concat _)).
  apply (traced_trans s s2 _ [] [] _ []); [by apply (traced_trans s s1 s2 [] [] [] _)|].
  apply traced_refl; [apply T2|done..].
Qed.

Lemma update_at_same p f v : (∀ x, value_at p v = Some x → f x = x) → update_at p f v = v.
Proof.
  revert v. induction p as [|x p IH]; intros v Hf; cbn; [by apply Hf|].
  destruct (step_get x v) as [w|] eqn:E; [|done]. rewrite IH.
  - destruct x, v as [|l|[]|l]; cbn in *; try done; try (by rewrite list_insert_id). by injection E as ->.
  - intros y Hy. apply Hf. cbn. by rewrite E.
Qed.

Lemma value_at_prefix_same p q v w r : value_at p v = Some r → value_at p w = Some r → p `prefix_of` q → value_at q v = value_at q w.
Proof. intros Hv Hw [r' ->]. by rewrite !value_at_app, Hv, Hw. Qed.

(** Which readers a patch reaches *)
Lemma patch_meets T1 (s s2 : St) f g tf t p st q st' old new qs :
  keys_wf s → st_tracked s = [] → st_notified s = [] →
  typed T1 f tf → typed T1 g t → is_keyed g = None → resolved s f = Some (p, st) → patchable s g t q st' old new →
  covers old new qs → traced s s2 (read_triggers p) (concat (map (λ r, written_triggers (q ++ map seg_of r)) qs)) →
  (∃ x, x ∈ st_tracked s2 ∧ x ∈ st_notified s2) ↔ ∃ r, r ∈ qs ∧ comparable st (st' ++ r).
Proof.
  intros Hk Ht Hn Tf Tg Kg Rf [Rg Hd Hi Hin [Hnk Hns] Hnew Hold Hv'] [C1 C2] T.
  pose proof (resolve_located _ _ _ _ _ _ Tf Rf) as Lf. pose proof (resolve_located _ _ _ _ _ _ Tg Rg) as Lg. rewrite Kg in Lg.
  assert (∀ r, differ old new r → comparable p (q ++ map seg_of r) ↔ comparable st (st' ++ r)) as Hcmp.
  { intros r Hr. assert (∃ t', placed s T1 (q ++ map seg_of r) (st' ++ r) t' None) as [t' Lr].
    { destruct (value_at r old) as [w|] eqn:E1; [exact (located_inside s T1 q st' t old r w Lg Hnk Hold E1)|].
      destruct (value_at r new) as [w|] eqn:E2; [exact (located_inside s T1 q st' t new r w Lg Hnk Hnew E2)|].
      destruct Hr. by rewrite E1, E2. }
    unfold comparable. f_equiv; by eapply located_prefix. }
  rewrite (meet_ok s s2 _ _ Ht Hn T). split.
  - intros (x & Hx & Hx'). apply list_elem_of_In, in_concat in Hx' as (ws & Hws & Hx').
    apply in_map_iff in Hws as (r & <- & Hr). apply list_elem_of_In in Hr, Hx'. exists r. split; [done|].
    apply Hcmp; [by apply C1|]. apply reads_writes. by exists x.
  - intros (r & Hr & Hc). apply Hcmp in Hc; [|by apply C1]. apply reads_writes in Hc as (x & Hx & Hx').
    exists x. split; [done|]. apply list_elem_of_In, in_concat. exists (written_triggers (q ++ map seg_of r)).
    split; [apply in_map_iff; exists r; split; [done|by apply list_elem_of_In]|by apply list_elem_of_In].
Qed.

(** A part that is not what it was is above or below a position that is
    notified. *)
Lemma changed_is_covered v st st' old new qs : value_at st' v = Some old → covers old new qs →
  value_at st (update_at st' (λ _, new) v) ≠ value_at st v → ∃ r, r ∈ qs ∧ comparable st (st' ++ r).
Proof.
  intros Hv' [C1 C2] Hch. destruct (decide (st' `prefix_of` st)) as [[r ->]|Hnp].
  - rewrite (value_at_update_app _ _ _ _ _ Hv'), value_at_app, Hv' in Hch.
    destruct (C2 r) as (r' & Hr' & Hc); [intros E; by apply Hch|]. exists r'. split; [done|].
    destruct Hc as [Hc|Hc]; [left|right]; by apply prefix_app.
  - destruct (decide (st `prefix_of` st')) as [Hp|Hnp'].
    + destruct (C2 []) as (r' & Hr' & _).
      { intros [= E]. apply Hch. rewrite update_at_same; [done|]. intros x. rewrite Hv'. congruence. }
      exists r'. split; [done|]. left. etrans; [exact Hp|]. by apply prefix_app_r.
    + destruct Hch. apply value_at_update_incomparable. intros [?|?]; done.
Qed.

(** C17: A patch notifies what it changes.  A field [f] is read while an observer
    tracks it, then a field [g] is patched with a new value of its type, where [g]
    is [patchable]: it has no keyed collections and no skipped fields inside, none
    was accessed below it, at most one key leads to it, and the indexes on the way
    are registered.  The new value is stored; if the part that was read is not what
    it was the observer is notified; and it is notified only if some part that
    differs contains what was read or is contained in it.  A patch with the value
    that is there notifies nothing. *)
Theorem patch_notifies_changes T (s : St) f g tf t p st q st' old new :
  triggers_wf s → keys_wf s → st_locked s = false → st_tracked s = [] → st_notified s = [] →
  typed T f tf → typed T g t → is_keyed g = None → resolved s f = Some (p, st) → patchable s g t q st' old new →
  ∃ v s1 s2,
    try_get visit_keys visit_new f s = Ok (Some v, s1) ∧ patch visit_keys visit_new t g new s1 = Ok (tt, s2) ∧
    st_value s2 = update_at st' (λ _, new) (st_value s) ∧
    (value_at st (st_value s2) ≠ Some v → ∃ x, x ∈ st_tracked s2 ∧ x ∈ st_notified s2) ∧
    ((∃ x, x ∈ st_tracked s2 ∧ x ∈ st_notified s2) →
       ∃ r, value_at r (st_value s2) ≠ value_at r (st_value s) ∧ comparable st r) ∧
    (new = old → st_notified s2 = []).
Proof.
  intros Hw Hk Hl Ht Hn Tf Tg Kg Rf Hpa. pose proof Hpa as [Rg Hd Hi Hin _ Hnew Hold Hv'].
  destruct (resolve_present _ _ _ _ Rf) as [v Hv].
  destruct (ensures_run _ _ _ (try_get_ok visit_keys visit_new _ _ _ _ Hw Hl Rf)) as (r & s1 & Hget & D1 & T1 & ->).
  pose proof D1 as (Ev & El & Ek & Ei).
  assert (patchable s1 g t q st' old new) as Hpa1.
  { split; [by etrans; [apply resolve_ext|]|done|by rewrite (to_keyed_ext s s1)|by rewrite Ek|apply Hpa|done|done|by rewrite Ev]. }
  destruct (ensures_run _ _ _ (patch_ok s1 g t q st' old new (tr_wf _ _ _ _ T1) ltac:(by rewrite El) Hpa1))
    as ([] & s2 & Hrun & Ev2 & _ & qs & Hcov & T2).
  rewrite Ev in Ev2. rewrite Hv in Hget. exists v, s1, s2.
  pose proof (traced_trans _ _ _ _ _ _ _ T1 T2) as T12. rewrite app_nil_r in T12. cbn in T12.
  pose proof (patch_meets T s s2 f g tf t p st q st' old new qs Hk Ht Hn Tf Tg Kg Rf Hpa Hcov T12) as Hmeet.
  split_and!; [done|done|done| | |].
  - rewrite Ev2, Hmeet, <-Hv. by apply changed_is_covered with old.
  - intros (r & Hr & Hc)%Hmeet. exists (st' ++ r). split; [|done].
    rewrite Ev2, (value_at_update_app _ _ _ _ _ Hv'), value_at_app, Hv'. intros E. by apply (cov_sound _ _ _ Hcov r Hr).
  - intros ->. destruct qs as [|r qs]; [|by destruct (cov_sound _ _ _ Hcov r); [set_solver|]].
    destruct (tr_notified _ _ _ _ T12) as (ns & -> & Hns). rewrite Hn. by apply Forall2_nil_inv_l in Hns.
Qed.
End patch_props.
