(* ===== verification/PatchKeyedProps.v ===== *)
(** * Patches of keyed collections

    The loops of [patch_field_keyed]: the items that stay are patched where they
    were, and end up where the new list has them. *)

From stdpp Require Import base gmap list.
From S2P Require Import Prelude FieldKeys Stores Patch StoreAccess StoreProps PatchProps.

Section patch_keyed.
Context {K : Type} `{Countable K}.
Variable visit_keys : gmap K (nat * nat) → list (K * (nat * nat)).
Variable visit_new : gmap K nat → list (K * nat).

Local Abbreviation St := (@ArcStore K _ _).
Local Abbreviation M := (stateM (@ArcStore K _ _)).
Local Abbreviation accessor := (accessor visit_keys visit_new).
Local Abbreviation ty := (@ty K).

Variable kf : data → K.

(** ** The two tables *)

Lemma same_key l i j a b : NoDup (map kf l) → l !! i = Some a → l !! j = Some b → kf a = kf b → i = j ∧ a = b.
Proof.
  intros Hn Ha Hb Hk. assert (i = j) as ->; [|split; [done|congruence]].
  eapply NoDup_lookup; [exact Hn|rewrite lookup_map, Ha; done|rewrite lookup_map, Hb, Hk; done].
Qed.

Fixpoint entries (n : nat) (l : list data) : list (K * (nat * data)) :=
  match l with
  | [] => []
  | v :: l => (kf v, (n, v)) :: entries (S n) l
  end.

Lemma elem_entries n l k idx v : (k, (idx, v)) ∈ entries n l ↔ ∃ i, idx = n + i ∧ l !! i = Some v ∧ k = kf v.
Proof.
  revert n. induction l as [|w l IH]; intros n; cbn; [rewrite elem_of_nil; naive_solver|].
  rewrite elem_of_cons, IH. split.
  - intros [[= -> -> ->]|(i & -> & Hi & ->)]; [exists 0; by rewrite Nat.add_0_r|exists (S i); by rewrite Nat.add_succ_r].
  - intros ([|i] & -> & Hi & ->); cbn in Hi; [left; injection Hi as ->; by rewrite Nat.add_0_r|right].
    exists i. by rewrite Nat.add_succ_r.
Qed.

Lemma index_map_insert_new {V} (k : K) (v : V) l : k ∉ map fst l → index_map_insert k v l = l ++ [(k, v)].
Proof.
  induction l as [|[k' v'] l IH]; cbn; [done|]. intros Hk. rewrite decide_False by set_solver. rewrite IH by set_solver. done.
Qed.

Lemma new_keyed_ok l acc n : NoDup (map fst acc ++ map kf l) →
  foldl (λ l p, index_map_insert (kf p.2) p l) acc (imap (λ i v, (n + i, v)) l) = acc ++ entries n l.
Proof.
  revert acc n. induction l as [|v l IH]; intros acc n Hn; cbn; [by rewrite app_nil_r|].
  rewrite index_map_insert_new.
  2: { apply NoDup_app in Hn as (_ & Hn & _). intros Hv. apply (Hn _ Hv). cbn. set_solver. }
  rewrite Nat.add_0_r. assert (imap ((λ i v, (n + i, v)) ∘ S) l = imap (λ i v, (S n + i, v)) l) as ->.
  { apply imap_ext. intros i x _. cbn. by rewrite Nat.add_succ_r. }
  rewrite IH; [by rewrite <-app_assoc|]. rewrite map_app. cbn. by rewrite <-app_assoc.
Qed.

Lemma old_keyed_ok l (m : gmap K (nat * data)) n k e : NoDup (map kf l) → (∀ k, k ∈ map kf l → m !! k = None) →
  foldl (λ m p, <[kf p.2 := p]> m) m (imap (λ i v, (n + i, v)) l) !! k = Some e ↔ m !! k = Some e ∨ (k, e) ∈ entries n l.
Proof.
  revert m n. induction l as [|v l IH]; intros m n Hn Hm; cbn; [rewrite elem_of_nil; naive_solver|].
  cbn in Hn. apply NoDup_cons in Hn as [Hv Hn].
  assert (imap ((λ i v, (n + i, v)) ∘ S) l = imap (λ i v, (S n + i, v)) l) as ->.
  { apply imap_ext. intros i x _. cbn. by rewrite Nat.add_succ_r. }
  rewrite Nat.add_0_r. rewrite IH; [|done|].
  - rewrite elem_of_cons. destruct (decide (k = kf v)) as [->|Hk].
    + rewrite lookup_insert_eq, (Hm (kf v)) by set_solver. split.
      * intros [[= <-]|Hin]; [by right; left|by right; right].
      * intros [?|[[= ->]|Hin]]; [done|by left|by right].
    + rewrite lookup_insert_ne by done. naive_solver.
  - intros k' Hk'. rewrite lookup_insert_ne by (intros <-; done). apply Hm. set_solver.
Qed.

Lemma imap_pair (l : list data) : imap pair l = imap (λ i v, (0 + i, v)) l.
Proof. apply imap_ext. by intros i x _. Qed.

(** ** What the loop finds out *)

Section changes.
Variable old : list data.
Hypothesis old_keys : NoDup (map kf old).

Definition old_keyed : gmap K (nat * data) := foldl (λ m p, <[kf p.2 := p]> m) ∅ (imap pair old).

Lemma old_keyed_lookup k idx o : old_keyed !! k = Some (idx, o) ↔ old !! idx = Some o ∧ kf o = k.
Proof.
  unfold old_keyed. rewrite imap_pair, old_keyed_ok by (done || intros; apply lookup_empty).
  rewrite lookup_empty, elem_entries. cbn. naive_solver.
Qed.

(** An item that is new or stands elsewhere *)
Definition item_moved (e : K * (nat * data)) : bool := negb (bool_decide (fst <$> old_keyed !! e.1 = Some e.2.1)).

(** Whether items were added, removed or moved *)
Definition structure_changed (new : list data) : bool :=
  existsb (λ e, bool_decide (e.1 ∉ map kf new)) (map_to_list old_keyed) || existsb item_moved (entries 0 new).

Lemma keys_entries n l : map fst (entries n l) = map kf l.
Proof. revert n. induction l as [|v l IH]; intros n; cbn; [done|]. by rewrite IH. Qed.

Lemma structure_changed_ok new : NoDup (map kf new) → structure_changed new = false ↔ map kf old = map kf new.
Proof.
  intros Hn. unfold structure_changed. rewrite orb_false_iff. split.
  - intros [Hold Hnew].
    assert (∀ idx n, new !! idx = Some n → ∃ o, old !! idx = Some o ∧ kf o = kf n) as Hin.
    { intros idx n Hi. destruct (item_moved (kf n, (idx, n))) eqn:Em.
      - exfalso. assert (existsb item_moved (entries 0 new) = true) as E; [|congruence]. apply existsb_exists.
        exists (kf n, (idx, n)). split; [|done]. apply list_elem_of_In, elem_entries. by exists idx.
      - unfold item_moved in Em. apply negb_false_iff, bool_decide_eq_true in Em. cbn in Em.
        apply fmap_Some in Em as ([idx' o] & Ho & ->). apply old_keyed_lookup in Ho. cbn in *. naive_solver. }
    apply list_eq. intros idx. rewrite !lookup_map. destruct (new !! idx) as [n|] eqn:En.
    { destruct (Hin _ _ En) as (o & -> & ->). done. }
    destruct (old !! idx) as [o|] eqn:Eo; [|done]. exfalso.
    destruct (decide (kf o ∈ map kf new)) as [Hk|Hk].
    + apply list_elem_of_lookup in Hk as (idx' & Hk). rewrite lookup_map in Hk.
      destruct (new !! idx') as [n|] eqn:En'; [|done]. injection Hk as Hk. destruct (Hin _ _ En') as (o' & Ho' & Hk').
      destruct (same_key old idx idx' o o' old_keys Eo Ho' ltac:(congruence)) as [<- _]. congruence.
    + assert (existsb (λ e, bool_decide (e.1 ∉ map kf new)) (map_to_list old_keyed) = true) as E; [|congruence].
      apply existsb_exists. exists (kf o, (idx, o)). split; [|by apply bool_decide_eq_true].
      by apply list_elem_of_In, elem_of_map_to_list, old_keyed_lookup.
  - intros E.
    assert (∀ idx n, new !! idx = Some n → ∃ o, old !! idx = Some o ∧ kf o = kf n) as Hin.
    { intros idx n Hi. assert (map kf old !! idx = Some (kf n)) as Ek by (rewrite E, lookup_map, Hi; done).
      rewrite lookup_map in Ek. destruct (old !! idx) as [o|]; [|done]. exists o. split; [done|congruence]. }
    split; apply not_true_is_false; rewrite existsb_exists.
    + intros ([k [idx o]] & Ho & Hk). apply bool_decide_eq_true in Hk. apply Hk. cbn.
      apply list_elem_of_In, elem_of_map_to_list, old_keyed_lookup in Ho as [Ho <-]. rewrite <-E.
      apply list_elem_of_fmap. exists o. split; [done|by eapply list_elem_of_lookup_2].
    + intros ([k [idx n]] & He & Hm). apply list_elem_of_In, elem_entries in He as (i & -> & Hi & ->).
      destruct (Hin _ _ Hi) as (o & Ho & Hk). unfold item_moved in Hm. cbn in Hm.
      assert (old_keyed !! kf n = Some (i, o)) as Eo by by apply old_keyed_lookup.
      rewrite Eo in Hm. cbn in Hm. by rewrite bool_decide_true in Hm.
Qed.

End changes.

(** ** The loop over the new items *)

Section loop.
Variables (t : ty) (old : list data) (p : StorePath) (seg : nat → nat) (path_at_key : K → M (option StorePath)).
Hypothesis t_plain : no_keyed t = true ∧ no_skip t = true.
Hypothesis old_typed : Forall (has_type t) old.
Hypothesis old_keys : NoDup (map kf old).

(** The keys lead to the old indexes, and these to the segments of the items. *)
Definition patch_ready (s : St) : Prop :=
  (∀ s', same_data s s' → ∀ idx o, old !! idx = Some o → path_at_key (kf o) s' = Ok (Some (p ++ [idx]), s')) ∧
  (∀ idx o r, old !! idx = Some o → to_keyed s [] (p ++ idx :: r) = Some (p ++ seg idx :: r)).

Lemma ready_same (s s1 : St) : same_data s s1 → patch_ready s → patch_ready s1.
Proof.
  intros D [R1 R2]. split.
  - intros s' D'. apply R1. by eapply same_data_trans.
  - intros idx o r Ho. rewrite (to_keyed_ext s s1) by apply D. by eapply R2.
Qed.

(** What the patches of the items notify *)
Record item_notes (new : list data) (no : list (StorePath * bool)) : Prop := mk_item_notes {
  in_sound : ∀ x, x ∈ no → ∃ n idx o r, n ∈ new ∧ old !! idx = Some o ∧ kf o = kf n ∧ differ o n r ∧
    x ∈ written_triggers (p ++ seg idx :: map seg_of r);
  in_complete : ∀ n idx o, n ∈ new → old !! idx = Some o → kf o = kf n → o ≠ n →
    ∃ r, ∀ x, x ∈ written_triggers (p ++ seg idx :: map seg_of r) → x ∈ no;
}.

Lemma item_patch_ok idx o n : old !! idx = Some o → has_type t n → kf o = kf n →
  ∃ no, item_notes [n] no ∧
    ∀ s, triggers_wf s → patch_ready s → runs (patch_field t n o (p ++ [idx])) s [] no (λ v _, v = n).
Proof.
  intros Ho Hn Hk. destruct t_plain as [Tk Ts].
  assert (has_type t o) as Hot by (rewrite Forall_lookup in old_typed; by eapply old_typed).
  destruct (patch_field_ok t Tk n o (p ++ [idx]) Hn Hot) as (qs & v & [Hrun [C1 C2]] & Hex). specialize (Hex Ts) as ->.
  exists (concat (map (λ r, written_triggers (p ++ seg idx :: map seg_of r)) qs)). split.
  - split.
    + intros x Hx. apply list_elem_of_In, in_concat in Hx as (ws & Hws & Hx).
      apply in_map_iff in Hws as (r & <- & Hr). apply list_elem_of_In in Hr, Hx.
      exists n, idx, o, r. split_and!; [set_solver|done|done|by apply C1|done].
    + intros n' idx' o' ->%list_elem_of_singleton Ho' Hk' Hne.
      destruct (same_key old idx idx' o o' old_keys Ho Ho' ltac:(congruence)) as [<- <-].
      destruct (C2 []) as (r & Hr & _); [intros [= E]; done|]. exists r. intros x Hx.
      apply list_elem_of_In, in_concat. exists (written_triggers (p ++ seg idx :: map seg_of r)).
      split; [apply in_map_iff; exists r; split; [done|by apply list_elem_of_In]|by apply list_elem_of_In].
  - intros s Hw [_ R2]. eapply ensures_same; [apply Hrun|]. rewrite <-(app_nil_r (concat _)).
    apply (runs_bind _ _ _ [] [] _ [] (λ _ _, True)); [|intros _ s1 _ T1 _; apply runs_ret; [apply T1|done]].
    apply (notify_at_ok s _ qs (λ r, p ++ seg idx :: map seg_of r)); [done|]. intros r _.
    rewrite <-app_assoc. by eapply R2.
Qed.

Lemma item_notes_cons n new no no' : item_notes [n] no → item_notes new no' → item_notes (n :: new) (no ++ no').
Proof.
  intros [S1 P1] [S2 P2]. split.
  - intros x [Hx|Hx]%elem_of_app.
    + destruct (S1 x Hx) as (n' & idx & o & r & Hn & ?). exists n', idx, o, r. split; [set_solver|done].
    + destruct (S2 x Hx) as (n' & idx & o & r & Hn & ?). exists n', idx, o, r. split; [set_solver|done].
  - intros n' idx o [->|Hn]%elem_of_cons Ho Hk Hne.
    + destruct (P1 n idx o) as [r Hr]; [set_solver|done..|]. exists r. intros x Hx. apply elem_of_app. left. by apply Hr.
    + destruct (P2 n' idx o) as [r Hr]; [done..|]. exists r. intros x Hx. apply elem_of_app. right. by apply Hr.
Qed.

Lemma patch_entries_ok rest d (m : gmap K (nat * data)) :
  Forall (has_type t) rest → NoDup (map kf (d ++ rest)) → (∀ n, n ∈ rest → m !! kf n = old_keyed old !! kf n) →
  ∃ no, item_notes rest no ∧ ∀ s hc, triggers_wf s → patch_ready s →
    runs (patch_entries (patch_field t) path_at_key (entries (length d) rest) m d hc) s [] no
      (λ r _, r = (d ++ rest, hc || existsb (item_moved old) (entries (length d) rest))).
Proof.
  revert d m. induction rest as [|n rest IH]; intros d m Ht Hn Hm.
  { exists []. split; [split; [set_solver|set_solver]|]. intros s hc Hw Hr. apply (runs_ret (d, hc)); [done|].
    cbn. by rewrite app_nil_r, orb_false_r. }
  apply Forall_cons in Ht as [Htn Ht].
  assert (NoDup (map kf ((d ++ [n]) ++ rest))) as Hn' by by rewrite <-app_assoc.
  assert (∀ n', n' ∈ rest → delete (kf n) m !! kf n' = old_keyed old !! kf n') as Hm'.
  { intros n' Hin. rewrite lookup_delete_ne; [apply Hm; set_solver|]. intros E.
    rewrite map_app in Hn. apply NoDup_app in Hn as (_ & _ & Hn). cbn in Hn. apply NoDup_cons in Hn as [Hn _].
    apply Hn. rewrite E. apply list_elem_of_fmap. by exists n'. }
  destruct (IH (d ++ [n]) (delete (kf n) m) Ht Hn' Hm') as (no & Hnotes & Hrun).
  rewrite length_app in Hrun. cbn [length] in Hrun. rewrite Nat.add_1_r in Hrun.
  cbn [entries patch_entries existsb]. rewrite (Hm n) by set_solver.
  destruct (old_keyed old !! kf n) as [[idx o]|] eqn:E.
  - assert (item_moved old (kf n, (length d, n)) = negb (idx =? length d)) as Emoved.
    { unfold item_moved. cbn. rewrite E. cbn. f_equal. destruct (Nat.eqb_spec idx (length d)) as [->|Hne];
        [by rewrite bool_decide_true|rewrite bool_decide_false; [done|congruence]]. }
    apply (old_keyed_lookup old old_keys) in E as [Ho Hk].
    destruct (item_patch_ok idx o n Ho Htn Hk) as (no1 & Hnotes1 & Hrun1).
    exists (no1 ++ no). split; [by apply item_notes_cons|]. intros s hc Hw Hr.
    assert ((d ++ [o]) !! length d = Some o) as -> by (by rewrite lookup_app_r, Nat.sub_diag by lia).
    eapply runs_eq; [done|]. eapply runs_eq; [rewrite <-Hk; by apply Hr|].
    apply (runs_bind _ _ _ [] [] _ _ (λ v _, v = n)); [by apply Hrun1|]. intros v s1 D1 T1 ->.
    rewrite insert_app_r_alt, Nat.sub_diag by lia. cbn [insert list_insert].
    eapply runs_mono; [apply Hrun; [apply T1|by eapply ready_same]|]. intros r s' _ _ ->.
    rewrite <-app_assoc. cbn. by rewrite Emoved, orb_assoc.
  - exists no. split.
    + apply (item_notes_cons n rest [] no); [|done]. split; [set_solver|].
      intros n' idx o ->%list_elem_of_singleton Ho Hk. exfalso.
      assert (old_keyed old !! kf n = Some (idx, o)) by by apply old_keyed_lookup. congruence.
    + intros s hc Hw Hr. eapply runs_mono; [by apply Hrun|]. intros r s' _ _ ->. rewrite <-app_assoc. cbn.
      assert (item_moved old (kf n, (length d, n)) = true) as -> by (unfold item_moved; cbn; by rewrite E).
      by rewrite orb_true_r.
Qed.

Lemma patch_field_keyed_ok new : Forall (has_type t) new → NoDup (map kf new) →
  ∃ no, item_notes new no ∧ ∀ s, triggers_wf s → patch_ready s →
    runs (patch_field_keyed (patch_field t) path_at_key kf new old) s [] no (λ r _, r = (new, structure_changed old new)).
Proof.
  intros Ht Hn. destruct (patch_entries_ok new [] (old_keyed old) Ht Hn) as (no & Hnotes & Hrun); [done|].
  exists no. split; [done|]. intros s Hw Hr. unfold patch_field_keyed. rewrite (imap_pair new), new_keyed_ok by done.
  cbn [app]. rewrite keys_entries. by apply (Hrun s _ Hw Hr).
Qed.
End loop.

(** ** [KeyedSubfield::patch] *)

Section whole.
Variables (g : @field K) (i : nat) (t : ty).

(** The keys of the collection are up to date and registered by index, and
    nothing else is keyed on the way or inside. *)
Record keyed_ready (s : St) (p : StorePath) (st : list value_step) (old : list data) (keys : @FieldKeys K _ _) : Prop := mk_keyed_ready {
  kr_resolve : resolved s (FKeyed g i kf) = Some (p, st);
  kr_depth : at_keys g = 0;
  kr_value : value_at st (st_value s) = Some (VVec old);
  kr_above : to_keyed s [] p = Some p;
  kr_inside : ∀ x r, st_keys s !! (p ++ x :: r) = None;
  kr_keys : st_keys s !! p = Some keys;
  kr_wf : fk_wf keys;
  kr_items : ∀ idx o, old !! idx = Some o → ∃ seg, fk_get (kf o) keys = Some (seg, idx) ∧ st_index_keys s !! (p, idx) = Some seg;
  kr_type : no_keyed t = true ∧ no_skip t = true;
  kr_old : Forall (has_type t) old;
  kr_nodup : NoDup (map kf old);
}.

Definition segment_of (s : St) (p : StorePath) (idx : nat) : nat := default 0 (st_index_keys s !! (p, idx)).

Definition key_path (p : StorePath) (key : K) : M (option StorePath) :=
  e ← get_keyed (accessor g) i kf key p;
  mret (match e with Some (_, idx) => Some (p ++ [idx]) | None => None end).

Lemma keyed_ready_loop (s : St) p st old keys : keyed_ready s p st old keys → patch_ready old p (segment_of s p) (key_path p) s.
Proof.
  intros R. split.
  - intros s' D idx o Ho. destruct (kr_items _ _ _ _ _ R _ _ Ho) as (seg & Hget & _). unfold key_path, get_keyed.
    assert (st_keys s' !! p = Some keys) as Hk by (destruct D as (_ & _ & -> & _); apply R).
    pose proof (with_keys_ok s' _ _ (λ keys, ((fk_get (kf o) keys, []), keys)) (latest_keys (accessor g) i kf) _ Hk eq_refl) as Hw.
    step_with Hw. by rewrite Hget.
  - intros idx o r Ho. destruct (kr_items _ _ _ _ _ R _ _ Ho) as (seg & _ & Hi).
    rewrite (to_keyed_app s [] p (idx :: r) p) by apply R. cbn. rewrite (kr_keys _ _ _ _ _ R), Hi. cbn.
    unfold segment_of. rewrite Hi. cbn. rewrite to_keyed_plain; [by rewrite <-app_assoc|].
    intros r'. rewrite <-app_assoc. apply R.
Qed.

Lemma keyed_ready_same (s s1 : St) p st old keys : st_value s1 = st_value s → st_keys s1 = st_keys s →
  st_index_keys s1 = st_index_keys s → keyed_ready s p st old keys → keyed_ready s1 p st old keys.
Proof.
  intros Ev Ek Ei []. split; try done.
  - by etrans; [apply resolve_ext|].
  - by rewrite Ev.
  - by rewrite (to_keyed_ext s s1).
  - by rewrite Ek.
  - by rewrite Ek.
  - by rewrite Ei.
Qed.

Lemma value_at_update_prefix st q f v : q `prefix_of` st → is_Some (value_at q v) → is_Some (value_at q (update_at st f v)).
Proof.
  intros [r ->]. revert v. induction q as [|x q IH]; intros v Hq; cbn; [by eexists|].
  cbn in Hq. destruct (step_get x v) as [w|] eqn:E; cbn in Hq; [|by destruct Hq].
  rewrite (step_get_set _ _ _ _ E). cbn. by apply IH.
Qed.

Lemma resolve_update (s : St) f p st0 st c : at_keys f = 0 → resolved s f = Some (p, st0) → st0 `prefix_of` st →
  resolved (set_value (update_at st c (st_value s)) s) f = Some (p, st0).
Proof.
  revert p st0. induction f as [|f IH j|f IH|f IH j|f IH j kf'|f IH j kf' k]; intros p st0 Ha Hr Hp; [done|..|done];
    cbn in Ha, Hr |- *; (destruct (resolved s f) as [[p1 st1]|]; cbn in Hr; [|done]);
    (destruct (value_at _ _) as [w|] eqn:Ew; cbn in Hr; [|done]); injection Hr as <- <-;
    (rewrite (IH _ _ Ha eq_refl) by (by eapply prefix_app_l)); cbn;
    destruct (value_at_update_prefix st _ c (st_value s) Hp ltac:(by eexists)) as [w' ->]; done.
Qed.

Lemma notify_children_ok ps (s : St) : triggers_wf s → (∀ q, q ∈ ps → to_keyed s [] q = Some q) →
  runs (for_each (λ p, inner ← get_trigger_unkeyed p; trigger_notify (children inner)) ps) s [] (map (., false) ps) (λ _ _, True).
Proof.
  revert s. induction ps as [|q ps IH]; intros s Hw Hps; [by apply runs_ret|].
  apply (runs_bind _ _ _ [] [] [_] _ (λ _ _, True)).
  - unfold get_trigger_unkeyed. eapply runs_bind_quiet.
    { eapply runs_eq; [rewrite keyed_path_ok, (Hps q) by set_solver; done|]. by apply get_trigger_ok. }
    intros t' s1 _ T1 Ht. eapply runs_mono; [apply trigger_notify_ok; [apply T1|by apply trigger_id_children]|done].
  - intros _ s1 D1 T1 _. apply IH; [apply T1|]. intros q' Hq'.
    rewrite (to_keyed_ext s s1) by apply D1. apply Hps. set_solver.
Qed.

Definition structure_notes (p : StorePath) (changed : bool) : list (StorePath * bool) :=
  if changed then map (., false) (p :: ancestors p) else [].

Lemma structure_ok (s : St) p (changed : bool) : triggers_wf s → to_keyed s [] p = Some p →
  runs (if changed then
          trigger ← get_trigger_unkeyed p;
          _ ← trigger_notify (children trigger);
          for_each (λ p, inner ← get_trigger_unkeyed p; trigger_notify (children inner)) (ancestors p)
        else mret tt) s [] (structure_notes p changed) (λ _ _, True).
Proof.
  intros Hw Hp. destruct changed; [|by apply runs_ret].
  eapply ensures_same; [|apply (notify_children_ok (p :: ancestors p) s Hw)].
  - cbn [for_each]. rewrite bind_assoc. done.
  - intros q [->|Hq]%elem_of_cons; [done|]. apply elem_ancestors in Hq as [[r ->] _].
    destruct (to_keyed s [] q) as [q'|] eqn:E.
    + rewrite (to_keyed_take s _ _ q Hp) in E by (by apply prefix_app_r). rewrite <-E. by rewrite take_app_length.
    + by rewrite (to_keyed_take s _ _ q Hp) in E by (by apply prefix_app_r).
Qed.

(** Without keys on the way, only the value matters. *)
Lemma resolve_value (s s' : St) f : at_keys f = 0 → st_value s' = st_value s → resolved s' f = resolved s f.
Proof.
  intros Ha Ev. revert Ha. induction f as [|f IH j|f IH|f IH j|f IH j kf'|f IH j kf' k]; intros Ha; cbn in Ha |- *;
    [done|..|done]; rewrite (IH Ha); destruct (resolved s f) as [[p0 st0]|]; cbn; by rewrite ?Ev.
Qed.

(** What follows the patch of the items *)
Lemma patch_end_ok (s s3 : St) p st old new (b : bool) : triggers_wf s3 → st_locked s3 = false → at_keys g = 0 →
  resolved s (FKeyed g i kf) = Some (p, st) → value_at st (st_value s) = Some old →
  st_value s3 = update_at st (λ _, VVec new) (st_value s) → to_keyed s3 [] p = Some p →
  ensures (_ ← (if b then
                  trigger ← get_trigger_unkeyed p;
                  _ ← trigger_notify (children trigger);
                  for_each (λ p, inner ← get_trigger_unkeyed p; trigger_notify (children inner)) (ancestors p)
                else mret tt);
           update_keys visit_keys visit_new (accessor g) i kf) s3
    (λ _ s', st_value s' = st_value s3 ∧
      st_keys s' = <[p := (updated_keys visit_keys visit_new s3 p (map kf new)).2]> (st_keys s3) ∧
      traced s3 s' [] (structure_notes p b)).
Proof.
  intros Hw Hl Hd Hr Hv Ev3 Hp3. eapply ensures_bind; [by apply (structure_ok s3 p b Hw)|].
  intros _ s4 ((E1 & E2 & E3 & E4) & T4 & _).
  assert (resolved s4 (FKeyed g i kf) = Some (p, st)) as Hr4.
  { etrans; [|exact (resolve_update s (FKeyed g i kf) p st st (λ _, VVec new) Hd Hr ltac:(done))].
    apply resolve_value; [done|]. cbn. congruence. }
  unfold ensures. rewrite (update_keys_ok visit_keys visit_new s4 g i kf p st (VVec new)); [|congruence|done|].
  2: { rewrite E1, Ev3. exact (value_at_update _ (λ _, VVec new) _ _ Hv). }
  cbn [items]. split_and!; [done| |].
  - cbn. unfold updated_keys. by rewrite E3.
  - rewrite <-(app_nil_r (structure_notes _ _)). apply (traced_trans s3 s4 _ [] [] _ [] T4).
    apply traced_refl; [apply T4|done..].
Qed.

Lemma keyed_patch_ok (s : St) p st old keys new : triggers_wf s → st_locked s = false →
  keyed_ready s p st old keys → Forall (has_type t) new → NoDup (map kf new) →
  ∃ no, item_notes old p (segment_of s p) new no ∧ ensures (KeyedSubfield_patch visit_keys visit_new g i kf t new) s (λ _ s',
    st_value s' = update_at st (λ _, VVec new) (st_value s) ∧
    st_keys s' = <[p := (updated_keys visit_keys visit_new s p (map kf new)).2]> (st_keys s) ∧
    traced s s' [] (no ++ structure_notes p (structure_changed old new))).
Proof.
  intros Hw Hl R Hn Hnd. pose proof (kr_resolve _ _ _ _ _ R) as Hr. pose proof (kr_depth _ _ _ _ _ R) as Hd.
  destruct (patch_field_keyed_ok t old p (segment_of s p) (key_path p) (kr_type _ _ _ _ _ R)
    (kr_old _ _ _ _ _ R) (kr_nodup _ _ _ _ _ R) new Hn Hnd) as (no & Hnotes & Hrun).
  exists no. split; [done|]. unfold KeyedSubfield_patch.
  eapply ensures_eq.
  { eapply (path_unkeyed_ok visit_keys visit_new s (FKeyed g i kf)); [cbn; lia|exact Hr]. }
  rewrite <-(path_is_segments s (FKeyed g i kf) p st Hd Hr).
  eapply ensures_bind; [exact (writer_ok visit_keys visit_new s (FKeyed g i kf) p st Hw Hl Hr)|].
  intros w s1 (gd & -> & Hgi & D1 & T1 & _). destruct gd as [gi gt]. cbn in Hgi. subst gi.
  pose proof D1 as (Ev & _ & Ek & Ei). cbn in Ev, Ek, Ei.
  pose proof (keyed_ready_same _ _ _ _ _ _ Ev Ek Ei R) as R1.
  eapply ensures_bind with (R := λ b s3, b = structure_changed old new ∧
    st_value s3 = update_at st (λ _, VVec new) (st_value s) ∧ st_locked s3 = false ∧ st_keys s3 = st_keys s ∧
    st_index_keys s3 = st_index_keys s ∧ traced s s3 [] no).
  { eapply ensures_eq; [apply deref_ok; rewrite Ev; apply R|].
    eapply ensures_bind.
    { apply (Hrun s1); [apply T1|]. replace (segment_of s p) with (segment_of s1 p); [by eapply keyed_ready_loop|].
      unfold segment_of. by rewrite Ei. }
    intros r s2 ((E1 & E2 & E3 & E4) & T2 & ->). apply ensures_modify.
    unfold drop_guard. cbn [guard_untrack g_inner g_triggers app for_each].
    apply ensures_modify, ensures_ret. split_and!; [done|cbn; by rewrite E1, Ev|done|cbn; congruence|cbn; congruence|].
    rewrite <-(app_nil_r no). apply (traced_trans s s2 _ [] [] _ []); [by apply (traced_trans s s1 s2 [] [] [] _)|].
    apply traced_refl; [apply T2|done..]. }
  intros b s3 (-> & Ev3 & El3 & Ek3 & Ei3 & T3).
  assert (to_keyed s3 [] p = Some p) as Hp3 by (rewrite (to_keyed_ext s s3) by done; apply R).
  eapply ensures_mono.
  { apply (patch_end_ok s s3 p st (VVec old) new (structure_changed old new) (tr_wf _ _ _ _ T3)); [done..|apply R|done|done]. }
  intros _ s4 (E1 & E3 & T4). split_and!; [congruence| |].
  - rewrite E3. unfold updated_keys. by rewrite Ek3.
  - by apply (traced_trans s s3 s4 [] [] _ _).
Qed.
End whole.
End patch_keyed.

(** * Theorems on patches of keyed collections *)

Section keyed_props.
Context {K : Type} `{Countable K}.
Variable visit_keys : gmap K (nat * nat) → list (K * (nat * nat)).
Variable visit_new : gmap K nat → list (K * nat).
Hypothesis visit_keys_all : ∀ m, visit_keys m ≡ₚ map_to_list m.
Hypothesis visit_new_all : ∀ m, visit_new m ≡ₚ map_to_list m.

Local Abbreviation St := (@ArcStore K _ _).
Variables (kf : data → K) (g : @field K) (i : nat) (t : @ty K).

Lemma elem_structure_notes p (b : bool) x :
  x ∈ structure_notes p b ↔ b = true ∧ ∃ q, q `prefix_of` p ∧ x = (q, false).
Proof.
  unfold structure_notes. destruct b; [|rewrite elem_of_nil; naive_solver].
  rewrite list_elem_of_fmap. split.
  - intros (q & -> & [->|[Hq _]%elem_ancestors]%elem_of_cons); split; [done|by exists p|done|by exists q].
  - intros (_ & q & Hq & ->). exists q. split; [done|]. apply elem_of_cons.
    destruct (decide (q = p)) as [->|Hne]; [by left|right]. by apply elem_ancestors.
Qed.

(** Readers of an item that was there *)
Lemma item_meets (s : St) p st old keys new no idx o : keyed_ready kf g i t s p st old keys → NoDup (map kf new) →
  item_notes kf old p (segment_of s p) new no → old !! idx = Some o →
  (∃ x, x ∈ read_triggers (p ++ [segment_of s p idx]) ∧ x ∈ no ++ structure_notes p (structure_changed kf old new)) ↔
  ∃ n, n ∈ new ∧ kf n = kf o ∧ n ≠ o.
Proof.
  intros R Hn [S1 C1] Ho. split.
  - intros (x & Hr & [Hx|Hx]%elem_of_app).
    + destruct (S1 x Hx) as (n & idx' & o' & r & Hin & Ho' & Hk & Hd & Hw).
      assert (comparable (p ++ [segment_of s p idx]) (p ++ segment_of s p idx' :: map seg_of r)) as Hc.
      { apply reads_writes. by exists x. }
      assert (segment_of s p idx = segment_of s p idx') as Eseg.
      { destruct Hc as [Hc|Hc]; apply prefix_app_inv in Hc; by apply prefix_cons_inv_1 in Hc. }
      destruct (kr_items _ _ _ _ _ _ _ _ _ R _ _ Ho) as (sg & Hg & Hi), (kr_items _ _ _ _ _ _ _ _ _ R _ _ Ho') as (sg' & Hg' & Hi').
      unfold segment_of in Eseg. rewrite Hi, Hi' in Eseg. cbn in Eseg. subst sg'.
      pose proof (fk_inj _ (kr_wf _ _ _ _ _ _ _ _ _ R) _ _ _ _ _ Hg Hg') as Ek. rewrite Ek in Hg.
      unfold fk_get in Hg, Hg'. rewrite Hg in Hg'. injection Hg' as <-. rewrite Ho in Ho'. injection Ho' as <-.
      exists n. split_and!; [done|done|]. intros ->. by apply Hd.
    + apply elem_structure_notes in Hx as (_ & q & Hq & ->). apply elem_reads in Hr as [[= ->]|(q' & _ & [=])].
      apply prefix_length in Hq. rewrite length_app in Hq. cbn in Hq. lia.
  - intros (n & Hin & Hk & Hne). destruct (C1 n idx o Hin Ho (eq_sym Hk) (not_eq_sym Hne)) as [r Hr].
    assert (comparable (p ++ [segment_of s p idx]) (p ++ segment_of s p idx :: map seg_of r)) as Hc.
    { left. apply prefix_app. apply prefix_cons, prefix_nil. }
    apply reads_writes in Hc as (x & Hx & Hx'). exists x. split; [done|]. apply elem_of_app. left. by apply Hr.
Qed.

Lemma lists_differ (l k : list data) : length l = length k → k ≠ l →
  ∃ i a b, l !! i = Some a ∧ k !! i = Some b ∧ a ≠ b.
Proof.
  revert k. induction l as [|a l IH]; intros [|b k] Hlen Hne; try done.
  destruct (decide (a = b)) as [->|Hab]; [|by exists 0, a, b].
  destruct (IH k) as (j & x & y & ?); [cbn in Hlen; lia|congruence|]. by exists (S j), x, y.
Qed.

(** Readers of the collection *)
Lemma collection_meets (s : St) p st old keys new no : keyed_ready kf g i t s p st old keys → NoDup (map kf new) →
  item_notes kf old p (segment_of s p) new no →
  (∃ x, x ∈ read_triggers p ∧ x ∈ no ++ structure_notes p (structure_changed kf old new)) ↔ new ≠ old.
Proof.
  intros R Hn [S1 C1]. split.
  - intros (x & _ & [Hx|Hx]%elem_of_app) ->.
    + destruct (S1 x Hx) as (n & idx & o & r & Hin & Ho & Hk & Hd & _).
      apply list_elem_of_lookup in Hin as [idx' Hn'].
      destruct (same_key kf old idx idx' o n Hn Ho Hn' Hk) as [_ <-]. by apply Hd.
    + apply elem_structure_notes in Hx as (Hch & _). by rewrite (proj2 (structure_changed_ok kf old Hn old Hn)) in Hch.
  - intros Hne. destruct (structure_changed kf old new) eqn:Hch.
    + exists (p, false). split; [apply elem_reads; by left|]. apply elem_of_app. right.
      apply elem_structure_notes. split; [done|by exists p].
    + apply (structure_changed_ok kf old (kr_nodup _ _ _ _ _ _ _ _ _ R) new Hn) in Hch.
      assert (∃ idx o n, old !! idx = Some o ∧ new !! idx = Some n ∧ o ≠ n) as (idx & o & n & Ho & Hn' & Hd).
      { apply lists_differ; [|done]. apply (f_equal length) in Hch. by rewrite !length_map in Hch. }
      assert (kf o = kf n) as Hk.
      { apply (f_equal (λ l, l !! idx)) in Hch. rewrite !lookup_map, Ho, Hn' in Hch. congruence. }
      destruct (C1 n idx o) as [r Hr]; [by eapply list_elem_of_lookup_2|done..|].
      assert (comparable p (p ++ segment_of s p idx :: map seg_of r)) as Hc by (left; by apply prefix_app_r).
      apply reads_writes in Hc as (x & Hx & Hx'). exists x. split; [done|]. apply elem_of_app. left. by apply Hr.
Qed.

Lemma item_resolved (s : St) p st old keys idx o : keyed_ready kf g i t s p st old keys → old !! idx = Some o →
  resolved s (FAtKey g i kf (kf o)) = Some (p ++ [segment_of s p idx], st ++ [IntoItem idx]).
Proof.
  intros R Ho. rewrite (resolve_at_key_keys s g i kf (kf o) p st keys) by apply R.
  destruct (kr_items _ _ _ _ _ _ _ _ _ R _ _ Ho) as (sg & -> & Hi). cbn [mbind option_bind].
  rewrite value_at_snoc, (kr_value _ _ _ _ _ _ _ _ _ R). cbn. rewrite Ho. cbn. rewrite decide_True by done.
  unfold segment_of. by rewrite Hi.
Qed.

(** The segments that items keep *)
Lemma kept_resolved (s s' : St) p st old keys new n idx : keyed_ready kf g i t s p st old keys → NoDup (map kf new) →
  st_value s' = update_at st (λ _, VVec new) (st_value s) →
  st_keys s' = <[p := (updated_keys visit_keys visit_new s p (map kf new)).2]> (st_keys s) →
  new !! idx = Some n →
  ∃ seg, resolved s' (FAtKey g i kf (kf n)) = Some (p ++ [seg], st ++ [IntoItem idx]) ∧
    ∀ idx0 o, old !! idx0 = Some o → kf o = kf n → seg = segment_of s p idx0.
Proof.
  intros R Hn Ev Ek Hi. unfold updated_keys in Ek. rewrite (kr_keys _ _ _ _ _ _ _ _ _ R) in Ek. cbn [default from_option id] in Ek.
  pose proof (fk_update_ok visit_keys visit_new visit_keys_all visit_new_all (map kf new) keys (kr_wf _ _ _ _ _ _ _ _ _ R) Hn) as Hup.
  destruct (fk_update _ _ _ _) as [ik keys']. cbn [snd] in Ek. destruct Hup as (W & _ & Hall & Hkeep & _).
  destruct (Hall (kf n) idx) as [seg Hseg]; [by rewrite lookup_map, Hi|].
  exists seg. split.
  - assert (resolved s' (FKeyed g i kf) = Some (p, st)) as Hr'.
    { eapply (resolve_keys_ext (set_value (st_value s') s)); [|done|].
      - rewrite Ev. apply resolve_update; [apply (kr_depth _ _ _ _ _ _ _ _ _ R)|apply R|done].
      - intros q Hq. rewrite Ek. apply lookup_insert_ne. intros ->. lia. }
    rewrite (resolve_at_key_keys s' g i kf (kf n) p st keys' Hr') by (rewrite Ek; apply lookup_insert_eq).
    rewrite Hseg. cbn [mbind option_bind]. rewrite value_at_snoc, Ev.
    rewrite (value_at_update _ _ _ _ (kr_value _ _ _ _ _ _ _ _ _ R)). cbn. rewrite Hi. cbn. by rewrite decide_True.
  - intros idx0 o Ho Hk. destruct (kr_items _ _ _ _ _ _ _ _ _ R _ _ Ho) as (sg & Hg & Hix). rewrite Hk in Hg.
    unfold segment_of. rewrite Hix. cbn. by eapply Hkeep.
Qed.

(** An observer reads [f], the collection is patched, and the observer is
    notified exactly if [changed]; the new list is stored, every key leads to its
    item, and keys that stay keep their paths. *)
Definition patch_observed (s : St) (f : field) (p : StorePath) (st : list value_step) (old new : list data) (changed : Prop) : Prop :=
  ∃ s1 s2,
    try_get visit_keys visit_new f s = Ok (w ← resolved s f; value_at w.2 (st_value s), s1) ∧
    KeyedSubfield_patch visit_keys visit_new g i kf t new s1 = Ok (tt, s2) ∧
    st_value s2 = update_at st (λ _, VVec new) (st_value s) ∧
    ((∃ x, x ∈ st_tracked s2 ∧ x ∈ st_notified s2) ↔ changed) ∧
    ∀ idx n, new !! idx = Some n → ∃ seg,
      resolved s2 (FAtKey g i kf (kf n)) = Some (p ++ [seg], st ++ [IntoItem idx]) ∧
      ∀ idx0 o, old !! idx0 = Some o → kf o = kf n →
        resolved s (FAtKey g i kf (kf o)) = Some (p ++ [seg], st ++ [IntoItem idx0]).

Lemma patch_observed_ok (s : St) p st old keys new f pf stf changed :
  triggers_wf s → st_locked s = false → st_tracked s = [] → st_notified s = [] →
  keyed_ready kf g i t s p st old keys → Forall (has_type t) new → NoDup (map kf new) →
  resolved s f = Some (pf, stf) →
  (∀ no, item_notes kf old p (segment_of s p) new no →
     (∃ x, x ∈ read_triggers pf ∧ x ∈ no ++ structure_notes p (structure_changed kf old new)) ↔ changed) →
  patch_observed s f p st old new changed.
Proof.
  intros Hw Hl Ht Hno R Htn Hn Hr Hch. unfold patch_observed. rewrite Hr. cbn.
  destruct (ensures_run _ _ _ (try_get_ok visit_keys visit_new _ _ _ _ Hw Hl Hr)) as (r & s1 & Hget & D1 & T1 & ->).
  pose proof D1 as (Ev & El & Ek & Ei).
  pose proof (keyed_ready_same kf g i t s s1 p st old keys Ev Ek Ei R) as R1.
  destruct (keyed_patch_ok visit_keys visit_new kf g i t s1 p st old keys new (tr_wf _ _ _ _ T1) ltac:(by rewrite El) R1 Htn Hn)
    as (no & Hnotes & Hrun).
  destruct (ensures_run _ _ _ Hrun) as ([] & s2 & Hpatch & Ev2 & Ek2 & T2).
  assert (segment_of s1 p = segment_of s p) as Eseg by (unfold segment_of; by rewrite Ei). rewrite Eseg in Hnotes.
  exists s1, s2. split_and!; [done|done|by rewrite Ev2, Ev| |].
  - rewrite <-(Hch no Hnotes).
    pose proof (traced_trans _ _ _ _ _ _ _ T1 T2) as T12. rewrite app_nil_r in T12. by apply (meet_ok s s2).
  - intros idx n Hi. destruct (kept_resolved s1 s2 p st old keys new n idx R1 Hn Ev2 Ek2 Hi) as (seg & Hs & Hkeep).
    exists seg. split; [done|]. intros idx0 o Ho Hk. rewrite (Hkeep idx0 o Ho Hk), Eseg. by eapply item_resolved.
Qed.

End keyed_props.
