(* ===== verification/StoreCases.v ===== *)
(** * Keyed collections that go wrong

    What keys that are missing or out of date do to patches, and to collections
    inside the items of collections. *)

From stdpp Require Import base gmap list.
From S2P Require Import Prelude FieldKeys Stores Patch StoreAccess StoreProps PatchProps PatchKeyedProps.

Section cases.
Context {K : Type} `{Countable K}.
Variable visit_keys : gmap K (nat * nat) → list (K * (nat * nat)).
Variable visit_new : gmap K nat → list (K * nat).

Local Abbreviation St := (@ArcStore K _ _).
Local Abbreviation M := (stateM (@ArcStore K _ _)).
Local Abbreviation accessor := (accessor visit_keys visit_new).

(** ** Keys that are not found *)

Section lost.
Variables (kf : data → K) (patch : data → data → StorePath → M data) (path_at_key : K → M (option StorePath)).
Variables I C : St → Prop.
Hypothesis never_found : ∀ k s, I s → ∃ s', path_at_key k s = Ok (None, s') ∧ I s' ∧ C s'.

Definition kept_value (m : gmap K (nat * data)) (n : data) : data :=
  match m !! kf n with Some (_, o) => o | None => n end.

(** Items of keys that stay keep their old values. *)
Lemma patch_entries_lost rest d (m : gmap K (nat * data)) hc s : I s → NoDup (map kf rest) →
  ∃ s', patch_entries patch path_at_key (entries kf (length d) rest) m d hc s =
      Ok ((d ++ map (kept_value m) rest, bool_decide (rest ≠ []) || hc), s') ∧
    I s' ∧ (C s ∨ (∃ n, n ∈ rest ∧ is_Some (m !! kf n)) → C s').
Proof.
  revert d m hc s. induction rest as [|n rest IH]; intros d m hc s Hi Hn.
  { exists s. cbn. rewrite app_nil_r. split_and!; [done|done|]. intros [?|(? & ?%elem_of_nil & _)]; done. }
  cbn in Hn. apply NoDup_cons in Hn as [Hnot Hn].
  assert (∀ m', (∀ k, k ≠ kf n → m' !! k = m !! k) → map (kept_value m') rest = map (kept_value m) rest) as Hsame.
  { intros m' Hm'. apply map_ext_in. intros n' Hin. unfold kept_value. rewrite Hm'; [done|].
    intros E. apply Hnot. rewrite <-E. apply list_elem_of_fmap. exists n'. split; [done|by apply list_elem_of_In]. }
  assert (∀ k, k ≠ kf n → delete (kf n) m !! k = m !! k) as Hdel by (intros; by apply lookup_delete_ne).
  cbn [entries patch_entries]. rewrite bool_decide_true by done. cbn [orb].
  destruct (m !! kf n) as [[idx o]|] eqn:E.
  - assert ((d ++ [o]) !! length d = Some o) as -> by (by rewrite lookup_app_r, Nat.sub_diag by lia).
    destruct (never_found (kf n) s Hi) as (s1 & Hp & Hi1 & Hc1).
    destruct (IH (d ++ [o]) (delete (kf n) m) true s1 Hi1 Hn) as (s' & Hrun & Hi' & Hc').
    rewrite length_app, Nat.add_1_r, (Hsame _ Hdel), orb_true_r in Hrun.
    exists s'. split_and!; [|done|intros _; apply Hc'; by left].
    unfold unwrapM at 1. unfold mbind at 1, stateM_bind at 1. step_with Hp. etrans; [exact Hrun|].
    rewrite <-app_assoc. cbn. do 5 f_equal. unfold kept_value. by rewrite E.
  - destruct (IH (d ++ [n]) (delete (kf n) m) true s Hi Hn) as (s' & Hrun & Hi' & Hc').
    rewrite length_app, Nat.add_1_r, (Hsame _ Hdel), orb_true_r in Hrun.
    exists s'. split_and!; [|done|].
    + etrans; [exact Hrun|]. rewrite <-app_assoc. cbn. do 5 f_equal. unfold kept_value. by rewrite E.
    + intros [Hc|(n' & [->|Hin]%elem_of_cons & Hm)]; apply Hc'; [by left|rewrite E in Hm; by destruct Hm|right].
      exists n'. split; [done|]. rewrite Hdel; [done|]. intros Ek. apply Hnot. rewrite <-Ek.
      apply list_elem_of_fmap. by exists n'.
Qed.
End lost.

(** ** Patches of items whose indexes are not registered *)

Lemma bind_panic {A B} (c : M A) (f : A → M B) s : c s = Panic → (x ← c; f x) s = Panic.
Proof. intros Hc. unfold mbind, stateM_bind. by rewrite Hc. Qed.

Lemma notify_path_panics (s : St) u : to_keyed s [] u = None → notify_path u s = Panic.
Proof.
  intros Hu. unfold notify_path, triggers_for_path_unkeyed, triggers_for_path_with, get_trigger_unkeyed.
  do 3 apply bind_panic. by rewrite keyed_path_ok, Hu.
Qed.

Lemma to_keyed_app_None (s : St) d u r : to_keyed s d u = None → to_keyed s d (u ++ r) = None.
Proof.
  revert d. induction u as [|x u IH]; intros d; cbn; [done|].
  destruct (match st_keys s !! d with Some _ => _ | None => _ end); cbn; [apply IH|done].
Qed.

(** C39: [patch] on an item of a keyed collection panics as long as the keys of
    the collection come from reads alone: these do not register the indexes
    that the paths of a patch go by, so that no trigger is found for the item.
    Only a patch with the value that is there succeeds. *)
Theorem item_patch_panics (s : St) g i kf k t p st idx old new :
  triggers_wf s → st_locked s = false → at_keys g = 0 →
  resolved s (FKeyed g i kf) = Some (p, st) → to_keyed s [] p = Some p →
  is_Some (st_keys s !! p) → st_index_keys s !! (p, idx) = None →
  option_map snd (resolved s (FAtKey g i kf k)) = Some (st ++ [IntoItem idx]) →
  value_at (st ++ [IntoItem idx]) (st_value s) = Some old →
  no_keyed t = true → no_skip t = true → has_type t old → has_type t new → new ≠ old →
  patch visit_keys visit_new t (FAtKey g i kf k) new s = Panic.
Proof.
  intros Hw Hl Ha Hr Hp [keys Hk] Hix Hq Hv Hnk Hns Ho Hn Hne.
  destruct (resolved s (FAtKey g i kf k)) as [[q stq]|] eqn:Er; [|done]. cbn in Hq. injection Hq as ->.
  pose proof (path_is_segments s (FKeyed g i kf) p st Ha Hr) as Ep. unfold patch.
  pose proof (path_unkeyed_ok visit_keys visit_new s (FAtKey g i kf k) q _ ltac:(cbn; lia) Er) as Hu.
  step_with Hu.
  destruct (ensures_run _ _ _ (writer_ok visit_keys visit_new s (FAtKey g i kf k) q _ Hw Hl Er))
    as (w & s1 & Hwr & gd & -> & _ & (Ev & _ & Ek & Ei) & _). cbn in Ev, Ek, Ei.
  step_with Hwr. assert (deref (st ++ [IntoItem idx]) s1 = Ok (old, s1)) as Hd by (apply deref_ok; by rewrite Ev).
  step_with Hd. apply bind_panic.
  destruct (patch_field_ok t Hnk new old (map seg_of (st ++ [IntoItem idx])) Hn Ho) as (qs & v & [Hrun [_ C2]] & Hex).
  rewrite (Hex Hns) in *. rewrite Hrun. apply bind_panic.
  destruct (C2 []) as (r & Hr' & _); [intros [= E]; done|]. destruct qs as [|r' qs]; [by apply elem_of_nil in Hr'|].
  unfold notify_at. cbn. apply bind_panic, notify_path_panics. rewrite (to_keyed_ext s s1) by done.
  rewrite map_app, <-Ep. apply to_keyed_app_None. rewrite (to_keyed_app _ _ _ _ _ Hp). cbn. by rewrite Hk, Hix.
Qed.

(** ** The derived patch of a keyed field *)

Lemma old_keyed_found kf (l : list data) (m : gmap K (nat * data)) n k :
  (∃ o, o ∈ l ∧ kf o = k) ∨ is_Some (m !! k) →
  is_Some (foldl (λ m p, <[kf p.2 := p]> m) m (imap (λ i v, (n + i, v)) l) !! k).
Proof.
  revert m n. induction l as [|v l IH]; intros m n Hor; cbn.
  { destruct Hor as [(o & Ho & _)|Hm]; [by apply elem_of_nil in Ho|done]. }
  assert (imap ((λ i v, (n + i, v)) ∘ S) l = imap (λ i v, (S n + i, v)) l) as ->.
  { apply imap_ext. intros i x _. cbn. by rewrite Nat.add_succ_r. }
  apply IH. destruct (decide (kf v = k)) as [<-|Hne]; [right; by rewrite lookup_insert_eq|].
  destruct Hor as [(o & [->|Ho]%elem_of_cons & Hk)|Hm]; [done|left; by exists o|right; by rewrite lookup_insert_ne].
Qed.


(** The derived code looks the keys up under the path of the struct, where
    there are none, and leaves the struct keyed without keys. *)
Definition struct_keyed (s : St) : Prop := st_keys s !! [] = Some (FieldKeys_new []).

Lemma derived_never_found k (s : St) :
  (st_keys s !! [] = None ∨ struct_keyed s) ∧ st_index_keys s !! ([], 0) = None →
  ∃ s', derived_path_at_key [] k s = Ok (None, s') ∧
    ((st_keys s' !! [] = None ∨ struct_keyed s') ∧ st_index_keys s' !! ([], 0) = None) ∧ struct_keyed s'.
Proof.
  intros [Hk Hi].
  assert (fk_get k (FieldKeys_new []) = None) as Hnone by apply lookup_empty.
  assert (derived_path_at_key [] k s = Ok (None, with_keys s [] (FieldKeys_new []))) as Hrun.
  { unfold derived_path_at_key, with_field_keys, gets, mbind, stateM_bind, mret, stateM_ret, struct_keyed in *.
    destruct Hk as [Hk|Hk]; rewrite Hk; [rewrite bool_decide_true by done|rewrite bool_decide_false by done];
      cbn -[FieldKeys_new fk_get]; rewrite Hk; cbn -[FieldKeys_new fk_get]; rewrite Hnone; done. }
  exists (with_keys s [] (FieldKeys_new [])). unfold struct_keyed. cbn -[FieldKeys_new].
  rewrite lookup_insert_eq. split_and!; auto.
Qed.

(** The patch that [#[derive(Patch)]] generates panics for a store with a
    keyed collection, whenever the collection keeps a key: the path of the key is
    looked up as if the struct itself was the collection, which makes the
    struct a keyed collection without items, and the notification of the
    collection fails on it.  It does not depend on what the items are, nor on
    whether any of them changes. *)
Theorem derived_keyed_patch_panics (s : St) kf t fields old new olds news :
  triggers_wf s → st_locked s = false → st_keys s !! [] = None → st_index_keys s !! ([], 0) = None →
  st_value s = VStruct (VVec old :: olds) → NoDup (map kf new) →
  (∃ o n, o ∈ old ∧ n ∈ new ∧ kf o = kf n) →
  patch visit_keys visit_new (TyStruct ((Keyed kf, TyVec t) :: fields)) FRoot (VStruct (VVec new :: news)) s = Panic.
Proof.
  intros Hw Hl Hk Hi Hv Hn (o & n & Ho & Hin & Hkey). unfold patch.
  assert (path_unkeyed (accessor FRoot) s = Ok ([], s)) as Hp by done. step_with Hp.
  destruct (ensures_run _ _ _ (writer_ok visit_keys visit_new s FRoot [] [] Hw Hl eq_refl))
    as (w & s1 & Hwr & gd & -> & _ & (Ev & _ & Ek & Ei) & _). cbn in Ev, Ek, Ei.
  step_with Hwr. assert (deref [] s1 = Ok (VStruct (VVec old :: olds), s1)) as Hd by (apply deref_ok; cbn; by rewrite Ev, Hv).
  step_with Hd. apply bind_panic. cbn [patch_field map patch_fields]. do 2 apply bind_panic.
  unfold patch_field_keyed. rewrite (imap_pair new), new_keyed_ok by done. cbn [app].
  set (m := foldl _ _ _). set (hc := existsb _ _).
  destruct (patch_entries_lost kf (patch_field t) (derived_path_at_key [])
    (λ s, (st_keys s !! [] = None ∨ struct_keyed s) ∧ st_index_keys s !! ([], 0) = None) struct_keyed derived_never_found
    new [] m hc s1) as (s2 & Hrun & [_ Hi2] & Hc2); [split; [left; by rewrite Ek|by rewrite Ei]|done|].
  assert (struct_keyed s2) as Hkeyed.
  { apply Hc2. right. exists n. split; [done|]. unfold m. rewrite imap_pair.
    apply old_keyed_found. left. by exists o. }
  cbn [length] in Hrun. step_with Hrun. cbn beta iota zeta. assert (bool_decide (new ≠ []) || hc = true) as ->.
  { rewrite bool_decide_true; [done|]. intros ->. by apply elem_of_nil in Hin. }
  apply bind_panic, notify_path_panics. cbn. unfold struct_keyed in Hkeyed. by rewrite Hkeyed, Hi2.
Qed.

(** ** The first patch of a collection *)

Lemma locked_reader (s : St) (f : @field K) : st_locked s = true → at_keys f = 0 → reader (accessor f) s = Ok (None, s).
Proof.
  intros Hl. induction f as [|f IH i|f IH|f IH i|f IH i kf|f IH i kf k]; intros Ha; cbn in Ha |- *; [..|done].
  1: unfold gets, mbind, stateM_bind; by rewrite Hl.
  all: by step_with (IH Ha).
Qed.

(** The state while the first patch holds the guard of the store [s] *)
Definition patching (s : St) (p : StorePath) (s' : St) : Prop :=
  st_locked s' = true ∧ same_data (with_keys (set_locked true s) p (FieldKeys_new [])) (with_keys s' p (FieldKeys_new [])) ∧
  traced s s' [] [] ∧ (st_keys s' !! p = None ∨ st_keys s' !! p = Some (FieldKeys_new [])).

Lemma first_never_found (s s' : St) g i kf p k : at_keys g = 0 → patching s p s' →
  ∃ s'', key_path visit_keys visit_new kf g i p k s' = Ok (None, s'') ∧ patching s p s'' ∧ True.
Proof.
  intros Ha (Hl & D & T & Hk).
  assert (latest_keys (accessor g) i kf s' = Ok ([], s')) as Hlat.
  { unfold latest_keys. pose proof (locked_reader s' (FKeyed g i kf) Hl Ha) as Hread. by step_with Hread. }
  assert (fk_get k (FieldKeys_new []) = None) as Hnone by apply lookup_empty.
  assert (key_path visit_keys visit_new kf g i p k s' = Ok (None, with_keys s' p (FieldKeys_new []))) as Hrun.
  { unfold key_path, get_keyed, with_field_keys, gets, mbind, stateM_bind, mret, stateM_ret.
    destruct Hk as [Hk|Hk]; rewrite Hk; [rewrite bool_decide_true by done; rewrite Hlat|rewrite bool_decide_false by done];
      cbn -[FieldKeys_new fk_get]; rewrite Hk; cbn -[FieldKeys_new fk_get]; rewrite Hnone; done. }
  exists (with_keys s' p (FieldKeys_new [])). split_and!; [done| |done]. split_and!; [done| | |right; apply lookup_insert_eq].
  - destruct D as (E1 & E2 & E3 & E4). split_and!; [done|done| |done]. cbn -[FieldKeys_new] in *. by rewrite insert_insert_eq.
  - apply (traced_trans s s' _ [] [] [] [] T). apply traced_refl; [apply T|done..].
Qed.

Lemma to_keyed_keys (s s1 : St) d u : st_index_keys s1 = st_index_keys s →
  (∀ q, length q < length d + length u → st_keys s1 !! q = st_keys s !! q) → to_keyed s1 d u = to_keyed s d u.
Proof.
  intros Ei. revert d. induction u as [|x u IH]; intros d Ek; cbn; [done|].
  rewrite Ei, Ek by (cbn; lia). destruct (match st_keys s !! d with Some _ => _ | None => _ end); cbn; [|done].
  apply IH. intros q Hq. apply Ek. rewrite length_app in Hq. cbn in *. lia.
Qed.

(** The first access to a keyed collection must not be a patch.  The keys of
    the collection are made while the patch holds the lock of the store, from
    items that cannot be read, so that no key is found: the collection has the
    keys of the new list in their order, but every key that was there before
    keeps its old item, and the new item is lost. *)
Theorem first_keyed_patch_keeps_old (s : St) g i kf t p st old new :
  triggers_wf s → st_locked s = false → at_keys g = 0 →
  resolved s (FKeyed g i kf) = Some (p, st) → to_keyed s [] p = Some p → st_keys s !! p = None →
  value_at st (st_value s) = Some (VVec old) → NoDup (map kf old) → NoDup (map kf new) →
  ∃ s', KeyedSubfield_patch visit_keys visit_new g i kf t new s = Ok (tt, s') ∧
    value_at st (st_value s') = Some (VVec (map (λ n, default n (item_at kf (kf n) old)) new)).
Proof.
  intros Hw Hl Ha Hr Hp Hk Hv Hno Hn. unfold KeyedSubfield_patch.
  pose proof (path_unkeyed_ok visit_keys visit_new s (FKeyed g i kf) p st ltac:(cbn; lia) Hr) as Hu. step_with Hu.
  rewrite <-(path_is_segments s (FKeyed g i kf) p st Ha Hr).
  destruct (ensures_run _ _ _ (writer_ok visit_keys visit_new s (FKeyed g i kf) p st Hw Hl Hr))
    as (w & s1 & Hwr & gd & -> & Hgi & D1 & T1 & _). destruct gd as [gi gt]. cbn in Hgi. subst gi.
  step_with Hwr. pose proof D1 as (Ev & El & Ek & Ei). cbn in Ev, El, Ek, Ei.
  assert (patching s p s1) as Hp1.
  { split_and!; [done| |done|left; by rewrite Ek]. split_and!; cbn -[FieldKeys_new]; [done|done|by rewrite Ek|done]. }
  assert (deref st s1 = Ok (VVec old, s1)) as Hd by (apply deref_ok; by rewrite Ev). cbn [items].
  set (m := old_keyed kf old).
  destruct (patch_entries_lost kf (patch_field t) (key_path visit_keys visit_new kf g i p) (patching s p) (λ _, True)
    (λ k s', first_never_found s s' g i kf p k Ha) new [] m
    (existsb (λ p, bool_decide (p.1 ∉ map fst (entries kf 0 new))) (map_to_list m)) s1 Hp1 Hn)
    as (s2 & Hrun & (El2 & (Ev2 & _ & Ek2 & Ei2) & T2 & Hk2) & _). cbn -[FieldKeys_new] in Ev2, Ek2, Ei2. cbn [length app] in Hrun.
  set (b := bool_decide _ || _) in Hrun. set (l := map (kept_value kf m) new) in *.
  assert (patch_field_keyed (patch_field t) (key_path visit_keys visit_new kf g i p) kf new old s1 = Ok ((l, b), s2)) as Hpatch.
  { unfold patch_field_keyed. by rewrite (imap_pair new), new_keyed_ok by done. }
  assert (l = map (λ n, default n (item_at kf (kf n) old)) new) as El3.
  { apply map_ext. intros n. unfold kept_value, m. destruct (old_keyed kf old !! kf n) as [[idx o]|] eqn:E.
    - apply (old_keyed_lookup kf old Hno) in E as [Ho Hkn]. by rewrite (item_at_Some kf (kf n) old idx o Hno Ho Hkn).
    - rewrite item_at_None; [done|]. intros Hin. apply list_elem_of_lookup in Hin as [idx Hin]. rewrite lookup_map in Hin.
      destruct (old !! idx) as [o|] eqn:Eo; [|done]. injection Hin as Hin.
      by rewrite (proj2 (old_keyed_lookup kf old Hno (kf n) idx o) (conj Eo Hin)) in E. }
  rewrite El3 in Hpatch. clear Hrun. clearbody b. rewrite <-El3 in Hpatch.
  set (s3 := set_locked false (set_value (update_at st (λ _, VVec l) (st_value s2)) s2)).
  assert ((match Some (mkGuard [] gt, st) with
    | Some (writer, p') =>
        let writer := guard_untrack writer in
        old ← deref p';
        r ← patch_field_keyed (patch_field t) (key_path visit_keys visit_new kf g i p) kf new (items old);
        let '(new, structure_changed) := r in
        _ ← modify (λ s, set_value (update_at p' (λ _, VVec new) (st_value s)) s);
        _ ← drop_guard writer;
        mret structure_changed
    | None => mret false
    end) s1 = Ok (b, s3)) as Hmid.
  { step_with Hd. cbn [items]. by step_with Hpatch. }
  step_with Hmid.
  destruct (ensures_run _ _ _ (patch_end_ok visit_keys visit_new kf g i s s3 p st (VVec old) l b
    ltac:(destruct (tr_wf _ _ _ _ T2); by split) eq_refl Ha Hr Hv ltac:(cbn; by rewrite Ev2)
    ltac:(rewrite <-Hp; apply to_keyed_keys; [done|]; intros q Hq; cbn; cbn in Hq; apply (f_equal (.!! q)) in Ek2;
          rewrite !lookup_insert_ne in Ek2 by (intros ->; lia); done)))
    as ([] & s4 & Hend & Ev4 & _). exists s4. split; [exact Hend|].
  rewrite Ev4. cbn. rewrite Ev2, <-El3. exact (value_at_update _ (λ _, VVec l) _ _ Hv).
Qed.
End cases.

(** * Stores: cases and witnesses

    A store with a keyed collection of items, the theorems on it, and a program
    in which a read through nested keys gives the wrong item. *)

Open Scope Z_scope.

Definition visit_keys : gmap Z (nat * nat) → list (Z * (nat * nat)) := map_to_list.
Definition visit_new : gmap Z nat → list (Z * nat) := map_to_list.

(** Structs are keyed by their first field. *)
Definition id_of (v : data) : Z := match v with VStruct (VPrim z :: _) => z | _ => 0 end.
Definition item (id label : Z) : data := VStruct [VPrim id; VPrim label].
Definition item_type : @ty Z := TyStruct [(Plain, TyPrim); (Plain, TyPrim)].
Definition todos_type : @ty Z := TyStruct [(Keyed id_of, TyVec item_type); (Plain, TyPrim)].
Definition todos_list : list data := [item 10 1; item 11 2; item 12 3].
Definition todos_value : data := VStruct [VVec todos_list; VPrim 5].

Definition todos : @field Z := FKeyed FRoot 0 id_of.
Definition todo (id : Z) : @field Z := FAtKey FRoot 0 id_of id.

Definition new_store : @ArcStore Z _ _ := ArcStore_new todos_value.
(** The store after [update_keys] on its collection *)
Definition keyed_store : @ArcStore Z _ _ := refresh visit_keys visit_new new_store [0%nat] [10; 11; 12].
(** The store after a read of the collection by key only *)
Definition read_store : @ArcStore Z _ _ := with_keys new_store [0%nat] (FieldKeys_new [10; 11; 12]).

Ltac typed_field := repeat (econstructor; try reflexivity).
Ltac decided := apply (bool_decide_unpack _); vm_compute; exact I.

Lemma new_triggers : triggers_wf (K := Z) new_store.
Proof. split; [by exists 0%nat|intros p t; cbn; by rewrite lookup_empty|intros p q t u; cbn; by rewrite lookup_empty]. Qed.
Lemma keyed_triggers : triggers_wf keyed_store.
Proof. split; [by exists 0%nat|intros p t; cbn; by rewrite lookup_empty|intros p q t u; cbn; by rewrite lookup_empty]. Qed.
Lemma read_triggers : triggers_wf read_store.
Proof. split; [by exists 0%nat|intros p t; cbn; by rewrite lookup_empty|intros p q t u; cbn; by rewrite lookup_empty]. Qed.

Lemma keyed_store_keys : st_keys keyed_store !! [0%nat] = Some (updated_keys visit_keys visit_new new_store [0%nat] [10; 11; 12]).2.
Proof. apply lookup_insert_eq. Qed.

Lemma updated_wf : fk_wf (updated_keys visit_keys visit_new new_store [0%nat] [10; 11; 12]).2.
Proof.
  assert (NoDup [10; 11; 12]) as Hn by decided. unfold updated_keys. change (st_keys new_store !! [0%nat]) with (@None (@FieldKeys Z _ _)). cbn [default from_option].
  pose proof (fk_update_ok visit_keys visit_new (λ _, reflexivity _) (λ _, reflexivity _) [10; 11; 12] (FieldKeys_new [10; 11; 12])
    (proj1 (FieldKeys_new_ok visit_keys _ Hn)) Hn) as Hup.
  destruct (fk_update _ _ _ _) as [ik fk]. apply Hup.
Qed.

Lemma keyed_keys_wf : keys_wf keyed_store.
Proof.
  intros p keys Hk. cbn in Hk. apply lookup_insert_Some in Hk as [[_ <-]|[_ Hk]]; [apply updated_wf|].
  by rewrite lookup_empty in Hk.
Qed.

Lemma write_notifies_readers_witness :
  ∃ v w s1 s2,
    try_get visit_keys visit_new (todo 10) keyed_store = Ok (Some v, s1) ∧
    value_at [IntoField 0; IntoItem 0; IntoField 1] (st_value keyed_store) = Some w ∧
    try_update visit_keys visit_new (FField (todo 10) 1) (λ _, VPrim 7) s1 = Ok (true, s2) ∧
    ∃ t, t ∈ st_tracked s2 ∧ t ∈ st_notified s2.
Proof.
  destruct (write_notifies_readers visit_keys visit_new todos_type keyed_store (todo 10) (FField (todo 10) 1) item_type TyPrim
    [0; 0]%nat [0; 0; 1]%nat [IntoField 0; IntoItem 0] [IntoField 0; IntoItem 0; IntoField 1] (λ _, VPrim 7)
    keyed_triggers keyed_keys_wf eq_refl eq_refl eq_refl ltac:(typed_field) ltac:(typed_field)
    ltac:(vm_compute; reflexivity) ltac:(vm_compute; reflexivity) ltac:(vm_compute; reflexivity))
    as (v & w & s1 & s2 & _ & Hget & Hw & Hup & _ & Hn & _).
  exists v, w, s1, s2. split_and!; [exact Hget|exact Hw|exact Hup|]. apply Hn. left. by exists [IntoField 1].
Defined.

(** The whole store is replaced. *)
Lemma iter_unkeyed_misses_ancestors_witness :
  ∃ v s1 s2,
    iter_unkeyed visit_keys visit_new todos keyed_store = Ok (map (FIndex todos) (seq 0 (len v)), s1) ∧
    try_update visit_keys visit_new FRoot (λ _, VStruct [VVec []; VPrim 6]) s1 = Ok (true, s2) ∧
    ¬ ∃ t, t ∈ st_tracked s2 ∧ t ∈ st_notified s2.
Proof.
  destruct (iter_unkeyed_misses_ancestors visit_keys visit_new todos_type keyed_store todos FRoot (TyVec item_type) todos_type
    [0]%nat [] [IntoField 0] [] (λ _, VStruct [VVec []; VPrim 6])
    keyed_triggers keyed_keys_wf eq_refl eq_refl eq_refl ltac:(typed_field) ltac:(typed_field)
    ltac:(vm_compute; reflexivity) eq_refl eq_refl (prefix_nil _) ltac:(discriminate))
    as (v & s1 & s2 & _ & Hit & Hup & _ & Hn).
  exists v, s1, s2. exact (conj Hit (conj Hup Hn)).
Defined.

(** A list that was changed behind the back of the keys *)
Definition stale_store : @ArcStore Z _ _ :=
  set_value (VStruct [VVec [item 13 4; item 10 1]; VPrim 5]) keyed_store.

Lemma at_key_finds_item_witness :
  (∃ s', try_get visit_keys visit_new (todo 13) stale_store = Ok (Some (item 13 4), s')) ∧
  (∃ s', try_get visit_keys visit_new (todo 11) stale_store = Ok (None, s')).
Proof.
  assert (∀ k, ∃ s', try_get visit_keys visit_new (todo k) stale_store = Ok (item_at id_of k [item 13 4; item 10 1], s')) as Hk.
  { intros k. destruct (at_key_finds_item visit_keys visit_new (λ _, reflexivity _) (λ _, reflexivity _) stale_store FRoot 0%nat id_of k
      [0%nat] [IntoField 0] [item 13 4; item 10 1]) as (s' & Hs & _); [destruct keyed_triggers; by split|done|vm_compute; reflexivity|done|decided| |by exists s'].
    intros keys Hk. apply (keyed_keys_wf [0%nat] keys Hk). }
  split; apply Hk.
Defined.

(** ** Witnesses for patches *)

Lemma patch_notifies_changes_witness :
  ∃ v s1 s2,
    try_get visit_keys visit_new (FField (todo 10) 1) keyed_store = Ok (Some v, s1) ∧
    patch visit_keys visit_new item_type (todo 10) (item 10 7) s1 = Ok (tt, s2) ∧
    (value_at [IntoField 0; IntoItem 0; IntoField 1] (st_value s2) ≠ Some v → ∃ x, x ∈ st_tracked s2 ∧ x ∈ st_notified s2).
Proof.
  destruct (patch_notifies_changes visit_keys visit_new todos_type keyed_store (FField (todo 10) 1) (todo 10) TyPrim item_type
    [0; 0; 1]%nat [IntoField 0; IntoItem 0; IntoField 1] [0; 0]%nat [IntoField 0; IntoItem 0] (item 10 1) (item 10 7)
    keyed_triggers keyed_keys_wf eq_refl eq_refl eq_refl ltac:(typed_field) ltac:(typed_field) eq_refl
    ltac:(vm_compute; reflexivity)) as (v & s1 & s2 & Hget & Hp & _ & Hn & _).
  - split; [vm_compute; reflexivity|cbn; lia|vm_compute; reflexivity| |done|repeat constructor|repeat constructor|done].
    intros r. cbn. by rewrite lookup_insert_ne.
  - exists v, s1, s2. exact (conj Hget (conj Hp Hn)).
Defined.

Lemma todos_ready : keyed_ready id_of FRoot 0 item_type keyed_store [0%nat] [IntoField 0] todos_list
  (updated_keys visit_keys visit_new new_store [0%nat] [10; 11; 12]).2.
Proof.
  split; [vm_compute; reflexivity|done|done|vm_compute; reflexivity|..|done| |].
  - intros x r. unfold keyed_store, refresh. cbn [st_keys]. by rewrite lookup_insert_ne.
  - apply keyed_store_keys.
  - apply updated_wf.
  - intros [|[|[|idx]]] o Ho; [..|done]; injection Ho as <-; eexists; split; vm_compute; reflexivity.
  - repeat constructor.
  - decided.
Qed.


Lemma item_patch_panics_witness : patch visit_keys visit_new item_type (todo 10) (item 10 7) read_store = Panic.
Proof.
  apply (item_patch_panics visit_keys visit_new read_store FRoot 0 id_of 10 item_type [0%nat] [IntoField 0] 0 (item 10 1) (item 10 7)
    read_triggers); try (by vm_compute).
  - by eexists.
  - repeat constructor.
  - repeat constructor.
Defined.

Lemma derived_keyed_patch_panics_witness :
  patch visit_keys visit_new todos_type FRoot todos_value new_store = Panic.
Proof.
  apply (derived_keyed_patch_panics visit_keys visit_new new_store id_of item_type [(Plain, TyPrim)] todos_list todos_list
    [VPrim 5] [VPrim 5] new_triggers eq_refl eq_refl eq_refl eq_refl ltac:(decided)).
  exists (item 10 1), (item 10 1). split_and!; [left|left|done].
Defined.

Lemma first_keyed_patch_keeps_old_witness :
  ∃ s', KeyedSubfield_patch visit_keys visit_new FRoot 0 id_of item_type [item 12 8; item 10 9; item 13 4] new_store = Ok (tt, s') ∧
    value_at [IntoField 0] (st_value s') = Some (VVec [item 12 3; item 10 1; item 13 4]).
Proof.
  apply (first_keyed_patch_keeps_old visit_keys visit_new new_store FRoot 0 id_of item_type [0%nat] [IntoField 0] todos_list
    [item 12 8; item 10 9; item 13 4] new_triggers eq_refl eq_refl eq_refl ltac:(vm_compute; reflexivity) eq_refl eq_refl
    ltac:(decided) ltac:(decided)).
Defined.

(** ** Collections inside the items of a collection *)

Definition part (id : Z) (chapters : list data) : data := VStruct [VPrim id; VVec chapters].
Definition chapter (p c : Z) : @field Z := FAtKey (FAtKey FRoot 0 id_of p) 1 id_of c.
Definition add_part (p v : data) : data :=
  match v with VStruct [VVec parts] => VStruct [VVec (parts ++ [p])] | _ => v end.

Definition results {A} (c : stateM (@ArcStore Z _ _) A) (s : @ArcStore Z _ _) : option A :=
  match c s with Ok (a, _) => Some a | _ => None end.

(** A read through nested keys can give an item that has another key.  Parts
    with chapters are added to a store by writes to the whole store, and after
    each a chapter of the new part is read by the keys of the part and of the
    chapter.  The keys of the parts are out of date at the time, so that the
    keys of the chapters are kept under a path that is the same for all new
    parts: what was found for the first is used for the second, and the
    recovery from keys that are out of date updates the keys under another path
    than the one it looks at.  The read of chapter 20 of part 3 gives chapter
    30; when it is read again it gives chapter 20. *)
Theorem nested_keys_give_other_item (a b c d e : Z) :
  results (
    r1 ← try_get visit_keys visit_new (chapter 1 10);
    _ ← try_update visit_keys visit_new FRoot (add_part (part 2 [item 21 b; item 20 c]));
    r2 ← try_get visit_keys visit_new (chapter 2 20);
    _ ← try_update visit_keys visit_new FRoot (add_part (part 3 [item 20 d; item 30 e]));
    r3 ← try_get visit_keys visit_new (chapter 3 20);
    r4 ← try_get visit_keys visit_new (chapter 3 20);
    mret [r1; r2; r3; r4]) (ArcStore_new (VStruct [VVec [part 1 [item 10 a]]])) =
  Some [Some (item 10 a); Some (item 20 c); Some (item 30 e); Some (item 20 d)].
Proof. vm_compute. reflexivity. Qed.
