(* ===== verification/HotReload.v ===== *)
(** * Hot reloading

    [leptos_hot_reload]: the templates of [view!] macros are read again while
    the program runs, and the difference between the old and the new template
    is sent to the browser as a list of patches.  [node.rs] has the templates
    and the HTML of a part of them, [diff.rs] the differences, by the edit
    distance of lists of children, [lib.rs] the templates of every file.  The
    parser of templates ([rstml] and [syn]) is not part of this repository. *)

From Stdlib Require Import Ascii.
From stdpp Require Import base gmap list strings.
From S2P Require Import Prelude RustStr.

(** ** Templates ([node.rs]) *)

Inductive LAttributeValue :=
| Boolean
| Static (value : str)
| Dynamic
| Noop.

Inductive LNode :=
| Fragment (fragment : list LNode)
| Text (text : str)
| Element (name : str) (attrs : list (str * LAttributeValue)) (children : list LNode)
| Component (name : str) (props : list (str * str)) (children : list LNode)
| DynChild (code : str).

#[export] Instance LAttributeValue_eq_dec : EqDecision LAttributeValue.
Proof. solve_decision. Defined.

(** [#[derive(PartialEq, Eq)]] of a type that is nested in lists *)
#[export] Instance LNode_eq_dec : EqDecision LNode.
Proof.
  refine (fix go a b := let _ : EqDecision LNode := @go in
    match a, b with
    | Fragment f, Fragment f' => cast_if (decide (f = f'))
    | Text t, Text t' => cast_if (decide (t = t'))
    | Element n at_ c, Element n' at_' c' =>
        cast_if_and3 (decide (n = n')) (decide (at_ = at_')) (decide (c = c'))
    | Component n p c, Component n' p' c' =>
        cast_if_and3 (decide (n = n')) (decide (p = p')) (decide (c = c'))
    | DynChild d, DynChild d' => cast_if (decide (d = d'))
    | _, _ => right _
    end); abstract congruence.
Defined.

Definition quote : str := [ascii_of_nat 34].

(** [{name}="{value}" ] *)
Definition attr_to_html (attr : str * LAttributeValue) : str :=
  match attr.2 with
  | Boolean => attr.1 ++ lit " "
  | Static value => attr.1 ++ lit "=" ++ quote ++ value ++ quote ++ lit " "
  | Dynamic | Noop => []
  end.

Fixpoint to_html (node : LNode) : str :=
  match node with
  | Fragment frag => concat (map to_html frag)
  | Text text => text
  | Component name _ _ =>
      lit "<!--<" ++ name ++ lit ">--><pre>&lt;" ++ name
        ++ lit "/&gt; will load once Rust code has been compiled.</pre><!--</" ++ name ++ lit ">-->"
  | DynChild _ =>
      lit "<!--<DynChild>--><pre>Dynamic content will load once Rust code has been compiled.</pre><!--</DynChild>-->"
  | Element name attrs children =>
      let attrs' := concat (map attr_to_html attrs) in
      let children' := concat (map to_html children) in
      match children with
      | [] => lit "<" ++ name ++ lit " " ++ attrs' ++ lit "/>"
      | _ => lit "<" ++ name ++ lit " " ++ attrs' ++ lit ">" ++ children' ++ lit "</" ++ name ++ lit ">"
      end
  end.

(** ** Patches ([diff.rs]) *)

Inductive ReplacementNode :=
| RHtml (html : str)
| RPath (path : list nat)
| RFragment (nodes : list ReplacementNode)
| RElement (name : str) (attrs : list (str * str)) (children : list ReplacementNode).

Inductive PatchAction :=
| ReplaceWith (node : ReplacementNode)
| ChangeTagName (name : str)
| RemoveAttribute (name : str)
| SetAttribute (name value : str)
| SetText (text : str)
| ClearChildren
| AppendChildren (nodes : list ReplacementNode)
| RemoveChild (at_ : nat)
| InsertChild (before : nat) (child : ReplacementNode)
| InsertChildAfter (after : nat) (child : ReplacementNode).

Record Patch := mkPatch {
  path : list nat;
  action : PatchAction;
}.

(** ** The dynamic parts of the old template *)

(** [OldChildren], an [IndexMap] of which only the lookup is used *)
Definition OldChildren := list (LNode * list nat).

Fixpoint old_get (node : LNode) (positions : OldChildren) : option (list nat) :=
  match positions with
  | [] => None
  | (n, p) :: positions => if decide (n = node) then Some p else old_get node positions
  end.

(** [IndexMap::insert], which keeps the place of a key that is there *)
Fixpoint old_insert (node : LNode) (p : list nat) (positions : OldChildren) : OldChildren :=
  match positions with
  | [] => [(node, p)]
  | (n, p') :: positions =>
      if decide (n = node) then (n, p) :: positions else (n, p') :: old_insert node p positions
  end.

(** The loop over the children, with their indices from [idx] on *)
Fixpoint add_children (adds : list (list nat → OldChildren → OldChildren)) (idx : nat)
    (p : list nat) (positions : OldChildren) : OldChildren :=
  match adds with
  | [] => positions
  | add :: adds => add_children adds (S idx) p (add (p ++ [idx]) positions)
  end.

Fixpoint add_old_children (self : LNode) (p : list nat) (positions : OldChildren) : OldChildren :=
  match self with
  | Fragment frag => add_children (map add_old_children frag) 0 p positions
  | Element _ _ children => add_children (map add_old_children children) 0 p positions
  | DynChild _ => old_insert self p positions
  | Component _ _ children =>
      add_children (map add_old_children children) 0 p (old_insert self p positions)
  | Text _ => positions
  end.

(** The attributes of a new element; [Boolean] gets its name as a value. *)
Definition replacement_attrs (attrs : list (str * LAttributeValue)) : list (str * str) :=
  omap (λ a, match a.2 with
             | Boolean => Some (a.1, a.1)
             | Static value => Some (a.1, value)
             | _ => None
             end) attrs.

Fixpoint to_replacement_node (old_children : OldChildren) (self : LNode) : ReplacementNode :=
  match old_get self old_children with
  | Some p => RPath p
  | None =>
      match self with
      | Fragment fragment => RFragment (map (to_replacement_node old_children) fragment)
      | Element name attrs children =>
          RElement name (replacement_attrs attrs) (map (to_replacement_node old_children) children)
      | Text _ | Component _ _ _ | DynChild _ => RHtml (to_html self)
      end
  end.

(** ** Attributes *)

Definition attr_addition (p : list nat) (old : list (str * LAttributeValue))
    (new_attr : str * LAttributeValue) : option Patch :=
  let old_attr := List.find (λ a, bool_decide (a.1 = new_attr.1)) old in
  let replace := match old_attr with
                 | None => true
                 | Some (_, old_value) => bool_decide (old_value ≠ new_attr.2)
                 end in
  if replace then
    match new_attr.2 with
    | Boolean => Some (mkPatch p (SetAttribute new_attr.1 []))
    | Static s => Some (mkPatch p (SetAttribute new_attr.1 s))
    | _ => None
    end
  else None.

Definition attr_removal (p : list nat) (new : list (str * LAttributeValue))
    (old_attr : str * LAttributeValue) : option Patch :=
  if existsb (λ a, bool_decide (a.1 = old_attr.1)) new then None
  else Some (mkPatch p (RemoveAttribute old_attr.1)).

Definition diff_attrs (p : list nat) (old new : list (str * LAttributeValue)) : list Patch :=
  omap (attr_addition p old) new ++ omap (attr_removal p new) old.

(** ** Children *)

(** [mat[k]] and [mat[k] = v], which panic out of bounds *)
Definition mat_get (mat : list nat) (k : nat) : outcome nat := unwrap (mat !! k).
Definition mat_set (k v : nat) : stateM (list nat) unit := λ mat,
  if decide (k < length mat) then Ok (tt, <[k := v]> mat) else Panic.

Section Children.
Context (old new : list LNode).

Definition width : nat := length old + 1.
Definition height : nat := length new + 1.

(** [old[i - 1] == new[j - 1]] *)
Definition same_child (i j : nat) : outcome bool :=
  a ← unwrap (old !! (i - 1)); b ← unwrap (new !! (j - 1)); mret (bool_decide (a = b)).

(** The cell of the first [i] old and the first [j] new children *)
Definition fill_cell (j i : nat) : stateM (list nat) unit := λ mat,
  same ← same_child i j;
  if (same : bool) then d ← mat_get mat ((j - 1) * width + (i - 1)); mat_set (j * width + i) d mat
  else
    a ← mat_get mat ((j - 1) * width + i);
    b ← mat_get mat (j * width + (i - 1));
    c ← mat_get mat ((j - 1) * width + (i - 1));
    mat_set (j * width + i) (((a + 1) `min` (b + 1)) `min` (c + 1)) mat.

Definition fill_matrix : stateM (list nat) unit :=
  _ ← for_each (λ i, mat_set i i) (seq 1 (width - 1));
  _ ← for_each (λ i, mat_set (i * width) i) (seq 1 (height - 1));
  for_each (λ j, for_each (fill_cell j) (seq 1 (width - 1))) (seq 1 (height - 1)).

Definition edit_matrix : outcome (list nat) :=
  r ← fill_matrix (replicate (width * height) 0); mret r.2.

(** The walk back through the matrix.  [diff_old i other p] is
    [old[i].diff_at(other, p, old_children)]. *)
Context (diff_old : nat → LNode → list nat → outcome (list Patch)) (old_children : OldChildren)
  (p : list nat) (mat : list nat).

(** [previous + 1 == current], if there is such a cell *)
Definition came_from (possible : bool) (k current : nat) : outcome bool :=
  if possible then d ← mat_get mat k; mret (bool_decide (d + 1 = current)) else mret false.

Fixpoint walk_back (fuel i j : nat) (patches : list Patch) : outcome (list Patch) :=
  if (0 <? i) || (0 <? j) then
    match fuel with
    | 0 => NoFuel
    | S fuel =>
        same ← (if (0 <? i) && (0 <? j) then same_child i j else mret false);
        if (same : bool) then walk_back fuel (i - 1) (j - 1) patches
        else
          current ← mat_get mat (j * width + i);
          replaced ← came_from ((0 <? i) && (0 <? j)) ((j - 1) * width + i - 1) current;
          if (replaced : bool) then
            other ← unwrap (new !! (j - 1));
            diffs ← diff_old (i - 1) other (p ++ [i - 1]);
            walk_back fuel (i - 1) (j - 1) (patches ++ diffs)
          else
            removed ← came_from (0 <? i) (j * width + i - 1) current;
            if (removed : bool) then
              walk_back fuel (i - 1) j (patches ++ [mkPatch p (RemoveChild (i - 1))])
            else
              inserted ← came_from (0 <? j) ((j - 1) * width + i) current;
              if (inserted : bool) then
                other ← unwrap (new !! (j - 1));
                walk_back fuel i (j - 1)
                  (patches ++ [mkPatch p (InsertChild i (to_replacement_node old_children other))])
              else Panic
    end
  else mret patches.

End Children.

Definition diff_children (diff_old : nat → LNode → list nat → outcome (list Patch)) (p : list nat)
    (old new : list LNode) (old_children : OldChildren) : outcome (list Patch) :=
  match old, new with
  | [], [] => mret []
  | [], _ => mret [mkPatch p (AppendChildren (map (λ n, RHtml (to_html n)) new))]
  | _, [] => mret [mkPatch p ClearChildren]
  | _, _ =>
      mat ← edit_matrix old new;
      walk_back old new diff_old old_children p mat (length old + length new)
        (length old) (length new) []
  end.

(** ** Templates *)

(** [std::mem::discriminant] *)
Definition discriminant (node : LNode) : nat :=
  match node with
  | Fragment _ => 0 | Text _ => 1 | Element _ _ _ => 2 | Component _ _ _ => 3 | DynChild _ => 4
  end.

(** [old[i]], of which [diffs] has the function [diff_at] *)
Definition diff_nth (diffs : list (LNode → list nat → outcome (list Patch))) (i : nat)
    (other : LNode) (p : list nat) : outcome (list Patch) :=
  f ← unwrap (diffs !! i); f other p.

Fixpoint diff_at (orig_children : OldChildren) (self other : LNode) (p : list nat)
    : outcome (list Patch) :=
  if decide (discriminant self ≠ discriminant other) then
    mret [mkPatch p (ReplaceWith (to_replacement_node orig_children other))]
  else
    match self, other with
    | Fragment old, Fragment new =>
        diff_children (diff_nth (map (diff_at orig_children) old)) p old new orig_children
    | Text _, Text new => mret [mkPatch p (SetText new)]
    | Element old_name old_attrs old_children, Element new_name new_attrs new_children =>
        let tag_patch := if decide (old_name ≠ new_name)
                         then [mkPatch p (ChangeTagName new_name)] else [] in
        let attrs_patch := diff_attrs p old_attrs new_attrs in
        children_patch ← diff_children (diff_nth (map (diff_at orig_children) old_children)) p
                           old_children new_children orig_children;
        mret (attrs_patch ++ tag_patch ++ children_patch)
    | Component old_name _ old_children, Component new_name _ new_children =>
        if decide (old_name = new_name) then
          diff_children (diff_nth (map (diff_at orig_children) old_children)) (p ++ [0] ++ [0])
            old_children new_children orig_children
        else mret []
    | _, _ => mret []
    end.

(** [LNode::diff] *)
Definition diff (self other : LNode) : outcome (list Patch) :=
  diff_at (add_old_children self [] []) self other [].

(** ** Files ([lib.rs]) *)

Record MacroInvocation := mkMacroInvocation {
  id : str;
  template : LNode;
}.

(** [path.replace(['/', '\\'], "-")] and the line *)
Definition span_to_stable_id (file line : str) : str :=
  map (λ c, if decide (c = slash ∨ c = ascii_of_nat 92) then "-"%char else c) file ++ lit "-" ++ line.

Definition Patches := list (str * list Patch).

(** The loop over the pairs of a current and a new view *)
Fixpoint diff_views (pairs : list (MacroInvocation * MacroInvocation)) (diffs : Patches) : outcome Patches :=
  match pairs with
  | [] => mret diffs
  | (current_view, new_view) :: pairs =>
      if decide (id current_view = id new_view ∧ template current_view ≠ template new_view) then
        ps ← diff (template current_view) (template new_view);
        diff_views pairs (diffs ++ [(id current_view, ps)])
      else diff_views pairs diffs
  end.

(** [ViewMacros::patch]; [new_views] is what [parse_file] makes of the file. *)
Definition ViewMacros_patch (file : str) (new_views : list MacroInvocation)
    : stateM (gmap str (list MacroInvocation)) (option Patches) := λ views,
  match views !! file with
  | None => Ok (None, views)
  | Some current_views =>
      if decide (length current_views = length new_views) then
        diffs ← diff_views (zip current_views new_views) [];
        Ok (Some diffs, <[file := new_views]> views)
      else Ok (None, <[file := new_views]> views)
  end.

(** ** The tests of the source *)

Module Tests.
Definition button (text : string) : LNode := Element (lit "button") [] [Text (lit text)].

Example patches_text :
  diff (Text (lit "foo")) (Text (lit "bar")) = Ok [mkPatch [] (SetText (lit "bar"))].
Proof. vm_compute. reflexivity. Qed.

Example patches_attrs :
  diff (Element (lit "button") [(lit "class", Static (lit "a")); (lit "type", Static (lit "button"))] [])
       (Element (lit "button") [(lit "class", Static (lit "a b")); (lit "id", Static (lit "button"))] [])
  = Ok [mkPatch [] (SetAttribute (lit "class") (lit "a b"));
        mkPatch [] (SetAttribute (lit "id") (lit "button"));
        mkPatch [] (RemoveAttribute (lit "type"))].
Proof. vm_compute. reflexivity. Qed.

Example patches_child_text :
  diff (Element (lit "button") [] [Text (lit "foo"); Text (lit "bar")])
       (Element (lit "button") [] [Text (lit "foo"); Text (lit "baz")])
  = Ok [mkPatch [1] (SetText (lit "baz"))].
Proof. vm_compute. reflexivity. Qed.

Example inserts_child :
  diff (Element (lit "div") [] [button "bar"]) (Element (lit "div") [] [button "foo"; button "bar"])
  = Ok [mkPatch [] (InsertChild 0 (RElement (lit "button") [] [RHtml (lit "foo")]))].
Proof. vm_compute. reflexivity. Qed.

Example removes_child :
  diff (Element (lit "div") [] [button "foo"; button "bar"]) (Element (lit "div") [] [button "foo"])
  = Ok [mkPatch [] (RemoveChild 1)].
Proof. vm_compute. reflexivity. Qed.
End Tests.
