(* ===== verification/HotEdits.v ===== *)
(** * Edit distances

    The matrix of [diff_children] holds, for every two prefixes of the old and
    the new children, the least number of children that have to be replaced,
    removed or inserted to make one of the other. *)

From stdpp Require Import base list.
From S2P Require Import Prelude RustStr HotReload.

(** ** Edits *)

Section Edits.
Context {A : Type}.
Implicit Types (xs ys : list A) (n d : nat).

(** [n] replacements, removals and insertions make [ys] of [xs]. *)
Inductive edits : list A → list A → nat → Prop :=
| edits_nil : edits [] [] 0
| edits_keep x xs ys n : edits xs ys n → edits (x :: xs) (x :: ys) n
| edits_replace x y xs ys n : edits xs ys n → edits (x :: xs) (y :: ys) (S n)
| edits_remove x xs ys n : edits xs ys n → edits (x :: xs) ys (S n)
| edits_insert y xs ys n : edits xs ys n → edits xs (y :: ys) (S n).

Definition least_edits xs ys d : Prop := edits xs ys d ∧ ∀ n, edits xs ys n → d ≤ n.

Lemma edits_app xs ys n xs' ys' m :
  edits xs ys n → edits xs' ys' m → edits (xs ++ xs') (ys ++ ys') (n + m).
Proof. intros H H'. induction H; simpl; [done | constructor; done..]. Qed.

Lemma edits_rev xs ys n : edits xs ys n → edits (rev xs) (rev ys) n.
Proof.
  induction 1; simpl; [constructor | ..].
  - rewrite <- (Nat.add_0_r n). apply edits_app; [done | repeat constructor].
  - rewrite <- (Nat.add_1_r n). apply edits_app; [done | repeat constructor].
  - rewrite <- (Nat.add_1_r n), <- (app_nil_r (rev ys)). apply edits_app; [done | repeat constructor].
  - rewrite <- (Nat.add_1_r n), <- (app_nil_r (rev xs)). apply edits_app; [done | repeat constructor].
Qed.

Lemma least_rev xs ys d : least_edits (rev xs) (rev ys) d → least_edits xs ys d.
Proof.
  intros [H Hmin]. split; [| intros n Hn; apply Hmin, edits_rev, Hn].
  rewrite <- (rev_involutive xs), <- (rev_involutive ys). apply edits_rev, H.
Qed.

Lemma edits_tail_new xs y ys n : edits xs (y :: ys) n → ∃ m, edits xs ys m ∧ m ≤ S n.
Proof.
  remember (y :: ys) as ys' eqn:E. intros H. revert y ys E.
  induction H as [| x xs ys' n H IH | x y' xs ys' n H IH | x xs ys' n H IH | y' xs ys' n H IH];
    intros y0 ys0 [=]; subst.
  - exists (S n). split; [by constructor | lia].
  - exists (S n). split; [by constructor | lia].
  - destruct (IH y0 ys0 eq_refl) as (m & Hm & ?). exists (S m). split; [by constructor | lia].
  - exists n. split; [done | lia].
Qed.

Lemma edits_tail_old x xs ys n : edits (x :: xs) ys n → ∃ m, edits xs ys m ∧ m ≤ S n.
Proof.
  remember (x :: xs) as xs' eqn:E. intros H. revert x xs E.
  induction H as [| x xs' ys n H IH | x y' xs' ys n H IH | x xs' ys n H IH | y' xs' ys n H IH];
    intros x0 xs0 [=]; subst.
  - exists (S n). split; [by constructor | lia].
  - exists (S n). split; [by constructor | lia].
  - exists n. split; [done | lia].
  - destruct (IH x0 xs0 eq_refl) as (m & Hm & ?). exists (S m). split; [by constructor | lia].
Qed.

Lemma edits_same_head x xs ys n : edits (x :: xs) (x :: ys) n → ∃ m, edits xs ys m ∧ m ≤ n.
Proof.
  inversion 1; subst.
  - eauto.
  - eauto.
  - by destruct (edits_tail_new _ _ _ _ H4) as (m & ? & ?); exists m.
  - by destruct (edits_tail_old _ _ _ _ H4) as (m & ? & ?); exists m.
Qed.

Lemma least_keep x xs ys d : least_edits xs ys d → least_edits (xs ++ [x]) (ys ++ [x]) d.
Proof.
  intros [H Hmin]. apply least_rev. rewrite !rev_app_distr. simpl. split; [by constructor; apply edits_rev |].
  intros n (m & Hm & ?)%edits_same_head. apply edits_rev in Hm. rewrite !rev_involutive in Hm.
  specialize (Hmin m Hm). lia.
Qed.

Lemma edits_snoc_cases x y xs ys n : x ≠ y → edits (xs ++ [x]) (ys ++ [y]) n →
  ∃ m, n = S m ∧ (edits xs ys m ∨ edits (xs ++ [x]) ys m ∨ edits xs (ys ++ [y]) m).
Proof.
  intros Hxy H%edits_rev. rewrite !rev_app_distr in H. simpl in H.
  inversion H; subst; [done | ..]; eexists; (split; [done |]).
  all: match goal with H : edits _ _ ?n |- context [edits _ _ ?n] => apply edits_rev in H end.
  all: simpl in *; rewrite ?rev_involutive in *; tauto.
Qed.

Lemma least_change x y xs ys a b c : x ≠ y →
  least_edits (xs ++ [x]) ys a → least_edits xs (ys ++ [y]) b → least_edits xs ys c →
  least_edits (xs ++ [x]) (ys ++ [y]) (((a + 1) `min` (b + 1)) `min` (c + 1)).
Proof.
  intros Hxy [Ha Hmina] [Hb Hminb] [Hc Hminc]. split.
  - assert (edits (xs ++ [x]) (ys ++ [y]) (a + 1)).
    { rewrite <- (app_nil_r (xs ++ [x])). apply edits_app; [done | repeat constructor]. }
    assert (edits (xs ++ [x]) (ys ++ [y]) (b + 1)).
    { rewrite <- (app_nil_r (ys ++ [y])). apply edits_app; [done | repeat constructor]. }
    assert (edits (xs ++ [x]) (ys ++ [y]) (c + 1)) by (apply edits_app; [done | repeat constructor]).
    destruct (Nat.min_spec (a + 1) (b + 1)) as [[_ ->] | [_ ->]];
      [destruct (Nat.min_spec (a + 1) (c + 1)) as [[_ ->] | [_ ->]] |
       destruct (Nat.min_spec (b + 1) (c + 1)) as [[_ ->] | [_ ->]]]; done.
  - intros n (m & -> & [H | [H | H]])%edits_snoc_cases; [| | | done].
    + specialize (Hminc m H). lia.
    + specialize (Hmina m H). lia.
    + specialize (Hminb m H). lia.
Qed.

Lemma least_nil_l ys : least_edits [] ys (length ys).
Proof.
  split; [induction ys; simpl; by constructor |].
  intros n H. remember [] as xs eqn:E. induction H; simplify_eq/=; try specialize (IHedits eq_refl); lia.
Qed.

Lemma least_nil_r xs : least_edits xs [] (length xs).
Proof.
  split; [induction xs; simpl; by constructor |].
  intros n H. remember [] as ys eqn:E. induction H; simplify_eq/=; try specialize (IHedits eq_refl); lia.
Qed.
End Edits.

(** ** The matrix *)

(** A loop over consecutive indices keeps an invariant. *)
Lemma for_each_seq {S} (f : nat → stateM S unit) (I : nat → S → Prop) n : ∀ k s,
  I k s → (∀ i s, k ≤ i < k + n → I i s → ∃ s', f i s = Ok (tt, s') ∧ I (i + 1) s') →
  ∃ s', for_each f (seq k n) s = Ok (tt, s') ∧ I (k + n) s'.
Proof.
  induction n as [| n IH]; intros k s HI Hf.
  - exists s. rewrite Nat.add_0_r. done.
  - destruct (Hf k s) as (s1 & H1 & HI1); [lia | done |].
    destruct (IH (k + 1) s1 HI1) as (s2 & H2 & HI2); [intros; apply Hf; [lia | done] |].
    exists s2. simpl. step_with H1. rewrite Nat.add_1_r in *.
    split; [done | by rewrite Nat.add_succ_r].
Qed.

Section Matrix.
Context (old new : list LNode).
Abbreviation W := (width old).
Abbreviation H := (height new).

(** [mat] holds the distances at the cells in [P]. *)
Definition filled (P : nat → nat → Prop) (mat : list nat) : Prop :=
  length mat = W * H ∧
  ∀ i j, i ≤ length old → j ≤ length new → P i j →
    ∃ d, mat !! (j * W + i) = Some d ∧ least_edits (take i old) (take j new) d.

Lemma cell_inj i j i' j' : i < W → i' < W → j * W + i = j' * W + i' → i = i' ∧ j = j'.
Proof.
  intros Hi Hi' E.
  assert (j = j') as ->; [| lia].
  destruct (Nat.lt_trichotomy j j') as [? | [? | ?]]; [| done |]; exfalso; nia.
Qed.

Lemma cell_bound i j : i ≤ length old → j ≤ length new → j * W + i < W * H.
Proof. unfold width, height. nia. Qed.

Lemma filled_weaken P Q mat : filled P mat →
  (∀ i j, i ≤ length old → j ≤ length new → Q i j → P i j) → filled Q mat.
Proof. intros [? HP] HPQ. split; [done | eauto]. Qed.

Lemma filled_get P mat i j : filled P mat → i ≤ length old → j ≤ length new → P i j →
  ∃ d, mat_get mat (j * W + i) = Ok d ∧ least_edits (take i old) (take j new) d.
Proof.
  intros [_ HP] Hi Hj HPij. destruct (HP i j Hi Hj HPij) as (d & Hd & ?).
  exists d. unfold mat_get. by rewrite Hd.
Qed.

Lemma filled_set P Q mat i j d : filled P mat → i ≤ length old → j ≤ length new →
  least_edits (take i old) (take j new) d →
  (∀ i' j', i' ≤ length old → Q i' j' → P i' j' ∨ i' = i ∧ j' = j) →
  ∃ mat', mat_set (j * W + i) d mat = Ok (tt, mat') ∧ filled Q mat'.
Proof.
  intros [Hlen HP] Hi Hj Hd HQ. pose proof (cell_bound i j Hi Hj).
  unfold mat_set. rewrite decide_True by lia. eexists; split; [done |].
  split; [by rewrite length_insert |]. intros i' j' Hi' Hj' [HPij | [-> ->]]%HQ; [| | done].
  - destruct (decide (j * W + i = j' * W + i')) as [E | E].
    + apply cell_inj in E as [<- <-]; [| unfold width; lia..].
      exists d. rewrite list_lookup_insert_eq by lia. done.
    + rewrite list_lookup_insert_ne by done. apply HP; done.
  - exists d. rewrite list_lookup_insert_eq by lia. done.
Qed.

Lemma same_child_ok i j : 0 < i ≤ length old → 0 < j ≤ length new →
  ∃ a b, old !! (i - 1) = Some a ∧ new !! (j - 1) = Some b ∧
    same_child old new i j = Ok (bool_decide (a = b)).
Proof.
  intros Hi Hj.
  destruct (lookup_lt_is_Some_2 old (i - 1)) as [a Ha]; [lia |].
  destruct (lookup_lt_is_Some_2 new (j - 1)) as [b Hb]; [lia |].
  exists a, b. unfold same_child. by rewrite Ha, Hb.
Qed.

Lemma take_pred {A} (l : list A) i x : 0 < i → l !! (i - 1) = Some x → take i l = take (i - 1) l ++ [x].
Proof. intros Hi Hx. rewrite <- (take_S_r _ _ _ Hx). f_equal. lia. Qed.

(** The cells that are known while row [j] is filled up to column [i] *)
Definition before (i j i' j' : nat) : Prop := i' = 0 ∨ j' = 0 ∨ j' < j ∨ j' = j ∧ i' < i.

Lemma fill_cell_ok i j mat : 0 < i ≤ length old → 0 < j ≤ length new →
  filled (before i j) mat → ∃ mat', fill_cell old new j i mat = Ok (tt, mat') ∧ filled (before (i + 1) j) mat'.
Proof.
  intros Hi Hj HF. unfold before in *.
  destruct (same_child_ok i j Hi Hj) as (x & y & Hx & Hy & Hs).
  destruct (filled_get _ _ (i - 1) (j - 1) HF) as (c & Ec & Hc); [lia.. |].
  destruct (filled_get _ _ i (j - 1) HF) as (a & Ea & Ha); [lia.. |].
  destruct (filled_get _ _ (i - 1) j HF) as (b & Eb & Hb); [lia.. |].
  unfold fill_cell. rewrite Hs, Ec, Ea, Eb. simpl.
  rewrite (take_pred new j y) in Hb by (lia || done). rewrite (take_pred old i x) in Ha by (lia || done).
  case_bool_decide as E; simpl; (eapply filled_set; [exact HF | lia | lia | | intros; simpl in *; lia]).
  - subst y. rewrite (take_pred old i x), (take_pred new j x) by (lia || done). by apply least_keep.
  - rewrite (take_pred old i x), (take_pred new j y) by (lia || done). by apply least_change.
Qed.

(** [edit_matrix] fills all cells without leaving the matrix. *)
Lemma edit_matrix_filled : ∃ mat, edit_matrix old new = Ok mat ∧ filled (λ _ _, True) mat.
Proof.
  destruct (for_each_seq (λ i, mat_set i i) (λ k, filled (λ i j, j = 0 ∧ i < k)) (length old)
              1 (replicate (W * H) 0)) as (m1 & E1 & F1).
  { split; [apply length_replicate |]. intros i j _ _ [-> ?]. assert (i = 0) as -> by lia.
    exists 0. rewrite lookup_replicate_2; [split; [done | apply least_nil_l] |]. unfold width, height. lia. }
  { intros i mat Hi HF. change (mat_set i i) with (mat_set (0 * W + i) i).
    eapply filled_set; [exact HF | lia | lia | | intros; simpl in *; lia].
    rewrite take_0. replace i with (length (take i old)) at 2 by (rewrite length_take; lia). apply least_nil_r. }
  destruct (for_each_seq (λ i, mat_set (i * W) i) (λ k, filled (λ i j, j = 0 ∨ i = 0 ∧ j < k)) (length new)
              1 m1) as (m2 & E2 & F2).
  { eapply filled_weaken; [exact F1 | intros; simpl in *; lia]. }
  { intros j mat Hj HF. replace (j * W) with (j * W + 0) by lia.
    eapply filled_set; [exact HF | lia | lia | | intros; simpl in *; lia].
    rewrite take_0. replace j with (length (take j new)) at 2 by (rewrite length_take; lia). apply least_nil_l. }
  destruct (for_each_seq (λ j, for_each (fill_cell old new j) (seq 1 (length old)))
              (λ k, filled (before 1 k)) (length new) 1 m2) as (m3 & E3 & F3).
  { eapply filled_weaken; [exact F2 |]. unfold before. intros; simpl in *; lia. }
  { intros j mat Hj HF.
    destruct (for_each_seq (fill_cell old new j) (λ k, filled (before k j)) (length old) 1 mat)
      as (m' & E' & F'); [done | intros; apply fill_cell_ok; [lia | lia | done] |].
    exists m'. split; [done |]. eapply filled_weaken; [exact F' |]. unfold before. intros; simpl in *; lia. }
  exists m3. split.
  - unfold edit_matrix, fill_matrix. replace (W - 1) with (length old) by (unfold width; lia).
    replace (H - 1) with (length new) by (unfold height; lia).
    rewrite (bind_Ok _ _ _ _ _ E1), (bind_Ok _ _ _ _ _ E2), E3. done.
  - split; [apply F3 |]. intros i j Hi Hj _. apply F3; [done.. |]. unfold before. intros; simpl in *; lia.
Qed.
End Matrix.

(** ** The walk back *)

Section Walk.
Context (old new : list LNode) (diff_old : nat → LNode → list nat → outcome (list Patch)).
Context (old_children : OldChildren) (p : list nat) (mat : list nat).
Context (Hmat : filled old new (λ _ _, True) mat).
Abbreviation walk := (walk_back old new diff_old old_children p mat).

(** One step of the walk keeps, replaces or removes the last old child, or
    inserts the last new one. *)
Inductive walk_step (fuel i j : nat) (ps : list Patch) : Prop :=
| step_keep x : old !! (i - 1) = Some x → new !! (j - 1) = Some x → 0 < i → 0 < j →
    walk (S fuel) i j ps = walk fuel (i - 1) (j - 1) ps → walk_step fuel i j ps
| step_replace x y : old !! (i - 1) = Some x → new !! (j - 1) = Some y → 0 < i → 0 < j →
    walk (S fuel) i j ps
      = (diffs ← diff_old (i - 1) y (p ++ [i - 1]); walk fuel (i - 1) (j - 1) (ps ++ diffs)) →
    walk_step fuel i j ps
| step_remove : 0 < i →
    walk (S fuel) i j ps = walk fuel (i - 1) j (ps ++ [mkPatch p (RemoveChild (i - 1))]) →
    walk_step fuel i j ps
| step_insert y : new !! (j - 1) = Some y → 0 < j →
    walk (S fuel) i j ps
      = walk fuel i (j - 1) (ps ++ [mkPatch p (InsertChild i (to_replacement_node old_children y))]) →
    walk_step fuel i j ps.

Lemma least_unique {A} (xs ys : list A) d d' : least_edits xs ys d → least_edits xs ys d' → d = d'.
Proof. intros [H Hm] [H' Hm']. apply Nat.le_antisymm; auto. Qed.

Lemma cell i j : i ≤ length old → j ≤ length new →
  ∃ d, mat_get mat (j * width old + i) = Ok d ∧ least_edits (take i old) (take j new) d.
Proof. intros. eapply filled_get; [exact Hmat | done..]. Qed.

(** At the edges of the matrix there is one way to go on. *)
Lemma walk_edge fuel i j ps : i ≤ length old → j ≤ length new → 0 < i + j → i = 0 ∨ j = 0 →
  walk_step fuel i j ps.
Proof.
  intros Hi Hj Hij [-> | ->].
  - destruct (lookup_lt_is_Some_2 new (j - 1)) as [y Hy]; [lia |].
    destruct (cell 0 j) as (d & Ed & Hd); [lia.. |].
    destruct (cell 0 (j - 1)) as (d' & Ed' & Hd'); [lia.. |].
    rewrite take_0 in *. rewrite Nat.add_0_r in *.
    pose proof (least_unique _ _ _ _ Hd (least_nil_l _)) as ->.
    pose proof (least_unique _ _ _ _ Hd' (least_nil_l _)) as ->.
    rewrite !length_take in *. apply (step_insert _ _ _ _ y); [done | lia |]. simpl.
    destruct (0 <? j) eqn:E; [| apply Nat.ltb_ge in E; lia]. simpl.
    rewrite !Nat.add_0_r, Ed. simpl. rewrite Ed'. simpl.
    rewrite bool_decide_true by lia. by rewrite Hy.
  - destruct (cell i 0) as (d & Ed & Hd); [lia.. |].
    destruct (cell (i - 1) 0) as (d' & Ed' & Hd'); [lia.. |].
    rewrite take_0 in *. simpl in Ed, Ed'.
    pose proof (least_unique _ _ _ _ Hd (least_nil_r _)) as ->.
    pose proof (least_unique _ _ _ _ Hd' (least_nil_r _)) as ->.
    rewrite !length_take in *. apply step_remove; [lia |]. simpl.
    destruct (0 <? i) eqn:E; [| apply Nat.ltb_ge in E; lia]. simpl.
    rewrite Ed. simpl. rewrite Ed'. simpl. by rewrite bool_decide_true by lia.
Qed.

(** Inside, one of the three neighbours is the least. *)
Lemma walk_inner fuel i j ps : 0 < i ≤ length old → 0 < j ≤ length new → walk_step fuel i j ps.
Proof.
  intros Hi Hj.
  destruct (same_child_ok old new i j Hi Hj) as (x & y & Hx & Hy & Hs).
  destruct (cell i j) as (d & Ed & Hd); [lia.. |].
  destruct (cell (i - 1) (j - 1)) as (c & Ec & Hc); [lia.. |].
  destruct (cell i (j - 1)) as (a & Ea & Ha); [lia.. |].
  destruct (cell (i - 1) j) as (b & Eb & Hb); [lia.. |].
  assert (0 <? i = true) as Ei by (apply Nat.ltb_lt; lia).
  assert (0 <? j = true) as Ej by (apply Nat.ltb_lt; lia).
  assert (∃ q, walk (S fuel) i j ps = q) as [q Hq] by eauto.
  pose proof Hq as Hw. simpl in Hw. rewrite Ei, Ej, Hs in Hw. simpl in Hw.
  destruct (decide (x = y)) as [<- | Hxy].
  { rewrite bool_decide_true in Hw by done. eapply step_keep; [done | done | lia | lia | congruence]. }
  rewrite bool_decide_false, Ed in Hw by done. simpl in Hw.
  rewrite <- !Nat.add_sub_assoc in Hw by lia.
  rewrite Ec, Eb in Hw. simpl in Hw. rewrite Hy in Hw. simpl in Hw.
  assert (d = ((a + 1) `min` (b + 1)) `min` (c + 1)) as Hmin.
  { apply (least_unique _ _ _ _ Hd).
    rewrite (take_pred old i x) in Ha |- * by (lia || done).
    rewrite (take_pred new j y) in Hb |- * by (lia || done). by apply least_change. }
  case_bool_decide; [eapply step_replace; [done | done | lia | lia | congruence] |].
  case_bool_decide; [eapply step_remove; [lia | congruence] |].
  rewrite Ea in Hw. simpl in Hw. rewrite bool_decide_true in Hw by lia.
  eapply step_insert; [done | lia | congruence].
Qed.

Lemma walk_progress fuel i j ps : i ≤ length old → j ≤ length new → 0 < i + j → walk_step fuel i j ps.
Proof.
  intros. destruct (decide (i = 0 ∨ j = 0)); [by apply walk_edge | apply walk_inner; lia].
Qed.
End Walk.
