(* ===== verification/HotFacts.v ===== *)
(** * What patches mean

    Patches as edits of a tree: what the actions of [diff.rs] ask for, one after
    the other, each in the tree that the earlier ones have left.  A path goes
    down the children of fragments and elements; a replacement that is a path
    stands for what is there now.  This specifies the differences; the script
    that carries patches out in the browser ([patch.js]) is not modelled.
    Parsing HTML is up to the browser, a parameter.  [shows] relates a tree to
    a template of elements, texts and fragments. *)

From stdpp Require Import base gmap list strings.
From S2P Require Import Prelude RustStr HotReload HotEdits.

Inductive vnode :=
| VFragment (children : list vnode)
| VText (text : str)
| VElement (name : str) (attrs : gmap str str) (children : list vnode)
| VDyn (code : str).

Definition children_of (v : vnode) : option (list vnode) :=
  match v with
  | VFragment cs | VElement _ _ cs => Some cs
  | _ => None
  end.

Definition with_children (v : vnode) (cs : list vnode) : vnode :=
  match v with
  | VFragment _ => VFragment cs
  | VElement name attrs _ => VElement name attrs cs
  | v => v
  end.

Fixpoint node_at (v : vnode) (p : list nat) : option vnode :=
  match p with
  | [] => Some v
  | i :: p => cs ← children_of v; c ← cs !! i; node_at c p
  end.

Fixpoint update_at (p : list nat) (f : vnode → option vnode) (v : vnode) : option vnode :=
  match p with
  | [] => f v
  | i :: p =>
      cs ← children_of v; c ← cs !! i; c' ← update_at p f c;
      Some (with_children v (<[i := c']> cs))
  end.

(** ** Patches *)

Section Apply.
Context (from_html : str → vnode).

(** A replacement node, built when the tree is [now] *)
Fixpoint build (now : vnode) (r : ReplacementNode) : option vnode :=
  match r with
  | RHtml html => Some (from_html html)
  | RPath p => node_at now p
  | RFragment rs => VFragment <$> mapM (build now) rs
  | RElement name attrs rs => VElement name (list_to_map (rev attrs)) <$> mapM (build now) rs
  end.

Definition act_on_children (v : vnode) (f : list vnode → option (list vnode)) : option vnode :=
  cs ← children_of v; cs' ← f cs; Some (with_children v cs').

(** An action on the node [v] of the tree [now] *)
Definition act (now : vnode) (a : PatchAction) (v : vnode) : option vnode :=
  match a with
  | ReplaceWith r => build now r
  | ChangeTagName name =>
      match v with VElement _ attrs cs => Some (VElement name attrs cs) | _ => None end
  | RemoveAttribute n =>
      match v with VElement name attrs cs => Some (VElement name (delete n attrs) cs) | _ => None end
  | SetAttribute n x =>
      match v with VElement name attrs cs => Some (VElement name (<[n := x]> attrs) cs) | _ => None end
  | SetText text => match v with VText _ => Some (VText text) | _ => None end
  | ClearChildren => act_on_children v (λ _, Some [])
  | AppendChildren rs => new ← mapM (build now) rs; act_on_children v (λ cs, Some (cs ++ new))
  | RemoveChild i =>
      act_on_children v (λ cs, if decide (i < length cs) then Some (take i cs ++ drop (S i) cs) else None)
  | InsertChild i r =>
      c ← build now r;
      act_on_children v (λ cs, if decide (i ≤ length cs) then Some (take i cs ++ c :: drop i cs) else None)
  | InsertChildAfter i r =>
      c ← build now r;
      act_on_children v (λ cs, if decide (i < length cs)
                               then Some (take (S i) cs ++ c :: drop (S i) cs) else None)
  end.

Definition apply_patch (p : Patch) (v : vnode) : option vnode := update_at (path p) (act v (action p)) v.

Fixpoint apply_patches (ps : list Patch) (v : vnode) : option vnode :=
  match ps with
  | [] => Some v
  | p :: ps => v' ← apply_patch p v; apply_patches ps v'
  end.
End Apply.

(** The patches of a file, for an instance of the view [i] *)
Fixpoint update_view (from_html : str → vnode) (diffs : Patches) (i : str) (v : vnode) : option vnode :=
  match diffs with
  | [] => Some v
  | (i', ps) :: diffs =>
      v' ← (if decide (i = i') then apply_patches from_html ps v else Some v);
      update_view from_html diffs i v'
  end.

(** ** What shows a template *)

(** Attributes of a template are those of the element; those that are computed
    at run time may have any value. *)
Definition shows_attrs (m : gmap str str) (attrs : list (str * LAttributeValue)) : Prop :=
  (∀ n s, (n, Static s) ∈ attrs → m !! n = Some s) ∧
  (∀ n, (n, Boolean) ∈ attrs → is_Some (m !! n)) ∧
  (∀ n, n ∉ attrs.*1 → m !! n = None).

Inductive shows : vnode → LNode → Prop :=
| shows_fragment vs ns : Forall2 shows vs ns → shows (VFragment vs) (Fragment ns)
| shows_text t : shows (VText t) (Text t)
| shows_element name m attrs vs ns : shows_attrs m attrs → Forall2 shows vs ns →
    shows (VElement name m vs) (Element name attrs ns).

(** ** Templates that are covered *)

Section LNodeInd.
Context (P : LNode → Prop).
Hypothesis P_fragment : ∀ ns, Forall P ns → P (Fragment ns).
Hypothesis P_text : ∀ t, P (Text t).
Hypothesis P_element : ∀ name attrs ns, Forall P ns → P (Element name attrs ns).
Hypothesis P_component : ∀ name props ns, Forall P ns → P (Component name props ns).
Hypothesis P_dyn : ∀ c, P (DynChild c).

Fixpoint LNode_ind' (n : LNode) : P n :=
  let go := fix go (l : list LNode) : Forall P l :=
    match l with
    | [] => Forall_nil_2 P
    | x :: l => Forall_cons_2 P x l (LNode_ind' x) (go l)
    end in
  match n with
  | Fragment ns => P_fragment ns (go ns)
  | Text t => P_text t
  | Element name attrs ns => P_element name attrs ns (go ns)
  | Component name props ns => P_component name props ns (go ns)
  | DynChild c => P_dyn c
  end.
End LNodeInd.

(** The parts of a template *)
Fixpoint parts (n : LNode) : list LNode :=
  n :: match n with
       | Fragment ns | Element _ _ ns | Component _ _ ns => concat (map parts ns)
       | _ => []
       end.

(** Elements have no attribute twice; components and blocks are left out. *)
Definition simple (n : LNode) : bool :=
  match n with
  | Element _ attrs _ => bool_decide (NoDup attrs.*1)
  | Fragment _ | Text _ => true
  | Component _ _ _ | DynChild _ => false
  end.

Definition all_simple (n : LNode) : bool := forallb simple (parts n).

(** The browser reads the HTML that is printed for a part back as that part. *)
Definition reads_back (from_html : str → vnode) (n : LNode) : Prop :=
  ∀ m, m ∈ parts n → shows (from_html (to_html m)) m.

(** * What the differences do

    [does]: patches at a path turn the node there into another one and leave
    the rest alone.  The patches of attributes and of children are followed in
    these terms; the walk back turns the children into the new ones from the
    last to the first, so that the indices before it stay what they were. *)

(** ** Differences exist *)

Lemma diff_nth_lookup oc old i x other p : old !! i = Some x →
  diff_nth (map (diff_at oc) old) i other p = diff_at oc x other p.
Proof. intros H. unfold diff_nth. by rewrite list_lookup_fmap, H. Qed.

Lemma walk_total old new diff_old oc p mat : filled old new (λ _ _, True) mat →
  (∀ i y q, i < length old → ∃ ps, diff_old i y q = Ok ps) →
  ∀ fuel i j ps, i ≤ length old → j ≤ length new → i + j ≤ fuel →
  ∃ ps', walk_back old new diff_old oc p mat fuel i j ps = Ok ps'.
Proof.
  intros Hmat Hd. induction fuel as [| fuel IH]; intros i j ps Hi Hj Hf.
  { assert (i = 0) as -> by lia. assert (j = 0) as -> by lia. by eexists. }
  destruct (decide (0 < i + j)) as [Hij |].
  - destruct (walk_progress old new diff_old oc p mat Hmat fuel i j ps Hi Hj Hij)
      as [x _ _ ? ? E | x y _ _ ? ? E | ? E | y _ ? E]; rewrite E.
    + apply IH; lia.
    + destruct (Hd (i - 1) y (p ++ [i - 1])) as [d ->]; [lia |]. apply IH; lia.
    + apply IH; lia.
    + apply IH; lia.
  - assert (i = 0) as -> by lia. assert (j = 0) as -> by lia. by eexists.
Qed.

Lemma diff_children_total diff_old p old new oc :
  (∀ i y q, i < length old → ∃ ps, diff_old i y q = Ok ps) →
  ∃ ps, diff_children diff_old p old new oc = Ok ps.
Proof.
  intros Hd. destruct old as [| x old]; [destruct new; by eexists |].
  destruct new as [| y new]; [by eexists |]. unfold diff_children.
  destruct (edit_matrix_filled (x :: old) (y :: new)) as (mat & -> & Hmat).
  apply walk_total; [done | done | done | done | simpl; lia].
Qed.

Lemma diff_at_total oc self : ∀ other p, ∃ ps, diff_at oc self other p = Ok ps.
Proof.
  assert (Hc : ∀ old p new, Forall (λ x, ∀ other p, ∃ ps, diff_at oc x other p = Ok ps) old →
            ∃ ps, diff_children (diff_nth (map (diff_at oc) old)) p old new oc = Ok ps).
  { intros old p new Hall. apply diff_children_total. intros i y q Hi.
    destruct (lookup_lt_is_Some_2 old i Hi) as [x Hx].
    rewrite (diff_nth_lookup _ _ _ _ _ _ Hx). rewrite Forall_lookup in Hall. eauto. }
  induction self as [ns IH | t | name attrs ns IH | name props ns IH | c] using LNode_ind';
    intros other p; destruct other as [ns' | t' | name' attrs' ns' | name' props' ns' | c'];
    try by eexists.
  - apply Hc, IH.
  - simpl.
    destruct (Hc ns p ns' IH) as [ps ->]. by eexists.
  - simpl. case_decide; [| by eexists]. apply Hc, IH.
Qed.

(** ** Nodes at paths *)

Lemma children_with v cs cs' : children_of v = Some cs → children_of (with_children v cs') = Some cs'.
Proof. by destruct v. Qed.

Lemma with_children_twice v cs cs' : with_children (with_children v cs) cs' = with_children v cs'.
Proof. by destruct v. Qed.

Lemma with_children_same v cs : children_of v = Some cs → with_children v cs = v.
Proof. by destruct v; simpl; intros; simplify_eq. Qed.

Lemma node_at_app v p q : node_at v (p ++ q) = (w ← node_at v p; node_at w q).
Proof.
  revert v. induction p as [| i p IH]; intros v; [done |]. simpl.
  destruct (children_of v) as [cs |]; [simpl | done]. destruct (cs !! i); [simpl | done]. apply IH.
Qed.

(** [root] with [w] in the place of [p] *)
Definition put (p : list nat) (w root : vnode) : option vnode := update_at p (λ _, Some w) root.

Lemma put_ok p w root v : node_at root p = Some v →
  ∃ root', put p w root = Some root' ∧ node_at root' p = Some w.
Proof.
  revert root. induction p as [| i p IH]; intros root; [by eexists |]. unfold put in *. simpl.
  destruct (children_of root) as [cs |] eqn:Ec; [simpl | done].
  destruct (cs !! i) as [c |] eqn:Ei; [simpl | done]. intros (c' & -> & Hc')%IH. simpl.
  eexists. split; [done |]. erewrite children_with by done. simpl.
  rewrite list_lookup_insert_eq by (by eapply lookup_lt_Some). done.
Qed.

Lemma put_same p root v : node_at root p = Some v → put p v root = Some root.
Proof.
  revert root. induction p as [| i p IH]; intros root; [naive_solver |]. unfold put in *. simpl.
  destruct (children_of root) as [cs |] eqn:Ec; [simpl | done].
  destruct (cs !! i) as [c |] eqn:Ei; [simpl | done]. intros ->%IH. simpl.
  rewrite list_insert_id by done. by rewrite with_children_same.
Qed.

Lemma put_put p w w' root root' : put p w root = Some root' → put p w' root' = put p w' root.
Proof.
  revert root root'. unfold put. induction p as [| i p IH]; intros root root'; [done |]. simpl.
  destruct (children_of root) as [cs |] eqn:Ec; [simpl | done].
  destruct (cs !! i) as [c |] eqn:Ei; [simpl | done].
  destruct (update_at p (λ _, Some w) c) as [c' |] eqn:Ep; [simpl | done]. intros [= <-].
  erewrite children_with by done. simpl. rewrite list_lookup_insert_eq by (by eapply lookup_lt_Some). simpl.
  rewrite (IH c c' Ep). destruct (update_at p (λ _, Some w') c); [simpl | done].
  by rewrite list_insert_insert_eq, with_children_twice.
Qed.

Lemma put_app p q w root v : node_at root p = Some v →
  put (p ++ q) w root = (v' ← put q w v; put p v' root).
Proof.
  revert root. unfold put. induction p as [| i p IH]; intros root; simpl.
  - intros [= ->]. by destruct (update_at q (λ _, Some w) v).
  - destruct (children_of root) as [cs |]; [simpl | done]. destruct (cs !! i) as [c |]; [simpl | done].
    intros H. rewrite (IH c H). by destruct (update_at q (λ _, Some w) v).
Qed.

Lemma put_child i c' v cs c : children_of v = Some cs → cs !! i = Some c →
  put [i] c' v = Some (with_children v (<[i := c']> cs)).
Proof. intros Hv Hc. unfold put. simpl. rewrite Hv. simpl. by rewrite Hc. Qed.

Lemma update_at_put p f root v : node_at root p = Some v →
  update_at p f root = (w ← f v; put p w root).
Proof.
  revert root. unfold put. induction p as [| i p IH]; intros root; simpl.
  - intros [= ->]. by destruct (f v).
  - destruct (children_of root) as [cs |]; [simpl | done]. destruct (cs !! i) as [c |]; [simpl | done].
    intros H. rewrite (IH c H). by destruct (f v).
Qed.

(** ** Patches at a path *)

Section Does.
Context (from_html : str → vnode).
Abbreviation apply_patches := (apply_patches from_html).
Abbreviation act := (act from_html).
Abbreviation build := (build from_html).

Definition does (ps : list Patch) (p : list nat) (v v' : vnode) : Prop :=
  ∀ root, node_at root p = Some v → apply_patches ps root = put p v' root.

Lemma does_nil p v : does [] p v v.
Proof. intros root H. by rewrite (put_same _ _ _ H). Qed.

Lemma apply_app ps qs root :
  apply_patches (ps ++ qs) root = (r ← apply_patches ps root; apply_patches qs r).
Proof.
  revert root. induction ps as [| p ps IH]; intros root; [done |]. simpl.
  destruct (apply_patch _ p root); [apply IH | done].
Qed.

Lemma does_app ps qs p v v1 v2 : does ps p v v1 → does qs p v1 v2 → does (ps ++ qs) p v v2.
Proof.
  intros H1 H2 root Hr. rewrite apply_app, (H1 root Hr).
  destruct (put_ok p v1 root v Hr) as (r1 & E1 & Hr1). rewrite E1. simpl. rewrite (H2 r1 Hr1).
  by eapply put_put.
Qed.

Lemma does_act a p v v' : (∀ now, act now a v = Some v') → does [mkPatch p a] p v v'.
Proof.
  intros H root Hr. simpl. unfold apply_patch. simpl. rewrite (update_at_put _ _ _ _ Hr), H. simpl.
  by destruct (put p v' root).
Qed.

Lemma does_child ps p i v cs c c' : children_of v = Some cs → cs !! i = Some c →
  does ps (p ++ [i]) c c' → does ps p v (with_children v (<[i := c']> cs)).
Proof.
  intros Hv Hc H root Hr. rewrite H.
  - rewrite (put_app _ _ _ _ _ Hr), (put_child _ _ _ _ _ Hv Hc). done.
  - rewrite node_at_app, Hr. simpl. rewrite Hv. simpl. by rewrite Hc.
Qed.

(** ** Attributes *)

Lemma additions_do p old name vs new m : NoDup new.*1 →
  ∃ m', does (omap (attr_addition p old) new) p (VElement name m vs) (VElement name m' vs) ∧
    (∀ n, n ∉ new.*1 → m' !! n = m !! n) ∧
    (∀ n x, (n, x) ∈ new →
       match attr_addition p old (n, x) with
       | Some (mkPatch _ (SetAttribute _ s)) => m' !! n = Some s
       | _ => m' !! n = m !! n
       end).
Proof.
  revert m. induction new as [| [n x] new IH]; intros m Hnd.
  { exists m. split; [apply does_nil |]. split; [done |]. by intros n x ?%not_elem_of_nil. }
  apply NoDup_cons in Hnd as [Hn Hnd]. simpl in Hn.
  assert (∃ m1, does (omap (attr_addition p old) [(n, x)]) p (VElement name m vs) (VElement name m1 vs) ∧
    (∀ k, k ≠ n → m1 !! k = m !! k) ∧
    match attr_addition p old (n, x) with
    | Some (mkPatch _ (SetAttribute _ s)) => m1 !! n = Some s
    | _ => m1 !! n = m !! n
    end) as (m1 & D1 & O1 & A1).
  { assert (Hset : ∀ s, ∃ m1, does [mkPatch p (SetAttribute n s)] p (VElement name m vs) (VElement name m1 vs) ∧
      (∀ k, k ≠ n → m1 !! k = m !! k) ∧ m1 !! n = Some s).
    { intros s. exists (<[n := s]> m). split; [by apply does_act |].
      split; [intros; by rewrite lookup_insert_ne | by rewrite lookup_insert_eq]. }
    assert (does [] p (VElement name m vs) (VElement name m vs)) by apply does_nil.
    unfold attr_addition; simpl. destruct (if List.find _ old is Some _ then _ else _); [| by exists m].
    destruct x; simpl; [apply Hset | apply Hset | by exists m | by exists m]. }
  destruct (IH m1 Hnd) as (m' & D' & O' & A').
  exists m'. split_and!.
  - change ((n, x) :: new) with ([(n, x)] ++ new). rewrite omap_app. by eapply does_app.
  - intros k [Hk ?]%not_elem_of_cons. rewrite O' by done. by apply O1.
  - intros k y [[= -> ->] | Hin]%elem_of_cons; [by rewrite (O' n Hn) |].
    assert (k ≠ n) as Hk by (intros ->; apply Hn, list_elem_of_fmap; by exists (n, y)).
    specialize (A' k y Hin). by rewrite (O1 k Hk) in A'.
Qed.

Lemma removals_do p new name vs old m :
  ∃ m', does (omap (attr_removal p new) old) p (VElement name m vs) (VElement name m' vs) ∧
    ∀ n, m' !! n = if decide (n ∈ old.*1 ∧ n ∉ new.*1) then None else m !! n.
Proof.
  revert m. induction old as [| [n x] old IH]; intros m.
  { exists m. split; [apply does_nil |]. intros n. by rewrite decide_False by set_solver. }
  change ((n, x) :: old) with ([(n, x)] ++ old). rewrite omap_app. simpl.
  unfold attr_removal at 1. simpl. destruct (existsb _ new) eqn:E.
  - apply existsb_exists in E as ([n' y] & Hin & En%bool_decide_eq_true). simpl in En. subst n'.
    assert (n ∈ new.*1) by (apply list_elem_of_fmap; exists (n, y); split; [done | by apply list_elem_of_In]).
    destruct (IH m) as (m' & D & L). exists m'. split; [done |].
    intros k. rewrite L. apply decide_ext. set_solver.
  - assert (n ∉ new.*1).
    { intros ([n' y] & -> & Hin)%list_elem_of_fmap. apply not_true_iff_false in E. apply E.
      apply existsb_exists. exists (n', y). split; [by apply list_elem_of_In | by apply bool_decide_eq_true]. }
    destruct (IH (delete n m)) as (m' & D & L). exists m'. split.
    + eapply (does_app [_]); [by apply does_act | done].
    + intros k. rewrite L. simpl. destruct (decide (k = n)) as [-> |].
      * rewrite lookup_delete_eq. repeat case_decide; try done; set_solver.
      * rewrite lookup_delete_ne by done. apply decide_ext. set_solver.
Qed.

Lemma diff_attrs_does p name vs old new m : shows_attrs m old → NoDup new.*1 →
  ∃ m', does (diff_attrs p old new) p (VElement name m vs) (VElement name m' vs) ∧ shows_attrs m' new.
Proof.
  intros (Hstatic & Hbool & Hother) Hnd.
  destruct (additions_do p old name vs new m Hnd) as (m1 & D1 & O1 & A1).
  destruct (removals_do p new name vs old m1) as (m2 & D2 & L2).
  assert (Hin : ∀ n x, (n, x) ∈ new → m2 !! n = m1 !! n).
  { intros n x Hin. rewrite L2, decide_False; [done |]. intros [_ []].
    apply list_elem_of_fmap. by exists (n, x). }
  assert (Hold : ∀ n x, List.find (λ a, bool_decide (a.1 = n)) old = Some x → (n, x.2) ∈ old).
  { intros n [k y] [Hk Hn%bool_decide_eq_true]%List.find_some. simpl in Hn. subst n. by apply list_elem_of_In. }
  exists m2. split; [by eapply does_app |]. split_and!.
  - intros n s Hn. rewrite (Hin n _ Hn). specialize (A1 n _ Hn). unfold attr_addition in A1. simpl in A1.
    destruct (List.find _ old) as [[k y] |] eqn:E; [| done].
    apply Hold in E. case_bool_decide; [done |]. rewrite A1. apply Hstatic. naive_solver.
  - intros n Hn. rewrite (Hin n _ Hn). specialize (A1 n _ Hn). unfold attr_addition in A1. simpl in A1.
    destruct (List.find _ old) as [[k y] |] eqn:E; [| by eexists].
    apply Hold in E. case_bool_decide; [by eexists |]. rewrite A1. apply Hbool. naive_solver.
  - intros n Hn. rewrite L2. case_decide; [done |]. rewrite O1 by done. apply Hother. naive_solver.
Qed.

(** ** Replacements *)

Lemma mapM_shows ns :
  Forall (λ n, ∃ v, (∀ now, build now (to_replacement_node [] n) = Some v) ∧ shows v n) ns →
  ∃ vs, (∀ now, mapM (build now) (map (to_replacement_node []) ns) = Some vs) ∧ Forall2 shows vs ns.
Proof.
  induction 1 as [| n ns (v & Ev & Hv) _ (vs & Es & Hs)]; [by exists [] |].
  exists (v :: vs). simpl. split; [| by constructor]. intros now'. by rewrite Ev, Es.
Qed.

Lemma replacement_attrs_keys attrs n s : (n, s) ∈ replacement_attrs attrs → n ∈ attrs.*1.
Proof.
  intros ([k x] & Hin & E)%list_elem_of_omap. apply list_elem_of_fmap. exists (k, x).
  destruct x; naive_solver.
Qed.

Lemma replacement_attrs_nodup attrs : NoDup attrs.*1 → NoDup (replacement_attrs attrs).*1.
Proof.
  induction attrs as [| [n x] attrs IH]; [done |]. intros [Hn Hnd]%NoDup_cons. simpl in *.
  assert (n ∉ (replacement_attrs attrs).*1).
  { intros ([k s] & -> & Hin)%list_elem_of_fmap. by apply Hn, (replacement_attrs_keys _ _ s). }
  unfold replacement_attrs in *.
  destruct x; simpl; try apply IH; try done; (apply NoDup_cons; split; [done | by apply IH]).
Qed.

Lemma replacement_attrs_shows attrs : NoDup attrs.*1 →
  shows_attrs (list_to_map (rev (replacement_attrs attrs))) attrs.
Proof.
  intros Hnd. rewrite rev_alt. fold (reverse (replacement_attrs attrs)).
  assert (Hnd' : NoDup (reverse (replacement_attrs attrs)).*1).
  { rewrite fmap_reverse, reverse_Permutation. by apply replacement_attrs_nodup. }
  assert (Hget : ∀ n s, (n, s) ∈ replacement_attrs attrs →
    list_to_map (M := gmap str str) (reverse (replacement_attrs attrs)) !! n = Some s).
  { intros n s Hin. apply elem_of_list_to_map_1; [done | by apply elem_of_reverse]. }
  split_and!.
  - intros n s Hin. apply Hget, list_elem_of_omap. by exists (n, Static s).
  - intros n Hin. exists n. apply Hget, list_elem_of_omap. by exists (n, Boolean).
  - intros n Hn. apply not_elem_of_list_to_map_1. rewrite fmap_reverse, elem_of_reverse.
    intros ([k s] & -> & Hin)%list_elem_of_fmap. by apply Hn, (replacement_attrs_keys _ _ s).
Qed.

Lemma parts_child n ns m : n ∈ ns → m ∈ parts n → m ∈ concat (map parts ns).
Proof.
  intros Hn Hm. apply list_elem_of_In, in_concat. exists (parts n).
  split; [apply in_map |]; by apply list_elem_of_In.
Qed.

Lemma simple_child (n : LNode) ns : n ∈ ns → forallb simple (concat (map parts ns)) = true → all_simple n = true.
Proof.
  intros Hn H. apply forallb_forall. intros m Hm%list_elem_of_In. rewrite forallb_forall in H.
  by apply H, list_elem_of_In, (parts_child n).
Qed.

(** A template that can be shown: its HTML is read back, and it is simple. *)
Definition showable (n : LNode) : Prop := all_simple n = true ∧ reads_back from_html n.

Lemma showable_child n m : showable n →
  match n with Fragment ns | Element _ _ ns => m ∈ ns | _ => False end → showable m.
Proof.
  intros [Hs Hr] Hm. destruct n as [ns | | name attrs ns | |]; try done; unfold all_simple in Hs; simpl in Hs.
  - split; [by eapply simple_child |]. intros k Hk. apply Hr. simpl. right. by eapply parts_child.
  - apply andb_true_iff in Hs as [_ Hs].
    split; [by eapply simple_child |]. intros k Hk. apply Hr. simpl. right. by eapply parts_child.
Qed.

Lemma element_nodup name attrs ns : showable (Element name attrs ns) → NoDup attrs.*1.
Proof. intros [Hs _]. unfold all_simple in Hs. simpl in Hs. apply andb_true_iff in Hs as [Hs _].
  by apply bool_decide_eq_true in Hs. Qed.

(** Without old dynamic parts a replacement node has no paths. *)
Lemma replacement_shows n : showable n →
  ∃ v, (∀ now, build now (to_replacement_node [] n) = Some v) ∧ shows v n.
Proof.
  assert (Hhtml : ∀ n, showable n → shows (from_html (to_html n)) n).
  { intros k [_ Hr]. apply Hr. destruct k; by left. }
  induction n as [ns IH | t | name attrs ns IH | name props ns IH | c] using LNode_ind'; intros Hn; simpl.
  all: try (eexists; split; [done | exact (Hhtml _ Hn)]).
  - destruct (mapM_shows ns) as (vs & Ev & Hs).
    { rewrite Forall_forall in IH |- *. intros k Hk. apply IH; [done |]. by eapply showable_child. }
    exists (VFragment vs). split; [intros now; by rewrite Ev | by constructor].
  - destruct (mapM_shows ns) as (vs & Ev & Hs).
    { rewrite Forall_forall in IH |- *. intros k Hk. apply IH; [done |]. by eapply showable_child. }
    eexists. split; [intros now; by rewrite Ev |].
    constructor; [| done]. apply replacement_attrs_shows. by eapply element_nodup.
Qed.

End Does.
