(* ===== verification/HotCases.v ===== *)
(** * Hot reloading shows the new template

    The differences of two templates exist, and for templates of elements,
    texts and fragments their patches turn what shows the old template into
    what shows the new one. *)

From stdpp Require Import base gmap list strings.
From S2P Require Import Prelude RustStr HotReload HotEdits HotFacts.

Section Reload.
Context (from_html : str → vnode).
Abbreviation does := (does from_html).
Abbreviation showable := (showable from_html).

Section Children.
Context (old new : list LNode) (ovs : list vnode) (p : list nat) (mat : list nat).
Context (diff_old : nat → LNode → list nat → outcome (list Patch)).
Hypothesis Hmat : filled old new (λ _ _, True) mat.
Hypothesis Hnew : ∀ y, y ∈ new → showable y.
Hypothesis Hovs : Forall2 shows ovs old.
Hypothesis Hdiff : ∀ i x y c, old !! i = Some x → y ∈ new → shows c x →
  ∃ ds c', diff_old i y (p ++ [i]) = Ok ds ∧ shows c' y ∧ does ds (p ++ [i]) c c'.

(** The first [i] children are the old ones, [tail] follows them; the patches
    that [r] has after [ps] make all of them show the new ones. *)
Definition finishes (i : nat) (tail : list vnode) (ps : list Patch) (r : outcome (list Patch)) : Prop :=
  ∃ qs tail', r = Ok (ps ++ qs) ∧ Forall2 shows tail' new ∧
    ∀ v, children_of v = Some (take i ovs ++ tail) → does qs p v (with_children v tail').

Lemma old_child i x : 0 < i → old !! (i - 1) = Some x →
  ∃ c, ovs !! (i - 1) = Some c ∧ shows c x ∧ take i ovs = take (i - 1) ovs ++ [c].
Proof.
  intros Hi Hx. destruct (Forall2_lookup_r _ _ _ _ _ Hovs Hx) as (c & Hc & ?).
  exists c. split_and!; [done | done | by apply take_pred].
Qed.

Lemma new_tail j y c tail : 0 < j → new !! (j - 1) = Some y → shows c y →
  Forall2 shows tail (drop j new) → Forall2 shows (c :: tail) (drop (j - 1) new).
Proof.
  intros Hj Hy Hc Ht. rewrite (drop_S _ _ _ Hy).
  replace (S (j - 1)) with j by lia. by constructor.
Qed.

Lemma length_ovs : length ovs = length old.
Proof. by eapply Forall2_length. Qed.

(** One patch, then the others *)
Lemma finishes_step i tail i' tail' ps ds r :
  (∀ v, children_of v = Some (take i ovs ++ tail) → does ds p v (with_children v (take i' ovs ++ tail'))) →
  finishes i' tail' (ps ++ ds) r → finishes i tail ps r.
Proof.
  intros Hds (qs & t & -> & Ht & Hqs). exists (ds ++ qs), t. split_and!; [| done |].
  - by rewrite <- app_assoc.
  - intros v Hv. eapply does_app; [by apply Hds |].
    rewrite <- (with_children_twice v (take i' ovs ++ tail') t). apply Hqs. by eapply children_with.
Qed.

Lemma remove_does i x tail v : 0 < i → old !! (i - 1) = Some x →
  children_of v = Some (take i ovs ++ tail) →
  does [mkPatch p (RemoveChild (i - 1))] p v (with_children v (take (i - 1) ovs ++ tail)).
Proof.
  intros Hi Hx Hv. destruct (old_child i x Hi Hx) as (c & Hc & _ & E). apply does_act. intros now. simpl.
  unfold act_on_children. rewrite Hv, E. simpl.
  assert (length (take (i - 1) ovs) = i - 1) as Hl by (apply lookup_lt_Some in Hc; rewrite length_take; lia).
  rewrite decide_True by (rewrite !length_app, Hl; simpl; lia). simpl. do 2 f_equal.
  rewrite <- app_assoc. simpl. rewrite (take_app_length' _ _ _ (eq_sym Hl)). f_equal.
  rewrite drop_app_ge by lia. rewrite Hl. by replace (S (i - 1) - (i - 1)) with 1 by lia.
Qed.

Lemma insert_does i y c tail v : i ≤ length old → (∀ now, build from_html now (to_replacement_node [] y) = Some c) →
  children_of v = Some (take i ovs ++ tail) →
  does [mkPatch p (InsertChild i (to_replacement_node [] y))] p v (with_children v (take i ovs ++ c :: tail)).
Proof.
  intros Hi Hc Hv. apply does_act. intros now. simpl. rewrite Hc. simpl. unfold act_on_children. rewrite Hv. simpl.
  assert (length (take i ovs) = i) as Hl by (rewrite length_take, length_ovs; lia).
  rewrite decide_True by (rewrite length_app, Hl; lia). simpl. do 2 f_equal.
  rewrite (take_app_length' _ _ _ (eq_sym Hl)). f_equal. f_equal. by apply drop_app_length'.
Qed.

Lemma replace_does i x y c tail : 0 < i → old !! (i - 1) = Some x → y ∈ new → ovs !! (i - 1) = Some c →
  shows c x → ∃ ds c', diff_old (i - 1) y (p ++ [i - 1]) = Ok ds ∧ shows c' y ∧
    ∀ v, children_of v = Some (take i ovs ++ tail) → does ds p v (with_children v (take (i - 1) ovs ++ c' :: tail)).
Proof.
  intros Hi Hx Hy Hc Hs. destruct (Hdiff (i - 1) x y c Hx Hy Hs) as (ds & c' & E & Hs' & D).
  exists ds, c'. split_and!; [done | done |]. intros v Hv.
  rewrite (take_pred ovs i c Hi Hc), <- app_assoc in Hv. simpl in Hv.
  assert (length (take (i - 1) ovs) = i - 1) as Hl by (apply lookup_lt_Some in Hc; rewrite length_take; lia).
  replace (take (i - 1) ovs ++ c' :: tail) with (<[i - 1 := c']> (take (i - 1) ovs ++ c :: tail)).
  - eapply does_child; [done | | done]. apply list_lookup_middle. by rewrite Hl.
  - rewrite insert_app_r_alt by lia. rewrite Hl, Nat.sub_diag. done.
Qed.

Lemma walk_finishes fuel i j tail ps : i ≤ length old → j ≤ length new → i + j ≤ fuel →
  Forall2 shows tail (drop j new) →
  finishes i tail ps (walk_back old new diff_old [] p mat fuel i j ps).
Proof.
  assert (Hnil : ∀ tail ps, Forall2 shows tail (drop 0 new) → finishes 0 tail ps (Ok ps)).
  { intros t qs Ht. exists [], t. split_and!; [by rewrite app_nil_r | done |].
    intros v Hv. rewrite with_children_same by done. apply does_nil. }
  revert i j tail ps. induction fuel as [| fuel IH]; intros i j tail ps Hi Hj Hf Ht.
  { assert (i = 0) as -> by lia. assert (j = 0) as -> by lia. by apply Hnil. }
  destruct (decide (0 < i + j)) as [Hij |];
    [| assert (i = 0) as -> by lia; assert (j = 0) as -> by lia; by apply Hnil].
  destruct (walk_progress old new diff_old [] p mat Hmat fuel i j ps Hi Hj Hij)
    as [x Hx Hy Hi0 Hj0 -> | x y Hx Hy Hi0 Hj0 -> | Hi0 -> | y Hy Hj0 ->].
  - destruct (old_child i x Hi0 Hx) as (c & Hc & Hs & E).
    destruct (IH (i - 1) (j - 1) (c :: tail) ps) as (qs & t & -> & Ht' & Hq); [lia.. | by eapply new_tail |].
    exists qs, t. split_and!; [done | done |]. intros v Hv. apply Hq. rewrite Hv, E, <- app_assoc. done.
  - destruct (old_child i x Hi0 Hx) as (c & Hc & Hs & E).
    destruct (replace_does i x y c tail) as (ds & c' & Ed & Hs' & D);
      [done | done | by eapply list_elem_of_lookup_2 | done | done |].
    rewrite Ed. simpl. eapply finishes_step; [exact D |]. apply IH; [lia.. | by eapply new_tail].
  - destruct (lookup_lt_is_Some_2 old (i - 1)) as [x Hx]; [lia |].
    eapply finishes_step; [intros v Hv; by eapply remove_does |]. by apply IH; [lia.. |].
  - assert (showable y) as Hsy by (apply Hnew; by eapply list_elem_of_lookup_2).
    destruct (replacement_shows from_html y Hsy) as (c & Ec & Hc).
    eapply finishes_step; [intros v Hv; by eapply insert_does |]. apply IH; [lia.. | by eapply new_tail].
Qed.

End Children.

Lemma children_do old new ovs p diff_old v : (∀ y, y ∈ new → showable y) →
  Forall2 shows ovs old →
  (∀ i x y c, old !! i = Some x → y ∈ new → shows c x →
    ∃ ds c', diff_old i y (p ++ [i]) = Ok ds ∧ shows c' y ∧ does ds (p ++ [i]) c c') →
  children_of v = Some ovs →
  ∃ ps nvs, diff_children diff_old p old new [] = Ok ps ∧ Forall2 shows nvs new ∧
    does ps p v (with_children v nvs).
Proof.
  intros Hnew Hovs Hdiff Hv. destruct old as [| x old]; [| destruct new as [| y new]].
  - apply Forall2_nil_inv_r in Hovs as ->. destruct new as [| y new].
    { exists [], []. split_and!; [done | done |]. rewrite with_children_same by done. apply does_nil. }
    assert (∃ nvs, (∀ now, mapM (build from_html now) (map (λ n, RHtml (to_html n)) (y :: new)) = Some nvs) ∧
      Forall2 shows nvs (y :: new)) as (nvs & En & Hn).
    { clear -Hnew. induction (y :: new) as [| n l IH]; [by exists [] |].
      destruct IH as (vs & E & H); [intros; apply Hnew; by right |].
      exists (from_html (to_html n) :: vs). simpl in *. split; [intros now; by rewrite E |].
      constructor; [| done]. destruct (Hnew n) as [_ Hr]; [by left |]. apply Hr. destruct n; by left. }
    eexists _, nvs. split_and!; [done | done |]. apply does_act. intros now. cbn -[map]. rewrite En. simpl.
    unfold act_on_children. by rewrite Hv.
  - exists [mkPatch p ClearChildren], []. split_and!; [done | done |]. apply does_act. intros now. simpl.
    unfold act_on_children. by rewrite Hv.
  - unfold diff_children. destruct (edit_matrix_filled (x :: old) (y :: new)) as (mat & -> & Hmat).
    destruct (walk_finishes (x :: old) (y :: new) ovs p mat diff_old Hmat Hnew Hovs Hdiff
      (length (x :: old) + length (y :: new)) (length (x :: old)) (length (y :: new)) [] [])
      as (qs & t & E & Ht & Hq); [done | done | done | by rewrite drop_all |].
    exists qs, t. split_and!; [exact E | done |]. apply Hq.
    apply Forall2_length in Hovs. by rewrite <- Hovs, firstn_all, app_nil_r.
Qed.

(** ** Templates *)

Lemma diff_at_does self : ∀ other p v, showable other → shows v self →
  ∃ ps v', diff_at [] self other p = Ok ps ∧ shows v' other ∧ does ps p v v'.
Proof.
  assert (Hcs : ∀ old p new ovs v, Forall (λ x, ∀ other p v, showable other → shows v x →
      ∃ ps v', diff_at [] x other p = Ok ps ∧ shows v' other ∧ does ps p v v') old →
    (∀ y, y ∈ new → showable y) → Forall2 shows ovs old → children_of v = Some ovs →
    ∃ ps nvs, diff_children (diff_nth (map (diff_at []) old)) p old new [] = Ok ps ∧
      Forall2 shows nvs new ∧ does ps p v (with_children v nvs)).
  { intros old p new ovs v Hall Hnew Hovs Hv. eapply children_do; [done.. | | done].
    intros i x y c Hx Hy Hc. rewrite (diff_nth_lookup _ _ _ _ _ _ Hx).
    rewrite Forall_lookup in Hall. eauto. }
  assert (Hrep : ∀ other p v, showable other →
    ∃ ps v', Ok [mkPatch p (ReplaceWith (to_replacement_node [] other))] = Ok ps ∧ shows v' other ∧ does ps p v v').
  { intros other p v Ho. destruct (replacement_shows from_html other Ho) as (w & Ew & Hw).
    eexists _, w. split_and!; [done | done | by apply does_act]. }
  induction self as [ns IH | t | name attrs ns IH | name props ns IH | c] using LNode_ind';
    intros other p v Ho Hv; destruct other as [ns' | t' | name' attrs' ns' | name' props' ns' | c'];
    try (apply Hrep, Ho); inversion Hv; subst.
  - destruct (Hcs ns p ns' vs (VFragment vs) IH) as (ps & nvs & E & Hn & D);
      [intros; by eapply showable_child | done | done |].
    exists ps, (VFragment nvs). split_and!; [exact E | by constructor | done].
  - eexists _, (VText t'). split_and!; [done | constructor | by apply does_act].
  - destruct (diff_attrs_does from_html p name vs attrs attrs' m) as (m' & Da & Hm);
      [done | by eapply element_nodup |].
    destruct (Hcs ns p ns' vs (VElement name' m' vs) IH) as (ps & nvs & E & Hn & D);
      [intros; by eapply showable_child | done | done |].
    eexists _, (VElement name' m' nvs). split_and!; [simpl; by rewrite E | by constructor |].
    eapply does_app; [exact Da |]. eapply does_app; [| exact D].
    case_decide as En; [by apply does_act |].
    subst name'. apply does_nil.
Qed.

(** What shows a template tells that it has no dynamic parts. *)
Lemma no_old_children self : ∀ p oc v, shows v self → add_old_children self p oc = oc.
Proof.
  assert (Hcs : ∀ ns vs p, Forall (λ n, ∀ p oc v, shows v n → add_old_children n p oc = oc) ns →
    Forall2 shows vs ns → ∀ idx oc, add_children (map add_old_children ns) idx p oc = oc).
  { intros ns vs p Hall. revert vs. induction Hall as [| n ns Hn _ IH]; intros vs Hs idx oc; [done |].
    apply Forall2_cons_inv_r in Hs as (w & ws & Hw & Hws & ->). simpl.
    rewrite (Hn _ _ w) by done. by eapply IH. }
  induction self as [ns IH | t | name attrs ns IH | name props ns IH | c] using LNode_ind';
    intros p oc v Hv; inversion Hv; subst; simpl; [by eapply Hcs | done | by eapply Hcs].
Qed.

End Reload.

Lemma diff_does from_html old new v : showable from_html new → shows v old →
  ∃ ps v', diff old new = Ok ps ∧ apply_patches from_html ps v = Some v' ∧ shows v' new.
Proof.
  intros Hnew Hv. unfold diff. rewrite (no_old_children _ _ _ _ Hv).
  destruct (diff_at_does from_html old new [] v Hnew Hv) as (ps & v' & E & Hs & D).
  exists ps, v'. split_and!; [done | | done]. by rewrite (D v eq_refl).
Qed.

(** ** Files *)

Lemma diff_views_do from_html cur new : ∀ ds,
  Forall2 (λ c n, id c = id n ∧ showable from_html (template n)) cur new → NoDup (map id cur) →
  ∃ ds', diff_views (zip cur new) ds = Ok (ds ++ ds') ∧
    (∀ i v, i ∉ map id cur → update_view from_html ds' i v = Some v) ∧
    ∀ k c n v, cur !! k = Some c → new !! k = Some n → shows v (template c) →
      ∃ v', update_view from_html ds' (id c) v = Some v' ∧ shows v' (template n).
Proof.
  intros ds Hall. revert ds. induction Hall as [| c n cur new [Hid Hn] Hall IH]; intros ds Hnd.
  { exists []. split_and!; [by rewrite app_nil_r | done | by intros k ? ? ? [=]]. }
  apply NoDup_cons in Hnd as [Hc Hnd].
  assert (Hrest : ∀ ds1 ds2, diff_views (zip cur new) (ds ++ ds1) = Ok ((ds ++ ds1) ++ ds2) →
    diff_views (zip cur new) (ds ++ ds1) = Ok (ds ++ (ds1 ++ ds2))) by (intros; by rewrite app_assoc).
  simpl. destruct (decide (id c = id n ∧ template c ≠ template n)) as [[_ Hne] | Heq].
  - destruct (diff_at_total (add_old_children (template c) [] []) (template c) (template n) []) as [ps Eps].
    unfold diff at 1. rewrite Eps. simpl.
    destruct (IH (ds ++ [(id c, ps)]) Hnd) as (ds2 & E & Hout & Hin).
    exists ((id c, ps) :: ds2). split_and!; [by rewrite E, <- app_assoc | |].
    + intros i v [Hi Hi']%not_elem_of_cons. simpl. rewrite decide_False by done. by apply Hout.
    + intros [| k] c' n' v; simpl.
      * intros [= <-] [= <-] Hv. rewrite decide_True by done.
        destruct (diff_does from_html (template c) (template n) v Hn Hv) as (ps' & v' & E' & A & Hs).
        unfold diff in E'. rewrite Eps in E'. injection E' as <-. rewrite A. simpl. rewrite Hout by done. eauto.
      * intros Hk Hk' Hv. rewrite decide_False; [by eapply Hin |].
        intros Ei. apply Hc. rewrite <- Ei. apply list_elem_of_fmap. exists c'. split; [done | by eapply list_elem_of_lookup_2].
  - destruct (IH ds Hnd) as (ds2 & E & Hout & Hin). exists ds2. split_and!; [done | |].
    + intros i v [Hi Hi']%not_elem_of_cons. by apply Hout.
    + intros [| k] c' n' v; simpl; [| by eapply Hin].
      intros [= <-] [= <-] Hv. assert (template c = template n) as <- by (destruct (decide (template c = template n)); tauto).
      exists v. split; [by apply Hout | done].
Qed.


(** * Hot reloading: further theorems and cases

    Differences always exist and edit as few children as possible; templates
    whose patches are lost on the way; a file that is read again. *)

(** C28: [LNode::diff] gives patches for any two templates: its walk through
    the matrix neither leaves it nor reaches [unreachable!()], and ends. *)
Theorem diff_total (old new : LNode) : ∃ ps, diff old new = Ok ps.
Proof. apply diff_at_total. Qed.

(** C39: the matrix of [diff_children] is filled without leaving it, and holds
    for any prefixes of the old and the new children the least number of
    replacements, removals and insertions that make one of the other. *)
Theorem matrix_holds_least_edits (old new : list LNode) :
  ∃ mat, edit_matrix old new = Ok mat ∧
    ∀ i j, i ≤ length old → j ≤ length new →
      ∃ d, mat_get mat (j * width old + i) = Ok d ∧ least_edits (take i old) (take j new) d.
Proof.
  destruct (edit_matrix_filled old new) as (mat & E & Hmat). exists mat. split; [done |].
  intros i j Hi Hj. by apply (filled_get _ _ _ _ _ _ Hmat).
Qed.

(** ** Cases *)

Module Cases.
Definition text : LNode := Text (lit "a").
Definition block : LNode := DynChild (lit "{count}").
Definition other_block : LNode := DynChild (lit "{name}").

(** Two blocks that change places: nothing is patched. *)
Example swapped_blocks_stay :
  diff (Fragment [block; other_block]) (Fragment [other_block; block]) = Ok [].
Proof. vm_compute. reflexivity. Qed.

(** A text is printed as it is: no browser reads both a text and the element
    that the text is the HTML of. *)
Example text_is_not_escaped (from_html : str → vnode) (name : str) (ns : list LNode) :
  let html := to_html (Element name [] ns) in
  ¬ (shows (from_html (to_html (Text html))) (Text html) ∧
     shows (from_html html) (Element name [] ns)).
Proof. intros html [H H']. simpl in H. inversion H as [| t E E' |]. rewrite <- E in H'. inversion H'. Qed.

(** A block that moves before a text is patched by two replacements, of
    which the second one takes the block from its old path; but the first one
    has put the text there, and the block is gone. *)
Theorem moved_block_is_overwritten (from_html : str → vnode)
    (Hread : from_html (lit "a") = VText (lit "a")) :
  ∃ ps, diff (Fragment [text; block]) (Fragment [block; text]) = Ok ps ∧
    apply_patches from_html ps (VFragment [VText (lit "a"); VDyn (lit "{count}")]) =
      Some (VFragment [VText (lit "a"); VText (lit "a")]).
Proof.
  exists [mkPatch [1] (ReplaceWith (RHtml (lit "a"))); mkPatch [0] (ReplaceWith (RPath [1]))].
  split; [by vm_compute |]. cbn -[lit]. by rewrite Hread.
Qed.

Lemma moved_block_is_overwritten_witness :
  ∃ ps, diff (Fragment [text; block]) (Fragment [block; text]) = Ok ps ∧
    apply_patches VText ps (VFragment [VText (lit "a"); VDyn (lit "{count}")]) =
      Some (VFragment [VText (lit "a"); VText (lit "a")]).
Proof. apply (moved_block_is_overwritten VText). reflexivity. Defined.

(** A view that gets a heading before its paragraph, and a new class *)
Definition old_view : LNode :=
  Element (lit "div") [(lit "class", Static (lit "small")); (lit "on:click", Dynamic)]
    [text; Element (lit "p") [] [text]].
Definition new_view : LNode :=
  Element (lit "div") [(lit "class", Static (lit "big")); (lit "on:click", Dynamic)]
    [Element (lit "h1") [] [Text (lit "b")]; text].

(** A browser that knows the parts of the new view *)
Definition browser (html : str) : vnode :=
  if decide (html = lit "a") then VText (lit "a")
  else if decide (html = lit "b") then VText (lit "b")
  else if decide (html = to_html (Element (lit "h1") [] [Text (lit "b")])) then
    VElement (lit "h1") ∅ [VText (lit "b")]
  else VElement (lit "div") {[lit "class" := lit "big"]}
         [VElement (lit "h1") ∅ [VText (lit "b")]; VText (lit "a")].

Lemma no_attrs : shows_attrs ∅ [].
Proof. split_and!; [by intros ? ? ?%not_elem_of_nil | by intros ? ?%not_elem_of_nil | done]. Qed.

Lemma new_view_showable : showable browser new_view.
Proof.
  split; [by vm_compute |]. intros m Hm.
  assert (Hh1 : shows (VElement (lit "h1") ∅ [VText (lit "b")]) (Element (lit "h1") [] [Text (lit "b")])).
  { constructor; [apply no_attrs |]. repeat constructor. }
  assert (Hparts : m = new_view ∨ m = Element (lit "h1") [] [Text (lit "b")] ∨ m = Text (lit "b") ∨
    m = text) by (simpl in Hm; set_solver).
  destruct Hparts as [-> | [-> | [-> | ->]]].
  - assert (browser (to_html new_view) = VElement (lit "div") {[lit "class" := lit "big"]}
      [VElement (lit "h1") ∅ [VText (lit "b")]; VText (lit "a")]) as -> by by vm_compute.
    constructor; [| repeat constructor; apply no_attrs]. split_and!.
    + intros n s Hn. assert (n = lit "class" ∧ s = lit "big") as [-> ->] by set_solver. by vm_compute.
    + intros n Hn. set_solver.
    + intros n Hn. apply lookup_singleton_ne. set_solver.
  - exact Hh1.
  - constructor.
  - constructor.
Qed.

Definition file : str := lit "src/app.rs".
Definition old_views : list MacroInvocation := [mkMacroInvocation (span_to_stable_id file (lit "7")) old_view].
Definition new_views : list MacroInvocation := [mkMacroInvocation (span_to_stable_id file (lit "7")) new_view].

End Cases.
