(* ===== verification/AsyncDerived.v ===== *)
(** * Asynchronous derived values

    [ArcAsyncDerived] of [reactive_graph/src/computed/async_derived]: a future
    that reads sources is polled by a task, its result is kept as a value, and a
    change of a source makes the task run it again.  [.await]ing the value, and
    the contexts of Suspense that have read it, wait until it is loaded.

    A future of the user is a tree of reads and of polls that find it pending;
    the n-th call of the function may give another one.  A source is a signal,
    or a memo that may have another value when it is asked again; the graph
    behind the memos is that of [Graph].  Subscribers of the value and wakers
    are marks in the state.  The [SlotMap] of tasks is a parameter. *)

From stdpp Require Import base gmap list functions.
From S2P Require Import Prelude SlotMaps.

(** [AsyncDerivedState] *)
Inductive AsyncDerivedState := Clean | Dirty | Notifying.

#[export] Instance AsyncDerivedState_eq_dec : EqDecision AsyncDerivedState.
Proof. solve_decision. Defined.

(** Who is woken: an [.await] of the value, the task that waits to release the
    handle of a Suspense, or nobody ([now_or_never]) *)
Inductive waker := WAwait (n : nat) | WReady (handle : nat) | WNoop.

Section AsyncDerived.
Context {V T TM : Type} `{EqDecision V} `{SlotMap unit TM}.

(** ** State *)

(** A future *)
Inductive fut :=
| Done (v : T)
| Pending (k : fut)
| ReadSource (s : nat) (k : V → fut).

(** A source: [src_next] is the value that a memo takes when it is asked to
    update, [src_subscribed] whether the derived value is among its subscribers. *)
Record source := mkSource {
  src_value : V;
  src_next : option V;
  src_subscribed : bool;
}.

(** [SuspenseContext] *)
Record SuspenseContext := mkSuspense {
  tasks : TM;
  empty_wakers : list nat;
}.

(** The task's position: before its first poll, in [rx.next().await], in
    [fut.await] with [this_version] *)
Inductive task := TStart | TWaiting | TRunning (f : fut) (this_version : nat).

(** [ArcAsyncDerivedInner], with the flag of the channel behind [notifier] *)
Record Inner := mkInner {
  sources : list nat;
  subscribers : list nat;
  notified : bool;
  state : AsyncDerivedState;
  version : nat;
  suspenses : list nat;
  pending_suspenses : list nat;
}.

(** [ArcAsyncDerived] *)
Record Cell := mkCell {
  value : option T;
  wakers : list waker;
  loading : bool;
}.

(** What the task has captured, the flag of its owner, and how often the function was called *)
Record Task := mkTask {
  position : task;
  initial_fut : option fut;
  first_run : bool;
  paused : bool;
  calls : nat;
}.

(** Everything else: sources, contexts, the [SharedTaskHandle]s that are not released, the tasks that wait for [ready], and who was woken or marked dirty *)
Record Env := mkEnv {
  sigs : nat → source;
  contexts : nat → SuspenseContext;
  handles : gmap nat (nat * nat);
  next_handle : nat;
  ready_tasks : list nat;
  woken : list waker;
  suspense_woken : list nat;
  marked : list nat;
}.

Record AD := mkAD {
  inner : Inner;
  cell : Cell;
  run : Task;
  env : Env;
}.

(** Assignments to the fields *)
Definition set_sources (x : list nat) (a : AD) : AD :=
  mkAD (mkInner x (subscribers (inner a)) (notified (inner a)) (state (inner a)) (version (inner a)) (suspenses (inner a)) (pending_suspenses (inner a))) (cell a) (run a) (env a).
Definition set_subscribers (x : list nat) (a : AD) : AD :=
  mkAD (mkInner (sources (inner a)) x (notified (inner a)) (state (inner a)) (version (inner a)) (suspenses (inner a)) (pending_suspenses (inner a))) (cell a) (run a) (env a).
Definition set_notified (x : bool) (a : AD) : AD :=
  mkAD (mkInner (sources (inner a)) (subscribers (inner a)) x (state (inner a)) (version (inner a)) (suspenses (inner a)) (pending_suspenses (inner a))) (cell a) (run a) (env a).
Definition set_state (x : AsyncDerivedState) (a : AD) : AD :=
  mkAD (mkInner (sources (inner a)) (subscribers (inner a)) (notified (inner a)) x (version (inner a)) (suspenses (inner a)) (pending_suspenses (inner a))) (cell a) (run a) (env a).
Definition set_version (x : nat) (a : AD) : AD :=
  mkAD (mkInner (sources (inner a)) (subscribers (inner a)) (notified (inner a)) (state (inner a)) x (suspenses (inner a)) (pending_suspenses (inner a))) (cell a) (run a) (env a).
Definition set_suspenses (x : list nat) (a : AD) : AD :=
  mkAD (mkInner (sources (inner a)) (subscribers (inner a)) (notified (inner a)) (state (inner a)) (version (inner a)) x (pending_suspenses (inner a))) (cell a) (run a) (env a).
Definition set_pending_suspenses (x : list nat) (a : AD) : AD :=
  mkAD (mkInner (sources (inner a)) (subscribers (inner a)) (notified (inner a)) (state (inner a)) (version (inner a)) (suspenses (inner a)) x) (cell a) (run a) (env a).
Definition set_value (x : option T) (a : AD) : AD :=
  mkAD (inner a) (mkCell x (wakers (cell a)) (loading (cell a))) (run a) (env a).
Definition set_wakers (x : list waker) (a : AD) : AD :=
  mkAD (inner a) (mkCell (value (cell a)) x (loading (cell a))) (run a) (env a).
Definition set_loading (x : bool) (a : AD) : AD :=
  mkAD (inner a) (mkCell (value (cell a)) (wakers (cell a)) x) (run a) (env a).
Definition set_position (x : task) (a : AD) : AD :=
  mkAD (inner a) (cell a) (mkTask x (initial_fut (run a)) (first_run (run a)) (paused (run a)) (calls (run a))) (env a).
Definition set_initial_fut (x : option fut) (a : AD) : AD :=
  mkAD (inner a) (cell a) (mkTask (position (run a)) x (first_run (run a)) (paused (run a)) (calls (run a))) (env a).
Definition set_first_run (x : bool) (a : AD) : AD :=
  mkAD (inner a) (cell a) (mkTask (position (run a)) (initial_fut (run a)) x (paused (run a)) (calls (run a))) (env a).
Definition set_paused (x : bool) (a : AD) : AD :=
  mkAD (inner a) (cell a) (mkTask (position (run a)) (initial_fut (run a)) (first_run (run a)) x (calls (run a))) (env a).
Definition set_calls (x : nat) (a : AD) : AD :=
  mkAD (inner a) (cell a) (mkTask (position (run a)) (initial_fut (run a)) (first_run (run a)) (paused (run a)) x) (env a).
Definition set_sigs (x : nat → source) (a : AD) : AD :=
  mkAD (inner a) (cell a) (run a) (mkEnv x (contexts (env a)) (handles (env a)) (next_handle (env a)) (ready_tasks (env a)) (woken (env a)) (suspense_woken (env a)) (marked (env a))).
Definition set_contexts (x : nat → SuspenseContext) (a : AD) : AD :=
  mkAD (inner a) (cell a) (run a) (mkEnv (sigs (env a)) x (handles (env a)) (next_handle (env a)) (ready_tasks (env a)) (woken (env a)) (suspense_woken (env a)) (marked (env a))).
Definition set_handles (x : gmap nat (nat * nat)) (a : AD) : AD :=
  mkAD (inner a) (cell a) (run a) (mkEnv (sigs (env a)) (contexts (env a)) x (next_handle (env a)) (ready_tasks (env a)) (woken (env a)) (suspense_woken (env a)) (marked (env a))).
Definition set_next_handle (x : nat) (a : AD) : AD :=
  mkAD (inner a) (cell a) (run a) (mkEnv (sigs (env a)) (contexts (env a)) (handles (env a)) x (ready_tasks (env a)) (woken (env a)) (suspense_woken (env a)) (marked (env a))).
Definition set_ready_tasks (x : list nat) (a : AD) : AD :=
  mkAD (inner a) (cell a) (run a) (mkEnv (sigs (env a)) (contexts (env a)) (handles (env a)) (next_handle (env a)) x (woken (env a)) (suspense_woken (env a)) (marked (env a))).
Definition set_woken (x : list waker) (a : AD) : AD :=
  mkAD (inner a) (cell a) (run a) (mkEnv (sigs (env a)) (contexts (env a)) (handles (env a)) (next_handle (env a)) (ready_tasks (env a)) x (suspense_woken (env a)) (marked (env a))).
Definition set_suspense_woken (x : list nat) (a : AD) : AD :=
  mkAD (inner a) (cell a) (run a) (mkEnv (sigs (env a)) (contexts (env a)) (handles (env a)) (next_handle (env a)) (ready_tasks (env a)) (woken (env a)) x (marked (env a))).
Definition set_marked (x : list nat) (a : AD) : AD :=
  mkAD (inner a) (cell a) (run a) (mkEnv (sigs (env a)) (contexts (env a)) (handles (env a)) (next_handle (env a)) (ready_tasks (env a)) (woken (env a)) (suspense_woken (env a)) x).

Abbreviation M := (stateM AD).

(** ** Marking ([inner.rs]) *)

Definition mark_dirty : M unit := modify (λ a,
  if decide (state (inner a) = Notifying) then a else set_notified true (set_state Dirty a)).

Definition mark_check : M unit := modify (λ a,
  if decide (state (inner a) = Notifying) then a else set_notified true a).

Definition set_source (s : nat) (x : source) : M unit :=
  modify (λ a, set_sigs (<[s := x]> (sigs (env a))) a).

(** [source.update_if_necessary()] while the derived value is the observer,
    which is therefore not marked dirty *)
Definition source_update (s : nat) : M bool :=
  x ← gets (λ a, sigs (env a) s);
  match src_next x with
  | None => mret false
  | Some v =>
      _ ← set_source s (mkSource v None (src_subscribed x));
      mret (bool_decide (v ≠ src_value x))
  end.

Definition update_if_necessary : M bool :=
  st ← gets (λ a, state (inner a));
  if decide (st = Dirty) then _ ← modify (set_state Clean); mret true
  else if decide (st = Notifying) then mret false
  else ss ← gets (λ a, sources (inner a)); any_of source_update ss.

(** ** Suspense ([mod.rs]) *)

Definition set_context (c : nat) (x : SuspenseContext) : M unit :=
  modify (λ a, set_contexts (<[c := x]> (contexts (env a))) a).

(** [SuspenseContext::task_id] *)
Definition task_id (c : nat) : M (nat * nat) :=
  x ← gets (λ a, contexts (env a) c);
  let (key, ts) := (sm_insert tt (tasks x) : (nat * TM)%type) in
  _ ← set_context c (mkSuspense ts (empty_wakers x)); mret (c, key).

(** [TaskHandle::drop] *)
Definition drop_handle (h : nat * nat) : M unit :=
  x ← gets (λ a, contexts (env a) h.1);
  let ts := (sm_remove h.2 (tasks x)).2 in
  if decide (sm_elems ts = (∅ : gmap nat unit)) then
    _ ← set_context h.1 (mkSuspense ts []);
    modify (λ a, set_suspense_woken (suspense_woken (env a) ++ empty_wakers x) a)
  else set_context h.1 (mkSuspense ts (empty_wakers x)).

(** [SharedTaskHandle::new] *)
Definition shared_handle (h : nat * nat) : M nat :=
  n ← gets (λ a, next_handle (env a));
  _ ← modify (λ a, set_next_handle (S n) (set_handles (<[n := h]> (handles (env a))) a));
  mret n.

(** [SharedTaskHandle::release] *)
Definition release (n : nat) : M unit :=
  h ← gets (λ a, handles (env a) !! n);
  match h with
  | Some h => _ ← modify (λ a, set_handles (delete n (handles (env a))) a); drop_handle h
  | None => mret tt
  end.

(** [SuspenseContext::poll_empty] *)
Definition poll_empty (c w : nat) : M bool :=
  x ← gets (λ a, contexts (env a) c);
  if decide (sm_elems (tasks x) = (∅ : gmap nat unit)) then
    _ ← set_context c (mkSuspense (tasks x) []); mret true
  else
    _ ← (if decide (w ∈ empty_wakers x) then mret tt
         else set_context c (mkSuspense (tasks x) (empty_wakers x ++ [w])));
    mret false.

(** ** The task ([arc_async_derived.rs]) *)

(** A read of a source inside of the observer: it is tracked, a memo updates. *)
Definition read_source (s : nat) : M V :=
  _ ← modify (λ a,
    let x := sigs (env a) s in
    set_sigs (<[s := mkSource (src_value x) (src_next x) true]> (sigs (env a)))
      (if decide (s ∈ sources (inner a)) then a else set_sources (sources (inner a) ++ [s]) a));
  _ ← source_update s;
  gets (λ a, src_value (sigs (env a) s)).

(** One poll of a future: what is left of it, or its result *)
Fixpoint poll_fut (f : fut) : M (fut + T) :=
  match f with
  | Done v => mret (inr v)
  | Pending k => mret (inl k)
  | ReadSource s k => v ← read_source s; poll_fut (k v)
  end.

Context (fun_ : nat → fut).

Definition call_fun : M fut :=
  n ← gets (λ a, calls (run a)); _ ← modify (set_calls (S n)); mret (fun_ n).

Definition notify_subs : M unit :=
  pending_wakers ← gets (λ a, wakers (cell a));
  _ ← modify (λ a, set_wakers [] (set_loading false a));
  prev_state ← gets (λ a, state (inner a));
  _ ← modify (set_state Notifying);
  _ ← modify (λ a, set_marked (marked (env a) ++ subscribers (inner a)) a);
  _ ← modify (λ a, set_woken (woken (env a) ++ pending_wakers) a);
  modify (set_state prev_state).

Definition set_inner_value (new_value : option T) : M unit :=
  _ ← modify (set_value new_value); notify_subs.

(** [for handle in mem::take(&mut pending_suspenses) { handle.release() }] *)
Definition release_pending : M unit :=
  hs ← gets (λ a, pending_suspenses (inner a));
  _ ← modify (set_pending_suspenses []); for_each release hs.

(** A task of the context, whose handle is added to [pending_suspenses] *)
Definition push_handle (h : nat * nat) : M nat :=
  n ← shared_handle h;
  _ ← modify (λ a, set_pending_suspenses (pending_suspenses (inner a) ++ [n]) a);
  mret n.
Definition register_suspense (c : nat) : M unit := h ← task_id c; _ ← push_handle h; mret tt.

(** [suspense_ids], added to [pending_suspenses] *)
Definition register_suspenses : M unit :=
  cs ← gets (λ a, suspenses (inner a));
  _ ← modify (set_suspenses []);
  for_each register_suspense cs.

(** [initial_fut.take().unwrap_or_else(..)] *)
Definition next_fut : M fut :=
  initial ← gets (λ a, initial_fut (run a));
  match initial with
  | Some f => _ ← modify (set_initial_fut None); mret f
  | None => call_fun
  end.

(** From the new [Future] to [fut.await] *)
Definition start_run : M unit :=
  f ← next_fut;
  _ ← modify (set_first_run false);
  _ ← modify (set_loading true);
  v ← gets (λ a, version (inner a));
  _ ← modify (set_version (S v));
  _ ← register_suspenses;
  modify (set_position (TRunning f (S v))).

(** After [fut.await] *)
Definition finish_run (new_value : T) (this_version : nat) : M unit :=
  _ ← release_pending;
  latest_version ← gets (λ a, version (inner a));
  _ ← (if decide (latest_version = this_version) then set_inner_value (Some new_value) else mret tt);
  modify (set_position TWaiting).

(** The task up to its next [.await]; whether it goes on from there at once *)
Definition task_step : M bool :=
  p ← gets (λ a, position (run a));
  match p with
  | TStart =>
      already_dirty ← gets (λ a, bool_decide (state (inner a) = Dirty));
      _ ← (if (already_dirty : bool) then modify (set_initial_fut None) else mret tt);
      _ ← modify (set_position TWaiting); mret true
  | TWaiting =>
      ready ← gets (λ a, notified (inner a));
      if (ready : bool) then
        _ ← modify (set_notified false);
        is_paused ← gets (λ a, paused (run a));
        update ← (if (is_paused : bool) then mret false else update_if_necessary);
        first ← gets (λ a, first_run (run a));
        _ ← (if (update || first : bool) then start_run else mret tt);
        mret true
      else mret false
  | TRunning f this_version =>
      r ← poll_fut f;
      match r with
      | inl k => _ ← modify (set_position (TRunning k this_version)); mret false
      | inr v => _ ← finish_run v this_version; mret true
      end
  end.

(** One poll of the task *)
Fixpoint task_loop (fuel : nat) : M unit :=
  match fuel with
  | 0 => no_fuel
  | S fuel => go ← task_step; if (go : bool) then task_loop fuel else mret tt
  end.

Definition poll_task : M unit := task_loop 4.

(** [spawn_derived!] of [new_with_initial]: the future is polled once, and the
    task is spawned. *)
Definition new_with_initial (initial_value : option T) : M unit :=
  _ ← modify (λ a, mkAD (mkInner [] [] false Clean 0 [] []) (mkCell initial_value [] true)
                     (mkTask TStart None true (paused (run a)) 0) (env a));
  f ← call_fun;
  r ← poll_fut f;
  match r with
  | inl k => _ ← modify (set_notified true); modify (set_initial_fut (Some k))
  | inr v =>
      _ ← modify (set_state Clean);
      _ ← modify (set_value (Some v));
      _ ← modify (set_loading false);
      modify (set_first_run false)
  end.

(** ** Reading and awaiting ([arc_async_derived.rs], [future_impls.rs]) *)

Definition add_subscriber (sub : nat) : M unit := modify (λ a,
  if decide (sub ∈ subscribers (inner a)) then a else set_subscribers (subscribers (inner a) ++ [sub]) a).

Definition track (observer : option nat) : M unit :=
  match observer with Some sub => add_subscriber sub | None => mret tt end.

Definition push_waker (w : waker) : M unit := modify (λ a, set_wakers (wakers (cell a) ++ [w]) a).

Definition push_suspense (context : option nat) : M unit :=
  match context with
  | Some c => modify (λ a, set_suspenses (suspenses (inner a) ++ [c]) a)
  | None => mret tt
  end.

(** [try_read_untracked] with the context of a Suspense, if there is one; asking
    whether the value is ready tracks it all the same.  If it is not, a task is
    spawned that releases the handle. *)
Definition try_read_untracked (observer context : option nat) : M (option T) :=
  _ ← (match context with
       | Some c =>
           h ← task_id c;
           _ ← track observer;
           is_loading ← gets (λ a, loading (cell a));
           if (is_loading : bool) then
             _ ← push_waker WNoop;
             n ← push_handle h;
             modify (λ a, set_ready_tasks (ready_tasks (env a) ++ [n]) a)
           else drop_handle h
       | None => mret tt
       end);
  _ ← push_suspense context;
  gets (λ a, value (cell a)).

(** A poll of [AsyncDerivedReadyFuture] by the task that was spawned for the
    handle [n] *)
Definition poll_ready (n : nat) : M unit :=
  is_loading ← gets (λ a, loading (cell a));
  if (is_loading : bool) then push_waker (WReady n) else release n.

(** A poll of [AsyncDerivedFuture] *)
Definition poll_await (w : nat) (observer context : option nat) : M (option T) :=
  _ ← track observer;
  _ ← push_suspense context;
  is_loading ← gets (λ a, loading (cell a));
  if (is_loading : bool) then _ ← push_waker (WAwait w); mret None
  else v ← gets (λ a, value (cell a)); v ← unwrapM v; mret (Some v).

(** ** Writing *)

(** [try_write] up to the drop of its guard, which notifies *)
Definition write (new : option T) : M unit :=
  _ ← modify (λ a, set_version (S (version (inner a))) a);
  _ ← release_pending;
  _ ← modify (set_value new); notify_subs.

(** [try_write_untracked] *)
Definition write_untracked (new : option T) : M unit :=
  _ ← modify (λ a, set_version (S (version (inner a))) a);
  _ ← release_pending; modify (set_value new).

(** ** What sources do *)

(** A write of a signal, which keeps or takes its subscribers *)
Definition set_signal (s : nat) (v : V) (keep : bool) : M unit :=
  x ← gets (λ a, sigs (env a) s);
  _ ← set_source s (mkSource v None (src_subscribed x && keep));
  if src_subscribed x then mark_dirty else mret tt.

(** A memo is marked: its next value will be [v]. *)
Definition mark_memo (s : nat) (v : V) : M unit :=
  x ← gets (λ a, sigs (env a) s);
  _ ← set_source s (mkSource (src_value x) (Some v) (src_subscribed x));
  if src_subscribed x then mark_check else mret tt.

(** A memo is updated for somebody else. *)
Definition update_memo (s : nat) : M unit :=
  x ← gets (λ a, sigs (env a) s);
  changed ← source_update s;
  if ((changed : bool) && src_subscribed x) then mark_dirty else mret tt.

(** ** Programs *)

Inductive event :=
| PollTask
| PollReady (n : nat)
| PollAwait (w : nat) (observer context : option nat)
| Read (observer context : option nat)
| PollEmpty (c w : nat)
| Write (new : option T)
| WriteUntracked (new : option T)
| SetSignal (s : nat) (v : V) (keep : bool)
| MarkMemo (s : nat) (v : V)
| UpdateMemo (s : nat)
| SetPaused (b : bool).

Definition step (e : event) : M unit :=
  match e with
  | PollTask => poll_task
  | PollReady n => poll_ready n
  | PollAwait w o c => _ ← poll_await w o c; mret tt
  | Read o c => _ ← track o; _ ← try_read_untracked o c; mret tt
  | PollEmpty c w => _ ← poll_empty c w; mret tt
  | Write new => write new
  | WriteUntracked new => write_untracked new
  | SetSignal s v keep => set_signal s v keep
  | MarkMemo s v => mark_memo s v
  | UpdateMemo s => update_memo s
  | SetPaused b => modify (set_paused b)
  end.

Definition steps (es : list event) : M unit := for_each step es.

End AsyncDerived.
