(* ===== verification/AsyncFacts.v ===== *)
(** * Facts on asynchronous derived values

    What the operations change ([eqns]), the invariant of a derived value that
    is neither paused nor written without a notification ([Inv]), and that its
    operations keep it. *)

From stdpp Require Import base gmap list functions.
From S2P Require Import Prelude SlotMaps AsyncDerived.

Section Facts.
Context {V T TM : Type} `{EqDecision V} `{!SlotMap unit TM} `{!SlotMapLaws unit TM}.
Context (fun_ : nat → fut (V := V) (T := T)).
Implicit Types (a : AD (V := V) (T := T) (TM := TM)) (f : fut (V := V) (T := T)).

(** ** What the operations change *)

Lemma source_update_eq s a : ∃ b sg, source_update s a = Ok (b, set_sigs sg a).
Proof.
  unfold source_update. destruct (src_next (sigs (env a) s)) eqn:E;
    cbv [mbind stateM_bind gets]; rewrite E; cbv [set_source modify mret stateM_ret].
  - eauto.
  - exists false, (sigs (env a)). by destruct a as [? ? ? []].
Qed.

Lemma any_update_eq ss a : ∃ b sg, any_of source_update ss a = Ok (b, set_sigs sg a).
Proof.
  revert a. induction ss as [| s ss IH]; intros a.
  - exists false, (sigs (env a)). by destruct a as [? ? ? []].
  - destruct (source_update_eq s a) as (b & sg & E). simpl. step_with E.
    destruct b; [by exists true, sg |].
    destruct (IH (set_sigs sg a)) as (b & sg' & ->). by exists b, sg'.
Qed.

Lemma read_source_eq s a : ∃ v ss sg, read_source s a = Ok (v, set_sources ss (set_sigs sg a)).
Proof.
  unfold read_source. cbv [mbind stateM_bind gets modify].
  match goal with |- context [source_update s ?b] => destruct (source_update_eq s b) as (x & sg & ->) end.
  case_decide.
  - eexists _, (sources (inner a)), sg. by destruct a as [[] ? ? []].
  - eexists _, (sources (inner a) ++ [s]), sg. by destruct a as [[] ? ? []].
Qed.

Lemma poll_fut_eq f a : ∃ r ss sg, poll_fut f a = Ok (r, set_sources ss (set_sigs sg a)).
Proof.
  revert a. induction f as [v | k IH | s k IH]; intros a; simpl.
  1-2: eexists _, (sources (inner a)), (sigs (env a)); by destruct a as [[] ? ? []].
  destruct (read_source_eq s a) as (v & ss & sg & E). step_with E.
  destruct (IH v (set_sources ss (set_sigs sg a))) as (r & ss' & sg' & ->). by exists r, ss', sg'.
Qed.

Lemma notify_subs_eq a : notify_subs a = Ok (tt,
  set_wakers [] (set_loading false (set_marked (marked (env a) ++ subscribers (inner a))
    (set_woken (woken (env a) ++ wakers (cell a)) a)))).
Proof. by destruct a as [[] [] ? []]. Qed.

(** ** Suspense *)

(** The tasks of the contexts are those of the pending handles. *)
Record susp_ok (pending : list nat) (cs : nat → SuspenseContext (TM := TM))
    (hs : gmap nat (nat * nat)) (next : nat) : Prop := mkSuspOk {
  so_tasks : ∀ c k, is_Some (sm_elems (tasks (cs c)) !! k) → ∃ n, hs !! n = Some (c, k);
  so_pending : ∀ n, is_Some (hs !! n) → n ∈ pending;
  so_fresh : ∀ n, is_Some (hs !! n) → n < next;
}.

Abbreviation a_susp a := (susp_ok (pending_suspenses (inner a)) (contexts (env a)) (handles (env a)) (next_handle (env a))).

Lemma task_id_eq c a : ∃ k cs, task_id c a = Ok ((c, k), set_contexts cs a) ∧
  ∀ d j, is_Some (sm_elems (tasks (cs d)) !! j) ↔ is_Some (sm_elems (tasks (contexts (env a) d)) !! j) ∨ d = c ∧ j = k.
Proof.
  unfold task_id. cbv [mbind stateM_bind gets].
  destruct (sm_insert () (tasks (contexts (env a) c))) as [k ts] eqn:E.
  apply sm_insert_spec in E as (_ & _ & Ets).
  eexists k, _. split; [reflexivity |]. intros d j. destruct (decide (d = c)) as [-> |].
  - rewrite fn_lookup_insert. simpl. rewrite Ets. destruct (decide (j = k)) as [-> |].
    + rewrite lookup_insert_eq. naive_solver.
    + rewrite lookup_insert_ne by done. naive_solver.
  - rewrite fn_lookup_insert_ne by done. naive_solver.
Qed.

Lemma drop_handle_eq c k a : ∃ cs sw, drop_handle (c, k) a = Ok (tt, set_contexts cs (set_suspense_woken sw a)) ∧
  ∀ d j, is_Some (sm_elems (tasks (cs d)) !! j) ↔
    is_Some (sm_elems (tasks (contexts (env a) d)) !! j) ∧ ¬ (d = c ∧ j = k).
Proof.
  unfold drop_handle. cbv [mbind stateM_bind gets]. simpl.
  destruct (sm_remove_spec k (tasks (contexts (env a) c))) as (_ & Er & _).
  assert (Htasks : ∀ ws d j, is_Some (sm_elems (tasks (<[c := mkSuspense (sm_remove k (tasks (contexts (env a) c))).2 ws]>
      (contexts (env a)) d)) !! j) ↔ is_Some (sm_elems (tasks (contexts (env a) d)) !! j) ∧ ¬ (d = c ∧ j = k)).
  { intros ws d j. destruct (decide (d = c)) as [-> |].
    - rewrite fn_lookup_insert. simpl. rewrite Er, lookup_delete_is_Some. naive_solver.
    - rewrite fn_lookup_insert_ne by done. naive_solver. }
  case_decide; cbv [set_context modify]; simpl.
  - eexists _, _. split; [reflexivity | apply Htasks].
  - eexists _, (suspense_woken (env a)). split; [| apply Htasks]. by destruct a as [? ? ? []].
Qed.

(** The fields that releasing handles may change *)
Definition with_susp (cs : nat → SuspenseContext (TM := TM)) hs sw a : AD :=
  set_contexts cs (set_handles hs (set_suspense_woken sw a)).

Lemma release_eq n a : ∃ cs sw, release n a = Ok (tt, with_susp cs (delete n (handles (env a))) sw a) ∧
  ∀ d j, is_Some (sm_elems (tasks (cs d)) !! j) ↔
    is_Some (sm_elems (tasks (contexts (env a) d)) !! j) ∧ handles (env a) !! n ≠ Some (d, j).
Proof.
  unfold release. cbv [mbind stateM_bind gets]. destruct (handles (env a) !! n) as [[c k] |] eqn:E.
  - cbv [modify]. match goal with |- context [drop_handle (c, k) ?b] =>
      destruct (drop_handle_eq c k b) as (cs & sw & -> & Ht) end.
    exists cs, sw. split; [reflexivity |]. intros d j. rewrite Ht. simpl. split; naive_solver.
  - exists (contexts (env a)), (suspense_woken (env a)). split; [| naive_solver].
    rewrite delete_id by done. by destruct a as [? ? ? []].
Qed.

Lemma releases_eq l a : ∃ cs hs sw, for_each release l a = Ok (tt, with_susp cs hs sw a) ∧
  (∀ n x, hs !! n = Some x ↔ handles (env a) !! n = Some x ∧ n ∉ l) ∧
  ∀ d j, is_Some (sm_elems (tasks (cs d)) !! j) ↔
    is_Some (sm_elems (tasks (contexts (env a) d)) !! j) ∧ ∀ n, n ∈ l → handles (env a) !! n ≠ Some (d, j).
Proof.
  revert a. induction l as [| n l IH]; intros a.
  - exists (contexts (env a)), (handles (env a)), (suspense_woken (env a)). split_and!.
    + by destruct a as [? ? ? []].
    + intros n x. set_solver.
    + intros d j. set_solver.
  - simpl. destruct (release_eq n a) as (cs & sw & E & Ht). step_with E.
    destruct (IH (with_susp cs (delete n (handles (env a))) sw a)) as (cs' & hs' & sw' & -> & Hh & Ht').
    exists cs', hs', sw'. split_and!; [reflexivity | |].
    + intros m x. rewrite Hh. simpl. rewrite lookup_delete_Some, not_elem_of_cons. naive_solver.
    + intros d j. rewrite Ht'. simpl. rewrite Ht. split.
      * intros [[Hs Hn] Hl]. split; [done |]. intros m [-> | Hm]%elem_of_cons; [done |].
        intros Hm'. destruct (decide (n = m)) as [-> |]; [done |].
        apply (Hl m Hm). by rewrite lookup_delete_ne.
      * intros [Hs Hl]. split_and!; [done | apply Hl; by left |].
        intros m Hm [_ Hm']%lookup_delete_Some. by apply (Hl m); [right |].
Qed.

Lemma release_pending_eq a : a_susp a → ∃ cs sw,
  release_pending a = Ok (tt, set_pending_suspenses [] (with_susp cs ∅ sw a)) ∧
  ∀ d, sm_elems (tasks (cs d)) = ∅.
Proof.
  intros [Ht Hp Hf]. unfold release_pending. cbv [mbind stateM_bind gets modify].
  destruct (releases_eq (pending_suspenses (inner a)) (set_pending_suspenses [] a)) as (cs & hs & sw & -> & Hh & Ht').
  exists cs, sw. assert (hs = ∅) as ->.
  { apply map_empty. intros n. destruct (hs !! n) as [x |] eqn:E; [| done].
    apply Hh in E as [E []]. apply Hp. by exists x. }
  split; [by destruct a as [[] ? ? []] |].
  intros d. apply map_empty. intros j. destruct (sm_elems (tasks (cs d)) !! j) as [x |] eqn:E; [| done].
  assert (is_Some (sm_elems (tasks (cs d)) !! j)) as [Hs Hn]%Ht' by (by eexists). simpl in *.
  destruct (Ht d j Hs) as (n & En). exfalso. apply (Hn n); [| done]. apply Hp. by eexists.
Qed.

(** A handle for a new task *)
Lemma new_handle_eq c a : a_susp a → ∃ k cs, task_id c a = Ok ((c, k), set_contexts cs a) ∧
  susp_ok (pending_suspenses (inner a) ++ [next_handle (env a)]) cs
    (<[next_handle (env a) := (c, k)]> (handles (env a))) (S (next_handle (env a))).
Proof.
  intros [Ht Hp Hf]. destruct (task_id_eq c a) as (k & cs & E & Hc). exists k, cs. split; [done |].
  split.
  - intros d j [[n Hn]%Ht | [-> ->]]%Hc; [exists n | exists (next_handle (env a))].
    + rewrite lookup_insert_ne; [done |]. intros <-. assert (is_Some (handles (env a) !! next_handle (env a))) as ?%Hf by eauto. lia.
    + by rewrite lookup_insert_eq.
  - intros n [x [[<- _] | [_ Hn]]%lookup_insert_Some]; set_solver.
  - intros n [x [[<- _] | [_ Hn]]%lookup_insert_Some]; [lia |]. assert (n < next_handle (env a)) by (apply Hf; eauto). lia.
Qed.

(** The fields that a new handle changes *)
Definition with_handles p (cs : nat → SuspenseContext (TM := TM)) hs nx a : AD :=
  set_pending_suspenses p (set_contexts cs (set_handles hs (set_next_handle nx a))).

Lemma register_suspense_eq c a : a_susp a → ∃ p cs hs nx,
  register_suspense c a = Ok (tt, with_handles p cs hs nx a) ∧ susp_ok p cs hs nx.
Proof.
  intros Ha. destruct (new_handle_eq c a Ha) as (k & cs & E & Hok).
  unfold register_suspense. step_with E. eexists _, _, _, _. split; [reflexivity | exact Hok].
Qed.

Lemma registers_eq l a : a_susp a → ∃ p cs hs nx,
  for_each register_suspense l a
  = Ok (tt, with_handles p cs hs nx a) ∧
  susp_ok p cs hs nx.
Proof.
  revert a. induction l as [| c l IH]; intros a Ha; simpl.
  - eexists _, _, _, _. split; [| exact Ha]. by destruct a as [[] ? ? []].
  - destruct (register_suspense_eq c a Ha) as (p & cs & hs & nx & E & Hok). step_with E.
    destruct (IH (with_handles p cs hs nx a) Hok) as (p' & cs' & hs' & nx' & -> & Hs). by exists p', cs', hs', nx'.
Qed.

Lemma register_suspenses_eq a : a_susp a → ∃ p cs hs nx,
  register_suspenses a = Ok (tt, set_suspenses [] (with_handles p cs hs nx a)) ∧ susp_ok p cs hs nx.
Proof.
  intros Ha. unfold register_suspenses. cbv [mbind stateM_bind gets modify].
  destruct (registers_eq (suspenses (inner a)) (set_suspenses [] a) Ha) as (p & cs & hs & nx & E & Hs).
  exists p, cs, hs, nx. split; [| done]. exact E.
Qed.

(** ** The invariant *)

(** Nobody waits for a value that is loaded; a value that is loading has a run
    that will install it, or a first run that was notified. *)
Record Inv a : Prop := mkInv {
  inv_susp : a_susp a;
  inv_idle : loading (cell a) = false →
    wakers (cell a) = [] ∧ pending_suspenses (inner a) = [] ∧ is_Some (value (cell a));
  inv_loading : loading (cell a) = true →
    match position (run a) with
    | TRunning _ ver => ver = version (inner a)
    | _ => first_run (run a) = true
    end;
  inv_running : match position (run a) with
    TRunning _ ver => first_run (run a) = false ∧ ver ≤ version (inner a) | _ => True end;
  inv_first : first_run (run a) = true → notified (inner a) = true;
  inv_state : state (inner a) ≠ Notifying;
  inv_paused : paused (run a) = false;
}.

(** Wakers are kept until they are woken. *)
Definition keeps_wakers a a' : Prop :=
  ∀ w, w ∈ wakers (cell a) ∨ w ∈ woken (env a) → w ∈ wakers (cell a') ∨ w ∈ woken (env a').

#[global] Instance keeps_wakers_preorder : PreOrder keeps_wakers.
Proof. split; [by intros a w | intros a b c Hab Hbc w Hw; by apply Hbc, Hab]. Qed.

Lemma Inv_reads ss sg a : Inv a → Inv (set_sources ss (set_sigs sg a)).
Proof. intros [Hs Hi Hl Hr Hf Hst Hp]. by constructor. Qed.

Lemma finish_run_ok v ver f a : Inv a → position (run a) = TRunning f ver →
  ∃ cs sw wk mk, finish_run v ver a = Ok (tt, set_position TWaiting (set_wakers [] (set_loading false
    (set_value (if decide (version (inner a) = ver) then Some v else value (cell a))
      (set_pending_suspenses [] (with_susp cs ∅ sw (set_woken wk (set_marked mk a)))))))) ∧
    (∀ d, sm_elems (tasks (cs d)) = ∅) ∧ wk = woken (env a) ++ wakers (cell a).
Proof.
  intros [Hs Hi Hl Hr Hf Hst Hp] Hpos. rewrite Hpos in *.
  destruct (release_pending_eq a Hs) as (cs & sw & E & Ht).
  unfold finish_run. step_with E. cbv [mbind stateM_bind gets]. simpl.
  case_decide as Ev.
  - unfold set_inner_value. cbv [mbind stateM_bind modify]. rewrite notify_subs_eq.
    eexists cs, sw, _, _. split; [reflexivity | done].
  - assert (loading (cell a) = false) as Hload.
    { destruct (loading (cell a)) eqn:El; [| done]. specialize (Hl eq_refl). congruence. }
    destruct (Hi Hload) as (Hw & _). eexists cs, sw, _, (marked (env a)).
    split; [| split; [done | by rewrite Hw, app_nil_r]].
    destruct a as [[] [] [] []]; simpl in *; subst; reflexivity.
Qed.

Lemma finish_run_inv v ver f a a' : Inv a → position (run a) = TRunning f ver →
  finish_run v ver a = Ok (tt, a') →
  Inv a' ∧ keeps_wakers a a' ∧ position (run a') = TWaiting ∧ notified (inner a') = notified (inner a) ∧
  loading (cell a') = false.
Proof.
  intros HI Hpos E. destruct (finish_run_ok v ver f a HI Hpos) as (cs & sw & wk & mk & E' & Ht & Hwk).
  rewrite E in E'. injection E' as ->. destruct HI as [Hs Hi Hl Hr Hf Hst Hp]. rewrite Hpos in *.
  split_and!; [| | done | done | done].
  - constructor; simpl; try done.
    + split; simpl.
      * intros c k [x Hx]. by rewrite Ht in Hx.
      * by intros n [x Hx].
      * by intros n [x Hx].
    + intros _. split_and!; [done | done |]. case_decide as Ev; [by eexists |]. apply Hi.
      destruct (loading (cell a)) eqn:El; [| done]. specialize (Hl eq_refl). congruence.
  - intros w. simpl. rewrite Hwk. set_solver.
Qed.

(** The future of the next run, and the calls of the function up to it *)
Definition run_fut a : fut (V := V) (T := T) :=
  match initial_fut (run a) with Some f => f | None => fun_ (calls (run a)) end.
Definition run_calls a : nat :=
  match initial_fut (run a) with Some _ => calls (run a) | None => S (calls (run a)) end.

Lemma next_fut_eq a : next_fut fun_ a = Ok (run_fut a, set_initial_fut None (set_calls (run_calls a) a)).
Proof.
  unfold next_fut, run_fut, run_calls. cbv [mbind stateM_bind gets modify]. destruct (initial_fut (run a)) eqn:E.
  - by destruct a as [? ? [] ?].
  - unfold call_fun. cbv [mbind stateM_bind gets modify]. destruct a as [? ? [] ?]. simpl in *. by subst.
Qed.

Definition started p (cs : nat → SuspenseContext (TM := TM)) hs nx a : AD :=
  set_position (TRunning (run_fut a) (S (version (inner a)))) (set_suspenses [] (with_handles p cs hs nx
    (set_version (S (version (inner a))) (set_loading true (set_first_run false
      (set_initial_fut None (set_calls (run_calls a) a))))))).

Lemma start_run_eq a : a_susp a → ∃ p cs hs nx,
  start_run fun_ a = Ok (tt, started p cs hs nx a) ∧ susp_ok p cs hs nx.
Proof.
  intros Hs. unfold start_run. step_with (next_fut_eq a). cbv [mbind stateM_bind gets modify].
  match goal with |- context [register_suspenses ?b] =>
    destruct (register_suspenses_eq b Hs) as (p & cs & hs & nx & -> & Hok) end.
  by exists p, cs, hs, nx.
Qed.

Lemma start_run_ok a : a_susp a → state (inner a) ≠ Notifying → paused (run a) = false →
  ∃ f a', start_run fun_ a = Ok (tt, a') ∧ Inv a' ∧ keeps_wakers a a' ∧
    position (run a') = TRunning f (version (inner a')) ∧ notified (inner a') = notified (inner a).
Proof.
  intros Hs Hst Hp. destruct (start_run_eq a Hs) as (p & cs & hs & nx & E & Hok).
  exists (run_fut a). eexists. split; [exact E |]. split_and!; [| by intros w | done | done].
  constructor; simpl; try done.
Qed.

Lemma update_if_necessary_eq a : state (inner a) ≠ Notifying → ∃ b sg,
  update_if_necessary a = Ok (b, set_state Clean (set_sigs sg a)) ∧
  (state (inner a) = Dirty → b = true ∧ sg = sigs (env a)).
Proof.
  intros Hst. unfold update_if_necessary. cbv [mbind stateM_bind gets]. case_decide as E.
  - eexists true, _. split; [| done]. by destruct a as [[] ? ? []].
  - rewrite decide_False by done. destruct (any_update_eq (sources (inner a)) a) as (b & sg & ->).
    exists b, sg. split; [| done]. assert (state (inner a) = Clean) by (by destruct (state (inner a))).
    destruct a as [[] ? ? []]. simpl in *. by subst.
Qed.

(** How many more times the task can go on before it waits *)
Definition phase a : nat :=
  match position (run a), notified (inner a) with
  | TStart, true | TRunning _ _, true => 4
  | TWaiting, true => 3
  | TStart, false | TRunning _ _, false => 2
  | TWaiting, false => 1
  end.

Definition settled a : Prop := position (run a) = TWaiting ∧ notified (inner a) = false.

(** What is left of a future after some polls *)
Inductive later : fut (V := V) (T := T) → fut (V := V) (T := T) → Prop :=
| later_pending k : later k (Pending k)
| later_read s k v k' : later k' (k v) → later k' (ReadSource s k).

Lemma later_wf f : Acc later f.
Proof.
  induction f as [v | k IH | s k IH]; constructor; intros k' Hk; inversion Hk; subst; [done |].
  eapply Acc_inv; eauto.
Qed.

Lemma poll_fut_later f a k a' : poll_fut f a = Ok (inl k, a') → later k f.
Proof.
  revert a. induction f as [v | k' IH | s k' IH]; intros a; simpl; [by intros [=] | intros [= -> ->]; constructor |].
  destruct (read_source_eq s a) as (v & ss & sg & E). step_with E. intros Hk. econstructor. by eapply IH.
Qed.

(** A step of the task keeps the invariant and comes closer to the end of the
    poll; in the end it has settled or the future is pending once more. *)
Inductive step_result a : bool → AD → Prop :=
| goes_on a' : Inv a' → keeps_wakers a a' → phase a' < phase a →
    (notified (inner a) = false → notified (inner a') = false) →
    (∀ f ver, position (run a) = TRunning f ver → position (run a') = TWaiting) →
    (∀ f ver, position (run a') = TRunning f ver → notified (inner a) = true ∧ notified (inner a') = false) →
    step_result a true a'
| has_settled : settled a → step_result a false a
| is_pending f k ver a' : position (run a) = TRunning f ver → position (run a') = TRunning k ver →
    later k f → Inv a' → keeps_wakers a a' → notified (inner a') = notified (inner a) → step_result a false a'.

Lemma task_step_ok a : Inv a → ∃ go a', task_step fun_ a = Ok (go, a') ∧ step_result a go a'.
Proof.
  intros HI. unfold task_step. cbv [mbind stateM_bind gets]. destruct (position (run a)) as [| | f ver] eqn:Hpos.
  - exists true. destruct HI as [Hs Hi Hl Hr Hf Hst Hp]. rewrite Hpos in *.
    case_bool_decide; cbv [mbind stateM_bind modify mret stateM_ret]; (eexists; split; [reflexivity |]).
    all: constructor; [by constructor | by intros w | | done | congruence | done].
    all: unfold phase; rewrite Hpos; simpl; destruct (notified (inner a)); lia.
  - destruct (notified (inner a)) eqn:Hn; [| exists false, a; split; [done |]; by apply has_settled].
    exists true. destruct HI as [Hs Hi Hl Hr Hf Hst Hp]. rewrite Hpos in *.
    cbv [modify]. simpl. rewrite Hp.
    destruct (update_if_necessary_eq (set_notified false a) Hst) as (u & sg & -> & _). simpl.
    set (a1 := set_state Clean (set_sigs sg (set_notified false a))).
    destruct (u || first_run (run a)) eqn:Eu.
    + destruct (start_run_ok a1) as (f & a' & E & HI' & Hk & Hpos' & Hn'); [exact Hs | done | exact Hp |].
      rewrite E. eexists. split; [reflexivity |]. constructor; [done | exact Hk | | done | congruence | intros; by rewrite Hn'].
      unfold phase. rewrite Hpos, Hpos', Hn, Hn'. simpl. lia.
    + apply orb_false_iff in Eu as [-> Hfr]. eexists. split; [reflexivity |].
      constructor; [| by intros w | | done | congruence | simpl; congruence].
      * constructor; simpl; try done; rewrite ?Hpos; try done. by rewrite Hfr.
      * unfold phase. simpl. rewrite Hpos, Hn. lia.
  - destruct (poll_fut_eq f a) as (r & ss & sg & E). rewrite E. pose proof (Inv_reads ss sg a HI) as HI'.
    destruct r as [k | v].
    + exists false. eexists. split; [reflexivity |]. eapply is_pending; [done | done | by eapply poll_fut_later | | by intros w | done].
      destruct HI as [Hs Hi Hl Hr Hf Hst Hp]. rewrite Hpos in *. by constructor.
    + exists true. destruct (finish_run_ok v ver f _ HI' Hpos) as (cs & sw & wk & mk & E' & _).
      destruct (finish_run_inv v ver f _ _ HI' Hpos E') as (HI2 & Hk & Hpos2 & Hn2 & _).
      rewrite E'. eexists. split; [reflexivity |]. constructor; [exact HI2 | exact Hk | | | done | congruence].
      * unfold phase. rewrite Hpos, Hpos2, Hn2. simpl. destruct (notified (inner a)); lia.
      * intros Hn. by rewrite Hn2.
Qed.

(** What a poll of the task comes to *)
Definition poll_result a a' : Prop :=
  settled a' ∨ ∃ k ver, position (run a') = TRunning k ver ∧
    (notified (inner a) = true ∧ notified (inner a') = false ∨
     ∃ f ver0, position (run a) = TRunning f ver0 ∧ later k f ∧ notified (inner a') = notified (inner a)).

Lemma task_loop_ok fuel : ∀ a, Inv a → phase a ≤ fuel → ∃ a', task_loop fun_ fuel a = Ok (tt, a') ∧
  Inv a' ∧ keeps_wakers a a' ∧ poll_result a a'.
Proof.
  induction fuel as [| fuel IH]; intros a HI Hph.
  { unfold phase in Hph. destruct (position (run a)), (notified (inner a)); lia. }
  simpl. destruct (task_step_ok a HI) as (go & a1 & E & R). step_with E.
  destruct R as [a1 HI1 Hk Hlt Hn Hw Hr | Hs | f k ver a1 Hpos Hpos1 Hlater HI1 Hk Hn].
  - destruct (IH a1 HI1) as (a2 & E2 & HI2 & Hk2 & R2); [lia |].
    exists a2. split_and!; [done | done | by etrans |].
    destruct R2 as [| (k & ver & Hpos & [[Hn1 Hn2] | (f & ver0 & Hpos1 & _ & Hn2)])]; [by left | right..].
    + exists k, ver. split; [done |]. left. split; [| done]. destruct (notified (inner a)); [done |].
      rewrite Hn in Hn1 by done. done.
    + exists k, ver. split; [done |]. left. destruct (Hr _ _ Hpos1) as [? Hn1]. split; [done | congruence].
  - exists a. split_and!; [done | done | done | by left].
  - exists a1. split_and!; [done | done | done |]. right. exists k, ver. split; [done |]. right. by exists f, ver.
Qed.

Lemma poll_task_ok a : Inv a → ∃ a', poll_task fun_ a = Ok (tt, a') ∧
  Inv a' ∧ keeps_wakers a a' ∧ poll_result a a'.
Proof.
  intros HI. apply task_loop_ok; [done |]. unfold phase.
  destruct (position (run a)), (notified (inner a)); lia.
Qed.

Definition polls (n : nat) : stateM (AD (V := V) (T := T) (TM := TM)) unit := steps fun_ (replicate n PollTask).

(** Left alone, the task settles. *)
Definition settles a : Prop :=
  ∃ n a', polls n a = Ok (tt, a') ∧ Inv a' ∧ keeps_wakers a a' ∧ settled a'.

Lemma settles_poll a a' : poll_task fun_ a = Ok (tt, a') → keeps_wakers a a' → settles a' → settles a.
Proof.
  intros E Hk (n & a2 & E2 & HI & Hk2 & Hs). exists (S n), a2. split_and!; [| done | by etrans | done].
  change (polls (S n) a) with ((_ ← poll_task fun_; polls n) a). by step_with E.
Qed.

Lemma settles_now a : Inv a → settled a → settles a.
Proof. intros. exists 0, a. by split_and!. Qed.

Lemma settles_running f : ∀ ver a, Inv a → position (run a) = TRunning f ver → notified (inner a) = false → settles a.
Proof.
  induction (later_wf f) as [f _ IH]. intros ver a HI Hpos Hn.
  destruct (poll_task_ok a HI) as (a' & E & HI' & Hk & [Hs | (k & ver' & Hpos' & [[? _] | (f0 & ver0 & Hpos0 & Hl & Hn')])]);
    (eapply settles_poll; [exact E | exact Hk |]).
  - by apply settles_now.
  - congruence.
  - simplify_eq. eapply (IH k); [congruence | done | done | congruence].
Qed.

Lemma settles_notified f : ∀ ver a, Inv a → position (run a) = TRunning f ver → settles a.
Proof.
  induction (later_wf f) as [f _ IH]. intros ver a HI Hpos.
  destruct (poll_task_ok a HI) as (a' & E & HI' & Hk & [Hs | (k & ver' & Hpos' & [[_ ?] | (f0 & ver0 & Hpos0 & Hl & Hn')])]);
    (eapply settles_poll; [exact E | exact Hk |]).
  - by apply settles_now.
  - by eapply settles_running.
  - eapply (IH k); [congruence | done | done].
Qed.

Lemma task_settles a : Inv a → settles a.
Proof.
  intros HI. destruct (poll_task_ok a HI) as (a' & E & HI' & Hk & [Hs | (k & ver' & Hpos' & _)]);
    (eapply settles_poll; [exact E | exact Hk |]).
  - by apply settles_now.
  - by eapply settles_notified.
Qed.

(** ** Events *)

(** Events that neither pause the owner, nor write without a notification, nor
    take the value away *)
Definition notifying_event (e : event (V := V) (T := T)) : bool :=
  match e with
  | WriteUntracked _ | Write None | SetPaused _ => false
  | _ => true
  end.

Definition event_result (c : stateM (AD (V := V) (T := T) (TM := TM)) unit) a : Prop :=
  ∃ a', c a = Ok (tt, a') ∧ Inv a' ∧ keeps_wakers a a'.

(** Reads and polls of futures leave the value and the task alone. *)
Definition same_value a a' : Prop :=
  sigs (env a') = sigs (env a) ∧ loading (cell a') = loading (cell a) ∧ value (cell a') = value (cell a) ∧
  run a' = run a ∧ version (inner a') = version (inner a) ∧ state (inner a') = state (inner a) ∧
  notified (inner a') = notified (inner a).

Definition quiet_result (c : stateM (AD (V := V) (T := T) (TM := TM)) unit) a : Prop :=
  ∃ a', c a = Ok (tt, a') ∧ Inv a' ∧ keeps_wakers a a' ∧ same_value a a'.

Lemma quiet_event c a : quiet_result c a → event_result c a.
Proof. intros (a' & E & HI & Hk & _). by exists a'. Qed.

(** Changes of the fields that the invariant does not mention *)
Lemma Inv_frame a a' : Inv a →
  pending_suspenses (inner a') = pending_suspenses (inner a) →
  contexts (env a') = contexts (env a) → handles (env a') = handles (env a) →
  next_handle (env a') = next_handle (env a) → cell a' = cell a → run a' = run a →
  version (inner a') = version (inner a) →
  (notified (inner a) = true → notified (inner a') = true) →
  (state (inner a) ≠ Notifying → state (inner a') ≠ Notifying) → Inv a'.
Proof.
  intros [Hs Hi Hl Hr Hf Hst Hp] E1 E2 E3 E4 E5 E6 E7 Hn Hst'.
  constructor; rewrite ?E1, ?E2, ?E3, ?E4, ?E5, ?E6, ?E7; auto.
Qed.

Lemma frame_event a a' c : c a = Ok (tt, a') → Inv a' → cell a' = cell a → woken (env a') = woken (env a) →
  event_result c a.
Proof. intros E HI Ec Ew. exists a'. split_and!; [done | done |]. intros w. by rewrite Ec, Ew. Qed.

Lemma track_ok o a : Inv a → ∃ ss, track o a = Ok (tt, set_subscribers ss a) ∧ Inv (set_subscribers ss a).
Proof.
  intros HI. assert (∃ ss, track o a = Ok (tt, set_subscribers ss a)) as (ss & E).
  { destruct o as [o |]; unfold track, add_subscriber; cbv [modify mret stateM_ret].
    - case_decide; [exists (subscribers (inner a)) | by eexists]. by destruct a as [[] ? ? ?].
    - exists (subscribers (inner a)). by destruct a as [[] ? ? ?]. }
  exists ss. split; [done |]. by eapply Inv_frame.
Qed.

Lemma push_suspense_ok c a : Inv a → ∃ ss, push_suspense c a = Ok (tt, set_suspenses ss a) ∧ Inv (set_suspenses ss a).
Proof.
  intros HI. exists (match c with Some c => suspenses (inner a) ++ [c] | None => suspenses (inner a) end).
  split; [destruct c; [done | by destruct a as [[] ? ? ?]] |]. by eapply Inv_frame.
Qed.

Lemma push_waker_inv w a : Inv a → loading (cell a) = true → Inv (set_wakers (wakers (cell a) ++ [w]) a).
Proof.
  intros [Hs Hi Hl Hr Hf Hst Hp] Hload. constructor; simpl; try done. rewrite Hload. done.
Qed.

Lemma push_waker_keeps w a : keeps_wakers a (set_wakers (wakers (cell a) ++ [w]) a).
Proof. intros x. simpl. set_solver. Qed.

Lemma poll_ready_ok n a : Inv a → quiet_result (poll_ready n) a.
Proof.
  intros HI. unfold quiet_result, poll_ready. cbv [mbind stateM_bind gets].
  destruct (loading (cell a)) eqn:El.
  - eexists. split; [reflexivity | split; [by apply push_waker_inv | split; [apply push_waker_keeps | done]]].
  - destruct (inv_idle _ HI El) as (_ & Hp & _).
    assert (handles (env a) !! n = None) as Hn.
    { destruct (handles (env a) !! n) eqn:E; [| done].
      assert (n ∈ pending_suspenses (inner a)) as Hin by (eapply so_pending; [apply (inv_susp _ HI) | by eexists]).
      rewrite Hp in Hin. by apply not_elem_of_nil in Hin. }
    exists a. unfold release. cbv [mbind stateM_bind gets]. by rewrite Hn.
Qed.

Lemma poll_await_ok w o c a : Inv a → quiet_result (_ ← poll_await w o c; mret tt) a.
Proof.
  intros HI. destruct (track_ok o a HI) as (ss & E1 & H1).
  destruct (push_suspense_ok c _ H1) as (sus & E2 & H2).
  unfold quiet_result, poll_await. cbv [mbind stateM_bind]. rewrite E1, E2. cbv [gets].
  destruct (loading (cell (set_suspenses sus (set_subscribers ss a)))) eqn:El.
  - eexists. split; [reflexivity | split; [by apply push_waker_inv | split; [intros x; simpl; set_solver | done]]].
  - destruct (inv_idle _ H2 El) as (_ & _ & [v Hv]). rewrite Hv.
    eexists. split; [reflexivity | split; [done | split; [by intros x | done]]].
Qed.

(** Reading registers a task of the context, or none if the value is loaded. *)
Lemma derived_read_ok o c a : Inv a → quiet_result (_ ← track o; _ ← try_read_untracked o c; mret tt) a.
Proof.
  intros HI. destruct (track_ok o a HI) as (ss & E1 & H1). unfold quiet_result, try_read_untracked.
  assert (∀ b, Inv b → keeps_wakers a b → same_value a b → ∃ a', ((_ ← push_suspense c; gets (λ a, value (cell a))) ≫= λ _, mret tt) b = Ok (tt, a')
    ∧ Inv a' ∧ keeps_wakers a a' ∧ same_value a a') as Hrest.
  { intros b Hb Hk Hsv. destruct (push_suspense_ok c b Hb) as (sus & E & H'). cbv [mbind stateM_bind]. rewrite E.
    cbv [gets]. eexists. split; [reflexivity | split; [done | split; [| exact Hsv]]]. etrans; [exact Hk | by intros x]. }
  step_with E1. destruct c as [c |].
  2: { apply (Hrest (set_subscribers ss a) H1); [by intros x | done]. }
  destruct (new_handle_eq c _ (inv_susp _ H1)) as (k & cs & E2 & Hok).
  destruct (task_id_eq c (set_subscribers ss a)) as (k' & cs' & E2' & Ht). rewrite E2 in E2'. injection E2' as <- <-.
  assert (Htr : ∃ ss', track o (set_contexts cs (set_subscribers ss a)) = Ok (tt, set_subscribers ss' (set_contexts cs (set_subscribers ss a)))).
  { destruct o as [o |]; unfold track, add_subscriber; cbv [modify mret stateM_ret]; simpl.
    - case_decide; [eexists ss | eexists]; reflexivity.
    - by exists ss. }
  destruct Htr as (ss' & E3). cbv [mbind stateM_bind] in *. rewrite E2, E3. cbv [gets]. simpl.
  destruct (loading (cell a)) eqn:El.
  - cbv [push_waker push_handle shared_handle modify mbind stateM_bind gets mret stateM_ret].
    apply Hrest; [| intros x; simpl; set_solver | done].
    destruct H1 as [Hs Hi Hl Hr Hf Hst Hp]. simpl in *. constructor; simpl; try done. by rewrite El.
  - match goal with |- context [drop_handle (c, k) ?b] => destruct (drop_handle_eq c k b) as (cs2 & sw & -> & Ht2) end.
    apply Hrest; [| by intros x | done].
    destruct H1 as [Hs Hi Hl Hr Hf Hst Hp]. simpl in *. constructor; simpl; try done.
    destruct Hs as [Hs1 Hs2 Hs3]. split; [| done | done].
    intros d j Hj. apply Ht2 in Hj as [Hj Hne]. simpl in Hj. apply Ht in Hj as [Hj | ?]; [by apply Hs1 | done].
Qed.

Lemma set_empty_wakers_inv c ws a : Inv a →
  Inv (set_contexts (<[c := mkSuspense (tasks (contexts (env a) c)) ws]> (contexts (env a))) a).
Proof.
  intros [[Ht Hp Hn] Hi Hl Hr Hf Hst Hpa]. constructor; simpl; try done. split; [| done | done].
  intros d k. destruct (decide (d = c)) as [-> |].
  - rewrite fn_lookup_insert. apply Ht.
  - rewrite fn_lookup_insert_ne by done. apply Ht.
Qed.

Lemma poll_empty_ok c w a : Inv a → quiet_result (_ ← poll_empty c w; mret tt) a.
Proof.
  intros HI. unfold quiet_result, poll_empty. cbv [mbind stateM_bind gets].
  case_decide; [| case_decide]; cbv [set_context modify mret stateM_ret]; (eexists; split; [reflexivity |]);
    (split; [| split; [by intros x | done]]); try done; by apply set_empty_wakers_inv.
Qed.

Lemma write_ok v a : Inv a → event_result (write (Some v)) a.
Proof.
  intros HI. unfold event_result, write. cbv [mbind stateM_bind modify].
  assert (a_susp (set_version (S (version (inner a))) a)) as Hs by apply HI.
  destruct (release_pending_eq _ Hs) as (cs & sw & -> & Ht). rewrite notify_subs_eq.
  eexists. split_and!; [reflexivity | | intros x; simpl; set_solver].
  destruct HI as [_ Hi Hl Hr Hf Hst Hp]. constructor; simpl; try done.
  - split; simpl; [intros c k [x Hx]; by rewrite Ht in Hx | by intros n [x Hx] | by intros n [x Hx]].
  - destruct (position (run a)); [done | done |]. destruct Hr. split; [done | lia].
Qed.

Lemma mark_dirty_eq a : state (inner a) ≠ Notifying →
  mark_dirty a = Ok (tt, set_notified true (set_state Dirty a)).
Proof. intros Hst. unfold mark_dirty, modify. by rewrite decide_False. Qed.

Lemma derived_mark_dirty_ok a : Inv a → event_result mark_dirty a.
Proof.
  intros HI. eapply frame_event; [apply mark_dirty_eq, HI | by eapply Inv_frame | done | done].
Qed.

Lemma derived_mark_check_ok a : Inv a → event_result mark_check a.
Proof.
  intros HI. assert (mark_check a = Ok (tt, set_notified true a)) as E.
  { unfold mark_check, modify. by rewrite decide_False by apply HI. }
  eapply frame_event; [exact E | by eapply Inv_frame | done | done].
Qed.

(** Events at sources: the source changes, then the derived value may be marked. *)
Lemma event_after a sg c : Inv a → (Inv (set_sigs sg a) → event_result c (set_sigs sg a)) →
  event_result (_ ← modify (set_sigs sg); c) a.
Proof.
  intros HI Hc. destruct Hc as (a' & E & HI' & Hk); [by eapply Inv_frame |].
  exists a'. split_and!; [exact E | done | exact Hk].
Qed.

Lemma notifying_event_ok e a : Inv a → notifying_event e = true → event_result (step fun_ e) a.
Proof.
  intros HI He.
  assert (event_result (mret tt) a) as Hret by (exists a; by split_and!).
  destruct e as [| n | w o c | o c | c w | [v |] | | s v keep | s v | s |]; try done; simpl.
  - destruct (poll_task_ok a HI) as (a' & E & HI' & Hk & _). by exists a'.
  - by apply quiet_event, poll_ready_ok.
  - by apply quiet_event, poll_await_ok.
  - by apply quiet_event, derived_read_ok.
  - by apply quiet_event, poll_empty_ok.
  - by apply write_ok.
  - apply (event_after a (<[s := mkSource v None (src_subscribed (sigs (env a) s) && keep)]> (sigs (env a)))
      (if src_subscribed (sigs (env a) s) then mark_dirty else mret tt)); [done |].
    intros HI'. destruct (src_subscribed _); [by apply derived_mark_dirty_ok | eexists; by split_and!].
  - apply (event_after a (<[s := mkSource (src_value (sigs (env a) s)) (Some v) (src_subscribed (sigs (env a) s))]> (sigs (env a)))
      (if src_subscribed (sigs (env a) s) then mark_check else mret tt)); [done |].
    intros HI'. destruct (src_subscribed _); [by apply derived_mark_check_ok | eexists; by split_and!].
  - destruct (source_update_eq s a) as (b & sg & E).
    unfold update_memo, event_result. cbv [mbind stateM_bind gets]. rewrite E.
    assert (Inv (set_sigs sg a)) as HI' by by eapply Inv_frame.
    destruct (b && _); [exact (derived_mark_dirty_ok _ HI') | exists (set_sigs sg a); split_and!; [done | done | by intros x]].
Qed.

Lemma notifying_events_ok es : ∀ a, Inv a → forallb notifying_event es = true → event_result (steps fun_ es) a.
Proof.
  induction es as [| e es IH]; intros a HI Hes; [exists a; by split_and! |].
  apply andb_true_iff in Hes as [He Hes].
  destruct (notifying_event_ok e a HI He) as (a1 & E1 & HI1 & Hk1).
  destruct (IH a1 HI1 Hes) as (a2 & E2 & HI2 & Hk2).
  exists a2. split_and!; [| done | by etrans]. unfold steps in *. simpl. by step_with E1.
Qed.

(** ** The beginning *)

(** An environment in which no Suspense waits for anything *)
Definition fresh_env a : Prop :=
  (∀ c, sm_elems (tasks (contexts (env a) c)) = ∅) ∧ handles (env a) = ∅.

Lemma new_ok initial a : fresh_env a → paused (run a) = false →
  ∃ a', new_with_initial fun_ initial a = Ok (tt, a') ∧ Inv a'.
Proof.
  intros [Ht Hh] Hp. unfold new_with_initial. cbv [mbind stateM_bind modify].
  cbv [call_fun mbind stateM_bind gets modify mret stateM_ret]. simpl.
  match goal with |- context [poll_fut ?f ?b] => destruct (poll_fut_eq f b) as (r & ss & sg & ->) end.
  assert (∀ p, susp_ok p (contexts (env a)) (handles (env a)) (next_handle (env a))) as Hs.
  { intros p. split; [intros c k [x Hx]; by rewrite Ht in Hx | intros n [x Hx]; by rewrite Hh in Hx..]. }
  destruct r as [k | v]; eexists; (split; [reflexivity |]); constructor; simpl; try done; eauto.
Qed.

End Facts.
