(* ===== verification/AsyncProps.v ===== *)
(** * Theorems on asynchronous derived values

    Left alone, a derived value settles: it is loaded, every waiting task has
    been woken, no Suspense waits for it, and it holds what its function gives
    on the current sources ([Fresh]).  A value that was written is not
    overwritten by a future that was running already. *)

From stdpp Require Import base gmap list functions.
From S2P Require Import Prelude SlotMaps AsyncDerived AsyncFacts.

Section Props.
Context {V T TM : Type} `{EqDecision V} `{!SlotMap unit TM} `{!SlotMapLaws unit TM}.
Context (fun_ : nat → fut (V := V) (T := T)).
Implicit Types (a : AD (V := V) (T := T) (TM := TM)) (f g : fut (V := V) (T := T)) (sg : nat → source (V := V)).

(** ** What a future gives *)

(** The result of a future that reads all sources as they are in [sg] *)
Fixpoint eval sg f : T :=
  match f with
  | Done v => v
  | Pending k => eval sg k
  | ReadSource s k => eval sg (k (src_value (sg s)))
  end.

(** [f] is left of [g] after reads of sources in [sg] that were tracked. *)
Inductive after sg : fut (V := V) (T := T) → fut (V := V) (T := T) → Prop :=
| after_refl f : after sg f f
| after_pending k f : after sg k f → after sg (Pending k) f
| after_read s k f : src_subscribed (sg s) = true → after sg (k (src_value (sg s))) f →
    after sg (ReadSource s k) f.

Lemma after_trans sg f g h : after sg f g → after sg g h → after sg f h.
Proof. induction 1; [done | constructor; auto..]. Qed.

Lemma after_eval sg f v : after sg f (Done v) → eval sg f = v.
Proof. intros H. remember (Done v) as d eqn:E. induction H; subst; simpl; auto. Qed.

Lemma after_mono sg sg' f g : after sg f g →
  (∀ s, src_subscribed (sg s) = true → src_subscribed (sg' s) = true ∧ src_value (sg' s) = src_value (sg s)) →
  after sg' f g.
Proof.
  intros H Hs. induction H as [| k f _ IH | s k f Hsub _ IH]; [constructor.. |].
  - by apply IH.
  - destruct (Hs s Hsub) as [Hsub' Hv]. constructor; [done |]. rewrite Hv. by apply IH.
Qed.

(** All sources are signals. *)
Definition signals sg : Prop := ∀ s, src_next (sg s) = None.

(** [sg'] has more subscriptions than [sg] and the same values. *)
Definition tracks sg sg' : Prop := ∀ s,
  src_value (sg' s) = src_value (sg s) ∧ src_next (sg' s) = src_next (sg s) ∧
  (src_subscribed (sg s) = true → src_subscribed (sg' s) = true).

#[global] Instance tracks_preorder : PreOrder tracks.
Proof.
  split; [by intros sg s |]. intros s1 s2 s3 H1 H2 s.
  destruct (H1 s) as (? & ? & ?), (H2 s) as (? & ? & ?). split_and!; [congruence | congruence | auto].
Qed.

Lemma tracks_after sg sg' f g : tracks sg sg' → after sg f g → after sg' f g.
Proof. intros Ht Ha. eapply after_mono; [exact Ha |]. intros s Hs. destruct (Ht s) as (? & ? & ?). auto. Qed.

Lemma tracks_signals sg sg' : tracks sg sg' → signals sg → signals sg'.
Proof. intros Ht Hs s. destruct (Ht s) as (_ & -> & _). apply Hs. Qed.

Lemma source_update_signal s a : signals (sigs (env a)) → source_update s a = Ok (false, a).
Proof. intros Hs. unfold source_update. cbv [mbind stateM_bind gets]. by rewrite Hs. Qed.

Lemma any_update_signals ss a : signals (sigs (env a)) → any_of source_update ss a = Ok (false, a).
Proof. intros Hs. induction ss as [| s ss IH]; [done |]. simpl. by step_with (source_update_signal s a Hs). Qed.

Lemma read_source_signal s a : signals (sigs (env a)) → ∃ ss sg,
  read_source s a = Ok (src_value (sigs (env a) s), set_sources ss (set_sigs sg a)) ∧
  tracks (sigs (env a)) sg ∧ src_subscribed (sg s) = true.
Proof.
  intros Hs. set (sg := <[s := mkSource (src_value (sigs (env a) s)) (src_next (sigs (env a) s)) true]> (sigs (env a))).
  assert (tracks (sigs (env a)) sg) as Ht.
  { intros s'. unfold sg. destruct (decide (s' = s)) as [-> |]; [by rewrite fn_lookup_insert | by rewrite fn_lookup_insert_ne]. }
  assert (∃ ss, read_source s a = Ok (src_value (sg s), set_sources ss (set_sigs sg a))) as (ss & E).
  { unfold read_source. cbv [mbind stateM_bind modify].
    match goal with |- context [source_update s ?b] => rewrite (source_update_signal s b) by (by apply (tracks_signals _ _ Ht)) end.
    case_decide; [exists (sources (inner a)) | by eexists]. by destruct a as [[] ? ? []]. }
  exists ss, sg. split_and!; [| done | by unfold sg; rewrite fn_lookup_insert].
  rewrite E. by destruct (Ht s) as (-> & _).
Qed.

Lemma poll_fut_after f : ∀ a, signals (sigs (env a)) → ∃ r ss sg,
  poll_fut f a = Ok (r, set_sources ss (set_sigs sg a)) ∧ tracks (sigs (env a)) sg ∧
  after sg f (match r with inl k => k | inr v => Done v end).
Proof.
  induction f as [v | k IH | s k IH]; intros a Hs; simpl.
  - eexists (inr v), (sources (inner a)), (sigs (env a)). split_and!; [by destruct a as [[] ? ? []] | done | constructor].
  - eexists (inl k), (sources (inner a)), (sigs (env a)).
    split_and!; [by destruct a as [[] ? ? []] | done | constructor; constructor].
  - destruct (read_source_signal s a Hs) as (ss & sg & E & Ht & Hsub). step_with E.
    set (v := src_value (sigs (env a) s)).
    destruct (IH v (set_sources ss (set_sigs sg a))) as (r & ss' & sg' & -> & Ht' & Ha);
      [by eapply tracks_signals |].
    exists r, ss', sg'. split_and!; [done | by etrans |]. constructor.
    + destruct (Ht' s) as (_ & _ & Hsub'). by apply Hsub'.
    + destruct (Ht' s) as (-> & _). simpl. destruct (Ht s) as (-> & _). exact Ha.
Qed.

(** ** Freshness *)

(** What the task has got so far *)
Definition current a f : Prop :=
  match position (run a) with
  | TRunning f' _ => f = f'
  | _ => initial_fut (run a) = Some f ∨ first_run (run a) = false ∧ ∃ v, value (cell a) = Some v ∧ f = Done v
  end.

(** The last call of the function *)
Definition last_fut a : fut (V := V) (T := T) := fun_ (calls (run a) - 1).

Record Fresh a : Prop := mkFresh {
  fr_signals : signals (sigs (env a));
  fr_version : ∀ f ver, position (run a) = TRunning f ver → ver = version (inner a);
  fr_initial : is_Some (initial_fut (run a)) → first_run (run a) = true;
  fr_waiting : position (run a) = TWaiting → is_Some (initial_fut (run a)) → state (inner a) = Clean;
  fr_calls : 0 < calls (run a);
  fr_dirty : state (inner a) = Dirty → notified (inner a) = true;
  fr_value : state (inner a) = Dirty ∨ ∃ f, after (sigs (env a)) (last_fut a) f ∧ current a f;
}.

Lemma update_signals a : signals (sigs (env a)) → state (inner a) ≠ Notifying →
  update_if_necessary a = Ok (bool_decide (state (inner a) = Dirty), set_state Clean a).
Proof.
  intros Hs Hst. unfold update_if_necessary. cbv [mbind stateM_bind gets]. case_decide as E.
  - rewrite bool_decide_true by done. done.
  - rewrite decide_False, bool_decide_false by done. rewrite any_update_signals by done.
    assert (state (inner a) = Clean) by (by destruct (state (inner a))). destruct a as [[] ? ? ?]. simpl in *. by subst.
Qed.

Lemma not_dirty a : Inv a → state (inner a) ≠ Dirty → state (inner a) = Clean.
Proof. intros HI Hd. pose proof (inv_state _ HI). by destruct (state (inner a)). Qed.

Lemma task_start_fresh a go a' : position (run a) = TStart → Inv a → Fresh a →
  task_step fun_ a = Ok (go, a') → Fresh a'.
Proof.
  intros Hpos HI [Hsig Hver Hini Hwait Hcalls Hdirty Hval]. unfold task_step. cbv [mbind stateM_bind gets]. rewrite Hpos.
  unfold current in Hval. rewrite Hpos in Hval.
  case_bool_decide as Ed; cbv [mbind stateM_bind modify mret stateM_ret]; intros [= <- <-]; constructor; simpl; try done.
  - by left.
  - intros _ _. by apply not_dirty.
Qed.

Lemma task_waiting_fresh a go a' : position (run a) = TWaiting → Inv a → Fresh a →
  task_step fun_ a = Ok (go, a') → Fresh a'.
Proof.
  intros Hpos HI HF. unfold task_step. cbv [mbind stateM_bind gets]. rewrite Hpos.
  destruct (notified (inner a)) eqn:Hn; [| by intros [= <- <-]].
  cbv [modify]. simpl. rewrite (inv_paused _ HI). pose proof (inv_state _ HI) as Hst.
  destruct HF as [Hsig Hver Hini Hwait Hcalls Hdirty Hval].
  rewrite (update_signals (set_notified false a)) by done.
  set (a1 := set_state Clean (set_notified false a)).
  change (first_run (run a1)) with (first_run (run a)). fold a1.
  change (state (inner (set_notified false a))) with (state (inner a)).
  destruct (bool_decide (state (inner a) = Dirty) || first_run (run a)) eqn:Eu.
  - destruct (start_run_eq fun_ a1) as (p & cs & hs & nx & E & _); [apply HI |].
    rewrite E. intros [= <- <-]. constructor; simpl; try done.
    + by intros f ver [= _ <-].
    + change (0 < run_calls a). unfold run_calls. destruct (initial_fut (run a)); lia.
    + right. exists (run_fut fun_ a1). split; [| done].
      change (after (sigs (env a)) (fun_ (run_calls a - 1)) (run_fut fun_ a)). unfold run_fut, run_calls.
      destruct (initial_fut (run a)) as [f |] eqn:Ei; [| rewrite Nat.sub_succ, Nat.sub_0_r; constructor].
      rewrite (Hwait Hpos) in Hval by eauto. destruct Hval as [[=] | (f' & Hf & Hc)].
      unfold current in Hc. rewrite Hpos, Ei in Hc. destruct Hc as [[= ->] | [Hfr _]]; [done |].
      by rewrite Hini in Hfr by eauto.
  - apply orb_false_iff in Eu as [Ed%bool_decide_eq_false Hfr]. intros [= <- <-].
    apply not_dirty in Ed; [| done]. constructor; simpl; try done.
    right. destruct Hval as [Hd | Hval]; [congruence | done].
Qed.

Lemma task_running_fresh a go a' f ver : position (run a) = TRunning f ver → Inv a → Fresh a →
  task_step fun_ a = Ok (go, a') → Fresh a'.
Proof.
  intros Hpos HI [Hsig Hver Hini Hwait Hcalls Hdirty Hval].
  destruct (poll_fut_after f a Hsig) as (r & ss & sg & E & Ht & Ha).
  assert (Hrun : initial_fut (run a) = None).
  { pose proof (inv_running _ HI) as Hr. rewrite Hpos in Hr. destruct Hr as [Hr _].
    destruct (initial_fut (run a)); [| done]. by rewrite Hini in Hr by eauto. }
  unfold task_step. cbv [mbind stateM_bind gets]. rewrite Hpos, E.
  pose proof (Inv_reads ss sg a HI) as HI'.
  assert (Hafter : ∀ f', state (inner a) ≠ Dirty → after sg f f' → after sg (last_fut a) f').
  { intros f' Hd Hf'. destruct Hval as [? | (g & Hg & Hc)]; [done |].
    unfold current in Hc. rewrite Hpos in Hc. subst g. eapply after_trans; [| exact Hf'].
    by eapply tracks_after. }
  destruct r as [k | v].
  - intros [= <- <-]. constructor; simpl; try done.
    + by eapply tracks_signals.
    + intros f' ver' [= _ <-]. by apply (Hver f).
    + destruct (decide (state (inner a) = Dirty)); [by left |]. right. exists k. by split; [apply Hafter |].
  - destruct (finish_run_ok fun_ v ver f _ HI' Hpos) as (cs & sw & wk & mk & E' & _). rewrite E'.
    intros [= <- <-]. constructor; simpl; try done.
    + by eapply tracks_signals.
    + rewrite Hrun. by intros _ [? [=]].
    + destruct (decide (state (inner a) = Dirty)); [by left |]. right. exists (Done v).
      split; [by apply Hafter |]. right. pose proof (inv_running _ HI) as Hr. rewrite Hpos in Hr.
      split; [apply Hr |]. exists v. split; [| done]. simpl. by rewrite decide_True by (symmetry; by apply (Hver f)).
Qed.

Lemma task_step_fresh a go a' : Inv a → Fresh a → task_step fun_ a = Ok (go, a') → Fresh a'.
Proof.
  intros HI HF E. destruct (position (run a)) eqn:Hpos.
  - by eapply task_start_fresh.
  - by eapply task_waiting_fresh.
  - by eapply task_running_fresh.
Qed.

Lemma task_loop_fresh fuel : ∀ a a', Inv a → Fresh a → task_loop fun_ fuel a = Ok (tt, a') → Fresh a'.
Proof.
  induction fuel as [| fuel IH]; intros a a' HI HF; [done |]. simpl.
  destruct (task_step_ok fun_ a HI) as (go & a1 & E & R). step_with E.
  pose proof (task_step_fresh a go a1 HI HF E) as HF1.
  destruct R as [a1 HI1 | | f k ver a1]; [by apply IH | by intros [= <-] | by intros [= <-]].
Qed.

(** Between two events the first run has not begun, or it has. *)
Definition between a : Prop := first_run (run a) = true → position (run a) = TStart.

Lemma poll_between a a' : Inv a' → poll_result a a' → between a'.
Proof.
  intros HI [[_ Hn] | (k & ver & Hpos & _)] Hf.
  - rewrite (inv_first _ HI Hf) in Hn. done.
  - pose proof (inv_running _ HI) as Hr. rewrite Hpos in Hr. destruct Hr. congruence.
Qed.

Lemma set_signal_fresh s v keep a a' : Inv a → between a → Fresh a → set_signal s v keep a = Ok (tt, a') → Fresh a'.
Proof.
  intros HI Hb [Hsig Hver Hini Hwait Hcalls Hdirty Hval]. unfold set_signal, set_source. cbv [mbind stateM_bind gets modify].
  set (sg := <[s := mkSource v None (src_subscribed (sigs (env a) s) && keep)]> (sigs (env a))).
  assert (signals sg) as Hsg.
  { intros s'. unfold sg. destruct (decide (s' = s)) as [-> |]; [by rewrite fn_lookup_insert |].
    rewrite fn_lookup_insert_ne by done. apply Hsig. }
  destruct (src_subscribed (sigs (env a) s)) eqn:Esub.
  - rewrite mark_dirty_eq by apply HI. intros [= <-]. constructor; simpl; try done; [| by left].
    intros Hpos Hi. specialize (Hb (Hini Hi)). congruence.
  - intros [= <-]. constructor; simpl; try done.
    destruct Hval as [? | (f & Hf & Hc)]; [by left | right]. exists f. split; [| done].
    eapply after_mono; [exact Hf |]. intros s' Hs'.
    assert (s' ≠ s) as Hne by congruence. unfold sg. by rewrite fn_lookup_insert_ne.
Qed.

(** ** Events that only read, and writes of signals *)

Definition signal_event (e : event (V := V) (T := T)) : bool :=
  match e with
  | PollTask | PollReady _ | PollAwait _ _ _ | Read _ _ | PollEmpty _ _ | SetSignal _ _ _ => true
  | _ => false
  end.

Lemma same_value_fresh a a' : same_value a a' → Fresh a → Fresh a'.
Proof.
  intros (E1 & _ & E2 & E3 & E4 & E5 & E6) [Hsig Hver Hini Hwait Hcalls Hdirty Hval].
  unfold last_fut, current in *. constructor; unfold last_fut, current; rewrite ?E1, ?E2, ?E3, ?E4, ?E5, ?E6; auto.
Qed.

(** [Inv], [Fresh] and [between] hold after every such event. *)
Definition good a : Prop := Inv a ∧ Fresh a ∧ between a.

Lemma quiet_good c a : good a → quiet_result c a → ∃ a', c a = Ok (tt, a') ∧ good a'.
Proof.
  intros (HI & HF & Hb) (a' & E & HI' & _ & Hs). exists a'. split; [done |]. split_and!; [done | by eapply same_value_fresh |].
  destruct Hs as (_ & _ & _ & Er & _). unfold between. by rewrite Er.
Qed.

Lemma poll_good a : good a → ∃ a', poll_task fun_ a = Ok (tt, a') ∧ good a'.
Proof.
  intros (HI & HF & _). destruct (poll_task_ok fun_ a HI) as (a' & E & HI' & _ & R).
  exists a'. split; [done |]. split_and!; [done | by apply (task_loop_fresh 4 a) | by eapply poll_between].
Qed.

Lemma signal_event_good e a : good a → signal_event e = true → ∃ a', step fun_ e a = Ok (tt, a') ∧ good a'.
Proof.
  intros Hg He. pose proof Hg as (HI & HF & Hb).
  destruct e as [| n | w o c | o c | c w | | | s v keep | | |]; try done; simpl.
  - by apply poll_good.
  - apply quiet_good; [done | by apply poll_ready_ok].
  - apply quiet_good; [done | by apply poll_await_ok].
  - apply quiet_good; [done | by apply derived_read_ok].
  - apply quiet_good; [done | by apply poll_empty_ok].
  - destruct (notifying_event_ok fun_ (SetSignal s v keep) a HI eq_refl) as (a' & E & HI' & _).
    exists a'. split; [exact E |]. split_and!; [done | eapply set_signal_fresh; [exact HI | exact Hb | exact HF | exact E] |].
    unfold between in *. simpl in E. unfold set_signal in E. cbv [mbind stateM_bind gets set_source modify] in E.
    destruct (src_subscribed _) in E; [rewrite mark_dirty_eq in E by apply HI |]; by injection E as <-.
Qed.

Lemma signal_events_good es : ∀ a, good a → forallb signal_event es = true →
  ∃ a', steps fun_ es a = Ok (tt, a') ∧ good a'.
Proof.
  induction es as [| e es IH]; intros a Hg Hes; [by exists a |].
  apply andb_true_iff in Hes as [He Hes].
  destruct (signal_event_good e a Hg He) as (a1 & E1 & Hg1). destruct (IH a1 Hg1 Hes) as (a2 & E2 & Hg2).
  exists a2. split; [| done]. unfold steps in *. simpl. by step_with E1.
Qed.

Lemma new_good initial a : fresh_env a → paused (run a) = false → signals (sigs (env a)) →
  ∃ a', new_with_initial fun_ initial a = Ok (tt, a') ∧ good a'.
Proof.
  intros Henv Hp Hs. destruct (new_ok fun_ initial a Henv Hp) as (a' & E & HI). exists a'.
  split; [done |]. split; [done |]. revert E. unfold new_with_initial, call_fun.
  cbv [mbind stateM_bind modify gets mret stateM_ret]. simpl.
  match goal with |- context [poll_fut ?f ?b] => destruct (poll_fut_after f b Hs) as (r & ss & sg & -> & Ht & Ha) end.
  destruct r as [k | v]; intros [= <-]; (split; [| done]); constructor; simpl; try done;
    try (by eapply tracks_signals); try (by intros [? [=]]); try lia; right.
  - exists k. split; [exact Ha |]. by left.
  - exists (Done v). split; [exact Ha |]. right. split; [done |]. by exists v.
Qed.

(** Polls leave the values of signals alone. *)
Lemma settled_fresh a : settled a → Inv a → Fresh a →
  loading (cell a) = false ∧ value (cell a) = Some (eval (sigs (env a)) (last_fut a)).
Proof.
  intros [Hpos Hn] HI [Hsig Hver Hini Hwait Hcalls Hdirty Hval].
  assert (Hfr : first_run (run a) = false).
  { destruct (first_run (run a)) eqn:E; [| done]. pose proof (inv_first _ HI E). congruence. }
  split.
  - destruct (loading (cell a)) eqn:E; [| done]. pose proof (inv_loading _ HI E) as Hl. rewrite Hpos in Hl. congruence.
  - destruct Hval as [Hd%Hdirty | (f & Hf & Hc)]; [congruence |].
    unfold current in Hc. rewrite Hpos in Hc. destruct Hc as [Hi | (_ & v & Hv & ->)].
    + rewrite Hini in Hfr by eauto. done.
    + by rewrite Hv, (after_eval _ _ _ Hf).
Qed.

Lemma settles_good a : good a → ∃ n a', polls fun_ n a = Ok (tt, a') ∧ good a' ∧ settled a' ∧ keeps_wakers a a'.
Proof.
  intros Hg. destruct (task_settles fun_ a) as (n & a' & E & _ & Hk & Hs); [apply Hg |].
  exists n, a'. split; [done |]. destruct (signal_events_good (replicate n PollTask) a Hg) as (a2 & E2 & Hg2).
  { apply forallb_forall. intros e He. apply list_elem_of_In, elem_of_replicate in He as [-> _]. done. }
  unfold polls in E. rewrite E in E2. injection E2 as <-. done.
Qed.

(** C3: an asynchronous derived value settles on what its function gives now:
    whatever signals were written and whoever read or awaited the value while
    futures were running, after enough polls of the task it is loaded, and its
    value is that of the last future with all signals as they are. *)
Theorem derived_settles_fresh (initial : option T) a0 (es : list (event (V := V) (T := T)))
    (Henv : fresh_env a0) (Hpaused : paused (run a0) = false) (Hsig : signals (sigs (env a0)))
    (Hes : forallb signal_event es = true) :
  ∃ a, (_ ← new_with_initial fun_ initial; steps fun_ es) a0 = Ok (tt, a) ∧
    ∃ n a', polls fun_ n a = Ok (tt, a') ∧ settled a' ∧ loading (cell a') = false ∧
      value (cell a') = Some (eval (sigs (env a')) (fun_ (calls (run a') - 1))).
Proof.
  destruct (new_good initial a0 Henv Hpaused Hsig) as (a1 & E1 & Hg1).
  destruct (signal_events_good es a1 Hg1 Hes) as (a & E & Hg).
  exists a. split; [by step_with E1 |].
  destruct (settles_good a Hg) as (n & a' & E' & (HI & HF & _) & Hs & _).
  exists n, a'. split; [done |]. split; [done |]. by apply settled_fresh.
Qed.

(** C19: whoever waits is told: with writes of the value, of signals and of
    memos in any order, after enough polls of the task the value is loaded,
    every waker that waited has been woken, none waits any more, and no Suspense
    that has read the value has a task left. *)
Theorem waiting_is_woken (initial : option T) a0 (es : list (event (V := V) (T := T)))
    (Henv : fresh_env a0) (Hpaused : paused (run a0) = false) (Hes : forallb notifying_event es = true) :
  ∃ a, (_ ← new_with_initial fun_ initial; steps fun_ es) a0 = Ok (tt, a) ∧
    ∃ n a', polls fun_ n a = Ok (tt, a') ∧ settled a' ∧ loading (cell a') = false ∧ is_Some (value (cell a')) ∧
      wakers (cell a') = [] ∧ (∀ w, w ∈ wakers (cell a) → w ∈ woken (env a')) ∧
      ∀ c, sm_elems (tasks (contexts (env a') c)) = ∅.
Proof.
  destruct (new_ok fun_ initial a0 Henv Hpaused) as (a1 & E1 & HI1).
  destruct (notifying_events_ok fun_ es a1 HI1 Hes) as (a & E & HI & _).
  exists a. split; [by step_with E1 |].
  destruct (task_settles fun_ a HI) as (n & a' & E' & HI' & Hk & Hpos & Hn).
  assert (loading (cell a') = false) as Hload.
  { destruct (loading (cell a')) eqn:El; [| done]. pose proof (inv_loading _ HI' El) as Hl. rewrite Hpos in Hl.
    pose proof (inv_first _ HI' Hl). congruence. }
  destruct (inv_idle _ HI' Hload) as (Hw & Hp & Hv).
  exists n, a'. split_and!; try done.
  - intros w Hin. destruct (Hk w) as [Hw' |]; [by left | | done]. rewrite Hw in Hw'. by apply not_elem_of_nil in Hw'.
  - intros c. apply map_empty. intros k. destruct (sm_elems (tasks (contexts (env a') c)) !! k) as [x |] eqn:Ex; [| done].
    destruct (so_tasks _ _ _ _ (inv_susp _ HI') c k) as (m & Hm); [by eexists |].
    assert (m ∈ pending_suspenses (inner a')) as Hin by (eapply so_pending; [apply (inv_susp _ HI') | by eexists]).
    rewrite Hp in Hin. by apply not_elem_of_nil in Hin.
Qed.

(** ** Writes *)

(** The value was written after the run that is under way, if there is one,
    and no other run will follow. *)
Definition written (v : T) a : Prop :=
  Inv a ∧ notified (inner a) = false ∧ value (cell a) = Some v ∧
  ∀ f ver, position (run a) = TRunning f ver → ver < version (inner a).

Lemma task_step_written v a go a' : written v a → task_step fun_ a = Ok (go, a') → Inv a' → written v a'.
Proof.
  intros (HI & Hn & Hv & Hver) E HI'. revert E. unfold task_step. cbv [mbind stateM_bind gets].
  destruct (position (run a)) as [| | f ver] eqn:Hpos.
  - case_bool_decide; cbv [mbind stateM_bind modify mret stateM_ret]; intros [= <- <-]; by split_and!.
  - rewrite Hn. intros [= <- <-]. split_and!; try done. by rewrite Hpos.
  - destruct (poll_fut_eq f a) as (r & ss & sg & ->). pose proof (Inv_reads ss sg a HI) as HI2.
    destruct r as [k | x].
    + intros [= <- <-]. split_and!; try done. intros f' ver' [= _ <-]. by eapply Hver.
    + destruct (finish_run_ok fun_ x ver f _ HI2 Hpos) as (cs & sw & wk & mk & -> & _).
      intros [= <- <-]. split_and!; try done. simpl. rewrite decide_False; [done |].
      specialize (Hver f ver eq_refl). lia.
Qed.

Lemma task_loop_written v fuel : ∀ a a', written v a → task_loop fun_ fuel a = Ok (tt, a') → written v a'.
Proof.
  induction fuel as [| fuel IH]; intros a a' Hw; [done |]. simpl.
  pose proof Hw as (HI & _). destruct (task_step_ok fun_ a HI) as (go & a1 & E & R). step_with E.
  assert (Inv a1) as HI1 by by destruct R.
  pose proof (task_step_written v a go a1 Hw E HI1) as Hw1.
  destruct go; [by apply IH | by intros [= <-]].
Qed.

(** Events that neither change a source nor write the value *)
Definition observing_event (e : event (V := V) (T := T)) : bool :=
  match e with PollTask | PollReady _ | PollAwait _ _ _ | Read _ _ | PollEmpty _ _ => true | _ => false end.

Lemma quiet_written v c a : written v a → quiet_result c a → ∃ a', c a = Ok (tt, a') ∧ written v a'.
Proof.
  intros (HI & Hn & Hv & Hver) (a' & E & HI' & _ & (_ & _ & Ev & Er & Evr & _ & En)).
  exists a'. split; [done |]. unfold written. rewrite Ev, En, Er, Evr. by split_and!.
Qed.

Lemma observing_written v e a : written v a → observing_event e = true → ∃ a', step fun_ e a = Ok (tt, a') ∧ written v a'.
Proof.
  intros Hw He. pose proof Hw as (HI & _).
  destruct e as [| n | w o c | o c | c w | | | s x keep | | |]; try done; simpl.
  - destruct (poll_task_ok fun_ a HI) as (a' & E & _). exists a'. split; [done |].
    apply (task_loop_written v 4 a); [exact Hw | exact E].
  - apply (quiet_written v); [done | by apply poll_ready_ok].
  - apply (quiet_written v); [done | by apply poll_await_ok].
  - apply (quiet_written v); [done | by apply derived_read_ok].
  - apply (quiet_written v); [done | by apply poll_empty_ok].
Qed.

Lemma observings_written v es : ∀ a, written v a → forallb observing_event es = true →
  ∃ a', steps fun_ es a = Ok (tt, a') ∧ written v a'.
Proof.
  induction es as [| e es IH]; intros a Hw Hes; [by exists a |].
  apply andb_true_iff in Hes as [He Hes].
  destruct (observing_written v e a Hw He) as (a1 & E1 & Hw1). destruct (IH a1 Hw1 Hes) as (a2 & E2 & Hw2).
  exists a2. split; [| done]. unfold steps in *. simpl. by step_with E1.
Qed.

(** C33: a value that is written while a future is running stays: as long as
    no source changes, neither the end of that future nor anybody who reads or
    awaits the value puts another one in its place, and nobody who awaits it has
    to wait for the future. *)
Theorem written_value_stays (initial : option T) (v : T) a0 a (es es' : list (event (V := V) (T := T)))
    (Henv : fresh_env a0) (Hpaused : paused (run a0) = false) (Hes : forallb notifying_event es = true)
    (Ha : (_ ← new_with_initial fun_ initial; steps fun_ es) a0 = Ok (tt, a))
    (Hn : notified (inner a) = false) (Hes' : forallb observing_event es' = true) :
  ∃ a', (_ ← write (Some v); steps fun_ es') a = Ok (tt, a') ∧ value (cell a') = Some v ∧ loading (cell a') = false.
Proof.
  destruct (new_ok fun_ initial a0 Henv Hpaused) as (a1 & E1 & HI1).
  destruct (notifying_events_ok fun_ es a1 HI1 Hes) as (a2 & E & HI & _).
  rewrite (bind_Ok _ _ _ _ _ E1), E in Ha. injection Ha as ->.
  destruct (write_ok fun_ v a HI) as (b & Eb & HIb & _).
  assert (written v b) as Hw.
  { split; [done |]. revert Eb. unfold write. cbv [mbind stateM_bind modify].
    destruct (release_pending_eq fun_ (set_version (S (version (inner a))) a)) as (cs & sw & -> & _); [apply HI |].
    rewrite notify_subs_eq. intros [= <-]. simpl. split_and!; [done | done |].
    intros f ver Hpos. pose proof (inv_running _ HI) as Hr. rewrite Hpos in Hr. lia. }
  destruct (observings_written v es' b Hw Hes') as (a' & E' & (HI' & Hn' & Hv' & Hver')).
  exists a'. step_with Eb. split_and!; [done | done |].
  destruct (loading (cell a')) eqn:El; [| done]. pose proof (inv_loading _ HI' El) as Hl.
  destruct (position (run a')) as [| | f ver] eqn:Hpos.
  - pose proof (inv_first _ HI' Hl). congruence.
  - pose proof (inv_first _ HI' Hl). congruence.
  - specialize (Hver' f ver eq_refl). lia.
Qed.

End Props.

(** * Asynchronous derived values: cases and witnesses

    A value that adds two signals with a pause between the reads, the theorems
    on it, and programs in which a change or an [.await] is lost. *)

Module Cases.

Abbreviation state_ := (AD (V := nat) (T := nat) (TM := used_map unit)).
Abbreviation fut_ := (fut (V := nat) (T := nat)).

(** Sources with the value 1, to which nobody subscribes, and no Suspense *)
Definition start : state_ :=
  mkAD (mkInner [] [] false Clean 0 [] []) (mkCell None [] false) (mkTask TStart None false false 0)
    (mkEnv (λ _, mkSource 1 None false) (λ _, mkSuspense sm_default []) ∅ 0 [] [] [] []).

Definition program (fun_ : nat → fut_) (es : list event) : stateM state_ unit :=
  _ ← new_with_initial fun_ None; steps fun_ es.

(** The state that a program reaches *)
Definition reached (fun_ : nat → fut_) (es : list event) : state_ :=
  match program fun_ es start with Ok (_, a) => a | _ => start end.

Definition adds (_ : nat) : fut_ := ReadSource 0 (λ x, Pending (Pending (ReadSource 1 (λ y, Done (x + y))))).
Definition copies (_ : nat) : fut_ := ReadSource 0 (λ x, Pending (Pending (Done x))).

Lemma start_fresh : fresh_env start.
Proof. done. Qed.
Lemma start_signals : signals (sigs (env start)).
Proof. done. Qed.

(** A settled task does not move. *)
Lemma polls_settled (fun_ : nat → fut_) a n : settled a → polls fun_ n a = Ok (tt, a).
Proof.
  intros [Hpos Hn]. induction n as [| n IH]; [done |].
  assert (poll_task fun_ a = Ok (tt, a)) as E.
  { unfold poll_task. simpl. cbv [mbind stateM_bind task_step gets]. rewrite Hpos, Hn. done. }
  change (polls fun_ (S n) a) with ((_ ← poll_task fun_; polls fun_ n) a). by step_with E.
Qed.

(** ** What is lost *)

(** A write without a notification while a future is running gives its
    value, but whoever awaits it then waits for ever: the future's result is
    dropped because the version has changed, and with it the end of the loading
    state and the call of the wakers. *)
Theorem untracked_write_blocks_await :
  ∃ a, program copies [PollTask; PollAwait 0 None None; WriteUntracked (Some 7); PollTask] start = Ok (tt, a) ∧
    value (cell a) = Some 7 ∧
    ∀ n, ∃ a', polls copies n a = Ok (tt, a') ∧ settled a' ∧ loading (cell a') = true ∧
      wakers (cell a') = [WAwait 0] ∧ woken (env a') = [].
Proof.
  exists (reached copies [PollTask; PollAwait 0 None None; WriteUntracked (Some 7); PollTask]).
  split; [by vm_compute |]. split; [by vm_compute |]. intros n.
  eexists. split; [apply polls_settled; by vm_compute |]. by vm_compute.
Qed.

(** If a memo that the first future has read changes before the task is
    polled for the first time, the change is lost: the memo only marks the
    derived value for a check, so the old future is not thrown away, and the
    check, which finds the change, starts a run with it. *)
Theorem memo_change_is_lost :
  ∃ a, program copies [MarkMemo 0 2; PollTask; PollTask] start = Ok (tt, a) ∧
    ∀ n, ∃ a', polls copies n a = Ok (tt, a') ∧ settled a' ∧ loading (cell a') = false ∧
      src_value (sigs (env a') 0) = 2 ∧ value (cell a') = Some 1.
Proof.
  exists (reached copies [MarkMemo 0 2; PollTask; PollTask]).
  split; [by vm_compute |]. intros n.
  eexists. split; [apply polls_settled; by vm_compute |]. by vm_compute.
Qed.

(** The same change of a signal is not lost. *)
Example signal_change_arrives :
  value (cell (reached copies [SetSignal 0 2 true; PollTask; PollTask; PollTask])) = Some 2.
Proof. by vm_compute. Qed.

(** A value that is written before the task has started the run of the first
    future is overwritten by it. *)
Example early_write_is_overwritten :
  value (cell (reached copies [Write (Some 7); PollTask; PollTask])) = Some 1.
Proof. by vm_compute. Qed.

(** A change while the owner is paused is lost, also after it has resumed. *)
Example paused_change_is_lost :
  let a := reached copies [PollTask; PollTask; SetPaused true; SetSignal 0 2 true; PollTask; SetPaused false] in
  settled a ∧ value (cell a) = Some 1.
Proof. by vm_compute. Qed.

(** ** Witnesses *)

Definition changes : list (event (V := nat) (T := nat)) :=
  [PollAwait 0 None None; PollTask; Read (Some 3) (Some 0); SetSignal 0 5 true; PollTask; PollEmpty 0 9].

Lemma derived_settles_fresh_witness :
  ∃ a, (_ ← new_with_initial adds None; steps adds changes) start = Ok (tt, a) ∧
    ∃ n a', polls adds n a = Ok (tt, a') ∧ settled a' ∧ loading (cell a') = false ∧
      value (cell a') = Some (eval (sigs (env a')) (adds (calls (run a') - 1))).
Proof.
  apply (derived_settles_fresh adds None start changes);
    [exact start_fresh | reflexivity | exact start_signals | by vm_compute].
Defined.

Definition writes : list (event (V := nat) (T := nat)) :=
  [Read None (Some 0); PollTask; PollAwait 0 None (Some 1); Write (Some 7); MarkMemo 1 4; PollEmpty 0 9].

Lemma waiting_is_woken_witness :
  ∃ a, (_ ← new_with_initial adds None; steps adds writes) start = Ok (tt, a) ∧
    ∃ n a', polls adds n a = Ok (tt, a') ∧ settled a' ∧ loading (cell a') = false ∧ is_Some (value (cell a')) ∧
      wakers (cell a') = [] ∧ (∀ w, w ∈ wakers (cell a) → w ∈ woken (env a')) ∧
      ∀ c, sm_elems (tasks (contexts (env a') c)) = ∅.
Proof.
  apply (waiting_is_woken adds None start writes); [exact start_fresh | reflexivity | by vm_compute].
Defined.

Lemma written_value_stays_witness :
  ∃ a', (_ ← write (Some 7); steps adds [PollTask; PollAwait 1 None None; PollTask]) (reached adds [PollTask])
          = Ok (tt, a') ∧ value (cell a') = Some 7 ∧ loading (cell a') = false.
Proof.
  apply (written_value_stays adds None 7 start (reached adds [PollTask]) [PollTask]
           [PollTask; PollAwait 1 None None; PollTask]);
    [exact start_fresh | reflexivity | reflexivity | by vm_compute | by vm_compute | reflexivity].
Defined.
End Cases.
