(* ===== verification/Actions.v ===== *)
(** * Actions

    [reactive_graph/src/actions]: an action runs a future for every input that
    is dispatched.  [ArcAction] has one value, that of the last dispatch;
    [ArcMultiAction] has a submission for each.  A future is the number of polls
    that find it pending and the result that the next poll gives; the executor
    may poll the tasks in any order.  The signals of an action are its fields,
    whom they notify is left to [Graph]. *)

From stdpp Require Import base list.
From S2P Require Import Prelude.

Section Actions.
Context {I O : Type}.

(** A future *)
Record fut := mkFut {
  polls_left : nat;
  result : O;
}.

Context (action_fn : I → fut).

(** ** [ArcAction] ([action.rs]) *)

(** The channel behind [ActionAbortHandle]: the handle is there, has sent, or
    was dropped, which [select!] takes for a branch that never gets ready *)
Inductive abort_rx := HandleAlive | AbortSent | HandleDropped.

(** The task of a dispatch, until it ends *)
Record ActionTask := mkTask {
  current_version : nat;
  task_fut : fut;
  task_abort : abort_rx;
}.

Record ArcAction := mkAction {
  in_flight : nat;
  input : option I;
  value : option O;
  version : nat;
  dispatched : nat;
  tasks : list (option ActionTask);
}.

Definition ArcAction_new_with_value (v : option O) : ArcAction := mkAction 0 None v 0 0 [].

(** [ArcAction::dispatch]; [suppressed] is [is_suppressing_resource_load()]. *)
Definition dispatch (suppressed : bool) (i : I) (a : ArcAction) : ArcAction :=
  if suppressed then a
  else mkAction (in_flight a + 1) (Some i) (value a) (version a) (dispatched a + 1)
         (tasks a ++ [Some (mkTask (dispatched a + 1) (action_fn i) HandleAlive)]).

(** The end of a task, after [select!] *)
Definition end_task (k : nat) (a : ArcAction) : ArcAction :=
  mkAction (in_flight a) (if decide (in_flight a = 0) then None else input a) (value a) (version a)
    (dispatched a) (<[k := None]> (tasks a)).

(** The branch of the abort message, and that of the future *)
Definition task_aborted (a : ArcAction) : ArcAction :=
  mkAction (in_flight a - 1) (input a) (value a) (version a) (dispatched a) (tasks a).

Definition task_finished (t : ActionTask) (a : ArcAction) : ArcAction :=
  let a := mkAction (in_flight a - 1) (input a) (value a) (version a) (dispatched a) (tasks a) in
  if decide (dispatched a = current_version t) then
    mkAction (in_flight a) (input a) (Some (result (task_fut t))) (version a + 1) (dispatched a) (tasks a)
  else a.

(** A poll of the task [k]: [select!] polls its branches in a random order, so
    [fut_first] says which of two ready branches is taken. *)
Definition poll (k : nat) (fut_first : bool) (a : ArcAction) : ArcAction :=
  match tasks a !! k with
  | Some (Some t) =>
      let aborted := match task_abort t with AbortSent => true | _ => false end in
      let ready := polls_left (task_fut t) =? 0 in
      if aborted && (negb fut_first || negb ready) then end_task k (task_aborted a)
      else if ready then end_task k (task_finished t a)
      else mkAction (in_flight a) (input a) (value a) (version a) (dispatched a)
             (<[k := Some (mkTask (current_version t)
                             (mkFut (polls_left (task_fut t) - 1) (result (task_fut t))) (task_abort t))]> (tasks a))
  | _ => a
  end.

(** [ActionAbortHandle::abort], and the drop of the handle *)
Definition set_abort (k : nat) (r : abort_rx) (a : ArcAction) : ArcAction :=
  match tasks a !! k with
  | Some (Some t) =>
      match task_abort t with
      | HandleAlive =>
          mkAction (in_flight a) (input a) (value a) (version a) (dispatched a)
            (<[k := Some (mkTask (current_version t) (task_fut t) r)]> (tasks a))
      | _ => a
      end
  | _ => a
  end.
Definition abort (k : nat) : ArcAction → ArcAction := set_abort k AbortSent.
Definition drop_handle (k : nat) : ArcAction → ArcAction := set_abort k HandleDropped.

(** [ArcAction::clear] *)
Definition clear (a : ArcAction) : ArcAction :=
  mkAction (in_flight a) (input a) None (version a) (dispatched a) (tasks a).

(** [ArcAction::pending] *)
Definition pending (a : ArcAction) : bool := 0 <? in_flight a.

Inductive action_event :=
| Dispatch (suppressed : bool) (i : I)
| Poll (k : nat) (fut_first : bool)
| Abort (k : nat)
| DropHandle (k : nat)
| Clear.

Definition action_step (a : ArcAction) (e : action_event) : ArcAction :=
  match e with
  | Dispatch s i => dispatch s i a
  | Poll k b => poll k b a
  | Abort k => abort k a
  | DropHandle k => drop_handle k a
  | Clear => clear a
  end.

Definition action_run (v : option O) (es : list action_event) : ArcAction :=
  foldl action_step (ArcAction_new_with_value v) es.

(** ** [ArcMultiAction] ([multi_action.rs]) *)

Record ArcSubmission := mkSubmission {
  sub_input : option I;
  sub_value : option O;
  sub_pending : bool;
  sub_canceled : bool;
}.

(** The submissions, and the futures of the tasks that have not ended, at the
    index of their submission *)
Record ArcMultiAction := mkMulti {
  multi_version : nat;
  submissions : list ArcSubmission;
  multi_tasks : list (option fut);
}.

Definition ArcMultiAction_new : ArcMultiAction := mkMulti 0 [] [].

Definition multi_dispatch (suppressed : bool) (i : I) (m : ArcMultiAction) : ArcMultiAction :=
  if suppressed then m
  else mkMulti (multi_version m) (submissions m ++ [mkSubmission (Some i) None true false])
         (multi_tasks m ++ [Some (action_fn i)]).

Definition dispatch_sync (v : O) (m : ArcMultiAction) : ArcMultiAction :=
  mkMulti (multi_version m + 1) (submissions m ++ [mkSubmission None (Some v) false false])
    (multi_tasks m ++ [None]).

(** A poll of the task of submission [k] *)
Definition multi_poll (k : nat) (m : ArcMultiAction) : ArcMultiAction :=
  match multi_tasks m !! k, submissions m !! k with
  | Some (Some f), Some s =>
      if polls_left f =? 0 then
        let v := if sub_canceled s then sub_value s else Some (result f) in
        mkMulti (multi_version m + 1)
          (<[k := mkSubmission None v false (sub_canceled s)]> (submissions m)) (<[k := None]> (multi_tasks m))
      else
        mkMulti (multi_version m) (submissions m)
          (<[k := Some (mkFut (polls_left f - 1) (result f))]> (multi_tasks m))
  | _, _ => m
  end.

(** [ArcSubmission::cancel] *)
Definition cancel (k : nat) (m : ArcMultiAction) : ArcMultiAction :=
  mkMulti (multi_version m)
    (alter (λ s, mkSubmission (sub_input s) (sub_value s) (sub_pending s) true) k (submissions m)) (multi_tasks m).

Inductive multi_event :=
| MDispatch (suppressed : bool) (i : I)
| MDispatchSync (v : O)
| MPoll (k : nat)
| MCancel (k : nat).

Definition multi_step (m : ArcMultiAction) (e : multi_event) : ArcMultiAction :=
  match e with
  | MDispatch s i => multi_dispatch s i m
  | MDispatchSync v => dispatch_sync v m
  | MPoll k => multi_poll k m
  | MCancel k => cancel k m
  end.

Definition multi_run (es : list multi_event) : ArcMultiAction := foldl multi_step ArcMultiAction_new es.

End Actions.
Arguments fut : clear implicits.
Arguments ActionTask : clear implicits.
Arguments ArcAction : clear implicits.
Arguments action_event : clear implicits.
Arguments ArcSubmission : clear implicits.
Arguments ArcMultiAction : clear implicits.
Arguments multi_event : clear implicits.

(** * Theorems on actions

    An action counts its running tasks and shows the result of its last
    dispatch, in whatever order the futures get ready; every submission of a
    multi-action gets its own result. *)

Section Props.
Context {I O : Type} (action_fn : I → fut O).
Abbreviation run := (action_run action_fn).
Abbreviation multi := (multi_run action_fn).

(** The inputs that were dispatched *)
Definition dispatches (es : list (action_event I)) : list I :=
  omap (λ e, match e with Dispatch false i => Some i | _ => None end) es.

(** The tasks that have not ended *)
Definition live {A} (ts : list (option A)) : nat := length (filter is_Some ts).

Lemma live_app {A} (ts us : list (option A)) : live (ts ++ us) = live ts + live us.
Proof. unfold live. by rewrite filter_app, length_app. Qed.

Lemma live_split {A} (ts : list (option A)) k x : ts !! k = Some x →
  live ts = live (take k ts) + live [x] + live (drop (S k) ts).
Proof.
  intros H. rewrite <- (take_drop_middle ts k x H) at 1. change (x :: drop (S k) ts) with ([x] ++ drop (S k) ts).
  rewrite !live_app. lia.
Qed.

Lemma live_insert {A} (ts : list (option A)) k x y : ts !! k = Some x →
  live (<[k := y]> ts) + live [x] = live ts + live [y].
Proof.
  intros H. rewrite (live_split ts k x H). pose proof (lookup_lt_Some _ _ _ H) as Hk.
  rewrite insert_take_drop by done. change (y :: drop (S k) ts) with ([y] ++ drop (S k) ts).
  rewrite !live_app. lia.
Qed.

Lemma live_end {A} (ts : list (option A)) k x : ts !! k = Some (Some x) → live (<[k := None]> ts) + 1 = live ts.
Proof. intros H. pose proof (live_insert ts k (Some x) None H) as E. unfold live in *. simpl in *. lia. Qed.

Lemma live_keep {A} (ts : list (option A)) k x y : ts !! k = Some (Some x) → live (<[k := Some y]> ts) = live ts.
Proof. intros H. pose proof (live_insert ts k (Some x) (Some y) H) as E. unfold live in *. simpl in *. lia. Qed.

(** ** The invariant of an action *)

Record action_ok (ds : list I) (a : ArcAction I O) : Prop := mkActionOk {
  ok_dispatched : dispatched a = length ds;
  ok_tasks : length (tasks a) = length ds;
  ok_flight : in_flight a = live (tasks a);
  ok_input : input a = if decide (in_flight a = 0) then None else last ds;
  ok_version : version a + in_flight a ≤ dispatched a;
  ok_task k t : tasks a !! k = Some (Some t) → current_version t = S k;
}.

Lemma live_pos {A} (ts : list (option A)) k x : ts !! k = Some (Some x) → 0 < live ts.
Proof. intros H. pose proof (live_end ts k x H). lia. Qed.

(** What a task that is changed or ended leaves of the others *)
Lemma insert_task (ts : list (option (ActionTask O))) k x j t :
  <[k := x]> ts !! j = Some (Some t) → (j = k ∧ x = Some t) ∨ ts !! j = Some (Some t).
Proof.
  intros [(<- & <- & _) | [_ ?]]%list_lookup_insert_Some; auto.
Qed.

Lemma set_abort_ok ds k r a : action_ok ds a → action_ok ds (set_abort k r a).
Proof.
  intros Ha. unfold set_abort. destruct (tasks a !! k) as [[t |] |] eqn:Ek; try done.
  destruct (task_abort t); try done. destruct Ha as [Hd Ht Hf Hi Hv Htk].
  constructor; simpl; try done.
  - by rewrite length_insert.
  - by rewrite (live_keep _ _ _ _ Ek).
  - intros j t' [[-> [= <-]] | Hj]%insert_task; [exact (Htk k t Ek) | by apply Htk].
Qed.

Lemma end_task_ok ds k t a v ver : action_ok ds a → tasks a !! k = Some (Some t) → ver ≤ version a + 1 →
  action_ok ds (end_task k (mkAction (in_flight a - 1) (input a) v ver (dispatched a) (tasks a))).
Proof.
  intros [Hd Ht Hf Hi Hv Htk] Ek Hver. pose proof (live_end _ _ _ Ek) as Hl.
  constructor; simpl; try done.
  - by rewrite length_insert.
  - lia.
  - destruct (decide (in_flight a - 1 = 0)); [done |]. by rewrite Hi, decide_False by lia.
  - lia.
  - intros j t' [[_ [=]] | Hj]%insert_task. by apply Htk.
Qed.

Lemma action_poll_ok ds k b a : action_ok ds a → action_ok ds (poll k b a).
Proof.
  intros Ha. unfold poll. destruct (tasks a !! k) as [[t |] |] eqn:Ek; try done.
  destruct (_ && _); [| case_match].
  - apply (end_task_ok ds k t a (value a) (version a)); [done | done | lia].
  - unfold task_finished. simpl. case_decide.
    + apply (end_task_ok ds k t a (Some (result (task_fut t))) (version a + 1)); [done | done | lia].
    + apply (end_task_ok ds k t a (value a) (version a)); [done | done | lia].
  - destruct Ha as [Hd Ht Hf Hi Hv Htk]. constructor; simpl; try done.
    + by rewrite length_insert.
    + by rewrite (live_keep _ _ _ _ Ek).
    + intros j t' [[-> [= <-]] | Hj]%insert_task; [exact (Htk k t Ek) | by apply Htk].
Qed.

Lemma dispatch_ok ds i a : action_ok ds a → action_ok (ds ++ [i]) (dispatch action_fn false i a).
Proof.
  intros [Hd Ht Hf Hi Hv Htk]. constructor; simpl.
  - rewrite length_app. simpl. lia.
  - rewrite !length_app. simpl. lia.
  - rewrite live_app, Hf. done.
  - rewrite decide_False by lia. by rewrite last_snoc.
  - lia.
  - intros k t [Hk | [Hk Hx]]%lookup_app_Some; [by apply Htk |].
    apply list_lookup_singleton_Some in Hx as [Hx [= <-]]. simpl. lia.
Qed.

Lemma action_step_ok ds a e : action_ok ds a → action_ok (ds ++ dispatches [e]) (action_step action_fn a e).
Proof.
  intros Ha. destruct e as [[] i | k b | k | k |]; simpl; rewrite ?app_nil_r; try done.
  - by apply dispatch_ok.
  - by apply action_poll_ok.
  - by apply set_abort_ok.
  - by apply set_abort_ok.
  - by destruct Ha; constructor.
Qed.

Lemma action_run_ok v es : action_ok (dispatches es) (run v es).
Proof.
  induction es as [| e es IH] using rev_ind; [by constructor |].
  unfold dispatches, action_run in *. rewrite omap_app, foldl_app. by apply action_step_ok.
Qed.

(** An action knows what is going on: whatever was dispatched, polled,
    aborted and cleared, it counts the tasks that have not ended, its input is
    that of the last dispatch as long as there is one of them and nothing after
    that, and it has not counted more results than there were tasks that ended. *)
Theorem action_counts_tasks (v : option O) (es : list (action_event I)) :
  let a := run v es in
  in_flight a = live (tasks a) ∧ pending a = bool_decide (0 < live (tasks a)) ∧
  input a = (if decide (live (tasks a) = 0) then None else last (dispatches es)) ∧
  version a + live (tasks a) ≤ length (dispatches es).
Proof.
  destruct (action_run_ok v es) as [Hd Ht Hf Hi Hv _]. rewrite Hf in *. rewrite Hd in Hv.
  split_and!; [done | | done | done]. unfold pending. rewrite Hf.
  destruct (Nat.ltb_spec 0 (live (tasks (run v es)))); [by rewrite bool_decide_true | rewrite bool_decide_false; [done | lia]].
Qed.

(** ** The last dispatch *)

(** Events that neither dispatch, nor clear, nor abort the task [k] *)
Definition leaves_alone (k : nat) (e : action_event I) : bool :=
  match e with
  | Dispatch s _ => s
  | Poll _ _ | DropHandle _ => true
  | Abort j => bool_decide (j ≠ k)
  | Clear => false
  end.

(** The task [k] is the last one; before its end the value is [v], then [r]. *)
Definition last_task (k : nat) (v : option O) (r : O) (a : ArcAction I O) : Prop :=
  dispatched a = S k ∧ (∀ j t, tasks a !! j = Some (Some t) → current_version t = S j) ∧
  ((∃ t, tasks a !! k = Some (Some t) ∧ result (task_fut t) = r ∧ task_abort t ≠ AbortSent ∧ value a = v) ∨
   tasks a !! k = Some None ∧ value a = Some r).

Lemma last_task_poll k v r j b a : last_task k v r a → last_task k v r (poll j b a).
Proof.
  intros (Hd & Hver & Hk). unfold poll. destruct (tasks a !! j) as [[t |] |] eqn:Ej; try done.
  assert (Hlt : j < length (tasks a)) by by eapply lookup_lt_Some.
  assert (Hrest : ∀ x j' t', <[j := x]> (tasks a) !! j' = Some (Some t') →
    (∀ t0, x = Some t0 → current_version t0 = S j) → current_version t' = S j').
  { intros x j' t' [[-> ->] | Hj']%insert_task Hx; [by apply Hx | by apply Hver]. }
  destruct (decide (j = k)) as [-> |].
  - destruct Hk as [(t' & Et & Hr & Ha & Hv) | [Et _]]; [| congruence]. rewrite Ej in Et. injection Et as <-.
    replace (match task_abort t with AbortSent => true | _ => false end) with false by by destruct (task_abort t).
    simpl. case_match.
    + unfold task_finished. simpl. rewrite decide_True by (rewrite Hd; symmetry; by apply Hver).
      split_and!; simpl; [done | | right].
      * intros j' t' Hj'. by apply (Hrest _ _ _ Hj').
      * rewrite list_lookup_insert_eq by done. by rewrite Hr.
    + split_and!; simpl; [done | | left].
      * intros j' t' Hj'. apply (Hrest _ _ _ Hj'). intros t0 [= <-]. exact (Hver _ _ Ej).
      * rewrite list_lookup_insert_eq by done. eexists. split_and!; [done | done | done | done].
  - assert (Hk' : ∀ x, <[j := x]> (tasks a) !! k = tasks a !! k) by (intros; by rewrite list_lookup_insert_ne).
    destruct (_ && _); [| case_match].
    + split_and!; simpl; [done | intros j' t' Hj'; by apply (Hrest _ _ _ Hj') | by rewrite Hk'].
    + unfold task_finished. simpl. rewrite decide_False by (rewrite Hd, (Hver j t Ej); lia).
      split_and!; simpl; [done | intros j' t' Hj'; by apply (Hrest _ _ _ Hj') | by rewrite Hk'].
    + split_and!; simpl; [done | | by rewrite Hk'].
      intros j' t' Hj'. apply (Hrest _ _ _ Hj'). intros t0 [= <-]. exact (Hver _ _ Ej).
Qed.

Lemma last_task_abort k v r j x a : j ≠ k ∨ x ≠ AbortSent → last_task k v r a → last_task k v r (set_abort j x a).
Proof.
  intros Hx (Hd & Hver & Hk). unfold set_abort. destruct (tasks a !! j) as [[t |] |] eqn:Ej; try done.
  destruct (task_abort t) eqn:Eab; try done.
  assert (Hlt : j < length (tasks a)) by by eapply lookup_lt_Some.
  split_and!; simpl; [done | |].
  - intros j' t' [[-> [= <-]] | Hj']%insert_task; [exact (Hver _ _ Ej) | by apply Hver].
  - destruct (decide (j = k)) as [-> |]; [| by rewrite list_lookup_insert_ne].
    destruct Hk as [(t' & Et & Hr & Ha & Hv) | [Et _]]; [| congruence]. left.
    rewrite Ej in Et. injection Et as <-. rewrite list_lookup_insert_eq by done.
    eexists. split_and!; [done | done | by destruct Hx | done].
Qed.

Lemma last_task_run k v r es : ∀ a, forallb (leaves_alone k) es = true → last_task k v r a →
  last_task k v r (foldl (action_step action_fn) a es).
Proof.
  induction es as [| e es IH]; intros a Hes Ha; [done |]. apply andb_true_iff in Hes as [He Hes].
  simpl. apply IH; [done |]. destruct e as [[] i | j b | j | j |]; try done; simpl.
  - by apply last_task_poll.
  - apply bool_decide_eq_true in He. apply last_task_abort; auto.
  - apply last_task_abort; [by right | done].
Qed.

(** C34: the last dispatch decides: as long as there is no later dispatch, no
    clearing and no abortion of its own task, the value of an action is the
    result of the last dispatch when its task has ended, and before that what
    it was at the time of the dispatch, however the futures of other dispatches
    end and in whatever order they are polled. *)
Theorem last_dispatch_decides (v : option O) (i : I) (es1 es2 : list (action_event I))
    (Hes : forallb (leaves_alone (length (dispatches es1))) es2 = true) :
  let a := run v (es1 ++ Dispatch false i :: es2) in
  value a = match tasks a !! length (dispatches es1) with
            | Some None => Some (result (action_fn i))
            | _ => value (run v es1)
            end.
Proof.
  intros a. destruct (action_run_ok v es1) as [Hd Ht _ _ _ Htk].
  assert (last_task (length (dispatches es1)) (value (run v es1)) (result (action_fn i)) a) as (_ & _ & Hk).
  { unfold a, action_run. rewrite foldl_app. simpl. apply last_task_run; [done |]. fold (run v es1).
    split_and!; simpl; [lia | |].
    - intros j t [Hj | [Hj Hx]]%lookup_app_Some; [by apply Htk |].
      apply list_lookup_singleton_Some in Hx as [Hx [= <-]]. simpl. lia.
    - left. rewrite lookup_app_r, Ht, Nat.sub_diag by lia. eexists. by split_and!. }
  destruct Hk as [(t & -> & _ & _ & Hv) | [-> Hv]]; done.
Qed.

(** ** Submissions *)

Definition multi_dispatches (es : list (multi_event I O)) : list (I + O) :=
  omap (λ e, match e with MDispatch false i => Some (inl i) | MDispatchSync v => Some (inr v) | _ => None end) es.

(** A submission and its task, for what was dispatched *)
Definition submission_ok (d : I + O) (s : ArcSubmission I O) (t : option (fut O)) : Prop :=
  match d with
  | inl i =>
      (∃ f, t = Some f ∧ result f = result (action_fn i) ∧ sub_pending s = true ∧ sub_input s = Some i ∧ sub_value s = None) ∨
      t = None ∧ sub_pending s = false ∧ sub_input s = None ∧
        (sub_value s = Some (result (action_fn i)) ∨ sub_canceled s = true ∧ sub_value s = None)
  | inr v => t = None ∧ sub_pending s = false ∧ sub_input s = None ∧ sub_value s = Some v
  end.

Record multi_ok (ds : list (I + O)) (m : ArcMultiAction I O) : Prop := mkMultiOk {
  mo_subs : length (submissions m) = length ds;
  mo_tasks : length (multi_tasks m) = length ds;
  mo_version : multi_version m + live (multi_tasks m) = length ds;
  mo_sub k d s t : ds !! k = Some d → submissions m !! k = Some s → multi_tasks m !! k = Some t → submission_ok d s t;
}.

Lemma multi_new ds d s t m n : multi_ok ds m → submission_ok d s t → n + live [t] = multi_version m + 1 →
  multi_ok (ds ++ [d]) (mkMulti n (submissions m ++ [s]) (multi_tasks m ++ [t])).
Proof.
  intros [Hs Ht Hv Hk] Hok Hn. constructor; simpl; rewrite ?length_app, ?live_app; simpl; [lia | lia | lia |].
  intros k d' s' t' Hd' Hs' Ht'. destruct (decide (k < length ds)).
  - rewrite lookup_app_l in Hd' by lia. rewrite lookup_app_l in Hs' by lia. rewrite lookup_app_l in Ht' by lia. by eapply Hk.
  - rewrite lookup_app_r in Hd' by lia. rewrite lookup_app_r in Hs' by lia. rewrite lookup_app_r in Ht' by lia. rewrite Hs in Hs'. rewrite Ht in Ht'.
    apply list_lookup_singleton_Some in Hd' as [_ <-]. apply list_lookup_singleton_Some in Hs' as [_ <-].
    by apply list_lookup_singleton_Some in Ht' as [_ <-].
Qed.

Lemma multi_poll_ok ds k m : multi_ok ds m → multi_ok ds (multi_poll k m).
Proof.
  intros [Hs Ht Hv Hk]. unfold multi_poll. destruct (multi_tasks m !! k) as [[f |] |] eqn:Et; [| by constructor..].
  destruct (submissions m !! k) as [s |] eqn:Es; [| by constructor].
  pose proof (lookup_lt_Some _ _ _ Et) as Hlt. pose proof (lookup_lt_Some _ _ _ Es) as Hlt'.
  destruct (lookup_lt_is_Some_2 ds k) as [d Hd]; [lia |]. pose proof (Hk k d s _ Hd Es Et) as Hok.
  case_match; constructor; simpl; rewrite ?length_insert; try done.
  - pose proof (live_end _ _ _ Et). lia.
  - intros j d' s' t' Hd' Hs' Ht'. destruct (decide (j = k)) as [-> |].
    + rewrite list_lookup_insert_eq in Hs' by done. rewrite list_lookup_insert_eq in Ht' by done. simplify_eq. destruct d as [i | v]; simpl in *.
      * right. destruct Hok as [(f' & [= <-] & Hr & Hp & Hi & Hvl) | [[=] _]].
        split_and!; [done | done | done |]. rewrite <- Hr. destruct (sub_canceled s); auto.
      * by destruct Hok.
    + rewrite list_lookup_insert_ne in Hs' by done. rewrite list_lookup_insert_ne in Ht' by done. by eapply Hk.
  - by rewrite (live_keep _ _ _ _ Et).
  - intros j d' s' t' Hd' Hs' Ht'. destruct (decide (j = k)) as [-> |].
    + rewrite list_lookup_insert_eq in Ht' by done. simplify_eq. destruct d as [i | v]; simpl in *.
      * left. destruct Hok as [(f' & [= <-] & Hr & Hp & Hi & Hvl) | [[=] _]]. by eexists.
      * by destruct Hok.
    + rewrite list_lookup_insert_ne in Ht' by done. by eapply Hk.
Qed.

Lemma cancel_ok ds k m : multi_ok ds m → multi_ok ds (cancel k m).
Proof.
  intros [Hs Ht Hv Hk]. constructor; simpl; rewrite ?length_alter; try done.
  intros j d s t Hd Hs' Ht'. destruct (decide (j = k)) as [-> |].
  - rewrite list_lookup_alter_eq in Hs'. apply fmap_Some in Hs' as (s0 & Es & ->).
    specialize (Hk k d s0 t Hd Es Ht'). destruct d; simpl in *; [| done].
    destruct Hk as [? | (? & ? & ? & [? | [? ?]])]; [by left | right; split_and!; auto..].
  - rewrite list_lookup_alter_ne in Hs' by done. by eapply Hk.
Qed.

Lemma multi_run_ok es : multi_ok (multi_dispatches es) (multi es).
Proof.
  induction es as [| e es IH] using rev_ind; [by constructor |].
  unfold multi_dispatches, multi_run in *. rewrite omap_app, foldl_app. simpl.
  set (m := foldl _ _ _) in *. destruct e as [[] i | v | k | k]; simpl; rewrite ?app_nil_r; try done.
  - apply multi_new; [done | | unfold live; simpl; lia]. left. by eexists.
  - apply multi_new; [done | done | unfold live; simpl; lia].
  - by apply multi_poll_ok.
  - by apply cancel_ok.
Qed.

(** The version counts the submissions that are not pending. *)
Lemma version_counts_ended (es : list (multi_event I O)) :
  multi_version (multi es) = length (filter (λ s, sub_pending s = false) (submissions (multi es))).
Proof.
  destruct (multi_run_ok es) as [Hs Ht Hv Hk].
  apply (Nat.add_cancel_r _ _ (live (multi_tasks (multi es)))). rewrite Hv, <- Hs.
  revert Hk Hs Ht. generalize (submissions (multi es)) (multi_tasks (multi es)) (multi_dispatches es). clear.
  induction l as [| s ss IH]; intros [| t ts] [| d ds] Hk Hs Ht; try done. simpl in *.
  rewrite (IH ts ds) by (intros; first [lia | by eapply (Hk (S k))] || lia).
  specialize (Hk 0 d s t eq_refl eq_refl eq_refl).
  assert (sub_pending s = true ∧ is_Some t ∨ sub_pending s = false ∧ t = None) as [[Hp [f ->]] | [Hp ->]]
    by (destruct d; naive_solver).
  + rewrite filter_cons_False by congruence. unfold live. rewrite filter_cons_True by done. simpl. lia.
  + rewrite filter_cons_True by done. unfold live. rewrite (filter_cons_False is_Some) by by intros [? [=]].
    simpl. lia.
Qed.

(** *** The history of a submission *)

(** The polls of the task [k], and whether its submission was canceled *)
Definition polls_of (k : nat) (es : list (multi_event I O)) : nat :=
  length (List.filter (λ e, match e with MPoll j => j =? k | _ => false end) es).
Definition canceled_in (k : nat) (es : list (multi_event I O)) : bool :=
  existsb (λ e, match e with MCancel j => j =? k | _ => false end) es.

Lemma polls_of_app k es es' : polls_of k (es ++ es') = polls_of k es + polls_of k es'.
Proof. unfold polls_of. by rewrite List.filter_app, length_app. Qed.
Lemma canceled_in_app k es es' : canceled_in k (es ++ es') = canceled_in k es || canceled_in k es'.
Proof. apply existsb_app. Qed.

(** The task [k] waits for [n] polls, and its submission was canceled or not. *)
Definition runs_at (k : nat) (i : I) (n : nat) (c : bool) (m : ArcMultiAction I O) : Prop :=
  multi_tasks m !! k = Some (Some (mkFut n (result (action_fn i)))) ∧
  submissions m !! k = Some (mkSubmission (Some i) None true c).
Definition ended_at (k : nat) (v : option O) (c : bool) (m : ArcMultiAction I O) : Prop :=
  multi_tasks m !! k = Some None ∧ submissions m !! k = Some (mkSubmission None v false c).

Lemma other_poll j k (m : ArcMultiAction I O) : j ≠ k →
  multi_tasks (multi_poll j m) !! k = multi_tasks m !! k ∧ submissions (multi_poll j m) !! k = submissions m !! k.
Proof.
  intros Hj. unfold multi_poll. destruct (multi_tasks m !! j) as [[f |] |]; [| done..].
  destruct (submissions m !! j); [| done]. destruct (polls_left f =? 0); simpl;
    by rewrite ?list_lookup_insert_ne by done.
Qed.

Lemma other_cancel j k (m : ArcMultiAction I O) : j ≠ k → submissions (cancel j m) !! k = submissions m !! k.
Proof. intros Hj. simpl. by rewrite list_lookup_alter_ne. Qed.

Lemma runs_at_step k i n c m e : runs_at k i n c m → polls_of k [e] ≤ n →
  runs_at k i (n - polls_of k [e]) (c || canceled_in k [e]) (multi_step action_fn m e).
Proof.
  intros [Ht Hs] Hn. unfold polls_of, canceled_in in *. destruct e as [[] j | v | j | j]; cbn in *;
    rewrite ?orb_false_r, ?Nat.sub_0_r; try done.
  - split; simpl; by apply lookup_app_l_Some.
  - split; simpl; by apply lookup_app_l_Some.
  - destruct (Nat.eqb_spec j k) as [-> | Hj]; cbn in *.
    + unfold multi_poll. rewrite Ht, Hs. cbn. destruct n as [| n]; [lia |]. cbn. split; cbn; [| done].
      rewrite list_lookup_insert_eq by (by eapply lookup_lt_Some). by rewrite Nat.sub_0_r.
    + rewrite Nat.sub_0_r. destruct (other_poll j k m Hj) as [Et Es]. split; [by rewrite Et | by rewrite Es].
  - destruct (Nat.eqb_spec j k) as [-> | Hj]; cbn.
    + rewrite orb_true_r. split; cbn; [done |]. by rewrite list_lookup_alter_eq, Hs.
    + rewrite orb_false_r. split; cbn; [done |]. by rewrite list_lookup_alter_ne.
Qed.

Lemma ended_at_step k v c m e : ended_at k v c m →
  ended_at k v (c || canceled_in k [e]) (multi_step action_fn m e).
Proof.
  intros [Ht Hs]. unfold canceled_in. destruct e as [[] j | x | j | j]; cbn; rewrite ?orb_false_r; try done.
  - split; simpl; by apply lookup_app_l_Some.
  - split; simpl; by apply lookup_app_l_Some.
  - destruct (decide (j = k)) as [-> | Hj].
    + unfold multi_poll. by rewrite Ht.
    + destruct (other_poll j k m Hj) as [Et Es]. split; [by rewrite Et | by rewrite Es].
  - destruct (Nat.eqb_spec j k) as [-> | Hj]; cbn.
    + rewrite orb_true_r. split; cbn; [done |]. by rewrite list_lookup_alter_eq, Hs.
    + rewrite orb_false_r. split; cbn; [done |]. by rewrite list_lookup_alter_ne.
Qed.

Lemma runs_at_run k i n c es : ∀ m, runs_at k i n c m → polls_of k es ≤ n →
  runs_at k i (n - polls_of k es) (c || canceled_in k es) (foldl (multi_step action_fn) m es).
Proof.
  revert n c. induction es as [| e es IH]; intros n c m Hm Hn.
  - cbn. rewrite orb_false_r, Nat.sub_0_r. done.
  - change (e :: es) with ([e] ++ es) in *. rewrite polls_of_app in Hn. rewrite polls_of_app, canceled_in_app.
    cbn [app foldl]. rewrite Nat.sub_add_distr, orb_assoc. apply IH; [| lia]. apply runs_at_step; [done | lia].
Qed.

Lemma ended_at_run k v c es : ∀ m, ended_at k v c m →
  ended_at k v (c || canceled_in k es) (foldl (multi_step action_fn) m es).
Proof.
  revert c. induction es as [| e es IH]; intros c m Hm.
  - cbn. by rewrite orb_false_r.
  - change (e :: es) with ([e] ++ es). rewrite canceled_in_app, orb_assoc. cbn [app foldl].
    by apply IH, ended_at_step.
Qed.

Lemma runs_at_end k i c m : runs_at k i 0 c m →
  ended_at k (if c then None else Some (result (action_fn i))) c (multi_poll k m).
Proof.
  intros [Ht Hs]. unfold multi_poll. rewrite Ht, Hs. cbn. split; cbn;
    rewrite list_lookup_insert_eq by (by eapply lookup_lt_Some); [done |]. by destruct c.
Qed.

Lemma dispatch_runs es1 i : let k := length (multi_dispatches es1) in
  runs_at k i (polls_left (action_fn i)) false (multi (es1 ++ [MDispatch false i])).
Proof.
  destruct (multi_run_ok es1) as [Hs Ht _ _]. unfold multi_run. rewrite foldl_app. cbn.
  split; cbn; rewrite lookup_app_r by (unfold multi_run in *; lia).
  - unfold multi_run in Ht. rewrite Ht, Nat.sub_diag. cbn. by destruct (action_fn i).
  - unfold multi_run in Hs. by rewrite Hs, Nat.sub_diag.
Qed.

(** C35: every submission of a multi-action goes its own way, whatever else is
    dispatched, polled and canceled.  Let [k] be the number of dispatches before
    that of an input [i].  As long as the task [k] was polled no more often than
    its future is pending, the submission [k] is pending and shows its input.  At
    the next poll it ends: from then on it is not pending, shows no input, and
    has the result of the future of [i], or no value if it was canceled before
    this poll; a later cancellation takes nothing away.  There is one submission
    for each dispatch, and the version counts those that are not pending. *)
Theorem submissions_get_results (i : I) (es1 es2 : list (multi_event I O)) :
  let k := length (multi_dispatches es1) in
  let es := es1 ++ MDispatch false i :: es2 in
  (polls_of k es2 ≤ polls_left (action_fn i) →
     submissions (multi es) !! k = Some (mkSubmission (Some i) None true (canceled_in k es2))) ∧
  (∀ before after, es2 = before ++ MPoll k :: after → polls_of k before = polls_left (action_fn i) →
     submissions (multi es) !! k =
       Some (mkSubmission None (if canceled_in k before then None else Some (result (action_fn i)))
               false (canceled_in k es2))) ∧
  length (submissions (multi es)) = length (multi_dispatches es) ∧
  multi_version (multi es) = length (filter (λ s, sub_pending s = false) (submissions (multi es))).
Proof.
  intros k es. pose proof (dispatch_runs es1 i) as Hd. fold k in Hd.
  assert (multi es = foldl (multi_step action_fn) (multi (es1 ++ [MDispatch false i])) es2) as Hrun.
  { unfold es, multi_run. rewrite !foldl_app. done. }
  split_and!.
  - intros Hn. rewrite Hrun. by apply (runs_at_run k i _ false es2 _ Hd).
  - intros before after -> Hn. rewrite Hrun, foldl_app. cbn [foldl multi_step].
    pose proof (runs_at_run k i _ false before _ Hd ltac:(lia)) as Hb. rewrite Hn, Nat.sub_diag in Hb.
    apply runs_at_end in Hb. apply (ended_at_run k _ _ after) in Hb as [_ ->]. cbn [orb].
    rewrite canceled_in_app. done.
  - apply multi_run_ok.
  - apply version_counts_ended.
Qed.
End Props.

(** ** Cases *)

Module Cases.
Definition double (n : nat) : fut nat := mkFut (n mod 3) (2 * n).

(** Both dispatches complete, in order; the version, documented as the number
    of times that the action has completed, counts only the last one. *)
Example version_counts_last :
  let a := action_run double None [Dispatch false 3; Dispatch false 6; Poll 0 true; Poll 1 true] in
  version a = 1 ∧ value a = Some 12.
Proof. by vm_compute. Qed.

(** The last dispatch is aborted, and the one before it completes after that:
    its result is dropped, and the action shows none. *)
Example abort_drops_earlier_result :
  let a := action_run double None [Dispatch false 3; Dispatch false 5; Abort 1; Poll 1 true; Poll 0 true] in
  in_flight a = 0 ∧ version a = 0 ∧ value a = None.
Proof. by vm_compute. Qed.

Lemma last_dispatch_decides_witness :
  forallb (leaves_alone (I := nat) (length (dispatches [Dispatch false 5; Poll 0 true; Dispatch false 4])))
    [Poll 1 true; Poll 2 true; DropHandle 2; Poll 1 false; Abort 0] = true ∧
  let a := action_run double None ([Dispatch false 5; Poll 0 true; Dispatch false 4] ++ Dispatch false 6 ::
    [Poll 1 true; Poll 2 true; DropHandle 2; Poll 1 false; Abort 0]) in
  value a = match tasks a !! length (dispatches [Dispatch false 5; Poll 0 true; Dispatch false 4]) with
            | Some None => Some (result (double 6))
            | _ => value (action_run double None [Dispatch false 5; Poll 0 true; Dispatch false 4])
            end.
Proof.
  split; [reflexivity |].
  exact (last_dispatch_decides double None 6 [Dispatch false 5; Poll 0 true; Dispatch false 4]
    [Poll 1 true; Poll 2 true; DropHandle 2; Poll 1 false; Abort 0] eq_refl).
Defined.

(** A submission that is canceled after its end keeps its result. *)
Lemma submissions_get_results_witness :
  submissions (multi_run double ([MDispatch false 5] ++ MDispatch false 4 :: [MPoll 1; MCancel 0; MPoll 1; MCancel 1])) !! 1 =
    Some (mkSubmission None (Some 8) false true).
Proof.
  destruct (submissions_get_results double 4 [MDispatch false 5] [MPoll 1; MCancel 0; MPoll 1; MCancel 1]) as (_ & H & _).
  exact (H [MPoll 1; MCancel 0] [MCancel 1] eq_refl eq_refl).
Defined.
End Cases.
