(* ===== verification/JsScript.v ===== *)
(** * What a browser does with the scripts of a response

    The data of the server reach the browser as the text of scripts.  This file
    is the part of JavaScript (ECMAScript, sloppy mode as in an inline script)
    that these scripts are written in, executable: texts are lists of code points, a lexer
    with the escapes of string literals, and assignments to global variables,
    their fields, and [push].  A text outside of this part has no meaning here
    ([None]), as is one that throws. *)

From Stdlib Require Import NArith Ascii.
From stdpp Require Import base list gmap strings.
From S2P Require Import Prelude.

Open Scope N_scope.

(** A character is a code point. *)
Abbreviation text := (list N).
Definition txt (s : string) : text := N_of_ascii <$> String.list_ascii_of_string s.
Definition ch (s : string) : N := default 0 (head (txt s)).

(** ** Lexer *)

Inductive token :=
| TIdent (s : text)
| TStr (s : text)
| TPunct (c : N).

(** Where the lexer is; in a string, with the characters so far *)
Inductive lex_mode :=
| Plain
| InIdent (acc : text)
| InStr (acc : text)
| InEscape (acc : text)
| InOctal (acc : text) (v : N) (more : nat)
| InU (acc : text)
| InU4 (acc : text) (v : N) (more : nat)
| InUBrace (acc : text) (v : N).

Definition between (a b c : N) : bool := (a <=? c) && (c <=? b).
Definition is_ident (c : N) : bool :=
  between 65 90 c || between 97 122 c || (c =? 95) || (c =? 36) || between 48 57 c.
Definition is_space (c : N) : bool := (c =? 32) || (c =? 9) || (c =? 10) || (c =? 13).
Definition is_punct (c : N) : bool := bool_decide (c ∈ txt "={}[](),.;:").
Definition hex_value (c : N) : option N :=
  if between 48 57 c then Some (c - 48)
  else if between 97 102 c then Some (c - 87)
  else if between 65 70 c then Some (c - 55)
  else None.
Definition is_surrogate (v : N) : bool := between 55296 57343 v.

Definition step_plain (c : N) : option (list token * lex_mode) :=
  if c =? 34 then Some ([], InStr [])
  else if is_ident c then Some ([], InIdent [c])
  else if is_space c then Some ([], Plain)
  else if is_punct c then Some ([TPunct c], Plain)
  else None.

(** A character of a string: the quotation mark ends it, lines do not. *)
Definition step_str (acc : text) (c : N) : option (list token * lex_mode) :=
  if c =? 34 then Some ([TStr acc], Plain)
  else if c =? 92 then Some ([], InEscape acc)
  else if (c =? 10) || (c =? 13) then None
  else Some ([], InStr (acc ++ [c])).

Definition step (m : lex_mode) (c : N) : option (list token * lex_mode) :=
  match m with
  | Plain => step_plain c
  | InIdent acc =>
      if is_ident c then Some ([], InIdent (acc ++ [c]))
      else '(ts, m) ← step_plain c; Some (TIdent acc :: ts, m)
  | InStr acc => step_str acc c
  | InEscape acc =>
      if bool_decide (c ∈ [34; 39; 92; 47]) then Some ([], InStr (acc ++ [c]))
      else if c =? ch "n" then Some ([], InStr (acc ++ [10]))
      else if c =? ch "r" then Some ([], InStr (acc ++ [13]))
      else if c =? ch "t" then Some ([], InStr (acc ++ [9]))
      else if c =? ch "0" then Some ([], InOctal acc 0 2)
      else if c =? ch "u" then Some ([], InU acc)
      else None
  | InOctal acc v more =>
      (* an octal escape takes up to three digits *)
      if between 48 55 c && (0 <? more)%nat then Some ([], InOctal acc (8 * v + (c - 48)) (more - 1))
      else step_str (acc ++ [v]) c
  | InU acc =>
      if c =? ch "{" then Some ([], InUBrace acc 0)
      else d ← hex_value c; Some ([], InU4 acc d 3)
  | InU4 acc v more =>
      d ← hex_value c;
      let v := 16 * v + d in
      if (more =? 1)%nat then (if is_surrogate v then None else Some ([], InStr (acc ++ [v])))
      else Some ([], InU4 acc v (more - 1))
  | InUBrace acc v =>
      if c =? ch "}" then (if (1114111 <? v) || is_surrogate v then None else Some ([], InStr (acc ++ [v])))
      else d ← hex_value c; Some ([], InUBrace acc (16 * v + d))
  end.

Fixpoint lex_from (m : lex_mode) (s : text) : option (list token * lex_mode) :=
  match s with
  | [] => Some ([], m)
  | c :: s => '(t, m) ← step m c; '(t', m) ← lex_from m s; Some (t ++ t', m)
  end.

Definition tokens (s : text) : option (list token) :=
  match lex_from Plain s with
  | Some (ts, Plain) => Some ts
  | Some (ts, InIdent acc) => Some (ts ++ [TIdent acc])
  | _ => None
  end.

(** ** Values *)

Inductive js :=
| JStr (s : text)
| JArr (vs : list js)
| JObj (fs : list (text * js)).

(** A property that is there already gets another value. *)
Fixpoint obj_set (k : text) (v : js) (fs : list (text * js)) : list (text * js) :=
  match fs with
  | [] => [(k, v)]
  | (k', v') :: fs => if decide (k = k') then (k, v) :: fs else (k', v') :: obj_set k v fs
  end.

Fixpoint obj_get (k : text) (fs : list (text * js)) : option js :=
  match fs with
  | [] => None
  | (k', v) :: fs => if decide (k = k') then Some v else obj_get k fs
  end.

Definition punct (s : string) : token := TPunct (ch s).
#[global] Instance token_eq_dec : EqDecision token.
Proof. solve_decision. Defined.

(** Takes a token that has to be there *)
Definition expect (t : token) (ts : list token) : option (list token) :=
  match ts with
  | t' :: ts => if decide (t = t') then Some ts else None
  | [] => None
  end.

Fixpoint parse_value (n : nat) (ts : list token) : option (js * list token) :=
  match n with
  | O => None
  | S n =>
      match ts with
      | TStr s :: ts => Some (JStr s, ts)
      | TPunct c :: ts =>
          if c =? ch "[" then '(vs, ts) ← parse_elems n ts; Some (JArr vs, ts)
          else if c =? ch "{" then '(fs, ts) ← parse_fields n ts []; Some (JObj fs, ts)
          else None
      | _ => None
      end
  end
with parse_elems (n : nat) (ts : list token) : option (list js * list token) :=
  match n with
  | O => None
  | S n =>
      match expect (punct "]") ts with
      | Some ts => Some ([], ts)
      | None =>
          '(v, ts) ← parse_value n ts;
          match expect (punct ",") ts with
          | Some ts => '(vs, ts) ← parse_elems n ts; Some (v :: vs, ts)
          | None => ts ← expect (punct "]") ts; Some ([v], ts)
          end
      end
  end
with parse_fields (n : nat) (ts : list token) (fs : list (text * js)) : option (list (text * js) * list token) :=
  match n with
  | O => None
  | S n =>
      match ts with
      | TStr k :: ts =>
          ts ← expect (punct ":") ts;
          '(v, ts) ← parse_value n ts;
          let fs := obj_set k v fs in
          match expect (punct ",") ts with
          | Some ts => parse_fields n ts fs
          | None => ts ← expect (punct "}") ts; Some (fs, ts)
          end
      | _ => ts ← expect (punct "}") ts; Some (fs, ts)
      end
  end.

(** ** Statements *)

Abbreviation globals := (gmap text js).

(** [x = v;] or [x.push(v);] or [x["k"] = v;], as often as they come *)
Fixpoint exec_stmts (n : nat) (ts : list token) (g : globals) : option globals :=
  match n with
  | O => None
  | S n =>
      match ts with
      | [] => Some g
      | TIdent x :: TPunct c :: ts =>
          if c =? ch "=" then
            '(v, ts) ← parse_value n ts; ts ← expect (punct ";") ts;
            exec_stmts n ts (<[x := v]> g)
          else if c =? ch "." then
            ts ← expect (TIdent (txt "push")) ts; ts ← expect (punct "(") ts;
            '(v, ts) ← parse_value n ts;
            ts ← expect (punct ")") ts; ts ← expect (punct ";") ts;
            match g !! x with
            | Some (JArr vs) => exec_stmts n ts (<[x := JArr (vs ++ [v])]> g)
            | _ => None
            end
          else if c =? ch "[" then
            match ts with
            | TStr k :: ts =>
                ts ← expect (punct "]") ts; ts ← expect (punct "=") ts;
                '(v, ts) ← parse_value n ts; ts ← expect (punct ";") ts;
                match g !! x with
                | Some (JObj fs) => exec_stmts n ts (<[x := JObj (obj_set k v fs)]> g)
                | _ => None
                end
            | _ => None
            end
          else None
      | _ => None
      end
  end.

(** The text of a script, and scripts one after the other *)
Definition exec_script (s : text) (g : globals) : option globals :=
  ts ← tokens s; exec_stmts (S (length ts + length ts)) ts g.

Definition exec_scripts (ss : list text) (g : globals) : option globals :=
  foldl (λ g s, g ← g; exec_script s g) (Some g) ss.

Close Scope N_scope.
