(* ===== verification/Attributes.v ===== *)
(** * Attributes of elements

    [tachys/src/html]: attributes with a key ([attribute/value.rs],
    [attribute/custom.rs]), classes ([class.rs]), styles ([style.rs]), the inner
    HTML ([element/inner_html.rs]), their tuples ([attribute/mod.rs]) and the
    erased attributes ([attribute/any_attribute.rs], [erased.rs]).  All of them
    act on one element of the browser, to which their states keep a reference.
    Values of the string types are texts, as are those that they are converted
    to when their type is erased.  DOM properties, event handlers, directives
    and reactive attributes are left out. *)

From Stdlib Require Import NArith.
From stdpp Require Import base list gmap strings pretty.
From S2P Require Import Prelude JsScript.

Open Scope N_scope.

(** ** The element

    A script sees these parts of an element.  The attributes [class] and [style]
    are seen through [classList] and [style] only. *)
Inductive cell :=
| CAttr (key : text)
| CClass (name : text)
| CCss (property : text)
| CInner.

#[export] Instance cell_eq_dec : EqDecision cell.
Proof. solve_decision. Defined.

Definition key_class : text := txt "class".
Definition key_style : text := txt "style".

(** What a browser makes of texts: the value that a style sheet text declares
    for a property, the value that [setProperty] sets ([None] if it is refused),
    the names of properties that do not stand for others, and the contents that
    an inner HTML is parsed to ([None] if there are none). *)
Class Browser := {
  css_declared : text → text → option text;
  css_value : text → text → option text;
  css_longhand : text → bool;
  inner_contents : text → option text;
}.

(** The methods of [Rndr] for attributes *)
Class Element (E : Type) := {
  look : E → cell → option text;
  new_element : E;
  set_attribute : text → text → E → E;
  remove_attribute : text → E → E;
  add_class : text → E → E;
  remove_class : text → E → E;
  set_css_property : text → text → E → E;
  remove_css_property : text → E → E;
  set_inner_html : text → E → E;
}.

(** ** Values *)

Inductive attr_value :=
| VUnit
| VStr (s : text)
| VBool (b : bool)
| VInt (n : Z)
| VNone
| VSome (v : attr_value).

Inductive class_value :=
| CStr (s : text)
| CToggle (name : text) (include : bool)
| CNone
| CSome (c : class_value).

Inductive css_property :=
| PStr (s : text)
| POption (o : option text).

Inductive style_value :=
| SStr (s : text)
| SPair (name : text) (v : css_property)
| SNone
| SSome (s : style_value).

Inductive inner_value :=
| IStr (s : text)
| INone
| ISome (i : inner_value).

(** The types of values, which [TypeId] tells apart *)
Inductive value_type := TVUnit | TVStr | TVBool | TVInt | TVOption (t : value_type).
Inductive class_type := TCStr | TCToggle | TCOption (t : class_type).
Inductive style_type := TSStr | TSPair (option_value : bool) | TSOption (t : style_type).
Inductive inner_type := TIStr | TIOption (t : inner_type).
Inductive attr_type :=
| TUnit
| TValue (key : text) (t : value_type)
| TCustom (t : value_type)
| TClass (t : class_type)
| TStyle (t : style_type)
| TInner (t : inner_type)
| TPair (t u : attr_type)
| TAny
| TVec.

#[export] Instance value_type_eq_dec : EqDecision value_type.
Proof. solve_decision. Defined.
#[export] Instance class_type_eq_dec : EqDecision class_type.
Proof. solve_decision. Defined.
#[export] Instance style_type_eq_dec : EqDecision style_type.
Proof. solve_decision. Defined.
#[export] Instance inner_type_eq_dec : EqDecision inner_type.
Proof. solve_decision. Defined.
#[export] Instance attr_type_eq_dec : EqDecision attr_type.
Proof. solve_decision. Defined.

(** An attribute; tuples are nested pairs, and an erased attribute carries the
    type of what is inside. *)
Inductive attr :=
| AUnit
| AValue (key : text) (v : attr_value)
| ACustom (key : text) (v : attr_value)
| AClass (c : class_value)
| AStyle (s : style_value)
| AInner (i : inner_value)
| APair (a b : attr)
| AAny (type_id : attr_type) (value : attr)
| AVec (l : list attr).

Inductive NamedAttributeKey :=
| KAttribute (key : text)
| KInnerHtml.

(** The state of a value, class, style or inner HTML is a value of its type, the
    one that was shown last. *)
Inductive attr_state :=
| StUnit
| StValue (v : attr_value)
| StClass (c : class_value)
| StStyle (s : style_value)
| StInner (i : inner_value)
| StPair (s s' : attr_state)
| StAny (type_id : attr_type) (s : attr_state) (keys : list NamedAttributeKey)
| StVec (l : list attr_state).

Definition to_string (n : Z) : text := txt (pretty n).

(** [Attribute::keys] *)
Fixpoint keys (a : attr) : list NamedAttributeKey :=
  match a with
  | AUnit => []
  | AValue key _ | ACustom key _ => [KAttribute key]
  | AClass _ => [KAttribute key_class]
  | AStyle _ => [KAttribute key_style]
  | AInner _ => [KInnerHtml]
  | APair a b => keys a ++ keys b
  | AAny _ a => keys a
  | AVec l => l ≫= keys
  end.

(** [IntoAnyAttribute::into_any_attr] of a value of the type [t] *)
Definition into_any_attr (t : attr_type) (a : attr) : attr := AAny t a.

(** [NextAttribute::add_any_attr], without the configuration that erases the
    types of components *)
Definition add_any_attr (a : attr) (t : attr_type) (new_attr : attr) : attr :=
  match a with
  | AUnit => new_attr
  | AAny _ _ => AVec [a; into_any_attr t new_attr]
  | AVec l => AVec (l ++ [into_any_attr t new_attr])
  | _ => APair a new_attr
  end.

(** ** Printing *)

Section printing.
(** [html_escape::encode_double_quoted_attribute] *)
Variable escape_attr : text → text.

Definition str_value_to_html (s key buf : text) : text :=
  buf ++ txt " " ++ key ++ [ch "="; 34] ++ escape_attr s ++ [34].

Fixpoint value_to_html (v : attr_value) (key buf : text) : text :=
  match v with
  | VUnit | VNone => buf
  | VStr s => str_value_to_html s key buf
  | VBool b => if b then buf ++ txt " " ++ key else buf
  | VInt n => str_value_to_html (to_string n) key buf
  | VSome v => value_to_html v key buf
  end.

Definition should_overwrite (c : class_value) : bool :=
  match c with CStr _ => true | _ => false end.
Fixpoint class_value_to_html (c : class_value) (class : text) : text :=
  match c with
  | CStr s => class ++ s
  | CToggle name include => if include then class ++ name else class
  | CNone => class
  | CSome c => class_value_to_html c class
  end.
(** The attribute [Class] *)
Definition class_to_html (c : class_value) (class : text) : text :=
  let class := if should_overwrite c then [] else class in
  class_value_to_html c (class ++ txt " ").

Definition declaration (name value : text) : text := name ++ txt ":" ++ value ++ txt ";".
Definition property_to_html (v : css_property) (name style : text) : text :=
  match v with
  | PStr s | POption (Some s) => style ++ declaration name s
  | POption None => style
  end.
Fixpoint style_to_html (s : style_value) (style : text) : text :=
  match s with
  | SStr s => style ++ s ++ txt ";"
  | SPair name v => property_to_html v name style
  | SNone => style
  | SSome s => style_to_html s style
  end.

Fixpoint inner_to_html (i : inner_value) (inner_html : text) : text :=
  match i with
  | IStr s => inner_html ++ s
  | INone => inner_html
  | ISome i => inner_to_html i inner_html
  end.

(** The four buffers *)
Record buffers := mkBuffers { buf : text; class : text; style : text; inner_html : text }.

(** [Attribute::to_html] *)
Fixpoint attr_to_html (a : attr) (b : buffers) : buffers :=
  match a with
  | AUnit => b
  | AValue key v | ACustom key v =>
      mkBuffers (value_to_html v key (buf b)) (class b) (style b) (inner_html b)
  | AClass c => mkBuffers (buf b) (class_to_html c (class b)) (style b) (inner_html b)
  | AStyle s => mkBuffers (buf b) (class b) (style_to_html s (style b)) (inner_html b)
  | AInner i => mkBuffers (buf b) (class b) (style b) (inner_to_html i (inner_html b))
  | APair a1 a2 => attr_to_html a2 (attr_to_html a1 b)
  | AAny _ a => attr_to_html a b
  | AVec l => (fix go (l : list attr) (b : buffers) : buffers :=
                 match l with [] => b | a :: l => go l (attr_to_html a b) end) l b
  end.

(** [char::is_whitespace], [str::trim_start] and [str::trim_end] *)
Definition is_whitespace (c : N) : bool :=
  between 9 13 c || (c =? 32) || (c =? 133) || (c =? 160) || (c =? 5760) ||
  between 8192 8202 c || (c =? 8232) || (c =? 8233) || (c =? 8239) || (c =? 8287) || (c =? 12288).
Fixpoint trim_start (s : text) : text :=
  match s with
  | c :: s' => if is_whitespace c then trim_start s' else s
  | [] => []
  end.
Definition trim_end (s : text) : text := reverse (trim_start (reverse s)).

Definition push_attribute (key value buf : text) : text :=
  if decide (value = []) then buf
  else buf ++ txt " " ++ key ++ [ch "="; 34] ++ escape_attr (trim_end (trim_start value)) ++ [34].

(** The attributes in the buffer, and the inner HTML *)
Definition attributes_to_html (a : attr) (out : text) : text * text :=
  let b := attr_to_html a (mkBuffers out [] [] []) in
  (push_attribute key_style (style b) (push_attribute key_class (class b) (buf b)), inner_html b).
End printing.

(** ** Building, rebuilding and hydrating *)

Section element.
Context {E : Type} `{Element E}.

Definition nothing : stateM E unit := mret tt.

Fixpoint value_build (key : text) (v : attr_value) : stateM E attr_value :=
  match v with
  | VUnit => mret VUnit
  | VStr s => _ ← modify (set_attribute key s); mret (VStr s)
  | VBool b => _ ← (if b then modify (set_attribute key []) else nothing); mret (VBool b)
  | VInt n => _ ← modify (set_attribute key (to_string n)); mret (VInt n)
  | VNone => mret VNone
  | VSome v => s ← value_build key v; mret (VSome s)
  end.

(** A state of another type is what a wrong downcast would give: it panics. *)
Fixpoint value_rebuild (key : text) (v prev : attr_value) : stateM E attr_value :=
  match v, prev with
  | VUnit, VUnit => mret VUnit
  | VStr s, VStr prev =>
      _ ← (if decide (s = prev) then nothing else modify (set_attribute key s)); mret (VStr s)
  | VBool b, VBool prev =>
      _ ← (if bool_decide (b = prev) then nothing
           else if b then modify (set_attribute key []) else modify (remove_attribute key));
      mret (VBool b)
  | VInt n, VInt prev =>
      _ ← (if decide (n = prev) then nothing else modify (set_attribute key (to_string n)));
      mret (VInt n)
  | VNone, VNone => mret VNone
  | VNone, VSome _ => _ ← modify (remove_attribute key); mret VNone
  | VSome v, VNone => s ← value_build key v; mret (VSome s)
  | VSome v, VSome prev => s ← value_rebuild key v prev; mret (VSome s)
  | _, _ => panics
  end.

Fixpoint value_hydrate (from_server : bool) (key : text) (v : attr_value) : stateM E attr_value :=
  match v with
  | VUnit => mret VUnit
  | VStr s => _ ← (if from_server then nothing else modify (set_attribute key s)); mret (VStr s)
  | VBool b => _ ← (if from_server then nothing else modify (set_attribute key [])); mret (VBool b)
  | VInt n =>
      _ ← (if from_server then nothing else modify (set_attribute key (to_string n))); mret (VInt n)
  | VNone => mret VNone
  | VSome v => s ← value_hydrate from_server key v; mret (VSome s)
  end.

(** *** Classes *)

Fixpoint class_build (c : class_value) : stateM E class_value :=
  match c with
  | CStr s => _ ← modify (set_attribute key_class s); mret (CStr s)
  | CToggle name include =>
      _ ← (if include then modify (add_class name) else nothing); mret (CToggle name include)
  | CNone => mret CNone
  | CSome c => s ← class_build c; mret (CSome s)
  end.

Fixpoint class_reset (prev : class_value) : stateM E unit :=
  match prev with
  | CStr _ => modify (remove_attribute key_class)
  | CToggle name _ => modify (remove_class name)
  | CNone => nothing
  | CSome prev => class_reset prev
  end.

Fixpoint class_rebuild (c prev : class_value) : stateM E class_value :=
  match c, prev with
  | CStr s, CStr prev =>
      _ ← (if decide (s = prev) then nothing else modify (set_attribute key_class s)); mret (CStr s)
  | CToggle name include, CToggle prev_name prev_include =>
      _ ← (if decide (name = prev_name) then
             if bool_decide (include = prev_include) then nothing
             else if include then modify (add_class name) else modify (remove_class name)
           else
             _ ← (if prev_include then modify (remove_class prev_name) else nothing);
             if include then modify (add_class name) else nothing);
      mret (CToggle name include)
  | CNone, CNone => mret CNone
  | CNone, CSome prev => _ ← class_reset prev; mret CNone
  | CSome c, CNone => s ← class_build c; mret (CSome s)
  | CSome c, CSome prev => s ← class_rebuild c prev; mret (CSome s)
  | _, _ => panics
  end.

Fixpoint class_hydrate (from_server : bool) (c : class_value) : stateM E class_value :=
  match c with
  | CStr s => _ ← (if from_server then nothing else modify (set_attribute key_class s)); mret (CStr s)
  | CToggle name include =>
      _ ← (if negb from_server && include then modify (add_class name) else nothing);
      mret (CToggle name include)
  | CNone => mret CNone
  | CSome c => s ← class_hydrate from_server c; mret (CSome s)
  end.

(** *** Styles *)

Definition property_build (name : text) (v : css_property) : stateM E css_property :=
  match v with
  | PStr s => _ ← modify (set_css_property name s); mret (PStr s)
  | POption (Some s) => _ ← modify (set_css_property name s); mret (POption (Some s))
  | POption None => mret (POption None)
  end.

Definition property_rebuild (name : text) (v prev : css_property) : stateM E css_property :=
  match v, prev with
  | PStr s, PStr prev =>
      _ ← (if decide (s = prev) then nothing else modify (set_css_property name s)); mret (PStr s)
  | POption new, POption old =>
      _ ← match old, new with
          | None, None => nothing
          | Some _, None => modify (remove_css_property name)
          | None, Some value => modify (set_css_property name value)
          | Some old, Some new =>
              if decide (new = old) then nothing else modify (set_css_property name new)
          end;
      mret (POption new)
  | _, _ => panics
  end.

(** [IntoStyleValue::hydrate] *)
Definition property_hydrate (v : css_property) : stateM E css_property := mret v.

Fixpoint style_build (s : style_value) : stateM E style_value :=
  match s with
  | SStr s => _ ← modify (set_attribute key_style s); mret (SStr s)
  | SPair name v => st ← property_build name v; mret (SPair name st)
  | SNone => mret SNone
  | SSome s => st ← style_build s; mret (SSome st)
  end.

Fixpoint style_reset (prev : style_value) : stateM E unit :=
  match prev with
  | SStr _ => modify (remove_attribute key_style)
  | SPair name _ => modify (remove_css_property name)
  | SNone => nothing
  | SSome prev => style_reset prev
  end.

Fixpoint style_rebuild (s prev : style_value) : stateM E style_value :=
  match s, prev with
  | SStr s, SStr prev =>
      _ ← (if decide (s = prev) then nothing else modify (set_attribute key_style s)); mret (SStr s)
  | SPair name v, SPair prev_name old =>
      if decide (name = prev_name) then
        st ← property_rebuild name v old; mret (SPair prev_name st)
      else
        _ ← style_reset prev; st ← property_build name v; mret (SPair prev_name st)
  | SNone, SNone => mret SNone
  | SNone, SSome prev => _ ← style_reset prev; mret SNone
  | SSome s, SNone => st ← style_build s; mret (SSome st)
  | SSome s, SSome prev => st ← style_rebuild s prev; mret (SSome st)
  | _, _ => panics
  end.

Fixpoint style_hydrate (from_server : bool) (s : style_value) : stateM E style_value :=
  match s with
  | SStr s => mret (SStr s)
  | SPair name v => st ← property_hydrate v; mret (SPair name st)
  | SNone => mret SNone
  | SSome s => st ← style_hydrate from_server s; mret (SSome st)
  end.

(** *** Inner HTML *)

Fixpoint inner_build (i : inner_value) : stateM E inner_value :=
  match i with
  | IStr s => _ ← modify (set_inner_html s); mret (IStr s)
  | INone => mret INone
  | ISome i => s ← inner_build i; mret (ISome s)
  end.

Fixpoint inner_rebuild (i prev : inner_value) : stateM E inner_value :=
  match i, prev with
  | IStr s, IStr prev =>
      if decide (s = prev) then mret (IStr prev) else _ ← modify (set_inner_html s); mret (IStr s)
  | INone, INone => mret INone
  | INone, ISome _ => _ ← modify (set_inner_html []); mret INone
  | ISome i, INone => s ← inner_build i; mret (ISome s)
  | ISome i, ISome prev => s ← inner_rebuild i prev; mret (ISome s)
  | _, _ => panics
  end.

Fixpoint inner_hydrate (from_server : bool) (i : inner_value) : stateM E inner_value :=
  match i with
  | IStr s => _ ← (if from_server then nothing else modify (set_inner_html s)); mret (IStr s)
  | INone => mret INone
  | ISome i => s ← inner_hydrate from_server i; mret (ISome s)
  end.

(** *** Attributes *)

Fixpoint build (a : attr) : stateM E attr_state :=
  match a with
  | AUnit => mret StUnit
  | AValue key v | ACustom key v => s ← value_build key v; mret (StValue s)
  | AClass c => s ← class_build c; mret (StClass s)
  | AStyle s => s ← style_build s; mret (StStyle s)
  | AInner i => s ← inner_build i; mret (StInner s)
  | APair a b => s ← build a; s' ← build b; mret (StPair s s')
  | AAny t a => s ← build a; mret (StAny t s (keys a))
  | AVec l =>
      l ← (fix go (l : list attr) : stateM E (list attr_state) :=
             match l with
             | [] => mret []
             | a :: l => s ← build a; l ← go l; mret (s :: l)
             end) l;
      mret (StVec l)
  end.

(** The key of an attribute that has been erased is removed with its cells. *)
Definition remove_key (k : NamedAttributeKey) : stateM E unit :=
  match k with
  | KAttribute key => modify (remove_attribute key)
  | KInnerHtml => modify (set_inner_html [])
  end.
Definition state_keys (s : attr_state) : list NamedAttributeKey :=
  match s with StAny _ _ keys => keys | _ => [] end.

Fixpoint rebuild (a : attr) (state : attr_state) : stateM E attr_state :=
  match a, state with
  | AUnit, StUnit => mret StUnit
  | AValue key v, StValue prev | ACustom key v, StValue prev =>
      s ← value_rebuild key v prev; mret (StValue s)
  | AClass c, StClass prev => s ← class_rebuild c prev; mret (StClass s)
  | AStyle s, StStyle prev => s ← style_rebuild s prev; mret (StStyle s)
  | AInner i, StInner prev => s ← inner_rebuild i prev; mret (StInner s)
  | APair a b, StPair s s' => s ← rebuild a s; s' ← rebuild b s'; mret (StPair s s')
  | AAny t a, StAny type_id s keys =>
      if decide (t = type_id) then s ← rebuild a s; mret (StAny type_id s keys)
      else build (AAny t a)
  | AVec l, StVec state =>
      _ ← for_each (λ old, for_each remove_key (state_keys old)) state;
      build (AVec l)
  | _, _ => panics
  end.

Fixpoint hydrate (from_server : bool) (a : attr) : stateM E attr_state :=
  match a with
  | AUnit => mret StUnit
  | AValue key v => s ← value_hydrate from_server key v; mret (StValue s)
  | ACustom key v => s ← value_build key v; mret (StValue s)
  | AClass c => s ← class_hydrate from_server c; mret (StClass s)
  | AStyle s => s ← style_hydrate from_server s; mret (StStyle s)
  | AInner i => s ← inner_hydrate from_server i; mret (StInner s)
  | APair a b => s ← hydrate from_server a; s' ← hydrate from_server b; mret (StPair s s')
  | AAny t a => s ← hydrate from_server a; mret (StAny t s (keys a))
  | AVec l =>
      l ← (fix go (l : list attr) : stateM E (list attr_state) :=
             match l with
             | [] => mret []
             | a :: l => s ← hydrate from_server a; l ← go l; mret (s :: l)
             end) l;
      mret (StVec l)
  end.
End element.
