(* ===== verification/AttrFacts.v ===== *)
(** * What attributes write

    The documented behaviour of the browser's methods as laws, types of
    attributes and of their states, and what a build or a rebuild writes to the
    cells of the element. *)

From Stdlib Require Import NArith.
From stdpp Require Import base list gmap strings.
From S2P Require Import Prelude JsScript Attributes.

Open Scope N_scope.

(** ** The laws of the browser *)

(** White space in HTML, the classes in a text, names of attributes and classes *)
Definition is_html_space (c : N) : bool :=
  (c =? 9) || (c =? 10) || (c =? 12) || (c =? 13) || (c =? 32).
Fixpoint split_tokens (s word : text) : list text :=
  match s with
  | [] => if decide (word = []) then [] else [word]
  | c :: s =>
      if is_html_space c then
        if decide (word = []) then split_tokens s [] else word :: split_tokens s []
      else split_tokens s (word ++ [c])
  end.
Definition tokens (s : text) : list text := split_tokens s [].

Definition name_char (c : N) : bool :=
  between 97 122 c || between 48 57 c || (c =? 45) || (c =? 46) || (c =? 58) || (c =? 95).
Definition attr_name (k : text) : bool := bool_decide (k ≠ []) && forallb name_char k.
Definition class_token (n : text) : bool :=
  bool_decide (n ≠ []) && forallb (λ c, negb (is_html_space c)) n.

(** The cells that the laws speak about *)
Definition visible `{Browser} (c : cell) : Prop :=
  match c with
  | CAttr k => k ≠ key_class ∧ k ≠ key_style
  | CClass n => class_token n
  | CCss p => css_longhand p
  | CInner => True
  end.

(** What is written to a cell: nothing, or its new content *)
Abbreviation write := (cell → option (option text)).
Definition no_write : write := λ _, None.
Definition over (w w' : write) : write := λ c, match w' c with Some x => Some x | None => w c end.

Definition write_attribute `{Browser} (k : text) (value : option text) : write := λ c,
  match c with
  | CAttr k' => if decide (k' = k) then Some value else None
  | CClass n => if decide (k = key_class)
                then Some (v ← value; if decide (n ∈ tokens v) then Some [] else None) else None
  | CCss p => if decide (k = key_style) then Some (v ← value; css_declared v p) else None
  | CInner => None
  end.
Definition write_cell (c : cell) (value : option text) : write := λ c',
  if decide (c' = c) then Some value else None.
Definition write_css `{Browser} (p v : text) : write :=
  if decide (v = []) then write_cell (CCss p) None
  else match css_value p v with Some x => write_cell (CCss p) (Some x) | None => no_write end.

Definition writes `{Browser} `{Element E} (w : write) (e e' : E) : Prop :=
  ∀ c, visible c → look e' c = match w c with Some x => x | None => look e c end.

Class ElementLaws (E : Type) `{Browser} `{Element E} := {
  inner_contents_nil : inner_contents [] = None;
  look_new c : visible c → look new_element c = None;
  writes_set_attribute k v e : attr_name k → writes (write_attribute k (Some v)) e (set_attribute k v e);
  writes_remove_attribute k e : attr_name k → writes (write_attribute k None) e (remove_attribute k e);
  writes_add_class n e : class_token n → writes (write_cell (CClass n) (Some [])) e (add_class n e);
  writes_remove_class n e : class_token n → writes (write_cell (CClass n) None) e (remove_class n e);
  writes_set_css p v e : css_longhand p → writes (write_css p v) e (set_css_property p v e);
  writes_remove_css p e : css_longhand p → writes (write_cell (CCss p) None) e (remove_css_property p e);
  writes_set_inner s e : writes (write_cell CInner (inner_contents s)) e (set_inner_html s e);
}.

(** ** Types *)

Fixpoint value_has_type (v : attr_value) (t : value_type) : bool :=
  match v, t with
  | VUnit, TVUnit | VStr _, TVStr | VBool _, TVBool | VInt _, TVInt | VNone, TVOption _ => true
  | VSome v, TVOption t => value_has_type v t
  | _, _ => false
  end.
Fixpoint class_has_type (c : class_value) (t : class_type) : bool :=
  match c, t with
  | CStr _, TCStr | CToggle _ _, TCToggle | CNone, TCOption _ => true
  | CSome c, TCOption t => class_has_type c t
  | _, _ => false
  end.
Definition property_has_type (v : css_property) (option_value : bool) : bool :=
  match v with PStr _ => negb option_value | POption _ => option_value end.
Fixpoint style_has_type (s : style_value) (t : style_type) : bool :=
  match s, t with
  | SStr _, TSStr | SNone, TSOption _ => true
  | SPair _ v, TSPair o => property_has_type v o
  | SSome s, TSOption t => style_has_type s t
  | _, _ => false
  end.
Fixpoint inner_has_type (i : inner_value) (t : inner_type) : bool :=
  match i, t with
  | IStr _, TIStr | INone, TIOption _ => true
  | ISome i, TIOption t => inner_has_type i t
  | _, _ => false
  end.

Definition is_any (a : attr) : bool := match a with AAny _ _ => true | _ => false end.
Fixpoint has_type (a : attr) (t : attr_type) : bool :=
  match a, t with
  | AUnit, TUnit => true
  | AValue k v, TValue k' t => bool_decide (k = k') && value_has_type v t
  | ACustom _ v, TCustom t => value_has_type v t
  | AClass c, TClass t => class_has_type c t
  | AStyle s, TStyle t => style_has_type s t
  | AInner i, TInner t => inner_has_type i t
  | APair a b, TPair t u => has_type a t && has_type b u
  | AAny t a, TAny => has_type a t
  | AVec l, TVec => forallb (λ a, is_any a && has_type a TAny) l
  | _, _ => false
  end.

Definition is_any_state (s : attr_state) : bool := match s with StAny _ _ _ => true | _ => false end.
Fixpoint state_has_type (s : attr_state) (t : attr_type) : bool :=
  match s, t with
  | StUnit, TUnit => true
  | StValue v, TValue _ t | StValue v, TCustom t => value_has_type v t
  | StClass c, TClass t => class_has_type c t
  | StStyle s, TStyle t => style_has_type s t
  | StInner i, TInner t => inner_has_type i t
  | StPair s s', TPair t u => state_has_type s t && state_has_type s' u
  | StAny t s _, TAny => state_has_type s t
  | StVec l, TVec => forallb (λ s, is_any_state s && state_has_type s TAny) l
  | _, _ => false
  end.

(** Induction that reaches into the vectors *)
Fixpoint attr_ind' (P : attr → Prop)
    (Hunit : P AUnit) (Hvalue : ∀ k v, P (AValue k v)) (Hcustom : ∀ k v, P (ACustom k v))
    (Hclass : ∀ c, P (AClass c)) (Hstyle : ∀ s, P (AStyle s)) (Hinner : ∀ i, P (AInner i))
    (Hpair : ∀ a b, P a → P b → P (APair a b)) (Hany : ∀ t a, P a → P (AAny t a))
    (Hvec : ∀ l, Forall P l → P (AVec l)) (a : attr) : P a :=
  let go := attr_ind' P Hunit Hvalue Hcustom Hclass Hstyle Hinner Hpair Hany Hvec in
  match a with
  | AUnit => Hunit
  | AValue k v => Hvalue k v
  | ACustom k v => Hcustom k v
  | AClass c => Hclass c
  | AStyle s => Hstyle s
  | AInner i => Hinner i
  | APair a b => Hpair a b (go a) (go b)
  | AAny t a => Hany t a (go a)
  | AVec l => Hvec l ((fix all l : Forall P l :=
                         match l with
                         | [] => Forall_nil_2 P
                         | a :: l => Forall_cons_2 P a l (go a) (all l)
                         end) l)
  end.

(** ** Names *)

Definition plain_key (k : text) : bool :=
  attr_name k && bool_decide (k ≠ key_class) && bool_decide (k ≠ key_style).
Fixpoint class_names_ok (c : class_value) : bool :=
  match c with
  | CToggle n _ => class_token n
  | CSome c => class_names_ok c
  | _ => true
  end.
(** A value that the browser does not refuse *)
Definition css_ok `{Browser} (p v : text) : bool :=
  bool_decide (v = []) || match css_value p v with Some _ => true | None => false end.
Fixpoint style_names_ok `{Browser} (s : style_value) : bool :=
  match s with
  | SPair p (PStr v) | SPair p (POption (Some v)) => css_longhand p && css_ok p v
  | SPair p _ => css_longhand p
  | SSome s => style_names_ok s
  | _ => true
  end.
Fixpoint names_ok `{Browser} (a : attr) : bool :=
  match a with
  | AUnit | AInner _ => true
  | AValue k _ | ACustom k _ => plain_key k
  | AClass c => class_names_ok c
  | AStyle s => style_names_ok s
  | APair a b => names_ok a && names_ok b
  | AAny _ a => names_ok a
  | AVec l => forallb names_ok l
  end.

(** ** What a build writes, and the state it gives *)

Fixpoint value_written `{Browser} (k : text) (v : attr_value) : write :=
  match v with
  | VStr s => write_attribute k (Some s)
  | VBool true => write_attribute k (Some [])
  | VInt n => write_attribute k (Some (to_string n))
  | VSome v => value_written k v
  | _ => no_write
  end.
Fixpoint class_written `{Browser} (c : class_value) : write :=
  match c with
  | CStr s => write_attribute key_class (Some s)
  | CToggle n true => write_cell (CClass n) (Some [])
  | CSome c => class_written c
  | _ => no_write
  end.
Definition property_written `{Browser} (p : text) (v : css_property) : write :=
  match v with
  | PStr s | POption (Some s) => write_css p s
  | POption None => no_write
  end.
Fixpoint style_written `{Browser} (s : style_value) : write :=
  match s with
  | SStr s => write_attribute key_style (Some s)
  | SPair p v => property_written p v
  | SNone => no_write
  | SSome s => style_written s
  end.
Fixpoint inner_written `{Browser} (i : inner_value) : write :=
  match i with
  | IStr s => write_cell CInner (inner_contents s)
  | INone => no_write
  | ISome i => inner_written i
  end.
Fixpoint written `{Browser} (a : attr) : write :=
  match a with
  | AUnit => no_write
  | AValue k v | ACustom k v => value_written k v
  | AClass c => class_written c
  | AStyle s => style_written s
  | AInner i => inner_written i
  | APair a b => over (written a) (written b)
  | AAny _ a => written a
  | AVec l => (fix go l : write :=
                 match l with [] => no_write | a :: l => over (written a) (go l) end) l
  end.

Fixpoint shown (a : attr) : attr_state :=
  match a with
  | AUnit => StUnit
  | AValue _ v | ACustom _ v => StValue v
  | AClass c => StClass c
  | AStyle s => StStyle s
  | AInner i => StInner i
  | APair a b => StPair (shown a) (shown b)
  | AAny t a => StAny t (shown a) (keys a)
  | AVec l => StVec (shown <$> l)
  end.

(** What a new element shows after a build *)
Definition displays `{Browser} `{Element E} (a : attr) (e : E) : Prop :=
  ∀ c, visible c → look e c = mjoin (written a c).

(** ** Running the operations *)

Section facts.
Context `{Browser} {E : Type} `{!Element E} `{!ElementLaws E}.

Lemma writes_ext (w w' : write) (e e' : E) : (∀ c, w c = w' c) → writes w e e' → writes w' e e'.
Proof. intros Hw He c Hc. rewrite He by done. by rewrite Hw. Qed.
Lemma writes_over (w w' : write) (e e1 e2 : E) :
  writes w e e1 → writes w' e1 e2 → writes (over w w') e e2.
Proof.
  intros H1 H2 c Hc. rewrite H2, H1 by done. unfold over. by destruct (w' c), (w c).
Qed.
Lemma over_no_write w c : over w no_write c = w c.
Proof. done. Qed.
Lemma over_None w w' c : w c = None → w' c = None → over w w' c = None.
Proof. unfold over. by intros -> ->. Qed.
Lemma over_assoc w1 w2 w3 c : over (over w1 w2) w3 c = over w1 (over w2 w3) c.
Proof. unfold over. by destruct (w3 c), (w2 c). Qed.

(** [m] returns [x], and writes [w] to any element *)
Definition does {A} (m : stateM E A) (x : A) (w : write) : Prop :=
  ∀ e, ∃ e', m e = Ok (x, e') ∧ writes w e e'.

Lemma does_ret {A} (x : A) : does (mret x) x no_write.
Proof. intros e. exists e. done. Qed.
Lemma does_nothing : does nothing tt no_write.
Proof. apply does_ret. Qed.
Lemma does_modify f w : (∀ e, writes w e (f e)) → does (modify f) tt w.
Proof. intros Hf e. by exists (f e). Qed.
Lemma does_bind {A B} (m : stateM E A) (k : A → stateM E B) x y w w' :
  does m x w → does (k x) y w' → does (m ≫= k) y (over w w').
Proof.
  intros Hm Hk e. destruct (Hm e) as (e1&He1&Hw1), (Hk e1) as (e2&He2&Hw2).
  exists e2. split; [|by eapply writes_over].
  by rewrite (bind_Ok _ _ _ _ _ He1).
Qed.
Lemma does_then {A B} (m : stateM E A) x (y : B) w : does m x w → does (_ ← m; mret y) y w.
Proof.
  intros Hm e. destruct (Hm e) as (e1&He1&Hw1). exists e1. by rewrite (bind_Ok _ _ _ _ _ He1).
Qed.
Lemma does_seq {A} (m : stateM E unit) (k : stateM E A) y w w' :
  does m tt w → does k y w' → does (_ ← m; k) y (over w w').
Proof. intros. by eapply does_bind. Qed.
Lemma does_map {A B} (m : stateM E A) x (f : A → B) w : does m x w → does (s ← m; mret (f s)) (f x) w.
Proof.
  intros Hm e. destruct (Hm e) as (e1&He1&Hw1). exists e1. by rewrite (bind_Ok _ _ _ _ _ He1).
Qed.
Lemma does_ext {A} (m : stateM E A) x w w' : (∀ c, w c = w' c) → does m x w → does m x w'.
Proof. intros Hw Hm e. destruct (Hm e) as (e'&?&?). exists e'. eauto using writes_ext. Qed.

Lemma does_set_attribute k v : attr_name k → does (modify (set_attribute k v)) tt (write_attribute k (Some v)).
Proof. intros. by apply does_modify; intros; apply writes_set_attribute. Qed.
Lemma does_remove_attribute k : attr_name k → does (modify (remove_attribute k)) tt (write_attribute k None).
Proof. intros. by apply does_modify; intros; apply writes_remove_attribute. Qed.
Lemma does_add_class n : class_token n → does (modify (add_class n)) tt (write_cell (CClass n) (Some [])).
Proof. intros. by apply does_modify; intros; apply writes_add_class. Qed.
Lemma does_remove_class n : class_token n → does (modify (remove_class n)) tt (write_cell (CClass n) None).
Proof. intros. by apply does_modify; intros; apply writes_remove_class. Qed.
Lemma does_set_css p v : css_longhand p → does (modify (set_css_property p v)) tt (write_css p v).
Proof. intros. by apply does_modify; intros; apply writes_set_css. Qed.
Lemma does_remove_css p : css_longhand p → does (modify (remove_css_property p)) tt (write_cell (CCss p) None).
Proof. intros. by apply does_modify; intros; apply writes_remove_css. Qed.
Lemma does_set_inner s : does (modify (set_inner_html s)) tt (write_cell CInner (inner_contents s)).
Proof. apply does_modify; intros; apply writes_set_inner. Qed.

Lemma name_class : attr_name key_class.
Proof. done. Qed.
Lemma name_style : attr_name key_style.
Proof. done. Qed.
Lemma plain_name k : plain_key k → attr_name k.
Proof. unfold plain_key. naive_solver. Qed.
End facts.

Create HintDb attrs.
#[export] Hint Resolve does_ret does_nothing does_then does_seq does_map does_set_attribute does_remove_attribute
  does_add_class does_remove_class does_set_css does_remove_css does_set_inner
  name_class name_style plain_name : attrs.

(** *** Builds *)

Section builds.
Context `{Browser} {E : Type} `{!Element E} `{!ElementLaws E}.
Local Abbreviation does := (does (E := E)).

Lemma value_build_does k v : attr_name k → does (value_build k v) v (value_written k v).
Proof. intros Hk. induction v as [| |[]| | |]; simpl; eauto with attrs. Qed.
Lemma class_build_does c : class_names_ok c → does (class_build c) c (class_written c).
Proof. induction c as [|n []| |]; simpl; intros; eauto with attrs. Qed.
Lemma property_build_does p v :
  css_longhand p → does (property_build p v) v (property_written p v).
Proof. destruct v as [|[]]; simpl; eauto with attrs. Qed.
Lemma style_names_longhand p v : style_names_ok (SPair p v) → css_longhand p.
Proof. destruct v as [|[]]; simpl; naive_solver. Qed.
Lemma style_build_does s : style_names_ok s → does (style_build s) s (style_written s).
Proof.
  induction s as [|p v| |]; intros Hs; [simpl; eauto with attrs| |simpl; eauto with attrs..].
  apply style_names_longhand in Hs. simpl.
  apply (does_map (property_build p v)). by apply property_build_does.
Qed.
Lemma inner_build_does i : does (inner_build i) i (inner_written i).
Proof. induction i; simpl; eauto with attrs. Qed.

Lemma build_does a : names_ok a → does (build a) (shown a) (written a).
Proof.
  induction a as [|k v|k v|c|s|i|a b IHa IHb|t a IHa|l IHl] using attr_ind'; simpl; intros Ha.
  - apply does_ret.
  - apply (does_map _ _ StValue). apply value_build_does. auto with attrs.
  - apply (does_map _ _ StValue). apply value_build_does. auto with attrs.
  - apply (does_map _ _ StClass). by apply class_build_does.
  - apply (does_map _ _ StStyle). by apply style_build_does.
  - apply (does_map _ _ StInner). apply inner_build_does.
  - apply andb_prop_elim in Ha as [Ha Hb].
    eapply does_bind; [by apply IHa|]. apply (does_map _ _ (StPair (shown a))). by apply IHb.
  - apply (does_map _ _ (λ s, StAny t s (keys a))). by apply IHa.
  - apply (does_map _ _ StVec). induction IHl as [|a l Ha' _ IH]; simpl in *.
    + apply does_ret.
    + apply andb_prop_elim in Ha as [Ha Hl].
      eapply does_bind; [by apply Ha'|]. apply (does_map _ _ (cons (shown a))). by apply IH.
Qed.

Lemma build_displays a : names_ok a →
  ∃ e, build a new_element = Ok (shown a, e) ∧ displays a e.
Proof.
  intros Ha. destruct (build_does a Ha new_element) as (e&He&Hw). exists e. split; [done|].
  intros c Hc. rewrite Hw by done. rewrite look_new by done. by destruct (written a c).
Qed.
End builds.
