(* ===== verification/AttrProps.v ===== *)
(** * Rebuilding attributes

    After any rebuilds an element shows what a new element would show, as long
    as the parts of a tuple keep to their own cells and names do not change; and
    the states of attributes keep their types, so no downcast goes wrong. *)

From Stdlib Require Import NArith.
From stdpp Require Import base list gmap strings.
From S2P Require Import Prelude JsScript Attributes AttrFacts.

Open Scope N_scope.

(** ** The cells of a change

    The cells that two values of an attribute, or a rebuild from one to the
    other, may touch *)

Definition covers (k : NamedAttributeKey) (c : cell) : bool :=
  match k, c with
  | KAttribute k, CAttr k' => bool_decide (k' = k)
  | KAttribute k, CClass _ => bool_decide (k = key_class)
  | KAttribute k, CCss _ => bool_decide (k = key_style)
  | KInnerHtml, CInner => true
  | _, _ => false
  end.
Fixpoint class_span (c : class_value) (x : cell) : bool :=
  match c with
  | CStr _ => covers (KAttribute key_class) x
  | CToggle n _ => bool_decide (x = CClass n)
  | CNone => false
  | CSome c => class_span c x
  end.
Fixpoint class_touched (c c' : class_value) (x : cell) : bool :=
  match c, c' with
  | CStr s, CStr s' =>
      if decide (s = s') then match x with CClass n => bool_decide (n ∈ tokens s) | _ => false end
      else class_span c x
  | CSome c, CSome c' => class_touched c c' x
  | _, _ => class_span c x || class_span c' x
  end.
Fixpoint style_span (s : style_value) (x : cell) : bool :=
  match s with
  | SStr _ => covers (KAttribute key_style) x
  | SPair p _ => bool_decide (x = CCss p)
  | SNone => false
  | SSome s => style_span s x
  end.
Fixpoint style_touched `{Browser} (s s' : style_value) (x : cell) : bool :=
  match s, s' with
  | SStr t, SStr t' =>
      if decide (t = t') then match x with CCss p => bool_decide (is_Some (css_declared t p)) | _ => false end
      else style_span s x
  | SSome s, SSome s' => style_touched s s' x
  | _, _ => style_span s x || style_span s' x
  end.
Fixpoint touched `{Browser} (a a' : attr) (x : cell) : bool :=
  match a, a' with
  | AValue k _, AValue k' _ | ACustom k _, ACustom k' _ =>
      covers (KAttribute k) x || covers (KAttribute k') x
  | AClass c, AClass c' => class_touched c c' x
  | AStyle s, AStyle s' => style_touched s s' x
  | AInner _, AInner _ => covers KInnerHtml x
  | APair a b, APair a' b' => touched a a' x || touched b b' x
  | AAny _ a, AAny _ a' => touched a a' x
  | AVec l, AVec l' => existsb (λ k, covers k x) (keys (AVec l) ++ keys (AVec l'))
  | _, _ => false
  end.

(** Style properties keep their names. *)
Fixpoint style_same_names (s s' : style_value) : bool :=
  match s, s' with
  | SPair p _, SPair p' _ => bool_decide (p = p')
  | SSome s, SSome s' => style_same_names s s'
  | _, _ => true
  end.

(** The changes for which a rebuild is as good as a build *)
Fixpoint compatible `{Browser} (a a' : attr) : Prop :=
  match a, a' with
  | ACustom k _, ACustom k' _ => k = k'
  | AStyle s, AStyle s' => style_same_names s s'
  | APair a b, APair a' b' =>
      compatible a a' ∧ compatible b b' ∧
      ∀ x, visible x → touched a a' x →
        touched b b' x = false ∧ written b x = None ∧ written b' x = None
  | AAny t a, AAny t' a' => t = t' ∧ compatible a a'
  | _, _ => True
  end.

(** The state of an attribute, but for the keys of erased attributes, which only
    the vector that holds them reads *)
Fixpoint state_of (s : attr_state) (a : attr) : Prop :=
  match s, a with
  | StPair s s', APair a b => state_of s a ∧ state_of s' b
  | StAny t s _, AAny t' a => t = t' ∧ state_of s a
  | s, a => s = shown a
  end.

Lemma state_of_shown a : state_of (shown a) a.
Proof. induction a; simpl; auto. Qed.

Section updates.
Context `{Browser} {E : Type} `{!Element E} `{!ElementLaws E}.

(** [m] returns a result in [P] and turns [w] into [w'] on the cells of [F], when
    the element shows [w] there *)
Definition updates {A} (F : cell → bool) (w w' : write) (m : stateM E A) (P : A → Prop) : Prop :=
  ∀ e, (∀ c, visible c → F c → look e c = mjoin (w c)) →
  ∃ x e', m e = Ok (x, e') ∧ P x ∧
          ∀ c, visible c → look e' c = if F c then mjoin (w' c) else look e c.

Lemma does_updates {A} (F : cell → bool) (w w' u : write) (m : stateM E A) x (P : A → Prop) :
  does m x u → P x →
  (∀ c, visible c → if F c then mjoin (over w u c) = mjoin (w' c) else u c = None) →
  updates F w w' m P.
Proof.
  intros Hm HP Hu e He. destruct (Hm e) as (e'&He'&Hw). exists x, e'. split_and!; [done..|].
  intros c Hc. rewrite Hw by done. specialize (Hu c Hc). unfold over in Hu.
  destruct (F c) eqn:HF.
  - rewrite <- Hu. destruct (u c); [done|]. apply He; [done|]. by rewrite HF.
  - by rewrite Hu.
Qed.

Lemma updates_map {A B} F w w' (m : stateM E A) (f : A → B) (P : A → Prop) (Q : B → Prop) :
  updates F w w' m P → (∀ x, P x → Q (f x)) → updates F w w' (s ← m; mret (f s)) Q.
Proof.
  intros Hm HQ e He. destruct (Hm e He) as (x&e'&Hx&HP&Hl).
  exists (f x), e'. rewrite (bind_Ok _ _ _ _ _ Hx). auto.
Qed.

Lemma updates_ext {A} (F F' : cell → bool) w w' (m : stateM E A) (P : A → Prop) :
  (∀ c, F c = F' c) → updates F w w' m P → updates F' w w' m P.
Proof.
  intros HF Hm e He. destruct (Hm e) as (x&e'&?&?&Hl).
  { intros c. rewrite HF. auto. }
  exists x, e'. split_and!; [done..|]. intros c. rewrite <- HF. auto.
Qed.

(** Two parts, of which the second leaves the cells of the first alone *)
Lemma updates_pair {A B C} (F G : cell → bool) u u' v v' (m : stateM E A) (k : stateM E B)
    (f : A → B → C) P Q R :
  updates F u u' m P → updates G v v' k Q →
  (∀ x y, P x → Q y → R (f x y)) →
  (∀ c, visible c → F c → G c = false ∧ v c = None ∧ v' c = None) →
  (∀ c, visible c → F c = false → mjoin (u c) = None ∧ mjoin (u' c) = None) →
  updates (λ c, F c || G c) (over u v) (over u' v') (x ← m; y ← k; mret (f x y)) R.
Proof.
  intros Hm Hk HR HFG HF e He.
  destruct (Hm e) as (x&e1&Hx&HP&Hl1).
  { intros c Hc HFc. rewrite He; [|done|by apply orb_True; left]. unfold over.
    by destruct (HFG c Hc HFc) as (_&->&_). }
  assert (∀ c, visible c → G c → F c = false) as HGF.
  { intros c Hc HGc. destruct (F c) eqn:HFc; [|done].
    destruct (HFG c Hc) as (HGc'&_); [by rewrite HFc|]. by rewrite HGc' in HGc. }
  destruct (Hk e1) as (y&e2&Hy&HQ&Hl2).
  { intros c Hc HGc. rewrite Hl1, HGF by done. rewrite He; [|done|by apply orb_True; right].
    unfold over. destruct (HF c Hc (HGF c Hc HGc)) as [Hu _]. by destruct (v c). }
  exists (f x y), e2. rewrite (bind_Ok _ _ _ _ _ Hx), (bind_Ok _ _ _ _ _ Hy).
  split_and!; [done|by apply HR|]. intros c Hc. rewrite Hl2 by done. unfold over.
  destruct (F c) eqn:HFc; simpl.
  - destruct (HFG c Hc) as (->&_&->); [by rewrite HFc|]. by rewrite Hl1, HFc.
  - destruct (G c); [|by rewrite Hl1, HFc].
    destruct (HF c Hc HFc) as [_ Hu]. by destruct (v' c).
Qed.
End updates.

(** ** The single attributes *)

Lemma in_plain k : plain_key k → k ≠ key_class ∧ k ≠ key_style.
Proof.
  unfold plain_key. intros [[_ ?]%andb_prop_elim ?]%andb_prop_elim.
  split; by eapply bool_decide_unpack.
Qed.

(** Closes the comparison of two writes at one cell, once the cases of the
    values are known. *)
Ltac cells :=
  repeat case_match; simplify_eq/=;
  repeat match goal with
  | H : (_ || _) = true |- _ => apply orb_prop in H as []
  | H : (_ || _) = false |- _ => apply orb_false_elim in H as []
  | H : bool_decide _ = true |- _ => apply bool_decide_eq_true in H
  | H : bool_decide _ = false |- _ => apply bool_decide_eq_false in H
  end; simplify_eq/=; try done; try congruence.

Section rebuilds.
Context `{Browser} {E : Type} `{!Element E} `{!ElementLaws E}.
Local Abbreviation updates := (updates (E := E)).

Lemma write_attribute_plain k o c :
  plain_key k → covers (KAttribute k) c = false → write_attribute k o c = None.
Proof. intros [Hk Hk']%in_plain Hc. destruct c; simpl in *; cells. Qed.
Lemma value_written_covers k v c : plain_key k → covers (KAttribute k) c = false → value_written k v c = None.
Proof.
  intros Hk Hc. induction v as [| |[]| | |]; simpl; rewrite ?write_attribute_plain by done; done.
Qed.
Lemma covers_plain k c : plain_key k → covers (KAttribute k) c = true → c = CAttr k.
Proof. intros [Hk Hk']%in_plain Hc. destruct c; simpl in *; cells. Qed.

Lemma value_updates k (v v' : attr_value) (t : value_type) : plain_key k → value_has_type v t → value_has_type v' t →
  updates (covers (KAttribute k)) (value_written k v) (value_written k v') (value_rebuild k v' v) (λ s, s = v').
Proof.
  intros Hk. pose proof (in_plain _ Hk) as [Hk1 Hk2]. pose proof (plain_name _ Hk) as Hn.
  revert v' t. induction v as [|s|b|n| |v IH]; intros v' [] Hv Hv'; try done;
    destruct v' as [|s'|b'|n'| |v']; try done; simpl.
  all: try (eapply updates_map; [by eapply IH|by intros ? ->]).
  all: repeat case_match; subst; eapply does_updates; eauto using value_build_does with attrs.
  all: intros c Hc; destruct (covers (KAttribute k) c) eqn:Hcov;
    rewrite ?write_attribute_plain, ?value_written_covers by done; try done.
  all: apply covers_plain in Hcov as ->; [|done]; unfold over; simpl;
    rewrite ?decide_True by done; cells.
Qed.

Definition clear (F : cell → bool) : write := λ c, if F c then Some None else None.

Lemma covers_clear k c : write_attribute k None c = clear (covers (KAttribute k)) c.
Proof. unfold clear. destruct c; simpl; cells. Qed.

Lemma class_span_written c x : class_span c x = false → class_written c x = None.
Proof.
  induction c as [s|n [] | |]; simpl; intros Hx; auto.
  - destruct x; simpl in *; cells.
  - unfold write_cell. cells.
Qed.
Lemma class_reset_does c : class_names_ok c → does (E := E) (class_reset c) tt (clear (class_span c)).
Proof.
  induction c as [s|n b| |]; simpl; intros Hn; auto with attrs.
  - eapply does_ext; [apply covers_clear|]. auto with attrs.
  - eapply does_ext; [|by apply does_remove_class]. intros x. unfold write_cell, clear. simpl. cells.
Qed.

Lemma class_quiet c c' t x : visible x → class_has_type c t → class_has_type c' t →
  class_touched c c' x = false → mjoin (class_written c x) = None ∧ mjoin (class_written c' x) = None.
Proof.
  intros Hvis. revert c' t. induction c as [s|n b| |c IH]; intros c' [] Hv Hv'; try done;
    destruct c' as [s'|n' b'| |c']; try done; simpl.
  all: try by eapply IH.
  - destruct x; simpl in *; intros Hx; cells; naive_solver.
  - intros [??]%orb_false_elim. split; repeat case_match; unfold write_cell, no_write; cells.
  - intros Hx. by rewrite class_span_written.
  - rewrite orb_false_r. intros Hx. by rewrite class_span_written.
Qed.

Lemma class_updates c c' t : class_names_ok c → class_names_ok c' → class_has_type c t → class_has_type c' t →
  updates (class_touched c c') (class_written c) (class_written c') (class_rebuild c' c) (λ s, s = c').
Proof.
  revert c' t. induction c as [s|n b| |c IH]; intros c' [] Hn Hn' Hv Hv'; try done;
    destruct c' as [s'|n' b'| |c']; try done; simpl in *.
  all: try (eapply updates_map; [by eapply IH|by intros ? ->]).
  all: repeat case_match; subst; eapply does_updates;
    eauto using class_build_does, class_reset_does with attrs.
  all: intros x Hc; unfold over.
  all: try (unfold write_attribute, write_cell, no_write; by cells).
  - destruct (class_span c' x) eqn:Hx; [by destruct (class_written c' x)|by apply class_span_written].
  - unfold clear. by destruct (class_span c x).
Qed.
(** *** Styles *)

Lemma write_css_ok p v c : css_ok p v →
  write_css p v c = write_cell (CCss p) (if decide (v = []) then None else css_value p v) c.
Proof.
  unfold css_ok, write_css, write_cell. intros Hok.
  repeat case_match; simplify_eq/=; try done. by rewrite bool_decide_eq_false_2 in Hok.
Qed.
Definition property_content (p : text) (v : css_property) : option text :=
  match v with
  | PStr s | POption (Some s) => if decide (s = []) then None else css_value p s
  | POption None => None
  end.
Lemma property_written_ok p v x : style_names_ok (SPair p v) →
  property_written p v x = match v with
                           | POption None => None
                           | _ => write_cell (CCss p) (property_content p v) x
                           end.
Proof.
  destruct v as [s|[s|]]; simpl; intros Hv; try done;
    apply andb_prop_elim in Hv as [_ Hv]; by apply write_css_ok.
Qed.

Lemma property_updates p v v' o : style_names_ok (SPair p v) → style_names_ok (SPair p v') →
  property_has_type v o → property_has_type v' o →
  updates (λ x, bool_decide (x = CCss p)) (property_written p v) (property_written p v')
    (property_rebuild p v' v) (λ s, s = v').
Proof.
  intros Hn Hn' Hv Hv'. pose proof (style_names_longhand _ _ Hn) as Hp.
  destruct v as [s|[s|]], v' as [s'|[s'|]], o; try done; simpl.
  all: repeat case_match; subst; eapply does_updates; eauto with attrs.
  all: intros x Hc; unfold over; simpl in Hn, Hn';
    try apply andb_prop_elim in Hn as [_ Hn]; try apply andb_prop_elim in Hn' as [_ Hn'];
    rewrite ?write_css_ok by done; unfold write_cell, no_write; by cells.
Qed.

Lemma style_span_written s x : style_names_ok s → style_span s x = false → style_written s x = None.
Proof.
  induction s as [s|p v| |]; simpl; intros Hn Hx; auto.
  - destruct x; simpl in *; cells.
  - rewrite property_written_ok by done. unfold write_cell. cells.
Qed.
Lemma style_reset_does s : style_names_ok s → does (E := E) (style_reset s) tt (clear (style_span s)).
Proof.
  induction s as [s|p v| |]; intros Hn; simpl; auto with attrs.
  - eapply does_ext; [apply covers_clear|]. auto with attrs.
  - eapply does_ext; [|by apply does_remove_css; eapply style_names_longhand].
    intros x. unfold write_cell, clear. simpl. cells.
Qed.

Lemma style_quiet s s' t x : visible x → style_names_ok s → style_names_ok s' →
  style_has_type s t → style_has_type s' t →
  style_touched s s' x = false → mjoin (style_written s x) = None ∧ mjoin (style_written s' x) = None.
Proof.
  intros Hvis. revert s' t. induction s as [s|p v| |s IH]; intros s' [] Hn Hn' Hv Hv'; try done;
    destruct s' as [s'|p' v'| |s']; try done.
  all: try (simpl in *; intros Hx; by eapply IH).
  - destruct x; simpl in *; intros Hx; cells; try naive_solver.
    by apply eq_None_not_Some in Hx as ->.
  - intros [Hx Hx']%orb_false_elim. by rewrite !style_span_written.
  - simpl. intros Hx. by rewrite style_span_written.
  - simpl. rewrite orb_false_r. intros Hx. by rewrite style_span_written.
Qed.

Lemma style_updates s s' t : style_names_ok s → style_names_ok s' → style_same_names s s' →
  style_has_type s t → style_has_type s' t →
  updates (style_touched s s') (style_written s) (style_written s') (style_rebuild s' s) (λ st, st = s').
Proof.
  revert s' t. induction s as [s|p v| |s IH]; intros s' [] Hn Hn' Hs Hv Hv'; try done;
    destruct s' as [s'|p' v'| |s']; try done.
  all: try (simpl in *; eapply updates_map; [by eapply IH|by intros ? ->]).
  2: { apply bool_decide_unpack in Hs as <-. simpl. destruct (decide (p = p)); [|done].
       apply (updates_map _ _ _ _ _ (λ s, s = v')); [|by intros ? ->].
       apply (updates_ext (λ x, bool_decide (x = CCss p))); [intros c; by rewrite orb_diag|].
       by eapply property_updates. }
  all: simpl in *; repeat case_match; subst; eapply does_updates;
    eauto using style_build_does, style_reset_does with attrs.
  all: intros x Hc; unfold over.
  all: try (unfold write_attribute, no_write; by cells).
  - destruct (style_span s' x) eqn:Hx; [by destruct (style_written s' x)|by apply style_span_written].
  - unfold clear. by destruct (style_span s x).
Qed.
(** *** Inner HTML *)

Lemma inner_written_covers i x : covers KInnerHtml x = false → inner_written i x = None.
Proof. induction i; simpl; intros Hx; auto. unfold write_cell. destruct x; cells. Qed.
Lemma inner_updates i i' t : inner_has_type i t → inner_has_type i' t →
  updates (covers KInnerHtml) (inner_written i) (inner_written i') (inner_rebuild i' i) (λ s, s = i').
Proof.
  revert i' t. induction i as [s| |i IH]; intros i' [] Hv Hv'; try done;
    destruct i' as [s'| |i']; try done; simpl in *.
  all: try (eapply updates_map; [by eapply IH|by intros ? ->]).
  all: repeat case_match; subst; eapply does_updates; eauto using inner_build_does with attrs.
  all: intros x Hc; destruct (covers KInnerHtml x) eqn:Hx;
    [destruct x; try done; unfold over, write_cell, no_write; simpl; rewrite ?inner_contents_nil; by repeat case_match
    |rewrite ?inner_written_covers by done; unfold write_cell; destruct x; simpl in *; by cells].
Qed.
(** *** Erased attributes *)

Definition covered (ks : list NamedAttributeKey) (x : cell) : bool := existsb (λ k, covers k x) ks.

Lemma covered_app ks ks' x : covered (ks ++ ks') x = covered ks x || covered ks' x.
Proof. apply existsb_app. Qed.
Lemma clear_over F G c : over (clear F) (clear G) c = clear (λ x, F x || G x) c.
Proof. unfold over, clear. by destruct (F c), (G c). Qed.

Definition key_ok (k : NamedAttributeKey) : Prop :=
  match k with KAttribute k => attr_name k | KInnerHtml => True end.
Lemma keys_ok a : names_ok a → Forall key_ok (keys a).
Proof.
  induction a as [| | | | | |a b IHa IHb|t a IHa|l IHl] using attr_ind'; simpl; intros Ha;
    repeat constructor; try (by apply plain_name); auto.
  - apply andb_prop_elim in Ha as [Ha Hb]. apply Forall_app; auto.
  - induction IHl; simpl in *; [constructor|]. apply andb_prop_elim in Ha as [??]. apply Forall_app; auto.
Qed.

Lemma remove_key_does k : key_ok k → does (E := E) (remove_key k) tt (clear (covers k)).
Proof.
  destruct k as [k|]; simpl; intros Hk.
  - eapply does_ext; [apply covers_clear|]. auto with attrs.
  - eapply does_ext; [|apply does_set_inner]. intros c. rewrite inner_contents_nil.
    unfold write_cell, clear. destruct c; simpl; cells.
Qed.
Lemma remove_keys_does ks : Forall key_ok ks →
  does (E := E) (for_each remove_key ks) tt (clear (covered ks)).
Proof.
  induction 1 as [|k ks Hk _ IH]; simpl; [apply does_ret|].
  eapply does_ext; [apply clear_over|]. apply does_seq; [by apply remove_key_does|done].
Qed.
Lemma remove_all_does l : forallb is_any l → forallb names_ok l →
  does (E := E) (for_each (λ old, for_each remove_key (state_keys old)) (shown <$> l)) tt
    (clear (covered (l ≫= keys))).
Proof.
  induction l as [|a l IH]; simpl; intros Ha Hn; [apply does_ret|].
  apply andb_prop_elim in Ha as [Ha Hl]. apply andb_prop_elim in Hn as [Hn Hnl].
  apply (does_ext _ _ (over (clear (covered (keys a))) (clear (covered (l ≫= keys))))).
  - intros c. rewrite clear_over. unfold clear. simpl. by rewrite covered_app.
  - apply does_seq; [|by apply IH]. destruct a; try done. simpl. by apply remove_keys_does, keys_ok.
Qed.

Lemma written_covered a x : visible x → names_ok a → covered (keys a) x = false → written a x = None.
Proof.
  intros Hvis. induction a as [|k v|k v|c|s|i|a b IHa IHb|t a IHa|l IHl] using attr_ind'; simpl;
    intros Hn Hx; rewrite ?orb_false_r in Hx; auto using value_written_covers, inner_written_covers.
  - apply class_span_written. clear Hn Hvis. induction c; simpl in *; auto. apply bool_decide_eq_false.
    by intros ->.
  - apply style_span_written; [done|]. clear Hn Hvis. induction s; simpl in *; auto. apply bool_decide_eq_false.
    by intros ->.
  - apply andb_prop_elim in Hn as [Hn Hn']. rewrite covered_app in Hx. apply orb_false_elim in Hx as [Hx Hx'].
    apply over_None; auto.
  - induction IHl as [|a l IHa _ IH]; simpl in *; [done|].
    apply andb_prop_elim in Hn as [Hn Hn']. rewrite covered_app in Hx. apply orb_false_elim in Hx as [Hx Hx'].
    apply over_None; auto.
Qed.
(** *** All attributes *)

Lemma attr_quiet a a' t x : visible x → names_ok a → names_ok a' → has_type a t → has_type a' t → compatible a a' →
  touched a a' x = false → mjoin (written a x) = None ∧ mjoin (written a' x) = None.
Proof.
  intros Hvis. revert a' t. induction a as [|k v|k v|c|s|i|a b IHa IHb|t0 a IHa|l IHl] using attr_ind';
    intros a' t Hn Hn' Ht Ht'; destruct t; try done; destruct a' as [|k' v'|k' v'|c'|s'|i'|a' b'|t0' a'|l']; try done;
    intros Hc Hx.
  - simpl in Hx. apply orb_false_elim in Hx as [? ?]. simpl. by rewrite !value_written_covers.
  - simpl in Hx. apply orb_false_elim in Hx as [? ?]. simpl. by rewrite !value_written_covers.
  - by eapply class_quiet.
  - by eapply style_quiet.
  - simpl. by rewrite !inner_written_covers.
  - simpl in *. apply orb_false_elim in Hx as [Hx Hy].
    apply andb_prop_elim in Hn as [? ?], Hn' as [? ?], Ht as [? ?], Ht' as [? ?].
    destruct Hc as (Hc1&Hc2&_).
    edestruct IHa as [Ha Ha']; [..|exact Hx|]; [done..|].
    edestruct IHb as [Hb Hb']; [..|exact Hy|]; [done..|].
    unfold over. by destruct (written b x), (written b' x).
  - simpl in *. destruct Hc as [<- Hc]. by eapply IHa.
  - simpl in Hx. change (covered ((l ≫= keys) ++ (l' ≫= keys)) x = false) in Hx.
    rewrite covered_app in Hx. apply orb_false_elim in Hx as [Hx Hy].
    by rewrite !written_covered.
Qed.

Lemma rebuild_updates a a' t s : names_ok a → names_ok a' → has_type a t → has_type a' t →
  compatible a a' → state_of s a →
  updates (touched a a') (written a) (written a') (rebuild a' s) (λ s', state_of s' a').
Proof.
  revert a' t s. induction a as [|k v|k v|c|st|i|a b IHa IHb|t0 a IHa|l IHl] using attr_ind';
    intros a' t s Hn Hn' Ht Ht'; destruct t; try done;
    destruct a' as [|k' v'|k' v'|c'|st'|i'|a' b'|t0' a'|l']; try done; intros Hc Hs.
  - assert (s = StUnit) as -> by (by destruct s). eapply does_updates; [apply does_ret|done|]. done.
  - assert (s = StValue v) as -> by (by destruct s). simpl in *. apply andb_prop_elim in Ht as [->%bool_decide_unpack Ht], Ht' as [->%bool_decide_unpack Ht'].
    apply (updates_map _ _ _ _ _ (λ x, x = v')); [|by intros ? ->].
    apply (updates_ext (covers (KAttribute key))); [intros c; simpl; by rewrite orb_diag|].
    by eapply value_updates.
  - assert (s = StValue v) as -> by (by destruct s). simpl in Hc. subst k'. simpl in *.
    apply (updates_map _ _ _ _ _ (λ x, x = v')); [|by intros ? ->].
    apply (updates_ext (covers (KAttribute k))); [intros c; simpl; by rewrite orb_diag|].
    by eapply value_updates.
  - assert (s = StClass c) as -> by (by destruct s). apply (updates_map _ _ _ _ _ (λ x, x = c')); [|by intros ? ->].
    by eapply class_updates.
  - assert (s = StStyle st) as -> by (by destruct s). apply (updates_map _ _ _ _ _ (λ x, x = st')); [|by intros ? ->].
    by eapply style_updates.
  - assert (s = StInner i) as -> by (by destruct s). apply (updates_map _ _ _ _ _ (λ x, x = i')); [|by intros ? ->].
    by eapply inner_updates.
  - destruct s as [| | | | |s s'| |]; try done. destruct Hs as [Hs Hs'], Hc as (Hc&Hc'&Hd).
    apply andb_prop_elim in Hn as [? ?], Hn' as [? ?], Ht as [? ?], Ht' as [? ?].
    apply (updates_pair _ _ _ _ _ _ _ _ StPair (λ s, state_of s a') (λ s, state_of s b')).
    + by eapply IHa.
    + by eapply IHb.
    + done.
    + intros x Hx Hxa. by apply Hd.
    + intros x Hx. by eapply attr_quiet.
  - destruct s as [| | | | | |ts s ks|]; try done. destruct Hs as [-> Hs], Hc as [<- Hc].
    simpl. destruct (decide (t0 = t0)); [|done].
    apply (updates_map _ _ _ _ _ (λ s, state_of s a')); [|done]. by eapply IHa.
  - assert (s = shown (AVec l)) as -> by (by destruct s).
    apply (does_updates _ _ _ (over (clear (covered (l ≫= keys))) (written (AVec l'))) _ (shown (AVec l'))).
    + apply (does_seq (for_each _ _)); [|by apply build_does].
      apply remove_all_does; [|done]. eapply Is_true_true_2, forallb_forall. intros x Hx.
      apply Is_true_true_1 in Ht. eapply forallb_forall in Ht; [|done]. by apply andb_prop in Ht as [? _].
    + by apply (state_of_shown (AVec l')).
    + intros c Hvis. change (touched (AVec l) (AVec l') c) with (covered ((l ≫= keys) ++ (l' ≫= keys)) c).
      rewrite covered_app.
      pose proof (written_covered (AVec l) c Hvis Hn) as H1.
      pose proof (written_covered (AVec l') c Hvis Hn') as H2. simpl keys in H1, H2.
      revert H1 H2. generalize (written (AVec l)) as u, (written (AVec l')) as u'. intros u u' H1 H2.
      unfold over, clear. destruct (covered (l ≫= keys) c), (covered (l' ≫= keys) c); simpl;
        try rewrite H1 by done; try rewrite H2 by done; auto.
      all: by destruct (u' c).
Qed.
End rebuilds.

(** ** Types of states *)

Section types.
Context {E : Type} `{Element E}.

(** [m] returns, and its result is in [P]. *)
Definition returns {A} (m : stateM E A) (P : A → Prop) : Prop :=
  ∀ e, ∃ x e', m e = Ok (x, e') ∧ P x.

Lemma returns_ret {A} (x : A) (P : A → Prop) : P x → returns (mret x) P.
Proof. intros Hx e. by exists x, e. Qed.
Lemma returns_modify f (P : unit → Prop) : P tt → returns (modify f) P.
Proof. intros Hx e. by exists tt, (f e). Qed.
Lemma returns_bind {A B} (m : stateM E A) (k : A → stateM E B) (P : A → Prop) (Q : B → Prop) :
  returns m P → (∀ x, P x → returns (k x) Q) → returns (m ≫= k) Q.
Proof.
  intros Hm Hk e. destruct (Hm e) as (x&e1&Hx&HP), (Hk x HP e1) as (y&e2&Hy&HQ).
  exists y, e2. by rewrite (bind_Ok _ _ _ _ _ Hx).
Qed.
Lemma returns_map {A B} (m : stateM E A) (f : A → B) (P : A → Prop) (Q : B → Prop) :
  returns m P → (∀ x, P x → Q (f x)) → returns (s ← m; mret (f s)) Q.
Proof. intros Hm HQ. eapply returns_bind; [done|]. intros x Hx. apply returns_ret. auto. Qed.
Lemma returns_nothing (P : unit → Prop) : P tt → returns nothing P.
Proof. apply returns_ret. Qed.

(** Code that only writes and then returns *)
Ltac writes_only :=
  repeat first
    [ done | case_match; simplify_eq/= | apply returns_nothing | apply returns_modify
    | apply returns_ret | eapply (returns_bind _ _ (λ _, True)); [|intros ? _] ].

Lemma value_build_typed k v t : value_has_type v t → returns (value_build k v) (λ s, value_has_type s t).
Proof.
  revert t. induction v; intros [] Ht; try done; simpl; try solve [writes_only].
  eapply returns_map; eauto.
Qed.
Lemma value_rebuild_typed k v prev t : value_has_type v t → value_has_type prev t →
  returns (value_rebuild k v prev) (λ s, value_has_type s t).
Proof.
  revert prev t. induction v; intros [] [] Ht Hp; try done; simpl; try solve [writes_only].
  - eapply returns_map; [by apply value_build_typed|done].
  - eapply returns_map; eauto.
Qed.
Lemma class_build_typed c t : class_has_type c t → returns (class_build c) (λ s, class_has_type s t).
Proof.
  revert t. induction c; intros [] Ht; try done; simpl; try solve [writes_only].
  eapply returns_map; eauto.
Qed.
Lemma class_reset_returns c : returns (class_reset c) (λ _, True).
Proof. induction c; simpl; try done; writes_only. Qed.
Lemma class_rebuild_typed c prev t : class_has_type c t → class_has_type prev t →
  returns (class_rebuild c prev) (λ s, class_has_type s t).
Proof.
  revert prev t. induction c; intros [] [] Ht Hp; try done; simpl; try solve [writes_only].
  - eapply returns_map; [apply class_reset_returns|done].
  - eapply returns_map; [by apply class_build_typed|done].
  - eapply returns_map; eauto.
Qed.
Lemma property_build_typed p v o : property_has_type v o → returns (property_build p v) (λ s, property_has_type s o).
Proof. destruct v as [|[]]; simpl; intros; writes_only. Qed.
Lemma property_rebuild_typed p v prev o : property_has_type v o → property_has_type prev o →
  returns (property_rebuild p v prev) (λ s, property_has_type s o).
Proof. destruct v as [|[]], prev as [|[]], o; try done; simpl; intros; writes_only. Qed.
Lemma style_build_typed s t : style_has_type s t → returns (style_build s) (λ st, style_has_type st t).
Proof.
  revert t. induction s; intros [] Ht; try done; simpl; try solve [writes_only].
  - eapply returns_map; [by apply property_build_typed|done].
  - eapply returns_map; eauto.
Qed.
Lemma style_reset_returns s : returns (style_reset s) (λ _, True).
Proof. induction s; simpl; writes_only. Qed.
Lemma style_rebuild_typed s prev t : style_has_type s t → style_has_type prev t →
  returns (style_rebuild s prev) (λ st, style_has_type st t).
Proof.
  revert prev t. induction s; intros [] [] Ht Hp; try done; simpl; try solve [writes_only].
  - case_decide; [eapply returns_map; [by apply property_rebuild_typed|done]|].
    eapply (returns_bind _ _ (λ _, True)); [apply returns_modify; done|intros _ _].
    eapply returns_map; [by apply property_build_typed|done].
  - eapply returns_map; [apply style_reset_returns|done].
  - eapply returns_map; [by apply style_build_typed|done].
  - eapply returns_map; eauto.
Qed.
Lemma inner_build_typed i t : inner_has_type i t → returns (inner_build i) (λ s, inner_has_type s t).
Proof.
  revert t. induction i; intros [] Ht; try done; simpl; try solve [writes_only].
  eapply returns_map; eauto.
Qed.
Lemma inner_rebuild_typed i prev t : inner_has_type i t → inner_has_type prev t →
  returns (inner_rebuild i prev) (λ s, inner_has_type s t).
Proof.
  revert prev t. induction i; intros [] [] Ht Hp; try done; simpl; try solve [writes_only].
  - eapply returns_map; [by apply inner_build_typed|done].
  - eapply returns_map; eauto.
Qed.

Lemma build_typed a t : has_type a t → returns (build a) (λ s, state_has_type s t).
Proof.
  revert t. induction a as [|k v|k v|c|s|i|a b IHa IHb|t0 a IHa|l IHl] using attr_ind';
    intros [] Ht; try done; simpl in *.
  - by apply returns_ret.
  - apply andb_prop_elim in Ht as [_ Ht]. eapply returns_map; [by apply value_build_typed|done].
  - eapply returns_map; [by apply value_build_typed|done].
  - eapply returns_map; [by apply class_build_typed|done].
  - eapply returns_map; [by apply style_build_typed|done].
  - eapply returns_map; [by apply inner_build_typed|done].
  - apply andb_prop_elim in Ht as [Ht Hu]. eapply returns_bind; [by apply IHa|]. intros s Hs.
    eapply returns_map; [by apply IHb|]. intros s' Hs'. simpl. by apply andb_True.
  - eapply returns_map; [by apply IHa|done].
  - eapply (returns_map _ _ (λ l, forallb (λ s, is_any_state s && state_has_type s TAny) l)); [|done].
    induction IHl as [|a l IHa _ IH]; simpl in *; [by apply returns_ret|].
    apply andb_prop_elim in Ht as [[Ha Ht]%andb_prop_elim Hl].
    eapply returns_bind; [by apply IHa|]. intros s Hs.
    eapply returns_map; [by apply IH|]. intros ss Hss. simpl. destruct s; try done. simpl.
    by apply andb_True.
Qed.

Lemma value_hydrate_typed b k v t : value_has_type v t → returns (value_hydrate b k v) (λ s, value_has_type s t).
Proof.
  revert t. induction v; intros [] Ht; try done; simpl; try solve [writes_only].
  eapply returns_map; eauto.
Qed.
Lemma class_hydrate_typed b c t : class_has_type c t → returns (class_hydrate b c) (λ s, class_has_type s t).
Proof.
  revert t. induction c; intros [] Ht; try done; simpl; try solve [writes_only].
  eapply returns_map; eauto.
Qed.
Lemma style_hydrate_typed b s t : style_has_type s t → returns (style_hydrate b s) (λ st, style_has_type st t).
Proof.
  revert t. induction s; intros [] Ht; try done; simpl; try by apply returns_ret.
  eapply returns_map; eauto.
Qed.
Lemma inner_hydrate_typed b i t : inner_has_type i t → returns (inner_hydrate b i) (λ s, inner_has_type s t).
Proof.
  revert t. induction i; intros [] Ht; try done; simpl; try solve [writes_only].
  eapply returns_map; eauto.
Qed.

Lemma hydrate_typed b a t : has_type a t → returns (hydrate b a) (λ s, state_has_type s t).
Proof.
  revert t. induction a as [|k v|k v|c|s|i|a1 a2 IHa IHb|t0 a IHa|l IHl] using attr_ind';
    intros [] Ht; try done; simpl in *.
  - by apply returns_ret.
  - apply andb_prop_elim in Ht as [_ Ht]. eapply returns_map; [by apply value_hydrate_typed|done].
  - eapply returns_map; [by apply value_build_typed|done].
  - eapply returns_map; [by apply class_hydrate_typed|done].
  - eapply returns_map; [by apply style_hydrate_typed|done].
  - eapply returns_map; [by apply inner_hydrate_typed|done].
  - apply andb_prop_elim in Ht as [Ht Hu]. eapply returns_bind; [by apply IHa|]. intros s Hs.
    eapply returns_map; [by apply IHb|]. intros s' Hs'. simpl. by apply andb_True.
  - eapply returns_map; [by apply IHa|done].
  - eapply (returns_map _ _ (λ l, forallb (λ s, is_any_state s && state_has_type s TAny) l)); [|done].
    induction IHl as [|a l IHa _ IH]; simpl in *; [by apply returns_ret|].
    apply andb_prop_elim in Ht as [[Ha Ht]%andb_prop_elim Hl].
    eapply returns_bind; [by apply IHa|]. intros s Hs.
    eapply returns_map; [by apply IH|]. intros ss Hss. simpl. destruct s; try done. simpl.
    by apply andb_True.
Qed.

Lemma remove_keys_returns l : returns (for_each remove_key l) (λ _, True).
Proof.
  induction l as [|[]]; simpl; [by apply returns_ret|..];
    (eapply (returns_bind _ _ (λ _, True)); [by apply returns_modify|done]).
Qed.
Lemma rebuild_typed a s t : has_type a t → state_has_type s t → returns (rebuild a s) (λ s, state_has_type s t).
Proof.
  revert s t. induction a as [|k v|k v|c|st|i|a1 a2 IHa IHb|t0 a IHa|l IHl] using attr_ind';
    intros s [] Ht Hs; try done; destruct s as [|pv|pc|ps|pi|s1 s2|ts s ks|ls]; try done; simpl in *.
  - by apply returns_ret.
  - apply andb_prop_elim in Ht as [_ Ht]. eapply returns_map; [by apply value_rebuild_typed|done].
  - eapply returns_map; [by apply value_rebuild_typed|done].
  - eapply returns_map; [by apply class_rebuild_typed|done].
  - eapply returns_map; [by apply style_rebuild_typed|done].
  - eapply returns_map; [by apply inner_rebuild_typed|done].
  - apply andb_prop_elim in Ht as [Ht Hu], Hs as [Hs Hs'].
    eapply returns_bind; [by apply IHa|]. intros x Hx.
    eapply returns_map; [by apply IHb|]. intros y Hy. simpl. by apply andb_True.
  - case_decide as Heq; [subst ts; eapply returns_map; [by apply IHa|done]|].
    by apply (build_typed (AAny t0 a) TAny).
  - eapply (returns_bind _ _ (λ _, True)); [|intros _ _; by apply (build_typed (AVec l) TVec)].
    clear Hs. induction ls as [|o ls IH]; simpl; [by apply returns_ret|].
    eapply returns_bind; [apply remove_keys_returns|done].
Qed.
End types.

(** ** The theorems *)

(** Rebuilds, one after the other *)
Fixpoint rebuild_all `{Element E} (l : list attr) (s : attr_state) : stateM E attr_state :=
  match l with
  | [] => mret s
  | a :: l => s ← rebuild a s; rebuild_all l s
  end.
(** How an attribute comes to an element *)
Inductive origin := Built | Hydrated (from_server : bool).
Definition first_render `{Element E} (o : origin) (a : attr) : stateM E attr_state :=
  match o with Built => build a | Hydrated b => hydrate b a end.

(** C28: states keep the types of their attributes, however the attribute came to
    the element and whatever values of its type it is rebuilt with, erased ones
    of any types included: no downcast meets a value of another type. *)
Theorem attributes_keep_types `{Element E} (o : origin) (a : attr) (l : list attr) (t : attr_type) (e : E) :
  has_type a t → Forall (λ a, has_type a t) l →
  ∃ s e', (s ← first_render o a; rebuild_all l s) e = Ok (s, e') ∧ state_has_type s t.
Proof.
  intros Ha Hl. revert e. apply (returns_bind _ _ (λ s, state_has_type s t)).
  - destruct o; [by apply build_typed|by apply hydrate_typed].
  - clear Ha. induction Hl as [|a' l Ha' _ IH]; simpl; intros s Hs; [by apply returns_ret|].
    by eapply returns_bind; [apply rebuild_typed|].
Qed.

Section theorems.
Context `{Browser} {E : Type} `{!Element E} `{!ElementLaws E}.

(** The values of a chain of rebuilds *)
Fixpoint compatible_chain (t : attr_type) (a : attr) (l : list attr) : Prop :=
  names_ok a ∧ has_type a t ∧
  match l with
  | [] => True
  | a' :: l => compatible a a' ∧ compatible_chain t a' l
  end.
Fixpoint final (a : attr) (l : list attr) : attr :=
  match l with [] => a | a' :: l => final a' l end.

Lemma rebuild_displays a a' t s e : names_ok a → names_ok a' → has_type a t → has_type a' t →
  compatible a a' → state_of s a → displays a e →
  ∃ s' (e' : E), rebuild a' s e = Ok (s', e') ∧ state_of s' a' ∧ displays a' e'.
Proof.
  intros Hn Hn' Ht Ht' Hc Hs He.
  destruct (rebuild_updates a a' t s Hn Hn' Ht Ht' Hc Hs e) as (s'&e'&Hr&Hs'&Hl).
  { intros c Hvis _. by apply He. }
  exists s', e'. split_and!; [done..|]. intros c Hvis. rewrite Hl by done.
  destruct (touched a a' c) eqn:Hx; [done|]. rewrite He by done.
  edestruct (attr_quiet a a' t c) as [Hq Hq']; [done..|]. by rewrite Hq, Hq'.
Qed.

Lemma rebuild_all_displays t a l s e : compatible_chain t a l → state_of s a → displays a e →
  ∃ s' (e' : E), rebuild_all l s e = Ok (s', e') ∧ displays (final a l) e' ∧ names_ok (final a l).
Proof.
  revert a s e. induction l as [|a' l IH]; intros a s e (Hn&Ht&Hl) Hs He.
  - exists s, e. done.
  - destruct Hl as [Hc Hl]. assert (names_ok a' ∧ has_type a' t) as [Hn' Ht'] by (destruct l; naive_solver).
    destruct (rebuild_displays a a' t s e) as (s1&e1&Hr&Hs1&He1); [done..|].
    destruct (IH a' s1 e1 Hl Hs1 He1) as (s'&e'&Hr'&He').
    exists s', e'. simpl. rewrite (bind_Ok _ _ _ _ _ Hr).
    done.
Qed.

(** C12: After any number of rebuilds an element shows what a new element shows that
    is built with the last value.  Throughout ([compatible_chain]), the attributes
    have one type; the names are ones the DOM accepts, those of plain attributes
    are not [class] or [style], and the browser refuses no value of a CSS property;
    from each value to the next the names of custom attributes and properties stay,
    an erased attribute keeps the type within, and the parts of a tuple write to
    different cells. *)
Theorem rebuilt_attributes_show_last t a l : compatible_chain t a l →
  ∃ s (e : E) s' e',
    (s ← build a; rebuild_all l s) new_element = Ok (s, e) ∧
    build (final a l) new_element = Ok (s', e') ∧
    ∀ c, visible c → look e c = look e' c.
Proof.
  intros Hch. assert (names_ok a) as Hn by (destruct l; naive_solver).
  destruct (build_displays (E := E) a Hn) as (e0&Hb&He0).
  destruct (rebuild_all_displays t a l (shown a) e0 Hch (state_of_shown a) He0) as (s&e&Hr&He&Hf).
  destruct (build_displays (E := E) (final a l) Hf) as (e'&Hb'&He').
  exists s, e, (shown (final a l)), e'. rewrite (bind_Ok _ _ _ _ _ Hb).
  split_and!; [done..|]. intros c Hc. by rewrite He, He'.
Qed.
End theorems.
