(* ===== verification/AttrHtml.v ===== *)
(** * Printed attributes

    What a browser reads from the printed attributes of an element, and that
    hydration finds there what a build would have made.  The reader is the part
    of the tokenizer of the HTML standard that the printed text needs. *)

From Stdlib Require Import NArith.
From stdpp Require Import base list gmap strings.
From S2P Require Import Prelude JsScript Attributes AttrFacts AttrProps.

Open Scope N_scope.

(** ** The reader of a start tag *)

Inductive tag_mode :=
| BeforeName
| InName (name : text)
| AfterEquals (name : text)
| InQuotes (name value : text).

Definition gt : N := 62.
Definition name_break (c : N) : bool :=
  (c =? 34) || (c =? 39) || (c =? 47) || (c =? 60) || (c =? 61) || (c =? 62) || is_html_space c.
(** Of two attributes with the same name the second is dropped. *)
Definition add_attribute (name value : text) (l : list (text * text)) : list (text * text) :=
  if decide (name ∈ l.*1) then l else l ++ [(name, value)].

(** The attributes up to the end of the tag, and what follows it; [decode]
    resolves character references. *)
Fixpoint read_tag (decode : text → text) (m : tag_mode) (s : text) (l : list (text * text))
    : option (list (text * text) * text) :=
  match s with
  | [] => None
  | c :: s =>
      match m with
      | BeforeName =>
          if is_html_space c then read_tag decode BeforeName s l
          else if c =? gt then Some (l, s)
          else if name_break c then None
          else read_tag decode (InName [c]) s l
      | InName n =>
          if is_html_space c then read_tag decode BeforeName s (add_attribute n [] l)
          else if c =? gt then Some (add_attribute n [] l, s)
          else if c =? ch "=" then read_tag decode (AfterEquals n) s l
          else if name_break c then None
          else read_tag decode (InName (n ++ [c])) s l
      | AfterEquals n => if c =? 34 then read_tag decode (InQuotes n []) s l else None
      | InQuotes n v =>
          if c =? 34 then read_tag decode BeforeName s (add_attribute n (decode v) l)
          else read_tag decode (InQuotes n (v ++ [c])) s l
      end
  end.

(** The element that the attributes and the inner HTML stand for *)
Definition parsed_element `{Element E} (l : list (text * text)) (inner : text) : E :=
  let e := foldl (λ e kv, set_attribute kv.1 kv.2 e) new_element l in
  if decide (inner = []) then e else set_inner_html inner e.

(** What the attribute [style] declares, in texts that are complete: without an
    open string or block, and without [!important] *)
Class CssTexts `{Browser} := {
  css_complete : text → Prop;
  css_complete_nil : css_complete [];
  css_declared_nil p : css_declared [] p = None;
  css_semicolon s : css_complete s →
    css_complete (s ++ txt ";") ∧ ∀ p, css_declared (s ++ txt ";") p = css_declared s p;
  css_declaration s p v : css_complete s → (∃ s', s = [] ∨ s = s' ++ txt ";") →
    css_longhand p → is_Some (css_value p v) → v ≠ [] →
    css_complete (s ++ declaration p v) ∧
    ∀ p', css_longhand p' → css_declared (s ++ declaration p v) p' =
          if decide (p' = p) then css_value p v else css_declared s p';
  css_longhand_start p : css_longhand p → ∃ c p', p = c :: p' ∧ is_whitespace c = false;
}.

(** ** The attributes of a tuple, one after the other *)

Fixpoint leaves (a : attr) : list attr :=
  match a with
  | AUnit => []
  | APair a b => leaves a ++ leaves b
  | AAny _ a => leaves a
  | AVec l => l ≫= leaves
  | a => [a]
  end.

Definition written_all `{Browser} (l : list attr) : write := foldr (λ a, over (written a)) no_write l.

Fixpoint value_printed (k : text) (v : attr_value) : list (text * option text) :=
  match v with
  | VStr s => [(k, Some s)]
  | VBool true => [(k, None)]
  | VInt n => [(k, Some (to_string n))]
  | VSome v => value_printed k v
  | _ => []
  end.
Definition printed (a : attr) : list (text * option text) :=
  match a with AValue k v | ACustom k v => value_printed k v | _ => [] end.

(** The order of the parts: an optional whole [class] and a whole [style] come
    before other classes and styles, and there is one inner HTML. *)
Fixpoint whole_class (c : class_value) : bool :=
  match c with CStr _ => true | CSome c => whole_class c | _ => false end.
Fixpoint whole_style (s : style_value) : bool :=
  match s with SStr _ => true | SSome s => whole_style s | _ => false end.
Fixpoint order_ok (class style inner : bool) (l : list attr) : bool :=
  match l with
  | [] => true
  | AClass c :: l => (should_overwrite c || negb (whole_class c) || negb class) && order_ok true style inner l
  | AStyle s :: l => (negb (whole_style s) || negb style) && order_ok class true inner l
  | AInner _ :: l => negb inner && order_ok class style true l
  | _ :: l => order_ok class style inner l
  end.

(** Texts without white space that only Rust knows, style texts that a trimmed
    attribute keeps, and properties that have a value *)
Definition plain (s : text) : bool := forallb (λ c, implb (is_whitespace c) (is_html_space c)) s.
Fixpoint class_plain (c : class_value) : bool :=
  match c with CStr s => plain s | CToggle n _ => plain n | CNone => true | CSome c => class_plain c end.
Fixpoint style_plain `{CssTexts} (s : style_value) : Prop :=
  match s with
  | SStr s => trim_start s = s ∧ css_complete s
  | SPair _ (PStr v) | SPair _ (POption (Some v)) => v ≠ []
  | SSome s => style_plain s
  | _ => True
  end.
Definition leaf_plain `{CssTexts} (a : attr) : Prop :=
  match a with AClass c => class_plain c | AStyle s => style_plain s | _ => True end.

Definition printable `{CssTexts} (a : attr) : Prop :=
  names_ok a ∧ order_ok false false false (leaves a) ∧ Forall leaf_plain (leaves a) ∧
  NoDup (leaves a ≫= printed).*1.

(** ** Reading what was printed *)

Section reading.
Context (escape_attr decode : text → text).
Context (decode_escape : ∀ s, decode (escape_attr s) = s) (escape_quote : ∀ s, 34 ∉ escape_attr s).

Definition print_attribute (kv : text * option text) : text :=
  match kv.2 with
  | Some v => str_value_to_html escape_attr v kv.1 []
  | None => txt " " ++ kv.1
  end.
Definition add_printed (l : list (text * text)) (kv : text * option text) : list (text * text) :=
  add_attribute kv.1 (default [] kv.2) l.

Lemma name_char_break c : name_char c → is_html_space c = false ∧ (c =? gt) = false ∧ (c =? ch "=") = false ∧ name_break c = false.
Proof.
  change (ch "=") with 61. unfold name_char, between, name_break, is_html_space, gt.
  rewrite !orb_True, !andb_True, !Is_true_true, !N.leb_le, !N.eqb_eq.
  intros Hc. rewrite !orb_false_iff, !N.eqb_neq. lia.
Qed.

Lemma read_in_name k n s l : forallb name_char k →
  read_tag decode (InName n) (k ++ s) l = read_tag decode (InName (n ++ k)) s l.
Proof.
  revert n. induction k as [|c k IH]; intros n Hk; simpl; [by rewrite app_nil_r|].
  apply andb_prop_elim in Hk as [Hc Hk]. apply name_char_break in Hc as (->&->&->&->).
  rewrite IH by done. by rewrite <- app_assoc.
Qed.
Lemma read_name k s l : attr_name k →
  read_tag decode BeforeName (txt " " ++ k ++ s) l = read_tag decode (InName k) s l.
Proof.
  unfold attr_name. intros [Hk Hc]%andb_prop_elim. destruct k as [|c k]; [done|].
  simpl in Hc. apply andb_prop_elim in Hc as [Hc Hk']. simpl.
  apply name_char_break in Hc as (->&->&_&->). by rewrite read_in_name.
Qed.
Lemma read_quoted n v w s l : 34 ∉ v →
  read_tag decode (InQuotes n w) (v ++ 34 :: s) l = read_tag decode BeforeName s (add_attribute n (decode (w ++ v)) l).
Proof.
  revert w. induction v as [|c v IH]; intros w Hv; simpl; [by rewrite app_nil_r|].
  apply not_elem_of_cons in Hv as [Hc Hv]. rewrite (proj2 (N.eqb_neq c 34)) by done.
  rewrite IH by done. by rewrite <- app_assoc.
Qed.

(** Where an attribute without a value may end *)
Definition tag_continues (s : text) : Prop := ∃ c s', s = c :: s' ∧ (c = 32 ∨ c = gt).

Lemma read_attribute kv s l : attr_name kv.1 → tag_continues s →
  read_tag decode BeforeName (print_attribute kv ++ s) l = read_tag decode BeforeName s (add_printed l kv).
Proof.
  destruct kv as [k [v|]]; cbn [fst snd]; intros Hk Hs; unfold print_attribute, add_printed; cbn [fst snd].
  - unfold str_value_to_html. rewrite app_nil_l, <- !app_assoc, read_name by done. simpl.
    rewrite read_quoted by apply escape_quote. by rewrite app_nil_l, decode_escape.
  - rewrite <- app_assoc, read_name by done. by destruct Hs as (c&s'&->&[->| ->]).
Qed.

Lemma print_continues kv s : tag_continues (print_attribute kv ++ s).
Proof. destruct kv as [k [v|]]; eexists 32, _; split; [done|by left|done|by left]. Qed.
Lemma prints_continue l s : tag_continues s → tag_continues ((l ≫= print_attribute) ++ s).
Proof.
  destruct l as [|kv l]; simpl; [done|]. intros _. rewrite <- app_assoc. apply print_continues.
Qed.

Lemma read_attributes l s acc : Forall (λ kv, attr_name kv.1) l → tag_continues s →
  read_tag decode BeforeName ((l ≫= print_attribute) ++ s) acc =
  read_tag decode BeforeName s (foldl add_printed acc l).
Proof.
  intros Hl Hs. revert acc. induction Hl as [|kv l Hkv _ IH]; intros acc; simpl; [done|].
  rewrite <- app_assoc, read_attribute, IH by auto using prints_continue. done.
Qed.

Definition attribute_read (kv : text * option text) : text * text := (kv.1, default [] kv.2).
Lemma add_all l acc : NoDup (acc.*1 ++ l.*1) → foldl add_printed acc l = acc ++ (attribute_read <$> l).
Proof.
  revert acc. induction l as [|kv l IH]; intros acc Hd; simpl; [by rewrite app_nil_r|].
  assert (add_printed acc kv = acc ++ [attribute_read kv]) as ->.
  { unfold add_printed, add_attribute. rewrite decide_False; [done|].
    apply NoDup_app in Hd as (_&Hd&_). intros Hin. by apply (Hd kv.1 Hin), elem_of_cons; left. }
  rewrite IH; [by rewrite <- app_assoc|].
  by rewrite fmap_app, <- app_assoc.
Qed.
End reading.

(** ** Classes and trimming *)

Lemma split_tokens_space s t w c : is_html_space c →
  split_tokens (s ++ c :: t) w = split_tokens s w ++ tokens t.
Proof.
  intros Hc. revert w. induction s as [|d s IH]; intros w; simpl.
  - rewrite Is_true_true in Hc. rewrite Hc. unfold tokens. by case_decide.
  - destruct (is_html_space d); [case_decide|]; by rewrite IH.
Qed.
Lemma tokens_space s t c : is_html_space c → tokens (s ++ c :: t) = tokens s ++ tokens t.
Proof. apply split_tokens_space. Qed.
Lemma tokens_cons_space s c : is_html_space c → tokens (c :: s) = tokens s.
Proof. apply (tokens_space []). Qed.
Lemma split_tokens_word n w : forallb (λ c, negb (is_html_space c)) n → w ++ n ≠ [] →
  split_tokens n w = [w ++ n].
Proof.
  revert w. induction n as [|c n IH]; intros w Hn Hw; simpl.
  - rewrite app_nil_r in *. by rewrite decide_False.
  - apply andb_prop_elim in Hn as [Hc Hn]. destruct (is_html_space c); [done|].
    rewrite IH; [by rewrite <- app_assoc|done|]. by destruct w.
Qed.
Lemma tokens_word n : class_token n → tokens n = [n].
Proof.
  unfold class_token. intros [Hn Hc]%andb_prop_elim. unfold tokens. rewrite split_tokens_word; [done..|].
  simpl. by apply bool_decide_unpack in Hn.
Qed.
Lemma tokens_spaces s : forallb is_html_space s → tokens s = [].
Proof.
  induction s as [|c s IH]; simpl; [done|]. intros [Hc Hs]%andb_prop_elim.
  rewrite tokens_cons_space by done. auto.
Qed.

Lemma trim_start_split s : ∃ w, s = w ++ trim_start s ∧ forallb is_whitespace w.
Proof.
  induction s as [|c s (w&Hw&Hs)]; simpl; [by exists []|].
  destruct (is_whitespace c) eqn:Hc; [|by exists []].
  exists (c :: w). simpl. rewrite Hc. split; [by rewrite <- Hw|done].
Qed.
Lemma trim_end_split s : ∃ w, s = trim_end s ++ w ∧ forallb is_whitespace w.
Proof.
  destruct (trim_start_split (reverse s)) as (w&Hw&Hs). exists (reverse w). unfold trim_end. split.
  - rewrite <- (reverse_involutive s) at 1. rewrite Hw at 1. by rewrite reverse_app.
  - revert Hs. rewrite !forallb_True. by rewrite Forall_reverse.
Qed.

Lemma plain_app s t : plain (s ++ t) = plain s && plain t.
Proof. apply forallb_app. Qed.
Lemma plain_spaces w : plain w → forallb is_whitespace w → forallb is_html_space w.
Proof.
  induction w as [|c w IH]; simpl; [done|].
  intros [Hc Hw]%andb_prop_elim [Hc' Hw']%andb_prop_elim. apply andb_True. split; [|by apply IH].
  by destruct (is_whitespace c).
Qed.
Lemma tokens_app_spaces s w : forallb is_html_space w → tokens (s ++ w) = tokens s.
Proof.
  destruct w as [|c w]; simpl; [by rewrite app_nil_r|]. intros [Hc Hw]%andb_prop_elim.
  rewrite tokens_space by done. by rewrite (tokens_spaces w), app_nil_r.
Qed.
Lemma tokens_spaces_app w s : forallb is_html_space w → tokens (w ++ s) = tokens s.
Proof.
  induction w as [|c w IH]; simpl; [done|]. intros [Hc Hw]%andb_prop_elim.
  rewrite tokens_cons_space by done. auto.
Qed.
Lemma tokens_trim s : plain s → tokens (trim_end (trim_start s)) = tokens s.
Proof.
  intros Hp. destruct (trim_start_split s) as (w&Hw&Hs).
  destruct (trim_end_split (trim_start s)) as (w'&Hw'&Hs').
  rewrite Hw in Hp. rewrite plain_app in Hp. apply andb_prop_elim in Hp as [Hp Hp'].
  rewrite Hw' in Hp'. rewrite plain_app in Hp'. apply andb_prop_elim in Hp' as [_ Hp'].
  rewrite Hw at 2. rewrite tokens_spaces_app by auto using plain_spaces.
  rewrite Hw' at 2. by rewrite tokens_app_spaces by auto using plain_spaces.
Qed.

Lemma trim_end_semicolon s : trim_end (s ++ txt ";") = s ++ txt ";".
Proof. 
  unfold trim_end. rewrite reverse_app.
  change (reverse (59 :: reverse s) = s ++ [59]). by rewrite reverse_cons, reverse_involutive.
Qed.

(** ** The buffers *)

Section buffers.
Context `{Br : Browser} `{El : !Element E} `{!ElementLaws E} `{!CssTexts}.
Context (escape_attr : text → text).

Lemma mjoin_over (w u : write) c : mjoin (over w u c) = match u c with Some x => x | None => mjoin (w c) end.
Proof. unfold over. by destruct (u c). Qed.

(** What the buffers say after attributes that have written [w] *)
Record buffers_show (w : write) (has_class has_style has_inner : bool) (b : buffers) : Prop := {
  bs_class n : class_token n → mjoin (w (CClass n)) = if decide (n ∈ tokens (class b)) then Some [] else None;
  bs_no_class : has_class = false → tokens (class b) = [];
  bs_plain : plain (class b);
  bs_style p : css_longhand p → mjoin (w (CCss p)) = css_declared (style b) p;
  bs_no_style : has_style = false → style b = [];
  bs_complete : css_complete (style b);
  bs_ends : ∃ s, style b = [] ∨ style b = s ++ txt ";";
  bs_trimmed : trim_start (style b) = style b;
  bs_inner : mjoin (w CInner) = inner_contents (inner_html b);
  bs_no_inner : has_inner = false → inner_html b = [];
}.

Fixpoint class_text (c : class_value) : text :=
  match c with
  | CStr s => s
  | CToggle n include => if include then n else []
  | CNone => []
  | CSome c => class_text c
  end.
Lemma class_value_text c b : class_value_to_html c b = b ++ class_text c.
Proof. induction c as [|n []| |]; simpl; rewrite ?app_nil_r; done. Qed.
Lemma class_to_html_tokens c b :
  tokens (class_to_html c b) = (if should_overwrite c then [] else tokens b) ++ tokens (class_text c).
Proof.
  unfold class_to_html. rewrite class_value_text, <- app_assoc.
  change (txt " " ++ class_text c) with (32 :: class_text c).
  destruct (should_overwrite c); by rewrite tokens_space.
Qed.
Lemma class_text_plain c : class_plain c → plain (class_text c).
Proof. induction c as [|n []| |]; simpl; auto. Qed.
Lemma class_to_html_plain c b : plain b → class_plain c → plain (class_to_html c b).
Proof.
  intros Hb Hc. unfold class_to_html. rewrite class_value_text, !plain_app, !andb_True.
  split_and!; [by destruct (should_overwrite c)|done|by apply class_text_plain].
Qed.
Lemma class_written_text c n : class_names_ok c → class_token n →
  class_written c (CClass n) =
    if whole_class c then Some (if decide (n ∈ tokens (class_text c)) then Some [] else None)
    else if decide (n ∈ tokens (class_text c)) then Some (Some []) else None.
Proof.
  intros Hc Hn. induction c as [s|m include| |c IH]; simpl in *; auto.
  - destruct include; simpl; [|done]. rewrite tokens_word by done. unfold write_cell.
    assert (n ∈ [m] ↔ CClass n = CClass m) as Hnm by (rewrite list_elem_of_singleton; naive_solver).
    repeat case_decide; tauto.
Qed.
Lemma class_written_other c x : (∀ n, x ≠ CClass n) → visible x → class_written c x = None.
Proof.
  intros Hx Hv. induction c as [s|m []| |c IH]; simpl; auto.
  - destruct x; simpl in *; repeat case_decide; naive_solver.
  - unfold write_cell. case_decide; [by destruct (Hx m)|done].
Qed.

Lemma class_step w hc hs hi b c : class_names_ok c → class_plain c →
  should_overwrite c || negb (whole_class c) || negb hc →
  buffers_show w hc hs hi b →
  buffers_show (over w (class_written c)) true hs hi
    (mkBuffers (buf b) (class_to_html c (class b)) (style b) (inner_html b)).
Proof.
  intros Hn Hp Ho [Hcl Hnc Hpl Hst Hns Hcomp Hends Htr Hin Hni]. split; simpl; try done.
  - intros n Hn'. rewrite mjoin_over, class_written_text, class_to_html_tokens by done.
    assert (should_overwrite c → whole_class c) as Hwh by (by destruct c).
    destruct (whole_class c); simpl in *.
    + assert ((if should_overwrite c then [] else tokens (class b)) = []) as ->; [|done].
      destruct (should_overwrite c); [done|]. simpl in Ho. apply Hnc. by destruct hc.
    + destruct (should_overwrite c); [naive_solver|]. rewrite Hcl by done.
      repeat case_decide; set_solver.
  - by apply class_to_html_plain.
  - intros p Hp'. rewrite mjoin_over, class_written_other by done. auto.
  - rewrite mjoin_over, class_written_other by done. auto.
Qed.

Lemma style_written_other s x : (∀ p, x ≠ CCss p) → visible x → style_written s x = None.
Proof.
  intros Hx Hv. induction s as [s|p [v|[v|]]| |s IH]; simpl; auto.
  - destruct x; simpl in *; repeat case_decide; naive_solver.
  - unfold write_css, write_cell. repeat case_match; try done; subst; by destruct (Hx p).
  - unfold write_css, write_cell. repeat case_match; try done; subst; by destruct (Hx p).
Qed.

(** What holds of the style buffer *)
Record style_shows (w : write) (buf : text) : Prop := {
  ss_style p : css_longhand p → mjoin (w (CCss p)) = css_declared buf p;
  ss_complete : css_complete buf;
  ss_ends : ∃ s, buf = [] ∨ buf = s ++ txt ";";
  ss_trimmed : trim_start buf = buf;
}.

Lemma trim_start_app s t : s ≠ [] → trim_start s = s → trim_start (s ++ t) = s ++ t.
Proof.
  destruct s as [|c s]; [done|]. simpl. intros _. destruct (is_whitespace c) eqn:Hc; [|done].
  intros Hs. exfalso. assert (length (trim_start s) ≤ length s)%nat as Hl.
  { clear. induction s as [|c s IH]; simpl; [done|]. destruct (is_whitespace c); simpl; lia. }
  rewrite Hs in Hl. simpl in Hl. lia.
Qed.
Lemma trim_start_semicolon s : trim_start s = s → trim_start (s ++ txt ";") = s ++ txt ";".
Proof. destruct s; [done|]. by apply trim_start_app. Qed.

Lemma declaration_shows w b p v (c : css_property) : css_longhand p → css_ok p v → v ≠ [] →
  (∀ x, property_written p c x = write_css p v x) →
  style_shows w b → style_shows (over w (property_written p c)) (b ++ declaration p v).
Proof.
  intros Hp Hv Hv0 Hc [Hst Hco He Ht].
  assert (is_Some (css_value p v)) as Hs.
  { unfold css_ok in Hv. rewrite bool_decide_eq_false_2 in Hv by done. by destruct (css_value p v). }
  destruct (css_declaration b p v Hco He Hp Hs Hv0) as [Hco' Hst']. split; [|done|..].
  - intros p' Hp'. rewrite mjoin_over, Hc, write_css_ok, Hst', <- Hst by done. unfold write_cell.
    rewrite (decide_False (P := v = [])) by done.
    repeat case_decide; simplify_eq; naive_solver.
  - exists (b ++ p ++ txt ":" ++ v). right. unfold declaration. by rewrite <- !app_assoc.
  - destruct b as [|x b']; [|by apply trim_start_app].
    destruct (css_longhand_start p Hp) as (x&p'&->&Hx). simpl. by rewrite Hx.
Qed.

Lemma style_step_shows w b s : style_names_ok s → style_plain s → (whole_style s → b = []) →
  style_shows w b → style_shows (over w (style_written s)) (style_to_html s b).
Proof.
  intros Hn Hp Ho Hb. induction s as [s|p v| |s IH]; simpl in *; auto.
  - rewrite (Ho I). destruct Hp as [Hp Hp']. destruct (css_semicolon s Hp') as [Hc Hd]. split; [|done|..].
    + intros p Hlong. rewrite mjoin_over. simpl. by rewrite Hd.
    + exists s. by right.
    + by apply trim_start_semicolon.
  - destruct v as [v|[v|]]; simpl in *; [| |done];
      apply andb_prop_elim in Hn as [Hn Hok].
    + by apply (declaration_shows w b p v (PStr v)).
    + by apply (declaration_shows w b p v (POption (Some v))).
Qed.

Lemma style_step w hc hs hi b s : style_names_ok s → style_plain s →
  negb (whole_style s) || negb hs →
  buffers_show w hc hs hi b →
  buffers_show (over w (style_written s)) hc true hi
    (mkBuffers (buf b) (class b) (style_to_html s (style b)) (inner_html b)).
Proof.
  intros Hn Hp Ho [Hcl Hnc Hpl Hst Hns Hcomp Hends Htr Hin Hni].
  destruct (style_step_shows w (style b) s) as [Hst' Hcomp' Hends' Htr']; [done..| |by split|].
  { intros Hw. apply Hns. destruct (whole_style s), hs; done. }
  split; simpl; try done.
  - intros n Hn'. rewrite mjoin_over, style_written_other by done. auto.
  - rewrite mjoin_over, style_written_other by done. auto.
Qed.

Lemma inner_written_other i x : x ≠ CInner → inner_written i x = None.
Proof. intros Hx. induction i; simpl; auto. unfold write_cell. by case_decide. Qed.
Lemma inner_step w hc hs hi b i : negb hi →
  buffers_show w hc hs hi b →
  buffers_show (over w (inner_written i)) hc hs true
    (mkBuffers (buf b) (class b) (style b) (inner_to_html i (inner_html b))).
Proof.
  intros Hi [Hcl Hnc Hpl Hst Hns Hcomp Hends Htr Hin Hni]. split; simpl; try done.
  - intros n Hn'. rewrite mjoin_over, inner_written_other by done. auto.
  - intros p Hp. rewrite mjoin_over, inner_written_other by done. auto.
  - rewrite Hni by (by destruct hi). rewrite mjoin_over. rewrite Hni in Hin by (by destruct hi).
    induction i as [s| |i IH]; simpl; auto.
Qed.

Lemma value_step w hc hs hi b k v t : plain_key k →
  buffers_show w hc hs hi b →
  buffers_show (over w (value_written k v)) hc hs hi (mkBuffers t (class b) (style b) (inner_html b)).
Proof.
  intros Hk [Hcl Hnc Hpl Hst Hns Hcomp Hends Htr Hin Hni].
  apply in_plain in Hk as Hk'. assert (∀ x, (∀ k, x ≠ CAttr k) → value_written k v x = None) as Hv.
  { intros x Hx. apply value_written_covers; [done|]. destruct x; simpl; try done;
      try (by apply bool_decide_eq_false; naive_solver). }
  split; simpl; try done; intros; rewrite mjoin_over, Hv by done; auto.
Qed.
Lemma buffers_ext w w' hc hs hi b : (∀ c, visible c → w c = w' c) →
  buffers_show w hc hs hi b → buffers_show w' hc hs hi b.
Proof.
  intros Hw [Hcl Hnc Hpl Hst Hns Hcomp Hends Htr Hin Hni].
  split; try done; intros; rewrite <- Hw by done; auto.
Qed.

Definition is_leaf (a : attr) : bool :=
  match a with AUnit | APair _ _ | AAny _ _ | AVec _ => false | _ => true end.
Definition attr_ready (a : attr) : Prop := is_leaf a ∧ names_ok a ∧ leaf_plain a.

Lemma buffers_all l w hc hs hi b : Forall attr_ready l → order_ok hc hs hi l →
  buffers_show w hc hs hi b →
  ∃ hc' hs' hi', buffers_show (over w (written_all l)) hc' hs' hi'
                   (foldl (λ b a, attr_to_html escape_attr a b) b l).
Proof.
  intros Hl. revert w hc hs hi b. induction Hl as [|a l (Hleaf&Hn&Hp) _ IH]; intros w hc hs hi b Ho Hb.
  - by exists hc, hs, hi.
  - assert (∀ hc hs hi b', order_ok hc hs hi l → buffers_show (over w (written a)) hc hs hi b' →
      ∃ hc' hs' hi', buffers_show (over w (written_all (a :: l))) hc' hs' hi'
        (foldl (λ b a, attr_to_html escape_attr a b) b' l)) as Hstep.
    { intros hc1 hs1 hi1 b' Ho' Hb'. destruct (IH _ _ _ _ _ Ho' Hb') as (hc'&hs'&hi'&Hb'').
      exists hc', hs', hi'. eapply buffers_ext; [|done]. intros c _. simpl. by rewrite over_assoc. }
    destruct a; try done; simpl in *; try apply andb_prop_elim in Ho as [Ho Ho'];
      eapply Hstep; try done.
    + by apply value_step.
    + by apply value_step.
    + by eapply class_step.
    + by eapply style_step.
    + by eapply inner_step.
Qed.

Lemma buffers_start out : buffers_show no_write false false false (mkBuffers out [] [] []).
Proof.
  split; simpl; try done.
  - intros p _. by rewrite css_declared_nil.
  - apply css_complete_nil.
  - exists []. by left.
  - by rewrite inner_contents_nil.
Qed.

Lemma value_buf v k b : value_to_html escape_attr v k b = b ++ (value_printed k v ≫= print_attribute escape_attr).
Proof.
  induction v as [|s|[]|n| |v IH]; simpl; rewrite ?app_nil_r; try done.
Qed.
Lemma leaf_buf a b : is_leaf a →
  buf (attr_to_html escape_attr a b) = buf b ++ (printed a ≫= print_attribute escape_attr).
Proof. destruct a; simpl; rewrite ?app_nil_r; try done; intros _; apply value_buf. Qed.
Lemma all_buf l b : Forall is_leaf l →
  buf (foldl (λ b a, attr_to_html escape_attr a b) b l) = buf b ++ ((l ≫= printed) ≫= print_attribute escape_attr).
Proof.
  intros Hl. revert b. induction Hl as [|a l Ha _ IH]; intros b; simpl; [by rewrite app_nil_r|].
  rewrite IH, leaf_buf, <- app_assoc by done. by rewrite bind_app.
Qed.

Lemma html_leaves a b :
  attr_to_html escape_attr a b = foldl (λ b a, attr_to_html escape_attr a b) b (leaves a).
Proof.
  revert b. induction a as [|k v|k v|c|s|i|a1 a2 IHa IHb|t a IHa|l IHl] using attr_ind'; intros b; simpl; auto.
  - by rewrite foldl_app, <- IHa, <- IHb.
  - revert b. induction IHl as [|a l IHa _ IH]; intros b; simpl; [done|].
    by rewrite foldl_app, <- IHa, <- IH.
Qed.
Lemma leaves_leaf a : Forall is_leaf (leaves a).
Proof.
  induction a as [|k v|k v|c|s|i|a1 a2 IHa IHb|t a IHa|l IHl] using attr_ind'; simpl; auto.
  - by apply Forall_app.
  - induction IHl; simpl; [done|]. by apply Forall_app.
Qed.
Lemma leaves_names a : names_ok a → Forall (λ a, names_ok a) (leaves a).
Proof.
  induction a as [|k v|k v|c|s|i|a1 a2 IHa IHb|t a IHa|l IHl] using attr_ind'; simpl; auto.
  - intros [??]%andb_prop_elim. apply Forall_app; auto.
  - induction IHl; simpl; [done|]. intros [??]%andb_prop_elim. apply Forall_app; auto.
Qed.
End buffers.

(** ** Hydration *)

Section hydration.
Context `{Br : Browser} {E : Type} `{El : !Element E} `{!ElementLaws E}.

Definition all_written (f : attr → write) (l : list attr) : write := foldr (λ a, over (f a)) no_write l.

Lemma all_written_app f l l' c : all_written f (l ++ l') c = over (all_written f l) (all_written f l') c.
Proof.
  induction l as [|a l IH]; simpl; [by destruct (all_written f l' c) eqn:He; unfold over; rewrite He|].
  rewrite over_assoc. unfold over at 1 3. by rewrite IH.
Qed.

(** What the hydration of a part of a tuple writes *)
Fixpoint value_templated (k : text) (v : attr_value) : write :=
  match v with
  | VStr s => write_attribute k (Some s)
  | VBool _ => write_attribute k (Some [])
  | VInt n => write_attribute k (Some (to_string n))
  | VSome v => value_templated k v
  | _ => no_write
  end.
Definition leaf_hydrated (from_server : bool) (a : attr) : write :=
  match a with
  | AValue k v => if from_server then no_write else value_templated k v
  | ACustom k v => value_written k v
  | AClass c => if from_server then no_write else class_written c
  | AInner i => if from_server then no_write else inner_written i
  | _ => no_write
  end.

Local Abbreviation does := (does (E := E)).
Lemma value_hydrate_does b k v : attr_name k →
  does (value_hydrate b k v) v (if b then no_write else value_templated k v).
Proof. intros Hk. destruct b; induction v as [| |[]| | |]; simpl; eauto with attrs. Qed.
Lemma class_hydrate_does b c : class_names_ok c →
  does (class_hydrate b c) c (if b then no_write else class_written c).
Proof. destruct b; induction c as [|n []| |]; simpl; intros; eauto with attrs. Qed.
Lemma style_hydrate_does b s : does (style_hydrate b s) s no_write.
Proof. induction s; simpl; eauto with attrs; apply does_ret. Qed.
Lemma inner_hydrate_does b i : does (inner_hydrate b i) i (if b then no_write else inner_written i).
Proof. destruct b; induction i; simpl; eauto with attrs. Qed.

Lemma does_one {A} (m : stateM E A) x w : does m x w → does m x (over w no_write).
Proof. apply does_ext. done. Qed.

Lemma hydrate_does b a : names_ok a → does (hydrate b a) (shown a) (all_written (leaf_hydrated b) (leaves a)).
Proof.
  induction a as [|k v|k v|c|s|i|a1 a2 IHa IHb|t a IHa|l IHl] using attr_ind'; simpl; intros Ha.
  - apply does_ret.
  - apply does_one. apply (does_map _ _ StValue). apply value_hydrate_does. auto with attrs.
  - apply does_one. apply (does_map _ _ StValue). apply value_build_does. auto with attrs.
  - apply does_one. apply (does_map _ _ StClass). by apply class_hydrate_does.
  - apply does_one. apply (does_map _ _ StStyle). apply style_hydrate_does.
  - apply does_one. apply (does_map _ _ StInner). apply inner_hydrate_does.
  - apply andb_prop_elim in Ha as [Ha Hb]. eapply does_ext; [intros c; symmetry; apply all_written_app|].
    eapply does_bind; [by apply IHa|]. apply (does_map _ _ (StPair (shown a1))). by apply IHb.
  - apply (does_map _ _ (λ s, StAny t s (keys a))). by apply IHa.
  - apply (does_map _ _ StVec). induction IHl as [|a l Ha' _ IH]; simpl in *.
    + apply does_ret.
    + apply andb_prop_elim in Ha as [Ha Hl]. eapply does_ext; [intros c; symmetry; apply all_written_app|].
      eapply does_bind; [by apply Ha'|]. apply (does_map _ _ (cons (shown a))). by apply IH.
Qed.

Lemma written_leaves a c : written a c = all_written written (leaves a) c.
Proof.
  induction a as [|k v|k v|cl|s|i|a1 a2 IHa IHb|t a IHa|l IHl] using attr_ind';
    try done; try (simpl; unfold over; by destruct (_ c)).
  - simpl. rewrite all_written_app. unfold over. by rewrite IHa, IHb.
  - induction IHl as [|a l IHa _ IH]; [done|].
    change (over (written a) (written (AVec l)) c = all_written written (leaves a ++ leaves (AVec l)) c).
    rewrite all_written_app. unfold over. by rewrite <- IH, <- IHa.
Qed.

(** *** From a template *)

(** A template has none of these attributes, so what hydration leaves out is
    missing: styles, and what it sets regardless: attributes that are false. *)
Fixpoint value_template_ok (v : attr_value) : bool :=
  match v with VBool b => b | VSome v => value_template_ok v | _ => true end.
Fixpoint style_template_ok (s : style_value) : bool :=
  match s with SNone | SPair _ (POption None) => true | SSome s => style_template_ok s | _ => false end.
Definition template_ok (a : attr) : bool :=
  forallb (λ a, match a with
                | AValue _ v => value_template_ok v
                | AStyle s => style_template_ok s
                | _ => true
                end) (leaves a).

Lemma leaf_template a c : template_ok a → is_leaf a → leaf_hydrated false a c = written a c.
Proof.
  unfold template_ok. destruct a as [|k v|k v|cl|s|i|a1 a2|t a|l]; try done; simpl;
    rewrite andb_true_r; intros Ha _.
  - induction v as [| |[]| | |]; simpl in *; auto; done.
  - induction s as [|p [|[]]| |]; simpl in *; auto; done.
Qed.
Lemma template_written a c : template_ok a → all_written (leaf_hydrated false) (leaves a) c = written a c.
Proof.
  rewrite written_leaves. unfold template_ok. pose proof (leaves_leaf a) as Hl. revert Hl.
  induction (leaves a) as [|b l IH]; simpl; [done|].
  intros [Hb Hl]%Forall_cons [Hok Hall]%andb_prop_elim. unfold over. rewrite IH by done.
  rewrite leaf_template; [done| |done]. unfold template_ok. destruct b; try done; simpl; by rewrite andb_true_r.
Qed.

(** An element that was cloned from a template shows after its hydration what
    a build would show, if no style is set and no attribute is false. *)
Theorem hydrated_template_as_built a : names_ok a → template_ok a →
  ∃ (e e' : E), build a new_element = Ok (shown a, e) ∧ hydrate false a new_element = Ok (shown a, e') ∧
    ∀ c, visible c → look e' c = look e c.
Proof.
  intros Ha Hok. destruct (build_does a Ha new_element) as (e&He&Hw).
  destruct (hydrate_does false a Ha new_element) as (e'&He'&Hw').
  exists e, e'. split_and!; [done..|]. intros c Hc. rewrite Hw, Hw', template_written by done. done.
Qed.
End hydration.

(** ** The round trip *)

Section roundtrip.
Context `{Br : Browser} {E : Type} `{El : !Element E} `{!ElementLaws E} `{!CssTexts}.
Context (escape_attr decode : text → text).
Context (decode_escape : ∀ s, decode (escape_attr s) = s) (escape_quote : ∀ s, 34 ∉ escape_attr s).

Definition pairs_written (l : list (text * text)) : write :=
  foldr (λ kv, over (write_attribute kv.1 (Some kv.2))) no_write l.

Lemma pairs_written_app l l' c : pairs_written (l ++ l') c = over (pairs_written l) (pairs_written l') c.
Proof.
  induction l as [|a l IH]; simpl; [by destruct (pairs_written l' c) eqn:He; unfold over; rewrite He|].
  rewrite over_assoc. unfold over at 1 3. by rewrite IH.
Qed.
Lemma parsed_writes (l : list (text * text)) (e : E) : Forall (λ kv, attr_name kv.1) l →
  writes (pairs_written l) e (foldl (λ e kv, set_attribute kv.1 kv.2 e) e l).
Proof.
  intros Hl. revert e. induction Hl as [|kv l Hkv _ IH]; intros e; simpl; [done|].
  eapply writes_over; [by apply writes_set_attribute|apply IH].
Qed.

(** What is printed, and the attributes of the buffers *)
Definition printed_of (a : attr) : list (text * option text) := leaves a ≫= printed.
Definition buffer_attribute (k value : text) : list (text * option text) :=
  if decide (value = []) then [] else [(k, Some (trim_end (trim_start value)))].

Lemma push_attribute_print k v b :
  push_attribute escape_attr k v b = b ++ (buffer_attribute k v ≫= print_attribute escape_attr).
Proof.
  unfold push_attribute, buffer_attribute. case_decide; simpl; by rewrite app_nil_r.
Qed.

Lemma value_printed_key k v kv : kv ∈ value_printed k v → kv.1 = k.
Proof. induction v as [|s|[]|n| |v IH]; simpl; rewrite ?list_elem_of_singleton; set_solver. Qed.
Lemma printed_keys a kv : names_ok a → kv ∈ printed a → plain_key kv.1.
Proof. destruct a; simpl; try set_solver; intros Hk Hin; by apply value_printed_key in Hin as ->. Qed.
Lemma printed_of_keys a kv : names_ok a → kv ∈ printed_of a → plain_key kv.1.
Proof.
  intros Hn Hin. apply leaves_names in Hn. unfold printed_of in Hin.
  apply list_elem_of_bind in Hin as (b&Hb&Hin). rewrite Forall_forall in Hn. eauto using printed_keys.
Qed.

Lemma value_pairs k v x : pairs_written (attribute_read <$> value_printed k v) x = value_written k v x.
Proof. induction v as [|s|[]|n| |v IH]; simpl; auto. Qed.
Lemma leaf_pairs a k : is_leaf a → k ≠ key_class → k ≠ key_style →
  pairs_written (attribute_read <$> printed a) (CAttr k) = written a (CAttr k).
Proof.
  intros Ha H1 H2. destruct a as [|k' v|k' v|c|s|i| | |]; try done; simpl.
  - apply value_pairs.
  - apply value_pairs.
  - by rewrite class_written_other.
  - by rewrite style_written_other.
  - by rewrite inner_written_other.
Qed.
Lemma leaves_pairs l k : Forall is_leaf l → k ≠ key_class → k ≠ key_style →
  pairs_written (attribute_read <$> (l ≫= printed)) (CAttr k) = all_written written l (CAttr k).
Proof.
  intros Hl H1 H2. induction Hl as [|a l Ha _ IH]; [done|].
  rewrite bind_cons, fmap_app, pairs_written_app.
  change (all_written written (a :: l)) with (over (written a) (all_written written l)).
  unfold over. by rewrite IH, leaf_pairs.
Qed.

Lemma pairs_plain l x : Forall (λ kv, plain_key kv.1) l → (∀ k, x ≠ CAttr k) → pairs_written l x = None.
Proof.
  intros Hl Hx. induction Hl as [|kv l Hkv _ IH]; simpl; [done|]. apply over_None; [|done].
  apply in_plain in Hkv as [? ?]. destruct x; simpl; repeat case_decide; naive_solver.
Qed.

(** *** The hydration writes what is there *)

Lemma value_written_key k v k' x : value_written k v (CAttr k') = Some x → plain_key k → k' = k ∧ k ∈ (value_printed k v).*1.
Proof.
  intros Hw Hk. induction v as [|s|[]|n| |v IH]; simpl in *; try done; try auto;
    case_decide; simplify_eq; split; try done; by apply list_elem_of_singleton.
Qed.

Lemma pairs_absent l k : k ∉ l.*1 → pairs_written l (CAttr k) = None.
Proof.
  induction l as [|kv l IH]; simpl; [done|]. intros [Hk Hl]%not_elem_of_cons.
  apply over_None; [|auto]. simpl. by rewrite decide_False.
Qed.
Lemma read_keys (l : list (text * option text)) : (attribute_read <$> l).*1 = l.*1.
Proof. rewrite <- list_fmap_compose. by apply list_fmap_ext. Qed.

Lemma customs_written l c x : Forall is_leaf l → Forall (λ a, names_ok a) l → NoDup (l ≫= printed).*1 →
  all_written (leaf_hydrated true) l c = Some x → all_written written l c = Some x.
Proof.
  induction l as [|a l IH]; [done|]. rewrite bind_cons, fmap_app.
  intros [Hla Hll]%Forall_cons [Ha Hl]%Forall_cons (Hd1&Hd2&Hd3)%NoDup_app.
  change (all_written written (a :: l) c) with (over (written a) (all_written written l) c).
  change (all_written (leaf_hydrated true) (a :: l) c)
    with (over (leaf_hydrated true a) (all_written (leaf_hydrated true) l) c).
  unfold over. destruct (all_written (leaf_hydrated true) l c) as [y|] eqn:Hy.
  { intros [= ->]. by rewrite IH. }
  destruct a as [|k v|k v|cl|s|i| | |]; try done. simpl. intros Hw.
  destruct (covers (KAttribute k) c) eqn:Hc; [|by rewrite value_written_covers in Hw].
  apply covers_plain in Hc as ->; [|done].
  apply value_written_key in Hw as Hk; [|done]. destruct Hk as [_ Hk].
  apply in_plain in Ha as [? ?]. rewrite <- leaves_pairs, pairs_absent; [done| |done..].
  rewrite read_keys. by apply Hd2.
Qed.

(** *** The text is read back *)

Lemma buffer_attribute_keys k v : (buffer_attribute k v).*1 = if decide (v = []) then [] else [k].
Proof. unfold buffer_attribute. by case_decide. Qed.

(** All attributes of the tag *)
Definition tag_attributes (a : attr) (b : buffers) : list (text * option text) :=
  printed_of a ++ buffer_attribute key_class (class b) ++ buffer_attribute key_style (style b).

Lemma tag_attributes_print a out :
  attributes_to_html escape_attr a out =
  let b := attr_to_html escape_attr a (mkBuffers out [] [] []) in
  (out ++ (tag_attributes a b ≫= print_attribute escape_attr), inner_html b).
Proof.
  unfold attributes_to_html, tag_attributes. cbn zeta. rewrite !push_attribute_print.
  assert (buf (attr_to_html escape_attr a (mkBuffers out [] [] [])) =
          out ++ (printed_of a ≫= print_attribute escape_attr)) as ->.
  { rewrite html_leaves. rewrite all_buf by apply leaves_leaf. done. }
  by rewrite !bind_app, <- !app_assoc.
Qed.

Lemma tag_attributes_names a b : names_ok a → Forall (λ kv, attr_name kv.1) (tag_attributes a b).
Proof.
  intros Hn. unfold tag_attributes, buffer_attribute. apply Forall_app. split.
  - apply Forall_forall. intros kv Hkv. eapply plain_name, printed_of_keys; eauto.
  - repeat case_decide; simpl; auto.
Qed.

Lemma tag_attributes_NoDup a b : names_ok a → NoDup (printed_of a).*1 → NoDup (tag_attributes a b).*1.
Proof.
  intros Hn Hd. unfold tag_attributes. rewrite !fmap_app, !buffer_attribute_keys.
  apply NoDup_app. split_and!; [done| |].
  - intros k (kv&->&Hkv)%list_elem_of_fmap. apply printed_of_keys in Hkv as [? ?]%in_plain; [|done].
    repeat case_decide; simpl; set_solver.
  - repeat case_decide; simpl; rewrite ?NoDup_cons, ?NoDup_nil; try done.
    + split; [set_solver|done].
    + split; [set_solver|done].
    + split_and!; [set_solver|set_solver|done].
Qed.

(** *** What the browser makes of the tag *)

Lemma buffer_pairs k v x :
  pairs_written (attribute_read <$> buffer_attribute k v) x =
  if decide (v = []) then None else write_attribute k (Some (trim_end (trim_start v))) x.
Proof. unfold buffer_attribute. by case_decide. Qed.
Lemma printed_plain a : names_ok a → Forall (λ kv, plain_key kv.1) (attribute_read <$> printed_of a).
Proof.
  intros Hn. apply Forall_forall. intros kv (kv'&->&Hkv)%list_elem_of_fmap. by eapply printed_of_keys.
Qed.

Lemma tag_class w hc hs hi b n : buffers_show w hc hs hi b → class_token n →
  mjoin (pairs_written (attribute_read <$> buffer_attribute key_class (class b)) (CClass n)) = mjoin (w (CClass n)).
Proof.
  intros [Hcl _ Hpl _ _ _ _ _ _ _] Hn. rewrite buffer_pairs, Hcl by done.
  destruct (decide (class b = [])) as [->|_]; [done|]. simpl. by rewrite tokens_trim.
Qed.
Lemma tag_style w hc hs hi b p : buffers_show w hc hs hi b → css_longhand p →
  mjoin (pairs_written (attribute_read <$> buffer_attribute key_style (style b)) (CCss p)) = mjoin (w (CCss p)).
Proof.
  intros [_ _ _ Hst _ _ Hends Htr _ _] Hp. rewrite buffer_pairs, Hst by done.
  destruct (decide (style b = [])) as [->|Hb]; [by rewrite css_declared_nil|]. simpl. rewrite Htr.
  destruct Hends as (s&[?|Hs]); [done|]. by rewrite Hs, trim_end_semicolon.
Qed.

Lemma buffers_of a out : printable a → ∃ hc hs hi,
  buffers_show (written a) hc hs hi (attr_to_html escape_attr a (mkBuffers out [] [] [])).
Proof.
  intros (Hn&Ho&Hp&_). rewrite html_leaves.
  destruct (buffers_all escape_attr (leaves a) no_write false false false (mkBuffers out [] [] [])) as (hc&hs&hi&Hb).
  - pose proof (leaves_leaf a) as Hl. pose proof (leaves_names a Hn) as Hna.
    rewrite Forall_forall in Hl, Hna, Hp. apply Forall_forall. intros x Hx. split_and!; auto.
  - done.
  - apply buffers_start.
  - exists hc, hs, hi. eapply buffers_ext; [|exact Hb]. intros c _. rewrite written_leaves.
    unfold over. by destruct (written_all (leaves a) c) eqn:He; unfold written_all in He; unfold all_written; rewrite He.
Qed.

Lemma tag_written a b hc hs hi c : names_ok a → buffers_show (written a) hc hs hi b →
  visible c → c ≠ CInner →
  mjoin (pairs_written (attribute_read <$> tag_attributes a b) c) = mjoin (written a c).
Proof.
  intros Hn Hb Hc Hci. unfold tag_attributes. rewrite !fmap_app, pairs_written_app, mjoin_over, pairs_written_app.
  unfold over. destruct c as [k|n|p|]; [..|done].
  - destruct Hc as [H1 H2]. rewrite !buffer_pairs. simpl. rewrite !(decide_False (P := k = _)) by done.
    rewrite written_leaves, <- leaves_pairs by auto using leaves_leaf. by repeat case_decide.
  - rewrite <- (tag_class _ _ _ _ _ n Hb Hc), (pairs_plain (attribute_read <$> printed_of a)) by auto using printed_plain.
    rewrite (buffer_pairs key_style). simpl. repeat case_decide; try done;
      by destruct (pairs_written _ _).
  - rewrite <- (tag_style _ _ _ _ _ p Hb Hc), (pairs_plain (attribute_read <$> printed_of a)) by auto using printed_plain.
    rewrite (buffer_pairs key_class). simpl. by destruct (pairs_written _ _), (decide (class b = [])).
Qed.
Lemma pairs_inner l : pairs_written l CInner = None.
Proof. induction l; simpl; [done|]. by apply over_None. Qed.

Lemma parsed_displays a out : printable a →
  let b := attr_to_html escape_attr a (mkBuffers out [] [] []) in
  displays a (parsed_element (E := E) (attribute_read <$> tag_attributes a b) (inner_html b)).
Proof.
  intros Hp b c Hc. destruct (buffers_of a out Hp) as (hc&hs&hi&Hb). fold b in Hb.
  destruct Hp as (Hn&_&_&Hd). unfold parsed_element.
  set (e0 := foldl _ _ _).
  assert (look e0 c = mjoin (pairs_written (attribute_read <$> tag_attributes a b) c)) as He0.
  { unfold e0. rewrite parsed_writes; [|apply Forall_fmap, tag_attributes_names, Hn|done].
    rewrite look_new by done. by destruct (pairs_written _ c). }
  assert (c ≠ CInner → mjoin (pairs_written (attribute_read <$> tag_attributes a b) c) = mjoin (written a c)) as Hw.
  { intros Hci. by eapply tag_written. }
  destruct (decide (inner_html b = [])) as [Hi|Hi].
  - destruct (decide (c = CInner)) as [->|Hci]; [|by rewrite He0, Hw].
    rewrite He0. destruct Hb as [_ _ _ _ _ _ _ _ -> _]. rewrite Hi, inner_contents_nil.
    by rewrite pairs_inner.
  - rewrite writes_set_inner by done. unfold write_cell.
    destruct (decide (c = CInner)) as [->|Hci]; [|by rewrite He0, Hw].
    by destruct Hb as [_ _ _ _ _ _ _ _ -> _].
Qed.

(** C13: A browser reads the printed attributes of an element back, up to the end of
    the tag; hydration of the element that it makes of them gives the state of a
    build, and the element shows what a built one shows.  This holds for attributes
    that are [printable]: names are ones the DOM accepts and no attribute has the
    name of another one; a whole class or style comes before the toggled classes
    and the properties, and there is one inner HTML; and texts have no white space
    that only Rust knows, and styles are complete declarations. *)
Theorem printed_attributes_hydrate (a : attr) (out rest : text) : printable a →
  let html := attributes_to_html escape_attr a out in
  ∃ text l (e e' : E),
    html.1 = out ++ text ∧
    read_tag decode BeforeName (text ++ gt :: rest) [] = Some (l, rest) ∧
    build a new_element = Ok (shown a, e) ∧
    hydrate true a (parsed_element l html.2) = Ok (shown a, e') ∧
    ∀ c, visible c → look e' c = look e c.
Proof.
  intros Hp html. subst html. rewrite tag_attributes_print. cbn zeta. cbn [fst snd].
  set (b := attr_to_html _ _ _). pose proof (parsed_displays a out Hp) as Hd. fold b in Hd. cbn zeta in Hd.
  destruct Hp as (Hn&_&_&Hnd).
  destruct (build_displays (E := E) a Hn) as (e&He&Hed).
  set (l := attribute_read <$> tag_attributes a b) in *.
  destruct (hydrate_does true a Hn (parsed_element l (inner_html b))) as (e'&He'&Hw).
  exists (tag_attributes a b ≫= print_attribute escape_attr), l, e, e'. split_and!; try done.
  - rewrite read_attributes by (done || by apply tag_attributes_names || by (exists gt, rest; auto)).
    rewrite add_all by (simpl; by apply tag_attributes_NoDup). done.
  - intros c Hc. rewrite Hw, Hed by done.
    destruct (all_written (leaf_hydrated true) (leaves a) c) as [x|] eqn:Hx; [|by apply Hd].
    apply customs_written in Hx; [|by apply leaves_leaf|by apply leaves_names|done].
    by rewrite written_leaves, Hx.
Qed.
End roundtrip.
