(* ===== verification/AttrCases.v ===== *)
(** * Attributes in a concrete browser

    A browser and elements that satisfy the laws, the theorems of [AttrProps] and
    [AttrHtml] at concrete attributes, and rebuilds after which an element does
    not show what a new one would. *)

From Stdlib Require Import NArith.
From stdpp Require Import base list gmap strings.
From S2P Require Import Prelude JsScript Attributes AttrFacts AttrProps AttrHtml.

Open Scope N_scope.

(** ** The browser *)

Definition css_name_char (c : N) : bool := between 97 122 c || (c =? 45).
Definition css_value_char (c : N) : bool := name_char c || (c =? 35) || (c =? 37).
Definition concrete_value (p v : text) : option text :=
  if bool_decide (v ≠ []) && forallb css_value_char v then Some v else None.

(** The declarations of a style text, without their spaces *)
Fixpoint pieces (s piece : text) : list text :=
  match s with
  | [] => [piece]
  | c :: s => if c =? 59 then piece :: pieces s []
              else pieces s (if is_html_space c then piece else piece ++ [c])
  end.
Fixpoint strip (p s : text) : option text :=
  match p, s with
  | [], _ => Some s
  | a :: p, b :: s => if a =? b then strip p s else None
  | _ :: _, [] => None
  end.
Definition piece_value (p piece : text) : option text :=
  v ← strip (p ++ txt ":") piece; concrete_value p v.
Definition last_value (p : text) (l : list text) : option text :=
  foldl (λ o piece, match piece_value p piece with Some v => Some v | None => o end) None l.

#[export] Instance concrete_Browser : Browser := {
  css_declared s p := last_value p (pieces s []);
  css_value := concrete_value;
  css_longhand p := bool_decide (p ≠ []) && forallb css_name_char p;
  inner_contents s := if decide (s = []) then None else Some s;
}.

(** An element is what can be seen of it. *)
Definition element : Type := cell → option text.
Definition put (w : write) (e : element) : element := λ c, match w c with Some x => x | None => e c end.
#[export] Instance concrete_Element : Element element := {
  look e := e;
  new_element := λ _, None;
  set_attribute k v := put (write_attribute k (Some v));
  remove_attribute k := put (write_attribute k None);
  add_class n e := if class_token n then put (write_cell (CClass n) (Some [])) e else e;
  remove_class n := put (write_cell (CClass n) None);
  set_css_property p v := put (write_css p v);
  remove_css_property p := put (write_cell (CCss p) None);
  set_inner_html s := put (write_cell CInner (inner_contents s));
}.

#[export] Instance concrete_ElementLaws : ElementLaws element.
Proof.
  split; try done. intros n e Hn c Hc. simpl. by destruct (class_token n).
Qed.

Lemma style_pieces_app s t q : pieces (s ++ 59 :: t) q = pieces s q ++ pieces t [].
Proof.
  revert q. induction s as [|c s IH]; intros q; simpl; [done|].
  destruct (c =? 59); [by rewrite IH|]. apply IH.
Qed.
Definition word_char (c : N) : bool := negb (c =? 59) && negb (is_html_space c).
Lemma pieces_word w q : forallb word_char w → pieces w q = [q ++ w].
Proof.
  revert q. induction w as [|c w IH]; intros q; simpl; [by rewrite app_nil_r|].
  unfold word_char at 1. destruct (c =? 59); [done|]. destruct (is_html_space c); [done|].
  intros Hw. rewrite IH by done. by rewrite <- app_assoc.
Qed.

Lemma name_word c : css_name_char c → word_char c ∧ c ≠ 58.
Proof.
  unfold css_name_char, word_char, between, is_html_space.
  destruct (decide (c = 58)) as [->|Hc]; [done|]. intros Hn. split; [|done].
  rewrite orb_True, andb_True, !Is_true_true, !N.leb_le, N.eqb_eq in Hn.
  rewrite andb_True, !negb_True, !orb_True, !Is_true_true, !N.eqb_eq. lia.
Qed.
Lemma value_word c : css_value_char c → word_char c.
Proof.
  unfold css_value_char, name_char, word_char, between, is_html_space. intros Hn.
  rewrite !orb_True, !andb_True, !Is_true_true, !N.leb_le, !N.eqb_eq in Hn.
  rewrite andb_True, !negb_True, !orb_True, !Is_true_true, !N.eqb_eq. lia.
Qed.
Lemma forallb_imp {A} (f g : A → bool) l : (∀ x, f x → g x) → forallb f l → forallb g l.
Proof. intros Hfg. rewrite !forallb_True. intros Hl. by eapply Forall_impl. Qed.

Lemma strip_app p s : strip p (p ++ s) = Some s.
Proof. induction p as [|a p IH]; simpl; [done|]. by rewrite N.eqb_refl. Qed.
Lemma strip_other p p' s : forallb css_name_char p → forallb css_name_char p' → p' ≠ p →
  strip (p' ++ txt ":") (p ++ 58 :: s) = None.
Proof.
  revert p. induction p' as [|a p' IH]; intros [|b p] Hp Hp' Hne;
    cbn -[N.eqb css_name_char] in *; try done.
  - apply andb_prop_elim in Hp as [[_ Hb]%name_word _].
    destruct (_ =? b) eqn:He; [|done]. apply N.eqb_eq in He. by destruct Hb.
  - apply andb_prop_elim in Hp' as [[_ Ha]%name_word _].
    destruct (a =? 58) eqn:He; [|done]. by apply N.eqb_eq in He.
  - apply andb_prop_elim in Hp as [_ Hp], Hp' as [_ Hp'].
    destruct (N.eqb_spec a b) as [->|]; [|done]. apply IH; [done..|]. congruence.
Qed.

Lemma last_value_app p l piece :
  last_value p (l ++ [piece]) = match piece_value p piece with Some v => Some v | None => last_value p l end.
Proof. unfold last_value. by rewrite foldl_app. Qed.
Lemma piece_value_nil p : piece_value p [] = None.
Proof. unfold piece_value. by destruct p. Qed.

#[export] Instance concrete_CssTexts : CssTexts.
Proof.
  refine {| css_complete := λ _, True |}; simpl; try done.
  - intros p. unfold last_value. simpl. by rewrite piece_value_nil.
  - intros s _. split; [done|]. intros p.
    change (last_value p (pieces (s ++ 59 :: []) []) = last_value p (pieces s [])).
    rewrite style_pieces_app. change (pieces [] []) with [[] : text]. by rewrite last_value_app, piece_value_nil.
  - intros s p v _ Hs [Hp Hpc]%andb_prop_elim Hv Hv0. split; [done|]. intros p' [Hp' Hpc']%andb_prop_elim.
    assert (forallb word_char (p ++ 58 :: v)) as Hw.
    { unfold concrete_value in Hv. case_match eqn:Hc; [|by destruct Hv].
      apply andb_true_iff in Hc as [_ Hc%Is_true_true]. rewrite forallb_app. apply andb_True. split.
      - eapply forallb_imp; [|done]. intros c. apply name_word.
      - simpl. eapply forallb_imp; [|done]. apply value_word. }
    assert (pieces (declaration p v) [] = [p ++ 58 :: v; []]) as Hd.
    { change (declaration p v) with (p ++ 58 :: v ++ [59]).
      replace (p ++ 58 :: v ++ [59]) with ((p ++ 58 :: v) ++ 59 :: []) by (by rewrite <- app_assoc).
      by rewrite style_pieces_app, pieces_word. }
    assert (piece_value p' (p ++ 58 :: v) = if decide (p' = p) then concrete_value p v else None) as Hpv.
    { unfold piece_value. destruct (decide (p' = p)) as [->|Hne]; [|by rewrite strip_other].
      replace (p ++ 58 :: v) with ((p ++ txt ":") ++ v) by (by rewrite <- app_assoc). by rewrite strip_app. }
    assert (∃ l, pieces (s ++ declaration p v) [] = l ++ [p ++ 58 :: v] ++ [[]] ∧
                 last_value p' l = last_value p' (pieces s [])) as (l&->&Hl).
    { destruct Hs as (s'&[->| ->]).
      - exists []. simpl app at 1. rewrite Hd. split; [done|]. unfold last_value. simpl. by rewrite piece_value_nil.
      - exists (pieces s' []). rewrite <- app_assoc. change (txt ";" ++ declaration p v) with (59 :: declaration p v).
        rewrite style_pieces_app, Hd. split; [done|].
        change (last_value p' (pieces s' []) = last_value p' (pieces (s' ++ 59 :: []) [])).
        rewrite style_pieces_app. change (pieces [] []) with [[] : text]. by rewrite last_value_app, piece_value_nil. }
    rewrite app_assoc, !last_value_app, piece_value_nil, Hpv, Hl. case_decide; [|done].
    by destruct Hv as [x ->].
  - intros p [Hp Hpc]%andb_prop_elim. destruct p as [|c p]; [done|]. exists c, p. split; [done|].
    simpl in Hpc. apply andb_prop_elim in Hpc as [Hc _]. unfold css_name_char, between in Hc.
    rewrite orb_True, andb_True, !Is_true_true, !N.leb_le, N.eqb_eq in Hc.
    unfold is_whitespace, between. rewrite !orb_false_iff, !andb_false_iff, !N.eqb_neq, !N.leb_gt. lia.
Defined.

(** ** Escaping, as [html_escape] does it *)

Definition escape_char (c : N) : text :=
  if c =? 38 then txt "&amp;" else if c =? 60 then txt "&lt;" else if c =? 62 then txt "&gt;"
  else if c =? 34 then txt "&quot;" else [c].
Definition concrete_escape (s : text) : text := s ≫= escape_char.

Fixpoint decode_fuel (fuel : nat) (s : text) : text :=
  match fuel, s with
  | O, _ | _, [] => s
  | S fuel, c :: s' =>
      if c =? 38 then
        match strip (txt "amp;") s', strip (txt "lt;") s', strip (txt "gt;") s', strip (txt "quot;") s' with
        | Some r, _, _, _ => 38 :: decode_fuel fuel r
        | _, Some r, _, _ => 60 :: decode_fuel fuel r
        | _, _, Some r, _ => 62 :: decode_fuel fuel r
        | _, _, _, Some r => 34 :: decode_fuel fuel r
        | _, _, _, _ => c :: decode_fuel fuel s'
        end
      else c :: decode_fuel fuel s'
  end.
Definition concrete_decode (s : text) : text := decode_fuel (length s) s.

Lemma concrete_decode_escape s : concrete_decode (concrete_escape s) = s.
Proof.
  unfold concrete_decode.
  assert (∀ n, (length (concrete_escape s) ≤ n)%nat → decode_fuel n (concrete_escape s) = s) as H; [|by apply H].
  induction s as [|c s IH]; intros n Hn; [by destruct n|].
  unfold concrete_escape in *. rewrite bind_cons in *. revert Hn. unfold escape_char at 1 3.
  repeat match goal with |- context [if ?b then _ else _] => destruct b eqn:?Hb end;
    intros Hn; (destruct n as [|n]; [simpl in Hn; lia|]); simpl in *.
  all: repeat match goal with H : (_ =? _) = true |- _ => apply N.eqb_eq in H; subst end.
  all: try (rewrite IH by lia; done).
  rewrite Hb. by rewrite IH by lia.
Qed.
Lemma concrete_escape_quote s : 34 ∉ concrete_escape s.
Proof.
  unfold concrete_escape. rewrite list_elem_of_bind. intros (c&Hc&_). revert Hc. unfold escape_char.
  repeat match goal with |- context [if ?b then _ else _] => destruct b eqn:?Hb end; simpl; intros Hc;
    repeat (apply elem_of_cons in Hc as [Hc|Hc]; [simplify_eq; done|]); set_solver.
Qed.

(** ** The theorems at concrete attributes *)

(** [class="btn big"], [class:active], [disabled], [data-n] and a colour *)
Definition button (active disabled : bool) (n : Z) (colour : option text) : attr :=
  APair (AClass (CStr (txt "btn big")))
  (APair (AClass (CToggle (txt "active") active))
  (APair (AValue (txt "disabled") (VBool disabled))
  (APair (ACustom (txt "data-n") (VSome (VInt n)))
         (AStyle (SPair (txt "color") (POption colour)))))).
Definition button_type : attr_type :=
  TPair (TClass TCStr) (TPair (TClass TCToggle) (TPair (TValue (txt "disabled") TVBool)
    (TPair (TCustom (TVOption TVInt)) (TStyle (TSPair true))))).

Definition buttons : list attr :=
  [button false true 1 None; button true true 22 (Some (txt "blue"))].

(** The cells of a change are finitely many: each is compared. *)
Ltac one_cell H :=
  repeat first
    [ apply orb_True in H as [H|H]
    | apply bool_decide_unpack in H
    | apply elem_of_cons in H as [H|H]
    | apply elem_of_nil in H ]; try done; simplify_eq.

Lemma buttons_compatible : compatible_chain button_type (button true false 1 (Some (txt "red"))) buttons.
Proof.
  simpl. split_and!; try done; intros x Hv Hx; destruct x as [k|n|p|]; simpl in Hv, Hx; try done.
  all: one_cell Hx; by vm_compute.
Qed.
Lemma rebuilt_attributes_show_last_witness : ∃ s e s' e',
  (s ← build (button true false 1 (Some (txt "red"))); rebuild_all buttons s) new_element = Ok (s, e) ∧
  build (button true true 22 (Some (txt "blue"))) (new_element (E := element)) = Ok (s', e') ∧
  ∀ c, visible c → look e c = look e' c.
Proof.
  apply (rebuilt_attributes_show_last (E := element) button_type _ buttons). apply buttons_compatible.
Defined.

Lemma attributes_keep_types_witness :
  let a := AVec [AAny (TClass TCToggle) (AClass (CToggle (txt "on") true))] in
  let a' := AVec [AAny (TValue (txt "id") TVStr) (AValue (txt "id") (VStr (txt "x")));
                  AAny TAny (AAny TUnit AUnit)] in
  ∃ s e', (s ← first_render Built (APair (AAny TVec a) AUnit);
           rebuild_all [APair (AAny TVec a') AUnit; APair (AAny (TInner TIStr) (AInner (IStr []))) AUnit] s) new_element
          = Ok (s, e') ∧ state_has_type s (TPair TAny TUnit).
Proof.
  cbv zeta. apply (attributes_keep_types Built _ _ (TPair TAny TUnit)); [done|].
  repeat constructor.
Defined.

(** A whole style, a whole class and toggles, custom and optional attributes *)
Definition paragraph : attr :=
  APair (AStyle (SStr (txt "margin:1px; color:red")))
  (APair (AClass (CSome (CStr (txt " a b"))))
  (APair (AClass (CToggle (txt "on") true))
  (APair (AVec [AAny (TCustom TVStr) (ACustom (txt "title") (VStr (txt "<&>")))])
  (APair (AValue (txt "hidden") (VBool true))
         (AStyle (SPair (txt "color") (PStr (txt "blue")))))))).

Lemma paragraph_printed :
  attributes_to_html concrete_escape paragraph (txt "<p") =
  (txt "<p title='&lt;&amp;&gt;' hidden class='a b on' style='margin:1px; color:red;color:blue;'"
     ≫= (λ c, [if c =? 39 then 34 else c]), []).
Proof. by vm_compute. Qed.

Lemma paragraph_printable : printable paragraph.
Proof.
  split_and!; [done|done| |].
  - repeat (apply Forall_cons; split); try done.
  - apply (bool_decide_unpack (NoDup _)). by vm_compute.
Qed.
Lemma printed_attributes_hydrate_witness :
  let html := attributes_to_html concrete_escape paragraph (txt "<p") in
  ∃ text l (e e' : element),
    html.1 = txt "<p" ++ text ∧
    read_tag concrete_decode BeforeName (text ++ gt :: txt "hello</p>") [] = Some (l, txt "hello</p>") ∧
    build paragraph new_element = Ok (shown paragraph, e) ∧
    hydrate true paragraph (parsed_element l html.2) = Ok (shown paragraph, e') ∧
    ∀ c, visible c → look e' c = look e c.
Proof.
  apply (printed_attributes_hydrate concrete_escape concrete_decode
           concrete_decode_escape concrete_escape_quote). apply paragraph_printable.
Defined.

Lemma hydrated_template_as_built_witness : ∃ (e e' : element),
  build (button true true 3 None) new_element = Ok (shown (button true true 3 None), e) ∧
  hydrate false (button true true 3 None) new_element = Ok (shown (button true true 3 None), e') ∧
  ∀ c, visible c → look e' c = look e c.
Proof. by apply hydrated_template_as_built. Defined.

(** ** Where a rebuild falls short of a build *)

Definition sees (m : outcome (attr_state * element)) (c : cell) : option text :=
  match m with Ok (_, e) => e c | _ => None end.
Definition after (l : list attr) (a : attr) : outcome (attr_state * element) :=
  (s ← build a; rebuild_all l s) new_element.

(** A new whole class takes the toggled classes away: [class.rs] sets the
    attribute, and the toggles, which have not changed, do nothing. *)
Example new_class_drops_toggles :
  let view s := APair (AClass (CStr (txt s))) (AClass (CToggle (txt "on") true)) in
  sees (after [view "b"] (view "a")) (CClass (txt "on")) = None ∧
  sees (after [] (view "b")) (CClass (txt "on")) = Some [].
Proof. by vm_compute. Qed.

(** The state of a style keeps its first name, so a property is left behind. *)
Example renamed_style_stays :
  let view name value := AStyle (SPair (txt name) (PStr (txt value))) in
  let e := after [view "top" "2px"; view "left" "3px"] (view "left" "1px") in
  sees e (CCss (txt "top")) = Some (txt "2px") ∧ sees e (CCss (txt "left")) = Some (txt "3px") ∧
  sees (after [] (view "left" "3px")) (CCss (txt "top")) = None.
Proof. by vm_compute. Qed.

(** A custom attribute under a new name with the old value is not set, and the
    old one stays. *)
Example renamed_custom_attribute :
  let view name := ACustom (txt name) (VStr (txt "x")) in
  let e := after [view "data-b"] (view "data-a") in
  sees e (CAttr (txt "data-a")) = Some (txt "x") ∧ sees e (CAttr (txt "data-b")) = None.
Proof. by vm_compute. Qed.

(** An erased attribute of another type does not take the old one away. *)
Example erased_attribute_stays :
  let e := after [AAny (TClass TCStr) (AClass (CStr (txt "c")))]
                 (AAny (TValue (txt "id") TVStr) (AValue (txt "id") (VStr (txt "x")))) in
  sees e (CAttr (txt "id")) = Some (txt "x").
Proof. by vm_compute. Qed.

(** A vector of erased attributes with a class takes the other classes away. *)
Example spread_drops_classes :
  let view b := APair (AClass (CStr (txt "card")))
                      (AVec [AAny (TClass TCToggle) (AClass (CToggle (txt "on") b))]) in
  sees (after [view true] (view false)) (CClass (txt "card")) = None ∧
  sees (after [] (view true)) (CClass (txt "card")) = Some [].
Proof. by vm_compute. Qed.

(** A template gets attributes that are false, and no styles. *)
Example template_sets_false :
  let hydrated a := hydrate false a (new_element (E := element)) in
  sees (hydrated (AValue (txt "disabled") (VBool false))) (CAttr (txt "disabled")) = Some [] ∧
  sees (hydrated (AStyle (SStr (txt "top:1px")))) (CCss (txt "top")) = None ∧
  sees (after [] (AStyle (SStr (txt "top:1px")))) (CCss (txt "top")) = Some (txt "1px").
Proof. by vm_compute. Qed.

(** An optional class is appended by the server and overwrites in the browser. *)
Example optional_class_differs :
  let view := APair (AClass (CToggle (txt "on") true)) (AClass (CSome (CStr (txt "a")))) in
  tokens (class (attr_to_html concrete_escape view (mkBuffers [] [] [] []))) = [txt "on"; txt "a"] ∧
  sees (after [] view) (CClass (txt "on")) = None.
Proof. by vm_compute. Qed.
