(* ===== verification/HydrationContext.v ===== *)
(** * The hydration context

    [hydration_context]: what the server has loaded goes to the browser in
    scripts.  [SsrSharedContext] hands out ids, collects futures of serialized
    data, errors and markers, and [pending_data] turns them into a stream of
    scripts; [HydrateSharedContext] reads in the browser what the scripts have
    left in its global variables.  Texts are those of [JsScript].  A future is a
    tree of what its polls do to the context; the executor and
    [FuturesUnordered] may poll them in any order, which is given as a list of
    the positions that get polled. *)

From Stdlib Require Import NArith.
From stdpp Require Import base list gmap strings pretty.
From S2P Require Import Prelude JsScript.

Open Scope N_scope.

(** ** Texts of the standard library *)

Definition usize_max : N := 18446744073709551615.
Definition to_string (n : N) : text := txt (pretty n).

Section Debug.
(** The tables of Unicode: whether a character that is not ASCII is printed as
    it is *)
Context (is_printable : N → bool).

Definition hex_digit (d : N) : N := if d <? 10 then 48 + d else 87 + d.
Fixpoint hex_digits (fuel : nat) (n : N) (acc : text) : text :=
  match fuel with
  | O => acc
  | S fuel =>
      let acc := hex_digit (n mod 16) :: acc in
      if n <? 16 then acc else hex_digits fuel (n / 16) acc
  end.

(** [char::escape_debug] as [{:?}] of a [str] uses it *)
Definition escape_debug (c : N) : text :=
  if c =? 0 then txt "\0"
  else if c =? 9 then txt "\t"
  else if c =? 10 then txt "\n"
  else if c =? 13 then txt "\r"
  else if c =? 34 then [92; 34]
  else if c =? 92 then [92; 92]
  else if (if c <? 128 then between 32 126 c else is_printable c) then [c]
  else txt "\u{" ++ hex_digits 6 c [] ++ txt "}".

(** [format!("{:?}", s)] *)
Definition debug (s : text) : text := [34] ++ (s ≫= escape_debug) ++ [34].

(** [escape_lt] *)
Definition escape_lt_char (c : N) : text := if c =? ch "<" then txt "\u003c" else [c].
Definition escape_lt (s : text) : text := s ≫= escape_lt_char.

(** ** The server *)

(** A future of serialized data: what its next poll does, and whether it is
    ready then *)
Inductive fut :=
| FReady (fx : list effect) (data : text)
| FPending (fx : list effect) (next : fut)
with effect :=
| WriteAsync (id : text) (f : fut)
| RegisterError (boundary error_id message : text)
| SealErrors (boundary : text)
| SetIncompleteChunk (id : text).

Record SsrSharedContext := mkSsr {
  id : N;
  non_hydration_id : N;
  is_hydrating : bool;
  sync_buf : list (text * text);
  async_buf : list (text * fut);
  errors : list (text * text * text);
  sealed_error_boundaries : gset text;
  incomplete : list text;
}.

Definition SsrSharedContext_new : SsrSharedContext := mkSsr 0 usize_max true [] [] [] ∅ [].
Definition new_islands : SsrSharedContext := mkSsr 0 usize_max false [] [] [] ∅ [].

(** [fetch_add] and [fetch_sub] wrap around. *)
Definition next_id (c : SsrSharedContext) : text * SsrSharedContext :=
  if is_hydrating c then
    (to_string (id c),
      mkSsr ((id c + 1) mod (usize_max + 1)) (non_hydration_id c) (is_hydrating c) (sync_buf c) (async_buf c)
        (errors c) (sealed_error_boundaries c) (incomplete c))
  else
    (to_string (non_hydration_id c),
      mkSsr (id c) ((non_hydration_id c + usize_max) mod (usize_max + 1)) (is_hydrating c) (sync_buf c) (async_buf c)
        (errors c) (sealed_error_boundaries c) (incomplete c)).

Definition set_is_hydrating (b : bool) (c : SsrSharedContext) : SsrSharedContext :=
  mkSsr (id c) (non_hydration_id c) b (sync_buf c) (async_buf c) (errors c) (sealed_error_boundaries c) (incomplete c).

Definition set_async_buf (b : list (text * fut)) (c : SsrSharedContext) : SsrSharedContext :=
  mkSsr (id c) (non_hydration_id c) (is_hydrating c) (sync_buf c) b (errors c) (sealed_error_boundaries c) (incomplete c).
Definition set_errors (es : list (text * text * text)) (c : SsrSharedContext) : SsrSharedContext :=
  mkSsr (id c) (non_hydration_id c) (is_hydrating c) (sync_buf c) (async_buf c) es (sealed_error_boundaries c) (incomplete c).

Definition write_async (i : text) (f : fut) (c : SsrSharedContext) : SsrSharedContext :=
  set_async_buf (async_buf c ++ [(i, f)]) c.
Definition register_error (boundary error_id message : text) (c : SsrSharedContext) : SsrSharedContext :=
  set_errors (errors c ++ [(boundary, error_id, message)]) c.
Definition seal_errors (boundary : text) (c : SsrSharedContext) : SsrSharedContext :=
  mkSsr (id c) (non_hydration_id c) (is_hydrating c) (sync_buf c) (async_buf c) (errors c)
    ({[boundary]} ∪ sealed_error_boundaries c) (incomplete c).
Definition set_incomplete_chunk (i : text) (c : SsrSharedContext) : SsrSharedContext :=
  mkSsr (id c) (non_hydration_id c) (is_hydrating c) (sync_buf c) (async_buf c) (errors c)
    (sealed_error_boundaries c) (incomplete c ++ [i]).
Definition get_incomplete_chunk (i : text) (c : SsrSharedContext) : bool := bool_decide (i ∈ incomplete c).

(** [errors] and [take_errors] *)
Definition errors_of (boundary : text) (es : list (text * text * text)) : list (text * text) :=
  omap (λ '(b, e, m), if decide (b = boundary) then Some (e, m) else None) es.
Definition take_errors (c : SsrSharedContext) : list (text * text * text) * SsrSharedContext :=
  (errors c, set_errors [] c).

Definition do_effect (c : SsrSharedContext) (e : effect) : SsrSharedContext :=
  match e with
  | WriteAsync i f => write_async i f c
  | RegisterError b e m => register_error b e m c
  | SealErrors b => seal_errors b c
  | SetIncompleteChunk i => set_incomplete_chunk i c
  end.

(** [ResolvedData::write_to_buf] *)
Definition write_to_buf (r : text * text) : text := debug r.1 ++ txt ": " ++ debug (escape_lt r.2).

(** An error in the list of errors *)
Definition error_entry (e : text * text * text) : text :=
  let '(b, i, m) := e in
  txt "[" ++ debug b ++ txt ", " ++ debug i ++ txt ", " ++ escape_lt (debug m) ++ txt "]".

(** The first script of [pending_data]; [pending] are the ids of the set
    [initial_pending_ids] in the order of its iteration. *)
Definition initial_chunk (pending : list text) (c : SsrSharedContext) : text :=
  txt "__RESOLVED_RESOURCES={" ++ (sync_buf c ≫= λ r, write_to_buf r ++ txt ",") ++ txt "};" ++
  txt "__SERIALIZED_ERRORS=[" ++ (errors c ≫= λ e, error_entry e ++ txt ",") ++ txt "];" ++
  txt "__PENDING_RESOURCES=[" ++ (pending ≫= λ i, debug i ++ txt ",") ++ txt "];" ++
  txt "__INCOMPLETE_CHUNKS=[" ++ (incomplete c ≫= λ i, debug i ++ txt ",") ++ txt "];" ++
  txt "__RESOURCE_RESOLVERS=[];".

(** [AsyncDataStream]; the buffers that it shares are those of the context. *)
Record AsyncDataStream := mkStream {
  in_flight : list (text * fut);
  incomplete_emitted : nat;
  initial_pending_ids : gset text;
}.

Definition initial_ids (c : SsrSharedContext) : gset text := list_to_set (async_buf c).*1.

(** [pending_data]: the first script, and the stream *)
Definition pending_data (pending : list text) (c : SsrSharedContext) : text * (AsyncDataStream * SsrSharedContext) :=
  (initial_chunk pending c,
    (mkStream [] (length (incomplete c)) (initial_ids c),
      mkSsr (id c) (non_hydration_id c) (is_hydrating c) [] (async_buf c) [] (sealed_error_boundaries c) (incomplete c))).

(** A poll of the future at a position of [in_flight] *)
Definition poll_at (k : nat) (s : AsyncDataStream) (c : SsrSharedContext) :
    option (text * text) * (AsyncDataStream * SsrSharedContext) :=
  match in_flight s !! k with
  | Some (i, FReady fx data) =>
      (Some (i, data), (mkStream (delete k (in_flight s)) (incomplete_emitted s) (initial_pending_ids s), foldl do_effect c fx))
  | Some (i, FPending fx f) =>
      (None, (mkStream (<[k := (i, f)]> (in_flight s)) (incomplete_emitted s) (initial_pending_ids s), foldl do_effect c fx))
  | None => (None, (s, c))
  end.

(** [while let Poll::Ready(Some(..)) = in_flight.poll_next_unpin(cx)]: the data
    that are resolved, when the positions [picks] are polled one after the other *)
Fixpoint drain (picks : list nat) (s : AsyncDataStream) (c : SsrSharedContext) :
    list (text * text) * (AsyncDataStream * SsrSharedContext) :=
  match picks with
  | [] => ([], (s, c))
  | k :: picks =>
      let '(r, (s, c)) := poll_at k s c in
      let '(rs, sc) := drain picks s c in
      (match r with Some r => r :: rs | None => rs end, sc)
  end.

(** Newly registered futures move into [in_flight]. *)
Definition stage (s : AsyncDataStream) (c : SsrSharedContext) : AsyncDataStream * SsrSharedContext :=
  (mkStream (in_flight s ++ async_buf c) (incomplete_emitted s) (initial_pending_ids s), set_async_buf [] c).

(** The loop of [poll_next]; the list has the positions for each turn. *)
Fixpoint poll_loop (picks : list (list nat)) (s : AsyncDataStream) (c : SsrSharedContext) :
    list (text * text) * (AsyncDataStream * SsrSharedContext) :=
  let '(s, c) := stage s c in
  match picks with
  | [] => ([], (s, c))
  | ks :: picks =>
      let '(rs, (s, c)) := drain ks s c in
      if decide (rs ≠ [] ∧ async_buf c ≠ []) then
        let '(rs', sc) := poll_loop picks s c in (rs ++ rs', sc)
      else (rs, (s, c))
  end.

(** What [poll_next] writes for data, for markers and for errors *)
Definition write_resolved (initial : gset text) (r : text * text) : text :=
  (if decide (r.1 ∈ initial) then [] else txt "__PENDING_RESOURCES.push(" ++ debug r.1 ++ txt ");") ++
  txt "__RESOLVED_RESOURCES[" ++ debug r.1 ++ txt "] = " ++ debug (escape_lt r.2) ++ txt ";".
Definition write_incomplete (i : text) : text := txt "__INCOMPLETE_CHUNKS.push(" ++ debug i ++ txt ");".
Definition write_error (sealed : gset text) (e : text * text * text) : text :=
  if decide (e.1.1 ∈ sealed) then []
  else txt "__SERIALIZED_ERRORS.push(" ++ error_entry e ++ txt ");".

Inductive poll := Pending | Ready (item : option text).

(** [AsyncDataStream::poll_next] *)
Definition poll_next (picks : list (list nat)) (s : AsyncDataStream) (c : SsrSharedContext) :
    poll * (AsyncDataStream * SsrSharedContext) :=
  let '(rs, (s, c)) := poll_loop picks s c in
  let resolved :=
    (rs ≫= write_resolved (initial_pending_ids s)) ++
    (drop (incomplete_emitted s) (incomplete c) ≫= write_incomplete) ++
    (errors c ≫= write_error (sealed_error_boundaries c)) in
  let s := mkStream (in_flight s) (length (incomplete c)) (initial_pending_ids s) in
  let c := set_errors [] c in
  let done := bool_decide (in_flight s = []) && bool_decide (async_buf c = []) in
  (if done && bool_decide (resolved = []) then Ready None
   else if decide (resolved = []) then Pending
   else Ready (Some resolved), (s, c)).

(** The last script: the markers that came after the end of [AsyncDataStream] *)
Definition final_chunk (s : AsyncDataStream) (c : SsrSharedContext) : text :=
  drop (incomplete_emitted s) (incomplete c) ≫= write_incomplete.

(** What happens after [pending_data]: the rendering and other tasks use the
    context, and the response polls the stream.  At the end of the data the
    chained last script follows in the same poll. *)
Inductive response_event :=
| Other (e : effect)
| PollStream (picks : list (list nat)).

Fixpoint respond (es : list response_event) (s : AsyncDataStream) (c : SsrSharedContext) :
    list text * bool * (AsyncDataStream * SsrSharedContext) :=
  match es with
  | [] => ([], false, (s, c))
  | Other e :: es => respond es s (do_effect c e)
  | PollStream picks :: es =>
      match poll_next picks s c with
      | (Ready None, (s, c)) => ([final_chunk s c], true, (s, c))
      | (Ready (Some chunk), (s, c)) => let '(cs, b, sc) := respond es s c in (chunk :: cs, b, sc)
      | (Pending, (s, c)) => respond es s c
      end
  end.

(** All scripts of a response, and whether it has ended *)
Definition response (pending : list text) (es : list response_event) (c : SsrSharedContext) : list text * bool :=
  let '(chunk, (s, c)) := pending_data pending c in
  let '(cs, b, _) := respond es s c in
  (chunk :: cs, b).

(** [build_response] of the integrations wraps every chunk. *)
Definition wrap_script (nonce chunk : text) : text :=
  txt "<script" ++ nonce ++ txt ">" ++ chunk ++ txt "</script>".
End Debug.

(** ** The browser *)

Record HydrateSharedContext := mkHydrate {
  h_id : N;
  h_is_hydrating : bool;
  h_during_hydration : bool;
  (* the [LazyLock]s: read from the global variables when they are first used *)
  h_errors : option (list (text * text * text));
  h_incomplete : option (list text);
}.

Definition HydrateSharedContext_new : HydrateSharedContext := mkHydrate 0 true true None None.
Definition HydrateSharedContext_new_islands : HydrateSharedContext := mkHydrate 0 false true None None.

Definition as_string (v : js) : option text := match v with JStr s => Some s | _ => None end.

(** [serialized_errors] and [incomplete_chunks]: entries of another form are
    left out. *)
Definition serialized_errors (g : globals) : list (text * text * text) :=
  match g !! txt "__SERIALIZED_ERRORS" with
  | Some (JArr vs) =>
      omap (λ v, match v with
        | JArr entry =>
            b ← entry !! 0%nat ≫= as_string; i ← entry !! 1%nat ≫= as_string; m ← entry !! 2%nat ≫= as_string;
            Some (b, i, m)
        | _ => None
        end) vs
  | _ => []
  end.

Definition incomplete_chunks (g : globals) : list text :=
  match g !! txt "__INCOMPLETE_CHUNKS" with Some (JArr vs) => omap as_string vs | _ => [] end.

Definition hydrate_next_id (h : HydrateSharedContext) : text * HydrateSharedContext :=
  (to_string (h_id h),
    mkHydrate ((h_id h + 1) mod (usize_max + 1)) (h_is_hydrating h) (h_during_hydration h) (h_errors h) (h_incomplete h)).

Definition read_data (g : globals) (h : HydrateSharedContext) (i : text) : option text :=
  if h_during_hydration h then
    match g !! txt "__RESOLVED_RESOURCES" with
    | Some (JObj fs) => obj_get i fs ≫= as_string
    | _ => None
    end
  else None.

Definition hydration_complete (h : HydrateSharedContext) : HydrateSharedContext :=
  mkHydrate (h_id h) (h_is_hydrating h) false (h_errors h) (h_incomplete h).

Definition force_errors (g : globals) (h : HydrateSharedContext) : list (text * text * text) * HydrateSharedContext :=
  let es := default (serialized_errors g) (h_errors h) in
  (es, mkHydrate (h_id h) (h_is_hydrating h) (h_during_hydration h) (Some es) (h_incomplete h)).

Definition hydrate_errors (g : globals) (boundary : text) (h : HydrateSharedContext) :
    list (text * text) * HydrateSharedContext :=
  if h_during_hydration h then let '(es, h) := force_errors g h in (errors_of boundary es, h) else ([], h).

Definition hydrate_get_incomplete_chunk (g : globals) (i : text) (h : HydrateSharedContext) :
    bool * HydrateSharedContext :=
  if h_during_hydration h then
    let ids := default (incomplete_chunks g) (h_incomplete h) in
    (bool_decide (i ∈ ids), mkHydrate (h_id h) (h_is_hydrating h) (h_during_hydration h) (h_errors h) (Some ids))
  else (false, h).

Close Scope N_scope.
