(* ===== verification/HydrationFacts.v ===== *)
(** * Facts on scripts

    Texts that the lexer and the parser of [JsScript] take piece by piece, and
    string literals as [{:?}] prints them. *)

From Stdlib Require Import NArith.
From stdpp Require Import base list gmap strings pretty.
From S2P Require Import Prelude JsScript HydrationContext.

Open Scope N_scope.

(** ** The lexer *)

Lemma lex_app m a b :
  lex_from m (a ++ b) = ('(t, m) ← lex_from m a; '(t', m) ← lex_from m b; Some (t ++ t', m)).
Proof.
  revert m. induction a as [| c a IH]; intros m; simpl.
  - by destruct (lex_from m b) as [[t m'] |].
  - destruct (step m c) as [[t1 m1] |]; [| done]. simpl. rewrite IH.
    destruct (lex_from m1 a) as [[t2 m2] |]; [| done]. simpl.
    destruct (lex_from m2 b) as [[t3 m3] |]; [| done]. simpl. by rewrite app_assoc.
Qed.

(** Characters that end no token *)
Lemma lex_prefix m m' a b : lex_from m a = Some ([], m') → lex_from m (a ++ b) = lex_from m' b.
Proof. intros H. rewrite lex_app, H. simpl. by destruct (lex_from m' b) as [[]|]. Qed.

(** A text that starts and ends between tokens *)
Definition lexes (s : text) (ts : list token) : Prop := lex_from Plain s = Some (ts, Plain).

Lemma lexes_app a b ts us : lexes a ts → lexes b us → lexes (a ++ b) (ts ++ us).
Proof. unfold lexes. intros Ha Hb. by rewrite lex_app, Ha; simpl; rewrite Hb. Qed.
Lemma lexes_nil : lexes [] [].
Proof. done. Qed.
Lemma lexes_tokens s ts : lexes s ts → tokens s = Some ts.
Proof. unfold tokens, lexes. by intros ->. Qed.
Lemma lexes_bind {A} (l : list A) (f : A → text) (g : A → list token) :
  (∀ x, x ∈ l → lexes (f x) (g x)) → lexes (l ≫= f) (l ≫= g).
Proof.
  induction l as [| x l IH]; intros H; [done |]. rewrite !bind_cons.
  apply lexes_app; [apply H; left | apply IH; intros; apply H; by right].
Qed.

(** ** String literals *)

Definition octal_digit (c : N) : bool := between 48 55 c.

(** What a literal of [{:?}] keeps: the characters are scalar values, and no
    digit follows a NUL, which it prints as [\0]. *)
Fixpoint nul_safe (s : text) : bool :=
  match s with
  | [] => true
  | c :: s => (negb (c =? 0) || match s with d :: _ => negb (octal_digit d) | [] => true end) && nul_safe s
  end.
Definition scalar (c : N) : bool := (c <=? 1114111) && negb (is_surrogate c).
Definition text_ok (s : text) : bool := forallb scalar s && nul_safe s.

(** Any way to print characters that the lexer takes back *)
Record escapes (f : N → text) : Prop := mkEscapes {
  esc_nul : f 0 = txt "\0";
  esc_char c acc : scalar c = true → c ≠ 0 → lex_from (InStr acc) (f c) = Some ([], InStr (acc ++ [c]));
  esc_head c : octal_digit c = false → ∃ x r, f c = x :: r ∧ octal_digit x = false;
}.

Lemma lex_octal acc x s : octal_digit x = false → lex_from (InOctal acc 0 2) (x :: s) = lex_from (InStr (acc ++ [0])) (x :: s).
Proof. intros Hx. simpl. unfold octal_digit in Hx. by rewrite Hx. Qed.

Lemma lex_literal f s : escapes f → text_ok s = true → ∀ acc rest,
  lex_from (InStr acc) ((s ≫= f) ++ 34 :: rest) = ('(ts, m) ← lex_from Plain rest; Some (TStr (acc ++ s) :: ts, m)).
Proof.
  intros [Hnul Hchar Hhead]. unfold text_ok. rewrite andb_true_iff. intros [Hsc Hsafe].
  induction s as [| c s IH]; intros acc rest; [by rewrite app_nil_r |].
  simpl in Hsc, Hsafe. apply andb_true_iff in Hsc as [Hc Hsc], Hsafe as [Hcs Hsafe].
  specialize (IH Hsc Hsafe (acc ++ [c]) rest).
  replace (acc ++ c :: s) with ((acc ++ [c]) ++ s) by by rewrite <- app_assoc. rewrite <- IH.
  rewrite bind_cons, <- app_assoc. destruct (decide (c = 0)) as [-> | Hc0].
  - rewrite Hnul.
    rewrite (lex_prefix _ (InOctal acc 0 2)) by done. clear IH. destruct s as [| d s]; [by apply lex_octal |].
    apply negb_true_iff in Hcs. destruct (Hhead d Hcs) as (x & r & Hd & Hx).
    rewrite bind_cons, Hd. by apply lex_octal.
  - by rewrite (lex_prefix _ (InStr (acc ++ [c]))) by auto.
Qed.

(** ** Escapes *)

Lemma hex_digit_value d : d < 16 → hex_value (hex_digit d) = Some d ∧ (hex_digit d =? ch "}") = false.
Proof.
  intros H. unfold hex_digit, hex_value, between. change (ch "}") with 125.
  destruct (N.ltb_spec d 10);
    repeat match goal with |- context [?a <=? ?b] => destruct (N.leb_spec a b); try lia end; simpl;
    (split; [f_equal; lia | apply N.eqb_neq; lia]).
Qed.

Lemma lex_hex acc n a fuel : n < 16 ^ N.of_nat fuel → (0 < fuel)%nat →
  lex_from (InUBrace acc 0) (hex_digits fuel n a) = lex_from (InUBrace acc n) a.
Proof.
  revert n a. induction fuel as [| fuel IH]; intros n a Hn Hf; [lia |]. simpl.
  assert (Hstep : ∀ v d, d < 16 → lex_from (InUBrace acc v) (hex_digit d :: a) = lex_from (InUBrace acc (16 * v + d)) a).
  { intros v d Hd. destruct (hex_digit_value d Hd) as [Hv He].
    apply (lex_prefix _ _ [hex_digit d]). cbn [lex_from step]. by rewrite He, Hv. }
  pose proof (N.mod_lt n 16) as Hm. destruct (N.ltb_spec n 16) as [Hlt | Hge].
  - rewrite Hstep by lia. by rewrite N.mod_small by lia.
  - rewrite IH.
    + rewrite Hstep by lia. f_equal. f_equal. pose proof (N.div_mod n 16). lia.
    + apply N.Div0.div_lt_upper_bound. rewrite Nat2N.inj_succ, N.pow_succ_r' in Hn. lia.
    + destruct fuel; [| lia]. simpl in Hn. lia.
Qed.

Section Literals.
Context (is_printable : N → bool).
Abbreviation dbg := (debug is_printable).

Lemma scalar_bound c : scalar c = true → c ≤ 1114111 ∧ is_surrogate c = false.
Proof. unfold scalar. rewrite andb_true_iff, negb_true_iff, N.leb_le. done. Qed.

Lemma escapes_debug : escapes (escape_debug is_printable).
Proof.
  constructor.
  - done.
  - intros c acc Hc H0. unfold escape_debug.
    repeat match goal with |- context [c =? ?n] => destruct (N.eqb_spec c n) as [-> |]; [first [done | reflexivity] |] end.
    case_match.
    + simpl. unfold step_str.
      repeat match goal with |- context [c =? ?n] => destruct (N.eqb_spec c n) as [-> |]; [first [done | reflexivity] |] end. done.
    + rewrite (lex_prefix _ (InUBrace acc 0)) by done. apply scalar_bound in Hc as [Hc Hs].
      assert (Hh : ∀ fuel a b n, hex_digits fuel n a ++ b = hex_digits fuel n (a ++ b)).
      { induction fuel as [| fuel IH]; intros a b k; cbn [hex_digits]; [done |]. destruct (k <? 16); [done | by rewrite IH]. }
      rewrite Hh, lex_hex; [| simpl; lia | lia]. simpl.
      destruct (N.ltb_spec 1114111 c); [lia |]. by rewrite Hs.
  - intros c Hc. unfold escape_debug. repeat case_match; simpl; eauto.
Qed.

Lemma lexes_debug s : text_ok s = true → lexes (dbg s) [TStr s].
Proof.
  intros Hs. unfold lexes, debug. change ([34] ++ ?X) with (34 :: X). cbn [lex_from step].
  change (step_plain 34) with (Some ([] : list token, InStr [])). simpl.
  rewrite (lex_literal _ s escapes_debug Hs). done.
Qed.

(** [escape_lt] after [{:?}]: the escape is one of JavaScript. *)
Lemma escape_lt_bind f (s : text) : escape_lt (s ≫= f) = s ≫= (λ c, escape_lt (f c)).
Proof.
  unfold escape_lt. induction s as [| c s IH]; [done |]. rewrite !bind_cons, bind_app. by rewrite IH.
Qed.

Definition no_lt (s : text) : Prop := Forall (λ x, x ≠ ch "<") s.

Lemma hex_digits_no_lt fuel n a : no_lt a → no_lt (hex_digits fuel n a).
Proof.
  revert n a. induction fuel as [| fuel IH]; intros n a Ha; cbn [hex_digits]; [done |].
  assert (no_lt (hex_digit (n mod 16) :: a)) as Hd.
  { constructor; [| done]. unfold hex_digit. change (ch "<") with 60. destruct (N.ltb_spec (n mod 16) 10); lia. }
  destruct (n <? 16); [done | by apply IH].
Qed.

Lemma escape_debug_no_lt c : c ≠ ch "<" → no_lt (escape_debug is_printable c).
Proof.
  intros Hc. unfold escape_debug, no_lt.
  repeat match goal with |- context [if ?b then _ else _] => destruct b end;
    try (repeat (constructor; [done |]); constructor).
  apply Forall_app; split; [by repeat constructor |]. apply Forall_app; split; [| by repeat constructor].
  apply hex_digits_no_lt. constructor.
Qed.

Lemma escapes_debug_lt : escapes (λ c, escape_lt (escape_debug is_printable c)).
Proof.
  pose proof escapes_debug as [Hnul Hchar Hhead]. constructor.
  - done.
  - intros c acc Hc H0. destruct (decide (c = ch "<")) as [-> | Hlt]; [done |].
    replace (escape_lt (escape_debug is_printable c)) with (escape_debug is_printable c); [by apply Hchar |].
    symmetry. unfold escape_lt.
    pose proof (escape_debug_no_lt c Hlt) as Hall.
    induction Hall as [| x l Hx Hl IH]; [done |]. rewrite bind_cons, IH. unfold escape_lt_char.
    by rewrite (proj2 (N.eqb_neq _ _) Hx).
  - intros c Hc. destruct (Hhead c Hc) as (x & r & -> & Hx). unfold escape_lt. rewrite bind_cons.
    unfold escape_lt_char at 1. case_match; simpl; eauto. 
Qed.

Lemma lexes_debug_lt s : text_ok s = true → lexes (escape_lt (dbg s)) [TStr s].
Proof.
  intros Hs. unfold lexes, debug. 
  replace (escape_lt _) with (34 :: (s ≫= λ c, escape_lt (escape_debug is_printable c)) ++ [34]).
  - cbn [lex_from step]. change (step_plain 34) with (Some ([] : list token, InStr [])). simpl.
    rewrite (lex_literal _ s escapes_debug_lt Hs). done.
  - rewrite <- escape_lt_bind. unfold escape_lt. rewrite !bind_app. done.
Qed.

(** [escape_lt] before [{:?}] *)
Lemma text_ok_escape_lt s : text_ok s = true → text_ok (escape_lt s) = true.
Proof.
  unfold text_ok. rewrite !andb_true_iff. intros [Hsc Hsafe]. split.
  - unfold escape_lt. induction s as [| c s IH]; [done |]. simpl in Hsc, Hsafe.
    apply andb_true_iff in Hsc as [Hc Hsc], Hsafe as [_ Hsafe]. rewrite bind_cons, forallb_app, IH by done.
    unfold escape_lt_char. case_match; simpl; [done |]. by rewrite Hc.
  - clear Hsc. induction s as [| c s IH]; [done |]. simpl in Hsafe. apply andb_true_iff in Hsafe as [Hc Hsafe].
    specialize (IH Hsafe). unfold escape_lt in *. rewrite bind_cons. unfold escape_lt_char at 1.
    destruct (N.eqb_spec c (ch "<")) as [-> |]; simpl; [by rewrite IH |]. rewrite IH, andb_true_r.
    destruct (N.eqb_spec c 0); [| done]. simpl in *. destruct s as [| d s]; [done |]. rewrite bind_cons.
    unfold escape_lt_char at 1. by destruct (d =? ch "<").
Qed.
End Literals.

(** ** Values *)

(** Tokens that the parser takes for a value, whatever follows *)
Definition parses (ts : list token) (v : js) : Prop :=
  ∀ n rest, (length ts < n)%nat → parse_value n (ts ++ rest) = Some (v, rest).

Lemma parses_str s : parses [TStr s] (JStr s).
Proof. intros [| n] rest Hn; [simpl in Hn; lia | done]. Qed.

Lemma parses_head ts v rest : parses ts v → expect (punct "]") (ts ++ rest) = None.
Proof.
  intros H. destruct ts as [| t ts].
  - specialize (H 1%nat []). simpl in H. by ospecialize (H _); [lia |].
  - simpl. case_decide as Ht; [| done]. subst t. specialize (H (S (S (length ts))) []).
    by ospecialize (H _); [simpl; lia |].
Qed.

(** The elements of an array, with a comma after each *)
Lemma parse_elems_ok tss vs : Forall2 parses tss vs → ∀ n rest,
  (length (tss ≫= (λ ts, ts ++ [punct ","])) < n)%nat →
  parse_elems n ((tss ≫= (λ ts, ts ++ [punct ","])) ++ punct "]" :: rest) = Some (vs, rest).
Proof.
  induction 1 as [| ts v tss vs Hts Htss IH]; intros [| n] rest Hn; [simpl in Hn; lia | done | simpl in Hn; lia |].
  rewrite bind_cons in Hn |- *. rewrite !length_app in Hn. simpl in Hn. rewrite <- !app_assoc. cbn [parse_elems].
  rewrite (parses_head _ _ _ Hts), Hts by lia. simpl. by rewrite IH by lia.
Qed.

Lemma parses_array tss vs : Forall2 parses tss vs →
  parses (punct "[" :: (tss ≫= (λ ts, ts ++ [punct ","])) ++ [punct "]"]) (JArr vs).
Proof.
  intros H [| n] rest Hn; [simpl in Hn; lia |]. simpl in *. rewrite length_app in Hn. simpl in Hn.
  rewrite <- app_assoc. simpl. by rewrite (parse_elems_ok _ _ H) by lia.
Qed.

Lemma parses_triple a b c :
  parses [punct "["; TStr a; punct ","; TStr b; punct ","; TStr c; punct "]"] (JArr [JStr a; JStr b; JStr c]).
Proof. intros n rest Hn. simpl in Hn. do 8 (destruct n as [| n]; [lia |]). done. Qed.

(** The fields of an object of strings *)
Definition field_tokens (f : text * text) : list token := [TStr f.1; punct ":"; TStr f.2; punct ","].
Lemma parse_fields_ok fs : ∀ n rest acc, (length (fs ≫= field_tokens) < n)%nat →
  parse_fields n ((fs ≫= field_tokens) ++ punct "}" :: rest) acc =
    Some (foldl (λ acc f, obj_set f.1 (JStr f.2) acc) acc fs, rest).
Proof.
  induction fs as [| f fs IH]; intros [| n] rest acc Hn; [simpl in Hn; lia | done | simpl in Hn; lia |].
  rewrite bind_cons in Hn |- *. simpl in Hn. destruct n as [| n]; [lia |]. simpl. rewrite <- IH with (n := S n) by lia. done.
Qed.

Lemma parses_object fs :
  parses (punct "{" :: (fs ≫= field_tokens) ++ [punct "}"]) (JObj (foldl (λ acc f, obj_set f.1 (JStr f.2) acc) [] fs)).
Proof.
  intros [| n] rest Hn; [simpl in Hn; lia |]. simpl in *. rewrite length_app in Hn. simpl in Hn.
  rewrite <- app_assoc. simpl. by rewrite parse_fields_ok by lia.
Qed.

Lemma obj_get_set k k' v fs : obj_get k (obj_set k' v fs) = if decide (k = k') then Some v else obj_get k fs.
Proof.
  induction fs as [| [k0 v0] fs IH]; simpl; [by repeat case_decide; congruence |].
  destruct (decide (k' = k0)) as [-> |]; simpl.
  - by repeat case_decide.
  - rewrite IH. repeat case_decide; congruence.
Qed.

(** ** Statements *)

(** A text that runs: it changes global variables that are as [P] says to what
    [Q] says. *)
Definition runs (P : globals → Prop) (s : text) (Q : globals → Prop) : Prop :=
  ∃ ts k, lexes s ts ∧ (k ≤ length ts)%nat ∧ ∀ n rest g, P g → (length ts < n)%nat →
    ∃ g', Q g' ∧ exec_stmts (k + n) (ts ++ rest) g = exec_stmts n rest g'.

Lemma runs_exec P s Q g : runs P s Q → P g → ∃ g', exec_script s g = Some g' ∧ Q g'.
Proof.
  intros (ts & k & Hl & Hk & H) Hg. destruct (H (S (length ts + length ts) - k)%nat [] g Hg) as (g' & HQ & E); [lia |].
  exists g'. split; [| done]. unfold exec_script. rewrite (lexes_tokens _ _ Hl).
  rewrite app_nil_r in E. change (exec_stmts (S (length ts + length ts)) ts g = Some g').
  replace (S (length ts + length ts)) with (k + (S (length ts + length ts) - k))%nat by lia.
  rewrite E. destruct (S (length ts + length ts) - k)%nat eqn:En; [lia | done].
Qed.

Lemma runs_nil P : runs P [] P.
Proof. exists [], 0%nat. split_and!; [done | done |]. intros n rest g Hg _. by exists g. Qed.

Lemma runs_app P a Q b R : runs P a Q → runs Q b R → runs P (a ++ b) R.
Proof.
  intros (ts & k & Hl & Hk & H) (us & j & Hl' & Hj & H'). exists (ts ++ us), (k + j)%nat.
  rewrite length_app. split_and!; [by apply lexes_app | lia |]. intros n rest g Hg Hn.
  destruct (H (j + n)%nat (us ++ rest) g Hg) as (g1 & HQ & E1); [lia |].
  destruct (H' n rest g1 HQ) as (g2 & HR & E2); [lia |]. exists g2. split; [done |].
  rewrite <- app_assoc, <- Nat.add_assoc. by rewrite E1, E2.
Qed.

Lemma run_scripts_bind {A B : Type} (P : B → globals → Prop) (f : A → text) (h : B → A → B) (l : list A) b :
  (∀ b x, x ∈ l → runs (P b) (f x) (P (h b x))) → runs (P b) (l ≫= f) (P (foldl h b l)).
Proof.
  revert b. induction l as [| x l IH]; intros b H; [apply runs_nil |]. rewrite bind_cons. simpl.
  eapply runs_app; [apply H; left | apply IH; intros; apply H; by right].
Qed.

Lemma runs_scripts P s Q ss g : runs P s Q → P g → ∃ g', Q g' ∧ exec_scripts (s :: ss) g = exec_scripts ss g'.
Proof. intros H Hg. destruct (runs_exec _ _ _ _ H Hg) as (g' & E & HQ). exists g'. split; [done |]. unfold exec_scripts. simpl. by rewrite E. Qed.

Lemma runs_assign (P Q : globals → Prop) s x ts v :
  lexes s (TIdent x :: punct "=" :: ts ++ [punct ";"]) → parses ts v → (∀ g, P g → Q (<[x := v]> g)) → runs P s Q.
Proof.
  intros Hl Hp HQ. eexists _, 1%nat. split_and!; [exact Hl | simpl; lia |]. intros n rest g Hg Hn.
  simpl in Hn. rewrite length_app in Hn. simpl in Hn.
  eexists. split; [by apply HQ |]. simpl. rewrite <- app_assoc, Hp by lia. done.
Qed.

Lemma runs_push (P Q : globals → Prop) s x ts v :
  lexes s (TIdent x :: punct "." :: TIdent (txt "push") :: punct "(" :: ts ++ [punct ")"; punct ";"]) → parses ts v →
  (∀ g, P g → ∃ vs, g !! x = Some (JArr vs) ∧ Q (<[x := JArr (vs ++ [v])]> g)) → runs P s Q.
Proof.
  intros Hl Hp HQ. eexists _, 1%nat. split_and!; [exact Hl | simpl; lia |]. intros n rest g Hg Hn.
  simpl in Hn. rewrite length_app in Hn. simpl in Hn. destruct (HQ g Hg) as (vs & Hx & HQ').
  eexists. split; [exact HQ' |]. simpl. rewrite <- app_assoc, Hp by lia. simpl. by rewrite Hx.
Qed.

Lemma runs_set_field (P Q : globals → Prop) s x k v :
  lexes s [TIdent x; punct "["; TStr k; punct "]"; punct "="; TStr v; punct ";"] →
  (∀ g, P g → ∃ fs, g !! x = Some (JObj fs) ∧ Q (<[x := JObj (obj_set k (JStr v) fs)]> g)) → runs P s Q.
Proof.
  intros Hl HQ. eexists _, 1%nat. split_and!; [exact Hl | simpl; lia |]. intros n rest g Hg Hn.
  destruct (HQ g Hg) as (fs & Hx & HQ'). eexists. split; [exact HQ' |]. simpl in Hn.
  destruct n as [| n]; [lia |]. simpl. by rewrite Hx.
Qed.

Close Scope N_scope.

(** * Facts on the hydration context

    What a page knows from the scripts that it has run, the data, markers and
    errors that a response sends in their order, and that running the scripts
    of a response is taking these one after the other. *)

(** ** Pages *)

Record page := mkPage {
  p_resolved : gmap text text;
  p_errors : list (text * text * text);
  p_pending : list text;
  p_incomplete : list text;
}.

Definition v_resolved : text := txt "__RESOLVED_RESOURCES".
Definition v_errors : text := txt "__SERIALIZED_ERRORS".
Definition v_pending : text := txt "__PENDING_RESOURCES".
Definition v_incomplete : text := txt "__INCOMPLETE_CHUNKS".

Definition js_error (e : text * text * text) : js := JArr [JStr e.1.1; JStr e.1.2; JStr e.2].

(** The global variables of a page *)
Record shows (p : page) (g : globals) : Prop := mkShows {
  sh_resolved : ∃ fs, g !! v_resolved = Some (JObj fs) ∧ ∀ k, obj_get k fs = JStr <$> p_resolved p !! k;
  sh_errors : g !! v_errors = Some (JArr (js_error <$> p_errors p));
  sh_pending : g !! v_pending = Some (JArr (JStr <$> p_pending p));
  sh_incomplete : g !! v_incomplete = Some (JArr (JStr <$> p_incomplete p));
}.

(** What a response sends *)
Inductive item :=
| Resolved (i data : text)
| Incomplete (i : text)
| ErrorItem (e : text * text * text).

Definition item_ok (it : item) : bool :=
  match it with
  | Resolved i d => text_ok i && text_ok d
  | Incomplete i => text_ok i
  | ErrorItem e => text_ok e.1.1 && text_ok e.1.2 && text_ok e.2
  end.

Definition page_item (initial : gset text) (p : page) (it : item) : page :=
  match it with
  | Resolved i d =>
      mkPage (<[i := escape_lt d]> (p_resolved p)) (p_errors p)
        (if decide (i ∈ initial) then p_pending p else p_pending p ++ [i]) (p_incomplete p)
  | Incomplete i => mkPage (p_resolved p) (p_errors p) (p_pending p) (p_incomplete p ++ [i])
  | ErrorItem e => mkPage (p_resolved p) (p_errors p ++ [e]) (p_pending p) (p_incomplete p)
  end.

Section Scripts.
Context (is_printable : N → bool).
Abbreviation dbg := (debug is_printable).

Definition write_item (initial : gset text) (it : item) : text :=
  match it with
  | Resolved i d => write_resolved is_printable initial (i, d)
  | Incomplete i => write_incomplete is_printable i
  | ErrorItem e => txt "__SERIALIZED_ERRORS.push(" ++ error_entry is_printable e ++ txt ");"
  end.

Lemma lexes_eq s ts us : lexes s ts → ts = us → lexes s us.
Proof. by intros H <-. Qed.

(** Splits a text at its literals *)
Ltac lex_piece :=
  lazymatch goal with
  | |- lexes (_ ++ _) _ => apply lexes_app; lex_piece
  | |- lexes (debug _ (escape_lt _)) _ => apply lexes_debug, text_ok_escape_lt; assumption
  | |- lexes (debug _ _) _ => apply lexes_debug; assumption
  | |- lexes (escape_lt (debug _ _)) _ => apply lexes_debug_lt; assumption
  | |- lexes (error_entry _ _) _ => idtac
  | |- _ => vm_compute; reflexivity
  end.
Ltac lex_pieces := eapply lexes_eq; [lex_piece | reflexivity].

Lemma lexes_error_entry e : item_ok (ErrorItem e) = true →
  lexes (error_entry is_printable e)
    [punct "["; TStr e.1.1; punct ","; TStr e.1.2; punct ","; TStr e.2; punct "]"].
Proof.
  destruct e as [[b i] m]. intros H. simpl in H. rewrite !andb_true_iff in H. destruct H as [[Hb Hi] Hm].
  cbv beta iota delta [error_entry]. lex_pieces.
Qed.

Lemma shows_pending i g p : shows p g →
  shows (mkPage (p_resolved p) (p_errors p) (p_pending p ++ [i]) (p_incomplete p))
    (<[v_pending := JArr ((JStr <$> p_pending p) ++ [JStr i])]> g).
Proof.
  intros [(fs & Hr & Hk) He Hp Hi]. constructor; simpl; rewrite ?lookup_insert_eq, ?lookup_insert_ne by done; eauto.
  by rewrite fmap_app.
Qed.

Lemma runs_item initial it p : item_ok it = true →
  runs (shows p) (write_item initial it) (shows (page_item initial p it)).
Proof.
  destruct it as [i d | i | e]; cbn [item_ok write_item page_item].
  - rewrite andb_true_iff. intros [Hi Hd]. unfold write_resolved. cbn [fst snd].
    eapply (runs_app _ _ (shows (mkPage (p_resolved p) (p_errors p)
      (if decide (i ∈ initial) then p_pending p else p_pending p ++ [i]) (p_incomplete p)))).
    + case_decide; [destruct p; apply runs_nil |].
      eapply (runs_push _ _ _ v_pending [TStr i]); [lex_pieces | apply parses_str |].
      intros g Hg. eexists. split; [apply Hg |]. by apply shows_pending.
    + eapply (runs_set_field _ _ _ v_resolved i (escape_lt d)); [lex_pieces |].
      intros g [(fs & Hr & Hk) He Hp Hc]. exists fs. split; [done |]. simpl in *.
      constructor; simpl; rewrite ?lookup_insert_eq, ?lookup_insert_ne by done; try done.
      eexists. split; [done |]. intros k. rewrite obj_get_set. destruct (decide (k = i)) as [-> |].
      * by rewrite lookup_insert_eq.
      * by rewrite lookup_insert_ne.
  - intros Hi. unfold write_incomplete. eapply (runs_push _ _ _ v_incomplete [TStr i]); [lex_pieces | apply parses_str |].
    intros g [(fs & Hr & Hk) He Hp Hc]. eexists. split; [done |].
    constructor; simpl; rewrite ?lookup_insert_eq, ?lookup_insert_ne by done; eauto. by rewrite fmap_app.
  - intros He. eapply (runs_push _ _ _ v_errors); [| apply (parses_triple e.1.1 e.1.2 e.2) |].
    + eapply lexes_eq; [lex_piece; by apply lexes_error_entry | reflexivity].
    + intros g [(fs & Hr & Hk) Her Hp Hc]. eexists. split; [done |].
      constructor; simpl; rewrite ?lookup_insert_eq, ?lookup_insert_ne by done; eauto. by rewrite fmap_app.
Qed.

Lemma runs_items initial its p : forallb item_ok its = true →
  runs (shows p) (its ≫= write_item initial) (shows (foldl (page_item initial) p its)).
Proof.
  intros H. apply (run_scripts_bind shows). intros q it Hit. apply runs_item.
  rewrite forallb_forall in H. apply H. by apply list_elem_of_In.
Qed.

(** ** The first script *)

Definition initial_page (pending : list text) (c : SsrSharedContext) : page :=
  mkPage (foldl (λ m r, <[r.1 := escape_lt r.2]> m) ∅ (sync_buf c)) (errors c) pending (incomplete c).

Definition initial_ok (pending : list text) (c : SsrSharedContext) : bool :=
  forallb (λ r, text_ok r.1 && text_ok r.2) (sync_buf c) && forallb (λ e, item_ok (ErrorItem e)) (errors c) &&
  forallb text_ok pending && forallb text_ok (incomplete c).

Lemma array_of {A : Type} x (f : A → text) (g : A → list token) (h : A → js) (l : list A) s0 :
  lexes s0 [TIdent x; punct "="; punct "["] →
  (∀ a, a ∈ l → lexes (f a) (g a) ∧ parses (g a) (h a)) →
  ∀ P Q : globals → Prop, (∀ g, P g → Q (<[x := JArr (h <$> l)]> g)) →
  runs P (s0 ++ (l ≫= λ a, f a ++ txt ",") ++ txt "];") Q.
Proof.
  intros Hs0 Hl P Q HPQ. apply (runs_assign P Q _ x (punct "[" :: ((g <$> l) ≫= λ ts, ts ++ [punct ","]) ++ [punct "]"]) (JArr (h <$> l))).
  - eapply lexes_eq.
    + apply lexes_app; [exact Hs0 |]. apply lexes_app; [| vm_compute; reflexivity].
      apply (lexes_bind _ _ (λ a, g a ++ [punct ","])). intros a Ha. apply lexes_app; [by apply Hl | vm_compute; reflexivity].
    + rewrite list_fmap_bind. simpl. by rewrite <- app_assoc.
  - apply parses_array. apply Forall2_fmap. apply Forall_Forall2_diag. apply Forall_forall. intros a Ha. by apply Hl.
  - done.
Qed.

Definition escaped (r : text * text) : text * text := (r.1, escape_lt r.2).

Lemma foldl_obj_get (rs : list (text * text)) : ∀ fs (m : gmap text text) k,
  (∀ k, obj_get k fs = JStr <$> m !! k) →
  obj_get k (foldl (λ acc f, obj_set f.1 (JStr f.2) acc) fs (escaped <$> rs)) =
    JStr <$> foldl (λ m r, <[r.1 := escape_lt r.2]> m) m rs !! k.
Proof.
  induction rs as [| [i d] rs IH]; intros fs m k H; [apply H |]. simpl. apply IH. intros k'. rewrite obj_get_set.
  case_decide as Hk; [subst k'; by rewrite lookup_insert_eq | by rewrite lookup_insert_ne].
Qed.

Lemma runs_bracket P a b d rest Q R :
  runs P (a ++ b ++ d) Q → runs Q rest R → runs P (a ++ b ++ d ++ rest) R.
Proof. intros H1 H2. pose proof (runs_app _ _ _ _ _ H1 H2) as H. by rewrite <- !app_assoc in H. Qed.

Lemma runs_initial pending c : initial_ok pending c = true →
  ∀ g, ∃ g', exec_script (initial_chunk is_printable pending c) g = Some g' ∧ shows (initial_page pending c) g'.
Proof.
  unfold initial_ok. rewrite !andb_true_iff, !forallb_forall. intros [[[Hs He] Hp] Hi] g.
  assert (runs (λ _, True) (initial_chunk is_printable pending c) (shows (initial_page pending c))) as H;
    [| by apply (runs_exec _ _ _ _ H)].
  set (fs := foldl (λ acc f, obj_set f.1 (JStr f.2) acc) [] (escaped <$> sync_buf c)).
  set (Q1 := λ g : globals, g !! v_resolved = Some (JObj fs)).
  set (Q2 := λ g, Q1 g ∧ g !! v_errors = Some (JArr (js_error <$> errors c))).
  set (Q3 := λ g, Q2 g ∧ g !! v_pending = Some (JArr (JStr <$> pending))).
  set (Q4 := λ g, Q3 g ∧ g !! v_incomplete = Some (JArr (JStr <$> incomplete c))).
  unfold initial_chunk.
  apply (runs_bracket _ _ _ _ _ Q1); [| apply (runs_bracket _ _ _ _ _ Q2); [| apply (runs_bracket _ _ _ _ _ Q3);
    [| apply (runs_bracket _ _ _ _ _ Q4)]]].
  - apply (runs_assign _ _ _ v_resolved (punct "{" :: ((escaped <$> sync_buf c) ≫= field_tokens) ++ [punct "}"]) (JObj fs)).
    + eapply lexes_eq.
      * apply lexes_app; [vm_compute; reflexivity |]. apply lexes_app; [| vm_compute; reflexivity].
        apply (lexes_bind _ _ (λ r, field_tokens (escaped r))). intros r Hr.
        apply list_elem_of_In, Hs, andb_true_iff in Hr as [Hi' Hd]. unfold write_to_buf. lex_pieces.
      * rewrite list_fmap_bind. simpl. by rewrite <- app_assoc.
    + apply parses_object.
    + intros g' _. unfold Q1. by rewrite lookup_insert_eq.
  - apply (array_of v_errors _ (λ e, [punct "["; TStr e.1.1; punct ","; TStr e.1.2; punct ","; TStr e.2; punct "]"]) js_error);
      [vm_compute; reflexivity | |].
    + intros e Hin. split; [apply lexes_error_entry, He; by apply list_elem_of_In | apply parses_triple].
    + intros g' H1. unfold Q2, Q1. rewrite lookup_insert_ne by done. by rewrite lookup_insert_eq.
  - apply (array_of v_pending _ (λ i, [TStr i]) JStr); [vm_compute; reflexivity | |].
    + intros i Hin. split; [apply lexes_debug, Hp; by apply list_elem_of_In | apply parses_str].
    + intros g' [H1 H2]. unfold Q3, Q2, Q1. rewrite !lookup_insert_ne by done. by rewrite lookup_insert_eq.
  - apply (array_of v_incomplete _ (λ i, [TStr i]) JStr); [vm_compute; reflexivity | |].
    + intros i Hin. split; [apply lexes_debug, Hi; by apply list_elem_of_In | apply parses_str].
    + intros g' [[H1 H2] H3]. unfold Q4, Q3, Q2, Q1. rewrite !lookup_insert_ne by done. by rewrite lookup_insert_eq.
  - apply (runs_assign _ _ _ (txt "__RESOURCE_RESOLVERS") [punct "["; punct "]"] (JArr []));
      [vm_compute; reflexivity | by apply (parses_array [] []); constructor |].
    intros g' [[[H1 H2] H3] H4]. constructor; simpl; rewrite ?lookup_insert_ne by done; [| done..].
    exists fs. split; [done |]. intros k. by apply foldl_obj_get.
Qed.
(** ** What a response sends *)

(** The data, markers and errors of a poll *)
Definition poll_items (picks : list (list nat)) (s : AsyncDataStream) (c : SsrSharedContext) : list item :=
  let '(rs, (s, c)) := poll_loop picks s c in
  (uncurry Resolved <$> rs) ++ (Incomplete <$> drop (incomplete_emitted s) (incomplete c)) ++
  (ErrorItem <$> filter (λ e, e.1.1 ∉ sealed_error_boundaries c) (errors c)).

(** All that is sent after the first script, and the context at the end *)
Fixpoint trace (es : list response_event) (s : AsyncDataStream) (c : SsrSharedContext) :
    list item * (AsyncDataStream * SsrSharedContext) :=
  match es with
  | [] => ([], (s, c))
  | Other e :: es => trace es s (do_effect c e)
  | PollStream picks :: es =>
      match poll_next is_printable picks s c with
      | (Ready None, sc) => ([], sc)
      | (_, (s', c')) => let '(its, sc) := trace es s' c' in (poll_items picks s c ++ its, sc)
      end
  end.

(** Polls leave the set of the first ids alone, and raise the count of markers
    that were sent only at the end of a poll. *)
Lemma poll_at_stream k s c r s' c' : poll_at k s c = (r, (s', c')) →
  initial_pending_ids s' = initial_pending_ids s ∧ incomplete_emitted s' = incomplete_emitted s.
Proof. unfold poll_at. by destruct (in_flight s !! k) as [[i []]|]; intros [= <- <- <-]. Qed.

Lemma drain_stream picks : ∀ s c rs s' c', drain picks s c = (rs, (s', c')) →
  initial_pending_ids s' = initial_pending_ids s ∧ incomplete_emitted s' = incomplete_emitted s.
Proof.
  induction picks as [| k picks IH]; simpl; intros s c rs s' c'; [by intros [= <- <- <-] |].
  destruct (poll_at k s c) as [r [s1 c1]] eqn:E1. destruct (drain picks s1 c1) as [rs1 [s2 c2]] eqn:E2.
  intros [= _ <- <-]. apply poll_at_stream in E1 as [<- <-]. by eapply IH.
Qed.

Lemma poll_loop_stream picks : ∀ s c rs s' c', poll_loop picks s c = (rs, (s', c')) →
  initial_pending_ids s' = initial_pending_ids s ∧ incomplete_emitted s' = incomplete_emitted s.
Proof.
  induction picks as [| ks picks IH]; simpl; intros s c rs s' c'; [by intros [= <- <- <-] |].
  destruct (drain ks _ _) as [rs1 [s1 c1]] eqn:E1. apply drain_stream in E1 as [H1 H2]. simpl in H1, H2.
  case_decide; [| by intros [= _ <- <-]].
  destruct (poll_loop picks s1 c1) as [rs2 [s2 c2]] eqn:E2. apply IH in E2 as [H3 H4].
  intros [= _ <- <-]. split; congruence.
Qed.

Lemma bind_filter {A : Type} (P : A → Prop) `{∀ x, Decision (P x)} (f g : A → text) (l : list A) :
  (∀ x, f x = if decide (P x) then g x else []) → l ≫= f = filter P l ≫= g.
Proof.
  intros Hf. induction l as [| x l IH]; [done |]. rewrite bind_cons, Hf, IH. case_decide as HP.
  - by rewrite filter_cons_True.
  - by rewrite filter_cons_False.
Qed.

(** The text of a poll is that of its items. *)
Lemma poll_next_items picks s c p s' c' : poll_next is_printable picks s c = (p, (s', c')) →
  initial_pending_ids s' = initial_pending_ids s ∧
  match p with
  | Ready None | Pending => poll_items picks s c ≫= write_item (initial_pending_ids s) = []
  | Ready (Some chunk) => chunk = poll_items picks s c ≫= write_item (initial_pending_ids s)
  end.
Proof.
  unfold poll_next, poll_items. destruct (poll_loop picks s c) as [rs [s1 c1]] eqn:E.
  apply poll_loop_stream in E as [Hi _]. rewrite <- Hi, !bind_app, !list_fmap_bind.
  replace (errors c1 ≫= _) with (filter (λ e, e.1.1 ∉ sealed_error_boundaries c1) (errors c1) ≫=
    write_item (initial_pending_ids s1) ∘ ErrorItem).
  2: { symmetry. apply bind_filter. intros e. unfold write_error, compose. simpl. by repeat case_decide. }
  replace (rs ≫= write_resolved is_printable (initial_pending_ids s1)) with
    (rs ≫= write_item (initial_pending_ids s1) ∘ uncurry Resolved)
    by (apply list_bind_ext; [by intros [] | done]).
  set (txt1 := _ ++ _ ++ _). 
  destruct (_ && bool_decide (txt1 = [])) eqn:Ed; [| case_decide].
  - apply andb_true_iff in Ed as [_ Ed%bool_decide_eq_true]. by intros [= <- <- <-].
  - by intros [= <- <- <-].
  - by intros [= <- <- <-].
Qed.

Lemma poll_next_emitted picks s c p s' c' : poll_next is_printable picks s c = (p, (s', c')) →
  incomplete_emitted s' = length (incomplete c').
Proof. unfold poll_next. destruct (poll_loop picks s c) as [rs [s1 c1]]. by intros [= _ <- <-]. Qed.

Lemma final_chunk_empty picks s c p s' c' : poll_next is_printable picks s c = (p, (s', c')) →
  final_chunk is_printable s' c' = [].
Proof. intros H%poll_next_emitted. unfold final_chunk. by rewrite H, drop_all. Qed.

Lemma write_item_not_empty initial it : write_item initial it ≠ [].
Proof. destruct it as [i d | i | e]; simpl; [unfold write_resolved; by case_decide | done | done]. Qed.

Lemma write_items_empty initial its : its ≫= write_item initial = [] → its = [].
Proof.
  destruct its as [| it its]; [done |]. rewrite bind_cons. intros [H _]%app_eq_nil.
  by apply write_item_not_empty in H.
Qed.

(** Running the scripts is taking the items one after the other. *)
Lemma respond_shows es : ∀ s c, ∃ its cs b sc,
  respond is_printable es s c = (cs, b, sc) ∧ trace es s c = (its, sc) ∧
  (forallb item_ok its = true → ∀ p g, shows p g →
    ∃ g', exec_scripts cs g = Some g' ∧ shows (foldl (page_item (initial_pending_ids s)) p its) g').
Proof.
  induction es as [| [e | picks] es IH]; intros s c; simpl.
  - eexists _, _, _, _. split_and!; [done | done |]. intros _ p g Hg. by exists g.
  - apply IH.
  - destruct (poll_next is_printable picks s c) as [r [s1 c1]] eqn:E. pose proof (final_chunk_empty _ _ _ _ _ _ E) as Hf.
    apply poll_next_items in E as [Hi Hr]. destruct (IH s1 c1) as (its & cs & b & sc & Er & Et & Hrun).
    destruct r as [| [chunk |]]; rewrite ?Er, ?Et.
    + eexists _, _, _, _. split_and!; [done | done |]. apply write_items_empty in Hr as ->. by rewrite <- Hi.
    + eexists _, _, _, _. split_and!; [done | done |]. rewrite forallb_app, andb_true_iff. intros [Hok1 Hok2] p g Hg.
      destruct (runs_scripts _ _ _ cs g (runs_items (initial_pending_ids s) _ p Hok1) Hg) as (g1 & Hg1 & Ee).
      rewrite foldl_app, Hr, Ee, <- Hi. apply Hrun; [done |]. by rewrite Hi.
    + eexists _, _, _, _. split_and!; [done | done |]. intros _ p g Hg. exists g. split; [| done].
      rewrite Hf. done.
Qed.
End Scripts.
