(* ===== verification/HydrationProps.v ===== *)
(** * Theorems on the hydration context

    What the server has registered while a response was streamed is what the
    browser reads after it has run the scripts, and no script ends before its
    end. *)

From Stdlib Require Import NArith.
From stdpp Require Import base list gmap strings pretty.
From S2P Require Import Prelude JsScript HydrationContext HydrationFacts.

(** What a future gives in the end *)
Fixpoint outcome (f : fut) : text :=
  match f with FReady _ d => d | FPending _ f => outcome f end.

(** What all of its polls do together *)
Fixpoint effects (f : fut) : list effect :=
  match f with FReady fx _ => fx | FPending fx f => fx ++ effects f end.

(** What a future does, or one that it registers, or one that this registers,
    and so on *)
Inductive will_do (f : fut) (e : effect) : Prop :=
| does_itself : e ∈ effects f → will_do f e
| does_nested i f' : WriteAsync i f' ∈ effects f → will_do f' e → will_do f e.

(** A future [j] that is registered lets the data [o] of [i] come: it is that of
    [i] itself, or registers that of [i], itself or by others. *)
Definition promises (i o j : text) (g : fut) : Prop :=
  (j = i ∧ outcome g = o) ∨ ∃ f, will_do g (WriteAsync i f) ∧ outcome f = o.

Lemma will_do_pending fx f e : will_do (FPending fx f) e →
  e ∈ fx ∨ (∃ i f', WriteAsync i f' ∈ fx ∧ will_do f' e) ∨ will_do f e.
Proof.
  destruct 1 as [H | i f' H Hf]; apply elem_of_app in H as [H | H]; [by left | right; right; by left | | right; right].
  - right. left. eauto.
  - by eapply does_nested.
Qed.
Lemma will_do_ready fx d e : will_do (FReady fx d) e → e ∈ fx ∨ ∃ i f', WriteAsync i f' ∈ fx ∧ will_do f' e.
Proof. destruct 1 as [H | i f' H Hf]; [by left | right; eauto]. Qed.

(** ** What effects and polls keep *)

(** Buffers and the seals only grow while futures are polled. *)
Record grows (c c' : SsrSharedContext) : Prop := mkGrows {
  gr_async x : x ∈ async_buf c → x ∈ async_buf c';
  gr_errors e : e ∈ errors c → e ∈ errors c';
  gr_sealed b : b ∈ sealed_error_boundaries c → b ∈ sealed_error_boundaries c';
  gr_incomplete : incomplete c `prefix_of` incomplete c';
}.

#[global] Instance grows_preorder : PreOrder grows.
Proof.
  split; [by constructor |]. intros a b c [H1 H2 H3 H4] [H1' H2' H3' H4']. constructor; eauto. by etrans.
Qed.

Lemma do_effect_grows c e : grows c (do_effect c e).
Proof.
  destruct e; constructor; simpl; intros; rewrite ?elem_of_app; try set_solver; try done.
  by apply prefix_app_r.
Qed.

Lemma do_effects_grow fx c : grows c (foldl do_effect c fx).
Proof. revert c. induction fx as [| e fx IH]; intros c; [done |]. simpl. etrans; [apply do_effect_grows | apply IH]. Qed.

Lemma poll_at_grows k s c r s' c' : poll_at k s c = (r, (s', c')) → grows c c'.
Proof.
  unfold poll_at. destruct (in_flight s !! k) as [[i []]|]; intros [= <- <- <-]; try apply do_effects_grow. done.
Qed.

Lemma drain_grows picks : ∀ s c rs s' c', drain picks s c = (rs, (s', c')) → grows c c'.
Proof.
  induction picks as [| k picks IH]; simpl; intros s c rs s' c'; [by intros [= <- <- <-] |].
  destruct (poll_at k s c) as [r [s1 c1]] eqn:E1. destruct (drain picks s1 c1) as [rs1 [s2 c2]] eqn:E2.
  intros [= _ <- <-]. etrans; [by eapply poll_at_grows | by eapply IH].
Qed.

(** What was done has its effect. *)
Lemma effect_async fx c i f : WriteAsync i f ∈ fx → (i, f) ∈ async_buf (foldl do_effect c fx).
Proof.
  intros (l1 & l2 & ->)%list_elem_of_split. rewrite foldl_app. cbn [foldl].
  apply (do_effects_grow l2 _). simpl. set_solver.
Qed.
Lemma effect_error fx c b i m : RegisterError b i m ∈ fx → (b, i, m) ∈ errors (foldl do_effect c fx).
Proof.
  intros (l1 & l2 & ->)%list_elem_of_split. rewrite foldl_app. cbn [foldl].
  apply (do_effects_grow l2 _). simpl. set_solver.
Qed.

(** What the loop of a poll keeps of the context; the registered futures move
    to those in flight. *)
Definition grows_but_async (c c' : SsrSharedContext) : Prop := grows (set_async_buf [] c) c'.

Lemma poll_loop_grows picks : ∀ s c rs s' c', poll_loop picks s c = (rs, (s', c')) → grows_but_async c c'.
Proof.
  unfold grows_but_async. induction picks as [| ks picks IH]; simpl; intros s c rs s' c'; [by intros [= <- <- <-] |].
  destruct (drain ks _ _) as [rs1 [s1 c1]] eqn:E1. apply drain_grows in E1.
  case_decide; [| by intros [= _ <- <-]].
  destruct (poll_loop picks s1 c1) as [rs2 [s2 c2]] eqn:E2. apply IH in E2. intros [= _ <- <-].
  destruct E1 as [H1 H2 H3 H4], E2 as [H1' H2' H3' H4']. constructor; simpl in *; eauto. by etrans.
Qed.

(** The futures that are registered *)
Definition registered (s : AsyncDataStream) (c : SsrSharedContext) : list (text * fut) := in_flight s ++ async_buf c.

(** Data that is to come comes, or is still to come. *)
Definition waits (i : text) (o : text) (s : AsyncDataStream) (c : SsrSharedContext) : Prop :=
  ∃ j g, (j, g) ∈ registered s c ∧ promises i o j g.

Lemma registered_grows s c c' x : grows c c' → x ∈ registered s c → x ∈ registered s c'.
Proof. unfold registered. intros [Ha _ _ _]. rewrite !elem_of_app. naive_solver. Qed.

Lemma waits_grows i o s c c' : waits i o s c → grows c c' → waits i o s c'.
Proof. intros (j & g & Hj & Hg) Hc. exists j, g. split; [by eapply registered_grows | done]. Qed.

Lemma elem_of_split_at {A} (l : list A) k x y : l !! k = Some x → y ∈ l → y = x ∨ y ∈ delete k l ∧ ∀ z, y ∈ <[k := z]> l.
Proof.
  intros Hk Hy. pose proof (lookup_lt_Some _ _ _ Hk). rewrite delete_take_drop.
  setoid_rewrite insert_take_drop; [| done].
  rewrite <- (take_drop_middle l k x Hk) in Hy. set_solver.
Qed.

(** A poll leaves a registered future alone, or is one of this future: then its
    effects are done, and it is resolved or goes on. *)
Lemma poll_at_registered k s c r s' c' j g : (j, g) ∈ registered s c → poll_at k s c = (r, (s', c')) →
  (j, g) ∈ registered s' c' ∨
  match g with
  | FReady fx d => r = Some (j, d) ∧ c' = foldl do_effect c fx
  | FPending fx g' => (j, g') ∈ registered s' c' ∧ c' = foldl do_effect c fx
  end.
Proof.
  unfold registered. intros Hj Hp. pose proof (poll_at_grows _ _ _ _ _ _ Hp) as Hg.
  rewrite elem_of_app in Hj. destruct Hj as [Hj | Hj]; [| left; rewrite elem_of_app; right; by apply Hg].
  unfold poll_at in Hp. destruct (in_flight s !! k) as [[l h]|] eqn:Ek.
  - destruct (elem_of_split_at _ _ _ _ Ek Hj) as [[= -> ->] | [Hd Hi]].
    + right. destruct h as [fx d | fx h]; injection Hp as <- <- <-; [done |]. split; [| done].
      rewrite elem_of_app. left. simpl. apply list_elem_of_insert. by eapply lookup_lt_Some.
    + left. rewrite elem_of_app. left. destruct h; injection Hp as <- <- <-; simpl; auto.
  - injection Hp as <- <- <-. left. rewrite elem_of_app. by left.
Qed.

(** What a registered future will do is done by a poll, or is still to be done. *)
Lemma poll_at_will_do k s c r s' c' j g e : (j, g) ∈ registered s c → will_do g e → poll_at k s c = (r, (s', c')) →
  (∃ fx, e ∈ fx ∧ c' = foldl do_effect c fx) ∨ ∃ j' g', (j', g') ∈ registered s' c' ∧ will_do g' e.
Proof.
  intros Hj Hw Hp. destruct (poll_at_registered _ _ _ _ _ _ _ _ Hj Hp) as [Hj' | Hg]; [right; eauto |].
  assert (∀ fx i f, c' = foldl do_effect c fx → WriteAsync i f ∈ fx → (i, f) ∈ registered s' c') as Hnew.
  { intros fx i f -> Hf. unfold registered. rewrite elem_of_app. right. by apply effect_async. }
  destruct g as [fx d | fx g].
  - destruct Hg as [_ Hc]. apply will_do_ready in Hw as [He | (i & f & Hf & Hw)]; [left; eauto | right]. eauto 10.
  - destruct Hg as [Hg Hc]. apply will_do_pending in Hw as [He | [(i & f & Hf & Hw) | Hw]]; [left; eauto | right; eauto 10..].
Qed.

Lemma poll_at_waits k i o s c r s' c' : waits i o s c → poll_at k s c = (r, (s', c')) →
  r = Some (i, o) ∨ waits i o s' c'.
Proof.
  intros (j & g & Hj & [[-> Ho] | (f & Hw & Ho)]) Hp.
  - destruct (poll_at_registered _ _ _ _ _ _ _ _ Hj Hp) as [Hj' | Hg]; [right; exists i, g; split; [done | by left] |].
    destruct g as [fx d | fx g]; simpl in Ho.
    + left. destruct Hg as [-> _]. congruence.
    + right. exists i, g. split; [apply Hg | by left].
  - right. destruct (poll_at_will_do _ _ _ _ _ _ _ _ _ Hj Hw Hp) as [(fx & He & ->) | (j' & g' & Hj' & Hw')].
    + exists i, f. split; [| by left]. unfold registered. rewrite elem_of_app. right. by apply effect_async.
    + exists j', g'. split; [done |]. right. eauto.
Qed.

(** *** Errors that are registered, or will be *)

Definition owes (e : text * text * text) (s : AsyncDataStream) (c : SsrSharedContext) : Prop :=
  e ∈ errors c ∨ ∃ j g, (j, g) ∈ registered s c ∧ will_do g (RegisterError e.1.1 e.1.2 e.2).

Lemma owes_grows e s c c' : owes e s c → grows c c' → owes e s c'.
Proof.
  intros [He | (j & g & Hj & Hw)] Hc; [left; by apply Hc | right]. exists j, g. split; [by eapply registered_grows | done].
Qed.

Lemma poll_at_owes k e s c r s' c' : owes e s c → poll_at k s c = (r, (s', c')) → owes e s' c'.
Proof.
  intros [He | (j & g & Hj & Hw)] Hp; [left; by apply (poll_at_grows _ _ _ _ _ _ Hp) |].
  destruct (poll_at_will_do _ _ _ _ _ _ _ _ _ Hj Hw Hp) as [(fx & He & ->) | (j' & g' & Hj' & Hw')].
  - left. destruct e as [[b i] m]. by apply effect_error.
  - right. eauto.
Qed.

Lemma drain_owes picks e : ∀ s c rs s' c', owes e s c → drain picks s c = (rs, (s', c')) → owes e s' c'.
Proof.
  induction picks as [| k picks IH]; simpl; intros s c rs s' c' Ho; [by intros [= <- <- <-] |].
  destruct (poll_at k s c) as [r [s1 c1]] eqn:E1. destruct (drain picks s1 c1) as [rs1 [s2 c2]] eqn:E2.
  intros [= _ <- <-]. eapply IH; [| exact E2]. by eapply poll_at_owes.
Qed.

Lemma stage_registered s c s' c' : stage s c = (s', c') → registered s' c' = registered s c ∧ errors c' = errors c.
Proof. intros [= <- <-]. unfold registered. simpl. by rewrite app_nil_r. Qed.

Lemma poll_loop_owes picks e : ∀ s c rs s' c', owes e s c → poll_loop picks s c = (rs, (s', c')) → owes e s' c'.
Proof.
  induction picks as [| ks picks IH]; intros s c rs s' c' Ho; cbn [poll_loop];
    destruct (stage s c) as [s0 c0] eqn:E0; destruct (stage_registered _ _ _ _ E0) as [Hr He];
    assert (owes e s0 c0) as Ho0 by (unfold owes; by rewrite Hr, He); [by intros [= <- <- <-] |].
  destruct (drain ks s0 c0) as [rs1 [s1 c1]] eqn:E1. pose proof (drain_owes _ _ _ _ _ _ _ Ho0 E1) as Ho1.
  case_decide; [| by intros [= _ <- <-]].
  destruct (poll_loop picks s1 c1) as [rs2 [s2 c2]] eqn:E2. intros [= _ <- <-]. by eapply IH.
Qed.

Lemma drain_waits picks i o : ∀ s c rs s' c', waits i o s c → drain picks s c = (rs, (s', c')) →
  (i, o) ∈ rs ∨ waits i o s' c'.
Proof.
  induction picks as [| k picks IH]; simpl; intros s c rs s' c' Hw; [intros [= <- <- <-]; by right |].
  destruct (poll_at k s c) as [r [s1 c1]] eqn:E1. destruct (drain picks s1 c1) as [rs1 [s2 c2]] eqn:E2.
  intros [= <- <- <-]. destruct (poll_at_waits _ _ _ _ _ _ _ _ Hw E1) as [-> | Hw1]; [left; set_solver |].
  destruct (IH _ _ _ _ _ Hw1 E2) as [? | ?]; [left; destruct r; set_solver | by right].
Qed.

Lemma stage_waits i o s c s' c' : waits i o s c → stage s c = (s', c') → waits i o s' c'.
Proof. intros Hw [Hr _]%stage_registered. unfold waits. by rewrite Hr. Qed.

Lemma poll_loop_waits picks i o : ∀ s c rs s' c', waits i o s c → poll_loop picks s c = (rs, (s', c')) →
  (i, o) ∈ rs ∨ waits i o s' c'.
Proof.
  induction picks as [| ks picks IH]; intros s c rs s' c' Hw; cbn [poll_loop];
    destruct (stage s c) as [s0 c0] eqn:E0; pose proof (stage_waits _ _ _ _ _ _ Hw E0) as Hw0;
    [intros [= <- <- <-]; by right |].
  destruct (drain ks s0 c0) as [rs1 [s1 c1]] eqn:E1.
  destruct (drain_waits _ _ _ _ _ _ _ _ Hw0 E1) as [Hin | Hw1].
  - case_decide; [| intros [= <- <- <-]; by left].
    destruct (poll_loop picks s1 c1) as [rs2 [s2 c2]]. intros [= <- <- <-]. left. set_solver.
  - case_decide; [| intros [= <- <- <-]; by right].
    destruct (poll_loop picks s1 c1) as [rs2 [s2 c2]] eqn:E2. intros [= <- <- <-].
    destruct (IH _ _ _ _ _ Hw1 E2); [left; set_solver | by right].
Qed.

Section Responses.
Context (is_printable : N → bool).

(** As long as futures are registered the stream does not end. *)
Lemma busy_goes_on (j : text) (g : fut) s c : (j, g) ∈ registered s c → ∀ chunk : text,
  (if bool_decide (in_flight s = []) && bool_decide (async_buf c = []) && bool_decide (chunk = []) then Ready None
   else if decide (chunk = []) then Pending else Ready (Some chunk)) ≠ Ready None.
Proof.
  unfold registered. intros Hj chunk.
  assert (bool_decide (in_flight s = []) && bool_decide (async_buf c = []) = false) as ->; [| simpl; by case_decide].
  apply andb_false_iff. rewrite !bool_decide_eq_false. destruct (in_flight s); [right | by left].
  by destruct (async_buf c); [apply not_elem_of_nil in Hj |].
Qed.

(** A response that has ended has sent what waited. *)
Lemma poll_next_waits picks i o s c p s' c' : waits i o s c → poll_next is_printable picks s c = (p, (s', c')) →
  Resolved i o ∈ poll_items picks s c ∨ waits i o s' c' ∧ p ≠ Ready None.
Proof.
  unfold poll_next, poll_items. intros Hw. destruct (poll_loop picks s c) as [rs [s1 c1]] eqn:E. intros Hp.
  destruct (poll_loop_waits _ _ _ _ _ _ _ _ Hw E) as [Hin | Hw'].
  - left. apply elem_of_app. left. apply list_elem_of_fmap. by exists (i, o).
  - right. destruct Hw' as (j & g & Hj & Hg). injection Hp as <- <- <-. split; [by exists j, g |].
    by apply (busy_goes_on j g s1 c1).
Qed.

Lemma trace_resolves es i o : ∀ s c cs sc, waits i o s c → respond is_printable es s c = (cs, true, sc) →
  Resolved i o ∈ (trace is_printable es s c).1.
Proof.
  induction es as [| [e | picks] es IH]; simpl; intros s c cs sc Hw; [done | |].
  - apply IH. eapply waits_grows; [done | apply do_effect_grows].
  - destruct (poll_next is_printable picks s c) as [r [s1 c1]] eqn:E.
    pose proof (poll_next_items _ _ _ _ _ _ _ E) as [_ Hempty].
    destruct (poll_next_waits _ _ _ _ _ _ _ _ Hw E) as [Hin | [Hw1 Hr]].
    + destruct r as [| [chunk |]].
      * apply write_items_empty in Hempty. rewrite Hempty in Hin. by apply not_elem_of_nil in Hin.
      * destruct (trace _ es s1 c1) as [its sc1]. intros _. set_solver.
      * apply write_items_empty in Hempty. rewrite Hempty in Hin. by apply not_elem_of_nil in Hin.
    + destruct r as [| [chunk |]]; [| | done].
      * intros H. specialize (IH _ _ _ _ Hw1 H). destruct (trace _ es s1 c1) as [its sc1]. set_solver.
      * destruct (respond _ es s1 c1) as [[cs1 b1] sc1] eqn:Er. intros [= <- -> <-].
        specialize (IH _ _ _ _ Hw1 Er). destruct (trace _ es s1 c1) as [its sc2]. set_solver.
Qed.
(** An error that waits is sent, unless its boundary is sealed. *)
Lemma respond_grows es : ∀ s c cs b s' c', respond is_printable es s c = (cs, b, (s', c')) →
  sealed_error_boundaries c ⊆ sealed_error_boundaries c'.
Proof.
  induction es as [| [e | picks] es IH]; simpl; intros s c cs b s' c'; [by intros [= _ _ _ <-] | |].
  - intros H%IH. pose proof (do_effect_grows c e) as [_ _ Hg _]. set_solver.
  - destruct (poll_next is_printable picks s c) as [r [s1 c1]] eqn:E.
    assert (sealed_error_boundaries c ⊆ sealed_error_boundaries c1) as Hg.
    { unfold poll_next in E. destruct (poll_loop picks s c) as [rs [s2 c2]] eqn:E2.
      apply poll_loop_grows in E2 as [_ _ Hg _]. injection E as _ _ <-. simpl in *. set_solver. }
    destruct r as [| [chunk |]].
    + intros H%IH. set_solver.
    + destruct (respond _ es s1 c1) as [[cs1 b1] [s2 c2]] eqn:Er. intros [= _ _ _ <-]. apply IH in Er. set_solver.
    + by intros [= _ _ _ <-].
Qed.

Lemma poll_next_errors picks e s c p s' c' : owes e s c → e.1.1 ∉ sealed_error_boundaries c' →
  poll_next is_printable picks s c = (p, (s', c')) →
  ErrorItem e ∈ poll_items picks s c ∨ owes e s' c' ∧ p ≠ Ready None.
Proof.
  unfold poll_next, poll_items. intros Ho Hs. destruct (poll_loop picks s c) as [rs [s1 c1]] eqn:E.
  pose proof (poll_loop_owes _ _ _ _ _ _ _ Ho E) as [He | (j & g & Hj & Hw)]; intros Hp.
  - left. injection Hp as _ _ <-. rewrite !elem_of_app. right. right.
    apply list_elem_of_fmap. exists e. split; [done |]. by apply list_elem_of_filter.
  - right. injection Hp as <- <- <-. split; [right; by exists j, g |].
    by apply (busy_goes_on j g s1 c1).
Qed.

Lemma trace_errors es e : ∀ s c cs s' c', owes e s c → e.1.1 ∉ sealed_error_boundaries c' →
  respond is_printable es s c = (cs, true, (s', c')) → ErrorItem e ∈ (trace is_printable es s c).1.
Proof.
  induction es as [| [e' | picks] es IH]; simpl; intros s c cs s' c' Ho Hs; [done | |].
  - apply IH; [| done]. eapply owes_grows; [done | apply do_effect_grows].
  - destruct (poll_next is_printable picks s c) as [r [s1 c1]] eqn:E.
    pose proof (poll_next_items _ _ _ _ _ _ _ E) as [_ Hempty].
    assert (∀ cs1, respond is_printable es s1 c1 = (cs1, true, (s', c')) →
      ErrorItem e ∈ poll_items picks s c ∨ ErrorItem e ∈ (trace is_printable es s1 c1).1) as Hrest.
    { intros cs1 Hr. pose proof (respond_grows _ _ _ _ _ _ _ Hr) as Hg.
      assert (e.1.1 ∉ sealed_error_boundaries c1) as Hs1 by (intros Hin; by apply Hs, Hg).
      destruct (poll_next_errors _ e _ _ _ _ _ Ho Hs1 E) as [Hin | [Ho1 _]]; [by left | right].
      by apply (IH _ _ _ _ _ Ho1 Hs Hr). }
    destruct r as [| [chunk |]].
    + intros H%Hrest. apply write_items_empty in Hempty. rewrite Hempty in H.
      destruct H as [H | H]; [by apply not_elem_of_nil in H |]. destruct (trace _ es s1 c1). simpl. set_solver.
    + destruct (respond _ es s1 c1) as [[cs1 b1] [s2 c2]] eqn:Er. intros [= <- -> <- <-].
      specialize (Hrest _ eq_refl). destruct (trace _ es s1 c1) as [its sc]. simpl in *. set_solver.
    + intros [= <- <- <-]. destruct (poll_next_errors _ e _ _ _ _ _ Ho Hs E) as [Hin | [_ ?]]; [| done].
      apply write_items_empty in Hempty. rewrite Hempty in Hin. by apply not_elem_of_nil in Hin.
Qed.

(** The markers are sent once each, in their order. *)
Definition markers (its : list item) : list text :=
  omap (λ it, match it with Incomplete i => Some i | _ => None end) its.

Lemma markers_app its its' : markers (its ++ its') = markers its ++ markers its'.
Proof. apply omap_app. Qed.
Lemma markers_resolved (rs : list (text * text)) : markers (uncurry Resolved <$> rs) = [].
Proof. induction rs as [| [] rs IH]; [done | exact IH]. Qed.
Lemma markers_errors es : markers (ErrorItem <$> es) = [].
Proof. induction es as [| ? es IH]; [done | exact IH]. Qed.
Lemma markers_incomplete l : markers (Incomplete <$> l) = l.
Proof. induction l as [| i l IH]; [done |]. unfold markers in *. simpl. f_equal. exact IH. Qed.

Lemma markers_poll_items picks s c p s' c' : poll_next is_printable picks s c = (p, (s', c')) →
  (incomplete_emitted s ≤ length (incomplete c)) →
  take (incomplete_emitted s) (incomplete c) ++ markers (poll_items picks s c) = incomplete c' ∧
  incomplete_emitted s' = length (incomplete c').
Proof.
  unfold poll_next, poll_items. destruct (poll_loop picks s c) as [rs [s1 c1]] eqn:E.
  pose proof (poll_loop_stream _ _ _ _ _ _ E) as [_ Hs]. apply poll_loop_grows in E as [_ _ _ [l Hl]]. simpl in Hl.
  intros [= _ <- <-] Hle. split; [| done]. simpl. 
  rewrite !markers_app, markers_resolved, markers_errors, markers_incomplete, Hs.
  rewrite app_nil_r. simpl. rewrite Hl, drop_app_le, app_assoc, take_drop by done. done.
Qed.

Lemma trace_markers es : ∀ s c cs s' c', (incomplete_emitted s ≤ length (incomplete c)) →
  respond is_printable es s c = (cs, true, (s', c')) →
  take (incomplete_emitted s) (incomplete c) ++ markers (trace is_printable es s c).1 = incomplete c'.
Proof.
  induction es as [| [e | picks] es IH]; simpl; intros s c cs s' c' Hle; [done | |].
  - pose proof (do_effect_grows c e) as [_ _ _ [l Hl]]. intros H. apply IH in H; [| rewrite Hl, length_app; lia].
    rewrite <- H, Hl. by rewrite take_app_le.
  - destruct (poll_next is_printable picks s c) as [r [s1 c1]] eqn:E.
    pose proof (poll_next_items _ _ _ _ _ _ _ E) as [_ Hempty].
    destruct (markers_poll_items _ _ _ _ _ _ E Hle) as [Hm Hem].
    assert (∀ cs, respond is_printable es s1 c1 = (cs, true, (s', c')) →
      incomplete c1 ++ markers (trace is_printable es s1 c1).1 = incomplete c') as Hrest.
    { intros cs1 H. apply IH in H; [| by rewrite Hem]. rewrite <- H. by rewrite Hem, take_ge. }
    destruct r as [| [chunk |]].
    + intros H%Hrest. destruct (trace _ es s1 c1) as [its sc]. simpl in *. rewrite <- Hm in H.
      by rewrite markers_app, app_assoc.
    + destruct (respond _ es s1 c1) as [[cs1 b1] [s2 c2]] eqn:Er. intros [= <- -> <- <-].
      specialize (Hrest _ eq_refl). destruct (trace _ es s1 c1) as [its sc]. simpl in *.
      rewrite <- Hm in Hrest. by rewrite markers_app, app_assoc.
    + intros [= <- <- <-]. apply write_items_empty in Hempty. rewrite Hempty in Hm. done.
Qed.
(** ** What the page has in the end *)

Definition data_ids (its : list item) : list text :=
  omap (λ it, match it with Resolved i _ => Some i | _ => None end) its.

Lemma page_resolved_other initial i its : ∀ p, i ∉ data_ids its →
  p_resolved (foldl (page_item initial) p its) !! i = p_resolved p !! i.
Proof.
  unfold data_ids. induction its as [| [j e | j | e] its IH]; intros p Hi; [done | | |]; simpl in *;
    rewrite IH by set_solver; try done.
  simpl. rewrite lookup_insert_ne; [done | set_solver].
Qed.

Lemma page_resolved initial i d its : ∀ p, NoDup (data_ids its) → Resolved i d ∈ its →
  p_resolved (foldl (page_item initial) p its) !! i = Some (escape_lt d).
Proof.
  induction its as [| it its IH]; intros p Hn Hin; [by apply not_elem_of_nil in Hin |].
  simpl. apply elem_of_cons in Hin as [<- | Hin].
  - apply NoDup_cons in Hn as [Hn _]. rewrite page_resolved_other by done. simpl. by rewrite lookup_insert_eq.
  - apply IH; [| done]. destruct it; [by apply NoDup_cons in Hn as [_ Hn] | done..].
Qed.

Lemma page_errors initial its : ∀ p e, e ∈ p_errors p ∨ ErrorItem e ∈ its →
  e ∈ p_errors (foldl (page_item initial) p its).
Proof.
  induction its as [| it its IH]; intros p e He; [destruct He as [|?%not_elem_of_nil]; done |]. simpl. apply IH.
  rewrite elem_of_cons in He. destruct He as [He | [<- | He]]; [left | left | by right].
  - destruct it; simpl; set_solver.
  - simpl. set_solver.
Qed.

Lemma page_markers initial its : ∀ p,
  p_incomplete (foldl (page_item initial) p its) = p_incomplete p ++ markers its.
Proof.
  induction its as [| [i d | i | e] its IH]; intros p; simpl; [by rewrite app_nil_r | | |]; rewrite IH; simpl; try done.
  by rewrite <- app_assoc.
Qed.

Lemma page_pending (initial : gset text) its : ∀ p,
  (∀ i, i ∈ initial → i ∈ p_pending p) → (∀ i d, p_resolved p !! i = Some d → i ∈ p_pending p) →
  ∀ i d, p_resolved (foldl (page_item initial) p its) !! i = Some d → i ∈ p_pending (foldl (page_item initial) p its).
Proof.
  induction its as [| it its IH]; intros p Hin Hres; [exact Hres |]. apply IH.
  - intros i Hi%Hin. destruct it; simpl; try done. case_decide; set_solver.
  - intros i d. destruct it as [j e | j | e]; simpl; [| by apply Hres..].
    destruct (decide (i = j)) as [-> | Hij].
    + intros _. case_decide; set_solver.
    + rewrite lookup_insert_ne by done. intros H%Hres. case_decide; set_solver.
Qed.

Lemma shows_read_data p g i h : shows p g → h_during_hydration h = true → read_data g h i = p_resolved p !! i.
Proof.
  intros [(fs & Hr & Hk) _ _ _] Hh. unfold read_data. rewrite Hh. unfold v_resolved in Hr. rewrite Hr, Hk.
  by destruct (p_resolved p !! i).
Qed.

Lemma shows_errors p g : shows p g → serialized_errors g = p_errors p.
Proof.
  intros [_ He _ _]. unfold serialized_errors. unfold v_errors in He. rewrite He. clear He.
  induction (p_errors p) as [| [[b i] m] es IH]; [done |]. simpl. f_equal. exact IH.
Qed.

Lemma shows_incomplete p g : shows p g → incomplete_chunks g = p_incomplete p.
Proof.
  intros [_ _ _ Hi]. unfold incomplete_chunks. unfold v_incomplete in Hi. rewrite Hi. clear Hi.
  induction (p_incomplete p) as [| i l IH]; [done |]. simpl. f_equal. exact IH.
Qed.

(** ** The response as a whole *)

Definition first_stream (c : SsrSharedContext) : AsyncDataStream * SsrSharedContext := (pending_data is_printable [] c).2.

(** What is sent after the first script, and the context at the end *)
Definition sent (es : list response_event) (c : SsrSharedContext) : list item :=
  (trace is_printable es (first_stream c).1 (first_stream c).2).1.
Definition context_after (es : list response_event) (c : SsrSharedContext) : SsrSharedContext :=
  (trace is_printable es (first_stream c).1 (first_stream c).2).2.2.

(** All texts can be printed, and the ids of the set are iterated once each. *)
Record response_ok (pending : list text) (es : list response_event) (c : SsrSharedContext) : Prop := mkResponseOk {
  ro_sync : sync_buf c = [];
  ro_pending : pending ≡ₚ elements (initial_ids c);
  ro_initial : initial_ok pending c = true;
  ro_sent : forallb item_ok (sent es c) = true;
}.

Lemma response_shows pending es c : response_ok pending es c →
  ∃ g, exec_scripts (response is_printable pending es c).1 ∅ = Some g ∧
    shows (foldl (page_item (initial_ids c)) (initial_page pending c) (sent es c)) g.
Proof.
  intros [_ _ Hinit Hsent]. unfold response, pending_data.
  destruct (runs_initial is_printable pending c Hinit ∅) as (g & Hg & Hshow).
  destruct (respond_shows is_printable es (first_stream c).1 (first_stream c).2) as (its & cs & b & sc & Er & Et & Hrun).
  unfold sent in *. rewrite Et in *. unfold first_stream in Er. simpl in Er. rewrite Er. simpl.
  destruct (Hrun Hsent _ _ Hshow) as (g' & Eg & Hg'). exists g'. split; [| done].
  unfold exec_scripts. simpl. by rewrite Hg.
Qed.

Lemma respond_app es1 es2 : ∀ s c cs s' c', respond is_printable es1 s c = (cs, false, (s', c')) →
  respond is_printable (es1 ++ es2) s c =
    (let '(cs2, b, sc) := respond is_printable es2 s' c' in (cs ++ cs2, b, sc)) ∧
  (trace is_printable (es1 ++ es2) s c).1 = (trace is_printable es1 s c).1 ++ (trace is_printable es2 s' c').1.
Proof.
  induction es1 as [| [e | picks] es1 IH]; simpl; intros s c cs s' c'.
  - intros [= <- <- <-]. by destruct (respond _ es2 s c) as [[]].
  - apply IH.
  - destruct (poll_next is_printable picks s c) as [r [s1 c1]] eqn:E. destruct r as [| [chunk |]]; [| | done].
    + intros H%IH. destruct H as [-> Ht]. split; [done |].
      destruct (trace _ (es1 ++ es2) s1 c1) as [i1 []], (trace _ es1 s1 c1) as [i2 []]. simpl in *.
      by rewrite Ht, app_assoc.
    + destruct (respond _ es1 s1 c1) as [[cs1 b1] [s2 c2]] eqn:Er. intros [= <- -> <- <-].
      destruct (IH _ _ _ _ _ Er) as [-> Ht]. split; [by destruct (respond _ es2 s2 c2) as [[]] |].
      destruct (trace _ (es1 ++ es2) s1 c1) as [i1 []], (trace _ es1 s1 c1) as [i2 []]. simpl in *.
      by rewrite Ht, app_assoc.
Qed.

(** Something that was done before the response had ended *)
Definition done_during (e : effect) (pending : list text) (es : list response_event) (c : SsrSharedContext) : Prop :=
  ∃ es1 es2, es = es1 ++ Other e :: es2 ∧ (response is_printable pending es1 c).2 = false.

Lemma response_ended pending es c : (response is_printable pending es c).2 = true →
  ∃ cs sc, respond is_printable es (first_stream c).1 (first_stream c).2 = (cs, true, sc) ∧ sc.2 = context_after es c.
Proof.
  unfold response, pending_data, context_after.
  destruct (respond_shows is_printable es (first_stream c).1 (first_stream c).2) as (its & cs & b & sc & Er & Et & _).
  rewrite Et. unfold first_stream in *. simpl in *. rewrite Er. simpl. intros ->. eauto.
Qed.

Lemma response_split pending es c e :
  done_during e pending es c → (response is_printable pending es c).2 = true →
  ∃ es2 s' c' cs sc, respond is_printable es2 s' (do_effect c' e) = (cs, true, sc) ∧ sc.2 = context_after es c ∧
    ∀ it, it ∈ (trace is_printable es2 s' (do_effect c' e)).1 → it ∈ sent es c.
Proof.
  intros (es1 & es2 & -> & Hnot) (cs & sc & Er & Esc)%response_ended.
  destruct (respond is_printable es1 (first_stream c).1 (first_stream c).2) as [[cs1 b1] [s1 c1]] eqn:E1.
  assert (b1 = false) as ->.
  { unfold response, pending_data in Hnot. unfold first_stream in E1. simpl in *. by rewrite E1 in Hnot. }
  destruct (respond_app es1 (Other e :: es2) _ _ _ _ _ E1) as [E2 Et]. rewrite E2 in Er. simpl in Er.
  destruct (respond is_printable es2 s1 (do_effect c1 e)) as [[cs2 b2] sc2] eqn:E3. injection Er as <- -> <-.
  exists es2, s1, c1, cs2, sc2. split_and!; [done | done |]. intros it Hit. unfold sent. rewrite Et. simpl. set_solver.
Qed.

(** What happens during a response: what the rendering and other tasks do before
    it has ended, and what the futures do that they register, that were
    registered before, or that such futures register *)
Definition happens (e : effect) (pending : list text) (es : list response_event) (c : SsrSharedContext) : Prop :=
  done_during e pending es c ∨
  ∃ j g, ((j, g) ∈ async_buf c ∨ done_during (WriteAsync j g) pending es c) ∧ will_do g e.

Lemma response_sends pending es c j g i o : (response is_printable pending es c).2 = true →
  (j, g) ∈ async_buf c ∨ done_during (WriteAsync j g) pending es c → promises i o j g →
  Resolved i o ∈ sent es c.
Proof.
  intros Hend [Hg | Hg] Hp.
  - apply response_ended in Hend as (cs & sc & Er & _). eapply trace_resolves; [| exact Er]. by exists j, g.
  - destruct (response_split _ _ _ _ Hg Hend) as (es2 & s' & c' & cs & sc & Er & _ & Hin). apply Hin.
    eapply trace_resolves; [| exact Er]. exists j, g. split; [| done]. unfold registered. simpl. set_solver.
Qed.

Lemma response_reads pending es c g i f :
  shows (foldl (page_item (initial_ids c)) (initial_page pending c) (sent es c)) g →
  NoDup (data_ids (sent es c)) → (response is_printable pending es c).2 = true →
  (i, f) ∈ async_buf c ∨ happens (WriteAsync i f) pending es c →
  read_data g HydrateSharedContext_new i = Some (escape_lt (outcome f)).
Proof.
  intros Hg Hids Hend Hf. rewrite (shows_read_data _ _ _ _ Hg) by done. apply page_resolved; [done |].
  destruct Hf as [Hf | [Hf | (j & h & Hh & Hw)]].
  - eapply response_sends; [done | left; exact Hf | by left].
  - eapply response_sends; [done | right; exact Hf | by left].
  - eapply response_sends; [done | exact Hh | right; eauto].
Qed.

Lemma response_errors pending es c e : (response is_printable pending es c).2 = true →
  happens (RegisterError e.1.1 e.1.2 e.2) pending es c → e.1.1 ∉ sealed_error_boundaries (context_after es c) →
  ErrorItem e ∈ sent es c.
Proof.
  intros Hend He Hs. destruct He as [He | (j & g & [Hg | Hg] & Hw)].
  - destruct (response_split _ _ _ _ He Hend) as (es2 & s' & c' & cs & [s2 c2] & Er & Ec & Hin). apply Hin.
    simpl in Ec. subst c2. eapply trace_errors; [| exact Hs | exact Er]. left. destruct e as [[b i] m]. simpl. set_solver.
  - apply response_ended in Hend as (cs & [s' c'] & Er & Ec). simpl in Ec. subst c'.
    eapply trace_errors; [| exact Hs | exact Er]. right. by exists j, g.
  - destruct (response_split _ _ _ _ Hg Hend) as (es2 & s' & c' & cs & [s2 c2] & Er & Ec & Hin). apply Hin.
    simpl in Ec. subst c2. eapply trace_errors; [| exact Hs | exact Er]. right. exists j, g.
    split; [| done]. unfold registered. simpl. set_solver.
Qed.



(** ** Scripts do not end before their end *)

Lemma no_lt_app a b : no_lt a → no_lt b → no_lt (a ++ b).
Proof. apply Forall_app_2. Qed.
Lemma no_lt_bind {A : Type} (f : A → text) l : (∀ x, x ∈ l → no_lt (f x)) → no_lt (l ≫= f).
Proof.
  induction l as [| x l IH]; intros H; [constructor |]. rewrite bind_cons.
  apply no_lt_app; [apply H; left | apply IH; intros; apply H; by right].
Qed.
Lemma escape_lt_no_lt s : no_lt (escape_lt s).
Proof. apply no_lt_bind. intros c _. unfold escape_lt_char. case_match eqn:E; [by repeat constructor |]. repeat constructor. by apply N.eqb_neq. Qed.
Lemma debug_no_lt s : no_lt s → no_lt (debug is_printable s).
Proof.
  intros H. unfold debug. apply no_lt_app; [by repeat constructor |]. apply no_lt_app; [| by repeat constructor].
  apply no_lt_bind. intros c Hc. apply escape_debug_no_lt. unfold no_lt in H. rewrite Forall_forall in H. by apply H.
Qed.

(** The ids among the items have no [<]. *)
Definition item_ids (it : item) : list text :=
  match it with Resolved i _ => [i] | Incomplete i => [i] | ErrorItem e => [e.1.1; e.1.2] end.
(** Splits a text that is printed *)
Ltac no_lt_pieces :=
  lazymatch goal with
  | |- no_lt (_ ++ _) => apply no_lt_app; no_lt_pieces
  | |- no_lt (debug _ (escape_lt _)) => apply debug_no_lt, escape_lt_no_lt
  | |- no_lt (debug _ _) => apply debug_no_lt; try assumption
  | |- no_lt (escape_lt _) => apply escape_lt_no_lt
  | |- no_lt (txt _) => repeat (constructor; [done |]); constructor
  | |- _ => idtac
  end.

Lemma error_entry_no_lt e : no_lt e.1.1 → no_lt e.1.2 → no_lt (error_entry is_printable e).
Proof.
  destruct e as [[b i] m]. intros Hb Hi. cbv beta iota delta [error_entry]. cbn [fst snd] in *. no_lt_pieces.
Qed.

Lemma write_item_no_lt initial it : Forall no_lt (item_ids it) → no_lt (write_item is_printable initial it).
Proof.
  destruct it as [i d | i | e]; cbn [item_ids write_item]; rewrite ?Forall_cons; intros H.
  - destruct H as [Hi _]. unfold write_resolved. cbn [fst snd]. no_lt_pieces. case_decide; [constructor |]. no_lt_pieces.
  - destruct H as [Hi _]. unfold write_incomplete. no_lt_pieces.
  - destruct H as (Hb & Hi & _). no_lt_pieces. by apply error_entry_no_lt.
Qed.

Lemma respond_chunks es : ∀ s c chunk, chunk ∈ (respond is_printable es s c).1.1 →
  ∃ its, (∀ it, it ∈ its → it ∈ (trace is_printable es s c).1) ∧ chunk = its ≫= write_item is_printable (initial_pending_ids s).
Proof.
  induction es as [| [e | picks] es IH]; simpl; intros s c chunk; [by intros ?%not_elem_of_nil | apply IH |].
  destruct (poll_next is_printable picks s c) as [r [s1 c1]] eqn:E. pose proof (final_chunk_empty _ _ _ _ _ _ _ E) as Hf.
  apply poll_next_items in E as [Hi Hr]. rewrite <- Hi. destruct r as [| [text |]].
  - intros (its & Hits & ->)%IH. exists its. split; [| done]. intros it Hit.
    destruct (trace _ es s1 c1) as [its1 sc]. simpl in *. set_solver.
  - specialize (IH s1 c1 chunk). destruct (respond _ es s1 c1) as [[cs b] sc]. simpl in *.
    destruct (trace _ es s1 c1) as [its1 sc1]. simpl in *. intros [-> | Hin]%elem_of_cons.
    + exists (poll_items picks s c). rewrite Hi. split; [set_solver | done].
    + destruct (IH Hin) as (its & Hits & ->). exists its. split; [set_solver | done].
  - intros ->%list_elem_of_singleton. exists []. split; [set_solver | done].
Qed.

(** C32: a script is not closed by the data that it carries: as long as the ids
    have no [<], which those of [next_id] never have, no script of a response
    has one, whatever the data and the messages of the errors are; so there is
    no [</script>] in it and no [<!--]. *)
Theorem scripts_stay_open (pending : list text) (es : list response_event) (c : SsrSharedContext)
    (Hinit : Forall no_lt ((sync_buf c).*1 ++ pending ++ incomplete c ++ (errors c ≫= λ e, [e.1.1; e.1.2])))
    (Hsent : Forall no_lt (sent es c ≫= item_ids)) :
  Forall no_lt (response is_printable pending es c).1.
Proof.
  rewrite !Forall_app in Hinit. destruct Hinit as (Hs & Hp & Hi & He).
  unfold response, pending_data. pose proof (respond_chunks es (first_stream c).1 (first_stream c).2) as Hc.
  unfold sent, first_stream in *. simpl in *. destruct (respond _ es _ _) as [[cs b] sc]. simpl in *.
  constructor.
  - rewrite Forall_forall in Hs, Hp, Hi, He. unfold initial_chunk.
    no_lt_pieces; apply no_lt_bind; intros x Hx; no_lt_pieces.
    + unfold write_to_buf. no_lt_pieces. apply Hs, list_elem_of_fmap. eauto.
    + apply error_entry_no_lt; apply He, list_elem_of_bind; eexists; (split; [| exact Hx]); set_solver.
    + by apply Hp.
    + by apply Hi.
  - rewrite Forall_forall. intros chunk Hchunk. destruct (Hc chunk Hchunk) as (its & Hits & ->).
    apply no_lt_bind. intros it Hit. apply write_item_no_lt. rewrite Forall_forall in Hsent |- *.
    intros t Ht. apply Hsent, list_elem_of_bind. eauto.
Qed.
End Responses.
