(* ===== verification/SharedData.v ===== *)
(** * Data that the server and the browser share

    [leptos_server]: [SharedValue] and the resources take an id for their data,
    write them into the shared context on the server, and read them from it
    while the page is hydrated.  The ids come from the context, or from the
    scope of the nearest boundary.  The clients are written against the
    interface of a shared context, which the contexts of the server, of
    hydration and of client-side rendering implement. *)

From Stdlib Require Import NArith.
From stdpp Require Import base list gmap strings pretty.
From S2P Require Import Prelude JsScript HydrationContext.

Open Scope N_scope.

(** The methods of the trait [SharedContext] that the clients use *)
Class SharedContext (C : Type) := {
  sc_next_id : C → text * C;
  sc_write_async : text → fut → C → C;
  sc_read_data : C → text → option text;
  sc_during_hydration : C → bool;
  sc_get_is_hydrating : C → bool;
}.

#[global] Instance ssr_context : SharedContext SsrSharedContext := {|
  sc_next_id := next_id;
  sc_write_async := write_async;
  sc_read_data := λ _ _, None;
  sc_during_hydration := λ _, false;
  sc_get_is_hydrating := is_hydrating;
|}.

(** The context of hydration, with the global variables of the page *)
#[global] Instance hydrate_context : SharedContext (globals * HydrateSharedContext) := {|
  sc_next_id := λ c, let '(i, h) := hydrate_next_id c.2 in (i, (c.1, h));
  sc_write_async := λ _ _ c, c;
  sc_read_data := λ c i, read_data c.1 c.2 i;
  sc_during_hydration := λ c, h_during_hydration c.2;
  sc_get_is_hydrating := λ c, h_is_hydrating c.2;
|}.

Inductive CsrSharedContext := Csr.
#[global] Instance csr_context : SharedContext CsrSharedContext := {|
  sc_next_id := λ c, (to_string 0, c);
  sc_write_async := λ _ _ c, c;
  sc_read_data := λ _ _, None;
  sc_during_hydration := λ _, false;
  sc_get_is_hydrating := λ _, false;
|}.

(** ** Ids *)

Record SerializedDataIdScope := mkScope {
  parent : text;
  next : N;
}.
Definition SerializedDataIdScope_new (p : text) : SerializedDataIdScope := mkScope p 0.
Definition scope_next_id (s : SerializedDataIdScope) : text * SerializedDataIdScope :=
  (parent s ++ txt "-" ++ to_string (next s), mkScope (parent s) ((next s + 1) mod (usize_max + 1))).

Section Clients.
Context {C : Type} `{SharedContext C}.

(** The context and the scopes that have been made, which the contexts of the
    owner tree share *)
Abbreviation state := (C * list SerializedDataIdScope)%type.

(** [Owner::next_serialized_data_id]; [k] is the scope that the current owner
    has as its context, if there is one. *)
Definition next_serialized_data_id (k : option nat) (st : state) : text * state :=
  match (if sc_get_is_hydrating st.1 then (k ← k; s ← st.2 !! k; Some (k, s)) else None) with
  | Some (k, s) => let '(i, s) := scope_next_id s in (i, (st.1, <[k := s]> st.2))
  | None => let '(i, c) := sc_next_id st.1 in (i, (c, st.2))
  end.

(** The id of a boundary ([<Suspense/>], [<Transition/>]), and the scope of its
    children *)
Definition open_boundary (k : option nat) (st : state) : text * state :=
  let '(i, (c, ss)) := next_serialized_data_id k st in
  (i, (c, ss ++ [SerializedDataIdScope_new i])).

(** ** Values and resources *)

Section Codec.
Context {T : Type} (encode : T → option text) (decode : text → option T).

(** [SharedValue::new_with_encoding]; [ssr] is the feature of that name. *)
Definition new_with_encoding (ssr : bool) (k : option nat) (initial : T) (st : state) : T * state :=
  let '(i, (c, ss)) := next_serialized_data_id k st in
  let serialized := sc_read_data c i in
  if sc_during_hydration c then (default initial (serialized ≫= decode), (c, ss))
  else if ssr && sc_get_is_hydrating c then
    match encode initial with
    | Some e => (initial, (sc_write_async i (FReady [] e) c, ss))
    | None => (initial, (c, ss))
    end
  else (initial, (c, ss)).

(** [initial_value] *)
Definition initial_value (i : text) (c : C) : option T := sc_read_data c i ≫= decode.

(** What a resource writes when it is ready, and the future that waits for that *)
Definition resource_payload (data : option T) : text :=
  match data with Some v => default [] (encode v) | None => [] end.
Fixpoint resource_fut (polls : nat) (data : option T) : fut :=
  match polls with
  | O => FReady [] (resource_payload data)
  | S polls => FPending [] (resource_fut polls data)
  end.

(** The part of [ArcResource::new_with_options] and [ArcOnceResource::new_with_options]
    that shares the data: the initial value, and the future that is written when
    the resource has [data] after [polls] polls *)
Definition new_with_options (ssr : bool) (k : option nat) (polls : nat) (data : option T) (st : state) : option T * state :=
  let '(i, (c, ss)) := next_serialized_data_id k st in
  let initial := initial_value i c in
  if ssr && sc_get_is_hydrating c then (initial, (sc_write_async i (resource_fut polls data) c, ss))
  else (initial, (c, ss)).
End Codec.
End Clients.

Close Scope N_scope.
