(* ===== verification/SharedDataProps.v ===== *)
(** * Ids of shared data

    The ids of a response differ from each other, and those of a scope are
    counted from zero whatever other scopes do in the meantime. *)

From Stdlib Require Import NArith Ascii.
From stdpp Require Import base list gmap strings pretty.
From S2P Require Import Prelude JsScript HydrationContext HydrationFacts SharedData HydrationProps.

Open Scope N_scope.

(** ** Decimal numbers *)

Definition digits (s : text) : Prop := Forall (λ c, between 48 57 c = true) s.

Lemma txt_app s t : txt (s +:+ t) = txt s ++ txt t.
Proof. unfold txt. induction s as [| a s IH]; [done |]. simpl. f_equal. exact IH. Qed.

Lemma pretty_go_digits x : ∀ s, digits (txt s) → digits (txt (pretty_N_go x s)).
Proof.
  induction (N.lt_wf_0 x) as [x _ IH]; intros s Hs. destruct (decide (0 < x)) as [Hx |].
  - rewrite pretty_N_go_step by done. apply IH; [by apply N.div_lt |].
    constructor; [| done]. unfold pretty_N_char. by repeat case_match.
  - replace x with 0 by lia. by rewrite pretty_N_go_0.
Qed.

Lemma to_string_digits n : digits (to_string n).
Proof.
  unfold to_string, pretty, pretty_N. case_decide; [by repeat constructor |]. by apply pretty_go_digits; constructor.
Qed.

Lemma txt_inj s t : txt s = txt t → s = t.
Proof.
  unfold txt. revert t. induction s as [| a s IH]; intros [| b t] H; try done.
  injection H as Hab Hst. rewrite <- (ascii_N_embedding a), <- (ascii_N_embedding b), Hab. f_equal. by apply IH.
Qed.

#[global] Instance to_string_inj : Inj (=) (=) to_string.
Proof. intros a b H%txt_inj. by apply (inj pretty) in H. Qed.

(** The id of number [n] in the scope of [p] *)
Definition scoped_id (p : text) (n : N) : text := p ++ txt "-" ++ to_string n.

Lemma dash_split p q x y : digits x → digits y → p ++ 45 :: x = q ++ 45 :: y → p = q ∧ x = y.
Proof.
  intros Hx Hy. revert q. induction p as [| c p IH]; intros [| d q] H; simpl in H.
  - by injection H as ->.
  - injection H as Hd Hq. subst d x. apply Forall_app in Hx as [_ [Hx _]%Forall_cons]. discriminate Hx.
  - injection H as Hc Hq. subst c y. apply Forall_app in Hy as [_ [Hy _]%Forall_cons]. discriminate Hy.
  - injection H as -> H. destruct (IH _ H) as [-> ->]. done.
Qed.

Lemma scoped_id_inj p q n m : scoped_id p n = scoped_id q m → p = q ∧ n = m.
Proof.
  intros H. apply dash_split in H as [-> H]; [| apply to_string_digits..]. split; [done | by apply (inj to_string)].
Qed.

Lemma scoped_id_not_to_string p n m : scoped_id p n ≠ to_string m.
Proof.
  intros H. pose proof (to_string_digits m) as Hd. rewrite <- H in Hd. unfold scoped_id in Hd.
  apply Forall_app in Hd as [_ [Hd _]%Forall_cons]. discriminate Hd.
Qed.

(** ** Allocations *)

(** What asks for ids on the server, in any order *)
Inductive id_event :=
| NextId (k : option nat)
| OpenBoundary (k : option nat)
| SetHydrating (b : bool).

Abbreviation ids_state := (SsrSharedContext * list SerializedDataIdScope)%type.

(** The scope that an id comes from *)
Definition source (k : option nat) (st : ids_state) : option nat :=
  if is_hydrating st.1 then (k ← k; _ ← st.2 !! k; Some k) else None.

(** The ids with their scopes, in the order of their allocation *)
Fixpoint ids_run (es : list id_event) (st : ids_state) : list (option nat * text) * ids_state :=
  match es with
  | [] => ([], st)
  | NextId k :: es =>
      let '(i, st') := next_serialized_data_id k st in
      let '(l, st'') := ids_run es st' in ((source k st, i) :: l, st'')
  | OpenBoundary k :: es =>
      let '(i, st') := open_boundary k st in
      let '(l, st'') := ids_run es st' in ((source k st, i) :: l, st'')
  | SetHydrating b :: es => ids_run es (set_is_hydrating b st.1, st.2)
  end.

Definition ids_of (k : nat) (log : list (option nat * text)) : list text :=
  omap (λ e, if decide (e.1 = Some k) then Some e.2 else None) log.

Definition scoped_ids (p : text) (n : N) : list text := (λ m, scoped_id p (N.of_nat m)) <$> seq 0 (N.to_nat n).

(** [log] are the ids so far. *)
Record ids_ok (log : list (option nat * text)) (st : ids_state) : Prop := mkIdsOk {
  io_nodup : NoDup log.*2;
  io_none i : (None, i) ∈ log → ∃ n, i = to_string n ∧ (n < id st.1 ∨ non_hydration_id st.1 < n);
  io_some k i : (Some k, i) ∈ log → ∃ s, st.2 !! k = Some s;
  io_scope k s : st.2 !! k = Some s → parent s ∈ log.*2 ∧ ids_of k log = scoped_ids (parent s) (next s);
  io_parents : NoDup (parent <$> st.2);
  io_bound : id st.1 + (usize_max - non_hydration_id st.1) ≤ N.of_nat (length log) ∧ non_hydration_id st.1 ≤ usize_max;
  io_next k s : st.2 !! k = Some s → next s ≤ N.of_nat (length log);
}.

Lemma ids_of_app k l l' : ids_of k (l ++ l') = ids_of k l ++ ids_of k l'.
Proof. apply omap_app. Qed.

Lemma elem_of_ids_of k i log : i ∈ ids_of k log ↔ (Some k, i) ∈ log.
Proof.
  unfold ids_of. rewrite list_elem_of_omap. split.
  - intros ([src j] & Hin & H). simpl in H. case_decide; [| done]. simpl in *. by simplify_eq.
  - intros H. exists (Some k, i). simpl. by rewrite decide_True.
Qed.

Lemma scoped_ids_snoc p n : scoped_ids p (n + 1) = scoped_ids p n ++ [scoped_id p n].
Proof.
  unfold scoped_ids. replace (N.to_nat (n + 1)) with (N.to_nat n + 1)%nat by lia.
  rewrite seq_app, fmap_app. simpl. by rewrite N2Nat.id.
Qed.

Lemma elem_of_scoped_ids p n i : i ∈ scoped_ids p n → ∃ m, i = scoped_id p m ∧ m < n.
Proof.
  intros (m & -> & Hm%elem_of_seq)%list_elem_of_fmap. exists (N.of_nat m). split; [done | lia].
Qed.

(** An id of a scope is none of those so far. *)
Lemma scoped_fresh log st k s : ids_ok log st → st.2 !! k = Some s → scoped_id (parent s) (next s) ∉ log.*2.
Proof.
  intros Hok Hs ([[j |] i] & Hi & Hin)%list_elem_of_fmap; simpl in Hi; subst i.
  - destruct (io_some _ _ Hok j _ Hin) as [s' Hs']. apply elem_of_ids_of in Hin.
    destruct (io_scope _ _ Hok j s' Hs') as [_ E]. rewrite E in Hin.
    apply elem_of_scoped_ids in Hin as (m & [Hp <-]%scoped_id_inj & Hm).
    assert (j = k) as ->.
    { apply (NoDup_lookup _ _ _ (parent s) (io_parents _ _ Hok)); rewrite list_lookup_fmap.
      - rewrite Hs'. simpl. by rewrite Hp.
      - by rewrite Hs. }
    rewrite Hs in Hs'. simplify_eq. lia.
  - destruct (io_none _ _ Hok _ Hin) as (n & Hn & _). by apply scoped_id_not_to_string in Hn.
Qed.

Lemma plain_fresh log st n : ids_ok log st → id st.1 ≤ n ≤ non_hydration_id st.1 → to_string n ∉ log.*2.
Proof.
  intros Hok Hn ([[j |] i] & Hi & Hin)%list_elem_of_fmap; simpl in Hi; subst i.
  - destruct (io_some _ _ Hok j _ Hin) as [s' Hs']. apply elem_of_ids_of in Hin.
    destruct (io_scope _ _ Hok j s' Hs') as [_ E]. rewrite E in Hin.
    apply elem_of_scoped_ids in Hin as (m & Hm & _). symmetry in Hm. by apply scoped_id_not_to_string in Hm.
  - destruct (io_none _ _ Hok _ Hin) as (m & Hm%(inj to_string) & Hlt). lia.
Qed.

Lemma ids_of_snoc k log src i : ids_of k (log ++ [(src, i)]) = ids_of k log ++ (if decide (src = Some k) then [i] else []).
Proof. rewrite ids_of_app. f_equal. unfold ids_of. simpl. by case_decide. Qed.

(** The invariant after an id [i] that is new, when the scope that it comes
    from counts on, or the counters of the context do *)
Lemma ids_ok_plain log c c' ss i : ids_ok log (c, ss) → i ∉ log.*2 →
  (∃ n, i = to_string n ∧ (n < id c' ∨ non_hydration_id c' < n)) →
  id c ≤ id c' → non_hydration_id c' ≤ non_hydration_id c →
  id c' + (usize_max - non_hydration_id c') ≤ N.of_nat (length log) + 1 →
  ids_ok (log ++ [(None, i)]) (c', ss).
Proof.
  intros [Hnd Hnone Hsome Hscope Hpar Hb Hnext] Hi Hin Hid Hnon Hb'. constructor; simpl in *.
  - rewrite fmap_app. apply NoDup_app. split_and!; [done | set_solver | apply NoDup_singleton].
  - intros j [Hj | Hj]%elem_of_app.
    + destruct (Hnone j Hj) as (n & -> & Hn). exists n. split; [done | lia].
    + apply list_elem_of_singleton in Hj as [= ->]. done.
  - intros k j [Hj | [=]%list_elem_of_singleton]%elem_of_app. eauto.
  - intros k s Hs. destruct (Hscope k s Hs) as [Hp E]. rewrite ids_of_snoc. simpl. rewrite app_nil_r. split; [set_solver | done].
  - done.
  - rewrite length_app. simpl. lia.
  - intros k s Hs%Hnext. rewrite length_app. simpl. lia.
Qed.

Lemma ids_ok_scoped log c ss k s : ids_ok log (c, ss) → ss !! k = Some s →
  ids_ok (log ++ [(Some k, scoped_id (parent s) (next s))]) (c, <[k := mkScope (parent s) (next s + 1)]> ss).
Proof.
  intros Hok Hs. pose proof (scoped_fresh _ _ _ _ Hok Hs) as Hfresh.
  destruct Hok as [Hnd Hnone Hsome Hscope Hpar Hb Hnext]. simpl in *. constructor; simpl.
  - rewrite fmap_app. apply NoDup_app. split_and!; [done | set_solver | apply NoDup_singleton].
  - intros j [Hj | [=]%list_elem_of_singleton]%elem_of_app. auto.
  - intros j i Hj. assert (∃ s', ss !! j = Some s') as [s' Hs'].
    { apply elem_of_app in Hj as [Hj | Hj]; [eauto |]. apply list_elem_of_singleton in Hj as [= -> ->]. eauto. }
    apply lookup_lt_is_Some_2. rewrite length_insert. by eapply lookup_lt_Some.
  - intros j s' [(<- & <- & _) | [Hjk Hs']]%list_lookup_insert_Some; rewrite ids_of_snoc.
    + destruct (Hscope k s Hs) as [Hp E]. rewrite decide_True by done. simpl. rewrite scoped_ids_snoc, E.
      split; [set_solver | done].
    + destruct (Hscope j s' Hs') as [Hp E]. rewrite decide_False by congruence. rewrite app_nil_r. split; [set_solver | done].
  - rewrite list_fmap_insert. simpl. rewrite list_insert_id; [done |]. by rewrite list_lookup_fmap, Hs.
  - rewrite length_app. simpl. lia.
  - intros j s' [(<- & <- & _) | [Hjk Hs']]%list_lookup_insert_Some; rewrite length_app; simpl.
    + specialize (Hnext k s Hs). lia.
    + specialize (Hnext j s' Hs'). lia.
Qed.

Lemma next_id_ok k log st : ids_ok log st → N.of_nat (length log) < usize_max →
  let '(i, st') := next_serialized_data_id k st in i ∉ log.*2 ∧ ids_ok (log ++ [(source k st, i)]) st'.
Proof.
  destruct st as [c ss]. intros Hok Hlen. pose proof (io_bound _ _ Hok) as [Hb Hb']. simpl in Hb, Hb'.
  unfold next_serialized_data_id, source. simpl. destruct (is_hydrating c) eqn:Eh.
  - destruct k as [k |]; simpl; [destruct (ss !! k) as [s |] eqn:Es; simpl |].
    + pose proof (io_next _ _ Hok k s Es) as Hn. rewrite N.mod_small by (unfold usize_max in *; lia).
      split; [by eapply (scoped_fresh log (c, ss)) | by apply ids_ok_scoped].
    + unfold next_id. rewrite Eh. assert (to_string (id c) ∉ log.*2) by (apply (plain_fresh _ _ _ Hok); simpl; lia).
      split; [done |]. eapply ids_ok_plain; [done | done | ..]; simpl; rewrite ?N.mod_small by (unfold usize_max in *; lia);
        [eexists; split; [done | lia] | lia..].
    + unfold next_id. rewrite Eh. assert (to_string (id c) ∉ log.*2) by (apply (plain_fresh _ _ _ Hok); simpl; lia).
      split; [done |]. eapply ids_ok_plain; [done | done | ..]; simpl; rewrite ?N.mod_small by (unfold usize_max in *; lia);
        [eexists; split; [done | lia] | lia..].
  - unfold next_id. rewrite Eh. simpl.
    assert (to_string (non_hydration_id c) ∉ log.*2) by (apply (plain_fresh _ _ _ Hok); simpl; lia).
    assert ((non_hydration_id c + usize_max) mod (usize_max + 1) = non_hydration_id c - 1) as E.
    { replace (non_hydration_id c + usize_max) with (non_hydration_id c - 1 + 1 * (usize_max + 1)) by lia.
      rewrite N.Div0.mod_add, N.mod_small by (unfold usize_max in *; lia). done. }
    split; [done |]. eapply ids_ok_plain; [done | done | ..]; simpl; rewrite ?E;
      [eexists; split; [done | lia] | lia..].
Qed.

Lemma next_id_parents k (st : ids_state) : parent <$> (next_serialized_data_id k st).2.2 = parent <$> st.2.
Proof.
  destruct st as [c ss]. unfold next_serialized_data_id. simpl.
  destruct (is_hydrating c); simpl; [| by destruct (next_id c)].
  destruct k as [k |]; simpl; [| by destruct (next_id c)].
  destruct (ss !! k) as [s |] eqn:Es; simpl; [| by destruct (next_id c)].
  rewrite list_fmap_insert. simpl. apply list_insert_id. by rewrite list_lookup_fmap, Es.
Qed.

Lemma open_boundary_ok k log st : ids_ok log st → N.of_nat (length log) < usize_max →
  let '(i, st') := open_boundary k st in ids_ok (log ++ [(source k st, i)]) st'.
Proof.
  intros Hok Hlen. pose proof (next_id_ok k log st Hok Hlen) as Hn. unfold open_boundary.
  destruct (next_serialized_data_id k st) as [i [c ss]] eqn:E. destruct Hn as [Hi Hok'].
  assert (∀ s, s ∈ ss → parent s ∈ log.*2) as Hold.
  { intros s Hs. assert (parent s ∈ parent <$> st.2) as Hp.
    { rewrite <- (next_id_parents k st), E. by apply list_elem_of_fmap_2. }
    apply list_elem_of_fmap in Hp as (s' & Hp & [j Hs']%list_elem_of_lookup). rewrite Hp. by eapply io_scope. }
  destruct Hok' as [Hnd Hnone Hsome Hscope Hpar Hb Hnext]. simpl in *. constructor; simpl; try done.
  - intros j i' Hj. destruct (Hsome j i' Hj) as [s Hs]. exists s. by apply lookup_app_l_Some.
  - intros j s [Hs | [Hle Hs]]%lookup_app_Some; [eauto |].
    apply list_lookup_singleton_Some in Hs as [Hz <-]. simpl. split; [rewrite fmap_app; set_solver |].
    unfold scoped_ids. simpl. destruct (ids_of j _) as [| x l] eqn:El; [done |].
    assert (x ∈ ids_of j (log ++ [(source k st, i)])) as Hx by (rewrite El; set_solver).
    apply elem_of_ids_of, Hsome in Hx as [s Hs]. apply lookup_lt_Some in Hs. lia.
  - rewrite fmap_app. apply NoDup_app. split_and!; [done | | apply NoDup_singleton]. simpl.
    intros x (s & Hx & Hs)%list_elem_of_fmap Hxi%list_elem_of_singleton. subst x. by apply Hi; rewrite <- Hxi; apply Hold.
  - intros j s [Hs | [Hle Hs]]%lookup_app_Some; [eauto |].
    apply list_lookup_singleton_Some in Hs as [Hz <-]. simpl. lia.
Qed.

Lemma ids_run_ok es : ∀ log st, ids_ok log st → N.of_nat (length log + length es) ≤ usize_max →
  let '(l, st') := ids_run es st in ids_ok (log ++ l) st'.
Proof.
  induction es as [| e es IH]; intros log st Hok Hlen; simpl; [by rewrite app_nil_r |]. simpl in Hlen.
  destruct e as [k | k | b].
  - pose proof (next_id_ok k log st Hok ltac:(lia)) as Hn. destruct (next_serialized_data_id k st) as [i st1].
    destruct Hn as [_ Hn]. specialize (IH _ _ Hn). rewrite length_app in IH. simpl in IH.
    specialize (IH ltac:(lia)). destruct (ids_run es st1) as [l st2]. by rewrite <- app_assoc in IH.
  - pose proof (open_boundary_ok k log st Hok ltac:(lia)) as Hn. destruct (open_boundary k st) as [i st1].
    specialize (IH _ _ Hn). rewrite length_app in IH. simpl in IH.
    specialize (IH ltac:(lia)). destruct (ids_run es st1) as [l st2]. by rewrite <- app_assoc in IH.
  - apply IH; [| lia]. destruct Hok as [Hnd Hnone Hsome Hscope Hpar Hb Hnext]. by constructor.
Qed.

Lemma ids_ok_new b : ids_ok [] (set_is_hydrating b SsrSharedContext_new, []).
Proof. constructor; simpl; try done; try constructor; by intros ? ?%not_elem_of_nil || intros ? ? ?%not_elem_of_nil || done. Qed.

Close Scope N_scope.

(** * Theorems on shared data

    The ids of a response, and values and resources from the server through the
    scripts to the browser. *)

(** Ids can be trusted: whoever asks for ids in whatever order, with or
    without a scope and while hydration is on or off, no id is given twice as
    long as there are not more of them than a [usize] counts; and the ids of a
    scope are [p-0], [p-1] and so on, in the order in which they were asked for,
    whatever happens elsewhere in the meantime. *)
Theorem ids_distinct (islands : bool) (es : list id_event) (Hlen : (N.of_nat (length es) ≤ usize_max)%N) :
  let '(log, (c, scopes)) := ids_run es (if islands then new_islands else SsrSharedContext_new, []) in
  NoDup log.*2 ∧ ∀ k s, scopes !! k = Some s → ids_of k log = scoped_ids (parent s) (next s).
Proof.
  pose proof (ids_run_ok es [] (set_is_hydrating (negb islands) SsrSharedContext_new, []) (ids_ok_new _) Hlen) as H.
  replace (if islands then _ else _) with (set_is_hydrating (negb islands) SsrSharedContext_new) by by destruct islands.
  destruct (ids_run es _) as [log [c ss]]. split; [apply H | intros k s Hs; by eapply io_scope].
Qed.

(** ** Programs *)

Section Programs.
Context {T : Type} (encode : T → option text) (decode : text → option T).

(** What a page makes while it is rendered, on the server and in the browser;
    the browser has its own values, and loads resources on its own *)
Inductive op :=
| OShared (k : option nat) (v : T)
| OResource (k : option nat) (polls : nat) (v : T)
| OBoundary (k : option nat).

Definition op_event (o : op) : id_event :=
  match o with OShared k _ => NextId k | OResource k _ _ => NextId k | OBoundary k => OpenBoundary k end.
Definition op_value (o : op) : option T := match o with OShared _ v => Some v | OResource _ _ v => Some v | OBoundary _ => None end.

Section Run.
Context {C : Type} `{SharedContext C}.

(** The value of a [SharedValue], and the initial value of a resource *)
Definition run_op (ssr : bool) (o : op) (st : C * list SerializedDataIdScope) : option T * (C * list SerializedDataIdScope) :=
  match o with
  | OShared k v => let '(v, st) := new_with_encoding encode decode ssr k v st in (Some v, st)
  | OResource k polls v => new_with_options encode decode ssr k polls (Some v) st
  | OBoundary k => let '(_, st) := open_boundary k st in (None, st)
  end.

Fixpoint run_ops (ssr : bool) (os : list op) (st : C * list SerializedDataIdScope) :
    list (option T) * (C * list SerializedDataIdScope) :=
  match os with
  | [] => ([], st)
  | o :: os => let '(v, st) := run_op ssr o st in let '(vs, st) := run_ops ssr os st in (v :: vs, st)
  end.
End Run.

(** The browser makes the same things with other values. *)
Definition same_op (o o' : op) : Prop := op_event o = op_event o' ∧ (op_value o = None ↔ op_value o' = None).

(** What the operations write on the server *)
Definition op_fut (o : op) : option fut :=
  match o with
  | OShared _ v => FReady [] <$> encode v
  | OResource _ polls v => Some (resource_fut encode polls (Some v))
  | OBoundary _ => None
  end.

Definition op_write (i : text) (o : op) : list (text * fut) := match op_fut o with Some f => [(i, f)] | None => [] end.

(** ** The server *)

Definition op_writes (ids : list text) (os : list op) : list (text * fut) := concat (zip_with op_write ids os).

Lemma next_id_async k b c ss : next_serialized_data_id k (set_async_buf b c, ss) =
  (let '(i, (c', ss')) := next_serialized_data_id k (c, ss) in (i, (set_async_buf b c', ss'))).
Proof.
  unfold next_serialized_data_id. simpl. unfold next_id. simpl. destruct (is_hydrating c); simpl; [| done].
  destruct k as [k |]; simpl; [| done]. by destruct (ss !! k).
Qed.

Lemma open_boundary_async k b c ss : open_boundary k (set_async_buf b c, ss) =
  (let '(i, (c', ss')) := open_boundary k (c, ss) in (i, (set_async_buf b c', ss'))).
Proof. unfold open_boundary. rewrite next_id_async. by destruct (next_serialized_data_id k (c, ss)) as [i [c' ss']]. Qed.

Lemma next_id_hydrating k c ss : is_hydrating (next_serialized_data_id k (c, ss)).2.1 = is_hydrating c.
Proof.
  unfold next_serialized_data_id. simpl. unfold next_id. destruct (is_hydrating c) eqn:E; simpl; [| done].
  destruct k as [k |]; simpl; [| done]. by destruct (ss !! k).
Qed.

Lemma set_async_buf_id c : set_async_buf (async_buf c) c = c.
Proof. by destruct c. Qed.

Lemma op_writes_cons i ids o os : op_writes (i :: ids) (o :: os) = op_write i o ++ op_writes ids os.
Proof. done. Qed.
Lemma op_write_shared i k v : op_write i (OShared k v) = match encode v with Some e => [(i, FReady [] e)] | None => [] end.
Proof. unfold op_write. simpl. by destruct (encode v). Qed.

Ltac run_step := match goal with |- context [run_ops ?b ?os ?st] => by destruct (run_ops b os st) end.

(** The operations allocate the ids of their events and write their futures. *)
Lemma run_ops_server os : ∀ b c ss, is_hydrating c = true →
  let '(log, (c', ss')) := ids_run (op_event <$> os) (c, ss) in
  (run_ops true os (set_async_buf b c, ss)).2 = (set_async_buf (b ++ op_writes log.*2 os) c', ss').
Proof.
  induction os as [| o os IH]; intros b c ss Hc; [unfold op_writes; simpl; by rewrite app_nil_r |].
  destruct o as [k v | k polls v | k]; cbn [fmap list_fmap op_event ids_run run_ops run_op].
  - unfold new_with_encoding. rewrite next_id_async. pose proof (next_id_hydrating k c ss) as Hh.
    destruct (next_serialized_data_id k (c, ss)) as [i [c1 ss1]]. simpl in Hh. rewrite Hc in Hh. simpl. rewrite Hh.
    specialize (IH (b ++ op_write i (OShared k v)) c1 ss1 Hh). destruct (ids_run _ (c1, ss1)) as [log [c2 ss2]].
    rewrite fmap_cons, op_writes_cons, app_assoc. cbn [snd]. rewrite <- IH. rewrite op_write_shared.
    destruct (encode v) as [e |]; simpl; [| rewrite app_nil_r; run_step].
    change (write_async i (FReady [] e) (set_async_buf b c1)) with (set_async_buf (b ++ [(i, FReady [] e)]) c1). run_step.
  - unfold new_with_options. rewrite next_id_async. pose proof (next_id_hydrating k c ss) as Hh.
    destruct (next_serialized_data_id k (c, ss)) as [i [c1 ss1]]. simpl in Hh. rewrite Hc in Hh. simpl. rewrite Hh.
    specialize (IH (b ++ op_write i (OResource k polls v)) c1 ss1 Hh). destruct (ids_run _ (c1, ss1)) as [log [c2 ss2]].
    rewrite fmap_cons, op_writes_cons, app_assoc. cbn [snd]. rewrite <- IH.
    set (f := resource_fut encode polls (Some v)).
    change (write_async i f (set_async_buf b c1)) with (set_async_buf (b ++ op_write i (OResource k polls v)) c1).
    run_step.
  - rewrite open_boundary_async. pose proof (next_id_hydrating k c ss) as Hh. unfold open_boundary.
    destruct (next_serialized_data_id k (c, ss)) as [i [c1 ss1]]. simpl in Hh. rewrite Hc in Hh.
    specialize (IH b c1 (ss1 ++ [SerializedDataIdScope_new i]) Hh).
    destruct (ids_run _ _) as [log [c2 ss2]]. rewrite fmap_cons, op_writes_cons. cbn [snd].
    change (op_write i (OBoundary k)) with (@nil (text * fut)). rewrite app_nil_l, <- IH. run_step.
Qed.

(** ** The browser *)

Lemma next_id_browser k c g h ss : is_hydrating c = true → h_is_hydrating h = true → h_id h = id c →
  let '(i, (c', ss')) := next_serialized_data_id k (c, ss) in
  ∃ h', next_serialized_data_id k ((g, h), ss) = (i, ((g, h'), ss')) ∧
    h_is_hydrating h' = true ∧ h_id h' = id c' ∧ h_during_hydration h' = h_during_hydration h ∧ is_hydrating c' = true.
Proof.
  intros Hc Hh Hid. unfold next_serialized_data_id. simpl. unfold next_id, hydrate_next_id. rewrite Hc, Hh, Hid. simpl.
  destruct k as [k |]; simpl; [destruct (ss !! k); simpl |]; eexists; (split; [done |]); simpl; rewrite ?Hc; auto.
Qed.

(** Values that survive the way to the browser *)
Definition codec_ok (o : op) : Prop :=
  ∀ v, op_value o = Some v → ∃ e, encode v = Some e ∧ text_ok e = true ∧ decode (escape_lt e) = Some v.

Lemma outcome_resource_fut polls data : outcome (resource_fut encode polls data) = resource_payload encode data.
Proof. induction polls; simpl; auto. Qed.

(** The browser is where the server was. *)
Record follows (c : SsrSharedContext) (h : HydrateSharedContext) : Prop := mkFollows {
  fo_server : is_hydrating c = true;
  fo_browser : h_is_hydrating h = true;
  fo_during : h_during_hydration h = true;
  fo_id : h_id h = id c;
}.

Lemma next_id_follows k c g h ss : follows c h →
  let '(i, (c', ss')) := next_serialized_data_id k (c, ss) in
  ∃ h', next_serialized_data_id k ((g, h), ss) = (i, ((g, h'), ss')) ∧ follows c' h'.
Proof.
  intros [Hc Hh Hd Hid]. unfold next_serialized_data_id. simpl. unfold next_id, hydrate_next_id. rewrite Hc, Hh, Hid. simpl.
  destruct k as [k |]; simpl; [destruct (ss !! k); simpl |]; eexists; by (split; [done |]; constructor; simpl; rewrite ?Hc).
Qed.

(** What the page has is read whenever it is read during hydration. *)
Definition page_has (g : globals) (i : text) (f : fut) : Prop :=
  ∀ h, h_during_hydration h = true → read_data g h i = Some (escape_lt (outcome f)).

Lemma run_ops_browser os : ∀ os' c g h ss, Forall2 same_op os os' → Forall codec_ok os → follows c h →
  (∀ i f, (i, f) ∈ op_writes (ids_run (op_event <$> os) (c, ss)).1.*2 os → page_has g i f) →
  (run_ops false os' ((g, h), ss)).1 = op_value <$> os.
Proof.
  induction os as [| o os IH]; intros os' c g h ss Hsame Hcodec Hf Hread; [by inversion Hsame |].
  apply Forall2_cons_inv_l in Hsame as (o' & os1 & [Hev Hval] & Hsame & ->). apply Forall_cons in Hcodec as [Ho Hcodec].
  specialize (Ho : codec_ok o). pose proof (next_id_follows (match op_event o with NextId k | OpenBoundary k => k | SetHydrating _ => None end) c g h ss Hf) as Hn.
  rewrite fmap_cons in Hread. destruct (op_event o) as [k | k | b] eqn:Ee; [| | by destruct o].
  - cbn [ids_run] in Hread. destruct (next_serialized_data_id k (c, ss)) as [i [c1 ss1]].
    destruct Hn as (h1 & En & Hf1). specialize (IH os1 c1 g h1 ss1 Hsame Hcodec Hf1).
    destruct (ids_run (op_event <$> os) (c1, ss1)) as [l st]. cbn [fst] in *. rewrite fmap_cons, op_writes_cons in Hread.
    assert (run_op false o' ((g, h), ss) = (op_value o, ((g, h1), ss1))) as Hop.
    { assert (∃ v, op_value o = Some v) as [v Hv] by (destruct o; eauto; done).
      destruct (Ho v Hv) as (e & He & _ & Hdec).
      assert (read_data g h1 i = Some (escape_lt e)) as Hr.
      { destruct o as [k0 v0 | k0 p0 v0 | k0]; [| | done]; simpl in Hv; injection Hv as ->.
        - apply (Hread i (FReady [] e)); [rewrite op_write_shared, He; set_solver | apply Hf1].
        - replace e with (outcome (resource_fut encode p0 (Some v))) by by rewrite outcome_resource_fut; simpl; rewrite He.
          apply Hread; [set_solver | apply Hf1]. }
      destruct o' as [k' v' | k' p' v' | k']; simpl in Hev; simplify_eq; simpl; rewrite Hv.
      - unfold new_with_encoding. rewrite En. simpl. rewrite (fo_during _ _ Hf1), Hr. simpl. by rewrite Hdec.
      - unfold new_with_options, initial_value. rewrite En. simpl. rewrite Hr. simpl. by rewrite Hdec. }
    cbn [run_ops]. rewrite Hop, fmap_cons, <- IH by (intros; apply Hread; set_solver). run_step.
  - destruct o as [| | k0], o' as [| | k']; simplify_eq/=. unfold open_boundary in *.
    destruct (next_serialized_data_id k' (c, ss)) as [i [c1 ss1]]. destruct Hn as (h1 & En & Hf1).
    specialize (IH os1 c1 g h1 (ss1 ++ [SerializedDataIdScope_new i]) Hsame Hcodec Hf1). rewrite En.
    destruct (ids_run (op_event <$> os) (c1, _)) as [l st].
    rewrite <- IH by (intros; apply Hread; set_solver). run_step.
Qed.
End Programs.

(** ** Futures that do nothing to the context *)

Fixpoint quiet (f : fut) : bool :=
  match f with
  | FReady fx _ => bool_decide (fx = [])
  | FPending fx f => bool_decide (fx = []) && quiet f
  end.
Definition all_quiet (s : AsyncDataStream) (c : SsrSharedContext) : Prop := Forall (λ x, quiet x.2 = true) (in_flight s ++ async_buf c).

(** The data that are still to come *)
Definition due (s : AsyncDataStream) (c : SsrSharedContext) : list (text * text) :=
  (λ x, (x.1, outcome x.2)) <$> (in_flight s ++ async_buf c).

Lemma poll_at_quiet k s c r s' c' : all_quiet s c → poll_at k s c = (r, (s', c')) →
  all_quiet s' c' ∧ c' = c ∧ option_list r ++ due s' c' ≡ₚ due s c.
Proof.
  unfold all_quiet, poll_at, due. rewrite Forall_app. intros [Hq Hb].
  destruct (in_flight s !! k) as [[i f]|] eqn:Ek; [| intros [= <- <- <-]; by rewrite Forall_app].
  pose proof (Forall_lookup_1 _ _ _ _ Hq Ek) as Hf. simpl in Hf. pose proof (lookup_lt_Some _ _ _ Ek) as Hk.
  destruct f as [fx d | fx f]; simpl in Hf.
  - apply bool_decide_eq_true in Hf as ->. intros [= <- <- <-]. simpl. rewrite Forall_app. split_and!; [| done | done |].
    + by apply Forall_delete.
    + pose proof (fmap_Permutation (λ x, (x.1, outcome x.2)) _ _ (delete_Permutation _ _ _ Ek)) as Hp.
      rewrite !fmap_app, Hp. done.
  - apply andb_true_iff in Hf as [->%bool_decide_eq_true Hf]. intros [= <- <- <-]. simpl. rewrite Forall_app.
    split_and!; [by apply Forall_insert | done | done |]. rewrite !fmap_app, list_fmap_insert. simpl.
    rewrite list_insert_id; [done |]. by rewrite list_lookup_fmap, Ek.
Qed.

Lemma drain_quiet picks : ∀ s c rs s' c', all_quiet s c → drain picks s c = (rs, (s', c')) →
  all_quiet s' c' ∧ c' = c ∧ rs ++ due s' c' ≡ₚ due s c.
Proof.
  induction picks as [| k picks IH]; simpl; intros s c rs s' c' Hq; [by intros [= <- <- <-] |].
  destruct (poll_at k s c) as [r [s1 c1]] eqn:E1. destruct (drain picks s1 c1) as [rs1 [s2 c2]] eqn:E2.
  intros [= <- <- <-]. apply poll_at_quiet in E1 as (Hq1 & -> & Hp1); [| done].
  apply IH in E2 as (Hq2 & -> & Hp2); [| done]. split_and!; [done | done |]. rewrite <- Hp1, <- Hp2. by destruct r.
Qed.

Lemma poll_loop_quiet picks s c rs s' c' : all_quiet s c → poll_loop picks s c = (rs, (s', c')) →
  all_quiet s' c' ∧ c' = set_async_buf [] c ∧ rs ++ due s' c' ≡ₚ due s c.
Proof.
  intros Hq. assert (all_quiet (stage s c).1 (stage s c).2 ∧ due (stage s c).1 (stage s c).2 = due s c) as [Hq0 <-].
  { unfold all_quiet, due in *. simpl. by rewrite app_nil_r. }
  destruct picks as [| ks picks]; cbn [poll_loop]; destruct (stage s c) as [s0 c0] eqn:E0; injection E0 as Hs0 <-; simpl in *.
  - by intros [= <- <- <-].
  - destruct (drain ks s0 _) as [rs1 [s1 c1]] eqn:E1. apply drain_quiet in E1 as (Hq1 & -> & Hp1); [| done].
    rewrite decide_False by naive_solver. by intros [= <- <- <-].
Qed.

Section Response.
Context (is_printable : N → bool).

(** Without errors, markers and other events a response sends every datum
    once. *)
Lemma trace_quiet es : ∀ s c, Forall (λ e, ∃ picks, e = PollStream picks) es → all_quiet s c →
  errors c = [] → incomplete c = [] →
  ∃ rs rest, (trace is_printable es s c).1 = uncurry Resolved <$> rs ∧ rs ++ rest ≡ₚ due s c.
Proof.
  induction es as [| e es IH]; intros s c Hes Hq He Hi; [by exists [], (due s c) |].
  apply Forall_cons in Hes as [[picks ->] Hes]. cbn [trace].
  destruct (poll_next is_printable picks s c) as [r [s1 c1]] eqn:E.
  unfold poll_items. unfold poll_next in E. destruct (poll_loop picks s c) as [rs [s2 c2]] eqn:El.
  apply poll_loop_quiet in El as (Hq2 & -> & Hp2); [| done]. injection E as Hr <- <-. simpl in Hr |- *.
  rewrite He, Hi, !drop_nil. simpl. rewrite app_nil_r.
  destruct (IH (mkStream (in_flight s2) (length (incomplete c)) (initial_pending_ids s2)) (set_errors [] (set_async_buf [] c)) Hes)
    as (rs' & rest & Et & Hp); [done | done | done |].
  rewrite Hi in Et. destruct (trace _ es _ _) as [its sc]. simpl in Et. subst its.
  assert (rs ++ rs' ++ rest ≡ₚ due s c) as Hall by by rewrite <- Hp2, Hp.
  destruct r as [| [chunk |]].
  - exists (rs ++ rs'), rest. rewrite fmap_app, <- app_assoc. done.
  - exists (rs ++ rs'), rest. rewrite fmap_app, <- app_assoc. done.
  - exists [], (due s c). done.
Qed.
End Response.

(** ** Ids as texts *)

Definition id_text (s : text) : Prop := Forall (λ c, between 45 57 c = true) s.

Lemma id_text_ok s : id_text s → text_ok s = true.
Proof.
  intros H. unfold text_ok. apply andb_true_iff. split.
  - apply forallb_forall. intros c Hc. apply list_elem_of_In in Hc. unfold id_text in H. rewrite Forall_forall in H.
    specialize (H c Hc). unfold between in H. apply andb_true_iff in H as [H1%N.leb_le H2%N.leb_le].
    unfold scalar, is_surrogate, between.
    destruct (N.leb_spec c 1114111); [| lia]. destruct (N.leb_spec 55296 c); [lia |]. done.
  - induction H as [| c s Hc Hs IH]; [done |]. simpl. rewrite IH, andb_true_r.
    destruct (N.eqb_spec c 0) as [-> |]; [| done]. discriminate Hc.
Qed.

Lemma to_string_text n : id_text (to_string n).
Proof.
  unfold id_text. eapply Forall_impl; [apply to_string_digits |]. intros c. simpl. unfold between.
  rewrite !andb_true_iff, !N.leb_le. lia.
Qed.

Lemma scoped_id_text p n : id_text p → id_text (scoped_id p n).
Proof. intros H. apply Forall_app. split; [done |]. apply Forall_app. split; [by repeat constructor | apply to_string_text]. Qed.

Lemma next_id_text k c ss : Forall (λ s, id_text (parent s)) ss →
  let '(i, (c', ss')) := next_serialized_data_id k (c, ss) in
  id_text i ∧ Forall (λ s, id_text (parent s)) ss' ∧
  sync_buf c' = sync_buf c ∧ errors c' = errors c ∧ incomplete c' = incomplete c.
Proof.
  intros H. unfold next_serialized_data_id. simpl. unfold next_id.
  destruct (is_hydrating c); simpl; [| split_and!; [apply to_string_text | done..]].
  destruct k as [k |]; simpl; [| split_and!; [apply to_string_text | done..]].
  destruct (ss !! k) as [s |] eqn:Es; simpl; [| split_and!; [apply to_string_text | done..]].
  pose proof (Forall_lookup_1 _ _ _ _ H Es) as Hs. split_and!; [by apply scoped_id_text | by apply Forall_insert | done..].
Qed.

Definition no_switch (e : id_event) : Prop := match e with SetHydrating _ => False | _ => True end.

Lemma ids_run_text es : ∀ c ss, Forall no_switch es → Forall (λ s, id_text (parent s)) ss →
  let '(log, (c', ss')) := ids_run es (c, ss) in
  Forall id_text log.*2 ∧ sync_buf c' = sync_buf c ∧ errors c' = errors c ∧ incomplete c' = incomplete c.
Proof.
  induction es as [| e es IH]; intros c ss Hes Hss; [by split_and!; [constructor | ..] |].
  apply Forall_cons in Hes as [He Hes]. destruct e as [k | k | b]; [| | done]; cbn [ids_run]; unfold open_boundary;
    pose proof (next_id_text k c ss Hss) as Hn; destruct (next_serialized_data_id k (c, ss)) as [i [c1 ss1]];
    destruct Hn as (Hi & Hss1 & Hs1 & He1 & Hi1).
  - specialize (IH c1 ss1 Hes Hss1). destruct (ids_run es (c1, ss1)) as [l [c2 ss2]].
    rewrite Hs1, He1, Hi1 in IH. split; [constructor; [done | apply IH] | apply IH].
  - specialize (IH c1 (ss1 ++ [SerializedDataIdScope_new i]) Hes). destruct (ids_run es _) as [l [c2 ss2]].
    rewrite Hs1, He1, Hi1 in IH. destruct IH as [Hl Hrest]; [apply Forall_app; by split; [| repeat constructor] |].
    split; [by constructor | done].
Qed.

(** ** From the server to the browser *)

Section Arrival.
Context {T : Type} (encode : T → option text) (decode : text → option T) (is_printable : N → bool).

Lemma elem_of_op_writes i f os : ∀ ids, (i, f) ∈ op_writes encode ids os → i ∈ ids ∧ ∃ o, o ∈ os ∧ op_fut encode o = Some f.
Proof.
  induction os as [| o os IH]; intros [| j ids]; try by intros ?%not_elem_of_nil.
  rewrite op_writes_cons, elem_of_app. intros [H | [Hi (o' & Ho & Hf)]%IH].
  - unfold op_write in H. destruct (op_fut encode o) as [f' |] eqn:Ef; [| by apply not_elem_of_nil in H].
    apply list_elem_of_singleton in H as [= -> ->]. split; [left | exists o; split; [left | done]].
  - split; [by right | exists o'; split; [by right | done]].
Qed.

Lemma op_writes_sublist os : ∀ ids, (op_writes encode ids os).*1 `sublist_of` ids.
Proof.
  induction os as [| o os IH]; intros [| j ids]; try apply sublist_nil_l.
  rewrite op_writes_cons, fmap_app. unfold op_write. destruct (op_fut encode o); simpl.
  - by apply sublist_skip.
  - by apply sublist_cons.
Qed.

Lemma quiet_resource_fut polls data : quiet (resource_fut encode polls data) = true.
Proof. by induction polls. Qed.

Lemma op_fut_quiet o f : op_fut encode o = Some f → quiet f = true.
Proof. destruct o; simpl; [| intros [= <-]; apply quiet_resource_fut | done]. by destruct (encode v) as [e |]; intros [= <-]. Qed.

Lemma op_fut_outcome o f : codec_ok encode decode o → op_fut encode o = Some f → text_ok (outcome f) = true.
Proof.
  intros Ho. destruct o as [k v | k p v | k]; simpl; [| intros [= <-]; rewrite outcome_resource_fut | done];
    destruct (Ho v eq_refl) as (e & He & Hok & _); simpl; rewrite He; [by intros [= <-] | done].
Qed.
(** The context of the server after its operations *)
Lemma server_context (os : list (@op T)) : (N.of_nat (length os) ≤ usize_max)%N →
  let log := (ids_run (op_event <$> os) (SsrSharedContext_new, [])).1 in
  let c := (run_ops encode decode true os (SsrSharedContext_new, [])).2.1 in
  async_buf c = op_writes encode log.*2 os ∧ sync_buf c = [] ∧ errors c = [] ∧ incomplete c = [] ∧
  NoDup log.*2 ∧ Forall id_text log.*2.
Proof.
  intros Hlen. pose proof (run_ops_server encode decode os [] SsrSharedContext_new [] eq_refl) as Hrun.
  pose proof (ids_run_ok (op_event <$> os) [] (set_is_hydrating true SsrSharedContext_new, []) (ids_ok_new _)) as Hids.
  pose proof (ids_run_text (op_event <$> os) SsrSharedContext_new []) as Htext.
  change (set_is_hydrating true SsrSharedContext_new) with SsrSharedContext_new in Hids.
  change (set_async_buf [] SsrSharedContext_new) with SsrSharedContext_new in Hrun.
  destruct (ids_run _ _) as [log [c ss]]. simpl in *. rewrite Hrun. simpl. rewrite length_fmap in Hids.
  destruct Htext as (Ht & Hs & He & Hi); [by apply Forall_fmap, Forall_true; intros [] | constructor |].
  split_and!; try done. by apply Hids.
Qed.

End Arrival.

(** * Cases of shared data

    Concrete responses: the hypotheses of the theorems hold on them, and two
    ways in which data do not arrive as they were. *)

Module Cases.
(** All characters beyond ASCII are printed as they are. *)
Definition printable (_ : N) : bool := true.

(** A resource that registers another one and marks a chunk before it is ready,
    an error and a marker *)
Definition server : SsrSharedContext :=
  set_incomplete_chunk (txt "7") (register_error (txt "0") (txt "1") (txt "a</script>b")
    (write_async (txt "2")
      (FPending [WriteAsync (txt "2-0") (FReady [RegisterError (txt "2") (txt "7") (txt "deep")] (txt "n"))] (FReady [SetIncompleteChunk (txt "9")] (txt "x<y")))
      SsrSharedContext_new)).
Definition events : list response_event :=
  [PollStream [[0]]; Other (RegisterError (txt "3") (txt "4") (txt "late")); Other (WriteAsync (txt "5") (FReady [] (txt "last")));
   PollStream [[1]; [0]]; PollStream [[0; 0; 0]]; PollStream []].

Ltac by_decision := apply (bool_decide_unpack _); vm_compute; exact I.

Lemma server_ok : response_ok printable [txt "2"] events server.
Proof. constructor; by_decision. Qed.



Lemma scripts_stay_open_witness : Forall (no_lt) (response printable [txt "2"] events server).1.
Proof. apply (scripts_stay_open printable [txt "2"] events server); by_decision. Defined.

(** Two boundaries whose children ask for ids in turns *)
Definition allocations : list id_event :=
  [OpenBoundary None; OpenBoundary None; NextId (Some 1); NextId (Some 0); OpenBoundary (Some 1); SetHydrating false;
   NextId (Some 0); SetHydrating true; NextId (Some 1); NextId (Some 2)].

Lemma ids_distinct_witness :
  (N.of_nat (length allocations) ≤ usize_max)%N ∧
  let '(log, (c, scopes)) := ids_run allocations (if false then new_islands else SsrSharedContext_new, []) in
  NoDup log.*2 ∧ ∀ k s, scopes !! k = Some s → ids_of k log = scoped_ids (parent s) (next s).
Proof. split; [by_decision |]. apply (ids_distinct false allocations). by_decision. Defined.

(** Booleans, as [FromToStringCodec] encodes them *)
Definition encode_bool (b : bool) : option text := Some (txt (if b then "true" else "false")).
Definition decode_bool (s : text) : option bool :=
  if decide (s = txt "true") then Some true else if decide (s = txt "false") then Some false else None.

Definition made : list op := [OShared None true; OBoundary None; OResource (Some 0) 1 false; OShared (Some 0) false].
Definition made_again : list op := [OShared None false; OBoundary None; OResource (Some 0) 3 true; OShared (Some 0) true].
Definition polls : list response_event := [PollStream [[0; 1; 0; 0; 0]]; PollStream []].

Lemma bool_codec (o : op) : codec_ok encode_bool decode_bool o.
Proof. intros b _. exists (txt (if b then "true" else "false")). by destruct b. Qed.


(** ** Data that change on the way *)

(** Texts, as [FromToStringCodec] encodes them: as they are *)
Definition encode_text (s : text) : option text := Some s.
Definition decode_text (s : text) : option text := Some s.

Definition round_trip (s : text) : option (list (option text)) :=
  let c := (run_ops encode_text decode_text true [OShared None s] (SsrSharedContext_new, [])).2.1 in
  g ← exec_scripts (response printable [txt "0"] [PollStream [[0]]; PollStream []] c).1 ∅;
  Some (run_ops encode_text decode_text false [OShared None []] ((g, HydrateSharedContext_new), [])).1.

(** [<] is replaced before the text is printed as a literal, so the browser
    reads six characters for it, which only an encoding like JSON takes back. *)
Example lt_arrives_escaped : round_trip (txt "a<b") = Some [Some (txt "a\u003cb")].
Proof. by vm_compute. Qed.

(** A NUL is printed as [\0]; with a digit behind it JavaScript reads another
    character. *)
Example nul_takes_digits : round_trip [0; 49; 48]%N = Some [Some [8]%N].
Proof. by vm_compute. Qed.
End Cases.
