(* ===== verification/Outlets.v ===== *)
(** * The nested router

    [router/src/nested_router.rs]: the outlets of the routes that match, one per
    level, how a navigation changes them, the loading of their views, and what
    the page shows.  A match is the list of its levels, as [into_view_and_child]
    takes it apart; the view of a route is known by the id of the route, and
    every view shows its [<Outlet/>].  Signals, cells and view functions are
    addresses in a heap.  Loading is asynchronous: a navigation leaves the
    preloads of its views behind, which finish one by one, or are aborted by the
    next navigation.  Choosing a view that is loaded is one step.  Owners, the
    base of a router, transitions and [set_is_routing] are left out. *)

From Stdlib Require Import Ascii.
From stdpp Require Import base gmap list strings.
From S2P Require Import Prelude RustStr RouteMatch Routes Params.

(** ** Matches *)

(** What [MatchInterface] and [MatchParams] say of one level *)
Record level := mkLevel { l_id : N; l_matched : str; l_params : list (str * str) }.

(** The levels of a match, from the top *)
Fixpoint levels (m : route_match) : list level :=
  match m with
  | MUnit => [mkLevel 0 [] []]
  | MNode id matched params child =>
      mkLevel id matched params :: match child with Some c => levels c | None => [] end
  | MEither _ m => levels m
  end.

(** ** State *)

(** [RouteContext]; it is cloned, so its fields are addresses *)
Record RouteContext := mkContext {
  rc_id : N;
  rc_trigger : nat;
  rc_url : nat;
  rc_params : nat;
  rc_matched : nat;
  rc_view_fn : nat;
  rc_child : nat;
}.

(** What a view function has captured once its view is loaded: the view, the cell
    of the child, the URL, and the signals of the memos that put the parameters
    and the matched paths of all levels together *)
Record view_fn := mkViewFn {
  vf_view : N;
  vf_child : nat;
  vf_url : nat;
  vf_params : list nat;
  vf_matched : list nat;
}.

(** A view function that is not there yet renders nothing. *)
Record heap := mkHeap {
  next : nat;
  urls : gmap nat Url;
  params : gmap nat ParamsMap;
  matched : gmap nat str;
  view_fns : gmap nat view_fn;
  children : gmap nat RouteContext;
}.

(** A preload: when it is done, the view function is set, and in the end the
    trigger of the outlet is notified. *)
Record preload := mkPreload { pr_view_fn : nat; pr_new : view_fn; pr_trigger : nat }.

(** What the page shows below the router: a render effect that tracks the trigger
    of an outlet, with the view that it last got, known by a number of its own,
    and within this view the effect of the next outlet *)
Record rendered := mkRendered {
  rd_trigger : nat;
  rd_view_fn : nat;
  rd_content : option (nat * view_fn);
}.
Inductive page :=
| Empty
| Fallback
| Outlets (l : list rendered).

(** What a navigation spawns: the preloads that have not finished, all triggers,
    and for the first render what it shows in the end *)
Record task := mkTask {
  loading : list preload;
  triggers : list nat;
  first_view : option (option RouteContext);
}.
(** [None] if it is done or aborted; whether it has a [full_loader], which is
    resolved when its view has been shown or dropped, and whether the second task,
    which waits for this, has yet to run *)
Record navigation := mkNavigation {
  loads : option task;
  full_loader : bool;
  completing : bool;
}.

(** [NestedRouteViewState], everything that was spawned, and a counter for the
    views that are made; the signal with the URL belongs to the location. *)
Record router := mkRouter {
  path : str;
  outlets : list RouteContext;
  view : page;
  abort_navigation : option nat;
  navigations : list navigation;
  hp : heap;
  instances : nat;
}.

Definition set_url (a : nat) (u : Url) (h : heap) : heap :=
  mkHeap (next h) (<[a := u]> (urls h)) (params h) (matched h) (view_fns h) (children h).
Definition set_params (a : nat) (p : ParamsMap) (h : heap) : heap :=
  mkHeap (next h) (urls h) (<[a := p]> (params h)) (matched h) (view_fns h) (children h).
Definition set_matched (a : nat) (s : str) (h : heap) : heap :=
  mkHeap (next h) (urls h) (params h) (<[a := s]> (matched h)) (view_fns h) (children h).
Definition set_view_fn (a : nat) (v : view_fn) (h : heap) : heap :=
  mkHeap (next h) (urls h) (params h) (matched h) (<[a := v]> (view_fns h)) (children h).
Definition set_child (a : nat) (c : option RouteContext) (h : heap) : heap :=
  mkHeap (next h) (urls h) (params h) (matched h) (view_fns h)
    (match c with Some c => <[a := c]> (children h) | None => delete a (children h) end).
Definition alloc (h : heap) : nat * heap :=
  (next h, mkHeap (S (next h)) (urls h) (params h) (matched h) (view_fns h) (children h)).

Section router.
(** [Url::unescape], which [ParamsMap] applies to the values it collects *)
Variable unescape : str → str.

(** [.into_iter().collect::<ParamsMap>()] *)
Definition collect_params (l : list (str * str)) : ParamsMap := params_from_iter unescape l.

(** New signals for the URL, the parameters and the matched path of a level *)
Definition new_signals (l : level) (url : Url) (h : heap) : nat * nat * nat * heap :=
  let (p, h) := alloc h in
  let h := set_params p (collect_params (l_params l)) h in
  let (u, h) := alloc h in
  let h := set_url u url h in
  let (m, h) := alloc h in
  (u, p, m, set_matched m (l_matched l) h).

(** ** Building and rebuilding the outlets *)

(** The preload of the view of a level, below the given outlets *)
Definition preload_view (l : level) (parents : list RouteContext) (o : RouteContext) : preload :=
  mkPreload (rc_view_fn o)
    (mkViewFn (l_id l) (rc_child o) (rc_url o)
       ((rc_params <$> parents) ++ [rc_params o]) ((rc_matched <$> parents) ++ [rc_matched o]))
    (rc_trigger o).

(** The last outlet gets a child. *)
Definition link_last (outlets : list RouteContext) (o : RouteContext) (h : heap) : heap :=
  match last outlets with
  | Some prev => set_child (rc_child prev) (Some o) h
  | None => h
  end.

Fixpoint build_nested_route (ls : list level) (url : Url) (outlets : list RouteContext)
    (loaders : list preload) (h : heap) : list RouteContext * list preload * heap :=
  match ls with
  | [] => (outlets, loaders, h)
  | l :: ls =>
      let '(u, p, m, h) := new_signals l url h in
      let (t, h) := alloc h in
      let (f, h) := alloc h in
      let (c, h) := alloc h in
      let outlet := mkContext (l_id l) t u p m f c in
      let h := link_last outlets outlet h in
      build_nested_route ls url (outlets ++ [outlet])
        (loaders ++ [preload_view l outlets outlet]) h
  end.

Fixpoint rebuild_nested_route (ls : list level) (url : Url) (items : nat)
    (outlets : list RouteContext) (loaders : list preload) (h : heap)
    : list RouteContext * list preload * heap :=
  match ls with
  | [] => (outlets, loaders, h)
  | l :: ls' =>
      let parents := take items outlets in
      let h := match outlets !! items with
               | Some o => if decide (0 < items) then link_last parents o h else h
               | None => h
               end in
      match outlets !! items with
      | None => build_nested_route ls url outlets loaders h
      | Some current =>
          if decide (l_id l = rc_id current) then
            let h := set_matched (rc_matched current) (l_matched l) h in
            let h := set_params (rc_params current) (collect_params (l_params l)) h in
            let h := set_url (rc_url current) url h in
            match ls' with
            | [] => (outlets, loaders, set_child (rc_child current) None h)
            | _ => rebuild_nested_route ls' url (S items) outlets loaders h
            end
          else
            let '(u, p, m, h) := new_signals l url h in
            let current := mkContext (l_id l) (rc_trigger current) u p m
                             (rc_view_fn current) (rc_child current) in
            let loaders := loaders ++ [preload_view l parents current] in
            let outlets := take (S items) (<[items := current]> outlets) in
            match ls' with
            | [] => (outlets, loaders, set_child (rc_child current) None h)
            | _ => build_nested_route ls' url outlets loaders h
            end
      end
  end.

(** ** Rendering *)

(** [top_level_outlet] and [Outlet]: an effect for the outlet, and those of the
    outlets within its view.  The fuel is the number of levels. *)
Fixpoint render (fuel : nat) (trigger view_fn : nat) (h : heap) (n : nat) : list rendered * nat :=
  match view_fns h !! view_fn with
  | None => ([mkRendered trigger view_fn None], n)
  | Some v =>
      let (l, n') :=
        match fuel, children h !! vf_child v with
        | S fuel, Some c => render fuel (rc_trigger c) (rc_view_fn c) h (S n)
        | _, _ => ([], S n)
        end in
      (mkRendered trigger view_fn (Some (n, v)) :: l, n')
  end.
(** Every outlet takes an address, so there are no more levels than addresses. *)
Definition render_outlet (o : RouteContext) (h : heap) (n : nat) : list rendered * nat :=
  render (next h) (rc_trigger o) (rc_view_fn o) h n.

(** [ArcTrigger::notify]: the effect that tracks the trigger runs again, and with
    it what is within its view. *)
Fixpoint notify (trigger : nat) (l : list rendered) (h : heap) (n : nat) : list rendered * nat :=
  match l with
  | [] => ([], n)
  | r :: l =>
      if decide (rd_trigger r = trigger) then render (next h) trigger (rd_view_fn r) h n
      else let (l, n) := notify trigger l h n in (r :: l, n)
  end.
Definition notify_all (ts : list nat) (l : list rendered) (h : heap) (n : nat) : list rendered * nat :=
  foldl (λ ln t, notify t ln.1 h ln.2) (l, n) ts.

(** ** The router *)

Context {R : Type}.
Variable routes : RouteDefs R.

(** [RouteDefs::match_route], as the levels of the match *)
Definition match_levels (path : str) : outcome (option (list level)) :=
  match match_route routes path with
  | Ok m => Ok (fmap (M := option) levels m)
  | Panic => Panic
  | NoFuel => NoFuel
  end.

Definition with_view (v : page) (n : nat) (r : router) : router :=
  mkRouter (path r) (outlets r) v (abort_navigation r) (navigations r) (hp r) n.
Definition with_handle (handle : option nat) (r : router) : router :=
  mkRouter (path r) (outlets r) (view r) handle (navigations r) (hp r) (instances r).
Definition with_navigation (k : nat) (nav : navigation) (r : router) : router :=
  mkRouter (path r) (outlets r) (view r) (abort_navigation r)
    (<[k := nav]> (navigations r)) (hp r) (instances r).
Definition with_heap (h : heap) (r : router) : router :=
  mkRouter (path r) (outlets r) (view r) (abort_navigation r) (navigations r) h (instances r).
Definition with_loads (t : option task) (nav : navigation) : navigation :=
  mkNavigation t (full_loader nav) (completing nav).

(** [Executor::spawn_local], with a new handle *)
Definition spawn (nav : navigation) (r : router) : router :=
  mkRouter (path r) (outlets r) (view r) (Some (length (navigations r)))
    (navigations r ++ [nav]) (hp r) (instances r).
(** [AbortHandle::abort] of the handle that was there *)
Definition abort (r : router) : router :=
  match abort_navigation r with
  | None => r
  | Some k => match navigations r !! k with
              | Some nav => with_navigation k (with_loads None nav) r
              | None => r
              end
  end.

(** [Render::build], once it is known what matches *)
Definition build_found (url : Url) (found : option (list level)) : router :=
  let h := mkHeap 0 ∅ ∅ ∅ ∅ ∅ in
  match found with
  | None => spawn (mkNavigation (Some (mkTask [] [] (Some None))) false false)
              (mkRouter (url_path url) [] Empty None [] h 0)
  | Some ls =>
      let '(outlets, loaders, h) := build_nested_route ls url [] [] h in
      spawn (mkNavigation (Some (mkTask loaders (pr_trigger <$> loaders) (Some (head outlets)))) false false)
        (mkRouter (url_path url) outlets Empty None [] h 0)
  end.
Definition build (url : Url) : outcome router :=
  found ← match_levels (url_path url); Ok (build_found url found).

(** [RenderHtml::hydrate] and [hydrate_async]: the views are loaded before, and
    there is nothing to abort. *)
Definition finish_all (loaders : list preload) (h : heap) : heap :=
  foldl (λ h p, set_view_fn (pr_view_fn p) (pr_new p) h) h loaders.
Definition hydrate_found (url : Url) (found : option (list level)) : router :=
  let h := mkHeap 0 ∅ ∅ ∅ ∅ ∅ in
  match found with
  | None => mkRouter (url_path url) [] Fallback None [] h 0
  | Some ls =>
      let '(outlets, loaders, h) := build_nested_route ls url [] [] h in
      let h := finish_all loaders h in
      match head outlets with
      | None => mkRouter (url_path url) outlets Empty None [] h 0
      | Some top =>
          let (l, n) := render_outlet top h 0 in
          mkRouter (url_path url) outlets (Outlets l) None [] h n
      end
  end.

Definition hydrate (url : Url) : outcome router :=
  found ← match_levels (url_path url); Ok (hydrate_found url found).

(** Whether an outlet is replaced; it gets a [full_loader]. *)
Fixpoint replaces (ls : list level) (outlets : list RouteContext) : bool :=
  match ls, outlets with
  | l :: ls, o :: outlets => if decide (l_id l = rc_id o) then replaces ls outlets else true
  | _, _ => false
  end.

(** [Render::rebuild], for the URL of a navigation: with the same path, and once
    it is known what matches another one *)
Definition rebuild_same_path (url : Url) (r : router) : router :=
  with_heap (foldl (λ h o, set_url (rc_url o) url h) (hp r) (outlets r)) r.
Definition rebuild_found (url : Url) (r : router) (found : option (list level)) : router :=
  match found with
  | None =>
      mkRouter (url_path url) [] Fallback (abort_navigation r) (navigations r) (hp r) (instances r)
  | Some ls =>
      let '(outlets', loaders, h) := rebuild_nested_route ls url 0 (outlets r) [] (hp r) in
      let nav := mkNavigation (Some (mkTask loaders (pr_trigger <$> loaders) None))
                   (replaces ls (outlets r)) true in
      let r' := spawn nav (abort
                  (mkRouter (url_path url) outlets' (view r) (abort_navigation r) (navigations r) h
                     (instances r))) in
      match view r', head outlets' with
      | Outlets _, _ | _, None => r'
      | _, Some top => let (l, n) := render_outlet top h (instances r') in with_view (Outlets l) n r'
      end
  end.
Definition rebuild (url : Url) (r : router) : outcome router :=
  if decide (url_path url = path r) then Ok (rebuild_same_path url r)
  else found ← match_levels (url_path url); Ok (rebuild_found url r found).

(** The preload number [i] of a navigation finishes. *)
Definition finish_preload (k i : nat) (r : router) : router :=
  match navigations r !! k with
  | Some nav =>
      match loads nav with
      | Some t =>
          match loading t !! i with
          | Some p =>
              with_heap (set_view_fn (pr_view_fn p) (pr_new p) (hp r))
                (with_navigation k
                   (with_loads (Some (mkTask (delete i (loading t)) (triggers t) (first_view t))) nav) r)
          | None => r
          end
      | None => r
      end
  | None => r
  end.

(** All preloads of a navigation have finished: the triggers are notified.  The
    first render drops its handle and shows its view. *)
Definition finish_loads (k : nat) (r : router) : router :=
  match navigations r !! k with
  | Some nav =>
      match loads nav with
      | Some (mkTask [] ts first) =>
          let r := with_navigation k (with_loads None nav) r in
          let r := match view r with
                   | Outlets l => let (l, n) := notify_all ts l (hp r) (instances r) in
                                  with_view (Outlets l) n r
                   | _ => r
                   end in
          match first with
          | None => r
          | Some None => with_view Fallback (instances r) (with_handle None r)
          | Some (Some o) =>
              let (l, n) := render_outlet o (hp r) (instances r) in
              with_view (Outlets l) n (with_handle None r)
          end
      | _ => r
      end
  | None => r
  end.

(** The second task of a navigation, which waits for the full loader, if there is
    one: it drops the handle, whosoever it is. *)
Definition finish_navigation (k : nat) (r : router) : router :=
  match navigations r !! k with
  | Some nav =>
      if completing nav && (negb (full_loader nav) || match loads nav with None => true | _ => false end) then
        with_handle None (with_navigation k (mkNavigation (loads nav) (full_loader nav) false) r)
      else r
  | None => r
  end.

(** ** What is seen *)

(** The values that a view finds: the URL, and the memos over its signals *)
Record seen := mkSeen { s_view : N; s_url : option Url; s_params : ParamsMap; s_matched : str }.

Definition params_including_parents (h : heap) (signals : list nat) : ParamsMap :=
  collect_params (signals ≫= λ a, match params h !! a with Some p => params_into_iter p | None => [] end).
Definition matched_including_parents (h : heap) (signals : list nat) : str :=
  concat (map (λ a, default [] (matched h !! a)) signals).
Definition see (h : heap) (v : view_fn) : seen :=
  mkSeen (vf_view v) (urls h !! vf_url v) (params_including_parents h (vf_params v))
    (matched_including_parents h (vf_matched v)).
End router.
