(* ===== verification/OutletFacts.v ===== *)
(** * What the operations of the nested router do

    The structure of outlets in the heap (their links, values and view functions)
    and how building, rebuilding and rendering establish it; and the ids of the
    levels of a match: every route has an id of its own, so whether a level has
    another below it follows from its id, which rebuilding relies on. *)

From Stdlib Require Import Ascii.
From stdpp Require Import base gmap list strings.
From S2P Require Import Prelude RustStr RouteMatch Routes RoutesFacts Params Outlets.

(** ** Heaps *)

(** Nothing is stored at addresses that have not been given out. *)
Record heap_ok (h : heap) : Prop := {
  ok_urls a : next h ≤ a → urls h !! a = None;
  ok_params a : next h ≤ a → params h !! a = None;
  ok_matched a : next h ≤ a → matched h !! a = None;
  ok_view_fns a : next h ≤ a → view_fns h !! a = None;
  ok_children a : next h ≤ a → children h !! a = None;
}.

(** From [h] to [h'] nothing was written but at the addresses of [W] and at new
    ones; view functions are not touched. *)
Record frame (W : list nat) (h h' : heap) : Prop := {
  fr_next : next h ≤ next h';
  fr_urls a : a < next h → a ∉ W → urls h' !! a = urls h !! a;
  fr_params a : a < next h → a ∉ W → params h' !! a = params h !! a;
  fr_matched a : a < next h → a ∉ W → matched h' !! a = matched h !! a;
  fr_view_fns a : view_fns h' !! a = view_fns h !! a;
  fr_children a : a < next h → a ∉ W → children h' !! a = children h !! a;
}.

Lemma frame_refl W h : frame W h h.
Proof. by split. Qed.
Lemma frame_trans W W' W'' h h1 h2 : frame W h h1 → frame W' h1 h2 →
  (∀ a, a < next h → a ∈ W ++ W' → a ∈ W'') → frame W'' h h2.
Proof.
  intros [Hn Hu Hp Hm Hv Hc] [Hn' Hu' Hp' Hm' Hv' Hc'] HW.
  assert (∀ a, a < next h → a ∉ W'' → a < next h1 ∧ a ∉ W ∧ a ∉ W') as Ha.
  { intros a Ha Hin. split; [lia|]. split; intros Hin'; apply Hin, HW; set_solver. }
  split; [lia|..]; intros a.
  - intros ??. destruct (Ha a) as (?&?&?); [done..|]. by rewrite Hu', Hu.
  - intros ??. destruct (Ha a) as (?&?&?); [done..|]. by rewrite Hp', Hp.
  - intros ??. destruct (Ha a) as (?&?&?); [done..|]. by rewrite Hm', Hm.
  - by rewrite Hv', Hv.
  - intros ??. destruct (Ha a) as (?&?&?); [done..|]. by rewrite Hc', Hc.
Qed.
Lemma frame_weaken W W' h h' : frame W h h' → (∀ a, a ∈ W → a ∈ W') → frame W' h h'.
Proof. intros Hf HW. eapply (frame_trans W []); [done|apply frame_refl|]. set_solver. Qed.

Ltac heap_write := split; simpl; intros; rewrite ?lookup_insert_ne by set_solver; (done || lia).
Lemma frame_set_url a u h : frame [a] h (set_url a u h).
Proof. heap_write. Qed.
Lemma frame_set_params a p h : frame [a] h (set_params a p h).
Proof. heap_write. Qed.
Lemma frame_set_matched a s h : frame [a] h (set_matched a s h).
Proof. heap_write. Qed.
Lemma frame_set_child a c h : frame [a] h (set_child a c h).
Proof.
  split; simpl; intros; try done.
  destruct c; [rewrite lookup_insert_ne by set_solver|rewrite lookup_delete_ne by set_solver]; done.
Qed.

Lemma ok_set_url a u h : a < next h → heap_ok h → heap_ok (set_url a u h).
Proof. intros Ha []. split; simpl; intros; rewrite ?lookup_insert_ne by lia; auto. Qed.
Lemma ok_set_params a p h : a < next h → heap_ok h → heap_ok (set_params a p h).
Proof. intros Ha []. split; simpl; intros; rewrite ?lookup_insert_ne by lia; auto. Qed.
Lemma ok_set_matched a s h : a < next h → heap_ok h → heap_ok (set_matched a s h).
Proof. intros Ha []. split; simpl; intros; rewrite ?lookup_insert_ne by lia; auto. Qed.
Lemma ok_set_view_fn a v h : a < next h → heap_ok h → heap_ok (set_view_fn a v h).
Proof. intros Ha []. split; simpl; intros; rewrite ?lookup_insert_ne by lia; auto. Qed.
Lemma ok_set_child a c h : a < next h → heap_ok h → heap_ok (set_child a c h).
Proof.
  intros Ha []. split; simpl; intros; auto.
  destruct c; rewrite ?lookup_insert_ne, ?lookup_delete_ne by lia; auto.
Qed.

(** ** Outlets in a heap *)

Definition addrs (o : RouteContext) : list nat :=
  [rc_trigger o; rc_url o; rc_params o; rc_matched o; rc_view_fn o; rc_child o].
(** What a rebuild writes of an outlet that stays *)
Definition signals (o : RouteContext) : list nat := [rc_url o; rc_params o; rc_matched o].

(** What an outlet that is replaced leaves to the new one *)
Definition shared (o : RouteContext) : list nat := [rc_trigger o; rc_view_fn o; rc_child o].

Definition outlets_ok (h : heap) (os : list RouteContext) : Prop :=
  NoDup (os ≫= addrs) ∧ Forall (λ a, a < next h) (os ≫= addrs).

(** Each cell of a child has the next outlet, or what its clone shares with it. *)
Definition same_outlet (c o : RouteContext) : Prop :=
  rc_trigger c = rc_trigger o ∧ rc_view_fn c = rc_view_fn o.
Definition child_is (h : heap) (o : RouteContext) (next : option RouteContext) : Prop :=
  match next with
  | None => children h !! rc_child o = None
  | Some o' => ∃ c, children h !! rc_child o = Some c ∧ same_outlet c o'
  end.
Fixpoint linked (h : heap) (os : list RouteContext) : Prop :=
  match os with
  | [] => True
  | o :: os => child_is h o (head os) ∧ linked h os
  end.

Section facts.
Variable unescape : str → str.

(** The values of the signals *)
Definition value_is (h : heap) (url : Url) (o : RouteContext) (l : level) : Prop :=
  rc_id o = l_id l ∧ urls h !! rc_url o = Some url ∧
  params h !! rc_params o = Some (collect_params unescape (l_params l)) ∧
  matched h !! rc_matched o = Some (l_matched l).
Definition values (h : heap) (url : Url) (os : list RouteContext) (ls : list level) : Prop :=
  Forall2 (value_is h url) os ls.

(** The view function of an outlet below others *)
Definition expected (parents : list RouteContext) (o : RouteContext) : view_fn :=
  mkViewFn (rc_id o) (rc_child o) (rc_url o)
    ((rc_params <$> parents) ++ [rc_params o]) ((rc_matched <$> parents) ++ [rc_matched o]).
Fixpoint loaded (h : heap) (parents os : list RouteContext) : Prop :=
  match os with
  | [] => True
  | o :: os => view_fns h !! rc_view_fn o = Some (expected parents o) ∧ loaded h (parents ++ [o]) os
  end.
Fixpoint preloads (parents os : list RouteContext) : list preload :=
  match os with
  | [] => []
  | o :: os => mkPreload (rc_view_fn o) (expected parents o) (rc_trigger o) :: preloads (parents ++ [o]) os
  end.

(** The page shows the outlets. *)
Fixpoint displays (parents os : list RouteContext) (l : list rendered) : Prop :=
  match os, l with
  | [], [] => True
  | o :: os, r :: l =>
      rd_trigger r = rc_trigger o ∧ rd_view_fn r = rc_view_fn o ∧
      snd <$> rd_content r = Some (expected parents o) ∧ displays (parents ++ [o]) os l
  | _, _ => False
  end.

(** *** Frames *)

Lemma child_frame W h h' o o' : frame W h h' → rc_child o < next h → rc_child o ∉ W →
  child_is h o o' → child_is h' o o'.
Proof.
  intros Hf Ho HW. unfold child_is. rewrite (fr_children _ _ _ Hf) by done. done.
Qed.
Lemma linked_frame W h h' os : frame W h h' → Forall (λ o, rc_child o < next h ∧ rc_child o ∉ W) os →
  linked h os → linked h' os.
Proof.
  intros Hf. induction 1 as [|o os [Ho HW] _ IH]; simpl; [done|].
  intros [Hc Hl]. split; [by eapply child_frame|auto].
Qed.
Lemma value_frame W h h' url o l : frame W h h' → (∀ a, a ∈ signals o → a < next h ∧ a ∉ W) →
  value_is h url o l → value_is h' url o l.
Proof.
  intros Hf Ho (Hi&Hu&Hp&Hm).
  destruct (Ho (rc_url o)), (Ho (rc_params o)), (Ho (rc_matched o)); try (unfold signals; set_solver).
  split_and!; [done|rewrite (fr_urls _ _ _ Hf)|rewrite (fr_params _ _ _ Hf)|rewrite (fr_matched _ _ _ Hf)]; done.
Qed.
Lemma values_frame W h h' url os ls : frame W h h' →
  Forall (λ o, ∀ a, a ∈ signals o → a < next h ∧ a ∉ W) os →
  values h url os ls → values h' url os ls.
Proof.
  intros Hf Hos Hv. unfold values in *. induction Hv as [|o l os ls Hv _ IH]; [constructor|].
  apply Forall_cons in Hos as [Ho Hos]. constructor; [by eapply value_frame|auto].
Qed.
Lemma loaded_frame W h h' ps os : frame W h h' → loaded h ps os → loaded h' ps os.
Proof.
  intros Hf. revert ps. induction os as [|o os IH]; intros ps; simpl; [done|].
  rewrite (fr_view_fns _ _ _ Hf). intros [? ?]. auto.
Qed.

(** *** Rendering *)

Lemma render_displays h ps o os fuel n : linked h (o :: os) → loaded h ps (o :: os) → length os ≤ fuel →
  ∃ l n', render fuel (rc_trigger o) (rc_view_fn o) h n = (l, n') ∧ displays ps (o :: os) l.
Proof.
  revert ps o fuel n. induction os as [|o' os IH]; intros ps o fuel n [Hc Hl] [Ho Hos] Hf.
  - simpl in Hc. eexists _, _. destruct fuel; simpl; rewrite Ho; simpl; rewrite ?Hc; done.
  - destruct fuel as [|fuel]; simpl in Hf; [lia|]. destruct Hc as (c&Hc&Ht&Hv).
    destruct (IH (ps ++ [o]) o' fuel (S n)) as (l&n'&Hr&Hd); [done..|lia|].
    eexists _, _. simpl. rewrite Ho. simpl. rewrite Hc, Ht, Hv, Hr. done.
Qed.

(** *** Building *)

Definition heap_next (n : nat) (h : heap) : heap :=
  mkHeap n (urls h) (params h) (matched h) (view_fns h) (children h).

(** The outlet of a new level, and the heap with its signals *)
Definition new_outlet (l : level) (h : heap) : RouteContext :=
  mkContext (l_id l) (next h + 3) (next h + 1) (next h) (next h + 2) (next h + 4) (next h + 5).
Definition new_heap (l : level) (url : Url) (h : heap) : heap :=
  mkHeap (next h + 6) (<[next h + 1 := url]> (urls h))
    (<[next h := collect_params unescape (l_params l)]> (params h))
    (<[next h + 2 := l_matched l]> (matched h)) (view_fns h) (children h).

Lemma build_step l ls url os ld h :
  build_nested_route unescape (l :: ls) url os ld h =
  let o := new_outlet l h in
  build_nested_route unescape ls url (os ++ [o])
    (ld ++ [mkPreload (rc_view_fn o) (expected os o) (rc_trigger o)])
    (link_last os o (new_heap l url h)).
Proof.
  unfold new_outlet, new_heap, expected. rewrite !(Nat.add_comm (next h)). done.
Qed.

Lemma new_heap_ok l url h : heap_ok h → heap_ok (new_heap l url h).
Proof. intros []. split; simpl; intros; rewrite ?lookup_insert_ne by lia; auto with lia. Qed.
Lemma new_heap_frame W l url h : frame W h (new_heap l url h).
Proof. split; simpl; intros; rewrite ?lookup_insert_ne by lia; (done || lia). Qed.
Lemma new_heap_value l url h : value_is (new_heap l url h) url (new_outlet l h) l.
Proof. split_and!; [done|..]; simpl; by rewrite lookup_insert_eq. Qed.

Definition last_child (os : list RouteContext) : list nat :=
  match last os with Some prev => [rc_child prev] | None => [] end.
Lemma link_last_frame os o h : frame (last_child os) h (link_last os o h).
Proof. unfold link_last, last_child. destruct (last os); [apply frame_set_child|apply frame_refl]. Qed.
Lemma link_last_ok os o h : (∀ prev, last os = Some prev → rc_child prev < next h) →
  heap_ok h → heap_ok (link_last os o h).
Proof. unfold link_last. intros Hl. destruct (last os); [|done]. apply ok_set_child. auto. Qed.
Lemma link_last_next os o h : next (link_last os o h) = next h.
Proof. unfold link_last. by destruct (last os). Qed.
Lemma link_last_child os o h prev : last os = Some prev → child_is (link_last os o h) prev (Some o).
Proof. unfold link_last. intros ->. exists o. simpl. by rewrite lookup_insert_eq. Qed.

(** What [build_nested_route] adds *)
Record built (ls : list level) (url : Url) (os new : list RouteContext) (h h' : heap) : Prop := {
  bt_ok : heap_ok h';
  bt_frame : frame (match new with [] => [] | _ => last_child os end) h h';
  bt_values : values h' url new ls;
  bt_linked : linked h' new;
  bt_new : Forall (λ a, next h ≤ a < next h') (new ≫= addrs);
  bt_NoDup : NoDup (new ≫= addrs);
  bt_last prev o : last os = Some prev → head new = Some o → child_is h' prev (Some o);
}.

Lemma new_outlet_addrs l h : Forall (λ a, next h ≤ a < next h + 6) (addrs (new_outlet l h)) ∧ NoDup (addrs (new_outlet l h)).
Proof.
  unfold addrs, new_outlet. simpl. split; [repeat constructor; lia|].
  repeat (apply NoDup_cons; split; [rewrite ?not_elem_of_cons; repeat split; try lia; apply not_elem_of_nil|]).
  apply NoDup_nil_2.
Qed.

Lemma build_spec ls url os ld h : heap_ok h → (∀ prev, last os = Some prev → rc_child prev < next h) →
  ∃ new h', build_nested_route unescape ls url os ld h = (os ++ new, ld ++ preloads os new, h') ∧
    built ls url os new h h'.
Proof.
  revert os ld h. induction ls as [|l ls IH]; intros os ld h Hok Hlast.
  - exists [], h. simpl. rewrite !app_nil_r. split; [done|].
    split; simpl; try done; try apply frame_refl; by constructor.
  - rewrite build_step. cbn zeta. set (o := new_outlet l h). set (h1 := link_last os o (new_heap l url h)).
    assert (next h1 = next h + 6) as Hn1 by (unfold h1; by rewrite link_last_next).
    assert (heap_ok h1) as Hok1.
    { apply link_last_ok; [|by apply new_heap_ok]. intros prev Hp. apply Hlast in Hp. simpl. lia. }
    destruct (IH (os ++ [o]) (ld ++ [mkPreload (rc_view_fn o) (expected os o) (rc_trigger o)]) h1) as (new&h'&Heq&Hb).
    { done. }
    { intros prev. rewrite last_snoc. intros [= <-]. rewrite Hn1. simpl. lia. }
    exists (o :: new), h'. rewrite Heq. rewrite <- !app_assoc. split; [done|].
    destruct Hb as [Hok' Hf Hv Hl Ha Hd Hc]. unfold last_child in Hf. rewrite last_snoc in Hf.
    destruct (new_outlet_addrs l h) as [Hoa Hod]. fold o in Hoa, Hod.
    assert (frame (last_child os) h h1) as Hf1.
    { eapply (frame_trans []); [apply new_heap_frame|apply link_last_frame|]. set_solver. }
    assert (∀ a, a ∈ last_child os → a < next h) as Hlc.
    { unfold last_child. intros a. destruct (last os); [|set_solver]. intros ->%list_elem_of_singleton. auto. }
    assert (Forall (λ a, next h1 ≤ a) (new ≫= addrs)) as Ha'.
    { eapply Forall_impl; [done|]. simpl. lia. }
    rewrite Forall_forall in Ha'. rewrite Forall_forall in Hoa.
    assert (∀ a, a ∈ addrs o → a < next h1 ∧ a ∉ new ≫= addrs) as Ho.
    { intros a Hin. apply Hoa in Hin. split; [lia|]. intros Hin'. apply Ha' in Hin'. lia. }
    assert (∀ a, a ∈ match new with [] => [] | _ => [rc_child o] end → a = rc_child o) as HW by (destruct new; set_solver).
    assert (value_is h1 url o l) as Hvo.
    { eapply value_frame; [apply link_last_frame| |apply new_heap_value]. intros a Ha2.
      split; [|intros Hin; apply Hlc in Hin]; unfold signals in Ha2; simpl in Ha2; set_unfold; simpl; lia. }
    split.
    + done.
    + eapply (frame_trans (last_child os)); [done|done|]. intros a Hah. rewrite elem_of_app.
      intros [?|Hin%HW]; [done|]. subst a. simpl in Hah. lia.
    + constructor; [|done]. eapply value_frame; [exact Hf| |done]. intros a Ha2. rewrite Hn1.
      split; [|intros Hin%HW]; unfold signals in Ha2; simpl in Ha2; set_unfold; simpl in *; lia.
    + split; [|done]. destruct new as [|o' new]; simpl.
      * rewrite (fr_children _ _ _ Hf) by (simpl; lia || set_solver).
        unfold h1, link_last. destruct (last os) as [prev|] eqn:Hp; simpl.
        -- rewrite lookup_insert_ne by (specialize (Hlast _ eq_refl); lia). apply Hok. lia.
        -- apply Hok. lia.
      * exact (Hc o o' (last_snoc _ _) eq_refl).
    + rewrite bind_cons. apply Forall_app. pose proof (fr_next _ _ _ Hf). split; apply Forall_forall; intros a Hin.
      * apply Hoa in Hin. lia.
      * rewrite Forall_forall in Ha. apply Ha in Hin. lia.
    + rewrite bind_cons. apply NoDup_app. split_and!; [done| |done]. intros a Hin. by apply Ho.
    + intros prev o' Hp [= <-]. eapply child_frame; [done| | |by apply link_last_child].
      * apply Hlast in Hp. lia.
      * intros Hin%HW. apply Hlast in Hp. simpl in Hin. lia.
Qed.

(** *** Rebuilding *)

(** Whether a route has children is a matter of its definition. *)
Fixpoint fits (has_child : N → bool) (ids : list N) : Prop :=
  match ids with
  | [] => True
  | i :: ids => has_child i = bool_decide (ids ≠ []) ∧ fits has_child ids
  end.

(** The same route: its signals are set. *)
Definition sync (o : RouteContext) (l : level) (url : Url) (h : heap) : heap :=
  set_url (rc_url o) url (set_params (rc_params o) (collect_params unescape (l_params l))
    (set_matched (rc_matched o) (l_matched l) h)).
(** Another route: it gets new signals. *)
Definition replaced (o : RouteContext) (l : level) (h : heap) : RouteContext :=
  mkContext (l_id l) (rc_trigger o) (next h + 1) (next h) (next h + 2) (rc_view_fn o) (rc_child o).
Definition replaced_heap (l : level) (url : Url) (h : heap) : heap :=
  mkHeap (next h + 3) (<[next h + 1 := url]> (urls h))
    (<[next h := collect_params unescape (l_params l)]> (params h))
    (<[next h + 2 := l_matched l]> (matched h)) (view_fns h) (children h).

Lemma sync_frame o l url h : frame (signals o) h (sync o l url h).
Proof. split; simpl; intros; rewrite ?lookup_insert_ne by (unfold signals in *; set_solver); done. Qed.
Lemma sync_ok o l url h : (∀ a, a ∈ signals o → a < next h) → heap_ok h → heap_ok (sync o l url h).
Proof.
  unfold signals. intros Ha Hok. apply ok_set_url; [|apply ok_set_params; [|apply ok_set_matched]];
    simpl; auto; apply Ha; set_solver.
Qed.
Lemma sync_value o l url h : rc_id o = l_id l → value_is (sync o l url h) url o l.
Proof. intros Hi. split_and!; [done|..]; simpl; by rewrite lookup_insert_eq. Qed.
Lemma replaced_ok l url h : heap_ok h → heap_ok (replaced_heap l url h).
Proof. intros []. split; simpl; intros; rewrite ?lookup_insert_ne by lia; auto with lia. Qed.
Lemma replaced_frame W l url h : frame W h (replaced_heap l url h).
Proof. split; simpl; intros; rewrite ?lookup_insert_ne by lia; (done || lia). Qed.
Lemma replaced_value o l url h : value_is (replaced_heap l url h) url (replaced o l h) l.
Proof. split_and!; [done|..]; simpl; by rewrite lookup_insert_eq. Qed.

(** One step of [rebuild_nested_route] at the outlet behind [pre] *)
Lemma rebuild_step_none l ls url pre ld h :
  rebuild_nested_route unescape (l :: ls) url (length pre) pre ld h =
  build_nested_route unescape (l :: ls) url pre ld h.
Proof. simpl rebuild_nested_route. by rewrite lookup_ge_None_2. Qed.

Lemma rebuild_step l ls url pre o rest ld h :
  rebuild_nested_route unescape (l :: ls) url (length pre) (pre ++ o :: rest) ld h =
  let h0 := link_last pre o h in
  if decide (l_id l = rc_id o) then
    match ls with
    | [] => (pre ++ o :: rest, ld, set_child (rc_child o) None (sync o l url h0))
    | _ => rebuild_nested_route unescape ls url (length (pre ++ [o])) ((pre ++ [o]) ++ rest) ld (sync o l url h0)
    end
  else
    let o' := replaced o l h0 in
    let ld' := ld ++ [mkPreload (rc_view_fn o') (expected pre o') (rc_trigger o')] in
    match ls with
    | [] => (pre ++ [o'], ld', set_child (rc_child o') None (replaced_heap l url h0))
    | _ => build_nested_route unescape ls url (pre ++ [o']) ld' (replaced_heap l url h0)
    end.
Proof.
  assert ((if decide (0 < length pre) then link_last pre o h else h) = link_last pre o h) as Hlink.
  { destruct pre; [done|]. by rewrite decide_True by (simpl; lia). }
  simpl rebuild_nested_route. rewrite list_lookup_middle, take_app_length, Hlink by done.
  cbn zeta. destruct (decide (l_id l = rc_id o)).
  - destruct ls; [done|]. rewrite length_app, Nat.add_1_r, <- app_assoc. done.
  - assert (∀ x : RouteContext, take (S (length pre)) (<[length pre := x]> (pre ++ o :: rest)) = pre ++ [x]) as Ht.
    { intros x. rewrite insert_app_r_alt by lia. rewrite Nat.sub_diag. simpl.
      rewrite take_app_ge by lia. replace (S (length pre) - length pre) with 1 by lia. done. }
    unfold replaced, replaced_heap, expected. destruct ls; rewrite !Ht, !(Nat.add_comm (next _)); done.
Qed.

Lemma addrs_app os os' : (os ++ os') ≫= addrs = (os ≫= addrs) ++ (os' ≫= addrs).
Proof. apply bind_app. Qed.

Lemma outlets_ok_built ls url os new h h' :
  outlets_ok h os → built ls url os new h h' → outlets_ok h' (os ++ new).
Proof.
  intros [Hd Hl] [_ Hf _ _ Hn Hnd _]. pose proof (fr_next _ _ _ Hf). unfold outlets_ok. rewrite addrs_app.
  rewrite Forall_forall in Hl, Hn. split.
  - apply NoDup_app. split_and!; [done| |done]. intros a Ha Ha'. apply Hl in Ha. apply Hn in Ha'. lia.
  - apply Forall_app. split; apply Forall_forall; intros a Ha; [apply Hl in Ha|apply Hn in Ha]; lia.
Qed.

Lemma outlets_ok_replaced pre o rest l url h :
  outlets_ok h (pre ++ o :: rest) → outlets_ok (replaced_heap l url h) (pre ++ [replaced o l h]).
Proof.
  intros [Hd Hl]. set (old := (pre ≫= addrs) ++ [rc_trigger o; rc_view_fn o; rc_child o]).
  assert ((pre ++ [replaced o l h]) ≫= addrs ≡ₚ old ++ [next h + 1; next h; next h + 2]) as Hp.
  { unfold old. rewrite addrs_app, <- app_assoc. apply Permutation_app_head. simpl. solve_Permutation. }
  assert (old `sublist_of` (pre ++ o :: rest) ≫= addrs) as Hs.
  { unfold old. rewrite addrs_app, bind_cons. apply sublist_app; [done|].
    unfold addrs. simpl. repeat constructor. apply sublist_nil_l. }
  assert (Forall (λ a, a < next h) old) as Ho.
  { apply Forall_forall. intros a Ha. rewrite Forall_forall in Hl. apply Hl. eapply elem_of_submseteq; [done|by apply sublist_submseteq]. }
  split; rewrite Hp.
  - apply NoDup_app. split_and!; [by eapply sublist_NoDup| |].
    + rewrite Forall_forall in Ho. intros a Ha. apply Ho in Ha. rewrite !not_elem_of_cons. repeat split; try lia.
      apply not_elem_of_nil.
    + repeat (apply NoDup_cons; split; [rewrite ?not_elem_of_cons; repeat split; try lia; apply not_elem_of_nil|]).
      apply NoDup_nil_2.
  - apply Forall_app. split; [eapply Forall_impl; [done|]; simpl; lia|]. repeat constructor; simpl; lia.
Qed.

Lemma outlets_ok_frame W h h' os : frame W h h' → outlets_ok h os → outlets_ok h' os.
Proof.
  intros Hf [Hd Hl]. split; [done|]. pose proof (fr_next _ _ _ Hf). eapply Forall_impl; [done|]. simpl. lia.
Qed.

Lemma outlets_ok_child h os prev : outlets_ok h os → last os = Some prev → rc_child prev < next h.
Proof.
  intros [_ Hl] Hp. rewrite Forall_forall in Hl. apply Hl. apply list_elem_of_bind. exists prev.
  split; [unfold addrs; set_solver|]. by apply last_Some_elem_of.
Qed.

(** What the disjointness of outlets says of one of them *)
Lemma outlets_ok_at h pre o rest : outlets_ok h (pre ++ o :: rest) →
  (∀ a, a ∈ addrs o → a < next h ∧ a ∉ pre ≫= addrs ∧ a ∉ rest ≫= addrs) ∧
  rc_child o ∉ signals o ∧ rc_child o ∈ addrs o ∧ (∀ a, a ∈ signals o → a ∈ addrs o).
Proof.
  intros [Hd Hl]. rewrite addrs_app, bind_cons in Hd, Hl.
  apply NoDup_app in Hd as (_&Hd&(Hdo&Hdr&_)%NoDup_app).
  apply Forall_app in Hl as [_ [Hl _]%Forall_app]. rewrite Forall_forall in Hl. split_and!.
  - intros a Ha. split_and!; [by apply Hl| |by apply Hdr]. intros Hp. apply (Hd a Hp). rewrite elem_of_app. by left.
  - unfold addrs in Hdo. intros Hin. change (NoDup ([rc_trigger o] ++ signals o ++ [rc_view_fn o; rc_child o])) in Hdo.
    apply NoDup_app in Hdo as (_&_&(_&Hdo&_)%NoDup_app). apply (Hdo _ Hin). set_solver.
  - unfold addrs. set_solver.
  - unfold addrs, signals. set_solver.
Qed.
Lemma child_addrs (os : list RouteContext) a : a ∈ rc_child <$> os → a ∈ os ≫= addrs.
Proof.
  intros (o&->&Ho)%list_elem_of_fmap. apply list_elem_of_bind. exists o. split; [unfold addrs; set_solver|done].
Qed.
Lemma last_child_addrs os a : a ∈ last_child os → a ∈ os ≫= addrs.
Proof.
  unfold last_child. destruct (last os) as [o|] eqn:Ho; [|set_solver]. intros ->%list_elem_of_singleton.
  apply child_addrs, list_elem_of_fmap. exists o. split; [done|by apply last_Some_elem_of].
Qed.

(** What [rebuild_nested_route] keeps, drops and adds *)
Record rebuilt (ls : list level) (url : Url) (pre rest kept dropped new : list RouteContext) (h h' : heap) : Prop := {
  rt_rest : rest = kept ++ dropped;
  rt_ok : heap_ok h';
  rt_frame : frame (last_child pre ++ (kept ≫= addrs) ++ (rc_child <$> dropped)) h h';
  rt_values : values h' url (kept ++ new) ls;
  rt_linked : linked h' (kept ++ new);
  rt_last prev o : last pre = Some prev → head (kept ++ new) = Some o → child_is h' prev (Some o);
  rt_outlets : outlets_ok h' (pre ++ kept ++ new);
  rt_new a : a ∈ (new ≫= addrs) → next h ≤ a ∨ a ∈ (dropped ≫= shared);
  rt_head : match dropped, new with
            | d :: _, n :: _ => rc_id n ≠ rc_id d ∧ rc_trigger n = rc_trigger d ∧ rc_view_fn n = rc_view_fn d
            | _ :: _, [] => False
            | [], _ :: _ => rest = []
            | [], [] => True
            end;
}.

Lemma rebuilt_built ls url pre new h h' : outlets_ok h pre → built ls url pre new h h' →
  rebuilt ls url pre [] [] [] new h h'.
Proof.
  intros Ho Hb. pose proof (outlets_ok_built _ _ _ _ _ _ Ho Hb) as Ho'. destruct Hb as [Hok Hf Hv Hl Hn _ Hc].
  split; try done.
  - eapply frame_weaken; [done|]. intros a. simpl. rewrite app_nil_r. destruct new; [set_solver|done].
  - intros a Ha. left. rewrite Forall_forall in Hn. by apply (Hn a).
  - by destruct new.
Qed.

Lemma link_ok pre o rest h : heap_ok h → outlets_ok h (pre ++ o :: rest) →
  heap_ok (link_last pre o h) ∧ outlets_ok (link_last pre o h) (pre ++ o :: rest) ∧
  frame (last_child pre) h (link_last pre o h).
Proof.
  intros Hok Ho. split_and!.
  - apply link_last_ok; [|done]. intros prev Hp. destruct Ho as [_ Hl]. rewrite Forall_forall in Hl. apply Hl.
    rewrite addrs_app. apply elem_of_app. left. apply last_child_addrs. unfold last_child. rewrite Hp. set_solver.
  - exact (outlets_ok_frame _ _ _ _ (link_last_frame pre o h) Ho).
  - apply link_last_frame.
Qed.

Lemma link_kept W pre o o' prev h h' : (∀ a, a ∈ pre ≫= addrs → a < next h) → last pre = Some prev →
  same_outlet o o' → frame W (link_last pre o h) h' → (∀ a, a ∈ W → a ∉ pre ≫= addrs) →
  child_is h' prev (Some o').
Proof.
  intros Hl Hp Hs Hf HW.
  assert (rc_child prev ∈ pre ≫= addrs) as Hin.
  { apply last_child_addrs. unfold last_child. rewrite Hp. set_solver. }
  unfold child_is. rewrite (fr_children _ _ _ Hf).
  - exists o. unfold link_last. rewrite Hp. simpl. by rewrite lookup_insert_eq.
  - rewrite link_last_next. by apply Hl.
  - intros HinW. by apply (HW _ HinW).
Qed.
Lemma outlets_ok_pre h pre os : outlets_ok h (pre ++ os) → ∀ a, a ∈ pre ≫= addrs → a < next h.
Proof. intros [_ Hl] a Ha. rewrite Forall_forall in Hl. apply Hl. rewrite addrs_app, elem_of_app. by left. Qed.

Lemma rebuilt_kept_last l url pre o h : heap_ok h → outlets_ok h (pre ++ [o]) → l_id l = rc_id o →
  rebuilt [l] url pre [o] [o] [] [] h (set_child (rc_child o) None (sync o l url (link_last pre o h))).
Proof.
  intros Hok Ho Hi. destruct (link_ok _ _ _ _ Hok Ho) as (Hok0&Ho0&Hf0).
  destruct (outlets_ok_at _ _ _ _ Ho0) as (Ha&Hcs&Hca&Hsa).
  set (h0 := link_last pre o h) in *. set (h1 := sync o l url h0).
  assert (frame (signals o) h0 h1) as Hf1 by apply sync_frame.
  assert (frame [rc_child o] h1 (set_child (rc_child o) None h1)) as Hf2 by apply frame_set_child.
  assert (frame (addrs o) h0 (set_child (rc_child o) None h1)) as Hf.
  { eapply frame_trans; [exact Hf1|exact Hf2|]. intros a _. set_solver. }
  split; try done.
  - apply ok_set_child; [apply (Ha _ Hca)|]. apply sync_ok; [|done]. intros a Hs. by apply Ha, Hsa.
  - eapply frame_trans; [exact Hf0|exact Hf|]. intros a _. rewrite bind_cons. simpl. set_solver.
  - constructor; [|constructor]. eapply value_frame; [exact Hf2| |by apply sync_value].
    intros a Hs. split; [by apply Ha, Hsa|]. intros ->%list_elem_of_singleton. done.
  - split; [|done]. simpl. by rewrite lookup_delete_eq.
  - intros prev o' Hp [= <-]. eapply link_kept; [exact (outlets_ok_pre _ _ _ Ho)|done|done|exact Hf|]. intros a Hin. by apply Ha.
  - simpl. set_solver.
Qed.

Lemma rebuilt_kept l ls url pre o rest kept dropped new h h' : heap_ok h → outlets_ok h (pre ++ o :: rest) →
  l_id l = rc_id o → rest ≠ [] →
  rebuilt ls url (pre ++ [o]) rest kept dropped new (sync o l url (link_last pre o h)) h' →
  rebuilt (l :: ls) url pre (o :: rest) (o :: kept) dropped new h h'.
Proof.
  intros Hok Ho Hi Hrest [Hr Hok' Hf Hv Hl Hc Ho' Hn Hh]. destruct (link_ok _ _ _ _ Hok Ho) as (Hok0&Ho0&Hf0).
  destruct (outlets_ok_at _ _ _ _ Ho0) as (Ha&Hcs&Hca&Hsa).
  set (h0 := link_last pre o h) in *. set (h1 := sync o l url h0) in *.
  unfold last_child in Hf at 1. rewrite last_snoc in Hf.
  assert (∀ a, a ∈ (kept ≫= addrs) ++ (rc_child <$> dropped) → a ∈ rest ≫= addrs) as Hsub.
  { intros a. rewrite Hr, addrs_app, !elem_of_app. intros [?|?%child_addrs]; auto. }
  set (W := [rc_child o] ++ (kept ≫= addrs) ++ (rc_child <$> dropped)) in *.
  assert (frame (signals o) h0 h1) as Hf1 by apply sync_frame.
  assert (∀ a, a ∈ signals o → a ∉ W) as HsW.
  { intros a Hs. unfold W. rewrite elem_of_app. intros [->%list_elem_of_singleton|Hin%Hsub]; [done|].
    by apply (Ha a (Hsa a Hs)). }
  assert (frame (signals o ++ W) h0 h') as Hf2 by (by eapply frame_trans; [exact Hf1|exact Hf|]).
  split.
  - by rewrite Hr.
  - done.
  - eapply frame_trans; [exact Hf0|exact Hf2|]. intros a _. rewrite bind_cons. unfold W.
    rewrite !elem_of_app, list_elem_of_singleton. intros [?|[?|[->|?]]]; intuition.
  - constructor; [|done]. eapply value_frame; [exact Hf| |by apply sync_value].
    intros a Hs. split; [by apply Ha, Hsa|auto].
  - split; [|done]. destruct (head (kept ++ new)) as [o'|] eqn:Hhd; [by apply (Hc o o' (last_snoc _ _))|].
    destruct kept; [|done]. destruct new; [|done]. simpl in Hr. by destruct dropped.
  - intros prev o' Hp [= <-]. eapply link_kept; [exact (outlets_ok_pre _ _ _ Ho)|done|done|exact Hf2|].
    intros a. rewrite elem_of_app. unfold W. rewrite elem_of_app, list_elem_of_singleton.
    intros [Hin|[->|Hin%Hsub]]; [by apply Ha, Hsa|by apply Ha|]. intros Hp'.
    destruct Ho0 as [Hd _]. rewrite addrs_app, bind_cons in Hd. apply NoDup_app in Hd as (_&Hd&_).
    apply (Hd a Hp'). rewrite elem_of_app. by right.
  - simpl. by rewrite <- app_assoc in Ho'.
  - intros a [Hin|Hin]%Hn; [left|by right]. unfold h1, h0 in Hin. simpl in Hin. by rewrite link_last_next in Hin.
  - by destruct dropped, new.
Qed.

Lemma rebuilt_replaced l ls url pre o rest new h h1 h' : heap_ok h → outlets_ok h (pre ++ o :: rest) →
  l_id l ≠ rc_id o →
  h1 = match ls with [] => set_child (rc_child o) None | _ => id end (replaced_heap l url (link_last pre o h)) →
  built ls url (pre ++ [replaced o l (link_last pre o h)]) new h1 h' →
  rebuilt (l :: ls) url pre (o :: rest) [] (o :: rest) (replaced o l (link_last pre o h) :: new) h h'.
Proof.
  intros Hok Ho Hi Hh1 Hb. destruct (link_ok _ _ _ _ Hok Ho) as (Hok0&Ho0&Hf0).
  destruct (outlets_ok_at _ _ _ _ Ho0) as (Ha&Hcs&Hca&Hsa).
  set (h0 := link_last pre o h) in *. set (o' := replaced o l h0) in *.
  assert (frame [rc_child o] (replaced_heap l url h0) h1) as Hf1.
  { subst h1. destruct ls; [apply frame_set_child|apply frame_refl]. }
  assert (frame [rc_child o] h0 h1) as Hf01.
  { eapply frame_trans; [apply (replaced_frame [])|exact Hf1|]. done. }
  pose proof (outlets_ok_frame _ _ _ _ Hf1 (outlets_ok_replaced _ _ _ l url _ Ho0)) as Ho1. fold o' in Ho1.
  pose proof (outlets_ok_built _ _ _ _ _ _ Ho1 Hb) as Ho'. destruct Hb as [Hok' Hf Hv Hl Hn Hd Hc].
  assert (frame [rc_child o] h1 h') as Hf'.
  { eapply frame_weaken; [done|]. intros a. unfold last_child. rewrite last_snoc. destruct new; [set_solver|done]. }
  assert (frame [rc_child o] h0 h') as Hf2 by (eapply frame_trans; [exact Hf01|exact Hf'|]; set_solver).
  assert (∀ a, a ∈ signals o' → next h0 ≤ a < next h0 + 3) as Hso.
  { unfold signals, o'. simpl. intros a. set_unfold. lia. }
  assert (next h1 = next h0 + 3) as Hn1 by (subst h1; by destruct ls).
  assert (rc_child o < next h0) as Hco by (by apply Ha).
  split; try done.
  - eapply frame_trans; [exact Hf0|exact Hf2|]. intros a _. simpl. set_solver.
  - constructor; [|done]. eapply value_frame; [exact Hf'| |eapply value_frame; [exact Hf1| |by apply replaced_value]].
    + intros a Hs. apply Hso in Hs. rewrite list_elem_of_singleton. lia.
    + intros a Hs. apply Hso in Hs. rewrite list_elem_of_singleton. simpl. lia.
  - split; [|done]. destruct new as [|o2 new]; simpl.
    + assert (ls = []) as -> by (inversion Hv; done).
      rewrite (fr_children _ _ _ Hf) by (lia || set_solver). subst h1. simpl. by rewrite lookup_delete_eq.
    + apply (Hc o' o2); [apply last_snoc|done].
  - intros prev o2 Hp [= <-]. eapply link_kept; [exact (outlets_ok_pre _ _ _ Ho)|done| |exact Hf2|]; [done|].
    intros a ->%list_elem_of_singleton. by apply Ha.
  - simpl. by rewrite <- app_assoc in Ho'.
  - intros a. rewrite bind_cons, elem_of_app. pose proof (link_last_next pre o h) as Hnn. fold h0 in Hnn.
    intros [Hs|Ha2].
    + assert (a ∈ signals o' ∨ a ∈ shared o) as [Hs'%Hso|Hs'].
      { unfold addrs, signals, shared, o' in *. simpl in *. set_unfold. intuition. }
      * left. lia.
      * right. rewrite bind_cons, elem_of_app. by left.
    + left. rewrite Forall_forall in Hn. apply Hn in Ha2. lia.
Qed.

Lemma rebuild_spec has_child ls url pre rest ld h : heap_ok h → outlets_ok h (pre ++ rest) →
  fits has_child (l_id <$> ls) → fits has_child (rc_id <$> rest) → ls ≠ [] →
  ∃ kept dropped new h', rebuild_nested_route unescape ls url (length pre) (pre ++ rest) ld h =
      (pre ++ kept ++ new, ld ++ preloads (pre ++ kept) new, h') ∧
    rebuilt ls url pre rest kept dropped new h h'.
Proof.
  revert pre rest ld h. induction ls as [|l ls IH]; intros pre rest ld h Hok Ho Hfits Hrest Hne; [done|].
  destruct Hfits as [Hl Hls].
  destruct rest as [|o rest].
  - rewrite app_nil_r in *. destruct (build_spec (l :: ls) url pre ld h Hok) as (new&h'&Heq&Hb).
    { intros prev. by apply outlets_ok_child. }
    exists [], [], new, h'. rewrite rebuild_step_none, Heq, !app_nil_r. split; [done|]. by apply rebuilt_built.
  - rewrite rebuild_step. cbn zeta. destruct Hrest as [Hr Hrest]. destruct (link_ok _ _ _ _ Hok Ho) as (Hok0&Ho0&Hf0).
    destruct (outlets_ok_at _ _ _ _ Ho0) as (Ha&Hcs&Hca&Hsa).
    destruct (decide (l_id l = rc_id o)) as [Hi|Hi].
    + rewrite Hi, Hr in Hl. destruct ls as [|l2 ls].
      * destruct rest; [|done]. exists [o], [], [], (set_child (rc_child o) None (sync o l url (link_last pre o h))).
        rewrite !app_nil_r. split; [done|]. by apply rebuilt_kept_last.
      * assert (rest ≠ []) as Hne' by (intros ->; done).
        destruct (IH (pre ++ [o]) rest ld (sync o l url (link_last pre o h))) as (kept&dropped&new&h'&Heq&Hb); try done.
        { apply sync_ok; [|done]. intros a Hs. by apply Ha, Hsa. }
        { rewrite <- app_assoc. eapply outlets_ok_frame; [apply sync_frame|]. exact Ho0. }
        exists (o :: kept), dropped, new, h'. rewrite Heq, <- !app_assoc. split; [done|]. by apply rebuilt_kept.
    + set (h0 := link_last pre o h) in *. set (o' := replaced o l h0).
      set (h1 := match ls with [] => set_child (rc_child o) None | _ => id end (replaced_heap l url h0)).
      set (ld' := ld ++ [mkPreload (rc_view_fn o') (expected pre o') (rc_trigger o')]).
      destruct (build_spec ls url (pre ++ [o']) ld' h1) as (new&h'&Heq&Hb).
      { unfold h1. destruct ls; [apply ok_set_child; [simpl; specialize (Ha _ Hca); lia|]|]; by apply replaced_ok. }
      { intros prev. rewrite last_snoc. intros [= <-]. simpl. specialize (Ha _ Hca). unfold h1. destruct ls; simpl; lia. }
      exists [], (o :: rest), (o' :: new), h'. split; [|by eapply rebuilt_replaced].
      transitivity (build_nested_route unescape ls url (pre ++ [o']) ld' h1); [by destruct ls|].
      rewrite Heq. unfold ld'. rewrite <- !app_assoc, app_nil_r. done.
Qed.
End facts.

(** ** The ids of the levels *)

Section routes.
Context {R : Type}.
Implicit Types r : routes R.

(** The ids of the routes, with whether they have children *)
Fixpoint kinds r : list (N * bool) :=
  match r with
  | RUnit => []
  | RNode id _ children _ _ =>
      (id, match children with Some _ => true | None => false end)
        :: match children with Some c => kinds c | None => [] end
  | RTuple l | RVec l => mjoin (map kinds l)
  end.
(** Ids are given out by a counter that starts at one. *)
Definition unique_ids r : Prop := NoDup (kinds r).*1 ∧ 0%N ∉ (kinds r).*1.

Definition has_child r (i : N) : bool := bool_decide ((i, true) ∈ kinds r).

Definition agree (f : N → bool) r : Prop := f 0%N = false ∧ ∀ i b, (i, b) ∈ kinds r → f i = b.

Lemma unique_agree r : unique_ids r → agree (has_child r) r.
Proof.
  intros [Hd H0]. unfold has_child. split.
  - apply bool_decide_eq_false. intros Hin. apply H0, list_elem_of_fmap. by exists (0%N, true).
  - intros i [] Hin; [by apply bool_decide_eq_true|]. apply bool_decide_eq_false. intros Hin'.
    apply list_elem_of_lookup in Hin as [j Hj]. apply list_elem_of_lookup in Hin' as [k Hk].
    assert (j = k) as ->.
    { eapply NoDup_lookup; [exact Hd|rewrite list_lookup_fmap, Hj; done|rewrite list_lookup_fmap, Hk; done]. }
    congruence.
Qed.

Definition good_match (f : N → bool) (m : route_match) : Prop :=
  levels m ≠ [] ∧ fits f (l_id <$> levels m).
Definition good_matcher (f : N → bool) (g : str → outcome (option (N * route_match) * str)) : Prop :=
  ∀ path i m rest, g path = Ok (Some (i, m), rest) → good_match f m.

Lemma first_match_good f wrap nth l : (∀ n m, levels (wrap n m) = levels m) →
  Forall (good_matcher f) l → good_matcher f (first_match wrap nth l).
Proof.
  intros Hw Hl. revert nth. induction Hl as [|g l Hg _ IH]; intros nth path i m rest; [done|].
  cbn. destruct (g path) as [[[[i' m']|] rest']| |] eqn:Hgp; try done; [|apply IH].
  intros [= <- <- <-]. unfold good_match. rewrite Hw. by eapply Hg.
Qed.

Lemma match_children_good f o path rest children c rest' b :
  match children with Some g => good_matcher f g | None => True end →
  match_children o path rest children = Ok (Some (c, rest', b)) →
  match c with
  | Some m => good_match f m ∧ children ≠ None
  | None => children = None
  end.
Proof.
  intros Hg. unfold match_children. destruct children as [g|]; [|by intros [= <- _ _]].
  destruct (g rest) as [[[[i m]|] r]| |] eqn:Hr; try done; simpl.
  - intros [= <- _ _]. split; [by eapply Hg|done].
  - destruct o; [|done]. destruct (g path) as [[[[i m]|] r']| |] eqn:Hp; try done; simpl.
    intros [= <- _ _]. split; [by eapply Hg|done].
Qed.

Lemma match_inner_good f o path rest segs children ps c rest' ps' :
  match children with Some g => good_matcher f g | None => True end →
  match_inner o path rest segs children ps = Ok (Some (c, rest', ps')) →
  match c with
  | Some m => good_match f m ∧ children ≠ None
  | None => children = None
  end.
Proof.
  intros Hg. unfold match_inner.
  destruct (match_children o path rest children) as [[[[c' r'] b]|]| |] eqn:Hc; try done; simpl.
  intros Heq. assert (c = c') as ->; [|by eapply match_children_good].
  destruct (used_up r'); [|done]. revert Heq. set (x := if b then _ else _).
  destruct x as [[p|]| |]; try done. simpl. congruence.
Qed.

Lemma node_good f id segs children methods mode :
  agree f (RNode id segs children methods mode) →
  match children with Some c => good_matcher f (match_nested c) | None => True end →
  good_matcher f (match_nested (RNode id segs children methods mode)).
Proof.
  intros [_ Ha] Hc path i m rest. cbn [match_nested].
  destruct (test segs path) as [[pm|]| |]; try done. cbn [mbind outcome_bind].
  set (cs := match children with Some c => Some (match_nested c) | None => None end).
  match goal with |- context[match_inner ?a ?b ?c ?d ?e ?g] =>
    destruct (match_inner a b c d e g) as [[[[c' r'] ps]|]| |] eqn:Hi end; try done.
  intros [= <- <- <-]. apply (match_inner_good f) in Hi; [|by destruct children].
  specialize (Ha id (match children with Some _ => true | None => false end)).
  split; [done|]. simpl. destruct c' as [m|].
  - destruct Hi as [[Hne Hf] Hcs]. destruct children; [|done]. split; [|done].
    rewrite Ha by (simpl; left). by destruct (levels m).
  - split; [|done]. destruct children; [done|]. apply Ha. simpl. left.
Qed.

Lemma tuple_good f l : agree f (RTuple l) →
  Forall (λ r, agree f r → good_matcher f (match_nested r)) l →
  Forall (good_matcher f) (map match_nested l).
Proof.
  intros [H0 Ha] Hl. apply Forall_map. induction Hl as [|r l Hr _ IH]; constructor.
  - apply Hr. split; [done|]. intros i b Hin. apply Ha. simpl. rewrite elem_of_app. by left.
  - apply IH. intros i b Hin. apply Ha. simpl. rewrite elem_of_app. by right.
Qed.

Lemma match_nested_good f r : agree f r → good_matcher f (match_nested r).
Proof.
  induction r as [|id segs methods mode|id segs c methods mode IHc|l IH|l IH]
    using routes_nested_ind; intros Ha.
  - destruct Ha. intros path i m rest [= <- <- <-]. split; [done|]. simpl. auto.
  - by apply node_good.
  - apply node_good; [done|]. apply IHc. destruct Ha as [H0 Ha]. split; [done|]. intros i b Hin.
    apply Ha. simpl. by right.
  - apply first_match_good; [done|]. by apply tuple_good.
  - apply first_match_good; [done|]. by apply tuple_good.
Qed.

(** What matches a path, unless the router panics *)
Definition found_levels (d : RouteDefs R) (path : str) : option (list level) :=
  match match_levels d path with Ok found => found | _ => None end.

(** The matches of a router fit. *)
Lemma match_levels_fit (d : RouteDefs R) path ls : unique_ids (rd_children d) →
  found_levels d path = Some ls → ls ≠ [] ∧ fits (has_child (rd_children d)) (l_id <$> ls).
Proof.
  intros Hu%unique_agree. unfold found_levels, match_levels, match_route.
  destruct (strip_base (rd_base d) path) as [p|]; [|done].
  destruct (match_nested (rd_children d) p) as [[[[i m]|] rest]| |] eqn:Hm; try done. simpl.
  destruct (used_up rest); [|done]. intros [= <-]. by eapply match_nested_good in Hm.
Qed.
End routes.
