(* ===== verification/OutletSteps.v ===== *)
(** * The steps of the nested router

    What happens between navigations, one step at a time, and the invariants: the
    structure of the outlets, which holds at all times, and how far the loading of
    a navigation is, if it was the only one. *)

From Stdlib Require Import Ascii.
From stdpp Require Import base gmap list strings relations.
From S2P Require Import Prelude RustStr RouteMatch Routes Params Outlets OutletFacts.

(** ** Showing outlets *)

Lemma displays_app ps os os' l l' : displays ps os l → displays (ps ++ os) os' l' →
  displays ps (os ++ os') (l ++ l').
Proof.
  revert ps l. induction os as [|o os IH]; intros ps [|r l]; simpl; try done; rewrite ?app_nil_r; [done|].
  intros (?&?&?&Hd) Hd'. split_and!; try done. apply IH; [done|]. by rewrite <- app_assoc.
Qed.
Lemma displays_app_inv ps os os' l : displays ps (os ++ os') l →
  ∃ l1 l2, l = l1 ++ l2 ∧ displays ps os l1 ∧ displays (ps ++ os) os' l2.
Proof.
  revert ps l. induction os as [|o os IH]; intros ps l; simpl.
  - intros Hd. exists [], l. by rewrite app_nil_r.
  - destruct l as [|r l]; [done|]. intros (?&?&?&(l1&l2&->&Hd&Hd')%IH). exists (r :: l1), l2.
    rewrite <- app_assoc in Hd'. done.
Qed.
Lemma displays_triggers ps os l : displays ps os l → rd_trigger <$> l = rc_trigger <$> os.
Proof.
  revert ps l. induction os as [|o os IH]; intros ps [|r l]; simpl; try done.
  intros (->&_&_&Hd). f_equal. by eapply IH.
Qed.
Lemma loaded_app h ps os os' : loaded h ps (os ++ os') ↔ loaded h ps os ∧ loaded h (ps ++ os) os'.
Proof.
  revert ps. induction os as [|o os IH]; intros ps; simpl; [by rewrite app_nil_r; intuition|].
  rewrite IH, <- app_assoc. simpl. intuition.
Qed.
Lemma linked_children h h' os : children h' = children h → linked h os → linked h' os.
Proof.
  intros Hc. induction os as [|o os IH]; [done|]. intros [Hl Hls]. split; [|by apply IH].
  unfold child_is in *. by rewrite Hc.
Qed.
Lemma linked_app h os os' : linked h (os ++ os') → linked h os'.
Proof. induction os; simpl; intuition. Qed.
Lemma loaded_preloads h ps os :
  Forall (λ p, view_fns h !! pr_view_fn p = Some (pr_new p)) (preloads ps os) → loaded h ps os.
Proof.
  revert ps. induction os as [|o os IH]; intros ps; simpl; [done|].
  intros [Ho Hos]%Forall_cons. split; [done|auto].
Qed.
Lemma preloads_view_fns ps os : pr_view_fn <$> preloads ps os = rc_view_fn <$> os.
Proof. revert ps. induction os as [|o os IH]; intros ps; simpl; [done|]. by rewrite IH. Qed.
Lemma preloads_triggers ps os : pr_trigger <$> preloads ps os = rc_trigger <$> os.
Proof. revert ps. induction os as [|o os IH]; intros ps; simpl; [done|]. by rewrite IH. Qed.
Lemma loaded_view_fns h h' ps os : view_fns h' = view_fns h → loaded h ps os → loaded h' ps os.
Proof.
  intros Hv. revert ps. induction os as [|o os IH]; intros ps; [done|]. intros [Hl Hls]. split; [|by apply IH].
  by rewrite Hv.
Qed.
Lemma loaded_set_view_fn h ps os a v : a ∉ rc_view_fn <$> os → loaded h ps os →
  loaded (set_view_fn a v h) ps os.
Proof.
  revert ps. induction os as [|o os IH]; intros ps; simpl; [done|].
  rewrite not_elem_of_cons. intros [Ho Hos] [Hl Hls]. split; [by rewrite lookup_insert_ne|auto].
Qed.

(** There is room for all outlets. *)
Lemma addrs_length os : length (os ≫= addrs) = 6 * length os.
Proof. induction os as [|o os IH]; [done|]. rewrite bind_cons, length_app, IH. simpl. lia. Qed.
Lemma outlets_ok_length h os : outlets_ok h os → length os ≤ next h.
Proof.
  intros [Hd Hl]. assert ((os ≫= addrs) ⊆+ seq 0 (next h)) as Hs%submseteq_length.
  { apply NoDup_submseteq; [done|]. intros a Ha. rewrite Forall_forall in Hl. apply elem_of_seq. apply Hl in Ha. lia. }
  rewrite addrs_length, length_seq in Hs. lia.
Qed.
Lemma outlets_field (f : RouteContext → nat) h os : (∀ o, [f o] `sublist_of` addrs o) → outlets_ok h os →
  NoDup (f <$> os) ∧ Forall (λ a, a < next h) (f <$> os).
Proof.
  intros Hf [Hd Hl]. assert ((f <$> os) `sublist_of` (os ≫= addrs)) as Hs.
  { clear Hd Hl. induction os as [|o os IH]; [constructor|]. rewrite fmap_cons, bind_cons.
    change (f o :: (f <$> os)) with ([f o] ++ (f <$> os)). by apply sublist_app. }
  split; [by eapply sublist_NoDup|]. apply Forall_forall. intros a Ha. rewrite Forall_forall in Hl. apply Hl.
  eapply elem_of_submseteq; [done|by apply sublist_submseteq].
Qed.
Lemma outlets_view_fns h os : outlets_ok h os →
  NoDup (rc_view_fn <$> os) ∧ Forall (λ a, a < next h) (rc_view_fn <$> os).
Proof. apply outlets_field. intros o. unfold addrs. repeat constructor. Qed.
Lemma outlets_triggers h os : outlets_ok h os →
  NoDup (rc_trigger <$> os) ∧ Forall (λ a, a < next h) (rc_trigger <$> os).
Proof. apply outlets_field. intros o. unfold addrs. repeat constructor. Qed.

(** Triggers of the last outlets leave the first ones alone. *)
Lemma notify_app t lk l h n : t ∉ rd_trigger <$> lk →
  notify t (lk ++ l) h n = let (l, n) := notify t l h n in (lk ++ l, n).
Proof.
  induction lk as [|r lk IH]; simpl; [by destruct (notify t l h n)|].
  rewrite not_elem_of_cons. intros [Ht Hlk]. rewrite decide_False by done. rewrite IH by done.
  by destruct (notify t l h n).
Qed.
Lemma notify_displays t h ps os l n : linked h os → loaded h ps os → length os ≤ next h → displays ps os l →
  displays ps os (notify t l h n).1.
Proof.
  revert ps l. induction os as [|o os IH]; intros ps [|r l] Hl Hld Hn; simpl; try done.
  intros (Ht&Hv&Hc&Hd). destruct (decide (rd_trigger r = t)) as [<-|].
  - destruct (render_displays h ps o os (next h) n) as (l'&n'&Hr&Hd'); [done..|simpl in Hn; lia|].
    rewrite Ht, Hv, Hr. done.
  - destruct Hl as [_ Hl], Hld as [_ Hld]. specialize (IH (ps ++ [o]) l Hl Hld).
    destruct (notify t l h n) as [l' n']. simpl in *. split_and!; try done. apply IH; [lia|done].
Qed.
Lemma notify_all_displays ts h ps os lk l n : (∀ t, t ∈ ts → t ∉ rd_trigger <$> lk) →
  linked h os → loaded h ps os → length os ≤ next h → displays ps os l →
  ∃ l' n', notify_all ts (lk ++ l) h n = (lk ++ l', n') ∧ displays ps os l'.
Proof.
  intros Ht Hl Hld Hn. revert l n. unfold notify_all. induction ts as [|t ts IH]; intros l n Hd; simpl; [by eauto|].
  rewrite notify_app by (apply Ht; left). pose proof (notify_displays t h ps os l n Hl Hld Hn Hd) as Hd'.
  destruct (notify t l h n) as [l' n']. apply IH; [|done]. intros t' Hin. apply Ht. by right.
Qed.

(** ** Steps *)

(** What can happen between navigations *)
Inductive step (r : router) : router → Prop :=
| step_preload k i nav t p : navigations r !! k = Some nav → loads nav = Some t → loading t !! i = Some p →
    step r (finish_preload k i r)
| step_loads k nav t : navigations r !! k = Some nav → loads nav = Some t → loading t = [] →
    step r (finish_loads k r)
| step_navigation k nav : navigations r !! k = Some nav → completing nav = true →
    (full_loader nav = true → loads nav = None) → step r (finish_navigation k r).

(** Nothing is left to happen. *)
Definition settled (r : router) : Prop :=
  Forall (λ nav, loads nav = None ∧ completing nav = false) (navigations r).

Lemma finish_preload_eq k i r nav t p :
  navigations r !! k = Some nav → loads nav = Some t → loading t !! i = Some p →
  finish_preload k i r =
  with_heap (set_view_fn (pr_view_fn p) (pr_new p) (hp r)) (with_navigation k
    (with_loads (Some (mkTask (delete i (loading t)) (triggers t) (first_view t))) nav) r).
Proof. unfold finish_preload. by intros -> -> ->. Qed.
Lemma finish_navigation_eq k r nav : navigations r !! k = Some nav → completing nav = true →
  (full_loader nav = true → loads nav = None) →
  finish_navigation k r =
  with_handle None (with_navigation k (mkNavigation (loads nav) (full_loader nav) false) r).
Proof.
  unfold finish_navigation. intros -> -> H. destruct (full_loader nav); [by rewrite H|done].
Qed.

Lemma finish_loads_eq k r nav t : navigations r !! k = Some nav → loads nav = Some t → loading t = [] →
  ∃ v n handle, finish_loads k r =
    mkRouter (path r) (outlets r) v handle (<[k := with_loads None nav]> (navigations r)) (hp r) n ∧
  match first_view t with
  | Some None => v = Fallback
  | Some (Some o) => ∃ n, v = Outlets (render_outlet o (hp r) n).1
  | None => v = match view r with
                | Outlets l => Outlets (notify_all (triggers t) l (hp r) (instances r)).1
                | v => v
                end
  end.
Proof.
  destruct t as [ld ts first]. simpl. unfold finish_loads. intros -> -> ->. simpl.
  destruct first as [[o|]|], (view r) as [| |l] eqn:Hv; simpl;
    try destruct (notify_all ts l (hp r) (instances r)) as [l' n] eqn:Hn; simpl;
    try (match goal with |- context[render_outlet o ?h ?n] => destruct (render_outlet o h n) as [lo no] eqn:Hr end);
    eexists _, _, _; (split; [reflexivity|]); try done; try congruence; eexists; by rewrite Hr.
Qed.

(** *** What is left to do *)

Definition nav_work (nav : navigation) : nat :=
  match loads nav with Some t => S (length (loading t)) | None => 0 end + (if completing nav then 1 else 0).
Definition work (r : router) : nat := sum_list (nav_work <$> navigations r).

Lemma work_insert navs k nav nav' : navs !! k = Some nav → nav_work nav' < nav_work nav →
  sum_list (nav_work <$> <[k := nav']> navs) < sum_list (nav_work <$> navs).
Proof.
  intros Hk Hn. rewrite <- (take_drop_middle _ _ _ Hk) at 2. rewrite insert_take_drop by (by eapply lookup_lt_Some).
  rewrite !fmap_app, !fmap_cons, !sum_list_with_app || rewrite !fmap_app, !fmap_cons, !sum_list_app. simpl. lia.
Qed.
Lemma step_work r r' : step r r' → work r' < work r.
Proof.
  unfold work. intros [k i nav t p Hk Hl Hi|k nav t Hk Hl Ht|k nav Hk Hc Hfl].
  - erewrite finish_preload_eq by done. eapply work_insert; [done|]. unfold nav_work. simpl. rewrite Hl.
    assert (length (loading t) = S (length (delete i (loading t)))) as ->; [|lia].
    by apply (Permutation_length (delete_Permutation _ _ _ Hi)).
  - destruct (finish_loads_eq k r nav t Hk Hl Ht) as (v&n&hd&->&_). eapply work_insert; [done|].
    unfold nav_work. simpl. rewrite Hl. lia.
  - erewrite finish_navigation_eq by done. eapply work_insert; [done|]. unfold nav_work. simpl. rewrite Hc. lia.
Qed.
Lemma unsettled_step r : ¬ settled r → ∃ r', step r r'.
Proof.
  intros Hs. destruct (decide (Forall (λ nav, loads nav = None) (navigations r))) as [Hi|Hi].
  - destruct (decide (Forall (λ nav, completing nav = false) (navigations r))) as [Hc|Hc].
    + destruct Hs. by apply Forall_and.
    + apply not_Forall_Exists, Exists_exists in Hc as (nav&Hin&Hc); [|intros ?; apply _].
      apply list_elem_of_lookup in Hin as [k Hk]. eexists. eapply step_navigation; [exact Hk| |].
      * simpl in Hc. destruct (completing nav); [done|]. by destruct Hc.
      * intros _. exact (Forall_lookup_1 _ _ _ _ Hi Hk).
  - apply not_Forall_Exists, Exists_exists in Hi as (nav&Hin&Hl); [|intros ?; apply _].
    apply list_elem_of_lookup in Hin as [k Hk]. simpl in Hl.
    destruct (loads nav) as [t|] eqn:Ht; [|by destruct Hl].
    destruct (loading t) as [|p ps] eqn:Hp.
    + eexists. by eapply step_loads.
    + eexists. eapply (step_preload r k 0); [done|done|by rewrite Hp].
Qed.

(** *** What steps write *)

Definition same_signals (o : RouteContext) (h h' : heap) : Prop :=
  urls h' !! rc_url o = urls h !! rc_url o ∧ params h' !! rc_params o = params h !! rc_params o ∧
  matched h' !! rc_matched o = matched h !! rc_matched o.

Lemma step_heap r r' : step r r' → next (hp r') = next (hp r) ∧ urls (hp r') = urls (hp r) ∧
  params (hp r') = params (hp r) ∧ matched (hp r') = matched (hp r).
Proof.
  intros [k i nav t p Hk Hl Hi|k nav t Hk Hl Ht|k nav Hk Hc Hfl].
  - by erewrite finish_preload_eq.
  - by destruct (finish_loads_eq k r nav t Hk Hl Ht) as (v&n&hd&->&_).
  - by erewrite finish_navigation_eq.
Qed.

Lemma shared_addrs os a : a ∈ os ≫= shared → a ∈ os ≫= addrs.
Proof.
  intros (o&Ha&Ho)%list_elem_of_bind. apply list_elem_of_bind. exists o.
  split; [unfold shared, addrs in *; set_solver|done].
Qed.
Lemma signals_shared h pre o rest : outlets_ok h (pre ++ o :: rest) → ∀ a, a ∈ signals o → a ∉ shared o.
Proof.
  intros [Hd _]. rewrite addrs_app, bind_cons in Hd. apply NoDup_app in Hd as (_&_&(Hd&_)%NoDup_app).
  assert (addrs o ≡ₚ signals o ++ shared o) as Hp by (unfold addrs, signals, shared; simpl; solve_Permutation).
  rewrite Hp in Hd. by apply NoDup_app in Hd as (_&Hd&_).
Qed.

(** The URL of all outlets is set. *)
Definition set_urls (url : Url) (os : list RouteContext) (h : heap) : heap :=
  foldl (λ h o, set_url (rc_url o) url h) h os.
Lemma set_urls_spec url os h : let h' := set_urls url os h in
  next h' = next h ∧ params h' = params h ∧ matched h' = matched h ∧ view_fns h' = view_fns h ∧
  children h' = children h ∧
  (∀ a, a ∈ rc_url <$> os → urls h' !! a = Some url) ∧
  (∀ a, a ∉ rc_url <$> os → urls h' !! a = urls h !! a).
Proof.
  revert h. induction os as [|o os IH]; intros h; simpl.
  - split_and!; try done. intros a. set_solver.
  - destruct (IH (set_url (rc_url o) url h)) as (H1&H2&H3&H4&H5&H6&H7). split_and!; try done.
    + intros a [->|Ha]%elem_of_cons; [|by apply H6].
      destruct (decide (rc_url o ∈ rc_url <$> os)) as [Hin|Hin]; [by apply H6|]. rewrite H7 by done.
      simpl. by rewrite lookup_insert_eq.
    + intros a [Ha Hin]%not_elem_of_cons. rewrite H7 by done. simpl. by rewrite lookup_insert_ne.
Qed.

Section navigation.
Variable unescape : str → str.
Context {R : Type}.
Variable routes : RouteDefs R.
Hypothesis ids : unique_ids (rd_children routes).

(** The router after a build, a hydration or a navigation that does not panic *)
Definition built_router (url : Url) : router := build_found unescape url (found_levels routes (url_path url)).
Definition hydrated_router (url : Url) : router := hydrate_found unescape url (found_levels routes (url_path url)).
Definition navigated_router (url : Url) (r : router) : router :=
  if decide (url_path url = path r) then rebuild_same_path url r
  else rebuild_found unescape url r (found_levels routes (url_path url)).

Lemma build_is url r : build unescape routes url = Ok r →
  r = built_router url ∧ match_levels routes (url_path url) = Ok (found_levels routes (url_path url)).
Proof. unfold build, built_router, found_levels. destruct (match_levels _ _); intros [= <-]; done. Qed.
Lemma hydrate_is url r : hydrate unescape routes url = Ok r →
  r = hydrated_router url ∧ match_levels routes (url_path url) = Ok (found_levels routes (url_path url)).
Proof. unfold hydrate, hydrated_router, found_levels. destruct (match_levels _ _); intros [= <-]; done. Qed.
Lemma rebuild_is url r r' : rebuild unescape routes url r = Ok r' →
  r' = navigated_router url r ∧
  (url_path url = path r ∨ match_levels routes (url_path url) = Ok (found_levels routes (url_path url))).
Proof.
  unfold rebuild, navigated_router, found_levels. case_decide; [by intros [= <-]; auto|].
  destruct (match_levels _ _); intros [= <-]; auto.
Qed.

(** ** The structure of the outlets *)

Definition preloads_ok (h : heap) (navs : list navigation) : Prop :=
  Forall (λ nav, ∀ t, loads nav = Some t → Forall (λ p, pr_view_fn p < next h) (loading t)) navs.

(** The outlets are well formed, and their signals have the values of the match. *)
Record formed (url : Url) (r : router) : Prop := {
  fm_heap : heap_ok (hp r);
  fm_outlets : outlets_ok (hp r) (outlets r);
  fm_path : path r = url_path url;
  fm_match : match found_levels routes (url_path url) with
             | None => outlets r = []
             | Some ls => values unescape (hp r) url (outlets r) ls ∧ linked (hp r) (outlets r)
             end;
  fm_preloads : preloads_ok (hp r) (navigations r);
}.

Lemma preloads_ok_next h h' navs : next h ≤ next h' → preloads_ok h navs → preloads_ok h' navs.
Proof.
  intros Hn Hp. eapply Forall_impl; [exact Hp|]. intros nav Ht t Hl. eapply Forall_impl; [by apply Ht|]. simpl. lia.
Qed.
Lemma preloads_ok_new h navs os ps k c : outlets_ok h os → (∃ kept new, os = kept ++ new ∧ ps = new) →
  preloads_ok h navs →
  ∀ ps0 ts first, preloads_ok h (navs ++ [mkNavigation (Some (mkTask (preloads ps0 ps) ts first)) k c]).
Proof.
  intros Ho (kept&new&->&->) Hp ps0 ts first. apply Forall_app. split; [done|]. constructor; [|done].
  intros t [= <-]. simpl. apply outlets_view_fns in Ho as [_ Hl]. rewrite fmap_app in Hl. apply Forall_app in Hl as [_ Hl].
  rewrite <- (preloads_view_fns ps0) in Hl. by apply Forall_fmap in Hl.
Qed.

Lemma empty_heap_ok : heap_ok (mkHeap 0 ∅ ∅ ∅ ∅ ∅).
Proof. split; intros; apply lookup_empty. Qed.

Lemma build_first ls url : ∃ new h',
  build_nested_route unescape ls url [] [] (mkHeap 0 ∅ ∅ ∅ ∅ ∅) = (new, preloads [] new, h') ∧
  built unescape ls url [] new (mkHeap 0 ∅ ∅ ∅ ∅ ∅) h' ∧ outlets_ok h' new.
Proof.
  destruct (build_spec unescape ls url [] [] _ empty_heap_ok) as (new&h'&Heq&Hb); [done|].
  exists new, h'. split; [exact Heq|]. split; [done|]. eapply (outlets_ok_built _ _ _ []); [|done].
  split; constructor.
Qed.

Lemma build_formed url : formed url (built_router url).
Proof.
  unfold built_router, build_found. destruct (found_levels routes (url_path url)) as [ls|] eqn:Hm.
  - destruct (build_first ls url) as (new&h'&->&[Hok Hf Hv Hl _ _ _]&Ho). split; simpl; try done.
    + by rewrite Hm.
    + apply (preloads_ok_new h' [] new new); [done|by exists [], new|constructor].
  - split; simpl; try done.
    + split; constructor.
    + by rewrite Hm.
    + constructor; [|done]. intros t [= <-]. done.
Qed.

Lemma values_ids h url os ls : values unescape h url os ls → rc_id <$> os = l_id <$> ls.
Proof. induction 1 as [|o l os ls [Hi _] _ IH]; [done|]. rewrite !fmap_cons. by f_equal. Qed.
Lemma formed_fits url r : formed url r → fits (has_child (rd_children routes)) (rc_id <$> outlets r).
Proof.
  intros [_ _ _ Hm _]. destruct (found_levels routes (url_path url)) as [ls|] eqn:Hls; [|by rewrite Hm].
  apply (match_levels_fit _ _ _ ids) in Hls as [_ Hls]. destruct Hm as [Hv _].
  by rewrite (values_ids _ _ _ _ Hv).
Qed.

(** ** What a navigation does *)

Lemma abort_keeps r : path (abort r) = path r ∧ outlets (abort r) = outlets r ∧ hp (abort r) = hp r ∧
  view (abort r) = view r ∧ instances (abort r) = instances r.
Proof. unfold abort. destruct (abort_navigation r) as [k|]; [|done]. by destruct (navigations r !! k). Qed.
Lemma abort_navigations (P : navigation → Prop) r : (∀ nav, P nav → P (with_loads None nav)) →
  Forall P (navigations r) → Forall P (navigations (abort r)).
Proof.
  intros HP Hf. unfold abort. destruct (abort_navigation r) as [k|]; [|done].
  destruct (navigations r !! k) as [nav|] eqn:Hk; [|done]. simpl. apply Forall_insert; [done|].
  apply HP. by eapply Forall_lookup_1.
Qed.

Lemma rebuild_matched url r ls os ld h : url_path url ≠ path r → found_levels routes (url_path url) = Some ls →
  rebuild_nested_route unescape ls url 0 (outlets r) [] (hp r) = (os, ld, h) →
  let r' := navigated_router url r in
  path r' = url_path url ∧ outlets r' = os ∧ hp r' = h ∧
  (∃ f, navigations r' = navigations (abort r) ++
    [mkNavigation (Some (mkTask ld (pr_trigger <$> ld) None)) f true]) ∧
  view r' = match view r, head os with
            | Outlets l, _ => Outlets l
            | v, None => v
            | _, Some top => Outlets (render_outlet top h (instances r)).1
            end.
Proof.
  intros Hp Hm Hr. unfold navigated_router, rebuild_found. rewrite decide_False, Hm, Hr by done. cbn zeta.
  set (r0 := mkRouter (url_path url) os (view r) (abort_navigation r) (navigations r) h (instances r)).
  set (nav := mkNavigation _ _ true).
  assert (navigations (abort r0) = navigations (abort r)) as Hn.
  { unfold abort. simpl. destruct (abort_navigation r) as [k|]; [|done]. by destruct (navigations r !! k). }
  destruct (abort_keeps r0) as (Ha1&Ha2&Ha3&Ha4&Ha5).
  assert (view (spawn nav (abort r0)) = view r) as Hv by exact Ha4.
  assert (instances (spawn nav (abort r0)) = instances r) as Hi by exact Ha5.
  rewrite Hv, Hi. destruct (view r) eqn:Hvr, (head os) as [top|];
    try destruct (render_outlet top h (instances r)); simpl; rewrite ?Ha1, ?Ha2, ?Ha3, ?Ha4, Hn;
    split_and!; try done; by eexists.
Qed.

Lemma rebuild_outlets url url' r ls : formed url r → found_levels routes (url_path url') = Some ls →
  ∃ kept dropped new h', rebuild_nested_route unescape ls url' 0 (outlets r) [] (hp r) =
      (kept ++ new, preloads kept new, h') ∧
    rebuilt unescape ls url' [] (outlets r) kept dropped new (hp r) h'.
Proof.
  intros Hf Hm. apply (match_levels_fit _ _ _ ids) in Hm as [Hne Hls].
  apply (rebuild_spec unescape _ ls url' [] (outlets r) [] (hp r) (fm_heap _ _ Hf) (fm_outlets _ _ Hf) Hls
    (formed_fits _ _ Hf) Hne).
Qed.

Lemma rebuild_same url r : url_path url = path r →
  navigated_router url r = with_heap (set_urls url (outlets r) (hp r)) r.
Proof. intros Hp. unfold navigated_router. by rewrite decide_True. Qed.

Lemma outlets_urls h os : outlets_ok h os → Forall (λ a, a < next h) (rc_url <$> os).
Proof. intros Ho. apply (outlets_field rc_url) in Ho as [_ Ho]; [done|]. intros o. unfold addrs. repeat constructor. Qed.

Lemma same_formed url url' r : formed url r → url_path url' = path r →
  formed url' (navigated_router url' r).
Proof.
  intros [Hh Ho Hp Hm Hps] Hp'. rewrite rebuild_same by done.
  destruct (set_urls_spec url' (outlets r) (hp r)) as (Hn&Hpa&Hma&Hv&Hc&Hu&Hu').
  pose proof (outlets_urls _ _ Ho) as Hb. rewrite Forall_forall in Hb. split; simpl.
  - destruct Hh as [H1 H2 H3 H4 H5]. split; rewrite ?Hn, ?Hpa, ?Hma, ?Hv, ?Hc; try done.
    intros a Ha. rewrite Hu'; [by apply H1|]. intros Hin%Hb. lia.
  - destruct Ho as [Hd Hl]. split; [done|]. by rewrite Hn.
  - done.
  - rewrite Hp', Hp. destruct (found_levels routes (url_path url)) as [ls|]; [|done].
    destruct Hm as [Hvs Hl]. split.
    + apply Forall2_same_length_lookup in Hvs as [Hlen Hvs]. apply Forall2_same_length_lookup. split; [done|].
      intros i o l Hi Hl'. destruct (Hvs i o l Hi Hl') as (?&_&?&?). split_and!; rewrite ?Hpa, ?Hma; try done.
      apply Hu, list_elem_of_fmap. exists o. split; [done|]. by eapply list_elem_of_lookup_2.
    + by eapply linked_children.
  - eapply preloads_ok_next; [|done]. by rewrite Hn.
Qed.

Lemma rebuild_formed url url' r : formed url r → formed url' (navigated_router url' r).
Proof.
  intros Hf. destruct (decide (url_path url' = path r)) as [Hp|Hp]; [by apply (same_formed url)|].
  destruct (found_levels routes (url_path url')) as [ls|] eqn:Hm.
  - destruct (rebuild_outlets _ _ _ _ Hf Hm) as (kept&dropped&new&h'&Heq&Hr).
    destruct (rebuild_matched _ _ _ _ _ _ Hp Hm Heq) as (Hpath&Hos&Hh&(f&Hn)&_).
    destruct Hr as [_ Hok Hfr Hv Hl _ Ho _ _]. split; rewrite ?Hos, ?Hh; try done.
    + by rewrite Hm.
    + rewrite Hn. apply (preloads_ok_new h' _ (kept ++ new) new); [done|by eauto|].
      apply (abort_navigations (λ nav, ∀ t, loads nav = Some t → _)); [done|].
      eapply preloads_ok_next; [by apply Hfr|]. apply (fm_preloads _ _ Hf).
  - unfold navigated_router, rebuild_found. rewrite decide_False, Hm by done. destruct Hf as [Hh Ho _ _ Hps]. split; simpl; try done.
    + split; constructor.
    + by rewrite Hm.
Qed.

Lemma step_keeps r r' : step r r' → path r' = path r ∧ outlets r' = outlets r.
Proof.
  intros [k i nav t p Hk Hl Hi|k nav t Hk Hl Ht|k nav Hk Hc Hfl].
  - by erewrite finish_preload_eq.
  - by destruct (finish_loads_eq k r nav t Hk Hl Ht) as (v&n&hd&->&_).
  - by erewrite finish_navigation_eq.
Qed.

Lemma step_formed url r r' : formed url r → step r r' → formed url r'.
Proof.
  intros [Hh Ho Hp Hm Hps] [k i nav t p Hk Hl Hi|k nav t Hk Hl Ht|k nav Hk Hc Hfl].
  - erewrite finish_preload_eq by done. assert (Forall (λ p, pr_view_fn p < next (hp r)) (loading t)) as Hld.
    { unfold preloads_ok in Hps; rewrite Forall_forall in Hps. eapply Hps; [by eapply list_elem_of_lookup_2|done]. }
    split; simpl; try done.
    + apply ok_set_view_fn; [|done]. exact (Forall_lookup_1 _ _ _ _ Hld Hi).
    + destruct (found_levels routes (url_path url)); [|done]. destruct Hm as [Hv Hln]. split; [exact Hv|].
      exact (linked_children (hp r) (set_view_fn _ _ (hp r)) _ eq_refl Hln).
    + apply Forall_insert; [done|]. intros t' [= <-]. simpl. by apply Forall_delete.
  - destruct (finish_loads_eq k r nav t Hk Hl Ht) as (v&n&hd&->&_). split; simpl; try done.
    by apply Forall_insert.
  - erewrite finish_navigation_eq by done. split; simpl; try done. apply Forall_insert; [done|]. simpl.
    unfold preloads_ok in Hps; rewrite Forall_forall in Hps. apply Hps. by eapply list_elem_of_lookup_2.
Qed.

(** ** The page during a navigation *)

Definition idle (r : router) : Prop := Forall (λ nav, loads nav = None) (navigations r).

(** Once everything is loaded, the page shows the outlets, the first ones with the
    views [lk]. *)
Record landed (lk : list rendered) (url : Url) (r : router) : Prop := {
  ld_formed : formed url r;
  ld_idle : idle r;
  ld_loaded : loaded (hp r) [] (outlets r);
  ld_view : match found_levels routes (url_path url) with
            | None => view r = Fallback
            | Some _ => ∃ l, view r = Outlets (lk ++ l) ∧ displays [] (outlets r) (lk ++ l)
            end;
}.

(** Before, the outlets that stay are shown, and what follows them is where the
    new ones will be. *)
Definition awaiting (lk : list rendered) (kept new : list RouteContext)
    (first : option (option RouteContext)) (v : page) : Prop :=
  match first with
  | Some top => kept = [] ∧ top = head new ∧ lk = [] ∧ v = Empty
  | None => kept ++ new ≠ [] ∧ displays [] kept lk ∧
      ∃ l, v = Outlets (lk ++ l) ∧
      match new with
      | [] => l = []
      | n :: _ => ∃ r l', l = r :: l' ∧ rd_trigger r = rc_trigger n ∧ rd_view_fn r = rc_view_fn n
      end
  end.
Record flight (lk : list rendered) (url : Url) (r : router) (k : nat) (kept new : list RouteContext)
    (t : task) (finished : list preload) : Prop := {
  fl_formed : formed url r;
  fl_outlets : outlets r = kept ++ new;
  fl_nav : ∃ nav, navigations r !! k = Some nav ∧ loads nav = Some t;
  fl_idle j nav : j ≠ k → navigations r !! j = Some nav → loads nav = None;
  fl_loading : loading t ++ finished ≡ₚ preloads kept new;
  fl_triggers : triggers t = rc_trigger <$> new;
  fl_finished : Forall (λ p, view_fns (hp r) !! pr_view_fn p = Some (pr_new p)) finished;
  fl_kept : loaded (hp r) [] kept;
  fl_page : awaiting lk kept new (first_view t) (view r);
}.
Definition progress (lk : list rendered) (url : Url) (r : router) : Prop :=
  landed lk url r ∨ ∃ k kept new t finished, flight lk url r k kept new t finished.

Lemma idle_lookup r k nav t : idle r → navigations r !! k = Some nav → loads nav = Some t → False.
Proof. intros Hi Hk Hl. eapply Forall_lookup_1 in Hi; [|exact Hk]. simpl in Hi. congruence. Qed.

Lemma landed_step lk url r r' : landed lk url r → step r r' → landed lk url r'.
Proof.
  intros [Hf Hi Hl Hv] Hs. pose proof (step_formed _ _ _ Hf Hs) as Hf'. revert Hf'.
  destruct Hs as [k i nav t p Hk Hl' _|k nav t Hk Hl' _|k nav Hk Hc Hfl];
    [by destruct (idle_lookup _ _ _ _ Hi Hk Hl')..|].
  erewrite finish_navigation_eq by done. intros Hf'. split; try done.
  apply Forall_insert; [done|]. simpl. exact (Forall_lookup_1 _ _ _ _ Hi Hk).
Qed.

(** A preload finishes. *)
Lemma flight_preload lk url r k kept new t finished i p : flight lk url r k kept new t finished →
  loading t !! i = Some p →
  flight lk url (finish_preload k i r) k kept new
    (mkTask (delete i (loading t)) (triggers t) (first_view t)) (p :: finished).
Proof.
  intros Hfl Hi. assert (step r (finish_preload k i r)) as Hs.
  { destruct (fl_nav _ _ _ _ _ _ _ _ Hfl) as (nav&?&?). by econstructor. }
  destruct Hfl as [Hf Ho (nav&Hk&Hl) Hid Hld Ht Hfin Hkept Hp].
  pose proof (step_formed _ _ _ Hf Hs) as Hf'. clear Hs. revert Hf'. erewrite finish_preload_eq by done. intros Hf'.
  pose proof (outlets_view_fns _ _ (fm_outlets _ _ Hf)) as [Hd _]. rewrite Ho, fmap_app in Hd.
  apply NoDup_app in Hd as (_&Hdk&Hdn). rewrite <- (preloads_view_fns kept new) in Hdk, Hdn.
  rewrite (delete_Permutation _ _ _ Hi) in Hld.
  assert (p ∈ preloads kept new) as Hpn by (rewrite <- Hld; simpl; left).
  rewrite <- Hld in Hdn. simpl in Hdn. apply NoDup_cons in Hdn as [Hdn _]. split; simpl; try done.
  - eexists. split; [apply list_lookup_insert_eq; by eapply lookup_lt_Some|done].
  - intros j nav' Hj. rewrite list_lookup_insert_ne by done. by apply Hid.
  - rewrite <- Hld. simpl. by rewrite Permutation_middle.
  - constructor; [by rewrite lookup_insert_eq|]. apply Forall_forall. intros q Hq.
    rewrite Forall_forall in Hfin. rewrite lookup_insert_ne; [by apply Hfin|]. intros Heq. apply Hdn.
    rewrite Heq, fmap_app, elem_of_app. right. apply list_elem_of_fmap. eauto.
  - apply loaded_set_view_fn; [|done]. intros Hin. apply (Hdk _ Hin). apply list_elem_of_fmap. eauto.
Qed.

(** The notified outlets show the new views. *)
Lemma awaiting_lands lk url r kept new ts first : formed url r → outlets r = kept ++ new →
  loaded (hp r) [] (kept ++ new) → awaiting lk kept new first (view r) → ts = rc_trigger <$> new →
  match first with
  | None => ∃ l, view r = Outlets (lk ++ l) ∧ (∃ l' n', notify_all ts (lk ++ l) (hp r) (instances r) = (lk ++ l', n') ∧
              displays [] (outlets r) (lk ++ l'))
  | Some None => outlets r = []
  | Some (Some o) => lk = [] ∧ ∀ n, displays [] (outlets r) (render_outlet o (hp r) n).1
  end.
Proof.
  intros Hf Ho Hld Hp ->. pose proof (outlets_ok_length _ _ (fm_outlets _ _ Hf)) as Hlen.
  assert (linked (hp r) (outlets r)) as Hlk.
  { pose proof (fm_match _ _ Hf) as Hm. destruct (found_levels routes (url_path url)); [by apply Hm|by rewrite Hm]. }
  pose proof (outlets_triggers _ _ (fm_outlets _ _ Hf)) as [Hd _].
  rewrite Ho in Hlk, Hd, Hlen |- *. rewrite fmap_app in Hd. apply NoDup_app in Hd as (_&Hd&_).
  rewrite length_app in Hlen. destruct first as [[o|]|]; simpl in Hp.
  - destruct Hp as (->&Hh&->&_). split; [done|]. intros n. destruct new as [|o' new]; [done|]. injection Hh as ->.
    destruct (render_displays (hp r) [] o' new (next (hp r)) n) as (l&n'&Hr&Hds); [done..|simpl in Hlen; lia|].
    unfold render_outlet. by rewrite Hr.
  - destruct Hp as (->&Hh&_). by destruct new.
  - destruct Hp as (_&Hdk&l&Hv&Hn). exists l. split; [done|]. pose proof (displays_triggers _ _ _ Hdk) as Hdt.
    apply loaded_app in Hld as [_ Hld]. apply linked_app in Hlk. destruct new as [|o new].
    + subst l. exists [], (instances r). split; [done|]. by rewrite !app_nil_r.
    + destruct Hn as (r0&l'&->&Ht&Hvf). rewrite fmap_cons. unfold notify_all. simpl.
      rewrite notify_app by (rewrite Hdt; intros Hin; apply (Hd _ Hin); left).
      simpl. rewrite decide_True by done. rewrite Hvf.
      destruct (render_displays (hp r) kept o new (next (hp r)) (instances r)) as (l2&n2&->&Hds); [done..|simpl in Hlen; lia|].
      destruct (notify_all_displays (rc_trigger <$> new) (hp r) kept (o :: new) lk l2 n2) as (l3&n3&Heq&Hds3); try done.
      { intros t Hin. rewrite Hdt. intros Hin'. apply (Hd _ Hin'). by right. }
      { lia. }
      exists l3, n3. split; [exact Heq|]. apply displays_app; [done|]. done.
Qed.

Lemma flight_lands lk url r k kept new t finished : flight lk url r k kept new t finished → loading t = [] →
  landed lk url (finish_loads k r).
Proof.
  intros Hfl Hi. assert (step r (finish_loads k r)) as Hs.
  { destruct (fl_nav _ _ _ _ _ _ _ _ Hfl) as (nav&?&?). by econstructor. }
  destruct Hfl as [Hf Ho (nav&Hk&Hl) Hid Hld Ht Hfin Hkept Hp].
  pose proof (step_formed _ _ _ Hf Hs) as Hf'. clear Hs. revert Hf'.
  destruct (finish_loads_eq k r nav t Hk Hl Hi) as (v&n&hd&->&Hv). intros Hf'. rewrite Hi in Hld. simpl in Hld.
  assert (loaded (hp r) [] (kept ++ new)) as Hall.
  { apply loaded_app. split; [done|]. apply loaded_preloads. by rewrite <- Hld. }
  pose proof (awaiting_lands _ _ _ _ _ _ _ Hf Ho Hall Hp Ht) as Hland. split; simpl; try done.
  - apply Forall_lookup. intros j nav'. simpl. destruct (decide (j = k)) as [->|Hj].
    + rewrite list_lookup_insert_eq by (by eapply lookup_lt_Some). by intros [= <-].
    + rewrite list_lookup_insert_ne by done. by apply Hid.
  - by rewrite Ho.
  - pose proof (fm_match _ _ Hf) as Hm. destruct (found_levels routes (url_path url)) as [ls|] eqn:Hls.
    + apply (match_levels_fit _ _ _ ids) in Hls as [Hne _].
      assert (outlets r ≠ []) as Hos by (destruct Hm as [Hvs _]; intros Hos; rewrite Hos in Hvs; by inversion Hvs).
      destruct (first_view t) as [[o|]|].
      * destruct Hland as [-> Hds], Hv as [m ->]. eauto.
      * done.
      * destruct Hland as (l&Hvr&l'&n'&Heq&Hds). rewrite Hvr, Heq in Hv. eauto.
    + rewrite Hm in Ho. symmetry in Ho. apply app_eq_nil in Ho as [-> ->].
      destruct (first_view t) as [[o|]|]; [| |by destruct Hp].
      * destruct Hp as (_&?&_). done.
      * done.
Qed.

Lemma flight_navigation lk url r k kept new t finished j nav :
  flight lk url r k kept new t finished → navigations r !! j = Some nav → completing nav = true →
  (full_loader nav = true → loads nav = None) →
  flight lk url (finish_navigation j r) k kept new t finished.
Proof.
  intros Hfl Hj Hc Hfull. assert (step r (finish_navigation j r)) as Hs by by econstructor.
  destruct Hfl as [Hf Ho (nav'&Hk&Hl) Hid Hld Ht Hfin Hkept Hp].
  pose proof (step_formed _ _ _ Hf Hs) as Hf'. clear Hs. revert Hf'. erewrite finish_navigation_eq by done.
  intros Hf'. split; simpl; try done.
  - destruct (decide (j = k)) as [->|Hjk].
    + eexists. split; [apply list_lookup_insert_eq; by eapply lookup_lt_Some|]. simpl. congruence.
    + exists nav'. by rewrite list_lookup_insert_ne.
  - intros i nav2 Hi. destruct (decide (i = j)) as [->|Hij].
    + rewrite list_lookup_insert_eq by (by eapply lookup_lt_Some). intros [= <-]. simpl. by eapply Hid.
    + rewrite list_lookup_insert_ne by done. by apply Hid.
Qed.

Lemma progress_step lk url r r' : progress lk url r → step r r' → progress lk url r'.
Proof.
  intros [Hl|(k&kept&new&t&fin&Hfl)] Hs; [left; by eapply landed_step|].
  assert (∀ j nav t', navigations r !! j = Some nav → loads nav = Some t' → j = k ∧ t' = t) as Hjk.
  { intros j nav t' Hj Ht'. destruct (decide (j = k)) as [->|Hne].
    - destruct (fl_nav _ _ _ _ _ _ _ _ Hfl) as (nav'&?&?). split; congruence.
    - pose proof (fl_idle _ _ _ _ _ _ _ _ Hfl _ _ Hne Hj). congruence. }
  destruct Hs as [j i nav t' p Hj Ht' Hi|j nav t' Hj Ht' Hld|j nav Hj Hc Hfull].
  - destruct (Hjk _ _ _ Hj Ht') as [-> ->]. right. eexists _, _, _, _, _. by eapply flight_preload.
  - destruct (Hjk _ _ _ Hj Ht') as [-> ->]. left. by eapply flight_lands.
  - right. eexists _, _, _, _, _. by eapply flight_navigation.
Qed.

Lemma progress_settled lk url r r' : progress lk url r → rtc step r r' → settled r' → landed lk url r'.
Proof.
  intros Hp Hs Hst. induction Hs as [r|r r1 r2 Hs _ IH]; [|apply IH; [by eapply progress_step|done]].
  destruct Hp as [Hl|(k&kept&new&t&fin&Hfl)]; [done|]. destruct (fl_nav _ _ _ _ _ _ _ _ Hfl) as (nav&Hk&Hl).
  apply (Forall_lookup_1 _ _ _ _ Hst) in Hk as [Hk _]. congruence.
Qed.

(** ** Where a navigation starts *)

Lemma build_progress url : progress [] url (built_router url).
Proof.
  pose proof (build_formed url) as Hf. right. revert Hf. unfold built_router, build_found.
  destruct (found_levels routes (url_path url)) as [ls|] eqn:Hm.
  - destruct (build_first ls url) as (new&h'&->&_&_). intros Hf. exists 0, [], new.
    exists (mkTask (preloads [] new) (pr_trigger <$> preloads [] new) (Some (head new))), []. split; simpl; try done.
    + by eexists.
    + by intros [|j].
    + by rewrite app_nil_r.
    + apply preloads_triggers.
  - intros Hf. exists 0, [], [], (mkTask [] [] (Some None)), []. split; simpl; try done.
    + by eexists.
    + by intros [|j].
Qed.

Lemma finish_all_loaded h ps os : NoDup (rc_view_fn <$> os) → loaded (finish_all (preloads ps os) h) ps os.
Proof.
  intros Hd. assert (∀ qs h a, a ∉ pr_view_fn <$> qs → view_fns (finish_all qs h) !! a = view_fns h !! a) as Hother.
  { unfold finish_all. induction qs as [|q qs IH]; intros h0 a; [done|]. simpl. intros [Ha Hqs]%not_elem_of_cons.
    rewrite IH by done. simpl. by rewrite lookup_insert_ne. }
  revert ps h Hd. induction os as [|o os IH]; intros ps h; simpl; [done|]. intros [Hn Hd]%NoDup_cons.
  split; [|by apply IH]. unfold finish_all in *. simpl. rewrite Hother; [simpl; by rewrite lookup_insert_eq|].
  by rewrite preloads_view_fns.
Qed.
Lemma finish_all_keeps qs h : next (finish_all qs h) = next h ∧ urls (finish_all qs h) = urls h ∧
  params (finish_all qs h) = params h ∧ matched (finish_all qs h) = matched h ∧
  children (finish_all qs h) = children h.
Proof.
  unfold finish_all. revert h. induction qs as [|q qs IH]; intros h; [done|].
  exact (IH (set_view_fn (pr_view_fn q) (pr_new q) h)).
Qed.

Lemma hydrate_landed url : landed [] url (hydrated_router url).
Proof.
  unfold hydrated_router, hydrate_found. destruct (found_levels routes (url_path url)) as [ls|] eqn:Hm.
  - destruct (build_first ls url) as (new&h'&->&[Hok Hf Hv Hl _ _ _]&Ho).
    pose proof (outlets_view_fns _ _ Ho) as [Hd Hb]. pose proof (finish_all_loaded h' [] new Hd) as Hld.
    assert (heap_ok (finish_all (preloads [] new) h')) as Hok'.
    { clear -Hok Hb. rewrite <- (preloads_view_fns []) in Hb. revert h' Hok Hb. unfold finish_all.
      induction (preloads [] new) as [|q qs IH]; intros h' Hok Hb; [done|]. simpl. apply Forall_cons in Hb as [Hq Hb].
      apply IH; [by apply ok_set_view_fn|done]. }
    destruct (finish_all_keeps (preloads [] new) h') as (H1&H2&H3&H4&H5).
    set (h := finish_all (preloads [] new) h') in *. clearbody h.
    assert (linked h new) as Hlk by (by eapply linked_children).
    assert (outlets_ok h new) as Ho' by (unfold outlets_ok; by rewrite H1).
    destruct new as [|o new].
    { inversion Hv. subst. apply (match_levels_fit _ _ _ ids) in Hm as [? _]. done. }
    simpl. destruct (render_displays h [] o new (next h) 0) as (l&n&Hr&Hds); [done..| |].
    { apply outlets_ok_length in Ho'. simpl in Ho'. lia. }
    unfold render_outlet. rewrite Hr. split; simpl; try done.
    + split; simpl; try done; [|constructor]. rewrite Hm. split; [|done].
      unfold values, value_is in *. by rewrite H2, H3, H4.
    + constructor.
    + rewrite Hm. eauto.
  - split; simpl; try done; [|constructor|by rewrite Hm]. split; simpl; try done; [split; constructor|by rewrite Hm|constructor].
Qed.

Lemma render_head fuel t v h n : ∃ r0 l, (render fuel t v h n).1 = r0 :: l ∧ rd_trigger r0 = t ∧ rd_view_fn r0 = v.
Proof.
  destruct fuel; simpl; destruct (view_fns h !! v) as [f|]; simpl; eauto;
    destruct (children h !! vf_child f) as [c|]; simpl; eauto.
  destruct (render fuel (rc_trigger c) (rc_view_fn c) h (S n)); simpl; eauto.
Qed.

(** The views of the first [k] routes, if these are the same *)
Definition stay (url url' : Url) (r : router) (lk : list rendered) : Prop :=
  ∀ l ls ls' k, view r = Outlets l → found_levels routes (url_path url) = Some ls →
    found_levels routes (url_path url') = Some ls' →
    take k (l_id <$> ls) = take k (l_id <$> ls') → take k l `prefix_of` lk.

Lemma kept_stays (ids0 ids1 : list N) kept dropped new (l1 l2 : list rendered) k :
  rc_id <$> kept ++ dropped = ids0 → rc_id <$> kept ++ new = ids1 → length l1 = length kept →
  (dropped = [] → l2 = []) →
  match dropped, new with d :: _, n :: _ => rc_id n ≠ rc_id d | _ :: _, [] => False | _, _ => True end →
  take k ids0 = take k ids1 → take k (l1 ++ l2) `prefix_of` l1.
Proof.
  intros <- <- Hl Hl2 Hd Htake. destruct (decide (k ≤ length l1)) as [Hk|Hk].
  - rewrite take_app_le by done. exists (drop k l1). by rewrite take_drop.
  - destruct dropped as [|d dropped]; [rewrite Hl2, app_nil_r by done; exists (drop k l1); by rewrite take_drop|].
    destruct new as [|n new]; [done|]. exfalso. apply Hd.
    assert (length (rc_id <$> kept) = length l1) as Hlen by (by rewrite length_fmap).
    apply (f_equal (λ l, l !! length l1)) in Htake. rewrite !lookup_take_lt in Htake by lia.
    rewrite !fmap_app, !fmap_cons, <- Hlen, !list_lookup_middle in Htake by done. by injection Htake.
Qed.

Lemma displays_length ps os l : displays ps os l → length l = length os.
Proof. intros Hd%displays_triggers. apply (f_equal length) in Hd. by rewrite !length_fmap in Hd. Qed.

(** The page behind the outlets that are kept *)
Lemma rebuilt_awaits lk0 url url' r ls kept dropped new h' : landed lk0 url r →
  found_levels routes (url_path url') = Some ls →
  rebuilt unescape ls url' [] (outlets r) kept dropped new (hp r) h' →
  ∃ lk, stay url url' r lk ∧
    awaiting lk kept new None
      (match view r, head (kept ++ new) with
       | Outlets l, _ => Outlets l
       | v, None => v
       | _, Some top => Outlets (render_outlet top h' (instances r)).1
       end).
Proof.
  intros [Hf _ _ Hv] Hm [Hr _ _ Hvs _ _ _ _ Hh]. pose proof (fm_match _ _ Hf) as Hm0.
  apply (match_levels_fit _ _ _ ids) in Hm as Hne. destruct Hne as [Hne _].
  assert (kept ++ new ≠ []) as Hkn by (intros Hkn; rewrite Hkn in Hvs; by inversion Hvs).
  unfold stay. destruct (found_levels routes (url_path url)) as [ls0|] eqn:Hls0.
  - destruct Hv as (l&Hvr&Hd), Hm0 as [Hvs0 _]. rewrite Hr in Hd. apply displays_app_inv in Hd as (l1&l2&Heq&Hd1&Hd2).
    rewrite Hvr, Heq. exists l1. split.
    + intros l' ? ? k [= <-] [= <-]. rewrite Hm. intros [= <-]. eapply (kept_stays _ _ kept dropped new).
      * rewrite <- Hr. by eapply values_ids.
      * by eapply values_ids.
      * by eapply displays_length.
      * intros ->. by destruct l2.
      * destruct dropped, new; try done. by apply Hh.
    + split_and!; [done|done|]. exists l2. split; [done|]. destruct new as [|n new], dropped as [|d dropped]; try done.
      * by destruct l2.
      * exfalso. rewrite Hh in Hvs0. inversion Hvs0. subst. apply (match_levels_fit _ _ _ ids) in Hls0 as [? _]. done.
      * destruct l2 as [|r0 l2]; [done|]. exists r0, l2. destruct Hh as (_&->&->), Hd2 as (->&->&_). done.
  - rewrite Hv. rewrite Hm0 in Hr. symmetry in Hr. apply app_eq_nil in Hr as [-> ->]. exists []. split; [done|].
    split_and!; [done|done|]. destruct new as [|n new]; [done|]. simpl. eexists. split; [done|].
    destruct (render_head (next h') (rc_trigger n) (rc_view_fn n) h' (instances r)) as (r0&l&?&?&?). eauto.
Qed.

Lemma rebuild_progress lk0 url url' r : landed lk0 url r →
  ∃ lk, progress lk url' (navigated_router url' r) ∧ stay url url' r lk.
Proof.
  intros Hl. pose proof Hl as [Hf Hi Hld Hv]. pose proof (rebuild_formed url url' r Hf) as Hf'.
  destruct (decide (url_path url' = path r)) as [Hp|Hp].
  - rewrite rebuild_same in * by done. destruct (set_urls_spec url' (outlets r) (hp r)) as (Hn&_&_&Hvf&_&_).
    exists (match view r with Outlets l => l | _ => [] end). split.
    + left. split; simpl; try done.
      * by eapply loaded_view_fns.
      * rewrite Hp, (fm_path _ _ Hf). destruct (found_levels routes (url_path url)) as [ls|]; [|done].
        destruct Hv as (l&->&Hd). exists []. by rewrite app_nil_r.
    + intros l ? ? k -> _ _ _. exists (drop k l). by rewrite take_drop.
  - destruct (found_levels routes (url_path url')) as [ls|] eqn:Hm.
    + destruct (rebuild_outlets _ _ _ _ Hf Hm) as (kept&dropped&new&h'&Heq&Hr).
      destruct (rebuild_matched _ _ _ _ _ _ Hp Hm Heq) as (Hpath&Hos&Hh&(f&Hn)&Hvw).
      destruct (rebuilt_awaits _ _ _ _ _ _ _ _ _ Hl Hm Hr) as (lk&Hst&Haw).
      exists lk. split; [|done]. right. exists (length (navigations (abort r))), kept, new.
      eexists _, []. split; try done.
      * eexists. rewrite Hn, list_lookup_middle by done. split; reflexivity.
      * intros j nav Hj. rewrite Hn. assert (idle (abort r)) as Hia by (by apply abort_navigations).
        intros [Hlo|[Hge Hlo]]%lookup_app_Some; [by apply (Forall_lookup_1 _ _ _ _ Hia) in Hlo|].
        apply lookup_lt_Some in Hlo. simpl in Hlo. lia.
      * simpl. by rewrite app_nil_r.
      * apply preloads_triggers.
      * rewrite Hh. eapply loaded_frame; [apply Hr|]. rewrite (rt_rest _ _ _ _ _ _ _ _ _ _ Hr) in Hld.
        by apply loaded_app in Hld as [Hld _].
      * simpl. by rewrite Hvw.
    + exists []. split; [|intros l ls0 ls1 k _ _; by rewrite Hm]. left. revert Hf'. unfold navigated_router, rebuild_found. rewrite decide_False, Hm by done.
      intros Hf'. split; simpl; try done. by rewrite Hm.
Qed.
End navigation.
