(* ===== verification/OutletProps.v ===== *)
(** * Navigating between nested routes

    Whatever way navigations and the loading of views interleave, the signals of
    the outlets follow the match of the current URL.  If the views of a
    navigation are loaded before the next one, then the page shows the match,
    the views of the routes that stay are kept, and what belongs to a route that
    was left is never written again. *)

From Stdlib Require Import Ascii.
From stdpp Require Import base gmap list strings relations.
From S2P Require Import Prelude RustStr RouteMatch Routes Params Outlets OutletFacts OutletSteps.

Section navigation.
Variable unescape : str → str.
Context {R : Type}.
Variable routes : RouteDefs R.
Hypothesis ids : unique_ids (rd_children routes).
Abbreviation formed := (formed unescape routes).
Abbreviation landed := (landed unescape routes).

(** ** What is seen *)

(** The value that pairs give to a name, of which the last one counts *)
Definition bound (k : str) (l : list (str * str)) : option str := last (values_of k l).

(** What the view of the level [l] should see, which comes last in [ls]: the URL,
    the path that was matched down to the level, and for each name of a parameter
    the value that the match of these levels binds, decoded. *)
Record sees (url : Url) (ls : list level) (l : level) (s : seen) : Prop := {
  sees_view : s_view s = l_id l;
  sees_url : s_url s = Some url;
  sees_matched : s_matched s = concat (map l_matched ls);
  sees_params k : params_get (s_params s) k = unescape <$> bound k (ls ≫= l_params);
}.
Fixpoint sees_levels (url : Url) (above ls : list level) (l : list seen) : Prop :=
  match ls, l with
  | [], [] => True
  | lv :: ls, s :: l => sees url (above ++ [lv]) lv s ∧ sees_levels url (above ++ [lv]) ls l
  | _, _ => False
  end.

Inductive shown :=
| ShowsNothing
| ShowsFallback
| Shows (l : list (option seen)).
Definition show (r : router) : shown :=
  match view r with
  | Empty => ShowsNothing
  | Fallback => ShowsFallback
  | Outlets l => Shows ((λ rd, see unescape (hp r) ∘ snd <$> rd_content rd) <$> l)
  end.

(** No value of a parameter has a percent escape left once it is decoded. *)
Definition decoded_once (ls : list level) : Prop :=
  ∀ l k v, l ∈ ls → (k, v) ∈ l_params l → unescape (unescape v) = unescape v.

(** *** Parameters that are collected *)

Definition decoded (l : list (str * str)) : list (str * str) := (λ kv, (kv.1, unescape kv.2)) <$> l.
Lemma collect_params_decoded l : collect_params unescape l = collect_decoded [] (decoded l).
Proof.
  unfold collect_params, params_from_iter, ParamsMap_new, collect_decoded, decoded. generalize (@nil (str * list str)).
  induction l as [|[k v] l IH]; intros m; [done|]. apply IH.
Qed.
Lemma values_of_app k l l' : values_of k (l ++ l') = values_of k l ++ values_of k l'.
Proof. unfold values_of. by rewrite filter_app, fmap_app. Qed.
Lemma values_of_decoded k l : values_of k (decoded l) = unescape <$> values_of k l.
Proof.
  induction l as [|[k' v] l IH]; [done|]. unfold decoded in *. rewrite fmap_cons. cbn [fst snd].
  rewrite !values_of_cons, IH. by case_decide.
Qed.
Lemma collected l : params_wf (collect_decoded [] l) ∧
  ∀ k, contents (collect_decoded [] l) !! k = match values_of k l with [] => None | vs => Some vs end.
Proof. destruct (collect_decoded_spec l [] params_wf_nil) as [Hw Hl]. split; [done|]. intros k. by rewrite Hl. Qed.
Lemma collected_get l k : params_get (collect_decoded [] l) k = bound k l.
Proof.
  destruct (collected l) as [Hw Hl]. unfold params_get, bound. rewrite get_str_contents, Hl by done.
  by destruct (values_of k l).
Qed.
Lemma collected_iter k l : values_of k (params_into_iter (collect_decoded [] l)) = values_of k l.
Proof.
  destruct (collected l) as [Hw Hl]. destruct (collected (params_into_iter (collect_decoded [] l))) as [_ Hl'].
  specialize (Hl k). specialize (Hl' k). rewrite collect_into_iter, Hl in Hl' by done.
  destruct (values_of k l), (values_of k (params_into_iter (collect_decoded [] l))); congruence.
Qed.
Lemma last_map {A B} (f : A → B) l : last (f <$> l) = f <$> last l.
Proof. induction l as [|x [|y l] IH]; [done..|]. exact IH. Qed.

Lemma levels_params k ls : decoded_once ls →
  params_get (collect_params unescape (ls ≫= λ l, params_into_iter (collect_params unescape (l_params l)))) k =
  unescape <$> bound k (ls ≫= l_params).
Proof.
  intros Hd. rewrite collect_params_decoded, collected_get. unfold bound. rewrite values_of_decoded, !last_map.
  assert (values_of k (ls ≫= λ l, params_into_iter (collect_params unescape (l_params l))) =
    unescape <$> values_of k (ls ≫= l_params)) as ->.
  { clear Hd. induction ls as [|l ls IH]; [done|]. rewrite !bind_cons, !values_of_app, fmap_app, IH. f_equal.
    by rewrite collect_params_decoded, collected_iter, values_of_decoded. }
  rewrite last_map. destruct (last (values_of k _)) as [v|] eqn:Hv; [|done]. simpl. f_equal.
  apply last_Some_elem_of in Hv. unfold values_of in Hv. apply list_elem_of_fmap in Hv as ([k' v'] & -> & Hin).
  apply list_elem_of_filter in Hin as [_ Hin]. apply list_elem_of_bind in Hin as (l & Hl & Hin).
  by eapply Hd.
Qed.

Lemma see_expected h url ps o lps l : values unescape h url ps lps → value_is unescape h url o l →
  decoded_once (lps ++ [l]) → sees url (lps ++ [l]) l (see unescape h (expected ps o)).
Proof.
  intros Hps (Hi&Hu&Hp&Hm) Hd.
  assert (params_including_parents unescape h (vf_params (expected ps o)) =
    collect_params unescape ((lps ++ [l]) ≫= λ l, params_into_iter (collect_params unescape (l_params l)))) as Hpar.
  { unfold params_including_parents, expected. cbn [vf_params]. f_equal. rewrite !bind_app.
    f_equal; [|simpl; by rewrite Hp]. clear Hd.
    induction Hps as [|o' l' ps lps (_&_&Hp'&_) _ IH]; [done|]. rewrite fmap_cons, !bind_cons. by rewrite Hp', IH. }
  split; [done|done| |].
  - unfold see, expected, matched_including_parents. cbn [s_matched vf_matched]. f_equal. rewrite !map_app. f_equal; [|simpl; by rewrite Hm]. clear Hd Hpar.
    induction Hps as [|o' l' ps lps (_&_&_&Hm') _ IH]; [done|]. rewrite fmap_cons. cbn [map]. by rewrite Hm', IH.
  - intros k. unfold see. cbn [s_params]. rewrite Hpar. by apply levels_params.
Qed.
Lemma displays_seen h url ps os lps ls l : values unescape h url ps lps → values unescape h url os ls →
  displays ps os l → decoded_once (lps ++ ls) →
  ∃ l', (λ rd, see unescape h ∘ snd <$> rd_content rd) <$> l = Some <$> l' ∧ sees_levels url lps ls l'.
Proof.
  intros Hps Hos. revert ps lps l Hps. induction Hos as [|o l0 os ls Ho Hos IH]; intros ps lps [|r l] Hps; try done.
  { intros _ _. by exists []. }
  intros (_&_&Hc&Hd) Hdo.
  destruct (IH (ps ++ [o]) (lps ++ [l0]) l) as (l'&Hl'&Hs); [by apply Forall2_app; [|constructor]|done|by rewrite <- app_assoc|].
  exists (see unescape h (expected ps o) :: l'). rewrite !fmap_cons, Hl'. split.
  - f_equal. rewrite option_fmap_compose, Hc. done.
  - split; [|done]. apply (see_expected _ _ _ _ _ _ Hps Ho). intros l1 k v Hl1. apply Hdo. set_solver.
Qed.

(** What the page should show *)
Definition page_is (url : Url) (s : shown) : Prop :=
  match match_levels routes (url_path url) with
  | Ok None => s = ShowsFallback
  | Ok (Some ls) => decoded_once ls → ∃ l, s = Shows (Some <$> l) ∧ sees_levels url [] ls l
  | _ => False
  end.
Lemma landed_shows lk url r : landed lk url r →
  match_levels routes (url_path url) = Ok (found_levels routes (url_path url)) → page_is url (show r).
Proof.
  intros [Hf _ _ Hv] Hok. pose proof (fm_match _ _ _ _ Hf) as Hm. unfold show, page_is. rewrite Hok.
  destruct (found_levels routes (url_path url)) as [ls|]; [|by rewrite Hv].
  destruct Hv as (l&->&Hd), Hm as [Hvs _]. intros Hdo.
  destruct (displays_seen (hp r) url [] (outlets r) [] ls (lk ++ l)) as (l'&Hl'&Hs); [constructor|done..|].
  exists l'. by rewrite Hl'.
Qed.

(** ** Histories *)

(** Any interleaving of navigations and steps, as long as nothing panics *)
Inductive reached : Url → router → Prop :=
| reached_build url r : build unescape routes url = Ok r → reached url r
| reached_hydrate url r : hydrate unescape routes url = Ok r → reached url r
| reached_step url r r' : reached url r → step r r' → reached url r'
| reached_rebuild url url' r r' : reached url r → rebuild unescape routes url' r = Ok r' → reached url' r'.

(** A navigation that is completed *)
Inductive navigates (url : Url) (r : router) : router → Prop :=
| navigates_to r1 r' : rebuild unescape routes url r = Ok r1 → rtc step r1 r' → settled r' → navigates url r r'.

(** Navigations that are completed, one after the other *)
Inductive visited : Url → router → Prop :=
| visited_build url r r' : build unescape routes url = Ok r → rtc step r r' → settled r' → visited url r'
| visited_hydrate url r : hydrate unescape routes url = Ok r → visited url r
| visited_next url url' r r' : visited url r → navigates url' r r' → visited url' r'.

(** The match of the current URL did not panic. *)
Definition matches (url : Url) : Prop :=
  match_levels routes (url_path url) = Ok (found_levels routes (url_path url)).

Lemma reached_formed url r : reached url r → formed url r ∧ matches url.
Proof.
  induction 1 as [url r Hb|url r Hb|url r r' _ [Hf Hm] Hs|url url' r r' _ [Hf Hm] Hb].
  - apply build_is in Hb as [-> Hm]. split; [by apply build_formed|done].
  - apply hydrate_is in Hb as [-> Hm]. split; [by apply hydrate_landed|done].
  - split; [by eapply step_formed|done].
  - apply rebuild_is in Hb as [-> Hm']. split; [by eapply rebuild_formed|].
    destruct Hm' as [Hp|?]; [|done]. unfold matches in *. by rewrite Hp, (fm_path _ _ _ _ Hf).
Qed.

Lemma visited_landed url r : visited url r → (∃ lk, landed lk url r) ∧ matches url.
Proof.
  induction 1 as [url r r' Hb Hs Hst|url r Hb|url url' r r' _ [[lk Hl] Hm] [r1 r2 Hb Hs Hst]].
  - apply build_is in Hb as [-> Hm]. split; [|done]. exists []. by eapply progress_settled; [|apply build_progress|..].
  - apply hydrate_is in Hb as [-> Hm]. split; [|done]. exists []. by apply hydrate_landed.
  - apply rebuild_is in Hb as [-> Hm']. split.
    + destruct (rebuild_progress _ _ ids _ _ url' _ Hl) as (lk'&Hp&_). exists lk'. by eapply progress_settled.
    + destruct Hm' as [Hp|?]; [|done]. destruct Hl as [Hf _ _ _]. unfold matches in *.
      by rewrite Hp, (fm_path _ _ _ _ Hf).
Qed.

(** C10: Once the views of every navigation were loaded before the next one began,
    the page shows what the current URL stands for, in whatever order the loads
    finished.  If no route matches, this is the fallback; otherwise there is one
    view for each level of the match, and each sees the URL, the path that was
    matched down to its level, and as the value of a parameter the one that its
    level or the nearest one above binds, decoded.  This needs that no value has a
    percent escape left once it is decoded, since the router decodes twice. *)
Theorem page_shows_the_match url r : visited url r → page_is url (show r).
Proof. intros [[lk Hl] Hm]%visited_landed. by eapply landed_shows. Qed.

(** C30: If the views of every navigation are loaded before the next one begins, a
    navigation keeps the views of the routes at the top that both matches share,
    the very same instances. *)
Theorem common_routes_stay url url' r r' ls ls' k l : visited url r → navigates url' r r' →
  match_levels routes (url_path url) = Ok (Some ls) → match_levels routes (url_path url') = Ok (Some ls') →
  k ≤ length ls → take k (l_id <$> ls) = take k (l_id <$> ls') → view r = Outlets l →
  ∃ l', view r' = Outlets l' ∧ take k l' = take k l.
Proof.
  intros [[lk0 Hl] _]%visited_landed [r1 r2 Hb Hs Hst] Hm Hm' Hk Hids Hv.
  apply rebuild_is in Hb as [-> _].
  assert (found_levels routes (url_path url) = Some ls) as Hls by (unfold found_levels; by rewrite Hm).
  assert (found_levels routes (url_path url') = Some ls') as Hls' by (unfold found_levels; by rewrite Hm').
  destruct (rebuild_progress _ _ ids _ _ url' _ Hl) as (lk&Hp&Hstay).
  pose proof (progress_settled _ _ ids _ _ _ _ Hp Hs Hst) as [_ _ _ Hv']. rewrite Hls' in Hv'. destruct Hv' as (l2&Hv'&_).
  exists (lk ++ l2). split; [done|]. destruct (Hstay l ls ls' k Hv Hls Hls' Hids) as [l3 ->].
  destruct Hl as [Hf _ _ Hd]. rewrite Hls in Hd. destruct Hd as (l4&Hv4&Hd%displays_length).
  rewrite Hv in Hv4. injection Hv4 as ->. pose proof (fm_match _ _ _ _ Hf) as Hvs. rewrite Hls in Hvs.
  destruct Hvs as [Hvs%Forall2_length _]. rewrite <- app_assoc. apply take_app_length'. rewrite length_take. lia.
Qed.

(** Whatever happens, a navigation or a step *)
Inductive event (r : router) : router → Prop :=
| event_step r' : step r r' → event r r'
| event_navigate url r' : rebuild unescape routes url r = Ok r' → event r r'.

(** Addresses that no outlet has any more *)
Definition dead (a : nat) (r : router) : Prop := a < next (hp r) ∧ a ∉ outlets r ≫= addrs.

Lemma rebuilt_writes ls url rest kept dropped new h h' o : outlets_ok h rest →
  rebuilt unescape ls url [] rest kept dropped new h h' →
  ((∀ a, a ∈ signals o → a < next h ∧ a ∉ rest ≫= addrs) ∨ (o ∈ rest ∧ o ∉ kept ++ new)) →
  same_signals o h h' ∧ ∀ a, a ∈ signals o → a < next h' ∧ a ∉ (kept ++ new) ≫= addrs.
Proof.
  intros Hok [Hr _ Hf _ _ _ _ Hn _] Ho.
  assert (∀ a, a ∈ signals o → a < next h ∧ a ∉ (kept ≫= addrs) ∧ a ∉ (dropped ≫= shared)) as Ha.
  { intros a Hin. destruct Ho as [Ho|[Hor Hok2]].
    - destruct (Ho a Hin) as [Hlt Hnot]. split; [done|]. rewrite Hr, addrs_app, elem_of_app in Hnot.
      split; intros Hin'; apply Hnot; [by left|right].
      by apply shared_addrs.
    - rewrite Hr in Hor. apply elem_of_app in Hor as [Hor|Hor]; [destruct Hok2; rewrite elem_of_app; by left|].
      apply list_elem_of_split in Hor as (d1&d2&->). rewrite Hr, app_assoc in Hok.
      pose proof (signals_shared _ _ _ _ Hok a Hin) as Hs. destruct (outlets_ok_at _ _ _ _ Hok) as (Hat&_&_&Hsa).
      destruct (Hat a (Hsa a Hin)) as (Hlt&H1&H2). rewrite addrs_app, elem_of_app in H1.
      split; [done|]. split; [intros ?; apply H1; by left|].
      rewrite bind_app, bind_cons, !elem_of_app. intros [?%shared_addrs|[?|?%shared_addrs]]; [apply H1; by right|done..]. }
  assert (∀ a, a ∈ signals o → a < next h ∧ a ∉ (kept ≫= addrs) ++ (rc_child <$> dropped)) as HW.
  { intros a Hin. destruct (Ha a Hin) as (Hlt&Hk&Hd). split; [done|]. rewrite elem_of_app. intros [?|Hc]; [done|].
    apply Hd. apply list_elem_of_fmap in Hc as (d&->&Hd'). apply list_elem_of_bind. exists d.
    split; [unfold shared; set_solver|done]. }
  simpl in Hf. assert (rc_url o ∈ signals o ∧ rc_params o ∈ signals o ∧ rc_matched o ∈ signals o) as (Hu&Hp&Hm)
    by (unfold signals; set_solver).
  split.
  - split_and!; [apply (fr_urls _ _ _ Hf)|apply (fr_params _ _ _ Hf)|apply (fr_matched _ _ _ Hf)]; by apply HW.
  - intros a Hin. destruct (Ha a Hin) as (Hlt&Hk&Hd). pose proof (fr_next _ _ _ Hf). split; [lia|].
    rewrite addrs_app, elem_of_app. intros [?|[?|?]%Hn]; [done|lia|done].
Qed.

Lemma rebuild_writes url url' r o : formed url r →
  ((∀ a, a ∈ signals o → dead a r) ∨ (o ∈ outlets r ∧ o ∉ outlets (navigated_router unescape routes url' r))) →
  same_signals o (hp r) (hp (navigated_router unescape routes url' r)) ∧
  ∀ a, a ∈ signals o → dead a (navigated_router unescape routes url' r).
Proof.
  intros Hf. destruct (decide (url_path url' = path r)) as [Hp|Hp].
  - rewrite rebuild_same by done.
    destruct (set_urls_spec url' (outlets r) (hp r)) as (Hn&Hpa&Hma&_&_&_&Hu).
    intros [Ho|[??]]; [|done]. split; [split_and!; simpl; rewrite ?Hpa, ?Hma; try done|].
    + apply Hu. intros (o'&Heq&Ho')%list_elem_of_fmap. destruct (Ho (rc_url o)) as [_ Hno]; [left|].
      apply Hno, list_elem_of_bind. exists o'. rewrite Heq. split; [unfold addrs; set_solver|done].
    + intros a Ha. destruct (Ho a Ha). split; [simpl; by rewrite Hn|done].
  - destruct (found_levels routes (url_path url')) as [ls|] eqn:Hm.
    + destruct (rebuild_outlets _ _ ids _ _ _ _ Hf Hm) as (kept&dropped&new&h'&Heq&Hr).
      destruct (rebuild_matched _ _ _ _ _ _ _ _ Hp Hm Heq) as (_&Hos&Hh&_&_). unfold dead. rewrite Hos, Hh.
      by apply (rebuilt_writes _ _ _ _ _ _ _ _ _ (fm_outlets _ _ _ _ Hf) Hr).
    + unfold navigated_router, rebuild_found. rewrite decide_False, Hm by done. intros Ho. split; [done|]. intros a Ha. split; simpl; [|set_solver].
      destruct Ho as [Ho|[Ho _]]; [by apply Ho|].
      destruct (fm_outlets _ _ _ _ Hf) as [_ Hl]. rewrite Forall_forall in Hl. apply Hl, list_elem_of_bind. exists o.
      split; [unfold addrs, signals in *; set_solver|done].
Qed.

Lemma event_writes r r' o : (∃ url, formed url r) → event r r' → (∀ a, a ∈ signals o → dead a r) →
  same_signals o (hp r) (hp r') ∧ (∀ a, a ∈ signals o → dead a r') ∧ ∃ url, formed url r'.
Proof.
  intros [url Hf] [r1 Hs|url' r1 Hb] Ho.
  - destruct (step_heap _ _ Hs) as (Hn&Hu&Hp&Hm). destruct (step_keeps _ _ Hs) as [_ Hos].
    split_and!; [| |exists url; by eapply step_formed].
    all: unfold same_signals, dead in *; by rewrite ?Hu, ?Hp, ?Hm, ?Hn, ?Hos.
  - apply rebuild_is in Hb as [-> _]. destruct (rebuild_writes url url' r o Hf) as [Hs Hd]; [by left|].
    split_and!; [done|done|]. exists url'. by eapply rebuild_formed.
Qed.

(** C29: A route that was left is left alone: whatever navigations follow and
    however its or their loads end, the signals that its view had for the URL, the
    parameters and the matched path are never set again. *)
Theorem left_routes_are_left_alone url url' r r1 r' o : reached url r → o ∈ outlets r →
  rebuild unescape routes url' r = Ok r1 → o ∉ outlets r1 → rtc event r1 r' →
  same_signals o (hp r) (hp r').
Proof.
  intros [Hf _]%reached_formed Ho [-> _]%rebuild_is Ho' Hev.
  destruct (rebuild_writes url url' r o Hf) as [Hsame Hdead]; [by right|].
  assert (∃ u, formed u (navigated_router unescape routes url' r)) as Hf' by (exists url'; by eapply rebuild_formed).
  revert Hsame Hdead Hf' Hev. generalize (navigated_router unescape routes url' r) as r1.
  intros r1 Hsame Hdead Hf' Hev. induction Hev as [r1|r1 r2 r3 He Hev IH]; [done|].
  destruct (event_writes _ _ o Hf' He Hdead) as ((H1&H2&H3)&Hdead'&Hf2).
  destruct Hsame as (H4&H5&H6). apply IH; [split_and!; congruence|done..].
Qed.

(** C31: Whatever way navigations and loads interleave, the signals of the outlets
    hold the URL, the parameters and the matched paths of the match of the current
    URL, one outlet for each of its levels, and nothing if no route matches. *)
Theorem signals_follow_the_url url r : reached url r →
  match match_levels routes (url_path url) with
  | Ok (Some ls) => values unescape (hp r) url (outlets r) ls
  | Ok None => outlets r = []
  | _ => False
  end.
Proof.
  intros [Hf Hok]%reached_formed. pose proof (fm_match _ _ _ _ Hf) as Hm. rewrite Hok.
  destruct (found_levels routes (url_path url)); [by apply Hm|done].
Qed.
End navigation.

(** A navigation comes to an end: after at most as many steps as it has
    preloads, and two for its tasks, nothing is left to do; and unless that is so,
    a step is possible.  So every run of steps that goes on as long as it can ends
    with a settled router. *)
Theorem navigations_finish r :
  (∀ n r', nsteps step n r r' → n + work r' ≤ work r) ∧
  (∀ r', rtc step r r' → settled r' ∨ ∃ r'', step r' r'') ∧
  ∃ r', rtc step r r' ∧ settled r'.
Proof.
  split_and!.
  - intros n r' Hn. induction Hn as [r|n r r1 r2 Hs _ IH]; [lia|]. apply step_work in Hs. lia.
  - intros r' _. destruct (decide (settled r')); [by left|right]. by apply unsettled_step.
  - induction r as [r IH] using (well_founded_induction (Wf_nat.well_founded_ltof _ work)).
    destruct (decide (settled r)) as [?|[r1 Hs]%unsettled_step]; [by exists r|].
    destruct (IH r1) as (r'&?&?); [by apply step_work|]. exists r'. split; [by eapply rtc_l|done].
Qed.

(** ** A router *)

(** Steps as a program runs them, if they are possible *)
Inductive act := APreload (k i : nat) | ALoads (k : nat) | ANavigation (k : nat).
Definition do_act (a : act) (r : router) : option router :=
  match a with
  | APreload k i =>
      nav ← navigations r !! k; t ← loads nav; _ ← loading t !! i; Some (finish_preload k i r)
  | ALoads k =>
      nav ← navigations r !! k; t ← loads nav;
      match loading t with [] => Some (finish_loads k r) | _ => None end
  | ANavigation k =>
      nav ← navigations r !! k;
      if completing nav && implb (full_loader nav) (bool_decide (loads nav = None))
      then Some (finish_navigation k r) else None
  end.
Fixpoint do_acts (l : list act) (r : router) : option router :=
  match l with [] => Some r | a :: l => r ← do_act a r; do_acts l r end.

Lemma do_act_step a r r' : do_act a r = Some r' → step r r'.
Proof.
  destruct a as [k i|k|k]; simpl; intros (nav&Hk&H)%bind_Some.
  - apply bind_Some in H as (t&Hl&(p&Hi&[= <-])%bind_Some). by econstructor.
  - apply bind_Some in H as (t&Hl&H). destruct (loading t) eqn:Ht; [|done]. injection H as <-. by econstructor.
  - destruct (completing nav) eqn:Hc; [|done]. destruct (implb _ _) eqn:Hi; [|done]. injection H as <-.
    econstructor; [done..|]. intros Hf. rewrite Hf in Hi. by apply bool_decide_eq_true in Hi.
Qed.
Lemma do_acts_rtc l r r' : do_acts l r = Some r' → rtc step r r'.
Proof.
  revert r. induction l as [|a l IH]; intros r; simpl; [by intros [= <-]|].
  intros (r1&Ha&Hl)%bind_Some. eapply rtc_l; [by eapply do_act_step|auto].
Qed.

Module OutletDemo.
Definition leaf (id : N) (s : string) : routes unit := RNode id (SStatic (lit s)) None ∅ OutOfOrder.
(** A list of users with a page for each, and other pages *)
Definition site : RouteDefs unit := mkRouteDefs None (RTuple [
  RNode 1 (SStatic (lit "users"))
    (Some (RTuple [RNode 2 (SParam (lit "id")) None ∅ OutOfOrder; leaf 3 ""])) ∅ OutOfOrder;
  leaf 4 "about"; leaf 5 "contact"; leaf 6 "help"]).
Definition at_path (p : string) : Url := mk_Url [] (lit p) [] [] [].
(** Percent decoding, of percent signs only *)
Fixpoint percent (s : str) : str :=
  match s with
  | "%"%char :: "2"%char :: "5"%char :: s => "%"%char :: percent s
  | c :: s => c :: percent s
  | [] => []
  end.
(** The router after something that does not panic *)
Definition the (x : outcome router) : router :=
  match x with Ok r => r | _ => mkRouter [] [] Empty None [] (mkHeap 0 ∅ ∅ ∅ ∅ ∅) 0 end.
Definition succeeds (x : outcome router) : bool := match x with Ok _ => true | _ => false end.
Lemma the_ok x : succeeds x = true → x = Ok (the x).
Proof. by destruct x. Qed.
Definition start (p : string) : router := the (hydrate percent site (at_path p)).
Definition go (p : string) (r : router) : router := the (rebuild percent site (at_path p) r).
Definition goes (p : string) (r : router) : bool := succeeds (rebuild percent site (at_path p) r).
Definition views (r : router) : list (option N) :=
  match show percent r with Shows l => (λ o : option seen, s_view <$> o) <$> l | _ => [] end.
Definition after (l : list act) (r : router) : router := default r (do_acts l r).

Lemma site_ids : unique_ids (rd_children site).
Proof. split; [apply (bool_decide_unpack _); by vm_compute|apply (bool_decide_unpack _); by vm_compute]. Qed.
End OutletDemo.
Import OutletDemo.

(** These steps complete what has begun. *)
Definition completes (l : list act) (r : router) : bool :=
  match do_acts l r with Some r' => bool_decide (settled r') | None => false end.
Lemma completes_settled l r : completes l r = true → rtc step r (after l r) ∧ settled (after l r).
Proof.
  unfold completes, after. destruct (do_acts l r) as [r'|] eqn:Hl; [|done].
  intros Hs%bool_decide_eq_true. split; [by eapply do_acts_rtc|done].
Qed.
Lemma demo_navigates l p r : goes p r = true → completes l (go p r) = true →
  navigates percent site (at_path p) r (after l (go p r)).
Proof. intros Hg%the_ok [Hs Hst]%completes_settled. by econstructor. Qed.
Lemma demo_visit l url r p : visited percent site url r → goes p r = true → completes l (go p r) = true →
  visited percent site (at_path p) (after l (go p r)).
Proof. intros Hv Hg Hc. eapply visited_next; [exact Hv|by apply demo_navigates]. Qed.
Lemma demo_start p : succeeds (hydrate percent site (at_path p)) = true → hydrate percent site (at_path p) = Ok (start p).
Proof. apply the_ok. Qed.

(** From a user to the next one, whose page is the same route with other
    parameters, and then elsewhere *)
Definition user_7 : router := start "/users/7".
Definition user_8 : router := after [ALoads 0; ANavigation 0] (go "/users/8" user_7).
Definition list_of_users : router := after [APreload 1 0; ALoads 1; ANavigation 1] (go "/users" user_8).
Lemma visited_user_8 : visited percent site (at_path "/users/8") user_8.
Proof.
  eapply demo_visit; [apply visited_hydrate; eapply (demo_start "/users/7")|..]; by vm_compute.
Qed.

Lemma page_shows_the_match_witness :
  unique_ids (rd_children site) ∧ visited percent site (at_path "/users/8") user_8 ∧
  (∃ l, show percent user_8 = Shows (Some <$> l) ∧
     sees_levels percent (at_path "/users/8") [] (default [] (found_levels site (lit "/users/8"))) l) ∧
  ∃ s1 s2, show percent user_8 = Shows [Some s1; Some s2] ∧
    params_get (s_params s1) (lit "id") = Some (lit "8") ∧ params_get (s_params s2) (lit "id") = Some (lit "8") ∧
    s_matched s2 = lit "/users/8".
Proof.
  pose proof (page_shows_the_match percent site site_ids (at_path "/users/8") user_8 visited_user_8) as Hp.
  split; [exact site_ids|]. split; [exact visited_user_8|]. split.
  - unfold page_is in Hp.
    assert (match_levels site (url_path (at_path "/users/8")) =
      Ok (Some (default [] (found_levels site (lit "/users/8"))))) as Hm by by vm_compute.
    rewrite Hm in Hp. apply Hp.
    assert (Forall (λ l, Forall (λ kv, percent (percent kv.2) = percent kv.2) (l_params l))
      (default [] (found_levels site (lit "/users/8")))) as Hf by (apply (bool_decide_unpack _); by vm_compute).
    intros l k v Hl Hkv. rewrite Forall_forall in Hf. specialize (Hf l Hl). rewrite Forall_forall in Hf.
    exact (Hf (k, v) Hkv).
  - eexists _, _. split; [by vm_compute|]. by vm_compute.
Defined.

Definition levels_at (p : string) : list level := default [] (found_levels site (lit p)).
Definition outlets_shown (r : router) : list rendered := match view r with Outlets l => l | _ => [] end.
Lemma common_routes_stay_witness :
  match_levels site (lit "/users/8") = Ok (Some (levels_at "/users/8")) ∧
  match_levels site (lit "/users") = Ok (Some (levels_at "/users")) ∧
  1 ≤ length (levels_at "/users/8") ∧
  take 1 (l_id <$> levels_at "/users/8") = take 1 (l_id <$> levels_at "/users") ∧
  view user_8 = Outlets (outlets_shown user_8) ∧
  ∃ l', view list_of_users = Outlets l' ∧ take 1 l' = take 1 (outlets_shown user_8).
Proof.
  assert (navigates percent site (at_path "/users") user_8 list_of_users) as Hn.
  { exact (demo_navigates [APreload 1 0; ALoads 1; ANavigation 1] "/users" user_8 eq_refl eq_refl). }
  assert (match_levels site (lit "/users/8") = Ok (Some (levels_at "/users/8"))) as H1 by by vm_compute.
  assert (match_levels site (lit "/users") = Ok (Some (levels_at "/users"))) as H2 by by vm_compute.
  assert (1 ≤ length (levels_at "/users/8")) as H3 by (apply (bool_decide_unpack _); by vm_compute).
  assert (take 1 (l_id <$> levels_at "/users/8") = take 1 (l_id <$> levels_at "/users")) as H4 by by vm_compute.
  assert (view user_8 = Outlets (outlets_shown user_8)) as H5 by by vm_compute.
  split_and!; [exact H1|exact H2|exact H3|exact H4|exact H5|].
  exact (common_routes_stay percent site site_ids (at_path "/users/8") (at_path "/users") user_8 list_of_users
    _ _ 1 _ visited_user_8 Hn H1 H2 H3 H4 H5).
Defined.

Definition outlet_at (i : nat) (r : router) : RouteContext :=
  default (mkContext 0 0 0 0 0 0 0) (outlets r !! i).
Definition left_user : router := go "/users" user_8.
Definition then_help : router := go "/help" left_user.
Lemma reached_rtc url r r' : rtc step r r' → reached percent site url r → reached percent site url r'.
Proof. induction 1 as [|r r1 r2 Hs _ IH]; [done|]. intros Hr. apply IH. by eapply reached_step. Qed.
Lemma demo_reached p url r : reached percent site url r → goes p r = true → reached percent site (at_path p) (go p r).
Proof. intros Hr Hg%the_ok. by eapply reached_rebuild. Qed.
Lemma demo_reached_start p : succeeds (hydrate percent site (at_path p)) = true → reached percent site (at_path p) (start p).
Proof. intros H%the_ok. by apply reached_hydrate. Qed.
Lemma reached_user_8 : reached percent site (at_path "/users/8") user_8.
Proof.
  assert (completes [ALoads 0; ANavigation 0] (go "/users/8" user_7) = true) as Hc by by vm_compute.
  apply (reached_rtc _ _ _ (proj1 (completes_settled _ _ Hc))).
  eapply demo_reached; [apply (demo_reached_start "/users/7")|]; by vm_compute.
Qed.
Lemma left_user_event : event percent site left_user then_help.
Proof. apply (event_navigate percent site left_user (at_path "/help")), the_ok. by vm_compute. Qed.
Lemma left_user_ok : rebuild percent site (at_path "/users") user_8 = Ok left_user.
Proof. apply the_ok. by vm_compute. Qed.

Lemma left_routes_are_left_alone_witness :
  outlet_at 1 user_8 ∈ outlets user_8 ∧ outlet_at 1 user_8 ∉ outlets left_user ∧
  same_signals (outlet_at 1 user_8) (hp user_8) (hp then_help).
Proof.
  assert (outlet_at 1 user_8 ∈ outlets user_8) as H1 by (apply list_elem_of_lookup; exists 1; by vm_compute).
  assert (outlet_at 1 user_8 ∉ outlets left_user) as H2.
  { assert (Forall (λ o, rc_url o ≠ rc_url (outlet_at 1 user_8)) (outlets left_user)) as Hf
      by (apply (bool_decide_unpack _); by vm_compute).
    intros Hin. rewrite Forall_forall in Hf. by destruct (Hf _ Hin). }
  split; [exact H1|]. split; [exact H2|].
  exact (left_routes_are_left_alone percent site site_ids (at_path "/users/8") (at_path "/users") user_8 left_user then_help
    (outlet_at 1 user_8) reached_user_8 H1 left_user_ok H2 (rtc_once _ _ left_user_event)).
Defined.

Lemma signals_follow_the_url_witness :
  let r := go "/users" (go "/users/7" (start "/about")) in
  match match_levels site (lit "/users") with
  | Ok (Some ls) => values percent (hp r) (at_path "/users") (outlets r) ls
  | Ok None => outlets r = []
  | _ => False
  end.
Proof.
  assert (reached percent site (at_path "/users") (go "/users" (go "/users/7" (start "/about")))) as Hr.
  { eapply demo_reached; [eapply demo_reached; [apply (demo_reached_start "/about")|]|]; by vm_compute. }
  exact (signals_follow_the_url percent site site_ids _ _ Hr).
Defined.

(** ** What loads that are under way do *)

(** A view that is still loading is lost if meanwhile the same route is visited
    with other parameters: the new navigation aborts the load, and begins none. *)
Theorem second_visit_loses_the_view :
  let r := after [ALoads 1; ANavigation 1; ANavigation 0] (go "/users/8" (go "/users/7" (start "/about"))) in
  settled r ∧ rc_id <$> outlets r = [1%N; 2%N] ∧ views r = [Some 4%N].
Proof. split_and!; [apply (bool_decide_unpack _)|..]; by vm_compute. Qed.

(** The first load is not aborted by a navigation to an unknown URL, and replaces
    its fallback in the end. *)
Theorem first_view_replaces_the_fallback :
  let r := go "/nope" (the (build percent site (at_path "/about"))) in
  view r = Fallback ∧ outlets (after [APreload 0 0; ALoads 0] r) = [] ∧
  settled (after [APreload 0 0; ALoads 0] r) ∧ views (after [APreload 0 0; ALoads 0] r) = [Some 4%N].
Proof. split_and!; [|..]; try (apply (bool_decide_unpack _)); by vm_compute. Qed.

(** The task of an aborted navigation drops the handle of the next one, which then
    is not aborted by the one after: its view arrives late, and stays. *)
Theorem late_view_is_shown :
  let r := go "/help" (after [ANavigation 0] (go "/contact" (go "/about" (start "/users")))) in
  let loads := [APreload 2 0; ALoads 2; ANavigation 2; APreload 1 0; ALoads 1; ANavigation 1] in
  completes loads r = true ∧ rc_id <$> outlets (after loads r) = [6%N] ∧ views (after loads r) = [Some 5%N].
Proof. split_and!; by vm_compute. Qed.

(** A parameter is decoded for the signal of its level and again for the view; and
    as the parameters of a level contain those of the levels below, the view of the
    second level gets it twice. *)
Theorem params_are_decoded_twice :
  params (hp (start "/users/%2525")) !! rc_params (outlet_at 1 (start "/users/%2525")) =
    Some (collect_params percent [(lit "id", lit "%2525")]) ∧
  match show percent (start "/users/%2525") with
  | Shows [_; Some s] => params_into_iter (s_params s) = [(lit "id", lit "%"); (lit "id", lit "%")]
  | _ => False
  end.
Proof. split; by vm_compute. Qed.
