(* ===== verification/ErrorBoundary.v ===== *)
(** * Error boundaries

    [throw_error] of [any_error/src/lib.rs], the view of a [Result] of
    [tachys/src/view/error_boundary.rs], closures as views
    ([tachys/src/reactive_graph/mod.rs]), and the [ErrorBoundary] of
    [leptos/src/error_boundary.rs]: an [Err] in a view is thrown to the hook of the
    nearest boundary, which shows its fallback as long as it has errors.  Views
    are made of texts, pairs, closures that read a signal with a [Result], and
    boundaries; the fallback shows the errors of its boundary.  Where nodes are
    put in the document is left to [Views]. *)

From Stdlib Require Import Ascii.
From stdpp Require Import base gmap list.
From S2P Require Import Prelude RustStr Html.

(** [ErrorId]; the default is the one without a shared context *)
Abbreviation ErrorId := (option N).

Section errors.
(** [throw_error::Error] *)
Context {E : Type}.

(** ** Hooks *)

(** The thread-local [ERROR_HOOK], the errors of every [ErrorBoundaryErrorHook],
    and the counter of the shared context, if there is one *)
Record store := mkStore {
  ERROR_HOOK : option nat;
  errors : gmap nat (gmap ErrorId E);
  next_hook : nat;
  shared_context : option N;
}.
Abbreviation EM := (stateM store).

Definition set_slot (h : option nat) (s : store) : store :=
  mkStore h (errors s) (next_hook s) (shared_context s).
Definition set_errors (m : gmap nat (gmap ErrorId E)) (s : store) : store :=
  mkStore (ERROR_HOOK s) m (next_hook s) (shared_context s).

Definition get_error_hook : EM (option nat) := gets ERROR_HOOK.
(** The hook as long as the [ResetErrorHookOnDrop] lives *)
Definition with_slot {A} (h : option nat) (m : EM A) : EM A :=
  prev ← get_error_hook; _ ← modify (set_slot h); a ← m; _ ← modify (set_slot prev); mret a.
Definition set_error_hook {A} (h : nat) (m : EM A) : EM A := with_slot (Some h) m.
(** [hook.map(set_error_hook)] *)
Definition guarded {A} (hook : option nat) (m : EM A) : EM A :=
  match hook with Some h => set_error_hook h m | None => m end.
(** [ErrorHookFuture::poll] *)
Definition ErrorHookFuture_poll {A} (hook : option nat) (inner : EM A) : EM A := with_slot hook inner.

(** [ErrorBoundaryErrorHook] *)
Definition ErrorBoundaryErrorHook_new (initial : list (ErrorId * E)) : EM nat :=
  h ← gets next_hook;
  _ ← modify (λ s, mkStore (ERROR_HOOK s) (<[h := list_to_map initial]> (errors s)) (S h) (shared_context s));
  mret h.
Definition next_key : EM ErrorId :=
  sc ← gets shared_context;
  match sc with
  | Some n => _ ← modify (λ s, mkStore (ERROR_HOOK s) (errors s) (next_hook s) (Some (n + 1)%N)); mret (Some n)
  | None => mret None
  end.
Definition hook_throw (h : nat) (e : E) : EM ErrorId :=
  key ← next_key; _ ← modify (λ s, set_errors (alter <[key := e]> h (errors s)) s); mret key.
Definition hook_clear (h : nat) (id : ErrorId) : EM unit :=
  modify (λ s, set_errors (alter (delete id) h (errors s)) s).

Definition throw (e : E) : EM ErrorId :=
  h ← get_error_hook; match h with Some h => hook_throw h e | None => mret None end.
Definition clear (id : ErrorId) : EM unit :=
  h ← get_error_hook; match h with Some h => hook_clear h id | None => mret tt end.
Definition clear_error (error : option ErrorId) : EM unit :=
  match error with Some id => clear id | None => mret tt end.

(** ** Views *)

(** The values of the signals *)
Inductive result := ROk (n : nat) | RErr (e : E).
Inductive view :=
| VText (n : nat)
| VPair (a b : view)
| VResult (i : nat) (ok : view)
| VBoundary (children : view).

(** What is retained: of a closure its hook, and the [ResultState] within, with
    the view of an [Ok] or the marker of an [Err] *)
Inductive vstate :=
| SText (n : nat)
| SPair (a b : vstate)
| SOk (i : nat) (hook : option nat) (n : nat) (state : vstate) (error : option ErrorId) (rhook : option nat)
| SErr (i : nat) (hook : option nat) (error : option ErrorId) (rhook : option nat)
| SBoundary (hook : nat) (children : vstate) (fallback : bool).

Definition has_errors (h : nat) : EM bool :=
  gets (λ s, bool_decide (default ∅ (errors s !! h) ≠ ∅)).

Section env.
Variable env : nat → result.

Fixpoint build (v : view) : EM vstate :=
  match v with
  | VText n => mret (SText n)
  | VPair a b => a ← build a; b ← build b; mret (SPair a b)
  | VResult i ok =>
      hook ← get_error_hook;
      guarded hook
        (rhook ← get_error_hook;
         match env i with
         | ROk n => s ← build ok; mret (SOk i hook n s None rhook)
         | RErr e => id ← throw e; mret (SErr i hook (Some id) rhook)
         end)
  | VBoundary children =>
      hook ← ErrorBoundaryErrorHook_new [];
      set_error_hook hook
        (children ← build children; fallback ← has_errors hook; mret (SBoundary hook children fallback))
  end.

(** Dropping a state: an error that it holds is cleared in the current hook. *)
Fixpoint drop (st : vstate) : EM unit :=
  match st with
  | SText _ => mret tt
  | SPair a b => _ ← drop a; drop b
  | SOk _ _ _ s error _ => _ ← clear_error error; drop s
  | SErr _ _ error _ => clear_error error
  | SBoundary _ children _ => drop children
  end.

(** [Render::rebuild]; closures and boundaries are built anew. *)
Fixpoint rebuild (v : view) (st : vstate) : EM vstate :=
  match v, st with
  | VText n, SText _ => mret (SText n)
  | VPair a b, SPair sa sb => sa ← rebuild a sa; sb ← rebuild b sb; mret (SPair sa sb)
  | VResult _ _, (SOk _ _ _ _ _ _ | SErr _ _ _ _)
  | VBoundary _, SBoundary _ _ _ => new ← build v; _ ← drop st; mret new
  | _, _ => panics
  end.

(** [Render::rebuild] of a [Result], when the effect of its closure runs again *)
Definition result_rebuild (i : nat) (ok : view) (st : vstate) : EM vstate :=
  match st with
  | SOk _ hook _ old error rhook =>
      guarded hook (guarded rhook
        match env i with
        | ROk n => s ← rebuild ok old; mret (SOk i hook n s error rhook)
        | RErr e => _ ← drop old; id ← throw e; mret (SErr i hook (Some id) rhook)
        end)
  | SErr _ hook error rhook =>
      guarded hook (guarded rhook
        (_ ← clear_error error;
         match env i with
         | ROk n => s ← build ok; mret (SOk i hook n s None rhook)
         | RErr e => id ← throw e; mret (SErr i hook (Some id) rhook)
         end))
  | _ => panics
  end.

(** Signal [i] was set: the closures that read it run again. *)
Fixpoint update (i : nat) (v : view) (st : vstate) : EM vstate :=
  match v, st with
  | VPair a b, SPair sa sb => sa ← update i a sa; sb ← update i b sb; mret (SPair sa sb)
  | VResult j ok, SOk _ hook n s error rhook =>
      if decide (j = i) then result_rebuild j ok st
      else s ← update i ok s; mret (SOk j hook n s error rhook)
  | VResult j ok, SErr _ _ _ _ => if decide (j = i) then result_rebuild j ok st else mret st
  | VBoundary children, SBoundary h s fallback => s ← update i children s; mret (SBoundary h s fallback)
  | _, _ => mret st
  end.
End env.

(** The effect of a boundary runs again, for all boundaries. *)
Fixpoint flush (st : vstate) : EM vstate :=
  match st with
  | SText _ | SErr _ _ _ _ => mret st
  | SPair a b => a ← flush a; b ← flush b; mret (SPair a b)
  | SOk i hook n s error rhook => s ← flush s; mret (SOk i hook n s error rhook)
  | SBoundary h s fallback =>
      some ← has_errors h;
      let fallback := match some, fallback with
                      | false, true => false
                      | true, false => true
                      | _, b => b
                      end in
      s ← flush s; mret (SBoundary h s fallback)
  end.

(** ** What is shown *)

Inductive item := Text (n : nat) | Fallback (l : list E).

Fixpoint shown (m : gmap nat (gmap ErrorId E)) (st : vstate) : list item :=
  match st with
  | SText n => [Text n]
  | SPair a b => shown m a ++ shown m b
  | SOk _ _ n s _ _ => Text n :: shown m s
  | SErr _ _ _ _ => []
  | SBoundary h s fallback =>
      if fallback then [Fallback (map_to_list (default ∅ (m !! h))).*2] else shown m s
  end.

(** A page: a signal is set, or the effects of the boundaries run. *)
Inductive event := Set_ (i : nat) (r : result) | Flush.
Definition page : Type := (nat → result) * vstate.
Definition on_event (v : view) (e : event) (p : page) : EM page :=
  match e with
  | Set_ i r =>
      let env := λ j, if decide (j = i) then r else p.1 j in
      st ← update env i v p.2; mret (env, st)
  | Flush => st ← flush p.2; mret (p.1, st)
  end.
Fixpoint on_events (v : view) (es : list event) (p : page) : EM page :=
  match es with
  | [] => mret p
  | e :: es => p ← on_event v e p; on_events v es p
  end.
Definition run (v : view) (env : nat → result) (es : list event) : EM page :=
  st ← build env v; p ← on_events v es (env, st); on_event v Flush p.

(** In the browser and on the server there is a shared context, unless the page is
    rendered in the browser alone. *)
Definition start (shared : bool) : store := mkStore None ∅ 0 (if shared then Some 0%N else None).

(** ** What should be shown *)

Fixpoint errors_below (env : nat → result) (v : view) : list E :=
  match v with
  | VText _ | VBoundary _ => []
  | VPair a b => errors_below env a ++ errors_below env b
  | VResult i ok => match env i with ROk _ => errors_below env ok | RErr e => [e] end
  end.
Fixpoint expected (env : nat → result) (v : view) : list item :=
  match v with
  | VText n => [Text n]
  | VPair a b => expected env a ++ expected env b
  | VResult i ok => match env i with ROk n => Text n :: expected env ok | RErr _ => [] end
  | VBoundary children =>
      match errors_below env children with [] => expected env children | l => [Fallback l] end
  end.
End errors.
Arguments store : clear implicits.
Arguments result : clear implicits.
Arguments event : clear implicits.
Arguments item : clear implicits.

Abbreviation printer := (str → Html.Position → Html.RenderFlags → str * Html.Position).

(** [RenderHtml::to_html_with_buf] of the view of a boundary: the children are
    printed, and the fallback in their place if they threw. *)
Definition boundary_to_html (children fallback : printer) (errors_empty : bool) : printer :=
  λ buf position flags,
    let marker := length buf in
    let (buf, _) := children buf position flags in
    if errors_empty then (buf, position)
    else fallback (take marker buf) position flags.
