(* ===== verification/ErrorFacts.v ===== *)
(** * What errors do to the maps of their boundaries

    Building, dropping and rebuilding a view changes the errors of the current
    boundary by those of the view ([effect]), and leaves those of other boundaries
    alone.  [good] says that the retained state fits the view, and that every
    boundary in it has the errors directly below it. *)

From Stdlib Require Import Ascii.
From stdpp Require Import base gmap list.
From S2P Require Import Prelude ErrorBoundary.

Section facts.
Context {E : Type}.
Implicit Types (s : store E) (st : vstate) (env : nat → result E).

(** ** Stores *)

Definition look s (h : nat) (k : ErrorId) : option E := m ← errors s !! h; m !! k.
Definition nid s : N := default 0%N (shared_context s).

Record sinv s : Prop := {
  si_hooks h : is_Some (errors s !! h) ↔ h < next_hook s;
  si_shared : is_Some (shared_context s);
  si_keys h k e : look s h k = Some e → ∃ m, k = Some m ∧ (m < nid s)%N;
}.
Definition grows s s' : Prop := next_hook s ≤ next_hook s' ∧ (nid s ≤ nid s')%N.

(** The current hook loses the keys [ks] and gets [adds]; of the hooks that were
    there before, only those of [hs] may change besides. *)
Definition effect (a : option nat) (ks : list ErrorId) (hs : list nat) (adds : list (ErrorId * E)) s s' : Prop :=
  (∀ h, a = Some h → ∀ k e, look s' h k = Some e ↔ (look s h k = Some e ∧ k ∉ ks) ∨ (k, e) ∈ adds) ∧
  (∀ h, h < next_hook s → h ∉ hs → a ≠ Some h → ∀ k, look s' h k = look s h k).

Lemma effect_compose a ks ks' hs hs' adds adds' s s1 s2 :
  effect a ks hs adds s s1 → effect a ks' hs' adds' s1 s2 → next_hook s ≤ next_hook s1 →
  (∀ k e, is_Some a → (k, e) ∈ adds → k ∉ ks') →
  effect a (ks ++ ks') (hs ++ hs') (adds ++ adds') s s2.
Proof.
  intros [H1 H2] [H3 H4] Hn Hk. split.
  - intros h Ha k e. rewrite H3, H1 by done. rewrite !elem_of_app. specialize (Hk k e). rewrite Ha in Hk.
    specialize (Hk (ex_intro _ h eq_refl)). tauto.
  - intros h Hh Hin Ha k. rewrite elem_of_app in Hin. rewrite H4, H2 by (lia || tauto). done.
Qed.

(** ** States *)

Fixpoint ids_of (st : vstate) : list N :=
  match st with
  | SText _ => []
  | SPair a b => ids_of a ++ ids_of b
  | SOk _ _ _ s _ _ => ids_of s
  | SErr _ _ error _ => match error with Some (Some m) => [m] | _ => [] end
  | SBoundary _ s _ => ids_of s
  end.
(** All the errors that a drop clears *)
Fixpoint dropped (st : vstate) : list ErrorId :=
  match st with
  | SText _ => []
  | SPair a b => dropped a ++ dropped b
  | SOk _ _ _ s error _ => match error with Some k => [k] | None => [] end ++ dropped s
  | SErr _ _ error _ => match error with Some k => [k] | None => [] end
  | SBoundary _ s _ => dropped s
  end.
Fixpoint hooks_of (st : vstate) : list nat :=
  match st with
  | SText _ | SErr _ _ _ _ => []
  | SPair a b => hooks_of a ++ hooks_of b
  | SOk _ _ _ s _ _ => hooks_of s
  | SBoundary h s _ => h :: hooks_of s
  end.
(** The errors with no boundary in between *)
Fixpoint direct env (st : vstate) : list (ErrorId * E) :=
  match st with
  | SText _ | SBoundary _ _ _ => []
  | SPair a b => direct env a ++ direct env b
  | SOk _ _ _ s _ _ => direct env s
  | SErr i _ error _ => match error, env i with Some k, RErr e => [(k, e)] | _, _ => [] end
  end.

(** The state of a view below the boundary [a] *)
Fixpoint wf env (a : option nat) (v : view) (st : vstate) : Prop :=
  match v, st with
  | VText n, SText m => m = n
  | VPair v w, SPair sa sb => wf env a v sa ∧ wf env a w sb
  | VResult i ok, SOk j hook n s error rhook =>
      j = i ∧ hook = a ∧ rhook = a ∧ error = None ∧ env i = ROk n ∧ wf env a ok s
  | VResult i _, SErr j hook error rhook =>
      j = i ∧ hook = a ∧ rhook = a ∧ (∃ e, env i = RErr e) ∧
      ∃ k, error = Some k ∧ (is_Some a → is_Some k)
  | VBoundary v, SBoundary h s _ => wf env (Some h) v s
  | _, _ => False
  end.
Fixpoint holds env (st : vstate) s : Prop :=
  match st with
  | SText _ | SErr _ _ _ _ => True
  | SPair a b => holds env a s ∧ holds env b s
  | SOk _ _ _ st _ _ => holds env st s
  | SBoundary h st _ => (∀ k e, look s h k = Some e ↔ (k, e) ∈ direct env st) ∧ holds env st s
  end.

Lemma holds_frame env st s s' : (∀ h k, h ∈ hooks_of st → look s' h k = look s h k) →
  holds env st s → holds env st s'.
Proof.
  induction st as [n|st1 IH1 st2 IH2|i hk n st IH er rk|i hk er rk|h st IH fb]; simpl; intros Hl; try done.
  - intros [H1 H2]. split; [apply IH1|apply IH2]; try done; intros; apply Hl; set_solver.
  - by apply IH.
  - intros [H1 H2]. split; [|apply IH; [|done]; intros; apply Hl; set_solver].
    intros k e. rewrite Hl by set_solver. apply H1.
Qed.

Record good env (a : option nat) (v : view) (st : vstate) s : Prop := {
  g_wf : wf env a v st;
  g_holds : holds env st s;
  g_ids : NoDup (ids_of st) ∧ Forall (λ m, (m < nid s)%N) (ids_of st);
  g_hooks : NoDup (hooks_of st) ∧ Forall (λ h, h < next_hook s) (hooks_of st);
  g_outer h : a = Some h → h ∉ hooks_of st ∧ h < next_hook s;
}.

(** What is new *)
Definition fresh st s s' : Prop :=
  Forall (λ m, (nid s ≤ m)%N) (ids_of st) ∧ Forall (λ h, next_hook s ≤ h) (hooks_of st).

(** Two parts of a state do not share anything. *)
Definition apart st st' : Prop :=
  (∀ m, m ∈ ids_of st → m ∉ ids_of st') ∧ (∀ h, h ∈ hooks_of st → h ∉ hooks_of st').

Lemma direct_dropped env st k e : (k, e) ∈ direct env st → k ∈ dropped st.
Proof.
  induction st as [n|st1 IH1 st2 IH2|i hk n st IH er rk|i hk er rk|h st IH fb]; simpl; rewrite ?elem_of_app;
    try set_solver.
  destruct er, (env i); set_solver.
Qed.
Lemma dropped_ids st m : Some m ∈ dropped st → ∀ env a v, wf env a v st → m ∈ ids_of st.
Proof.
  intros Hm env a v. revert a v. induction st as [n|st1 IH1 st2 IH2|i hk n st IH er rk|i hk er rk|h st IH fb];
    intros a [|v w|j v|v]; simpl in *; try done.
  - set_solver.
  - intros [??]. rewrite elem_of_app. apply elem_of_app in Hm as [?|?]; [left|right]; eauto.
  - intros (_&_&_&->&_&Hw). eauto.
  - intros (_&_&_&_&k&->&_). apply list_elem_of_singleton in Hm as <-. set_solver.
  - intros Hw. eauto.
Qed.

(** ** Throwing and clearing *)

Definition slot_ok (a : option nat) s : Prop := ERROR_HOOK s = a ∧ ∀ h, a = Some h → h < next_hook s.

Lemma look_set_slot a s h k : look (set_slot a s) h k = look s h k.
Proof. done. Qed.
Lemma sinv_set_slot a s : sinv s → sinv (set_slot a s).
Proof. intros []. by split. Qed.
Lemma set_slot_slot a b s : set_slot a (set_slot b s) = set_slot a s.
Proof. done. Qed.
Lemma set_slot_same s : set_slot (ERROR_HOOK s) s = s.
Proof. by destruct s. Qed.
Lemma grows_refl s : grows s s.
Proof. split; lia. Qed.
Lemma grows_trans s s1 s2 : grows s s1 → grows s1 s2 → grows s s2.
Proof. intros [] []. split; lia. Qed.
Lemma effect_set_slot a ks hs adds b c s s' :
  effect a ks hs adds (set_slot b s) s' → effect a ks hs adds s (set_slot c s').
Proof. done. Qed.

Lemma look_alter f h s h' k : look (set_errors (alter f h (errors s)) s) h' k =
  if decide (h' = h) then m ← errors s !! h; f m !! k else look s h' k.
Proof.
  unfold look. simpl. destruct (decide (h' = h)) as [->|].
  - rewrite lookup_alter_eq. by destruct (errors s !! h).
  - by rewrite lookup_alter_ne.
Qed.
Lemma sinv_alter f h s : sinv s →
  (∀ m k e, errors s !! h = Some m → f m !! k = Some e → ∃ n, k = Some n ∧ (n < nid s)%N) →
  sinv (set_errors (alter f h (errors s)) s).
Proof.
  intros [H1 H2 H3] Hf. split; [|done|].
  - intros h'. simpl. rewrite <- H1. destruct (decide (h' = h)) as [->|].
    + rewrite lookup_alter_eq. by rewrite fmap_is_Some.
    + by rewrite lookup_alter_ne.
  - intros h' k e. rewrite look_alter. destruct (decide (h' = h)) as [->|]; [|by apply H3].
    intros (m&Hm&Hk)%bind_Some. by eapply Hf.
Qed.

Lemma throw_ok a e s : sinv s → slot_ok a s →
  ∃ k s', throw e s = Ok (k, s') ∧ sinv s' ∧ ERROR_HOOK s' = a ∧ grows s s' ∧ effect a [] [] [(k, e)] s s' ∧
    (is_Some a → ∃ m, k = Some m ∧ (nid s ≤ m < nid s')%N) ∧ (a = None → k = None).
Proof.
  intros Hs [Ha Hlt]. unfold throw, get_error_hook. unfold mbind, stateM_bind, gets. rewrite Ha.
  destruct a as [h|].
  - destruct (si_shared _ Hs) as [n Hn]. specialize (Hlt h eq_refl).
    unfold hook_throw, next_key, mbind, stateM_bind, gets. rewrite Hn. cbn.
    set (s1 := mkStore (ERROR_HOOK s) (errors s) (next_hook s) (Some (n + 1)%N)).
    assert (nid s = n) as Hnid by (unfold nid; by rewrite Hn).
    assert (nid s1 = n + 1)%N as Hnid1 by done.
    assert (sinv s1) as Hs1.
    { destruct Hs as [H1 H2 H3]. split; [exact H1|done|]. intros h' k e' Hl. destruct (H3 h' k e' Hl) as (m&->&?).
      exists m. split; [done|]. lia. }
    eexists _, _. split; [reflexivity|].
    change (sinv (set_errors (alter <[Some n:=e]> h (errors s1)) s1) ∧ ERROR_HOOK s = Some h ∧
      grows s (set_errors (alter <[Some n:=e]> h (errors s1)) s1) ∧
      effect (Some h) [] [] [(Some n, e)] s (set_errors (alter <[Some n:=e]> h (errors s1)) s1) ∧
      (is_Some (Some h) → ∃ m, Some n = Some m ∧ (nid s ≤ m < nid s1)%N) ∧ (Some h = None → Some n = None)).
    assert (look s h (Some n) = None) as Hnone.
    { destruct (look s h (Some n)) as [e'|] eqn:Hl; [|done]. apply (si_keys _ Hs) in Hl as (m&[= <-]&?). lia. }
    split_and!.
    + apply sinv_alter; [done|]. intros m k e' Hm. rewrite lookup_insert_Some. intros [[<- _]|[_ Hk]].
      * exists n. split; [done|]. lia.
      * apply (si_keys _ Hs1 h k e'). unfold look. by rewrite Hm.
    + done.
    + split; simpl; [lia|]. change (nid (set_errors _ s1)) with (nid s1). lia.
    + split.
      * intros h' [= <-] k e'. rewrite look_alter, decide_True by done. rewrite list_elem_of_singleton.
        destruct (proj2 (si_hooks _ Hs1 h) Hlt) as [m Hm]. rewrite Hm. simpl.
        assert (look s h k = m !! k) as Hl by (unfold look; change (errors s) with (errors s1); by rewrite Hm).
        destruct (decide (k = Some n)) as [->|Hk].
        -- rewrite lookup_insert_eq, Hnone. naive_solver.
        -- rewrite lookup_insert_ne by done. rewrite Hl. set_solver.
      * intros h' _ _ Hh k. rewrite look_alter, decide_False by congruence. done.
    + intros _. exists n. split; [done|]. lia.
    + done.
  - by exists None, s.
Qed.

Lemma clear_ok a k s : sinv s → slot_ok a s →
  ∃ s', clear k s = Ok (tt, s') ∧ sinv s' ∧ ERROR_HOOK s' = a ∧ next_hook s' = next_hook s ∧ nid s' = nid s ∧
    effect a [k] [] [] s s'.
Proof.
  intros Hs [Ha Hlt]. unfold clear, get_error_hook, mbind, stateM_bind, gets. rewrite Ha. destruct a as [h|].
  - unfold hook_clear, modify. eexists. split; [reflexivity|]. split_and!; try done.
    + apply sinv_alter; [done|]. intros m k' e Hm. rewrite lookup_delete_Some. intros [_ Hk].
      apply (si_keys _ Hs h k' e). unfold look. by rewrite Hm.
    + split.
      * intros h' [= <-] k' e. rewrite look_alter, decide_True by done. unfold look.
        destruct (errors s !! h) as [m|]; simpl; [|set_solver]. rewrite lookup_delete_Some. set_solver.
      * intros h' _ _ Hh k'. rewrite look_alter, decide_False by congruence. done.
  - exists s. by split_and!.
Qed.

Lemma slot_ok_next a s s' : slot_ok a s → ERROR_HOOK s' = a → next_hook s ≤ next_hook s' → slot_ok a s'.
Proof. intros [_ Hl] Ha Hn. split; [done|]. intros h Hh. specialize (Hl h Hh). lia. Qed.
Lemma effect_nil a s : effect a [] [] [] s s.
Proof. split; [|done]. intros h _ k e. set_solver. Qed.

Lemma drop_ok a st s : sinv s → slot_ok a s →
  ∃ s', drop st s = Ok (tt, s') ∧ sinv s' ∧ ERROR_HOOK s' = a ∧ next_hook s' = next_hook s ∧ nid s' = nid s ∧
    effect a (dropped st) [] [] s s'.
Proof.
  revert s. induction st as [n|st1 IH1 st2 IH2|i hk n st IH er rk|i hk er rk|h st IH fb]; intros s Hs Ha.
  - exists s. destruct Ha. split_and!; try done. apply effect_nil.
  - destruct (IH1 s Hs Ha) as (s1&Hd1&Hs1&Ha1&Hn1&Hi1&He1).
    destruct (IH2 s1 Hs1) as (s2&Hd2&Hs2&Ha2&Hn2&Hi2&He2); [eapply slot_ok_next; [done..|lia]|].
    exists s2. simpl. step_with Hd1. split_and!; try done; [congruence..|].
    apply (effect_compose a _ _ [] [] [] [] s s1 s2 He1 He2); [lia|set_solver].
  - assert (∃ s1, clear_error er s = Ok (tt, s1) ∧ sinv s1 ∧ ERROR_HOOK s1 = a ∧ next_hook s1 = next_hook s ∧
      nid s1 = nid s ∧ effect a match er with Some k => [k] | None => [] end [] [] s s1)
      as (s1&Hd1&Hs1&Ha1&Hn1&Hi1&He1).
    { destruct er as [k|]; [by apply clear_ok|]. exists s. destruct Ha. split_and!; try done. apply effect_nil. }
    destruct (IH s1 Hs1) as (s2&Hd2&Hs2&Ha2&Hn2&Hi2&He2); [eapply slot_ok_next; [done..|lia]|].
    exists s2. simpl. step_with Hd1. split_and!; try done; [congruence..|].
    apply (effect_compose a _ _ [] [] [] [] s s1 s2 He1 He2); [lia|set_solver].
  - simpl. destruct er as [k|]; [by apply clear_ok|]. exists s. destruct Ha. split_and!; try done. apply effect_nil.
  - simpl. by apply IH.
Qed.

(** ** Building *)

Lemma guarded_ok {A} a (m : stateM (store E) A) s x s1 : (a = None → ERROR_HOOK s = None) →
  m (set_slot a s) = Ok (x, s1) → ERROR_HOOK s1 = a →
  guarded a m s = Ok (x, set_slot (ERROR_HOOK s) s1).
Proof.
  intros Ha Hm Hs1. destruct a as [h|]; simpl.
  - unfold set_error_hook, with_slot, get_error_hook, modify, gets, mbind, stateM_bind. by rewrite Hm.
  - specialize (Ha eq_refl). assert (set_slot None s = s) as Heq by (rewrite <- Ha; apply set_slot_same).
    rewrite Heq in Hm. rewrite Hm, Ha, <- Hs1. by rewrite set_slot_same.
Qed.

Lemma guarded_same {A} a (m : stateM (store E) A) s x s1 : ERROR_HOOK s = a →
  m s = Ok (x, s1) → ERROR_HOOK s1 = a → guarded a m s = Ok (x, s1).
Proof.
  intros Ha Hm Hs1. erewrite (guarded_ok a m s x s1); [|by intros <-| |done].
  - rewrite Ha, <- Hs1. by rewrite set_slot_same.
  - rewrite <- Ha at 1. by rewrite set_slot_same.
Qed.

Lemma has_errors_ok h s : has_errors h s = Ok (bool_decide (default ∅ (errors s !! h) ≠ ∅), s).
Proof. done. Qed.

(** Building: nothing is removed, and no hook of before is touched. *)
Definition builds env a v st s s' : Prop :=
  good env a v st s' ∧ sinv s' ∧ grows s s' ∧ fresh st s s' ∧ effect a [] [] (direct env st) s s'.

Lemma good_frame env a v st s s' : good env a v st s → grows s s' →
  (∀ h k, h ∈ hooks_of st → look s' h k = look s h k) → good env a v st s'.
Proof.
  intros [Hw Hh [Hi Hi'] [Hk Hk'] Ho] [Hn Hid] Hl. split; [done|by eapply holds_frame|..].
  - split; [done|]. eapply Forall_impl; [exact Hi'|]. simpl. lia.
  - split; [done|]. eapply Forall_impl; [exact Hk'|]. simpl. lia.
  - intros h Ha. destruct (Ho h Ha). split; [done|]. lia.
Qed.
Lemma good_set_slot env a v st b s : good env a v st s → good env a v st (set_slot b s).
Proof. intros Hg. eapply good_frame; [exact Hg|exact (grows_refl s)|done]. Qed.

(** What happens elsewhere leaves a state alone. *)
Lemma good_effect env a v st b ks hs adds s s' : good env a v st s → grows s s' → effect b ks hs adds s s' →
  (∀ h, h ∈ hooks_of st → h ∉ hs) → (∀ h, b = Some h → h ∉ hooks_of st) → good env a v st s'.
Proof.
  intros Hg Hgr [_ He] Hhs Hb. eapply good_frame; [exact Hg|exact Hgr|].
  intros h k Hh. apply He; [|by apply Hhs|].
  - destruct Hg as [_ _ _ [_ Hl] _]. rewrite Forall_forall in Hl. by apply Hl.
  - intros ->. by apply (Hb h).
Qed.

Lemma good_pair env a v w sa sb s : good env a v sa s → good env a w sb s → apart sa sb →
  good env a (VPair v w) (SPair sa sb) s.
Proof.
  intros [Hw Hh [Hi Hi'] [Hk Hk'] Ho] [Hw2 Hh2 [Hi2 Hi2'] [Hk2 Hk2'] Ho2] [Ha1 Ha2]. split; simpl.
  - done.
  - done.
  - split; [by apply NoDup_app|by apply Forall_app].
  - split; [by apply NoDup_app|by apply Forall_app].
  - intros h Hah. destruct (Ho h Hah), (Ho2 h Hah). rewrite elem_of_app. tauto.
Qed.

Lemma fresh_apart st st' s1 s2 : Forall (λ m, (m < nid s1)%N) (ids_of st) →
  Forall (λ h, h < next_hook s1) (hooks_of st) → fresh st' s1 s2 → apart st st'.
Proof.
  rewrite !Forall_forall. intros Hi Hh [Hi' Hh']. rewrite Forall_forall in Hi'. rewrite Forall_forall in Hh'.
  split; intros x Hx Hx'.
  - apply Hi in Hx. apply Hi' in Hx'. lia.
  - apply Hh in Hx. apply Hh' in Hx'. lia.
Qed.

Lemma builds_pair env a v w sa sb s s1 s2 : builds env a v sa s s1 → builds env a w sb s1 s2 →
  builds env a (VPair v w) (SPair sa sb) s s2.
Proof.
  intros (Hg&Hs&Hgr&[Hf1 Hf2]&He) (Hg2&Hs2&Hgr2&Hf&He2). pose proof (grows_trans _ _ _ Hgr Hgr2) as Hgr3.
  assert (apart sa sb) as Hap.
  { eapply fresh_apart; [apply (g_ids _ _ _ _ _ Hg)|apply (g_hooks _ _ _ _ _ Hg)|exact Hf]. }
  split_and!; try done.
  - apply good_pair; [|done|done]. eapply good_effect; [exact Hg|exact Hgr2|exact He2|set_solver|].
    intros h Hh. by apply (g_outer _ _ _ _ _ Hg).
  - destruct Hf as [Hf3 Hf4], Hgr. split; apply Forall_app; split; try done.
    + eapply Forall_impl; [exact Hf3|]. simpl. lia.
    + eapply Forall_impl; [exact Hf4|]. simpl. lia.
  - apply (effect_compose a [] [] [] [] _ _ s s1 s2 He He2); [apply Hgr|set_solver].
Qed.

Lemma good_text env a n s : (∀ h, a = Some h → h < next_hook s) → good env a (VText n) (SText n) s.
Proof.
  intros Ha. split; simpl; try done.
  - split; constructor.
  - split; constructor.
  - intros h Hh. split; [set_solver|auto].
Qed.

Lemma good_ok env a i n ok st s : env i = ROk n → good env a ok st s →
  good env a (VResult i ok) (SOk i a n st None a) s.
Proof. intros Hi [Hw Hh Hid Hk Ho]. by split. Qed.
Lemma good_err env a i e k ok s : env i = RErr e → (∀ h, a = Some h → h < next_hook s) →
  (is_Some a → ∃ m, k = Some m) → (∀ m, k = Some m → (m < nid s)%N) →
  good env a (VResult i ok) (SErr i a (Some k) a) s.
Proof.
  intros Hi Ha Hk Hm. split; simpl; try done.
  - split_and!; try done; [by exists e|]. exists k. split; [done|]. intros Hs. destruct (Hk Hs) as [m ->]. done.
  - destruct k as [m|]; split; try constructor; [set_solver|constructor|by apply Hm|constructor].
  - split; constructor.
  - intros h Hh. split; [set_solver|auto].
Qed.

(** A boundary gets a hook of its own. *)
Definition new_hook s : store E :=
  mkStore (Some (next_hook s)) (<[next_hook s := ∅]> (errors s)) (S (next_hook s)) (shared_context s).
Lemma look_new_hook s h k : look (new_hook s) h k = if decide (h = next_hook s) then None else look s h k.
Proof.
  unfold look. simpl. destruct (decide (h = next_hook s)) as [->|Hh].
  - rewrite lookup_insert_eq. simpl. apply lookup_empty.
  - by rewrite lookup_insert_ne.
Qed.
Lemma new_hook_sinv s : sinv s → sinv (new_hook s).
Proof.
  intros [H1 H2 H3]. split; [|done|].
  - intros h. simpl. rewrite lookup_insert_is_Some, H1. lia.
  - intros h k e. rewrite look_new_hook. destruct (decide (h = next_hook s)); [done|apply H3].
Qed.

Lemma builds_boundary env a v st fb s s2 : slot_ok a s → builds env (Some (next_hook s)) v st (new_hook s) s2 →
  builds env a (VBoundary v) (SBoundary (next_hook s) st fb) s s2.
Proof.
  intros [_ Ha] (Hg&Hs&[Hgr1 Hgr2]&[Hf1 Hf2]&[He1 He2]). simpl in Hgr1, Hgr2, Hf2.
  destruct (g_outer _ _ _ _ _ Hg _ eq_refl) as [Hh Hlt].
  assert (∀ h k, h < next_hook s → look s2 h k = look s h k) as Hold.
  { intros h k Hl. rewrite He2; [|simpl; lia|set_solver|intros [= Heq]; lia].
    rewrite look_new_hook, decide_False by lia. done. }
  split_and!.
  - destruct Hg as [Hw Hho [Hi Hi'] [Hk Hk'] Ho]. split; simpl.
    + done.
    + split; [|done]. intros k e. rewrite (He1 _ eq_refl), look_new_hook, decide_True by done. naive_solver.
    + done.
    + split; [by constructor|by constructor].
    + intros h Hah. specialize (Ha h Hah). split; [|lia]. rewrite not_elem_of_cons. split; [lia|].
      intros Hin. rewrite Forall_forall in Hf2. apply Hf2 in Hin. lia.
  - done.
  - split; [lia|done].
  - split; [done|]. simpl. constructor; [lia|]. eapply Forall_impl; [exact Hf2|]. simpl. lia.
  - split.
    + intros h Hah k e. rewrite Hold by (by apply Ha). set_solver.
    + intros h Hl _ _ k. by apply Hold.
Qed.

Lemma builds_err env a i e k ok s s' : env i = RErr e → slot_ok a s → sinv s' → grows s s' →
  effect a [] [] [(k, e)] s s' → (is_Some a → ∃ m, k = Some m ∧ (nid s ≤ m < nid s')%N) →
  (a = None → k = None) → builds env a (VResult i ok) (SErr i a (Some k) a) s s'.
Proof.
  intros Hi [_ Ha] Hs Hgr He Hk Hk'. split_and!; try done.
  - eapply good_err; [done| | |].
    + intros h Hh. destruct Hgr. specialize (Ha h Hh). lia.
    + intros Hsa. destruct (Hk Hsa) as (m&->&_). by exists m.
    + intros m ->. destruct a as [h|]; [|by specialize (Hk' eq_refl)]. destruct (Hk (ex_intro _ h eq_refl)) as (m'&[= <-]&?). lia.
  - split; [|constructor]. simpl. destruct k as [m|]; [|constructor]. destruct a as [h|]; [|by specialize (Hk' eq_refl)].
    destruct (Hk (ex_intro _ h eq_refl)) as (m'&[= <-]&?). constructor; [lia|constructor].
  - simpl. by rewrite Hi.
Qed.

Lemma build_builds env a v s : sinv s → slot_ok a s →
  ∃ st s', build env v s = Ok (st, s') ∧ ERROR_HOOK s' = a ∧ builds env a v st s s'.
Proof.
  revert a s. induction v as [n|v IHv w IHw|i ok IH|v IH]; intros a s Hs Ha.
  - exists (SText n), s. destruct Ha as [Ha Hl]. split; [done|]. split; [done|].
    split; [by apply good_text|]. split; [done|]. split; [apply grows_refl|]. split; [split; constructor|apply effect_nil].
  - destruct (IHv a s Hs Ha) as (sa&s1&Hb1&Ha1&Hbs1). destruct (IHw a s1) as (sb&s2&Hb2&Ha2&Hbs2).
    { apply Hbs1. } { eapply slot_ok_next; [done|done|apply Hbs1]. }
    exists (SPair sa sb), s2. simpl. step_with Hb1. step_with Hb2. split_and!; [done|done|].
    by eapply builds_pair.
  - destruct Ha as [Ha Hl]. simpl. unfold get_error_hook.
    assert (∃ st s', (rhook ← get_error_hook; match env i with
         | ROk n => s ← build env ok; mret (SOk i a n s None rhook)
         | RErr e => id ← throw e; mret (SErr i a (Some id) rhook) end) s = Ok (st, s') ∧
         ERROR_HOOK s' = a ∧ builds env a (VResult i ok) st s s') as (st&s'&Hb&Ha'&Hbs).
    { unfold get_error_hook, gets, mbind at 1, stateM_bind at 1. rewrite Ha. destruct (env i) as [n|e] eqn:Hi.
      - destruct (IH a s Hs (conj Ha Hl)) as (st&s'&Hb&Ha'&Hg&Hbs). exists (SOk i a n st None a), s'.
        step_with Hb. split_and!; [done|done|]. split; [by apply good_ok|exact Hbs].
      - destruct (throw_ok a e s Hs (conj Ha Hl)) as (k&s'&Ht&Hs'&Ha'&Hgr&He&Hk&Hk').
        exists (SErr i a (Some k) a), s'. step_with Ht. split_and!; [done|done|].
        by eapply builds_err. }
    exists st, s'. unfold gets, mbind at 1, stateM_bind at 1. rewrite Ha.
    split; [|done]. by apply guarded_same.
  - simpl. unfold ErrorBoundaryErrorHook_new, gets, modify, set_error_hook, with_slot, get_error_hook, mbind, stateM_bind.
    assert (sinv (new_hook s)) as Hs1 by by apply new_hook_sinv.
    destruct (IH (Some (next_hook s)) (new_hook s) Hs1) as (st&s2&Hb&Ha2&Hbs).
    { split; [done|]. intros h [= <-]. simpl. lia. }
    exists (SBoundary (next_hook s) st (bool_decide (default ∅ (errors s2 !! next_hook s) ≠ ∅))), (set_slot a s2).
    unfold mret, stateM_ret, gets, modify. cbn beta iota zeta.
    match goal with |- context[build env v ?x] => change x with (new_hook s) end. rewrite Hb, has_errors_ok.
    destruct Ha as [Ha Hl]. split; [simpl; by rewrite Ha|]. split; [done|].
    pose proof (builds_boundary env a v st (bool_decide (default ∅ (errors s2 !! next_hook s) ≠ ∅)) s s2 (conj Ha Hl) Hbs)
      as (Hg&Hs2&Hgr&Hfr&He).
    split; [by apply good_set_slot|]. split; [by apply sinv_set_slot|]. done.
Qed.

(** ** Rebuilding *)

Abbreviation keys env st := ((direct env st).*1).

(** The errors of a state are there, and its ids are not used elsewhere. *)
Definition owns env a st s : Prop := ∀ h, a = Some h →
  (∀ k e, (k, e) ∈ direct env st → look s h k = Some e) ∧
  (∀ k e, look s h k = Some e → k ∈ dropped st → k ∈ keys env st).

(** A state is turned into another one. *)
Definition turns env0 env a v st st' s s' : Prop :=
  good env a v st' s' ∧ sinv s' ∧ grows s s' ∧
  ((∀ m, m ∈ ids_of st' → m ∈ ids_of st ∨ (nid s ≤ m)%N) ∧
   (∀ h, h ∈ hooks_of st' → h ∈ hooks_of st ∨ next_hook s ≤ h)) ∧
  effect a (keys env0 st) (hooks_of st) (direct env st') s s'.

Lemma direct_ids env h v st k e : wf env (Some h) v st → (k, e) ∈ direct env st →
  ∃ m, k = Some m ∧ m ∈ ids_of st.
Proof.
  revert v. induction st as [n|st1 IH1 st2 IH2|i hk n st IH er rk|i hk er rk|h' st IH fb];
    intros [|v w|j v|v]; simpl; try done.
  - set_solver.
  - intros [Hw1 Hw2] [Hin|Hin]%elem_of_app; [destruct (IH1 _ Hw1 Hin) as (m&->&?)|destruct (IH2 _ Hw2 Hin) as (m&->&?)];
      exists m; set_solver.
  - intros (_&_&_&_&_&Hw). by eapply IH.
  - intros (->&_&_&[e' He]&k'&->&Hk). rewrite He. intros [= -> ->]%list_elem_of_singleton.
    destruct Hk as [m ->]; [done|]. exists m. set_solver.
  - set_solver.
Qed.
Lemma keys_ids env h v st k : wf env (Some h) v st → k ∈ keys env st → ∃ m, k = Some m ∧ m ∈ ids_of st.
Proof. intros Hw ([k' e]&->&Hin)%list_elem_of_fmap. by eapply direct_ids. Qed.

Lemma turns_refl env0 env a v st s : good env0 a v st s → good env a v st s → sinv s → owns env0 a st s →
  direct env st = direct env0 st → turns env0 env a v st st s s.
Proof.
  intros _ Hg Hs Ho Hd. split; [done|]. split; [done|]. split; [apply grows_refl|]. split; [split; auto|]. split; [|done].
  intros h Ha k e. destruct (Ho h Ha) as [Ho1 _]. rewrite Hd. split.
  - intros Hl. destruct (decide (k ∈ keys env0 st)) as [Hk|Hk]; [|by left]. right.
    apply list_elem_of_fmap in Hk as ([k' e']&->&Hin). apply Ho1 in Hin as Hl'. simpl in *. congruence.
  - intros [[? _]|Hin]; [done|by apply Ho1].
Qed.

(** The second part of a pair after the first one was turned *)
Section pair.
Variables (env0 env : nat → result E) (a : option nat) (v w : view) (sa sb sa' : vstate) (s s1 : store E).
Hypotheses (Hga : good env0 a v sa s) (Hgb : good env0 a w sb s) (Hap : apart sa sb).
Hypotheses (Ht : turns env0 env a v sa sa' s s1).

Lemma pair_good : good env0 a w sb s1.
Proof.
  destruct Ht as (_&_&Hgr&_&He). eapply good_effect; [exact Hgb|done|exact He| |].
  - intros h Hb Ha. by apply (proj2 Hap h).
  - intros h Hh. by apply (g_outer _ _ _ _ _ Hgb).
Qed.
Lemma pair_owns : owns env0 a sb s → owns env0 a sb s1.
Proof.
  intros Ho h Ha. destruct (Ho h Ha) as [Ho1 Ho2]. destruct Ht as (Hg'&_&_&[Hids _]&[He _]). subst a. split.
  - intros k e Hin. apply (He h eq_refl). left. split; [by apply Ho1|]. intros Hk.
    destruct (direct_ids _ _ _ _ _ _ (g_wf _ _ _ _ _ Hgb) Hin) as (m&->&Hm).
    destruct (keys_ids _ _ _ _ _ (g_wf _ _ _ _ _ Hga) Hk) as (m'&[= <-]&Hm'). by apply (proj1 Hap m).
  - intros k e Hl Hd. apply (He h eq_refl) in Hl as [[Hl _]|Hin]; [by eapply Ho2|].
    destruct (direct_ids _ _ _ _ _ _ (g_wf _ _ _ _ _ Hg') Hin) as (m&->&Hm).
    apply (dropped_ids _ _) with (1 := Hd) in Hgb as Hmb || pose proof (dropped_ids _ _ Hd _ _ _ (g_wf _ _ _ _ _ Hgb)) as Hmb.
    destruct (Hids m Hm) as [Hma|Hma]; [by destruct (proj1 Hap m Hma)|].
    destruct (g_ids _ _ _ _ _ Hgb) as [_ Hlt]. rewrite Forall_forall in Hlt. apply Hlt in Hmb. lia.
Qed.

Lemma turns_pair sb' s2 : turns env0 env a w sb sb' s1 s2 →
  turns env0 env a (VPair v w) (SPair sa sb) (SPair sa' sb') s s2.
Proof.
  intros Ht2. destruct Ht as (Hg&Hs&Hgr&[Hi Hh]&He). destruct Ht2 as (Hg2&Hs2&Hgr2&[Hi2 Hh2]&He2).
  destruct (g_ids _ _ _ _ _ Hgb) as [_ Hltb], (g_hooks _ _ _ _ _ Hgb) as [_ Hhb].
  destruct (g_ids _ _ _ _ _ Hg) as [_ Hlta], (g_hooks _ _ _ _ _ Hg) as [_ Hha].
  rewrite Forall_forall in Hltb, Hlta. rewrite Forall_forall in Hhb, Hha. pose proof (grows_trans _ _ _ Hgr Hgr2) as Hgr3.
  assert (∀ m, m ∈ ids_of sa' → m ∉ ids_of sb) as Hab.
  { intros m Hm Hmb. destruct (Hi m Hm) as [Hma|Hma]; [by destruct (proj1 Hap m Hma)|]. apply Hltb in Hmb. lia. }
  assert (∀ h, h ∈ hooks_of sa' → h ∉ hooks_of sb) as Hhab.
  { intros h Hm Hmb. destruct (Hh h Hm) as [Hma|Hma]; [by destruct (proj2 Hap h Hma)|]. apply Hhb in Hmb. lia. }
  split; [|split; [done|split; [done|split]]].
  - apply good_pair; [|done|].
    + eapply good_effect; [exact Hg|done|exact He2|done|]. intros h Ha. by apply (g_outer _ _ _ _ _ Hg).
    + split.
      * intros m Hm Hm2. destruct (Hi2 m Hm2) as [Hmb|Hmb]; [by apply (Hab m)|]. apply Hlta in Hm. lia.
      * intros h Hm Hm2. destruct (Hh2 h Hm2) as [Hmb|Hmb]; [by apply (Hhab h)|]. apply Hha in Hm. lia.
  - destruct Hgr. split; simpl.
    + intros m [Hm|Hm]%elem_of_app; rewrite elem_of_app; [destruct (Hi m Hm)|destruct (Hi2 m Hm)]; auto. right. lia.
    + intros h [Hm|Hm]%elem_of_app; rewrite elem_of_app; [destruct (Hh h Hm)|destruct (Hh2 h Hm)]; auto. right. lia.
  - simpl. rewrite fmap_app. eapply effect_compose; [exact He|exact He2|apply Hgr|].
    intros k e [h ->] Hin Hk. destruct (direct_ids _ _ _ _ _ _ (g_wf _ _ _ _ _ Hg) Hin) as (m&->&Hm).
    destruct (keys_ids _ _ _ _ _ (g_wf _ _ _ _ _ Hgb) Hk) as (m'&[= <-]&Hm'). by apply (Hab m).
Qed.
End pair.
End facts.

Section rebuild.
Context {E : Type}.
Implicit Types (s : store E) (st : vstate).
Variables env0 env : nat → result E.
Abbreviation keys env st := ((direct env st).*1).

(** The errors of a state are cleared. *)
Lemma effect_dropped a st adds s s' : owns env0 a st s → effect a (dropped st) [] adds s s' →
  effect a (keys env0 st) (hooks_of st) adds s s'.
Proof.
  intros Ho [Hd1 Hd2]. split.
  - intros h Ha k e. rewrite (Hd1 h Ha). destruct (Ho h Ha) as [_ Ho2]. specialize (Ho2 k e). split.
    + intros [[Hl Hk]|?]; [left|by right]. split; [done|]. intros ([k' e']&->&Hin)%list_elem_of_fmap.
      by apply Hk, (direct_dropped env0 _ _ e').
    + intros [[Hl Hk]|?]; [left|by right]. split; [done|]. intros Hdr. by apply Hk, Ho2.
  - intros h Hh _ Ha k. apply Hd2; [done|set_solver|done].
Qed.

(** Something new takes the place of a state, which is dropped afterwards ... *)
Lemma replaced_turns a v st new s s1 s2 : good env0 a v st s → owns env0 a st s →
  builds env a v new s s1 → effect a (dropped st) [] [] s1 s2 → grows s1 s2 → sinv s2 →
  turns env0 env a v st new s s2.
Proof.
  intros Hg Ho (Hgn&_&Hgr&[Hf1 Hf2]&He) He2 Hgr2 Hs2. rewrite Forall_forall in Hf1. rewrite Forall_forall in Hf2.
  split; [|split; [done|split; [by eapply grows_trans|split; [by split; auto|]]]].
  - eapply good_effect; [exact Hgn|done|exact He2|set_solver|]. intros h Ha. by apply (g_outer _ _ _ _ _ Hgn).
  - apply effect_dropped; [done|]. rewrite <- (app_nil_r (direct env new)).
    apply (effect_compose a [] _ [] [] _ _ s s1 s2 He He2); [apply Hgr|].
    intros k e [h ->] Hin Hk. destruct (direct_ids _ _ _ _ _ _ (g_wf _ _ _ _ _ Hgn) Hin) as (m&->&Hm).
    pose proof (dropped_ids _ _ Hk _ _ _ (g_wf _ _ _ _ _ Hg)) as Hmb. apply Hf1 in Hm.
    destruct (g_ids _ _ _ _ _ Hg) as [_ Hlt]. rewrite Forall_forall in Hlt. apply Hlt in Hmb. lia.
Qed.
(** ... or before. *)
Lemma dropped_turns a w st new s s1 s2 : owns env0 a st s →
  effect a (dropped st) [] [] s s1 → next_hook s1 = next_hook s → nid s1 = nid s →
  builds env a w new s1 s2 → turns env0 env a w st new s s2.
Proof.
  intros Ho He Hn Hi (Hgn&Hs2&Hgr&[Hf1 Hf2]&He2). rewrite Forall_forall in Hf1. rewrite Forall_forall in Hf2.
  split; [done|]. split; [done|]. split; [destruct Hgr; split; lia|]. split.
  - split; [intros m Hm; right; apply Hf1 in Hm; lia|intros h Hh; right; apply Hf2 in Hh; lia].
  - apply effect_dropped; [done|]. rewrite <- (app_nil_r (dropped st)).
    apply (effect_compose a _ [] [] [] [] _ s s1 s2 He He2); [lia|set_solver].
Qed.

Lemma owns_pair a sa sb s : owns env0 a (SPair sa sb) s → ∀ v w, good env0 a v sa s → good env0 a w sb s → apart sa sb → owns env0 a sa s ∧ owns env0 a sb s.
Proof.
  intros Ho v w Hga Hgb Hap. split; intros h Ha; destruct (Ho h Ha) as [Ho1 Ho2]; simpl in Ho1, Ho2; subst a.
  - split; [intros k e Hin; apply Ho1, elem_of_app; by left|]. intros k e Hl Hd.
    specialize (Ho2 k e Hl). rewrite fmap_app, !elem_of_app in Ho2. destruct (Ho2 (or_introl Hd)) as [?|Hk]; [done|].
    destruct (keys_ids _ _ _ _ _ (g_wf _ _ _ _ _ Hgb) Hk) as (m&->&Hm).
    by destruct (proj1 Hap m (dropped_ids _ _ Hd _ _ _ (g_wf _ _ _ _ _ Hga))).
  - split; [intros k e Hin; apply Ho1, elem_of_app; by right|]. intros k e Hl Hd.
    specialize (Ho2 k e Hl). rewrite fmap_app, !elem_of_app in Ho2. destruct (Ho2 (or_intror Hd)) as [Hk|?]; [|done].
    destruct (keys_ids _ _ _ _ _ (g_wf _ _ _ _ _ Hga) Hk) as (m&->&Hm).
    by destruct (proj1 Hap m Hm (dropped_ids _ _ Hd _ _ _ (g_wf _ _ _ _ _ Hgb))).
Qed.
Lemma good_pair_inv a v w sa sb s : good env0 a (VPair v w) (SPair sa sb) s →
  good env0 a v sa s ∧ good env0 a w sb s ∧ apart sa sb.
Proof.
  intros [[Hw1 Hw2] [Hh1 Hh2] [Hi Hi'] [Hk Hk'] Ho]. simpl in *.
  apply NoDup_app in Hi as (Hi1&Hi2&Hi3). apply NoDup_app in Hk as (Hk1&Hk2&Hk3).
  apply Forall_app in Hi' as [Hi4 Hi5]. apply Forall_app in Hk' as [Hk4 Hk5].
  split; [|split; [|done]]; split; try done.
  - intros h Ha. destruct (Ho h Ha). set_solver.
  - intros h Ha. destruct (Ho h Ha). set_solver.
Qed.

Definition slot_of a s : Prop := (a = None → ERROR_HOOK s = None) ∧ ∀ h, a = Some h → h < next_hook s.

(** A closure or boundary is built anew, and the old one dropped. *)
Lemma build_drop_ok a v st s : sinv s → slot_ok a s → good env0 a v st s → owns env0 a st s →
  ∃ st' s', (new ← build env v; _ ← drop st; mret new) s = Ok (st', s') ∧ ERROR_HOOK s' = a ∧
    turns env0 env a v st st' s s'.
Proof.
  intros Hs Ha Hg Ho. destruct (build_builds env a v s Hs Ha) as (new&s1&Hb&Ha1&Hbs).
  destruct (drop_ok a st s1) as (s2&Hd&Hs2&Ha2&Hn2&Hi2&He2).
  { apply Hbs. } { eapply slot_ok_next; [done|done|apply Hbs]. }
  exists new, s2. step_with Hb. step_with Hd. split; [done|]. split; [done|].
  eapply replaced_turns; [exact Hg|exact Ho|exact Hbs|exact He2| |done]. split; lia.
Qed.

Lemma rebuild_ok a v st s : sinv s → slot_ok a s → good env0 a v st s → owns env0 a st s →
  ∃ st' s', rebuild env v st s = Ok (st', s') ∧ ERROR_HOOK s' = a ∧ turns env0 env a v st st' s s'.
Proof.
  revert a st s. induction v as [n|v IHv w IHw|i ok IH|v IH]; intros a st s Hs Ha Hg Ho;
    pose proof (g_wf _ _ _ _ _ Hg) as Hw; destruct st as [m|sa sb|j hk m st er rk|j hk er rk|h st fb]; try done.
  - simpl in Hw. subst m. exists (SText n), s. split; [done|]. split; [apply Ha|].
    apply turns_refl; [exact Hg|by apply good_text, Ha|done|done|done].
  - destruct (good_pair_inv _ _ _ _ _ _ Hg) as (Hga&Hgb&Hap).
    destruct (owns_pair _ _ _ _ Ho _ _ Hga Hgb Hap) as [Hoa Hob].
    destruct (IHv a sa s Hs Ha Hga Hoa) as (sa'&s1&Hr1&Ha1&Ht1).
    destruct (IHw a sb s1) as (sb'&s2&Hr2&Ha2&Ht2).
    + apply Ht1.
    + eapply slot_ok_next; [done|done|apply Ht1].
    + exact (pair_good _ _ _ _ _ _ _ _ _ _ Hgb Hap Ht1).
    + exact (pair_owns _ _ _ _ _ _ _ _ _ _ Hga Hgb Hap Ht1 Hob).
    + exists (SPair sa' sb'), s2. simpl. step_with Hr1. step_with Hr2. split; [done|]. split; [done|].
      exact (turns_pair _ _ _ _ _ _ _ _ _ _ Hga Hgb Hap Ht1 _ _ Ht2).
  - by apply build_drop_ok.
  - by apply build_drop_ok.
  - by apply build_drop_ok.
Qed.

(** ** Running again *)

Lemma guarded_twice {A} a (m : stateM (store E) A) s x s1 : (a = None → ERROR_HOOK s = None) →
  m (set_slot a s) = Ok (x, s1) → ERROR_HOOK s1 = a →
  guarded a (guarded a m) s = Ok (x, set_slot (ERROR_HOOK s) s1).
Proof. intros Ha Hm Hs1. apply guarded_ok; [done| |done]. by apply guarded_same. Qed.

Lemma turns_set_slot a v st st' b c s s' : turns env0 env a v st st' (set_slot b s) s' →
  turns env0 env a v st st' s (set_slot c s').
Proof.
  intros (Hg&Hs&Hgr&Hsub&He). split; [by apply good_set_slot|]. split; [by apply sinv_set_slot|]. done.
Qed.

Lemma slot_of_slot a s : slot_of a s → slot_ok a (set_slot a s).
Proof. intros [_ Hl]. by split. Qed.

Lemma result_rebuild_ok a i ok st s : sinv s → slot_of a s → good env0 a (VResult i ok) st s →
  owns env0 a st s →
  ∃ st' s', result_rebuild env i ok st s = Ok (st', s') ∧ ERROR_HOOK s' = ERROR_HOOK s ∧
    turns env0 env a (VResult i ok) st st' s s'.
Proof.
  intros Hs Hsl Hg Ho. pose proof (sinv_set_slot a s Hs) as Hs0. pose proof (slot_of_slot _ _ Hsl) as Ha.
  destruct Hsl as [Hsl _]. pose proof (g_wf _ _ _ _ _ Hg) as Hw.
  assert (∀ st' s', ∀ m : stateM (store E) vstate, m (set_slot a s) = Ok (st', s') → ERROR_HOOK s' = a →
    turns env0 env a (VResult i ok) st st' (set_slot a s) s' →
    ∃ st'' s'', guarded a (guarded a m) s = Ok (st'', s'') ∧ ERROR_HOOK s'' = ERROR_HOOK s ∧
      turns env0 env a (VResult i ok) st st'' s s'') as Hwrap.
  { intros st' s' m Hm Hs' Ht. exists st', (set_slot (ERROR_HOOK s) s'). split; [by apply guarded_twice|].
    split; [done|]. by eapply turns_set_slot. }
  destruct st as [|sa sb|j hk n old er rk|j hk er rk|h st fb]; simpl in Hw; try done.
  - destruct Hw as (->&->&->&->&_&Hw). simpl. destruct (env i) as [n'|e] eqn:Hi.
    + destruct (rebuild_ok a ok old (set_slot a s) Hs0 Ha) as (st'&s'&Hr&Ha'&Hg'&Ht').
      { destruct Hg as [_ Hh Hid Hk Hou]. apply good_set_slot. by split. } { exact Ho. }
      eapply (Hwrap (SOk i a n' st' None a) s'); [by step_with Hr|done|]. split; [by apply good_ok|exact Ht'].
    + destruct (drop_ok a old (set_slot a s) Hs0 Ha) as (s1&Hd&Hs1&Ha1&Hn1&Hi1&He1).
      destruct (throw_ok a e s1 Hs1) as (k&s2&Ht&Hs2&Ha2&Hgr&He&Hk&Hk'); [eapply slot_ok_next; [done..|lia]|].
      eapply (Hwrap (SErr i a (Some k) a) s2); [step_with Hd; by step_with Ht|done|].
      eapply dropped_turns; [exact Ho|exact He1|done|done|]. eapply builds_err; try done.
      eapply slot_ok_next; [done..|lia].
  - destruct Hw as (->&->&->&_&k&->&_). simpl.
    destruct (drop_ok a (SErr i a (Some k) a) (set_slot a s) Hs0 Ha) as (s1&Hd&Hs1&Ha1&Hn1&Hi1&He1). simpl in Hd.
    assert (slot_ok a s1) as Hsl1 by (eapply slot_ok_next; [done..|lia]).
    destruct (env i) as [n'|e] eqn:Hi.
    + destruct (build_builds env a ok s1 Hs1 Hsl1) as (st'&s2&Hb&Ha2&Hg2&Hb2).
      eapply (Hwrap (SOk i a n' st' None a) s2); [step_with Hd; by step_with Hb|done|].
      eapply dropped_turns; [exact Ho|exact He1|done|done|]. split; [by apply good_ok|exact Hb2].
    + destruct (throw_ok a e s1 Hs1 Hsl1) as (k2&s2&Ht&Hs2&Ha2&Hgr&He&Hk&Hk').
      eapply (Hwrap (SErr i a (Some k2) a) s2); [step_with Hd; by step_with Ht|done|].
      eapply dropped_turns; [exact Ho|exact He1|done|done|]. by eapply builds_err.
Qed.
End rebuild.
