(* ===== verification/ErrorProps.v ===== *)
(** * What error boundaries show

    After any changes of signals, and once its effect has run, every boundary
    shows its fallback exactly if a [Result] below it is an [Err], with the errors
    of all of these; and three ways in which errors go wrong. *)

From Stdlib Require Import Ascii.
From stdpp Require Import base gmap list strings.
From S2P Require Import Prelude RustStr Dom Views Html ErrorBoundary ErrorFacts.

Section update.
Context {E : Type}.
Implicit Types (s : store E) (st : vstate) (env : nat → result E).

(** ** A signal is set *)

Section signal.
Variables (env0 env : nat → result E) (i : nat).
Hypothesis same : ∀ j, j ≠ i → env j = env0 j.

Lemma update_ok a v st s : sinv s → ERROR_HOOK s = None → (∀ h, a = Some h → h < next_hook s) →
  good env0 a v st s → owns env0 a st s →
  ∃ st' s', update env i v st s = Ok (st', s') ∧ ERROR_HOOK s' = None ∧ turns env0 env a v st st' s s'.
Proof.
  revert a st s. induction v as [n|v IHv w IHw|j ok IH|v IH]; intros a st s Hs Hsl Ha Hg Ho;
    pose proof (g_wf _ _ _ _ _ Hg) as Hw; destruct st as [m|sa sb|j' hk m st er rk|j' hk er rk|h st fb]; try done.
  - simpl in Hw. subst m. exists (SText n), s. split; [done|]. split; [done|].
    apply turns_refl; [exact Hg|by apply good_text|done|done|done].
  - destruct (good_pair_inv _ env _ _ _ _ _ _ Hg) as (Hga&Hgb&Hap).
    destruct (owns_pair _ _ _ _ _ Ho _ _ Hga Hgb Hap) as [Hoa Hob].
    destruct (IHv a sa s Hs Hsl Ha Hga Hoa) as (sa'&s1&Hr1&Ha1&Ht1).
    destruct (IHw a sb s1) as (sb'&s2&Hr2&Ha2&Ht2).
    + apply Ht1.
    + done.
    + intros h Hh. specialize (Ha h Hh). destruct Ht1 as (_&_&[? _]&_). lia.
    + exact (pair_good _ _ _ _ _ _ _ _ _ _ Hgb Hap Ht1).
    + exact (pair_owns _ _ _ _ _ _ _ _ _ _ Hga Hgb Hap Ht1 Hob).
    + exists (SPair sa' sb'), s2. simpl. step_with Hr1. step_with Hr2. split; [done|]. split; [done|].
      exact (turns_pair _ _ _ _ _ _ _ _ _ _ Hga Hgb Hap Ht1 _ _ Ht2).
  - simpl. destruct (decide (j = i)) as [->|Hj].
    + destruct (result_rebuild_ok env0 env a i ok (SOk j' hk m st er rk) s Hs (conj (λ _, Hsl) Ha) Hg Ho)
        as (st'&s'&Hr&Hs'&Ht). exists st', s'. split; [done|]. split; [congruence|done].
    + simpl in Hw. destruct Hw as (->&->&->&->&Hi&Hw).
      destruct (IH a st s Hs Hsl Ha) as (st'&s'&Hu&Hs'&Hg'&Ht').
      { destruct Hg as [_ Hh Hid Hk Hou]. by split. } { exact Ho. }
      exists (SOk j a m st' None a), s'. step_with Hu. split; [done|]. split; [done|]. split; [|exact Ht'].
      apply good_ok; [|done]. by rewrite same.
  - simpl. destruct (decide (j = i)) as [->|Hj].
    + destruct (result_rebuild_ok env0 env a i ok (SErr j' hk er rk) s Hs (conj (λ _, Hsl) Ha) Hg Ho)
        as (st'&s'&Hr&Hs'&Ht). exists st', s'. split; [done|]. split; [congruence|done].
    + exists (SErr j' hk er rk), s. split; [done|]. split; [done|]. simpl in Hw. destruct Hw as (->&->&->&[e Hi]&Hk).
      apply turns_refl; try done.
      * destruct Hg as [_ Hh Hid Hks Hou]. split; try done. simpl. split_and!; try done. exists e. by rewrite same.
      * simpl. by rewrite same.
  - destruct Hg as [_ [Hh Hh'] Hid [Hk Hk'] Hou]. simpl in Hw, Hid, Hk, Hk', Hou. apply NoDup_cons in Hk as [Hkn Hk].
    apply Forall_cons in Hk' as [Hlt Hk'].
    destruct (IH (Some h) st s Hs Hsl) as (st'&s'&Hu&Hs'&Hg'&Hsi&Hgr&[Hi1 Hi2]&[He1 He2]).
    { by intros ? [= <-]. } { split; try done. by intros ? [= <-]. }
    { intros ? [= <-]. split; [intros k e; apply Hh|]. intros k e Hl _. apply list_elem_of_fmap. exists (k, e).
      split; [done|by apply Hh]. }
    exists (SBoundary h st' fb), s'. simpl. step_with Hu. split; [done|]. split; [done|].
    split; [|split; [done|split; [done|split; [split|split]]]].
    + destruct Hg' as [Hw2 Hh2 Hid2 [Hk2 Hk2'] Hou2]. destruct (Hou2 h eq_refl) as [Hn Hl2]. split; simpl; try done.
      * split; [|done]. intros k e. rewrite (He1 h eq_refl). split; [|by right]. intros [[Hl Hno]|?]; [|done].
        destruct Hno. apply list_elem_of_fmap. exists (k, e). split; [done|by apply Hh].
      * split; [by constructor|by constructor].
      * intros h0 Hh0. destruct (Hou h0 Hh0) as [Hno Hl0]. split; [|destruct Hgr; lia].
        rewrite not_elem_of_cons in Hno |- *. destruct Hno as [Hno1 Hno2]. split; [done|].
        intros Hin. destruct (Hi2 h0 Hin); [done|lia].
    + done.
    + simpl. intros h0. rewrite !elem_of_cons. intros [->|Hin]; [by left; left|]. destruct (Hi2 h0 Hin); auto.
    + intros h0 Hh0 k e. simpl. destruct (Hou h0 Hh0) as [Hno Hl0]. rewrite He2; [set_solver|done|set_solver|].
      intros [= ->]. set_solver.
    + intros h0 Hl0 Hno _ k. simpl in Hno. apply He2; [done|set_solver|]. intros [= ->]. set_solver.
Qed.
End signal.

(** ** The effects of the boundaries *)

Fixpoint flushed (m : gmap nat (gmap ErrorId E)) st : vstate :=
  match st with
  | SText _ | SErr _ _ _ _ => st
  | SPair a b => SPair (flushed m a) (flushed m b)
  | SOk i hook n st error rhook => SOk i hook n (flushed m st) error rhook
  | SBoundary h st _ => SBoundary h (flushed m st) (bool_decide (default ∅ (m !! h) ≠ ∅))
  end.

Lemma flush_ok st s : flush st s = Ok (flushed (errors s) st, s).
Proof.
  induction st as [n|st1 IH1 st2 IH2|i hk n st IH er rk|i hk er rk|h st IH fb]; simpl; try done.
  - step_with IH1. by step_with IH2.
  - by step_with IH.
  - step_with (has_errors_ok h s). cbv zeta. step_with IH. unfold mret, stateM_ret.
    by destruct (bool_decide _), fb.
Qed.

Lemma flushed_keeps m env st : ids_of (flushed m st) = ids_of st ∧ hooks_of (flushed m st) = hooks_of st ∧
  direct env (flushed m st) = direct env st.
Proof.
  induction st as [n|st1 (I1&H1&D1) st2 (I2&H2&D2)|i hk n st IH er rk|i hk er rk|h st (I&H&D) fb]; simpl; try done.
  - by rewrite I1, I2, H1, H2, D1, D2.
  - by rewrite I, H.
Qed.
Lemma flushed_good m env a v st s : good env a v st s → good env a v (flushed m st) s.
Proof.
  intros [Hw Hh Hi Hk Ho]. destruct (flushed_keeps m env st) as (I&H&_). split; rewrite ?I, ?H; try done.
  - clear -Hw. revert a v Hw. induction st as [n|st1 IH1 st2 IH2|i hk n st IH er rk|i hk er rk|h st IH fb];
      intros a [|v w|j v|v]; simpl; try done.
    + intros [? ?]. auto.
    + intros (?&?&?&?&?&?). split_and!; auto.
    + apply IH.
  - clear -Hh. induction st as [n|st1 IH1 st2 IH2|i hk n st IH er rk|i hk er rk|h st IH fb]; simpl in *; try done.
    + destruct Hh. auto.
    + auto.
    + destruct Hh as [Hd Hh]. split; [|auto]. destruct (flushed_keeps m env st) as (_&_&->). done.
Qed.

(** ** What is shown *)

(** The errors are kept in a hash map, whose order is arbitrary. *)
Definition same_item (x y : item E) : Prop :=
  match x, y with
  | Text n, Text m => n = m
  | Fallback l, Fallback k => l ≡ₚ k
  | _, _ => False
  end.

Lemma direct_errors env a v st : wf env a v st → (direct env st).*2 = errors_below env v.
Proof.
  revert v. induction st as [n|st1 IH1 st2 IH2|i hk n st IH er rk|i hk er rk|h st IH fb];
    intros [|v w|j v|v]; simpl; try done.
  - intros [Hw1 Hw2]. by rewrite fmap_app, (IH1 _ Hw1), (IH2 _ Hw2).
  - intros (->&_&_&_&->&Hw). by apply IH.
  - intros (->&_&_&[e ->]&k&->&_). done.
Qed.
Lemma direct_sublist env h v st : wf env (Some h) v st → (direct env st).*1 `sublist_of` (Some <$> ids_of st).
Proof.
  revert v. induction st as [n|st1 IH1 st2 IH2|i hk n st IH er rk|i hk er rk|h' st IH fb];
    intros [|v w|j v|v]; simpl; try done.
  - intros [Hw1 Hw2]. rewrite !fmap_app. apply sublist_app; eauto.
  - intros (_&_&_&_&_&Hw). eauto.
  - intros (->&_&_&[e ->]&k&->&Hk). destruct Hk as [m ->]; [done|]. simpl. done.
  - intros _. apply sublist_nil_l.
Qed.

Lemma hook_errors env h v st s : wf env (Some h) v st → NoDup (ids_of st) →
  (∀ k e, look s h k = Some e ↔ (k, e) ∈ direct env st) →
  (map_to_list (default ∅ (errors s !! h))).*2 ≡ₚ errors_below env v.
Proof.
  intros Hw Hd Hl. assert (NoDup (direct env st).*1) as Hnd.
  { eapply sublist_NoDup; [|by eapply direct_sublist]. by apply NoDup_fmap_2; [apply _|]. }
  assert (default ∅ (errors s !! h) = list_to_map (direct env st)) as ->.
  { apply map_eq. intros k. apply option_eq. intros e. rewrite <- elem_of_list_to_map by done.
    rewrite <- Hl. unfold look. destruct (errors s !! h); simpl; [done|]. by rewrite lookup_empty. }
  rewrite map_to_list_to_map by done. by erewrite direct_errors.
Qed.

Lemma shown_expected env a v st s : good env a v st s →
  Forall2 same_item (shown (errors s) (flushed (errors s) st)) (expected env v).
Proof.
  revert a v. induction st as [n|st1 IH1 st2 IH2|i hk n st IH er rk|i hk er rk|h st IH fb];
    intros a v Hg; pose proof (g_wf _ _ _ _ _ Hg) as Hw; destruct v as [m|v w|j v|v]; simpl in Hw; try done.
  - subst. by repeat constructor.
  - destruct (good_pair_inv _ env _ _ _ _ _ _ Hg) as (Hga&Hgb&_). apply Forall2_app; eauto.
  - destruct Hw as (->&_&_&_&Hi&Hw). simpl. rewrite Hi. constructor; [done|]. eapply (IH a).
    destruct Hg as [_ Hh Hid Hk Hou]. by split.
  - destruct Hw as (->&_&_&[e Hi]&_). simpl. rewrite Hi. constructor.
  - destruct Hg as [_ [Hl Hh] Hid [Hk Hk'] _]. simpl in Hid, Hk, Hk'. apply NoDup_cons in Hk as [Hn Hk].
    apply Forall_cons in Hk' as [Hlt Hk'].
    pose proof (hook_errors _ _ _ _ _ Hw (proj1 Hid) Hl) as Hp. simpl.
    destruct (errors_below env v) as [|e l] eqn:He.
    + apply Permutation_nil_r, fmap_nil_inv, map_to_list_empty_iff in Hp. rewrite Hp, bool_decide_eq_false_2 by tauto.
      apply (IH (Some h)). split; try done. by intros ? [= <-].
    + rewrite bool_decide_eq_true_2; [by repeat constructor|]. intros Hm. rewrite Hm, map_to_list_empty in Hp.
      simpl in Hp. by apply Permutation_nil_cons in Hp.
Qed.

(** ** Pages *)

Definition live (v : view) (p : page) s : Prop :=
  good p.1 None v p.2 s ∧ sinv s ∧ ERROR_HOOK s = None.

Lemma owns_nobody env st s : owns env None st s.
Proof. by intros h. Qed.

Lemma on_event_live v e p s : live v p s → ∃ p' s', on_event v e p s = Ok (p', s') ∧ live v p' s' ∧
  match e with
  | Set_ i r => p'.1 = (λ j, if decide (j = i) then r else p.1 j)
  | Flush => p'.1 = p.1 ∧ s' = s ∧ p'.2 = flushed (errors s) p.2
  end.
Proof.
  destruct p as [env st]. intros (Hg&Hs&Hsl). destruct e as [i r|].
  - simpl. set (env' := λ j, if decide (j = i) then r else env j).
    destruct (update_ok env env' i) with (a := @None nat) (v := v) (st := st) (s := s) as (st'&s'&Hu&Hsl'&Hg'&Hs'&_); try done.
    { intros j Hj. unfold env'. by rewrite decide_False. }
    exists (env', st'), s'. step_with Hu. done.
  - simpl. exists (env, flushed (errors s) st), s. step_with (flush_ok st s). split; [done|].
    split; [|done]. split; [by apply flushed_good|done].
Qed.

(** The values of the signals after some events *)
Fixpoint env_after (es : list (event E)) (env : nat → result E) : nat → result E :=
  match es with
  | [] => env
  | Set_ i r :: es => env_after es (λ j, if decide (j = i) then r else env j)
  | Flush :: es => env_after es env
  end.

Lemma on_events_live v es p s : live v p s → ∃ p' s', on_events v es p s = Ok (p', s') ∧ live v p' s' ∧
  p'.1 = env_after es p.1.
Proof.
  revert p s. induction es as [|e es IH]; intros p s Hl; [by exists p, s|].
  destruct (on_event_live v e p s Hl) as (p1&s1&He&Hl1&H1). destruct (IH p1 s1 Hl1) as (p2&s2&Hes&Hl2&H2).
  exists p2, s2. simpl. step_with He. split; [done|]. split; [done|]. rewrite H2.
  destruct e; [by rewrite H1|destruct H1 as [-> _]; done].
Qed.

Lemma start_live v env : ∃ st s, build env v (start (E := E) true) = Ok (st, s) ∧ live v (env, st) s.
Proof.
  destruct (build_builds env None v (start true)) as (st&s&Hb&Hsl&Hg&Hs&_).
  - split; [|done|].
    + intros h. simpl. rewrite lookup_empty. split; [by intros []|lia].
    + intros h k e. unfold look. simpl. by rewrite lookup_empty.
  - done.
  - exists st, s. done.
Qed.

(** C11: With a shared context, a page never panics, and however its signals are
    set, once the effects have run it shows of every boundary the fallback exactly
    if a [Result] below it, with no boundary in between, is an [Err], together with
    the errors of all of these; and the error hook is what it was. *)
Theorem boundaries_show_errors v env es :
  ∃ p s, run v env es (start true) = Ok (p, s) ∧ ERROR_HOOK s = None ∧
    Forall2 same_item (shown (errors s) p.2) (expected (env_after es env) v).
Proof.
  destruct (start_live v env) as (st&s&Hb&Hl). destruct (on_events_live v es (env, st) s Hl) as (p1&s1&He&Hl1&Henv).
  destruct (on_event_live v Flush p1 s1 Hl1) as (p2&s2&Hf&Hl2&_&->&Hp2).
  exists p2, s1. unfold run. step_with Hb. step_with He. split; [done|]. destruct Hl1 as (Hg&_&Hsl).
  split; [done|]. rewrite Hp2. simpl in Henv. rewrite <- Henv. by eapply shown_expected.
Qed.
End update.

(** ** Errors that go wrong *)

(** Without a shared context, as when a page is rendered in the browser alone, all
    errors have the same id: when the first of two inputs is corrected, the
    boundary does not show its fallback any more, although the other is still wrong. *)
Theorem corrected_error_hides_the_other :
  let v := VBoundary (VPair (VResult 0 (VText 100)) (VResult 1 (VText 101))) in
  let shows es := match run v (λ i, RErr i) es (start false) with
                  | Ok (p, s) => shown (errors s) p.2 | _ => [] end in
  shows [] = [Fallback [1]] ∧ shows [Set_ 0 (ROk 7)] = [Text 7; Text 100] ∧
  expected (env_after [Set_ 0 (ROk 7)] (λ i, RErr i)) v = [Fallback [1]].
Proof. by vm_compute. Qed.

(** The boundary does not tell how its children end: a text behind it is printed
    without the comment that separates it from a text at its end, and hydration
    makes both texts take the same node. *)
Definition merged_texts : Dom.document :=
  Dom.mkDocument {[ 0 := Dom.NElement (lit "body"); 1 := Dom.NText (lit "ab") ]} {[ 0 := [1] ]} {[ 1 := 0 ]} 2.
Theorem text_behind_boundary_merges :
  (Html.tuple_to_html (boundary_to_html (Html.str_to_html id (lit "a")) (Html.str_to_html id (lit "!")) true)
     (Html.str_to_html id (lit "b")) [] Html.FirstChild Html.HYDRATE).1 = lit "ab" ∧
  Html.hydrate_from merged_texts (Views.TTuple Views.TString Views.TString) (lit "a", lit "b") 0 =
    Ok (Views.mkStrState 1 (lit "a"), Views.mkStrState 1 (lit "b")).
Proof. split; vm_compute; reflexivity. Qed.
